(* ===== verification/_CoqProject ===== *)
-Q . S2P
Prelude.v
Values.v
Interfaces.v
Program.v
OffsetMap.v
Types.v
GameState.v
GameMembers.v
GameCreation.v
GameProps.v
GameEvents.v
GameSteps.v
GameAdmission.v
ForeignBuffers.v
PluginEvents.v
PluginCalls.v
Ipc.v
SockSelector.v
Metrics.v
ServerManager.v
Coroutines.v
ForeignCalls.v
Connections.v
PeerPersistence.v
PackedViews.v
Directory.v
DirectoryScenarios.v
Release.v
LobbyQuery.v
SqlText.v
DataModel.v
HandlerGame.v
HandlerGameSafety.v
HandlerGameJoin.v
HandlerGameEffects.v
HandlerBase.v
LobbyTable.v
Authentication.v
PluginHost.v
SettingsDb.v
HandlerEntry.v
MasterLists.v
HandlerMaster.v
HandlerMasterSafety.v
HandlerMasterRoutes.v
Mirror.v
PfrCodec.v
Yaml.v
Configuration.v
ConfigSpec.v
Subprocess.v
ServerLoop.v
Startup.v
HttpText.v
HttpBatch.v
HttpServer.v
HttpRoutes.v
Scenarios.v
ServerScenarios.v
PluginScenarios.v
ServiceScenarios.v
QueryScenarios.v
RouteScenarios.v
SettingsScenarios.v
