(* ===== verification/Prelude.v ===== *)
(** * Luxon Server: a verification library

    Luxon is a game server for clients of the Photon protocol: a name server
    authenticates a client and tells it a master server, which keeps the
    lobbies, matches players and sends each client to a game server, where it
    plays in a room.  The servers of one deployment share a process, or
    several processes that mirror each other over message streams.  This
    library models the server's own C++ code ([src/*.cpp] and
    [include/luxon/server/*.hpp]) as Rocq functions and proves what the parts
    promise to each other.

    ** The parts and their files

    - Ground: this file (record update, machine integers, list lemmas,
      tactics); [Values] (the interface of the serialized values and of the
      protocol's codes, and concrete instances of both); [Interfaces] (what
      one component promises another, as classes); [Program] (handlers as
      programs that may return early, and a program logic for them).
    - [OffsetMap]: [offset_map.hpp], a map stored as a window of slots.
      [insert_], [erase], [get] and the iterator are the member functions.
    - [Types]: the records of [apps.hpp], [lobby.hpp], [game.hpp], [peer.hpp]
      and [peer_persistence.hpp], and the encoding of identifications.
    - Rooms, [game.cpp]: [GameState] (the record [Game], field by field),
      [GameMembers] (actors, reservations, interest groups, join validation),
      [GameCreation] (the creation transaction and its rollback), [GameProps]
      (properties), [GameEvents] (event cache, dispatch, the flood of a
      joining peer).  [GameSteps] and [GameAdmission] prove what rooms keep.
    - Streams between processes: [Ipc] ([ipc.cpp]) and [SockSelector]
      ([sock_selector.cpp]).
    - [server_manager.cpp]: [ServerManager] (endpoint addresses, limits,
      scheduled tasks, the round over the servers and relaying), [Yaml] (the
      nodes of [yaml.cpp] the configuration is read from), [Configuration]
      (the configuration parser), [ConfigSpec] (the grammar of configuration
      files and what each describes), [Subprocess] (how a manager starts, and the
      configuration it hands to a subprocess), [Connections] (the callbacks
      on the network's peers, the table of connections and the slow update),
      [ServerLoop] (the main loop: the messages it takes in, its timer, how
      it ends), [Startup] (the network servers and the HTTP server a process
      starts, and what keeps their STUN bindings alive), [Mirror] (what other processes learn of a process's rooms).
    - Coroutines: [Coroutines] ([AwaitableTask.hpp], a task that is awaited
      or detached while it finishes) and [ForeignCalls] ([FfiAwaiter.hpp] and
      its use in [ffi.cpp], a coroutine resumed from another thread).
    - The foreign function interface, [ffi.cpp]: [ForeignBuffers] (byte
      arrays, texts and masks handed over, and the boundary no exception
      passes), [PluginEvents] (events a plugin makes and edits),
      [PluginCalls] (what a plugin does to a room and its members) and
      [PluginHost] (the registry of [game_plugin_registry.cpp], and foreign
      plugins and authenticators as the handlers call them).
    - [PfrCodec]: [pfr_codec.hpp], the codec that carries a structure as a
      serialized value, over a datatype of C++ types.
    - [PackedViews]: [pfr_pack.hpp], string views packed into a buffer of
      their own, over a memory of blocks, and the invitations that are.
    - [PeerPersistence]: parked identities, from [peer_persistence.cpp] and
      the registry events of [server_manager.cpp].
    - The directory of applications, lobbies and rooms: [Directory]
      ([apps.cpp], [lobby.cpp]), [Release] (what goes when its last owner
      lets go), [LobbyQuery] ([Lobby::query_lobbies]), [LobbyTable] (the
      table of rooms in [lobby_vt.cpp] that the database queries) and
      [SqlText] (the comparisons of texts and the matcher of patterns in
      [sqlite3.c] that the table calls).
    - [DataModel]: request models and their decoder, [data_model.hpp].
    - [Metrics]: rolling statistics, [metrics.cpp].
    - [http_server.cpp]: [HttpText] (encodings of paths and bytes),
      [HttpBatch] (batches of requests), [HttpServer] (connections),
      [HttpRoutes] ([route_request], which shows the server's state).
    - [SettingsDb]: the settings database, [settings_manager.cpp].
    - Handlers: [HandlerBase] ([handler_base.cpp]), [Authentication]
      ([authentication.cpp]), [HandlerGame] and [HandlerEntry]
      ([handler_gameserver.cpp] inside a room and up to it, and
      [handler_nameserver.cpp]), [MasterLists] and [HandlerMaster]
      ([handler_masterserver.cpp], reading and acting).  [HandlerGameSafety],
      [HandlerGameJoin], [HandlerGameEffects], [HandlerMasterSafety] and
      [HandlerMasterRoutes] prove what the handlers keep and do.
    - [Scenarios], [DirectoryScenarios], [ServerScenarios],
      [PluginScenarios], [ServiceScenarios], [QueryScenarios],
      [RouteScenarios] and [SettingsScenarios] apply the theorems to concrete
      rooms, directories, servers, plugins, services, queries, paths and
      settings.

    ** How state is modelled

    Objects behind smart pointers are named by natural numbers; an
    environment or heap maps the names of live objects to their contents.  A
    [std::shared_ptr] member is an [option] of a name, a [std::weak_ptr] locks
    to a name the heap still holds.  The deleters that run when the last
    owner lets go are operations ([destroy_game], [destroy_lobby],
    [destroy_app]); [Release] decides from the heaps whether an owner is
    left.  Operations return the new state with their result and the effects
    they have outside ([Effect], [Notice], [EventMessage], [ServerOut]).  A
    handler is a program over its world (its own state and what it shares); an
    early return ends the program, a destructor at scope exit is the wrapper
    [scope].  A null dereference or an exception that escapes is an explicit
    result ([Fault], [Crash], [Throw]), never a stuck term.  A handle
    a plugin holds names what it points at when it is used
    ([PluginCalls.NodeHandle]); a call through a freed one has no result.
    Operations that take the room's lock are atomic; other connections interleave
    between the steps of [GameSteps.step], [Directory.dir_step] and
    [HandlerMasterSafety.masters_step], and at the plugin hooks of
    [HandlerGame].  Below them, [Coroutines.step] and [ForeignCalls.step] have
    one step per atomic operation or critical section of the two threads, and
    [Connections.step] one per stretch a coroutine runs between two awaits.

    ** What the theorems show

    - Rooms: every operation keeps the invariant [game_ok]; an aborted
      creation gives the room back as it was; one creation at a time, and a
      finished lease is never accepted again; the actor search finds a free
      number exactly when there is one; who is inserted and what a departure
      removes; properties, recipients and cached serialization.
    - Stores: every operation of the offset map is that of a finite map; the
      selector dispatches like its table; framed messages arrive whole and in
      order, whatever the fragmentation.
    - Directory: names are unique among live objects, lookups agree with the
      heaps, and a room's entry in its lobby is never taken out.
    - Queries: the plan the table of rooms gives the database is read back as
      it was meant, and the rows are exactly the live rooms of the lobby that
      satisfy the conditions, whether looked up by id or scanned; LIKE and
      GLOB match exactly what their patterns describe.
    - Scheduling: every due task runs, no listening server starves; a
      connection leaves the table exactly when a removal is run that the
      handling of its disconnect scheduled; every connection gets its slow
      update in exactly the rounds that look at the timer 251 milliseconds or
      more after the look at which the last ones were made, and the loop ends
      with the first round that is told to stop.
    - Starting: a port is served as the last server configured for it says,
      its socket is watched once it is bound, and exactly one task keeps a
      STUN binding alive for as long as the process runs.
    - Invitations: the views of a packed identification show the texts it was
      made from, also when the memory these came from is gone.
    - Coroutines: in every interleaving of a task with its owner, and of a
      coroutine with the foreign call that resumes it, nothing is touched once
      freed, every run ends, and the result arrives; when a task may be
      dropped instead.
    - Settings: a path's options mean what they ask for, left to right; an
      application opens exactly when the database lists it or [unknown], with
      the settings the columns of that row name and its numbers in range; a
      demanded identity needs a provider
      the database allows and a plugin that vouches; migrations are applied
      in order and never again.
    - Requests: decoding looks each parameter up and inverts encoding.
    - Connections: whatever a client sends, rooms only change through their
      operations and the directory stays sound, on the game server and on any
      number of interleaved master server connections; exactly who is
      authenticated, and as whom, in terms of the token store, the policy of
      the application and the answers of its providers; an identity parked by one server is handed to the
      connection that presents its token, once; a client sent to a room
      arrives in it; a join of a created room is admitted exactly when the
      room's check allows it and never overbooks it.
    - Processes: a mirrored room shows the last update it takes, which is one
      of the newest its owner sent, but it can miss a departure and never
      shows lobby properties; the reflection codec gives back what it encoded
      and only ever yields well-formed objects; a configuration file is
      accepted exactly when it keeps to the grammar, means what it says key by
      key, is well formed then and reaches a subprocess unchanged, which
      serves what it was started for and routes like its parent.
    - Plugins: whatever foreign plugins a room has and whatever they call
      back, at once or when they are resumed, the room keeps its invariant and
      gains no member by them; foreign plugins are one of the [Plugins] the
      handler is proved against; names and ids of registered plugins; an
      event's content is fixed by its first broadcast; what is written to a
      plugin's buffers stays in them, texts as prefixes with their NUL and of
      a list of ids as many as fit, and masks and answers read back.
    - HTTP: percent encodings are undone, batches do bounded work and, without
      templates, are sequences of requests; every connection gets at most one
      answer, of which no byte is lost or repeated, and the table of clients
      stays within its limit and agrees with what is registered; the path of
      a live room shows it, whatever the encoding and the form of the path.
    - Where the code does not keep a promise, a theorem says so (dangling
      master role, actor number 254, the room limit, unsolicited joins,
      uninvited clients, missed departures, plugins that cannot add
      a member, the connection limit that is
      never read, subprocesses cut off from settings and parent, two
      subprocesses on one port, processes
      that end with the process at the other end of a connection, buffers
      that grow without bound or move under the views of them, foreign calls
      that come too early or twice).

    ** Bounds and fuel

    Actor numbers are 1 to 254 and the search probes each once (254 steps).
    Interest groups are 256 flags.  Store and expected-user generations wrap
    at 2^64; the theorems about parked identities assume the counter below
    2^64 - 1.  Game revisions wrap at 2^64.  Reservations live 30000 ms, room
    lists have at most 500 entries and batches are sent every 5000 ms, as in
    the code.  [remove_peer] recurses on a fuel of one more than the number of
    nodes, each round removing one.  A tick of [service_servers] visits each of
    the [n] servers at most once.  The game server's request handler calls
    itself at most once, so [game_request] has depth two
    ([HandlerEntry.two_levels_enough]).  The codec's depth limit is 64, of
    which a configuration needs a few levels ([Subprocess.config_codable]).
    The search for templates in a path has one more round than the path has
    characters, and each moves forward ([HttpBatch.extract_templates_enough]).
    The matcher of patterns has one more round than the pattern has bytes,
    its searches one more than the text ([SqlText.patternCompare_spec]); the
    plan of a query is read with one round per byte
    ([LobbyTable.plan_read_back]); a value is converted to JSON with one level
    more than its size ([HttpRoutes.val_to_json_enough]).
    The options of a database path are stripped with one round more than the
    path has characters ([SettingsDb.open_arguments_spec]), and a lookup of
    settings falls back at most once, so its depth is two
    ([SettingsDb.get_app_settings_speaking]).
    Messages of another process are taken in with one round more than there
    are bytes ([ServerLoop.receive_loop_enough]); the main loop runs with any
    fuel, and [ServerLoop.run_ends] says from which on it returns.
    An HTTP request has at most 65536 bytes, a batch 25 steps of at most 50
    requests, the table 256 clients.

    ** Parameters

    The Luxon protocol library (values, codes, serializers), the network
    library, the values and statements of SQLite, the file system, the YAML
    and JSON parsers, splitting, sorting, the clock and random draws are
    classes or section variables, with what the code relies on as
    their laws; [ServerScenarios] and [Values] instantiate them.

    ** Not modelled

    The database apart from the parts above, which drives the table of rooms
    and executes the statements of the settings; the text of the network
    library's metrics, and when they are measured; the
    YAML parser (the nodes it builds are modelled); floating-point fields and
    borrowed strings in the codec; the rest of [ffi.cpp], which forwards to
    the serializer, to the logger, to the builder of configurations and to the
    operations on lobbies modelled here; the packets a plugin's own calls send
    from inside a hook, and requests it replaces; an owner that is destroyed
    while it is suspended in a task; callbacks of the selector that use what
    they captured after they removed themselves; memory orders weaker than sequential
    consistency; the event of the coroutine library, which nothing in the
    server waits for; logging, [main.cpp] and vendored code.  Hook points and plugins are hooks, in builds that have them. *)

From stdpp Require Export base gmap strings list fin_maps fin_sets sorting.
From Stdlib Require Export ZArith Lia.
From Stdlib Require Ascii.

#[global] Set Default Goal Selector "!".

(** ** Record update

    [r <| field := v |>] updates one field of a record and
    [r <| field ::= f |>] applies a function to it.  A record becomes
    updatable with an [Eta] instance that lists its fields once. *)

Class Eta (R : Type) := eta : R → R.

Class Setter {R T : Type} (proj : R → T) := set_field : (T → T) → R → R.
#[global] Hint Mode Setter - - ! : typeclass_instances.

Ltac build_setter proj :=
  let f := fresh "f" in
  let x := fresh "x" in
  refine (λ f x, _);
  let R := type of x in
  let e := constr:(_ : Eta R) in
  let e := eval cbv beta in e in
  let t := eval cbv beta delta [eta] in (@eta R e x) in
  let h := head_of e in
  let t := eval unfold h in t in
  let t := eval cbv beta in t in
  let t := eval pattern (proj x) in t in
  match t with
  | ?k _ => let r := eval cbv beta in (k (f (proj x))) in exact r
  end
with head_of e :=
  match e with
  | ?h _ => head_of h
  | _ => e
  end.

#[global] Hint Extern 1 (Setter ?proj) => build_setter proj : typeclass_instances.

Arguments set_field {R T} proj {_} f r /.

Declare Scope luxon_scope.
Delimit Scope luxon_scope with lx.

Notation "r <| p := v |>" := (set_field p (λ _, v) r)
  (at level 12, left associativity, p at level 9, v at level 99,
   format "r  <| p  :=  v |>") : luxon_scope.
Notation "r <| p ::= f |>" := (set_field p f r)
  (at level 12, left associativity, p at level 9, f at level 99,
   format "r  <| p  ::=  f |>") : luxon_scope.
#[global] Open Scope luxon_scope.

(** ** Machine integers

    A [w]-bit unsigned integer is a [Z]; [wrap w] is the value C++ stores
    after an unsigned computation, and [swrap w] the two's complement value
    of a narrowing conversion to a signed type. *)

Definition wrap (w : Z) (z : Z) : Z := (z mod 2 ^ w)%Z.
Definition swrap (w : Z) (z : Z) : Z :=
  let u := wrap w z in if decide (u < 2 ^ (w - 1))%Z then u else (u - 2 ^ w)%Z.

Abbreviation u8 := (wrap 8).
Abbreviation u32 := (wrap 32).
Abbreviation u64 := (wrap 64).
Abbreviation s32 := (swrap 32).
Abbreviation s64 := (swrap 64).

(** [size()] of a container, as an integer. *)
Abbreviation len l := (Z.of_nat (length l)).

Lemma wrap_range (w z : Z) : (0 ≤ w)%Z → (0 ≤ wrap w z < 2 ^ w)%Z.
Proof. intros. unfold wrap. apply Z.mod_pos_bound. lia. Qed.

Lemma wrap_small (w z : Z) : (0 ≤ z < 2 ^ w)%Z → wrap w z = z.
Proof. intros. unfold wrap. by apply Z.mod_small. Qed.

Lemma wrap_wrap (w z : Z) : wrap w (wrap w z) = wrap w z.
Proof. unfold wrap. apply Zmod_mod. Qed.

(** A byte appended below a shifted number. *)
Lemma lor_shift8 (a x : Z) :
  (0 ≤ a)%Z → (0 ≤ x < 256)%Z → Z.lor (Z.shiftl a 8) x = (a * 256 + x)%Z.
Proof.
  intros Ha Hx. pose proof (Z.add_lor_land (Z.shiftl a 8) x) as E.
  enough (Z.land (Z.shiftl a 8) x = 0)%Z as E0.
  { rewrite Z.shiftl_mul_pow2 in * by lia. change (2 ^ 8)%Z with 256%Z in *. lia. }
  clear E.
  apply Z.bits_inj'. intros k Hk. rewrite Z.land_spec, Z.bits_0.
  destruct (decide (k < 8)%Z) as [Hl|Hg].
  - by rewrite Z.shiftl_spec_low.
  - assert (Z.testbit x k = false) as ->; [|apply andb_false_r].
    destruct (decide (x = 0)%Z) as [->|Hx0]; [apply Z.bits_0|].
    apply Z.bits_above_log2; [lia|].
    assert (Z.log2 x < 8)%Z; [apply Z.log2_lt_pow2; lia|lia].
Qed.

(** The byte at a bit offset. *)
Lemma byte_at (n i : Z) :
  (0 ≤ i)%Z → Z.land (Z.shiftr n i) 255 = ((n / 2 ^ i) mod 256)%Z.
Proof.
  intros Hi. change 255%Z with (Z.ones 8).
  rewrite Z.land_ones by lia. by rewrite Z.shiftr_div_pow2.
Qed.

(** ** Fallible results

    [std::expected], or the outcome of a function that may throw. *)

Definition fallible (E A : Type) : Type := A + E.

#[export] Instance fallible_bind E : MBind (fallible E) := λ A B f r,
  match r with inl x => f x | inr e => inr e end.

(** A loop that converts one element after the other and stops at the first
    failure; [i] is the position of the next element. *)
Fixpoint traverse {E A B} (f : nat → A → fallible E B) (i : nat) (l : list A) :
    fallible E (list B) :=
  match l with
  | [] => inl []
  | x :: l =>
      y ← f i x;
      ys ← traverse f (S i) l;
      inl (y :: ys)
  end.

Lemma fallible_bind_inl {E A B} (r : fallible E A) (f : A → fallible E B) y :
  r ≫= f = inl y ↔ ∃ x, r = inl x ∧ f x = inl y.
Proof. destruct r; cbn; naive_solver. Qed.

Lemma traverse_Forall {E A B} (f : nat → A → fallible E B) (P : B → Prop) l i ys :
  (∀ i x y, x ∈ l → f i x = inl y → P y) → traverse f i l = inl ys → Forall P ys.
Proof.
  revert i ys. induction l as [|x l IH]; intros i ys Hf; cbn [traverse].
  - by intros [= <-].
  - intros (y & Hy & (ys' & Hys & [= <-])%fallible_bind_inl)%fallible_bind_inl.
    constructor; [eapply Hf; [left|done]|].
    eapply IH; [|done]. intros j z w Hz. apply Hf. by right.
Qed.

(** ** Characters *)

(** A [char], as its code. *)
Definition code_of (c : Ascii.ascii) : Z := Z.of_nat (Ascii.nat_of_ascii c).
Definition char_of (z : Z) : Ascii.ascii := Ascii.ascii_of_nat (Z.to_nat z).

Lemma code_range c : (0 ≤ code_of c < 256)%Z.
Proof. unfold code_of. pose proof (Ascii.nat_ascii_bounded c). lia. Qed.

Lemma char_code c : char_of (code_of c) = c.
Proof. unfold char_of, code_of. by rewrite Nat2Z.id, Ascii.ascii_nat_embedding. Qed.

Section strings.
#[local] Open Scope stdpp_scope.

Lemma string_app_nil (s : string) : s +:+ "" = s.
Proof. induction s as [|c s IH]; [done|]. exact (f_equal (String c) IH). Qed.

Lemma string_app_assoc (a b c : string) : (a +:+ b) +:+ c = a +:+ (b +:+ c).
Proof. induction a as [|x a IH]; [done|]. exact (f_equal (String x) IH). Qed.

Lemma string_length_app (a b : string) :
  String.length (a +:+ b) = (String.length a + String.length b)%nat.
Proof. induction a as [|x a IH]; [done|]. exact (f_equal S IH). Qed.
End strings.

(** ** Bit masks *)

(** [flags & mask] used as a condition. *)
Definition has_flag (flags mask : Z) : bool := negb (Z.land flags mask =? 0)%Z.

(** ** Lists *)

(** [std::list::remove_if]: erase the elements satisfying the predicate. *)
Definition remove_if {A} (p : A → bool) (l : list A) : list A :=
  filter (λ x, p x = false) l.
Arguments remove_if {A} p l : simpl never.

Section lists.
Context {A B : Type}.
Implicit Types (l : list A) (p : A → bool).

Lemma elem_of_remove_if p l (x : A) :
  x ∈ remove_if p l ↔ x ∈ l ∧ p x = false.
Proof. unfold remove_if. rewrite list_elem_of_filter. tauto. Qed.

Lemma remove_if_app p l1 l2 :
  remove_if p (l1 ++ l2) = remove_if p l1 ++ remove_if p l2.
Proof. unfold remove_if. apply filter_app. Qed.

Lemma remove_if_none p l :
  (∀ x, x ∈ l → p x = false) → remove_if p l = l.
Proof.
  unfold remove_if. induction l as [|a l IH]; [done|]. intros Hp.
  rewrite filter_cons_True by (apply Hp; left). f_equal.
  apply IH. intros x Hx. apply Hp. by right.
Qed.

Lemma remove_if_true p l :
  (∀ x, x ∈ l → p x = true) → remove_if p l = [].
Proof.
  unfold remove_if. induction l as [|a l IH]; [done|]. intros Hp.
  rewrite filter_cons_False by (rewrite (Hp a) by left; done).
  apply IH. intros x Hx. apply Hp. by right.
Qed.

Lemma filter_none (P : A → Prop) `{∀ x, Decision (P x)} l :
  (∀ x, x ∈ l → ¬ P x) → filter P l = [].
Proof.
  induction l as [|a l IH]; [done|]. intros Hp.
  rewrite filter_cons_False by (apply Hp; left).
  apply IH. intros x Hx. apply Hp. by right.
Qed.

Lemma remove_if_remove_if p q l :
  remove_if p (remove_if q l) = remove_if (λ x, q x || p x) l.
Proof.
  unfold remove_if. rewrite list_filter_filter. apply list_filter_iff.
  intros x. rewrite orb_false_iff. tauto.
Qed.

Lemma list_find_bool_None p l :
  list_find (λ x, p x = true) l = None → ∀ x, x ∈ l → p x = false.
Proof.
  intros Hf x Hx. apply list_find_None in Hf.
  rewrite Forall_forall in Hf. specialize (Hf x Hx). by destruct (p x).
Qed.
End lists.

(** Mapping a function and then its inverse. *)
Lemma fmap_inv {A B} (f : A → B) (g : B → A) (l : list A) :
  (∀ x, g (f x) = x) → g <$> (f <$> l) = l.
Proof. intros E. induction l; [done|]. cbn. by rewrite E; f_equal. Qed.

Lemma NoDup_fmap_eq {A B} (f : A → B) (l : list A) x y :
  NoDup (f <$> l) → x ∈ l → y ∈ l → f x = f y → x = y.
Proof.
  intros Hn [i Hi]%list_elem_of_lookup_1 [j Hj]%list_elem_of_lookup_1 E.
  assert (i = j) as ->; [|congruence].
  eapply (NoDup_lookup (f <$> l)); [done| |]; rewrite list_lookup_fmap.
  - by rewrite Hi.
  - by rewrite Hj, E.
Qed.

(** [std::find_if] over a list, giving the element. *)
Fixpoint find_first {A} (p : A → bool) (l : list A) : option A :=
  match l with
  | [] => None
  | x :: l => if p x then Some x else find_first p l
  end.

Section find_first.
Context {A : Type}.
Implicit Types (l : list A) (p : A → bool).

Lemma find_first_Some p l x :
  find_first p l = Some x → x ∈ l ∧ p x = true.
Proof.
  induction l as [|a l IH]; [done|]. cbn. destruct (p a) eqn:Ha.
  - intros [= ->]. split; [left|done].
  - intros [? ?]%IH. split; [by right|done].
Qed.

Lemma find_first_None p l :
  find_first p l = None ↔ ∀ x, x ∈ l → p x = false.
Proof.
  induction l as [|a l IH]; cbn.
  - split; [intros _ x Hx; by apply not_elem_of_nil in Hx|done].
  - destruct (p a) eqn:Ha.
    + split; [done|]. intros H. specialize (H a ltac:(left)). congruence.
    + rewrite IH. split.
      * intros H x [->|Hx]%elem_of_cons; [done|by apply H].
      * intros H x Hx. apply H. by right.
Qed.

Lemma find_first_is_Some p l x :
  x ∈ l → p x = true → is_Some (find_first p l).
Proof.
  intros Hx Hp. destruct (find_first p l) eqn:Hf; [done|].
  rewrite find_first_None in Hf. specialize (Hf x Hx). congruence.
Qed.

Lemma find_first_unique p l x :
  x ∈ l → p x = true → (∀ y, y ∈ l → p y = true → y = x) →
  find_first p l = Some x.
Proof.
  intros Hx Hp Hu. destruct (find_first_is_Some _ _ _ Hx Hp) as [y Hy].
  rewrite Hy. f_equal. apply find_first_Some in Hy as [??]. by apply Hu.
Qed.

Lemma find_first_app p l1 l2 :
  find_first p (l1 ++ l2) =
  match find_first p l1 with Some x => Some x | None => find_first p l2 end.
Proof. induction l1 as [|a l1 IH]; [done|]. cbn. by destruct (p a). Qed.
End find_first.

(** The first element satisfying the predicate, with what is before and after
    it: the state of a loop over a linked list that stops at that element. *)
Fixpoint split_first {A} (p : A → bool) (l : list A) : option (list A * A * list A) :=
  match l with
  | [] => None
  | x :: l =>
      if p x then Some ([], x, l)
      else match split_first p l with
           | Some (l1, y, l2) => Some (x :: l1, y, l2)
           | None => None
           end
  end.

Section split_first.
Context {A : Type}.
Implicit Types (l : list A) (p : A → bool).

Lemma split_first_None p l :
  split_first p l = None → ∀ x, x ∈ l → p x = false.
Proof.
  intros Hs. induction l as [|x l IH]; cbn in Hs.
  { intros x Hx. by apply not_elem_of_nil in Hx. }
  destruct (p x) eqn:Hx; [done|].
  destruct (split_first p l) as [[[??]?]|] eqn:E; [done|].
  intros y [->|Hy]%elem_of_cons; [done|by apply IH].
Qed.

Lemma split_first_Some p l l1 x l2 :
  split_first p l = Some (l1, x, l2) →
  l = l1 ++ x :: l2 ∧ (∀ y, y ∈ l1 → p y = false) ∧ p x = true.
Proof.
  revert l1. induction l as [|y l IH]; [done|]. intros l1. cbn.
  destruct (p y) eqn:Hy.
  - intros [= <- -> ->]. split; [done|]. split; [|done].
    intros z Hz. by apply not_elem_of_nil in Hz.
  - destruct (split_first p l) as [[[l1' x'] l2']|] eqn:E; [|done].
    intros [= <- -> ->]. destruct (IH _ eq_refl) as (-> & Hl1 & Hgp).
    split; [done|]. split; [|done].
    intros z [->|Hz]%elem_of_cons; [done|by apply Hl1].
Qed.
End split_first.

(** ** Hint databases

    [luxon] holds the lemmas that close the routine side conditions of the
    components, [luxon_rw] the rewrite rules that simplify them. *)

Create HintDb luxon.
Create Rewrite HintDb luxon_rw.
#[export] Hint Resolve wrap_range : luxon.
#[export] Hint Rewrite @remove_if_app @elem_of_remove_if : luxon_rw.

(** ** Tactics *)

(** Case analysis on every conditional of the goal and the hypotheses. *)
Ltac cases :=
  repeat first
    [ progress simplify_eq
    | case_match
    | progress cbn in * ].

(** Turn boolean tests into propositions. *)
Ltac bools :=
  repeat match goal with
  | H : _ && _ = true |- _ => apply andb_prop in H as [??]
  | H : _ || _ = false |- _ => apply orb_false_elim in H as [??]
  | H : negb _ = true |- _ => apply negb_true_iff in H
  | H : negb _ = false |- _ => apply negb_false_iff in H
  | H : (_ =? _)%Z = true |- _ => apply Z.eqb_eq in H
  | H : (_ =? _)%Z = false |- _ => apply Z.eqb_neq in H
  | H : (_ <? _)%Z = true |- _ => apply Z.ltb_lt in H
  | H : (_ <? _)%Z = false |- _ => apply Z.ltb_ge in H
  | H : (_ <=? _)%Z = true |- _ => apply Z.leb_le in H
  | H : (_ <=? _)%Z = false |- _ => apply Z.leb_gt in H
  | H : bool_decide _ = true |- _ => apply bool_decide_eq_true in H
  | H : bool_decide _ = false |- _ => apply bool_decide_eq_false in H
  end.

(** Read a field of an updated record: [p (r <| q := v |>)] is [v] when [q]
    is [p] and [p r] otherwise.  Nothing else is unfolded: the equation is
    checked once for a variable record and then used to rewrite. *)
Ltac read_eq R T p q s k :=
  first
    [ unify p q;
      k constr:((λ f x, eq_refl) : ∀ (f : T → T) (x : R), p (@set_field R T q s f x) = f (p x))
    | k constr:((λ f x, eq_refl) : ∀ (f : T → T) (x : R), p (@set_field R T q s f x) = p x) ].
Ltac upd :=
  repeat match goal with
  | |- context [?p (@set_field ?R ?T ?q ?s ?f ?r)] =>
      lazymatch p with @set_field _ _ _ _ _ => fail | _ => idtac end;
      read_eq R T p q s ltac:(fun e => rewrite (e f r)); cbv beta
  end.
Ltac upd_in H :=
  repeat match type of H with
  | context [?p (@set_field ?R ?T ?q ?s ?f ?r)] =>
      lazymatch p with @set_field _ _ _ _ _ => fail | _ => idtac end;
      read_eq R T p q s ltac:(fun e => rewrite (e f r) in H); cbv beta in H
  end.

Lemma NoDup_fmap_filter {A B} (f : A → B) (Q : A → Prop) `{∀ x, Decision (Q x)} l :
  NoDup (f <$> l) → NoDup (f <$> filter Q l).
Proof.
  induction l as [|x l IH]; [done|]. rewrite fmap_cons, NoDup_cons.
  intros [Hx Hn]. rewrite filter_cons. destruct (decide (Q x)); [|by apply IH].
  rewrite fmap_cons, NoDup_cons. split; [|by apply IH].
  rewrite list_elem_of_fmap. intros (y & E & [_ Hy]%list_elem_of_filter).
  apply Hx, list_elem_of_fmap. eauto.
Qed.

(** Membership in a list given by its elements. *)
Ltac in_list :=
  repeat setoid_rewrite elem_of_app;
  repeat setoid_rewrite elem_of_cons;
  repeat setoid_rewrite elem_of_nil.
