(* ===== verification/Values.v ===== *)
(** * The serialized values and protocol codes the server relies on

    [ser::Value], [ser::Hashtable] and the code enumerations of
    [luxon/common_codes.hpp] belong to the Luxon protocol library, a
    submodule.  They are parameters of the development: [Ser] is the
    interface of a value type, [SerLaws] what the server relies on about it
    (a [Value] is a tagged union whose [==] compares contents), [Codes] the
    numeric codes.  [TreeSer] is a concrete value type used by the witnesses. *)

From S2P Require Import Prelude.
From stdpp Require Import countable.

(** <include/luxon/server/pfr_codec.hpp:149-184 value_kind>
    The alternatives of [ser::Value], in the order of the variant index. *)
Inductive Alt :=
  | ANull | ABool | AByte | AInt16 | AInt32 | AInt64 | AFloat | ADouble
  | AString | ABytes | ABools | AInt16s | AInt32s | AInt64s | AFloats
  | ADoubles | AStrings | AObjects | AJagged | ADictionary
  | AGenericDictionary | AHashtable | ACustom | AEvent | ARequest
  | AResponse | ADictionaries | AGenericDictionaries | AHashtables
  | ACustoms | APreSerialized.

#[global] Instance Alt_eq_dec : EqDecision Alt.
Proof. solve_decision. Defined.

(** [Value] with its constructors ([Value(x)]) and the typed accessors
    ([get_ptr<T>()]); [Hashtable] is the map from values to values, reached
    through a shared pointer that may be null ([of_null_table]). *)
Class Ser := {
  Value : Type;
  Value_eq_dec :: EqDecision Value;
  Value_countable :: Countable Value;
  kind : Value → Alt;
  null : Value;
  of_bool : bool → Value;
  of_byte : Z → Value;
  of_int16 : Z → Value;
  of_int32 : Z → Value;
  of_int64 : Z → Value;
  of_string : string → Value;
  of_bytes : list Z → Value;
  of_bools : list bool → Value;
  of_ints : list Z → Value;
  of_strings : list string → Value;
  of_list : list Value → Value;
  of_table : gmap Value Value → Value;
  of_null_table : Value;
  get_bool : Value → option bool;
  get_byte : Value → option Z;
  get_int16 : Value → option Z;
  get_int32 : Value → option Z;
  get_int64 : Value → option Z;
  get_string : Value → option string;
  get_bytes : Value → option (list Z);
  get_bools : Value → option (list bool);
  get_ints : Value → option (list Z);
  get_strings : Value → option (list string);
  get_list : Value → option (list Value);
  get_table : Value → option (gmap Value Value);
}.

Abbreviation Hashtable := (gmap Value Value).
(** [ser::Dictionary] and [ser::ParameterList]: byte keys to values. *)
Abbreviation ParameterList := (gmap Z Value).

Definition is_null `{Ser} (v : Value) : bool := bool_decide (kind v = ANull).

(** An accessor returns the payload exactly for values of its alternative. *)
Class Accessor `{Ser} {A : Type} (a : Alt) (mk : A → Value)
    (get : Value → option A) : Prop := {
  acc_kind x : kind (mk x) = a;
  acc_get x : get (mk x) = Some x;
  acc_inv v x : get v = Some x → v = mk x;
}.

Class SerLaws `{Ser} : Prop := {
  kind_null v : kind v = ANull ↔ v = null;
  bool_acc :: Accessor ABool of_bool get_bool;
  byte_acc :: Accessor AByte of_byte get_byte;
  int16_acc :: Accessor AInt16 of_int16 get_int16;
  int32_acc :: Accessor AInt32 of_int32 get_int32;
  int64_acc :: Accessor AInt64 of_int64 get_int64;
  string_acc :: Accessor AString of_string get_string;
  bytes_acc :: Accessor ABytes of_bytes get_bytes;
  bools_acc :: Accessor ABools of_bools get_bools;
  ints_acc :: Accessor AInt32s of_ints get_ints;
  strings_acc :: Accessor AStrings of_strings get_strings;
  list_acc :: Accessor AObjects of_list get_list;
  table_acc :: Accessor AHashtable of_table get_table;
  null_table_kind : kind of_null_table = AHashtable;
  null_table_get : get_table of_null_table = None;
}.

Section accessors.
Context `{SerLaws}.

Lemma is_null_spec v : is_null v = true ↔ v = null.
Proof. unfold is_null. by rewrite bool_decide_eq_true, kind_null. Qed.

Lemma is_null_null : is_null null = true.
Proof. by apply is_null_spec. Qed.

(** Values of different alternatives are different. *)
Lemma acc_other {A B a b} (mka : A → Value) (geta : Value → option A)
    (mkb : B → Value) (getb : Value → option B)
    `{!Accessor a mka geta, !Accessor b mkb getb} (x : A) :
  a ≠ b → getb (mka x) = None.
Proof.
  intros Hne. destruct (getb (mka x)) as [y|] eqn:Hy; [|done].
  apply acc_inv in Hy. exfalso. apply Hne.
  by rewrite <-(acc_kind (a := a) (mk := mka) x), Hy, acc_kind.
Qed.

Lemma acc_inj {A a} (mk : A → Value) (get : Value → option A)
    `{!Accessor a mk get} (x y : A) :
  mk x = mk y → x = y.
Proof.
  intros E. apply (f_equal get) in E. rewrite !acc_get in E. congruence.
Qed.

Lemma acc_not_null {A a} (mk : A → Value) (get : Value → option A)
    `{!Accessor a mk get} (x : A) :
  a ≠ ANull → is_null (mk x) = false.
Proof. intros. unfold is_null. by rewrite acc_kind, bool_decide_eq_false. Qed.

Lemma acc_null {A a} (mk : A → Value) (get : Value → option A)
    `{!Accessor a mk get} :
  a ≠ ANull → get null = None.
Proof.
  intros Hne. destruct (get null) as [x|] eqn:Hx; [|done].
  apply acc_inv in Hx. exfalso. apply Hne.
  rewrite <-(acc_kind (a := a) (mk := mk) x), <-Hx. by apply kind_null.
Qed.
End accessors.

(** ** Further alternatives

    The arrays of other widths and the jagged array, which only the
    reflection codec reads and writes; [get_jagged] gives the elements
    of a [JaggedArray].  [truncated] is what a cast of a [float] or [double]
    payload to an integer gives. *)
Class SerArrays `{Ser} := {
  of_int16s : list Z → Value;
  of_int64s : list Z → Value;
  of_jagged : list Value → Value;
  get_int16s : Value → option (list Z);
  get_int64s : Value → option (list Z);
  get_jagged : Value → option (list Value);
  truncated : Value → option Z;
}.

Class SerArraysLaws `{SerArrays} : Prop := {
  int16s_acc :: Accessor AInt16s of_int16s get_int16s;
  int64s_acc :: Accessor AInt64s of_int64s get_int64s;
  jagged_acc :: Accessor AJagged of_jagged get_jagged;
  truncated_kind v z : truncated v = Some z → kind v = AFloat ∨ kind v = ADouble;
}.

(** ** Protocol codes

    The numeric codes of [luxon/common_codes.hpp] that travel in messages,
    take part in bit arithmetic or index a table.  [cache_operations] and [receiver_groups]
    list the enumerators of their types.  Enumerations the server only
    compares ([ErrorCodes], [OpCodes]) are inductive types in the files that
    use them. *)

Class Codes := {
  (* GameFlags *)
  CheckUserOnJoin : Z;
  DeleteCacheOnLeave : Z;
  SuppressRoomEvents : Z;
  PublishUserId : Z;
  DeleteNullProps : Z;
  BroadcastPropsChangeToAll : Z;
  SuppressPlayerInfo : Z;
  (* GameProps *)
  MaxPlayers : Z;
  IsVisible : Z;
  IsOpen : Z;
  PlayerTTL : Z;
  EmptyGameTTL : Z;
  MasterClientId : Z;
  LobbyProperties : Z;
  PlayerCount : Z;
  Removed : Z;
  (* ActorProps *)
  ActorUserId : Z;
  (* EventCodes *)
  EvPropertiesUpdate : Z;
  EvJoin : Z;
  EvLeave : Z;
  (* DictKeyCodes *)
  KeyGameId : Z;
  KeyAddress : Z;
  KeyLobbyName : Z;
  KeyLobbyType : Z;
  KeyApplicationId : Z;
  KeyAppVersion : Z;
  KeyActorNo : Z;
  KeyActorList : Z;
  KeyTargetActorNo : Z;
  KeyData : Z;
  KeyProperties : Z;
  KeyActorProperties : Z;
  KeyGameProperties : Z;
  KeyMasterClientId : Z;
  KeyCleanupCacheOnLeave : Z;
  KeyToken : Z;
  KeyUserId : Z;
  KeyPlayerTTL : Z;
  KeyBroadcast : Z;
  KeyReceiverGroup : Z;
  KeyInterestGroup : Z;
  KeyCache : Z;
  KeyCode : Z;
  KeyCreateIfNotExists : Z;
  KeyExpectedUsers : Z;
  KeyPlugins : Z;
  KeyEmptyRoomTTL : Z;
  KeyGameFlags : Z;
  KeyCheckUserOnJoin : Z;
  KeySuppressRoomEvents : Z;
  KeyPublishUserId : Z;
  KeyExpectedValues : Z;
  KeyAdd : Z;
  KeyRemove : Z;
  KeyPosition : Z;
  (* CacheOperation *)
  DoNotCache : Z;
  AddToRoomCache : Z;
  AddToRoomCacheGlobal : Z;
  RemoveFromRoomCache : Z;
  RemoveFromCacheForActorsLeft : Z;
  cache_operations : list Z;
  (* ReceiverGroup *)
  RgOthers : Z;
  RgAll : Z;
  RgMasterClient : Z;
  receiver_groups : list Z;
}.

(** The property keys are labels of one [switch], hence distinct. *)
Definition game_prop_keys `{Codes} : list Z :=
  [MaxPlayers; IsVisible; IsOpen; PlayerTTL; EmptyGameTTL; MasterClientId;
   LobbyProperties; PlayerCount].

(** The keys under which applications, lobbies and games are identified. *)
Definition info_keys `{Codes} : list Z :=
  [KeyGameId; KeyAddress; KeyLobbyName; KeyLobbyType; KeyApplicationId;
   KeyAppVersion].

Class CodesLaws `{Codes} : Prop := {
  game_prop_keys_nodup : NoDup game_prop_keys;
  info_keys_nodup : NoDup info_keys;
  receiver_groups_nodup : NoDup [RgOthers; RgAll; RgMasterClient];
}.

(** ** A concrete value type

    Trees over booleans, integers and strings; the node tag is the
    alternative.  An accessor guesses the payload and confirms it by
    rebuilding the value. *)
Module TreeSer.
Definition leaf : Type := bool + Z + string.
Definition tree : Type := gen_tree leaf.
#[global] Instance tree_eq_dec : EqDecision tree := _.
#[global] Instance tree_countable : Countable tree := _.

Definition lb (b : bool) : tree := GenLeaf (inl (inl b)).
Definition lz (z : Z) : tree := GenLeaf (inl (inr z)).
Definition ls (s : string) : tree := GenLeaf (inr s).
Definition to_b (t : tree) : bool :=
  match t with GenLeaf (inl (inl b)) => b | _ => false end.
Definition to_z (t : tree) : Z :=
  match t with GenLeaf (inl (inr z)) => z | _ => 0%Z end.
Definition to_s (t : tree) : string :=
  match t with GenLeaf (inr s) => s | _ => EmptyString end.
Definition kids (t : tree) : list tree :=
  match t with GenNode _ l => l | _ => [] end.
Definition kid (t : tree) : tree := default (lb false) (head (kids t)).
Fixpoint pairs (l : list tree) : list (tree * tree) :=
  match l with k :: v :: l => (k, v) :: pairs l | _ => [] end.
Definition unpairs (l : list (tree * tree)) : list tree :=
  mjoin ((λ kv, [kv.1; kv.2]) <$> l).

Definition checked {A} (mk : A → tree) (guess : tree → A) (t : tree) :
    option A :=
  if decide (t = mk (guess t)) then Some (guess t) else None.

Definition alts : list Alt :=
  [ANull; ABool; AByte; AInt16; AInt32; AInt64; AString; ABytes; ABools;
   AInt32s; AStrings; AObjects; AHashtable; AInt16s; AInt64s; AJagged].
Definition tag (t : tree) : nat :=
  match t with GenNode n _ => n | _ => 99 end.
Definition tree_kind (t : tree) : Alt :=
  if decide (tag t = 0) then
    if decide (t = GenNode 0 []) then ANull else ACustom
  else default ACustom (alts !! tag t).

Definition mk_table (m : gmap tree tree) : tree :=
  GenNode 12 (unpairs (map_to_list m)).
Definition un_table (t : tree) : gmap tree tree :=
  list_to_map (pairs (kids t)).

#[global] Instance tree_ser : Ser := {|
  Value := tree;
  kind := tree_kind;
  null := GenNode 0 [];
  of_bool b := GenNode 1 [lb b];
  of_byte z := GenNode 2 [lz z];
  of_int16 z := GenNode 3 [lz z];
  of_int32 z := GenNode 4 [lz z];
  of_int64 z := GenNode 5 [lz z];
  of_string s := GenNode 6 [ls s];
  of_bytes l := GenNode 7 (lz <$> l);
  of_bools l := GenNode 8 (lb <$> l);
  of_ints l := GenNode 9 (lz <$> l);
  of_strings l := GenNode 10 (ls <$> l);
  of_list l := GenNode 11 l;
  of_table := mk_table;
  of_null_table := GenNode 12 [lb false];
  get_bool := checked (λ b, GenNode 1 [lb b]) (λ t, to_b (kid t));
  get_byte := checked (λ z, GenNode 2 [lz z]) (λ t, to_z (kid t));
  get_int16 := checked (λ z, GenNode 3 [lz z]) (λ t, to_z (kid t));
  get_int32 := checked (λ z, GenNode 4 [lz z]) (λ t, to_z (kid t));
  get_int64 := checked (λ z, GenNode 5 [lz z]) (λ t, to_z (kid t));
  get_string := checked (λ s, GenNode 6 [ls s]) (λ t, to_s (kid t));
  get_bytes := checked (λ l, GenNode 7 (lz <$> l)) (λ t, to_z <$> kids t);
  get_bools := checked (λ l, GenNode 8 (lb <$> l)) (λ t, to_b <$> kids t);
  get_ints := checked (λ l, GenNode 9 (lz <$> l)) (λ t, to_z <$> kids t);
  get_strings := checked (λ l, GenNode 10 (ls <$> l)) (λ t, to_s <$> kids t);
  get_list := checked (GenNode 11) kids;
  get_table := checked mk_table un_table;
|}.

Lemma pairs_unpairs l : pairs (unpairs l) = l.
Proof. induction l as [|[k v] l IH]; [done|]. cbn. by f_equal. Qed.

Lemma un_mk_table m : un_table (mk_table m) = m.
Proof.
  unfold un_table, mk_table. cbn [kids].
  by rewrite pairs_unpairs, list_to_map_to_list.
Qed.

Lemma checked_acc {A} (a : Alt) (mk : A → tree) (guess : tree → A) :
  (∀ x, tree_kind (mk x) = a) → (∀ x, guess (mk x) = x) →
  Accessor (H := tree_ser) a mk (checked mk guess).
Proof.
  intros Hk Hg. split; [done|..].
  - intros x. unfold checked. rewrite Hg. by rewrite decide_True.
  - intros v x. unfold checked. case_decide as E; [|done].
    intros [= <-]. done.
Qed.

#[global] Instance tree_laws : SerLaws.
Proof.
  split; [|first [ apply checked_acc; intros; try done;
                   first [by apply fmap_inv|apply un_mk_table]
                 | vm_compute; reflexivity ]..].
  intros v. cbn. unfold tree_kind. split.
  - repeat case_decide; [done..|]. destruct (tag v) as [|n]; [done|].
    do 16 (destruct n as [|n]; [done|]). done.
  - by intros ->.
Qed.

#[global] Instance tree_arrays : SerArrays := {|
  of_int16s l := GenNode 13 (lz <$> l);
  of_int64s l := GenNode 14 (lz <$> l);
  of_jagged l := GenNode 15 l;
  get_int16s := checked (λ l, GenNode 13 (lz <$> l)) (λ t, to_z <$> kids t);
  get_int64s := checked (λ l, GenNode 14 (lz <$> l)) (λ t, to_z <$> kids t);
  get_jagged := checked (GenNode 15) kids;
  truncated _ := None;
|}.

#[global] Instance tree_arrays_laws : SerArraysLaws.
Proof.
  split; [apply checked_acc; intros; try done; by apply fmap_inv..|done].
Qed.
End TreeSer.

(** The code values of the Photon protocol; [GameFlags] agree with the
    initial [flags = 3] of [Game], documented as
    [CheckUserOnJoin | DeleteCacheOnLeave]. *)
Module PhotonCodes.
#[global] Instance photon_codes : Codes := {|
  CheckUserOnJoin := 1; DeleteCacheOnLeave := 2; SuppressRoomEvents := 4;
  PublishUserId := 8; DeleteNullProps := 16;
  BroadcastPropsChangeToAll := 32; SuppressPlayerInfo := 64;
  MaxPlayers := 255; IsVisible := 254; IsOpen := 253; PlayerTTL := 246;
  EmptyGameTTL := 245; MasterClientId := 248; LobbyProperties := 250;
  PlayerCount := 252; Removed := 251; ActorUserId := 253;
  EvPropertiesUpdate := 253; EvJoin := 255; EvLeave := 254;
  KeyGameId := 255; KeyAddress := 230; KeyLobbyName := 213;
  KeyLobbyType := 212; KeyApplicationId := 224; KeyAppVersion := 220;
  KeyActorNo := 254; KeyActorList := 252; KeyTargetActorNo := 253;
  KeyData := 245; KeyProperties := 251; KeyActorProperties := 249;
  KeyGameProperties := 248; KeyMasterClientId := 203;
  KeyCleanupCacheOnLeave := 241; KeyToken := 221; KeyUserId := 225;
  KeyPlayerTTL := 235; KeyBroadcast := 250;
  KeyReceiverGroup := 246; KeyInterestGroup := 240; KeyCache := 247;
  KeyCode := 244; KeyCreateIfNotExists := 215; KeyExpectedUsers := 238;
  KeyPlugins := 204; KeyEmptyRoomTTL := 236; KeyGameFlags := 191;
  KeyCheckUserOnJoin := 232; KeySuppressRoomEvents := 237;
  KeyPublishUserId := 239; KeyExpectedValues := 231; KeyAdd := 238;
  KeyRemove := 239; KeyPosition := 223;
  DoNotCache := 0; AddToRoomCache := 4; AddToRoomCacheGlobal := 5;
  RemoveFromRoomCache := 6; RemoveFromCacheForActorsLeft := 7;
  cache_operations := [0; 1; 2; 3; 4; 5; 6; 7; 10; 11; 12; 13];
  RgOthers := 0; RgAll := 1; RgMasterClient := 2; receiver_groups := [0; 1; 2];
|}%Z.

#[global] Instance photon_laws : CodesLaws.
Proof. split; by apply (bool_decide_unpack _). Qed.
End PhotonCodes.
