(* ===== verification/Interfaces.v ===== *)
(** * Interfaces between components

    What one component promises to its clients, as classes: a client's
    theorems are proved from the class, the implementation's theorems
    discharge its laws. *)

From S2P Require Import Prelude.

(** A mutable map from [w]-bit unsigned keys, as the clients of
    [offset_map] use it.  [repr m g] relates the implementation state to the
    abstract finite map it stands for. *)
Class KeyedMap (w : Z) (M : Type → Type) := {
  km_empty {T} : M T;
  km_get {T} : M T → Z → option T;
  km_insert {T} : M T → Z → T → M T * bool;
  km_insert_or_assign {T} : M T → Z → T → M T * bool;
  km_erase {T} : M T → Z → M T * Z;
  km_size {T} : M T → Z;
  km_entries {T} : M T → list (Z * T);
  km_repr {T} : M T → gmap Z T → Prop;
}.

Definition key_ok (w k : Z) : Prop := (0 ≤ k < 2 ^ w)%Z.

Class KeyedMapLaws (w : Z) (M : Type → Type) `{!KeyedMap w M} : Prop := {
  km_empty_repr {T} : km_repr (T := T) km_empty ∅;
  km_get_repr {T} (m : M T) g k :
    km_repr m g → key_ok w k → km_get m k = g !! k;
  km_insert_repr {T} (m : M T) g k x :
    km_repr m g → key_ok w k →
    km_repr (km_insert m k x).1 (match g !! k with Some _ => g | None => <[k:=x]> g end) ∧
    (km_insert m k x).2 = bool_decide (g !! k = None);
  km_assign_repr {T} (m : M T) g k x :
    km_repr m g → key_ok w k →
    km_repr (km_insert_or_assign m k x).1 (<[k:=x]> g) ∧
    (km_insert_or_assign m k x).2 = bool_decide (g !! k = None);
  km_erase_repr {T} (m : M T) g k :
    km_repr m g → key_ok w k →
    km_repr (km_erase m k).1 (delete k g) ∧
    (km_erase m k).2 = (if decide (g !! k = None) then 0 else 1)%Z;
  km_size_repr {T} (m : M T) g : km_repr m g → km_size m = Z.of_nat (size g);
  km_entries_repr {T} (m : M T) g :
    km_repr m g → map_to_list g ≡ₚ km_entries m;
  km_entries_sorted {T} (m : M T) g :
    km_repr m g → StronglySorted Z.lt (km_entries m).*1;
}.
