(* ===== verification/Program.v ===== *)
(** * Handlers as programs

    A handler is a program over its world: it returns the new world, what it
    sent, and its value unless it returned early, which skips the rest.  A
    destructor at scope exit is a wrapper around the scope's body.  The
    second part is a small program logic over such programs: invariants kept
    and facts learnt, whatever the path. *)

From S2P Require Import Prelude.

Definition Prog (W O A : Type) : Type := W → W * list O * option A.

Section monad.
Context {W O : Type}.

Definition ret {A} (x : A) : Prog W O A := λ w, (w, [], Some x).
Definition stop {A} : Prog W O A := λ w, (w, [], None).
Definition bind {A B} (m : Prog W O A) (f : A → Prog W O B) : Prog W O B := λ w,
  let '(w, out, r) := m w in
  match r with
  | None => (w, out, None)
  | Some x => let '(w, out', r) := f x w in (w, out ++ out', r)
  end.
Definition get : Prog W O W := λ w, (w, [], Some w).
Definition modify (f : W → W) : Prog W O () := λ w, (f w, [], Some ()).
Definition say (l : list O) : Prog W O () := λ w, (w, l, Some ()).
Definition when (b : bool) (m : Prog W O ()) : Prog W O () := if b then m else ret ().

(** A scope whose exit, early or not, runs [finally]. *)
Definition scope {A} (body : Prog W O A) (finally : Prog W O ()) : Prog W O A := λ w,
  let '(w, out, r) := body w in
  let '(w, out', _) := finally w in (w, out ++ out', r).

(** A loop over a list. *)
Fixpoint each {A} (f : A → Prog W O ()) (l : list A) : Prog W O () :=
  match l with
  | [] => ret ()
  | x :: l => bind (f x) (λ _, each f l)
  end.
End monad.

(** A step that only reads the world. *)
Lemma quiet_bind {W O A B} (m : Prog W O A) (f : A → Prog W O B) w x :
  m w = (w, [], Some x) → bind m f w = f x w.
Proof. intros E. unfold bind. rewrite E. by destruct (f x w) as [[w' out] r]. Qed.

(** A step that went on. *)
Lemma ran_bind {W O A B} (m : Prog W O A) (f : A → Prog W O B) w w' out x :
  m w = (w', out, Some x) →
  bind m f w = (let '(w2, out2, r) := f x w' in (w2, out ++ out2, r)).
Proof. intros E. unfold bind. by rewrite E. Qed.

Lemma get_bind {W O A} (f : W → Prog W O A) w : bind get f w = f w w.
Proof. by apply quiet_bind. Qed.

Notation "x ⇐ m ; k" := (bind m (λ x, k))
  (at level 20, m at level 100, k at level 200, right associativity) : luxon_scope.
Notation "m ;;; k" := (bind m (λ _, k))
  (at level 100, k at level 200, right associativity) : luxon_scope.

(** ** Invariants of programs

    [holds P m Q]: from a world satisfying [P] the program ends in a world
    satisfying the invariant [Inv], and [Q] of its value too if it goes on. *)
Section logic.
Context {W O : Type} (Inv : W → Prop).

Definition holds {A} (P : W → Prop) (m : Prog W O A) (Q : A → W → Prop) : Prop :=
  ∀ w, Inv w → P w → Inv (m w).1.1 ∧ ∀ x, (m w).2 = Some x → Q x (m w).1.1.

(** The program only has to keep the invariant. *)
Abbreviation keeps m := (holds (λ _, True) m (λ _ _, True)).

Lemma holds_bind {A B} P Q R (m : Prog W O A) (f : A → Prog W O B) :
  holds P m Q → (∀ x, holds (Q x) (f x) R) → holds P (bind m f) R.
Proof.
  intros Hm Hf w Hw Hp. destruct (Hm w Hw Hp) as [Hw1 Hq]. unfold bind.
  destruct (m w) as [[w1 out] [x|]]; cbn in *; [|by split].
  destruct (Hf x w1 Hw1 (Hq x eq_refl)) as [Hw2 Hr].
  by destruct (f x w1) as [[w2 out2] r].
Qed.

Lemma holds_weaken {A} (P P' : W → Prop) (m : Prog W O A) (Q Q' : A → W → Prop) :
  holds P m Q → (∀ w, P' w → P w) → (∀ x w, Q x w → Q' x w) → holds P' m Q'.
Proof.
  intros Hm Hp Hq w Hw Hw'. destruct (Hm w Hw (Hp w Hw')) as [? Hr]. split; [done|].
  intros x Hx. by apply Hq, Hr.
Qed.

Lemma holds_ret {A} (P : W → Prop) (Q : A → W → Prop) (x : A) :
  (∀ w, Inv w → P w → Q x w) → holds P (ret x) Q.
Proof. intros Hq w Hw Hp. split; [done|]. intros y [= <-]. auto. Qed.

Lemma holds_stop {A} (P : W → Prop) (Q : A → W → Prop) : holds P stop Q.
Proof. intros w Hw _. by split. Qed.

Lemma holds_say P out : holds P (say out) (λ _, P).
Proof. intros w Hw Hp. by split. Qed.

Lemma holds_get P : holds P get (λ w0 w, w = w0 ∧ P w).
Proof. intros w Hw Hp. split; [done|]. by intros x [= <-]. Qed.

(** Reading the world: what follows may rely on it being that world. *)
Lemma holds_get_bind {A} P (f : W → Prog W O A) R :
  (∀ w, Inv w → P w → holds (λ w', w' = w) (f w) R) → holds P (bind get f) R.
Proof.
  intros Hf w Hw Hp. destruct (Hf w Hw Hp w Hw eq_refl) as [Hw' Hr]. unfold bind, get.
  by destruct (f w w) as [[w1 out] r].
Qed.

(** Sequencing a step of which nothing is needed. *)
Lemma holds_seq {A} P (m : Prog W O ()) (k : Prog W O A) R :
  holds P m (λ _ _, True) → holds (λ _, True) k R → holds P (bind m (λ _, k)) R.
Proof. intros Hm Hk. eapply holds_bind; [exact Hm|]. by intros []. Qed.

Lemma holds_any {A} (P : W → Prop) (m : Prog W O A) R : holds (λ _, True) m R → holds P m R.
Proof. intros Hm w Hw _. by apply Hm. Qed.

Lemma holds_say_any (P : W → Prop) out : holds P (say out) (λ _ _, True).
Proof. intros w Hw _. by split. Qed.

Lemma holds_modify (P : W → Prop) (Q : () → W → Prop) f :
  (∀ w, Inv w → P w → Inv (f w) ∧ Q () (f w)) → holds P (modify f) Q.
Proof. intros Hf w Hw Hp. destruct (Hf w Hw Hp). split; [done|]. by intros [] _. Qed.

Lemma holds_when (P : W → Prop) b m :
  (b = true → holds P m (λ _ _, True)) → holds P (when b m) (λ _ _, True).
Proof. intros Hm. unfold when. destruct b; [by apply Hm|]. by apply holds_ret. Qed.

Lemma holds_scope {A} P Q R (m : Prog W O A) fin :
  holds P m Q → holds (λ _, True) fin (λ _ _, True) →
  (∀ x w, Q x w → R x (fin w).1.1) → holds P (scope m fin) R.
Proof.
  intros Hm Hf HQ w Hw Hp. destruct (Hm w Hw Hp) as [Hw1 Hq]. unfold scope.
  destruct (m w) as [[w1 out] r]. cbn in *. destruct (Hf w1 Hw1 I) as [Hw2 _].
  destruct (fin w1) as [[w2 out2] u] eqn:E. cbn in *. split; [done|].
  intros x Hx. specialize (HQ x w1 (Hq x Hx)). by rewrite E in HQ.
Qed.

Lemma holds_each {A} (f : A → Prog W O ()) l :
  (∀ x, x ∈ l → keeps (f x)) → keeps (each f l).
Proof.
  induction l as [|x l IH]; intros Hf; cbn [each]; [by apply holds_ret|].
  eapply holds_bind; [apply Hf; left|]. intros []. apply IH. intros y Hy. apply Hf. by right.
Qed.

(** The program goes on to its end, never returning early. *)
Definition returns {A} (P : W → Prop) (m : Prog W O A) (Q : A → W → Prop) : Prop :=
  ∀ w, Inv w → P w → Inv (m w).1.1 ∧ ∃ x, (m w).2 = Some x ∧ Q x (m w).1.1.

Lemma returns_bind {A B} P Q R (m : Prog W O A) (f : A → Prog W O B) :
  returns P m Q → (∀ x, returns (Q x) (f x) R) → returns P (bind m f) R.
Proof.
  intros Hm Hf w Hw Hp. destruct (Hm w Hw Hp) as (Hw1 & x & Hx & Hq). unfold bind.
  destruct (m w) as [[w1 out] r]. cbn in *. subst r.
  destruct (Hf x w1 Hw1 Hq) as (Hw2 & y & Hy & Hr). destruct (f x w1) as [[w2 out2] r2].
  cbn in *. eauto.
Qed.

Lemma returns_ret {A} (P : W → Prop) (x : A) : returns P (ret x) (λ _, P).
Proof. intros w Hw Hp. split; [done|]. by exists x. Qed.

Lemma returns_say P out : returns P (say out) (λ _, P).
Proof. intros w Hw Hp. split; [done|]. by exists (). Qed.

Lemma returns_modify (P : W → Prop) (Q : () → W → Prop) f :
  (∀ w, Inv w → P w → Inv (f w) ∧ Q () (f w)) → returns P (modify f) Q.
Proof. intros Hf w Hw Hp. destruct (Hf w Hw Hp). split; [done|]. by exists (). Qed.

Lemma returns_each {A} (P : W → Prop) (f : A → Prog W O ()) l :
  (∀ x, x ∈ l → returns P (f x) (λ _, P)) → returns P (each f l) (λ _, P).
Proof.
  induction l as [|x l IH]; intros Hf; cbn [each]; [apply returns_ret|].
  eapply returns_bind; [apply Hf; left|]. intros []. apply IH. intros y Hy. apply Hf. by right.
Qed.

Lemma returns_run {A} (P : W → Prop) (m : Prog W O A) Q w :
  returns P m Q → Inv w → P w → ∃ w' out x, m w = (w', out, Some x) ∧ Inv w' ∧ Q x w'.
Proof.
  intros Hm Hw Hp. destruct (Hm w Hw Hp) as (Hw' & x & Hx & Hq).
  destruct (m w) as [[w' out] r]. cbn in *. subst r. eauto 6.
Qed.

Lemma returns_holds {A} P (m : Prog W O A) Q : returns P m Q → holds P m Q.
Proof.
  intros Hm w Hw Hp. destruct (Hm w Hw Hp) as (? & x & E & Hq). split; [done|].
  intros y Hy. rewrite E in Hy. by injection Hy as <-.
Qed.
End logic.
