(* ===== verification/OffsetMap.v ===== *)
(** * [offset_map]: a map stored as a vector of optional slots

    Models [include/luxon/server/offset_map.hpp]: a vector [slots_] of
    optional values, the key [base_] of the first slot and the number [size_]
    of occupied slots, for keys of [w] bits.  Every operation is shown to
    implement the corresponding operation of a finite map. *)

From S2P Require Import Prelude Interfaces.
Open Scope Z_scope.

(** <include/luxon/server/offset_map.hpp:243-246 offset_map> *)
Record offset_map (T : Type) := mkOffsetMap {
  slots : list (option T);
  base : Z;
  size_ : Z;
}.
Arguments mkOffsetMap {T}.
Arguments slots {T}.
Arguments base {T}.
Arguments size_ {T}.
#[export] Instance eta_offset_map T : Eta (offset_map T) := λ m,
  mkOffsetMap (slots m) (base m) (size_ m).

Section ops.
Context {T : Type} (w : Z).
Implicit Types (m : offset_map T) (key : Z) (l : list (option T)).

(** <include/luxon/server/offset_map.hpp:97-97 offset_map> *)
Definition om_empty : offset_map T := mkOffsetMap [] 0 0.

(** <include/luxon/server/offset_map.hpp:99-99 empty> *)
Definition empty_ m : bool := size_ m =? 0.

(** <include/luxon/server/offset_map.hpp:103-103 key_span> *)
Definition key_span m : Z := len (slots m).

(** <include/luxon/server/offset_map.hpp:105-108 min_key> *)
Definition min_key m : option Z := if empty_ m then None else Some (base m).

(** <include/luxon/server/offset_map.hpp:110-113 max_key> *)
Definition max_key m : option Z :=
if empty_ m then None
else Some (wrap w (base m + len (slots m) - 1)).

(** <include/luxon/server/offset_map.hpp:115-119 clear> *)
Definition clear m : offset_map T := mkOffsetMap [] 0 0.

(** <include/luxon/server/offset_map.hpp:248-252 in_span> *)
Definition in_span m key : bool :=
negb (bool_decide (slots m = [])) && (base m <=? key)
&& (wrap w (key - base m) <? len (slots m)).

(** <include/luxon/server/offset_map.hpp:254-256 index_of> *)
Definition index_of m key : nat := Z.to_nat (wrap w (key - base m)).

(** [slots_[i]], an absent slot being [std::nullopt]. *)
Definition slot l (i : nat) : option T := mjoin (l !! i).

(** <include/luxon/server/offset_map.hpp:46-50 skip_empty>
  The loop advances [index_] while the slot is empty; [fuel] bounds the
  iterations, and [length slots] of them reach the end. *)
Fixpoint skip_empty (fuel : nat) l (index : nat) : nat :=
match fuel with
| O => index
| S fuel =>
    if bool_decide (index < length l)%nat && bool_decide (slot l index = None)
    then skip_empty fuel l (S index) else index
end.

(** <include/luxon/server/offset_map.hpp:41-44 basic_iterator> *)
Definition iterator_at m (index : nat) : nat :=
skip_empty (length (slots m)) (slots m) index.

(** <include/luxon/server/offset_map.hpp:125-125 begin> *)
Definition om_begin m : nat := iterator_at m 0.

(** <include/luxon/server/offset_map.hpp:126-126 end> *)
Definition om_end m : nat := iterator_at m (length (slots m)).

(** <include/luxon/server/offset_map.hpp:76-80 basic_iterator::operator++> *)
Definition it_next m (index : nat) : nat := iterator_at m (S index).

(** <include/luxon/server/offset_map.hpp:64-69 basic_iterator::operator*> *)
Definition it_deref m (index : nat) : option (Z * T) :=
x ← slot (slots m) index; Some (wrap w (base m + Z.of_nat index), x).

(** A range-for over the map: dereference from [begin] until [end]. *)
Fixpoint iterate (fuel : nat) m (it : nat) : list (Z * T) :=
match fuel with
| O => []
| S fuel =>
    if decide (it = om_end m) then []
    else match it_deref m it with
         | Some kv => kv :: iterate fuel m (it_next m it)
         | None => iterate fuel m (it_next m it)
         end
end.
Definition iteration m : list (Z * T) :=
iterate (S (length (slots m))) m (om_begin m).

(** <include/luxon/server/offset_map.hpp:134-138 find> *)
Definition om_find m key : nat :=
if negb (in_span m key) then om_end m
else match slot (slots m) (index_of m key) with
     | Some _ => iterator_at m (index_of m key)
     | None => om_end m
     end.

(** <include/luxon/server/offset_map.hpp:146-148 contains> *)
Definition contains m key : bool :=
negb (bool_decide (om_find m key = om_end m)).

(** <include/luxon/server/offset_map.hpp:150-154 get> *)
Definition get m key : option T :=
if negb (in_span m key) then None else slot (slots m) (index_of m key).

(** <include/luxon/server/offset_map.hpp:162-165 at>
  [inr] is the [std::out_of_range] exception. *)
Definition at_ m key : T + string :=
match get m key with
| Some x => inl x
| None => inr "offset_map::at: key not found"%string
end.

(** <include/luxon/server/offset_map.hpp:258-276 ensure_slot> *)
Definition ensure_slot m key : offset_map T :=
if bool_decide (slots m = []) then mkOffsetMap [None] key (size_ m)
else if key <? base m then
  let prepend := Z.to_nat (wrap w (base m - key)) in
  mkOffsetMap (replicate prepend None ++ slots m) key (size_ m)
else
  let idx := index_of m key in
  if bool_decide (length (slots m) ≤ idx)%nat then
    m <| slots := resize (idx + 1) None (slots m) |>
  else m.

(** [slot.emplace(x)] for the slot of [key]. *)
Definition emplace m key (x : T) : offset_map T :=
m <| slots := <[index_of m key := Some x]> (slots m) |>.

(** <include/luxon/server/offset_map.hpp:172-182 operator[]>
  [d] is the value-initialised element; the reference returned is the
  element of the slot. *)
Definition subscript (d : T) m key : offset_map T * T :=
let m := ensure_slot m key in
match slot (slots m) (index_of m key) with
| None => (emplace (m <| size_ ::= Z.succ |>) key d, d)
| Some x => (m, x)
end.

(** <include/luxon/server/offset_map.hpp:184-197 insert> *)
Definition insert_ m key (x : T) : offset_map T * bool :=
let m := ensure_slot m key in
match slot (slots m) (index_of m key) with
| Some _ => (m, false)
| None => (emplace m key x <| size_ ::= Z.succ |>, true)
end.

(** <include/luxon/server/offset_map.hpp:199-212 try_emplace> *)
Definition try_emplace m key (args : unit → T) : offset_map T * bool :=
let m := ensure_slot m key in
match slot (slots m) (index_of m key) with
| Some _ => (m, false)
| None => (emplace m key (args tt) <| size_ ::= Z.succ |>, true)
end.

(** <include/luxon/server/offset_map.hpp:214-229 insert_or_assign> *)
Definition insert_or_assign m key (x : T) : offset_map T * bool :=
let m := ensure_slot m key in
match slot (slots m) (index_of m key) with
| None => (emplace m key x <| size_ ::= Z.succ |>, true)
| Some _ => (emplace m key x, false)
end.

(** The loops of [trim]: the number of leading empty slots. *)
Fixpoint leading_empty l : nat :=
match l with
| None :: l => S (leading_empty l)
| _ => O
end.

(** <include/luxon/server/offset_map.hpp:278-304 trim> *)
Definition trim m : offset_map T :=
if bool_decide (slots m = []) then m
else if size_ m =? 0 then clear m
else
  let first := leading_empty (slots m) in
  let last := Nat.max first (length (slots m) - leading_empty (reverse (slots m))) in
  let m := if bool_decide (last < length (slots m))%nat
           then m <| slots ::= take last |> else m in
  if bool_decide (0 < first)%nat
  then m <| slots ::= drop first |> <| base := wrap w (base m + Z.of_nat first) |>
  else m.

(** <include/luxon/server/offset_map.hpp:231-241 erase> *)
Definition erase m key : offset_map T * Z :=
if negb (in_span m key) then (m, 0)
else match slot (slots m) (index_of m key) with
     | None => (m, 0)
     | Some _ =>
         (trim (m <| slots ::= <[index_of m key := None]> |> <| size_ ::= Z.pred |>), 1)
     end.
End ops.

(** ** Well-formedness and the finite map represented *)

Section spec.
Context {T : Type} (w : Z) (Hw : 0 < w).
Implicit Types (m : offset_map T) (key k : Z) (l : list (option T)).

(** The value stored for key [k] in slots [l] starting at key [b]. *)
Definition slot_at l (b k : Z) : option T :=
if decide (b ≤ k) then slot l (Z.to_nat (k - b)) else None.

(** The occupied slots with their keys, in order. *)
Fixpoint entries_from (b : Z) l : list (Z * T) :=
match l with
| [] => []
| Some x :: l => (b, x) :: entries_from (b + 1) l
| None :: l => entries_from (b + 1) l
end.

(** The number of occupied slots. *)
Definition occ l : nat := length (omap id l).

(** The first and the last slot are occupied, unless there are none. *)
Definition tight l : Prop :=
l = [] ∨ is_Some (slot l 0) ∧ is_Some (slot l (pred (length l))).

Record wf m : Prop := {
wf_base : 0 ≤ base m;
wf_span : base m + len (slots m) ≤ 2 ^ w;
wf_size : size_ m = Z.of_nat (occ (slots m));
wf_tight : tight (slots m);
}.

(** [m] is well formed and holds exactly the bindings of [g]. *)
Definition repr m (g : gmap Z T) : Prop :=
wf m ∧ ∀ k, slot_at (slots m) (base m) k = g !! k.

Lemma slot_nil i : slot (T := T) [] i = None.
Proof. done. Qed.

Lemma slot_ge l i : (length l ≤ i)%nat → slot l i = None.
Proof. intros. unfold slot. by rewrite lookup_ge_None_2. Qed.

Lemma slot_lt l i x : slot l i = Some x → (i < length l)%nat.
Proof. intros E. apply Nat.nle_gt. intros ?. by rewrite slot_ge in E. Qed.

Lemma slot_replicate n i : slot (T := T) (replicate n None) i = None.
Proof.
unfold slot. destruct (replicate n None !! i) as [o|] eqn:E; [|done].
apply lookup_replicate in E as [-> _]. done.
Qed.

Lemma slot_app l1 l2 i :
slot (l1 ++ l2) i =
if decide (i < length l1)%nat then slot l1 i else slot l2 (i - length l1).
Proof.
unfold slot. case_decide.
- by rewrite lookup_app_l.
- rewrite lookup_app_r; [done|lia].
Qed.

Lemma slot_insert l i j o :
(i < length l)%nat → slot (<[i:=o]> l) j = if decide (i = j) then o else slot l j.
Proof.
intros Hi. unfold slot. case_decide as E.
- subst. by rewrite list_lookup_insert_eq.
- by rewrite list_lookup_insert_ne.
Qed.

Lemma slot_take n l i :
slot (take n l) i = if decide (i < n)%nat then slot l i else None.
Proof.
unfold slot. case_decide.
- by rewrite lookup_take_lt.
- by rewrite lookup_take_ge by lia.
Qed.

Lemma slot_drop n l i : slot (drop n l) i = slot l (n + i).
Proof. unfold slot. by rewrite lookup_drop. Qed.

(** ** Counting occupied slots *)

Lemma occ_app l1 l2 : occ (l1 ++ l2) = (occ l1 + occ l2)%nat.
Proof. unfold occ. by rewrite omap_app, length_app. Qed.

Lemma occ_singleton o : occ [o] = match o with Some _ => 1%nat | None => 0%nat end.
Proof. by destruct o. Qed.

Lemma occ_0 l : (∀ i, slot l i = None) → occ l = 0%nat.
Proof.
unfold occ. induction l as [|[x|] l IH]; intros Hl; [done|..].
- by specialize (Hl 0%nat).
- apply IH. intros i. apply (Hl (S i)).
Qed.

Lemma occ_0_inv l i : occ l = 0%nat → slot l i = None.
Proof.
unfold occ. revert i. induction l as [|[x|] l IH]; intros i Hl; [done..|].
destruct i as [|i]; [done|]. by apply IH.
Qed.

Lemma occ_replicate n : occ (replicate n None) = 0%nat.
Proof. apply occ_0. apply slot_replicate. Qed.

Lemma occ_insert l i o :
(i < length l)%nat →
(occ (<[i:=o]> l) + occ [slot l i] = occ l + occ [o])%nat.
Proof.
intros Hi. destruct (lookup_lt_is_Some_2 l i Hi) as [o' Ho].
assert (slot l i = o') as -> by (unfold slot; by rewrite Ho).
rewrite insert_take_drop by done.
assert (occ l = occ (take i l) + (occ [o'] + occ (drop (S i) l)))%nat as ->.
{ rewrite <-!occ_app. cbn [app]. by rewrite take_drop_middle. }
rewrite occ_app. change (o :: drop (S i) l) with ([o] ++ drop (S i) l).
rewrite occ_app. lia.
Qed.

Lemma occ_take n l :
(∀ i, (n ≤ i)%nat → slot l i = None) → occ (take n l) = occ l.
Proof.
intros Hl. rewrite <-(take_drop n l) at 2. rewrite occ_app, (occ_0 (drop n l)); [lia|].
intros i. rewrite slot_drop. apply Hl. lia.
Qed.

Lemma occ_drop n l :
(∀ i, (i < n)%nat → slot l i = None) → occ (drop n l) = occ l.
Proof.
intros Hl. rewrite <-(take_drop n l) at 2. rewrite occ_app, (occ_0 (take n l)); [lia|].
intros i. rewrite slot_take. case_decide; [by apply Hl|done].
Qed.

(** Empty slots in front of the first one change nothing but the base. *)
Lemma slot_at_app_None' n l b k :
0 ≤ n →
slot_at (replicate (Z.to_nat n) None ++ l) b k = slot_at l (b + n) k.
Proof.
intros Hn. unfold slot_at. repeat case_decide; try lia; try done.
all: rewrite slot_app, length_replicate; case_decide; try lia;
  try apply slot_replicate.
f_equal. lia.
Qed.

(** ** Ranges of keys *)

Lemma wrap_sub m key :
wf m → key_ok w key → base m ≤ key → wrap w (key - base m) = key - base m.
Proof. intros [? ? _ _] [??] ?. apply wrap_small. lia. Qed.

Lemma in_span_spec m key :
wf m → key_ok w key →
in_span w m key = bool_decide (base m ≤ key < base m + len (slots m)).
Proof.
intros Hm Hk. unfold in_span. apply eq_bool_prop_intro.
rewrite !andb_True, negb_True, !Is_true_true, !bool_decide_eq_true, Z.leb_le, Z.ltb_lt.
split.
- intros [[? ?] Hlt]. rewrite wrap_sub in Hlt by done. lia.
- intros [? ?]. rewrite wrap_sub by done. repeat split; [|lia..].
  intros E. rewrite E in *. cbn in *. lia.
Qed.

Lemma get_slot_at m key :
wf m → key_ok w key → get w m key = slot_at (slots m) (base m) key.
Proof.
intros Hm Hk. unfold get, index_of, slot_at. rewrite in_span_spec by done.
repeat case_bool_decide; cbn; case_decide; try lia; try done.
- by rewrite wrap_sub.
- rewrite slot_ge; [done|lia].
Qed.

(** ** [ensure_slot] *)

(** After [ensure_slot] the key is in the span, nothing else has changed,
  and filling its slot restores well-formedness. *)
Record ensured m key m' : Prop := {
ens_at k : slot_at (slots m') (base m') k = slot_at (slots m) (base m) k;
ens_base : 0 ≤ base m';
ens_span : base m' + len (slots m') ≤ 2 ^ w;
ens_key : base m' ≤ key < base m' + len (slots m');
ens_size : size_ m' = size_ m;
ens_occ : occ (slots m') = occ (slots m);
ens_tight x : tight (<[Z.to_nat (key - base m') := Some x]> (slots m'));
}.

Lemma ensure_slot_spec m key :
wf m → key_ok w key → ensured m key (ensure_slot w m key).
Proof.
intros Hm Hk. destruct Hm as [Hb Hs Hz Ht]. unfold ensure_slot, index_of.
case_bool_decide as He; [|destruct (key <? base m) eqn:Hlt].
- rewrite He in *. unfold key_ok in *. split; cbn; try lia; try done.
  + intros k. rewrite He. unfold slot_at.
    repeat case_decide; rewrite ?(slot_replicate 1), ?slot_nil; done.
  + by rewrite He.
  + intros x. right. rewrite Z.sub_diag. cbn. eauto.
- apply Z.ltb_lt in Hlt. unfold key_ok in *.
  destruct Ht as [|[Ht1 Ht2]]; [done|].
  assert (length (slots m) ≠ 0%nat) by (by destruct (slots m)).
  rewrite wrap_small by lia.
  split; cbn [slots base size_]; rewrite ?length_app, ?length_replicate;
    try lia; try done.
  + intros k. rewrite slot_at_app_None' by lia. f_equal. lia.
  + rewrite occ_app, occ_replicate. lia.
  + intros x. right. rewrite Z.sub_diag. cbn [Z.to_nat].
    rewrite length_insert, length_app, length_replicate.
    rewrite !slot_insert by (rewrite length_app, length_replicate; lia).
    rewrite decide_True by done. split; [eauto|].
    case_decide; [eauto|]. rewrite slot_app, length_replicate, decide_False by lia.
    replace (_ - _)%nat with (pred (length (slots m))) by lia. done.
- apply Z.ltb_ge in Hlt. unfold key_ok in *.
  destruct Ht as [|[Ht1 Ht2]]; [done|].
  assert (length (slots m) ≠ 0%nat) by (by destruct (slots m)).
  rewrite wrap_small by lia. case_bool_decide as Hge; cbn [slots base size_ set_field].
  + rewrite resize_ge by lia.
    split; cbn [slots base size_ set_field]; rewrite ?length_app, ?length_replicate;
      try lia; try done.
    * intros k. unfold slot_at. case_decide; [|done]. rewrite slot_app.
      case_decide; [done|]. rewrite slot_replicate, slot_ge; [done|lia].
    * rewrite occ_app, occ_replicate. lia.
    * intros x. right. rewrite length_insert, length_app, length_replicate.
      rewrite !slot_insert by (rewrite length_app, length_replicate; lia).
      split; [|rewrite decide_True by lia; eauto].
      case_decide; [eauto|]. by rewrite slot_app, decide_True by lia.
  + split; try lia; try done.
    intros x. right. rewrite length_insert, !slot_insert by lia.
    repeat case_decide; eauto.
Qed.

(** Filling the slot of a key in the span. *)
Lemma emplace_spec m m' key x :
ensured m key m' → key_ok w key →
let m2 := emplace w m' key x in
(∀ k, slot_at (slots m2) (base m2) k =
      if decide (k = key) then Some x else slot_at (slots m) (base m) k) ∧
0 ≤ base m2 ∧ base m2 + len (slots m2) ≤ 2 ^ w ∧ tight (slots m2) ∧
size_ m2 = size_ m ∧
(occ (slots m2) + occ [slot_at (slots m) (base m) key] = occ (slots m) + 1)%nat.
Proof.
intros [Hat Hb Hs Hk Hz Ho Ht] [? ?] m2. unfold m2, emplace, index_of.
cbn [slots base size_ set_field].
rewrite wrap_small by lia. rewrite length_insert.
assert (Z.to_nat (key - base m') < length (slots m'))%nat by lia.
split_and!; try done.
- intros k. rewrite <-Hat. unfold slot_at. case_decide.
  + rewrite slot_insert by done. repeat case_decide; subst; try lia; try done.
  + case_decide; [lia|done].
- rewrite <-Hat, <-Ho. unfold slot_at. rewrite decide_True by lia.
  by rewrite occ_insert by done.
Qed.

Lemma slot_ensure m key :
wf m → key_ok w key →
slot (slots (ensure_slot w m key)) (index_of w (ensure_slot w m key) key) =
slot_at (slots m) (base m) key.
Proof.
intros Hm Hk. destruct (ensure_slot_spec m key Hm Hk) as [Hat Hb Hs [??] Hz Ho Ht].
destruct Hk. rewrite <-Hat. unfold slot_at, index_of.
rewrite decide_True by lia. by rewrite wrap_small by lia.
Qed.

(** An occupied key is in the span already. *)
Lemma ensure_slot_occupied m key x :
wf m → key_ok w key → slot_at (slots m) (base m) key = Some x →
ensure_slot w m key = m.
Proof.
intros [Hb Hs _ _] [??] Hx. unfold slot_at in Hx. case_decide; [|done].
pose proof (slot_lt _ _ _ Hx). unfold ensure_slot, index_of.
rewrite bool_decide_eq_false_2 by (intros E; rewrite E in *; cbn in *; lia).
rewrite (proj2 (Z.ltb_ge _ _)) by lia.
rewrite wrap_small by lia. rewrite bool_decide_eq_false_2 by lia. done.
Qed.

(** ** [trim] *)

Lemma leading_empty_None l i : (i < leading_empty l)%nat → slot l i = None.
Proof.
revert i. induction l as [|[x|] l IH]; intros i; cbn; [lia..|].
intros ?. destruct i as [|i]; [done|]. apply (IH i). lia.
Qed.

Lemma leading_empty_Some l :
(leading_empty l < length l)%nat → is_Some (slot l (leading_empty l)).
Proof.
induction l as [|[x|] l IH]; cbn; [lia|eauto|]. intros ?. apply IH. lia.
Qed.

Lemma leading_empty_lt l : occ l ≠ 0%nat → (leading_empty l < length l)%nat.
Proof.
unfold occ. induction l as [|[x|] l IH]; cbn; [lia..|]. intros ?.
apply IH in H. lia.
Qed.

Lemma slot_reverse l i :
(i < length l)%nat → slot (reverse l) i = slot l (length l - 1 - i).
Proof.
intros ?. unfold slot. rewrite reverse_lookup by done. f_equal. f_equal. lia.
Qed.

Lemma occ_reverse l : occ (reverse l) = occ l.
Proof.
induction l as [|o l IH]; [done|].
rewrite reverse_cons, occ_app, IH. change (o :: l) with ([o] ++ l).
rewrite occ_app. lia.
Qed.

(** The slots kept by [trim] run from the first to the last occupied one. *)
Lemma trim_bounds l :
occ l ≠ 0%nat →
let first := leading_empty l in
let last := (length l - leading_empty (reverse l))%nat in
(first < last ≤ length l)%nat ∧
is_Some (slot l first) ∧ is_Some (slot l (pred last)) ∧
(∀ i, (i < first)%nat → slot l i = None) ∧
(∀ i, (last ≤ i)%nat → slot l i = None).
Proof.
intros Hl first last.
pose proof (leading_empty_lt l Hl) as H1.
pose proof (leading_empty_Some l H1) as [x Hx].
assert (occ (reverse l) ≠ 0%nat) as Hr by by rewrite occ_reverse.
pose proof (leading_empty_lt _ Hr) as H2. rewrite length_reverse in H2.
pose proof (leading_empty_Some (reverse l)) as H3.
rewrite length_reverse in H3. specialize (H3 H2).
rewrite slot_reverse in H3 by done.
assert (∀ i, (last ≤ i)%nat → slot l i = None) as Hafter.
{ intros i ?. destruct (decide (i < length l)%nat); [|apply slot_ge; lia].
  pose proof (leading_empty_None (reverse l) (length l - 1 - i)) as H4.
  rewrite slot_reverse in H4 by lia.
  replace (length l - 1 - (length l - 1 - i))%nat with i in H4 by lia.
  apply H4. lia. }
split_and!; try done; try lia.
- destruct (decide (first < last)%nat) as [|Hn]; [done|].
  rewrite Hafter in Hx by (unfold first in *; lia). done.
- by replace (pred last) with (length l - 1 - leading_empty (reverse l))%nat by lia.
- apply leading_empty_None.
Qed.

Lemma trim_spec m :
0 ≤ base m → base m + len (slots m) ≤ 2 ^ w → 
size_ m = Z.of_nat (occ (slots m)) →
wf (trim w m) ∧ size_ (trim w m) = size_ m ∧
∀ k, slot_at (slots (trim w m)) (base (trim w m)) k = slot_at (slots m) (base m) k.
Proof.
intros Hb Hs Hz. unfold trim. case_bool_decide as He.
{ split_and!; try done. split; try done. by left. }
destruct (size_ m =? 0) eqn:Hz0.
{ apply Z.eqb_eq in Hz0. unfold clear. split_and!; [split; cbn; lia || by left|..]; cbn.
  - done.
  - intros k. unfold slot_at. case_decide; case_decide; rewrite ?slot_nil; try done.
    all: by rewrite occ_0_inv by lia. }
apply Z.eqb_neq in Hz0.
destruct (trim_bounds (slots m)) as ([H1 H2] & H3 & H4 & H5 & H6); [lia|].
set (first := leading_empty _) in *. set (last := (_ - _)%nat) in *.
replace (Nat.max first last) with last by lia.
set (m1 := if bool_decide (last < _)%nat then _ else _).
assert (m1 = m <| slots ::= take last |>) as ->.
{ unfold m1. case_bool_decide; [done|]. cbn [set_field]. rewrite take_ge by lia.
  by destruct m. }
set (m2 := if bool_decide (0 < first)%nat then _ else _).
assert (m2 = mkOffsetMap (drop first (take last (slots m)))
               (base m + Z.of_nat first) (size_ m)) as ->.
{ unfold m2. case_bool_decide; cbn [set_field slots base size_].
  - rewrite wrap_small; [done|lia].
  - replace first with 0%nat by lia. by rewrite Z.add_0_r, drop_0. }
assert (occ (drop first (take last (slots m))) = occ (slots m)) as Ho.
{ rewrite occ_drop, occ_take; [done|done|]. intros i ?. rewrite slot_take.
  case_decide; [by apply H5|done]. }
split_and!; cbn [slots base size_]; [split; cbn [slots base size_]|done|].
- lia.
- rewrite length_drop, length_take. lia.
- by rewrite Ho.
- right. rewrite length_drop, length_take, !slot_drop, !slot_take.
  rewrite !decide_True by lia. rewrite Nat.add_0_r. split; [done|].
  by replace (first + _)%nat with (pred last) by lia.
- intros k. unfold slot_at. repeat case_decide; try lia; try done.
  + rewrite slot_drop, slot_take. case_decide.
    * f_equal. lia.
    * rewrite H6; [done|lia].
  + by rewrite H5 by lia.
Qed.
End spec.

(** ** Iteration *)

Section iteration.
Context {T : Type} (w : Z).
Implicit Types (m : offset_map T) (l : list (option T)).

(** With fuel for the rest of the vector, [skip_empty] stops at the next
  occupied slot or at the end. *)
Lemma skip_empty_spec fuel l i :
(i ≤ length l)%nat → (length l - i ≤ fuel)%nat →
let j := skip_empty fuel l i in
(i ≤ j ≤ length l)%nat ∧ (∀ n, (i ≤ n < j)%nat → slot l n = None) ∧
((j < length l)%nat → is_Some (slot l j)).
Proof.
revert i. induction fuel as [|fuel IH]; intros i Hi Hf; cbn.
{ split_and!; lia. }
repeat case_bool_decide; cbn.
- destruct (IH (S i)) as (H1 & H2 & H3); [lia..|].
  split; [lia|]. split; [|done]. intros n ?.
  destruct (decide (n = i)) as [->|]; [done|]. apply H2. lia.
- split; [lia|]. split; [intros n ?; lia|]. intros _.
  destruct (slot l i); [eauto|done].
- split; [lia|]. split; [intros n ?; lia|lia].
- split; [lia|]. split; [intros n ?; lia|lia].
Qed.

Lemma iterator_at_spec m i :
(i ≤ length (slots m))%nat →
let j := iterator_at m i in
(i ≤ j ≤ length (slots m))%nat ∧
(∀ n, (i ≤ n < j)%nat → slot (slots m) n = None) ∧
((j < length (slots m))%nat → is_Some (slot (slots m) j)).
Proof. intros. apply skip_empty_spec; lia. Qed.

Lemma om_end_length m : om_end m = length (slots m).
Proof.
destruct (iterator_at_spec m (length (slots m))) as (H & _ & _); [done|].
unfold om_end. lia.
Qed.

Lemma entries_from_skip b l i j :
(i ≤ j ≤ length l)%nat → (∀ n, (i ≤ n < j)%nat → slot l n = None) →
entries_from (b + Z.of_nat i) (drop i l) = entries_from (b + Z.of_nat j) (drop j l).
Proof.
intros Hij Hn. remember (j - i)%nat as d eqn:Hd. revert i Hij Hn Hd.
induction d as [|d IH]; intros i Hij Hn Hd.
{ by replace j with i by lia. }
destruct (lookup_lt_is_Some_2 l i) as [o Ho]; [lia|].
rewrite (drop_S l o i) by done.
specialize (Hn i ltac:(lia)) as Hni. unfold slot in Hni. rewrite Ho in Hni.
cbn in Hni. subst o. cbn [entries_from].
rewrite <-(IH (S i)); [f_equal; lia|lia| |lia]. intros n ?. apply Hn. lia.
Qed.

Lemma iterate_spec fuel m i :
wf w m → (i ≤ length (slots m))%nat → (length (slots m) - i < fuel)%nat →
iterate w fuel m (iterator_at m i) =
entries_from (base m + Z.of_nat i) (drop i (slots m)).
Proof.
intros Hm. revert i. induction fuel as [|fuel IH]; intros i Hi Hf; [lia|].
destruct (iterator_at_spec m i Hi) as (H1 & H2 & H3).
set (j := iterator_at m i) in *.
rewrite (entries_from_skip _ _ i j) by done. cbn [iterate].
rewrite om_end_length. case_decide as Hj.
{ by rewrite Hj, drop_all. }
destruct H3 as [x Hx]; [lia|]. unfold it_deref. rewrite Hx. cbn [mbind option_bind].
assert (slots m !! j = Some (Some x)) as Hl.
{ unfold slot in Hx. by destruct (slots m !! j) as [[y|]|]; simplify_eq/=. }
rewrite (drop_S _ (Some x) j) by done. cbn [entries_from]. f_equal.
- f_equal. destruct Hm as [? ? _ _]. apply wrap_small. lia.
- unfold it_next. rewrite IH by lia. f_equal. lia.
Qed.

Lemma iteration_entries m :
wf w m → iteration w m = entries_from (base m) (slots m).
Proof.
intros Hm. unfold iteration, om_begin. rewrite iterate_spec; [|done|lia..].
by rewrite Z.add_0_r, drop_0.
Qed.

Lemma entries_from_ge b l kv : kv ∈ entries_from b l → b ≤ kv.1.
Proof.
revert b. induction l as [|[x|] l IH]; intros b; cbn.
- intros []%not_elem_of_nil.
- intros [->|Hkv]%elem_of_cons; cbn; [lia|]. apply IH in Hkv. lia.
- intros Hkv%IH. lia.
Qed.

Lemma entries_from_sorted b l : StronglySorted Z.lt (entries_from b l).*1.
Proof.
revert b. induction l as [|[x|] l IH]; intros b; cbn; [constructor| |apply IH].
constructor; [apply IH|]. apply Forall_forall. intros k Hk.
apply list_elem_of_fmap in Hk as (kv & -> & Hkv). apply entries_from_ge in Hkv. lia.
Qed.

Lemma entries_from_NoDup b l : NoDup (entries_from b l).*1.
Proof.
revert b. induction l as [|[x|] l IH]; intros b; cbn; [constructor| |apply IH].
constructor; [|apply IH]. intros Hk.
apply list_elem_of_fmap in Hk as (kv & E & Hkv). apply entries_from_ge in Hkv.
cbn in E. lia.
Qed.

Lemma entries_from_lookup b l k :
(list_to_map (entries_from b l) : gmap Z T) !! k = slot_at l b k.
Proof.
revert b. unfold slot_at. induction l as [|[x|] l IH]; intros b; cbn.
- by case_decide.
- destruct (decide (k = b)) as [->|].
  + rewrite lookup_insert_eq, decide_True, Z.sub_diag by lia. done.
  + rewrite lookup_insert_ne, IH by done. repeat case_decide; try lia; [|done].
    destruct (Z.to_nat (k - b)) as [|i] eqn:E; [lia|].
    change (slot (Some x :: l) (S i)) with (slot l i). f_equal. lia.
- rewrite IH. repeat case_decide; try lia; try done.
  + destruct (Z.to_nat (k - b)) as [|n] eqn:E; [lia|].
    change (slot (None :: l) (S n)) with (slot l n). f_equal. lia.
  + replace (k - b) with 0 by lia. done.
Qed.

Lemma entries_from_length b l : length (entries_from b l) = occ l.
Proof.
unfold occ. revert b. induction l as [|[x|] l IH]; intros b; cbn; auto.
Qed.

Lemma entries_from_app b l1 l2 :
entries_from b (l1 ++ l2) =
entries_from b l1 ++ entries_from (b + len l1) l2.
Proof.
revert b. induction l1 as [|[x|] l1 IH]; intros b; cbn.
- f_equal. lia.
- rewrite IH. do 3 f_equal. lia.
- rewrite IH. do 2 f_equal. lia.
Qed.

(** The first and last keys of a tight vector are those of its ends. *)
Lemma entries_ends b l :
tight l →
(entries_from b l = [] ∧ occ l = 0%nat) ∨
(head (entries_from b l).*1 = Some b ∧
 last (entries_from b l).*1 = Some (b + len l - 1) ∧ (0 < occ l)%nat ∧
 (0 < length l)%nat).
Proof.
intros [->|[[x Hx] [y Hy]]]; [by left|right].
destruct l as [|o l _] using rev_ind; [done|].
rewrite length_app, Nat.add_1_r in Hy. cbn [pred] in Hy.
rewrite slot_app, decide_False, Nat.sub_diag in Hy by lia. cbn in Hy. subst o.
rewrite entries_from_app, occ_app, occ_singleton, length_app. cbn [entries_from length].
rewrite fmap_app, last_app. cbn. split_and!; [|f_equal; lia|lia..].
destruct l as [|[z|] l]; cbn in *; simplify_eq; [f_equal; lia|done].
Qed.

Lemma repr_entries m g :
repr w m g → g = list_to_map (entries_from (base m) (slots m)).
Proof.
intros [_ Hg]. apply map_eq. intros k. by rewrite entries_from_lookup, Hg.
Qed.
End iteration.

(** ** [offset_map] is a keyed map *)

#[export] Instance offset_map_ops (w : Z) : KeyedMap w offset_map := {|
  km_empty T := om_empty;
  km_get T := get w;
  km_insert T := insert_ w;
  km_insert_or_assign T := insert_or_assign w;
  km_erase T := erase w;
  km_size T := size_;
  km_entries T := iteration w;
  km_repr T := repr w;
|}.

Section refinement.
Context {T : Type} (w : Z) (Hw : 0 < w).
Implicit Types (m : offset_map T) (g : gmap Z T) (k : Z) (x : T).

Lemma om_empty_repr : repr w (T := T) om_empty ∅.
Proof.
split; [split; cbn; try lia; by left|].
intros k. rewrite lookup_empty. unfold slot_at. by case_decide.
Qed.

Lemma get_repr m g k : repr w m g → key_ok w k → get w m k = g !! k.
Proof. intros [Hm Hg] Hk. by rewrite get_slot_at, Hg. Qed.

(** Filling the slot of [k] after [ensure_slot] binds [k], whatever the new
  size field is, as long as it counts the occupied slots. *)
Lemma emplace_repr m g k x (f : Z → Z) :
repr w m g → key_ok w k →
f (size_ m) = size_ m + (if decide (g !! k = None) then 1 else 0) →
repr w (emplace w (ensure_slot w m k) k x <| size_ ::= f |>) (<[k:=x]> g).
Proof.
intros [Hm Hg] Hk Hf.
pose proof (ensure_slot_spec w Hw m k Hm Hk) as He.
destruct (emplace_spec w Hw m _ k x He Hk) as (H1 & H2 & H3 & H4 & H5 & H6).
split; [split|]; cbn [slots base size_ set_field]; try done.
- rewrite H5, Hf, (wf_size _ _ Hm). rewrite Hg in H6.
  rewrite occ_singleton in H6.
  destruct (g !! k); case_decide; simplify_eq; lia.
- intros k'. rewrite H1, lookup_insert. repeat case_decide; congruence.
Qed.

Lemma insert_repr m g k x :
repr w m g → key_ok w k →
repr w (insert_ w m k x).1 (match g !! k with Some _ => g | None => <[k:=x]> g end) ∧
(insert_ w m k x).2 = bool_decide (g !! k = None).
Proof.
intros Hr Hk. pose proof Hr as [Hm Hg]. unfold insert_.
rewrite slot_ensure, Hg by done. destruct (g !! k) as [y|] eqn:Hy; cbn.
- rewrite (ensure_slot_occupied w Hw m k y) by by rewrite ?Hg. done.
- split; [|done]. apply (emplace_repr _ _ _ _ Z.succ); [done..|].
  rewrite Hy, decide_True by done. lia.
Qed.

Lemma assign_repr m g k x :
repr w m g → key_ok w k →
repr w (insert_or_assign w m k x).1 (<[k:=x]> g) ∧
(insert_or_assign w m k x).2 = bool_decide (g !! k = None).
Proof.
intros Hr Hk. pose proof Hr as [Hm Hg]. unfold insert_or_assign.
rewrite slot_ensure, Hg by done. destruct (g !! k) as [y|] eqn:Hy; cbn [fst snd].
- split; [|done].
  pose proof (emplace_repr m g k x (λ z, z) Hr Hk) as He.
  rewrite Hy in He. apply He. rewrite decide_False by done. lia.
- split; [|done]. apply (emplace_repr _ _ _ _ Z.succ); [done..|].
  rewrite Hy, decide_True by done. lia.
Qed.

Lemma erase_repr m g k :
repr w m g → key_ok w k →
repr w (erase w m k).1 (delete k g) ∧
(erase w m k).2 = (if decide (g !! k = None) then 0 else 1).
Proof.
intros [Hm Hg] Hk. pose proof (get_repr m g k (conj Hm Hg) Hk) as Hget.
unfold get in Hget. unfold erase.
assert (∀ z, g !! k = None → repr w m (delete k g) ∧ z = if decide (g !! k = None) then z else 1) as Habs.
{ intros z Hn. rewrite delete_id by done. split; [done|]. by rewrite decide_True. }
destruct (negb _) eqn:Hin; [by apply Habs|].
destruct (slot _ _) as [y|] eqn:Hy; [|by apply Habs].
cbn [fst snd]. rewrite <-Hget, decide_False by done. split; [|done].
apply negb_false_iff in Hin. rewrite in_span_spec in Hin by done.
apply bool_decide_eq_true in Hin.
pose proof Hm as [Hb Hs Hz Ht]. destruct Hk as [? ?].
assert (index_of w m k = Z.to_nat (k - base m)) as Hi.
{ unfold index_of. by rewrite wrap_small by lia. }
assert (index_of w m k < length (slots m))%nat as Hlt by lia.
set (m1 := set_field _ _ _).
destruct (trim_spec w Hw m1) as (T1 & T2 & T3).
- done.
- cbn. rewrite length_insert. lia.
- change (size_ m1) with (Z.pred (size_ m)).
  change (slots m1) with (<[index_of w m k:=None]> (slots m)).
  pose proof (occ_insert (slots m) (index_of w m k) None) as Ho.
  rewrite Hy, !occ_singleton in Ho. specialize (Ho Hlt). lia.
- split; [done|]. intros k'. rewrite T3, lookup_delete, <-(Hg k').
  change (slots m1) with (<[index_of w m k:=None]> (slots m)).
  change (base m1) with (base m). unfold slot_at.
  destruct (decide (base m ≤ k')), (decide (k = k')); try done.
  + rewrite slot_insert, decide_True; [done|lia|done].
  + rewrite slot_insert, decide_False; [done|lia|done].
Qed.

Lemma size_repr m g : repr w m g → size_ m = Z.of_nat (size g).
Proof.
intros Hr. rewrite (wf_size _ _ (proj1 Hr)), (repr_entries w m g Hr).
rewrite map_size_list_to_map by apply entries_from_NoDup.
by rewrite entries_from_length.
Qed.

Lemma entries_repr m g : repr w m g → map_to_list g ≡ₚ iteration w m.
Proof.
intros Hr. rewrite iteration_entries by apply Hr.
rewrite (repr_entries w m g Hr) at 1. apply map_to_list_to_map, entries_from_NoDup.
Qed.
Lemma empty_repr m g : repr w m g → empty_ m = bool_decide (g = ∅).
Proof.
intros Hr. unfold empty_. rewrite (size_repr m g Hr). case_bool_decide as Hg.
- subst. by rewrite map_size_empty.
- apply Z.eqb_neq. rewrite <-map_size_empty_iff in Hg. lia.
Qed.

Lemma at_repr m g k :
repr w m g → key_ok w k →
at_ w m k = from_option inl (inr "offset_map::at: key not found"%string) (g !! k).
Proof. intros Hr Hk. unfold at_. rewrite (get_repr m g k Hr Hk). by destruct (g !! k). Qed.

Lemma try_emplace_repr m g k (args : unit → T) :
repr w m g → key_ok w k →
repr w (try_emplace w m k args).1 (match g !! k with Some _ => g | None => <[k:=args tt]> g end) ∧
(try_emplace w m k args).2 = bool_decide (g !! k = None).
Proof. intros Hr Hk. exact (insert_repr m g k (args tt) Hr Hk). Qed.

Lemma subscript_repr m g k x :
repr w m g → key_ok w k →
repr w (subscript w x m k).1 (<[k := default x (g !! k)]> g) ∧
(subscript w x m k).2 = default x (g !! k).
Proof.
intros Hr Hk. pose proof Hr as [Hm Hg]. unfold subscript.
rewrite slot_ensure, Hg by done. destruct (g !! k) as [y|] eqn:Hy; cbn.
- rewrite (ensure_slot_occupied w Hw m k y) by by rewrite ?Hg. by rewrite insert_id.
- split; [|done]. apply (emplace_repr m g k x Z.succ); [done..|].
  rewrite Hy, decide_True by done. lia.
Qed.

Lemma iterator_at_occupied m i x : slot (slots m) i = Some x → iterator_at m i = i.
Proof.
intros Hi. pose proof (slot_lt _ _ _ Hi). unfold iterator_at.
destruct (length (slots m)) as [|n]; [lia|]. cbn [skip_empty]. rewrite Hi.
by rewrite (bool_decide_eq_false_2 (Some x = None)), andb_false_r.
Qed.

Lemma om_end_free m : it_deref w m (om_end m) = None.
Proof. unfold it_deref. by rewrite om_end_length, slot_ge. Qed.

Lemma find_repr m g k :
repr w m g → key_ok w k →
it_deref w m (om_find w m k) = (λ y, (k, y)) <$> g !! k ∧
bool_decide (om_find w m k = om_end m) = bool_decide (g !! k = None) ∧
contains w m k = negb (bool_decide (g !! k = None)).
Proof.
intros Hr Hk. pose proof (get_repr m g k Hr Hk) as Hget. pose proof Hr as [Hm _].
unfold contains. assert (it_deref w m (om_find w m k) = (λ y, (k, y)) <$> g !! k ∧
  bool_decide (om_find w m k = om_end m) = bool_decide (g !! k = None)) as [H1 ->];
  [|done].
unfold get in Hget. unfold om_find. destruct (negb (in_span w m k)) eqn:Hin.
{ rewrite <-Hget. split; [apply om_end_free|]. by rewrite !bool_decide_eq_true_2. }
destruct (slot _ _) as [y|] eqn:Hy; rewrite <-Hget.
2:{ split; [apply om_end_free|]. by rewrite !bool_decide_eq_true_2. }
rewrite (iterator_at_occupied _ _ y Hy). apply negb_false_iff in Hin.
rewrite in_span_spec in Hin by done. apply bool_decide_eq_true in Hin.
destruct Hm as [Hb Hs _ _], Hk as [Hk0 Hk1]. split.
- unfold it_deref. rewrite Hy. cbn. do 2 f_equal. unfold index_of.
  rewrite (wrap_small w (k - base m)) by lia. rewrite Z2Nat.id by lia.
  rewrite wrap_small by lia. lia.
- rewrite om_end_length. apply slot_lt in Hy. rewrite !bool_decide_eq_false_2; [done|done|lia].
Qed.

(** Iterating, and the two ends. *)
Lemma ends_repr m g :
repr w m g →
map_to_list g ≡ₚ iteration w m ∧ StronglySorted Z.lt (iteration w m).*1 ∧
min_key m = head (iteration w m).*1 ∧ max_key w m = last (iteration w m).*1 ∧
key_span m = match min_key m, max_key w m with Some a, Some b => b - a + 1 | _, _ => 0 end.
Proof.
intros Hr. pose proof (entries_repr m g Hr) as Hp.
destruct Hr as [Hm Hg]. rewrite (iteration_entries w m Hm) in *.
split; [done|]. split; [apply entries_from_sorted|].
unfold min_key, max_key, empty_, key_span. destruct Hm as [Hb Hs Hz Ht].
destruct (entries_ends (base m) (slots m) Ht) as [[E1 E2]|(E1 & E2 & E3 & E4)].
- assert (slots m = []) as ->.
  { destruct Ht as [?|[[x Hx] _]]; [done|]. by rewrite (occ_0_inv _ 0 E2) in Hx. }
  by rewrite Hz, E2.
- rewrite E1, E2, Hz, (proj2 (Z.eqb_neq _ 0)) by lia. rewrite wrap_small by lia.
  split_and!; [done|done|lia].
Qed.
End refinement.

Lemma offset_map_laws (w : Z) : 0 < w → KeyedMapLaws w offset_map.
Proof.
  intros Hw. split; intros T.
  - by apply om_empty_repr.
  - intros. by apply get_repr.
  - intros. by apply insert_repr.
  - intros. by apply assign_repr.
  - intros. by apply erase_repr.
  - intros. by eapply (size_repr w).
  - intros. by eapply (entries_repr w).
  - intros m g Hr. change (km_entries m) with (iteration w m).
    rewrite (iteration_entries w m) by apply Hr. apply entries_from_sorted.
Qed.

(** ** Properties *)

(** C3: Every operation of [offset_map] is the operation of a finite map, and
    each that changes the map keeps its representation.  Lookups agree in all
    their forms: [get], [at], which throws for a missing key, [find], whose
    iterator is the binding of the key or [end], and [contains].  [insert] and
    [try_emplace] keep an existing binding, [operator[]] makes a missing one
    with the initial element and refers to it, [insert_or_assign] overwrites;
    each says whether the key was missing.  [erase] removes a binding and says
    how many there were, [clear] removes all.  [size] and [empty] count;
    iterating visits every binding once, by increasing keys, from [min_key] to
    [max_key], and the span is the stretch of keys between these. *)
Theorem offset_map_refines_map {T} (w : Z) (m : offset_map T) g k (x d : T) :
  0 < w → repr w m g → key_ok w k →
  let missing := bool_decide (g !! k = None) in
  let kept := match g !! k with Some _ => g | None => <[k:=x]> g end in
  (get w m k = g !! k ∧
   at_ w m k = from_option inl (inr "offset_map::at: key not found"%string) (g !! k) ∧
   it_deref w m (om_find w m k) = (λ y, (k, y)) <$> g !! k ∧
   bool_decide (om_find w m k = om_end m) = missing ∧ contains w m k = negb missing) ∧
  (repr w (insert_ w m k x).1 kept ∧ (insert_ w m k x).2 = missing ∧
   repr w (try_emplace w m k (λ _, x)).1 kept ∧ (try_emplace w m k (λ _, x)).2 = missing ∧
   repr w (subscript w d m k).1 (<[k := default d (g !! k)]> g) ∧
   (subscript w d m k).2 = default d (g !! k) ∧
   repr w (insert_or_assign w m k x).1 (<[k:=x]> g) ∧ (insert_or_assign w m k x).2 = missing) ∧
  (repr w (erase w m k).1 (delete k g) ∧
   (erase w m k).2 = (if missing then 0 else 1) ∧ repr w (clear m) ∅) ∧
  size_ m = Z.of_nat (size g) ∧ empty_ m = bool_decide (g = ∅) ∧
  (map_to_list g ≡ₚ iteration w m ∧ StronglySorted Z.lt (iteration w m).*1 ∧
   min_key m = head (iteration w m).*1 ∧ max_key w m = last (iteration w m).*1 ∧
   key_span m = match min_key m, max_key w m with Some a, Some b => b - a + 1 | _, _ => 0 end).
Proof.
  intros Hw Hr Hk. cbn zeta.
  destruct (insert_repr w Hw m g k x Hr Hk) as [I1 I2], (try_emplace_repr w Hw m g k (λ _, x) Hr Hk) as [T1 T2],
    (assign_repr w Hw m g k x Hr Hk) as [A1 A2], (erase_repr w Hw m g k Hr Hk) as [E1 E2],
    (subscript_repr w Hw m g k d Hr Hk) as [S1 S2], (find_repr w Hw m g k Hr Hk) as (F1 & F2 & F3).
  pose proof (ends_repr w Hw m g Hr) as (N1 & N2 & N3 & N4 & N5).
  split_and!; try assumption; eauto using get_repr, size_repr, at_repr, om_empty_repr, empty_repr.
  rewrite E2. by repeat case_decide; repeat case_bool_decide.
Qed.

Definition demo_map : offset_map string :=
  (insert_ 32 (insert_ 32 om_empty 7 "a"%string).1 4 "b"%string).1.

Lemma demo_map_repr :
  repr 32 demo_map (<[4:="b"%string]> (<[7:="a"%string]> ∅)).
Proof.
  assert (0 < 32) as Hw by lia.
  pose proof (insert_repr 32 Hw om_empty ∅ 7 "a"%string (om_empty_repr 32 Hw)) as [H1 _];
    [unfold key_ok; lia|].
  rewrite lookup_empty in H1.
  pose proof (insert_repr 32 Hw _ _ 4 "b"%string H1) as [H2 _]; [unfold key_ok; lia|].
  by rewrite lookup_insert_ne, lookup_empty in H2 by lia.
Defined.

Lemma offset_map_refines_map_witness :
  get 32 demo_map 7 = Some "a"%string ∧
  repr 32 (erase 32 demo_map 4).1 (delete 4 (<[4:="b"%string]> (<[7:="a"%string]> ∅))).
Proof.
  destruct (offset_map_refines_map 32 demo_map _ 4 "c"%string "d"%string eq_refl demo_map_repr)
    as (_ & _ & (H & _) & _); [unfold key_ok; lia|].
  split; [reflexivity|exact H].
Defined.
