(* ===== verification/Types.v ===== *)
(** * Data shared by the server's components

    Models the structures of [apps.hpp], [lobby.hpp], [game.hpp], [peer.hpp]
    and [peer_persistence.hpp].  Objects held by smart pointers are named by
    natural numbers; a [std::shared_ptr] is an [option] of such a name ([None]
    is the null pointer), and a [std::weak_ptr] locks to the object while the
    environment still holds it. *)

From S2P Require Import Prelude Values.
Open Scope Z_scope.

Abbreviation peer_ptr := nat (only parsing).
Abbreviation game_ptr := nat (only parsing).
Abbreviation lobby_ptr := nat (only parsing).
Abbreviation app_ptr := nat (only parsing).

(** ** Identification of applications, lobbies and games *)

(** <include/luxon/server/apps.hpp:26-31 AppInfo> *)
Record AppInfo := mkAppInfo { app_id : string; app_version : string }.

(** <include/luxon/server/apps.hpp:33-43 LobbyInfo> *)
Record LobbyInfo := mkLobbyInfo {
  li_app : AppInfo;
  li_name : string;
  li_type : Z;
}.

(** <include/luxon/server/game.hpp:51-58 GameInfo> *)
Record GameInfo := mkGameInfo {
  gi_lobby : LobbyInfo;
  gi_id : string;
  gi_server_address : string;
}.

Definition no_app_info : AppInfo := mkAppInfo EmptyString EmptyString.
Definition no_lobby_info : LobbyInfo := mkLobbyInfo no_app_info EmptyString 0.
Definition no_game_info : GameInfo := mkGameInfo no_lobby_info EmptyString EmptyString.

Definition empty_str (s : string) : bool := bool_decide (s = EmptyString).

(** <include/luxon/server/apps.hpp:30-30 AppInfo::has_app_info> *)
Definition has_app_info (a : AppInfo) : bool := negb (empty_str (app_id a)).
(** <include/luxon/server/apps.hpp:42-42 LobbyInfo::has_lobby_info> *)
Definition has_lobby_info (l : LobbyInfo) : bool := has_app_info (li_app l).
(** <include/luxon/server/game.hpp:57-57 GameInfo::has_game_info> *)
Definition has_game_info (g : GameInfo) : bool :=
  has_lobby_info (gi_lobby g) && negb (empty_str (gi_id g)).

Section info_codec.
Context `{Ser, Codes}.
Implicit Types params : ParameterList.

(** <src/apps.cpp:18-23 AppInfo::encode_app_info> *)
Definition encode_app_info (a : AppInfo) params : ParameterList :=
if has_app_info a then
  <[KeyAppVersion := of_string (app_version a)]>
    (<[KeyApplicationId := of_string (app_id a)]> params)
else params.

(** <src/apps.cpp:25-31 LobbyInfo::encode_lobby_info> *)
Definition encode_lobby_info (l : LobbyInfo) params : ParameterList :=
encode_app_info (li_app l)
  (if has_lobby_info l then
     <[KeyLobbyType := of_byte (li_type l)]>
       (<[KeyLobbyName := of_string (li_name l)]> params)
   else params).

(** <src/game.cpp:17-23 GameInfo::encode_game_info> *)
Definition encode_game_info (g : GameInfo) params : ParameterList :=
encode_lobby_info (gi_lobby g)
  (if has_game_info g then
     <[KeyAddress := of_string (gi_server_address g)]>
       (<[KeyGameId := of_string (gi_id g)]> params)
   else params).

(** The decoders visit every parameter and assign the fields whose key they
  meet; a parameter list has each key at most once, so this is a lookup per
  field.  [val.get<T>()] throws when the value holds another type: the
  result is then [None]. *)
Definition field {A} params (key : Z) (get : Value → option A) (dflt : A) :
  option A :=
match params !! key with Some val => get val | None => Some dflt end.

(** <src/apps.cpp:173-182 App::decode_app_info> *)
Definition decode_app_info params : option AppInfo :=
id ← field params KeyApplicationId get_string EmptyString;
version ← field params KeyAppVersion get_string EmptyString;
Some (mkAppInfo id version).

(** <src/lobby.cpp:236-245 Lobby::decode_lobby_info> *)
Definition decode_lobby_info params : option LobbyInfo :=
app ← decode_app_info params;
name ← field params KeyLobbyName get_string EmptyString;
type ← field params KeyLobbyType get_byte 0;
Some (mkLobbyInfo app name type).

(** <src/game.cpp:1104-1113 Game::decode_game_info> *)
Definition decode_game_info params : option GameInfo :=
lobby ← decode_lobby_info params;
id ← field params KeyGameId get_string EmptyString;
address ← field params KeyAddress get_string EmptyString;
Some (mkGameInfo lobby id address).
End info_codec.

(** ** Error codes

    The enumerators of [ErrorCodes] the server returns. *)
Inductive ErrorCode :=
  | Ok | OperationInvalid | OperationNotAllowedInCurrentState
  | InternalServerError | AuthenticationTokenExpired
  | CustomAuthenticationFailed | InvalidAuthentication | ActorListFull
  | GameClosed | GameFull | GameIdAlreadyExists | GameIdNotExists
  | JoinFailedPeerAlreadyJoined | NoRandomMatchFound | PluginReportedError
  | ServerForbidden | ServerFull | MaxCcuReached.

#[export] Instance ErrorCode_eq_dec : EqDecision ErrorCode.
Proof. solve_decision. Defined.

(** ** Codes of the inter-process messages *)

(** <include/luxon/server/ipc_codes.hpp:6-8 IPCEventCodes> *)
Definition IpcGameUpdate : Z := 0.
(** <include/luxon/server/ipc_codes.hpp:6-8 IPCEventCodes> *)
Definition IpcGameDelete : Z := 1.
(** <include/luxon/server/ipc_codes.hpp:6-8 IPCEventCodes> *)
Definition IpcPersistentPeerStore : Z := 2.
(** <include/luxon/server/ipc_codes.hpp:6-8 IPCEventCodes> *)
Definition IpcPersistentPeerConsume : Z := 3.
(** <include/luxon/server/ipc_codes.hpp:12-21 IPCDictKeyCodes> *)
Definition IpcRevision : Z := 190.
(** <include/luxon/server/ipc_codes.hpp:12-21 IPCDictKeyCodes> *)
Definition IpcCreationGeneration : Z := 189.
(** <include/luxon/server/ipc_codes.hpp:12-21 IPCDictKeyCodes> *)
Definition IpcIsCreating : Z := 188.
(** <include/luxon/server/ipc_codes.hpp:12-21 IPCDictKeyCodes> *)
Definition IpcIsVisible : Z := 187.
(** <include/luxon/server/ipc_codes.hpp:12-21 IPCDictKeyCodes> *)
Definition IpcExpectedUsers : Z := 186.
(** <include/luxon/server/ipc_codes.hpp:12-21 IPCDictKeyCodes> *)
Definition IpcExpectedUserGenerations : Z := 185.

(** The parameters of a replicated identity travel next to its game's. *)
Class RegistryKeys `{Codes} : Prop := {
  registry_keys_nodup :
    NoDup ([KeyToken; KeyUserId; KeyPlayerTTL; IpcRevision] ++ info_keys);
}.
#[export] Instance photon_registry_keys : RegistryKeys (H := PhotonCodes.photon_codes).
Proof. split. by apply (bool_decide_unpack _). Qed.

(** ** Settings *)

(** <include/luxon/server/apps.hpp:45-60 AppSettings> *)
Record AppSettings := mkAppSettings {
  set_appid : string;
  auth_mode : Z;
  custom_anonymous_uid_mode : Z;
  anonymous_uid_prefix : string;
  max_peers_ : Z;
  max_peers_per_game : Z;
  max_game_count : Z;
  allow_find_friends : bool;
  allow_change_master : bool;
}.
#[export] Instance eta_AppSettings : Eta AppSettings := λ s,
  mkAppSettings (set_appid s) (auth_mode s) (custom_anonymous_uid_mode s)
    (anonymous_uid_prefix s) (max_peers_ s) (max_peers_per_game s)
    (max_game_count s) (allow_find_friends s) (allow_change_master s).

Definition default_settings : AppSettings :=
  mkAppSettings EmptyString 0 0 EmptyString 0 0 0 true true.

(** ** Peers *)

(** <include/luxon/server/peer_persistence.hpp:19-28 PeerPersistent> *)
Record PeerPersistent := mkPeerPersistent {
  invitation : GameInfo;
  owned_game : option game_ptr;
  pp_app : option app_ptr;
  user_id : string;
  token : string;
  reconnect_ttl_ms : Z;
  store_generation : Z;
}.
#[export] Instance eta_PeerPersistent : Eta PeerPersistent := λ p,
  mkPeerPersistent (invitation p) (owned_game p) (pp_app p) (user_id p)
    (token p) (reconnect_ttl_ms p) (store_generation p).

(** <include/luxon/server/peer.hpp:18-40 Peer> [protocol] is the serializer's
    [GetProtcolImplID()]. *)
Record Peer := mkPeer {
  protocol : nat;
  persistent : option PeerPersistent;
}.
#[export] Instance eta_Peer : Eta Peer := λ p,
  mkPeer (protocol p) (persistent p).

(** The peers still alive. *)
Abbreviation PeerEnv := (gmap peer_ptr Peer).

(** [weak_ptr::lock()]: the pointer, while the peer is alive. *)
Definition lock (env : PeerEnv) (w : option peer_ptr) : option peer_ptr :=
  p ← w; if decide (is_Some (env !! p)) then Some p else None.

(** The user id of an authenticated live peer. *)
Definition peer_user (env : PeerEnv) (p : peer_ptr) : option string :=
  peer ← env !! p; pp ← persistent peer; Some (user_id pp).

(** ** Interest groups *)

(** <include/luxon/server/game.hpp:60-61 InterestGroups>
    [std::bitset<256>], as a 256-bit number. *)
Record InterestGroups := mkInterestGroups { bitset_ : Z }.
Definition default_groups : InterestGroups := mkInterestGroups 1.

(** <include/luxon/server/game.hpp:63-68 InterestGroups::test> *)
Definition ig_test (ig : InterestGroups) (v : Z) : bool :=
  if v =? 0 then true else Z.testbit (bitset_ ig) v.

(** <include/luxon/server/game.hpp:70-70 InterestGroups::set(uint8_t)> *)
Definition ig_set (ig : InterestGroups) (v : Z) : InterestGroups :=
  mkInterestGroups (Z.setbit (bitset_ ig) v).

(** <include/luxon/server/game.hpp:71-71 InterestGroups::set()> *)
Definition ig_set_all : InterestGroups := mkInterestGroups (2 ^ 256 - 1).

(** <include/luxon/server/game.hpp:73-73 InterestGroups::reset(uint8_t)> *)
Definition ig_reset (ig : InterestGroups) (v : Z) : InterestGroups :=
  mkInterestGroups (Z.clearbit (bitset_ ig) v).

(** <include/luxon/server/game.hpp:74-74 InterestGroups::reset()> *)
Definition ig_reset_all : InterestGroups := mkInterestGroups 0.

(** <include/luxon/server/game.hpp:76-80 InterestGroups::to_string>
    [std::bitset::to_string] prints the highest bit first. *)
Definition ig_to_string (ig : InterestGroups) : list bool :=
  let bs := ig_set ig 0 in
  reverse ((λ i : nat, Z.testbit (bitset_ bs) (Z.of_nat i)) <$> seq 0 256).

(** ** Facts about identification records *)

Section info_facts.
Context `{SerLaws, CodesLaws}.

(** Decide lookups in parameter lists whose keys are identification keys. *)
Lemma info_keys_distinct :
  Forall (λ p, p.1 ≠ p.2)
    [(KeyGameId, KeyAddress); (KeyGameId, KeyLobbyName);
     (KeyGameId, KeyLobbyType); (KeyGameId, KeyApplicationId);
     (KeyGameId, KeyAppVersion); (KeyAddress, KeyLobbyName);
     (KeyAddress, KeyLobbyType); (KeyAddress, KeyApplicationId);
     (KeyAddress, KeyAppVersion); (KeyLobbyName, KeyLobbyType);
     (KeyLobbyName, KeyApplicationId); (KeyLobbyName, KeyAppVersion);
     (KeyLobbyType, KeyApplicationId); (KeyLobbyType, KeyAppVersion);
     (KeyApplicationId, KeyAppVersion)].
Proof.
  pose proof info_keys_nodup as Hnd. unfold info_keys in Hnd.
  repeat setoid_rewrite NoDup_cons in Hnd.
  setoid_rewrite not_elem_of_cons in Hnd.
  repeat (setoid_rewrite not_elem_of_cons in Hnd).
  repeat constructor; cbn; tauto.
Qed.

Lemma decode_encode_game_info (g : GameInfo) (params : ParameterList) :
  has_game_info g = true →
  decode_game_info (encode_game_info g params) = Some g.
Proof.
  intros Hg. destruct g as [[[aid aver] lname ltype] gid addr].
  unfold encode_game_info, encode_lobby_info, encode_app_info. rewrite Hg.
  unfold has_game_info in Hg. apply andb_prop in Hg as [Hl Hid].
  cbn [gi_lobby li_app] in *. unfold has_lobby_info in *.
  cbn [gi_lobby li_app li_name li_type gi_id gi_server_address] in *.
  rewrite Hl. cbn [app_id app_version].
  pose proof info_keys_distinct as Hd. rewrite !Forall_cons in Hd.
  cbn [fst snd] in Hd. destruct_and! Hd.
  unfold decode_game_info, decode_lobby_info, decode_app_info, field.
  repeat first
    [ rewrite lookup_insert_eq
    | rewrite lookup_insert_ne by congruence ].
  by rewrite !acc_get.
Qed.

Lemma encode_game_info_other (g : GameInfo) (params : ParameterList) k :
  k ∉ info_keys → encode_game_info g params !! k = params !! k.
Proof.
  intros Hk. unfold info_keys in Hk. rewrite !not_elem_of_cons in Hk.
  destruct_and! Hk. unfold encode_game_info, encode_lobby_info, encode_app_info.
  destruct (has_app_info _), (has_lobby_info _), (has_game_info g);
    by rewrite ?lookup_insert_ne by congruence.
Qed.

(** Encoding the identification of a game into a parameter list and
    decoding it gives the identification back, whenever it identifies a game
    (its application and game ids are not empty; the other fields may be),
    and no parameter under another key is touched. *)
Theorem game_info_roundtrip (g : GameInfo) (params : ParameterList) :
  has_game_info g = true →
  decode_game_info (encode_game_info g params) = Some g ∧
  ∀ k, k ∉ info_keys → encode_game_info g params !! k = params !! k.
Proof.
  intros Hg. split; [by apply decode_encode_game_info|].
  intros k. apply encode_game_info_other.
Qed.
End info_facts.

Lemma game_info_roundtrip_witness :
  let g := mkGameInfo (mkLobbyInfo (mkAppInfo "app" "1.0") "lobby" 2)
             "room" "udp://h:5055" in
  has_game_info g = true ∧
  decode_game_info (H := TreeSer.tree_ser)
    (encode_game_info (H := TreeSer.tree_ser) g ∅) = Some g.
Proof.
  split; [reflexivity|].
  refine (proj1 (game_info_roundtrip (H0 := TreeSer.tree_laws) _ ∅ _)). reflexivity.
Defined.
