(* ===== verification/GameState.v ===== *)
(** * The state of a game

    Models the data of [game.hpp]: [GamePeer], [Event] and [Game] with the
    snapshot its creation transaction rolls back to, the effects a game's
    operations have outside it, and the read-only queries. *)

From S2P Require Import Prelude Values Types.
Open Scope Z_scope.

(** A serialized message ([ser::ByteArray]). *)
Abbreviation ByteArray := (list Z).

Section data.
Context `{Ser}.

(** <include/luxon/server/game.hpp:83-94 GamePeer>
    [owner_game] is the room the node was inserted into. *)
Record GamePeer := mkGamePeer {
  peer : option peer_ptr;
  owner_game : option game_ptr;
  actor_id : Z;
  actor_props : Hashtable;
  interest_groups : InterestGroups;
  active : bool;
}.

(** The value-initialised node [{}]. *)
Definition no_game_peer : GamePeer :=
  mkGamePeer None None 0 ∅ default_groups true.

(** <include/luxon/server/game.hpp:92-92 GamePeer::is_valid> *)
Definition is_valid (gp : GamePeer) : bool := active gp && (0 <? actor_id gp).

(** <include/luxon/server/game.hpp:101-101 Event::receivers>
    [std::variant<std::monostate, uint8_t, std::unordered_set<int32_t>>] *)
Inductive Receivers :=
  | RcvNone
  | RcvGroup (group : Z)
  | RcvActors (actors : gset Z).

(** <include/luxon/server/game.hpp:96-122 Event>
    [cached_data] has one slot per protocol implementation, empty until the
    event is first serialized for it. *)
Record Event := mkEvent {
  code : Z;
  sender_actor_id : Z;
  delivery_mode : Z;
  channel : Z;
  receivers : Receivers;
  interest_group : Z;
  data : Value;
  top_params : ParameterList;
  cached_data : list ByteArray;
}.

(** <include/luxon/server/game.hpp:152-158 Game::InactivePlayerInfo> *)
Record InactivePlayerInfo := mkInactive {
  ina_actor_id : Z;
  ina_user_id : string;
  ina_actor_props : Hashtable;
  inactive_since : Z;
  ina_generation : Z;
}.

(** <include/luxon/server/game.hpp:161-192 Game::creation_initial_>
    What [try_begin_creation] captures and an aborted creation restores. *)
Record Snapshot := mkSnapshot {
  initial_is_created : bool;
  initial_flags : Z;
  initial_is_open : bool;
  initial_is_visible : bool;
  initial_player_ttl : Z;
  initial_empty_game_ttl : Z;
  initial_max_peers : Z;
  initial_master_actor : Z;
  initial_custom_props : Hashtable;
  initial_lobby_props : list string;
  initial_last_actor_id : Z;
  initial_dummy_peer_count : Z;
  initial_event_cache : list Event;
  initial_expected_users : gset string;
  initial_expected_user_generations : gmap string Z;
  initial_inactive_players : gmap string InactivePlayerInfo;
}.

(** <include/luxon/server/game.hpp:124-242 Game>
    [self] names the game object itself, [game_lobby] its lobby. *)
Record Game := mkGame {
  self : game_ptr;
  game_lobby : lobby_ptr;
  id : string;
  server_address : string;
  flags : Z;
  is_created : bool;
  is_open : bool;
  is_visible : bool;
  player_ttl : Z;
  empty_game_ttl : Z;
  max_peers : Z;
  master_actor : Z;
  last_actor_id : Z;
  expected_users : gset string;
  expected_user_generations : gmap string Z;
  next_expected_user_generation : Z;
  custom_props : Hashtable;
  lobby_props : list string;
  event_cache : list Event;
  inactive_players : gmap string InactivePlayerInfo;
  creation_initial : Snapshot;
  reserved_generations : gmap string Z;
  removed_generations : gmap string Z;
  is_creating : bool;
  creation_owner : option peer_ptr;
  next_creation_generation : Z;
  active_creation_generation_ : Z;
  state_revision_ : Z;
  peers : list GamePeer;
  retired_peers : list GamePeer;
  dummy_peer_count : Z;
}.
End data.

#[export] Instance eta_GamePeer `{Ser} : Eta GamePeer := λ g,
  mkGamePeer (peer g) (owner_game g) (actor_id g) (actor_props g)
    (interest_groups g) (active g).
#[export] Instance eta_Event `{Ser} : Eta Event := λ e,
  mkEvent (code e) (sender_actor_id e) (delivery_mode e) (channel e)
    (receivers e) (interest_group e) (data e) (top_params e) (cached_data e).
#[export] Instance eta_Game `{Ser} : Eta Game := λ g,
  mkGame (self g) (game_lobby g) (id g) (server_address g) (flags g)
    (is_created g) (is_open g) (is_visible g) (player_ttl g)
    (empty_game_ttl g) (max_peers g) (master_actor g) (last_actor_id g)
    (expected_users g) (expected_user_generations g)
    (next_expected_user_generation g) (custom_props g) (lobby_props g)
    (event_cache g) (inactive_players g) (creation_initial g)
    (reserved_generations g) (removed_generations g) (is_creating g)
    (creation_owner g) (next_creation_generation g)
    (active_creation_generation_ g) (state_revision_ g) (peers g)
    (retired_peers g) (dummy_peer_count g).

Section state.
Context `{Ser}.
Implicit Types (g : Game) (env : PeerEnv) (gp : GamePeer).

Definition no_snapshot : Snapshot :=
  mkSnapshot false 0 false false 0 0 0 0 ∅ [] 0 0 [] ∅ ∅ ∅.

(** <src/game.cpp:90-91 Game::Game>
    The defaults are the member initialisers of [game.hpp]; the address is
    the endpoint's static copy. *)
Definition new_game (self_ : game_ptr) (lobby : lobby_ptr) (id_ address : string) :
    Game :=
  {| self := self_; game_lobby := lobby; id := id_; server_address := address;
     flags := 3; is_created := false; is_open := true; is_visible := true;
     player_ttl := 0; empty_game_ttl := 0; max_peers := 0; master_actor := 1;
     last_actor_id := 0; expected_users := ∅; expected_user_generations := ∅;
     next_expected_user_generation := 0; custom_props := ∅; lobby_props := [];
     event_cache := []; inactive_players := ∅; creation_initial := no_snapshot;
     reserved_generations := ∅; removed_generations := ∅;
     is_creating := false; creation_owner := None;
     next_creation_generation := 0; active_creation_generation_ := 0;
     state_revision_ := 0; peers := []; retired_peers := [];
     dummy_peer_count := 0 |}.

(** ** Effects

    What a game's operations ask of the server manager, the lobby and the
    peers: scheduled tasks, lobby list notifications, IPC messages and
    packets. *)

(** The two closures a game schedules (game.cpp:395-407 and 563). *)
Inductive GameTask :=
  | ExpireExpectedUser (user : string) (generation : Z)
  | KeepGameAlive.

(** [ser::EventMessage] *)
Record EventMessage := mkMessage {
  event_code : Z;
  parameters : ParameterList;
}.

Inductive Effect :=
  | Schedule (ms : Z) (task : GameTask)
  | LobbyGameUpdate
  | LobbyGameDelete
  | IpcBroadcast (msg : EventMessage)
  | Send (to : peer_ptr) (payload : ByteArray) (channel_ mode : Z).

(** ** Queries *)

(** <src/game.cpp:666-673 Game::find_peer(int32_t)> *)
Definition find_actor g (a : Z) : option GamePeer :=
  find_first (λ gp, active gp && (actor_id gp =? a)) (peers g).

(** <src/game.cpp:675-682 Game::find_peer(shared_ptr)>
    An expired node locks to the null pointer, so a null argument finds it. *)
Definition find_peer env g (p : option peer_ptr) : option GamePeer :=
  find_first (λ gp, active gp && bool_decide (lock env (peer gp) = p)) (peers g).

(** <src/game.cpp:181-189 Game::actor_id_for_peer> *)
Definition actor_id_for_peer env g (p : option peer_ptr) : option Z :=
  match p with
  | None => None
  | Some _ => actor_id <$> find_peer env g p
  end.

(** <src/game.cpp:191-197 Game::has_peer_actor> *)
Definition has_peer_actor g (a : Z) : bool :=
  existsb (λ gp, active gp && (actor_id gp =? a)) (peers g).

(** <src/game.cpp:219-222 Game::active_peer_count> *)
Definition active_peer_count g : Z := len (peers g).

(** <src/game.cpp:170-173 Game::active_creation_generation> *)
Definition active_creation_generation g : Z := active_creation_generation_ g.

(** <src/game.cpp:175-179 Game::is_joinable> *)
Definition is_joinable g : bool :=
  is_created g && negb (is_creating g) && is_visible g && is_open g.

(** <src/game.cpp:199-202 Game::state_revision> *)
Definition state_revision g : Z := state_revision_ g.

(** <src/game.cpp:236-239 Game::has_expected_user> *)
Definition has_expected_user g (user : string) : bool :=
  bool_decide (user ∈ expected_users g).

(** <include/luxon/server/game.hpp:214-226 Game::ConfigSnapshot> *)
Record ConfigSnapshot := mkConfigSnapshot {
  cs_flags : Z;
  cs_is_created : bool;
  cs_is_open : bool;
  cs_is_visible : bool;
  cs_max_peers : Z;
  cs_master_actor : Z;
  cs_player_ttl : Z;
  cs_empty_game_ttl : Z;
  cs_last_actor_id : Z;
  cs_dummy_peer_count : Z;
  cs_peer_count : Z;
}.

(** <src/game.cpp:204-217 Game::get_config_snapshot> *)
Definition get_config_snapshot g : ConfigSnapshot :=
  mkConfigSnapshot (flags g) (is_created g) (is_open g) (is_visible g)
    (max_peers g) (master_actor g) (player_ttl g) (empty_game_ttl g)
    (last_actor_id g) (dummy_peer_count g) (len (peers g)).

(** [++state_revision_] *)
Definition bump_revision g : Game :=
  g <| state_revision_ ::= λ r, u64 (r + 1) |>.

(** <src/game.cpp:224-234 Game::set_config_state> *)
Definition set_config_state g (new_flags : Z) (new_is_open new_is_visible : bool)
    (new_max_peers new_master_actor : Z) : Game :=
  bump_revision
    (g <| flags := new_flags |> <| is_open := new_is_open |>
       <| is_visible := new_is_visible |> <| max_peers := new_max_peers |>
       <| master_actor := new_master_actor |>).

(** [++counter], skipping the value 0 when the 64-bit counter wraps. *)
Definition next_generation (n : Z) : Z :=
  let g := u64 (n + 1) in if g =? 0 then u64 (g + 1) else g.
End state.

(** ** Lemmas *)

Section facts.
Context `{Ser}.
Implicit Types (g : Game) (env : PeerEnv) (gp : GamePeer).

Lemma next_generation_range n : 0 < next_generation n < 2 ^ 64.
Proof.
  unfold next_generation. pose proof (wrap_range 64 (n + 1) ltac:(lia)).
  destruct (Z.eqb_spec (u64 (n + 1)) 0) as [->|]; [|lia].
  by vm_compute.
Qed.

(** Until the counter wraps a generation is larger than its predecessor. *)
Lemma next_generation_succ n :
  0 ≤ n < 2 ^ 64 - 1 → next_generation n = n + 1.
Proof.
  intros. unfold next_generation. rewrite !(wrap_small 64 (n + 1)) by lia.
  by destruct (Z.eqb_spec (n + 1) 0); [lia|].
Qed.

Lemma lock_Some env w p : lock env w = Some p ↔ w = Some p ∧ is_Some (env !! p).
Proof.
  unfold lock. destruct w as [q|]; cbn; [|by split; [|intros [??]]].
  destruct (decide (is_Some (env !! q))) as [Hq|Hq]; split.
  - by intros [= ->].
  - by intros [[= ->] _].
  - done.
  - by intros [[= ->] ?].
Qed.

Lemma lock_None env p : lock env (Some p) = None ↔ env !! p = None.
Proof.
  unfold lock; cbn. destruct (decide (is_Some (env !! p))) as [[x Hx]|Hn].
  - by rewrite Hx.
  - split; [intros _; by apply eq_None_not_Some|done].
Qed.

Lemma has_peer_actor_spec g a :
  has_peer_actor g a = true ↔ is_Some (find_actor g a).
Proof.
  unfold has_peer_actor, find_actor. rewrite existsb_exists. split.
  - intros (gp & Hin & Hp). apply (find_first_is_Some _ _ gp); [|done].
    by apply list_elem_of_In.
  - intros [gp Hf]. apply find_first_Some in Hf as [Hin Hp].
    exists gp. by rewrite <-list_elem_of_In.
Qed.

Lemma find_actor_None g a :
  find_actor g a = None ↔
  ∀ gp, gp ∈ peers g → active gp = true → actor_id gp ≠ a.
Proof.
  unfold find_actor. rewrite find_first_None. split.
  - intros Hn gp Hin Ha <-. specialize (Hn gp Hin). cbn in Hn.
    rewrite Ha, Z.eqb_refl in Hn. discriminate.
  - intros Hn gp Hin. specialize (Hn gp Hin).
    destruct (active gp); [|done]. cbn. apply Z.eqb_neq. by apply Hn.
Qed.

Lemma find_actor_Some g a gp :
  find_actor g a = Some gp → gp ∈ peers g ∧ active gp = true ∧ actor_id gp = a.
Proof.
  unfold find_actor. intros [Hin Hp]%find_first_Some.
  apply andb_prop in Hp as [Ha Hp]. by apply Z.eqb_eq in Hp.
Qed.

Lemma find_peer_Some env g p gp :
  find_peer env g p = Some gp →
  gp ∈ peers g ∧ active gp = true ∧ lock env (peer gp) = p.
Proof.
  unfold find_peer. intros [Hin Hp]%find_first_Some.
  apply andb_prop in Hp as [Ha Hp]. by apply bool_decide_eq_true in Hp.
Qed.
End facts.

#[export] Hint Resolve next_generation_range : luxon.
