(* ===== verification/GameMembers.v ===== *)
(** * Members of a game

    Models the actor and admission operations of [game.cpp]: actor numbers,
    insertion and removal of nodes, expected-user reservations with their
    expiry task, interest groups and join validation. *)

From S2P Require Import Prelude Values Types GameState.
Open Scope Z_scope.

Section ops.
Context `{Ser, Codes}.
Implicit Types (g : Game) (env : PeerEnv) (gp : GamePeer) (p : peer_ptr).

(** ** Actor numbers *)

(** <src/game.cpp:340-350 Game::create_peer>
    The allocation loop; [attempts] is its remaining iterations. The result 0
    is the default [actor_id] of a node for which no number was found. *)
Fixpoint alloc_actor (attempts : nat) g : Game * Z :=
  match attempts with
  | O => (g, 0)
  | S attempts =>
      let last := if 0xfe <=? last_actor_id g then 0 else last_actor_id g in
      let g := g <| last_actor_id := last + 1 |> in
      match find_actor g (last + 1) with
      | None => (g, last + 1)
      | Some _ => alloc_actor attempts g
      end
  end.

(** The [UserId] property added to a new node when ids are published. *)
Definition published_props g (u : string) : Hashtable :=
  if has_flag (flags g) PublishUserId then
    <[of_byte ActorUserId := of_string u]> ∅
  else ∅.

(** <src/game.cpp:331-360 Game::create_peer> *)
Definition create_peer env g (p : option peer_ptr) : Game * GamePeer :=
  match p ≫= peer_user env with
  | None => (g, no_game_peer)
  | Some u =>
      let '(g, a) := alloc_actor (Z.to_nat 0xfe) g in
      let fres := mkGamePeer p (Some (self g)) a ∅ default_groups true in
      if is_valid fres then (g, fres <| actor_props := published_props g u |>)
      else (g, no_game_peer)
  end.

(** <src/game.cpp:362-378 Game::create_peer_for_actor> *)
Definition create_peer_for_actor env g (p : option peer_ptr) (a : Z) : GamePeer :=
  match p ≫= peer_user env with
  | None => no_game_peer
  | Some u =>
      if (a <=? 0) || (0xfe <=? a) then no_game_peer
      else match find_actor g a with
           | Some _ => no_game_peer
           | None =>
               mkGamePeer p (Some (self g)) a (published_props g u)
                 default_groups true
           end
  end.

(** ** Expected users *)

(** <src/game.cpp:381-409 Game::reserve_expected_user_with_generation> *)
Definition reserve_expected_user_with_generation g (user : string) (ttl_ms : Z) :
    Game * option Z * list Effect :=
  if empty_str user then (g, None, [])
  else if decide (user ∈ expected_users g) then (g, None, [])
  else
    let g := g <| expected_users ::= λ s, {[user]} ∪ s |> in
    let generation := next_generation (next_expected_user_generation g) in
    let g := g <| next_expected_user_generation := generation |>
               <| expected_user_generations ::= <[user := generation]> |> in
    let g := if is_creating g
             then g <| reserved_generations ::= <[user := generation]> |>
             else g in
    (g, Some generation, [Schedule ttl_ms (ExpireExpectedUser user generation)]).

(** <src/game.cpp:411-413 Game::reserve_expected_user> *)
Definition reserve_expected_user g (user : string) (ttl_ms : Z) :
    Game * bool * list Effect :=
  let '(g, r, eff) := reserve_expected_user_with_generation g user ttl_ms in
  (g, bool_decide (is_Some r), eff).

(** The reservation of [user] with this generation was made by the creation in
    progress ([owned] in the source). *)
Definition owned_reservation g (user : string) (generation : Z) : bool :=
  bool_decide (reserved_generations g !! user = Some generation).

(** <src/game.cpp:419-423 Game::remove_expected_user>
    Remember the loss of a reservation that predates the creation in
    progress (also lines 399-403). *)
Definition note_removed g (user : string) (generation : Z) : Game :=
  if is_creating g && negb (owned_reservation g user generation)
  then g <| removed_generations ::= <[user := generation]> |>
  else g.

(** <src/game.cpp:415-427 Game::remove_expected_user> *)
Definition remove_expected_user g (user : string) : Game :=
  let g :=
    match expected_user_generations g !! user with
    | Some generation =>
        note_removed g user generation
          <| expected_user_generations ::= delete user |>
    | None => g
    end in
  g <| expected_users ::= λ s, s ∖ {[user]} |>.

(** <src/game.cpp:429-438 Game::remove_expected_user_if_generation> *)
Definition remove_expected_user_if_generation g (user : string) (generation : Z) :
    Game * bool :=
  if decide (expected_user_generations g !! user = Some generation) then
    (g <| expected_user_generations ::= delete user |>
       <| expected_users ::= λ s, s ∖ {[user]} |>, true)
  else (g, false).

(** <src/game.cpp:395-407 Game::reserve_expected_user_with_generation>
    The closures scheduled with the server manager. *)
Definition run_task (t : GameTask) g : Game :=
  match t with
  | ExpireExpectedUser user generation =>
      if decide (expected_user_generations g !! user = Some generation) then
        note_removed g user generation
          <| expected_user_generations ::= delete user |>
          <| expected_users ::= λ s, s ∖ {[user]} |>
      else g
  | KeepGameAlive => g
  end.

(** ** Interest groups *)

(** Assign through the pointer [find_peer(peer)] returned. *)
Fixpoint update_first {A} (sel : A → bool) (f : A → A) (l : list A) : list A :=
  match l with
  | [] => []
  | x :: l => if sel x then f x :: l else x :: update_first sel f l
  end.

(** <src/game.cpp:448-459 Game::apply_interest_groups> *)
Definition change_groups (add remove : list Z) (ig : InterestGroups) :
    InterestGroups :=
  let ig := if decide (remove = []) then ig_reset_all
            else foldl ig_reset ig remove in
  if decide (add = []) then ig_set_all else foldl ig_set ig add.

(** <src/game.cpp:440-461 Game::apply_interest_groups> *)
Definition apply_interest_groups env g (p : option peer_ptr) (add remove : list Z) :
    Game * bool :=
  match find_peer env g p with
  | None => (g, false)
  | Some _ =>
      (g <| peers ::= update_first
              (λ gp, active gp && bool_decide (lock env (peer gp) = p))
              (λ gp, gp <| interest_groups ::= change_groups add remove |>) |>,
       true)
  end.

(** ** Insertion *)

(** <src/game.cpp:481-485 Game::add_peer>
    Some live node belongs to the user (also lines 511-515 and 769-773). *)
Definition user_joined env g (u : string) : bool :=
  existsb (λ that, match lock env (peer that) ≫= peer_user env with
                   | Some u' => bool_decide (u' = u)
                   | None => false
                   end) (peers g).

(** <src/game.cpp:487-494 Game::add_peer>
    Append the node, claim it for this room and consume the reservation. *)
Definition emplace_peer g gp (u : string) : Game * option GamePeer :=
  let gp := gp <| owner_game := Some (self g) |> in
  (remove_expected_user (g <| peers ::= λ l, l ++ [gp] |>) u, Some gp).

(** <src/game.cpp:463-495 Game::add_peer> *)
Definition add_peer env g gp : Game * option GamePeer :=
  if is_creating g && negb (is_created g) then (g, None)
  else match lock env (peer gp) ≫= peer_user env with
  | None => (g, None)
  | Some u =>
      if bool_decide (is_Some (find_actor g (actor_id gp))) then (g, None)
      else if has_flag (flags g) CheckUserOnJoin && user_joined env g u
      then (g, None)
      else emplace_peer g gp u
  end.

(** <src/game.cpp:503-505 Game::add_peer_for_creation>
    The guard shared by the creation operations (also lines 143-148, 156-159
    and 246-249): the caller is the live owner of the current lease. *)
Definition holds_lease env g (owner : option peer_ptr) (generation : Z) : bool :=
  is_creating g && negb (bool_decide (owner = None)) && negb (generation =? 0)
  && (generation =? active_creation_generation_ g)
  && negb (bool_decide (lock env (creation_owner g) = None))
  && bool_decide (lock env (creation_owner g) = owner).

(** <src/game.cpp:497-521 Game::add_peer_for_creation> *)
Definition add_peer_for_creation env g gp (owner : option peer_ptr)
    (generation : Z) : Game * option GamePeer :=
  if negb (holds_lease env g owner generation) then (g, None)
  else match lock env (peer gp) ≫= peer_user env with
  | None => (g, None)
  | Some u =>
      if negb (bool_decide (lock env (peer gp) = owner))
         || bool_decide (is_Some (find_actor g (actor_id gp)))
      then (g, None)
      else if has_flag (flags g) CheckUserOnJoin && user_joined env g u
      then (g, None)
      else emplace_peer g gp u
  end.

(** ** Removal *)

(** <src/game.cpp:536-538 Game::remove_peer>
    One pass of the loop up to the first node that belongs to [p] or whose
    peer is gone, with the nodes before and after it. *)
Definition scan env p (l : list GamePeer) :
    option (list GamePeer * GamePeer * list GamePeer) :=
  split_first (λ gp, bool_decide (lock env (peer gp) = Some p)
                     || bool_decide (lock env (peer gp) = None)) l.

(** [peers.splice(retired_peers.end(), peers, it)] after [active = false]. *)
Definition retire (l1 : list GamePeer) gp (l2 : list GamePeer) g : Game :=
  g <| peers := l1 ++ l2 |>
    <| retired_peers ::= λ r, r ++ [gp <| active := false |>] |>.

(** <src/game.cpp:541-544 Game::remove_peer> *)
Definition drop_cache (a : Z) g : Game :=
  if has_flag (flags g) DeleteCacheOnLeave then
    g <| event_cache ::= remove_if (λ ev,
           (sender_actor_id ev =? a) && negb (sender_actor_id ev =? 0)) |>
  else g.

(** <src/game.cpp:534-556 Game::remove_peer>
    The [goto restart] loop.  Each round shortens [peers], so [fuel] above
    their number is enough. *)
Fixpoint remove_loop (fuel : nat) env p g (leaving : Z) : Game * Z :=
  match fuel with
  | O => (g, leaving)
  | S fuel =>
      match scan env p (peers g) with
      | None => (g, leaving)
      | Some (l1, gp, l2) =>
          if bool_decide (lock env (peer gp) = Some p) then
            remove_loop fuel env p
              (retire l1 gp l2 (drop_cache (actor_id gp) g)) (actor_id gp)
          else remove_loop fuel env p (retire l1 gp l2 g) leaving
      end
  end.

(** <src/game.cpp:523-578 Game::remove_peer> *)
Definition remove_peer env g (p : option peer_ptr) : Game * bool * list Effect :=
  match p with
  | None => (g, false, [])
  | Some p =>
      let '(g, leaving) := remove_loop (S (length (peers g))) env p g 0 in
      if leaving =? 0 then (g, false, [])
      else match peers g with
      | [] => (g, true,
               if 0 <? empty_game_ttl g
               then [Schedule (empty_game_ttl g) KeepGameAlive] else [])
      | front :: _ =>
          (if leaving =? master_actor g
           then g <| master_actor := actor_id front |> else g, true, [])
      end
  end.

(** ** Join validation *)

(** <src/game.cpp:735-776 Game::validate_join(size_t)>
    [size_t] additions cannot overflow here: the counts are container
    sizes. *)
Definition validate_join_count (settings : AppSettings) env g (user : string)
    (new_expected_users_count : Z) (allow_uncreated : bool) : ErrorCode :=
  if negb (is_created g) && negb allow_uncreated then GameIdNotExists
  else if negb (is_open g) then GameClosed
  else
    let current_count := len (peers g) + dummy_peer_count g in
    let reserved_count := Z.of_nat (size (expected_users g)) in
    let joining_user_is_reserved := bool_decide (user ∈ expected_users g) in
    let needed_slots :=
      (if joining_user_is_reserved then 0 else 1) + new_expected_users_count in
    let final_peer_count := current_count + reserved_count + needed_slots in
    if (0 <? max_peers g) && (max_peers g <? final_peer_count) then GameFull
    else if negb (max_peers_per_game settings =? 0)
            && (max_peers_per_game settings <? final_peer_count) then GameFull
    else if 0xfe <? final_peer_count then ActorListFull
    else if has_flag (flags g) CheckUserOnJoin && user_joined env g user
    then JoinFailedPeerAlreadyJoined
    else Ok.

(** <src/game.cpp:782-786 Game::validate_join(vector)> *)
Definition unique_expected g (user : string) (new_expected : list string) :
    gset string :=
  list_to_set (filter (λ e, e ≠ EmptyString ∧ e ≠ user ∧ e ∉ expected_users g)
                 new_expected).

(** <src/game.cpp:778-789 Game::validate_join(vector)> *)
Definition validate_join (settings : AppSettings) env g (user : string)
    (new_expected : list string) (allow_uncreated : bool) : ErrorCode :=
  validate_join_count settings env g user
    (Z.of_nat (size (unique_expected g user new_expected))) allow_uncreated.
End ops.

(** ** Actor allocation *)

Section alloc.
Context `{Ser, Codes}.
Implicit Types (g : Game) (env : PeerEnv) (gp : GamePeer).

(** The [k]-th number probed after [last]. *)
Definition probe (last : Z) (k : Z) : Z := (last + k - 1) mod 254 + 1.

Lemma probe_range last k : 1 ≤ probe last k ≤ 254.
Proof. unfold probe. pose proof (Z.mod_pos_bound (last + k - 1) 254). lia. Qed.

Lemma probe_1 last :
  0 ≤ last ≤ 254 → probe last 1 = (if 0xfe <=? last then 0 else last) + 1.
Proof.
  intros. unfold probe. replace (last + 1 - 1) with last by lia.
  destruct (Z.leb_spec 254 last).
  - by replace last with 254 by lia.
  - rewrite Z.mod_small; lia.
Qed.

Lemma probe_step last k :
  0 ≤ last ≤ 254 → probe (probe last 1) k = probe last (k + 1).
Proof.
  intros. unfold probe. f_equal.
  replace ((last + 1 - 1) mod 254 + 1 + k - 1) with (last mod 254 + k)
    by (replace (last + 1 - 1) with last by lia; lia).
  rewrite Zplus_mod_idemp_l. f_equal. lia.
Qed.

(** Every number is probed within 254 steps. *)
Lemma probe_surj last a :
  1 ≤ a ≤ 254 → ∃ k, 1 ≤ k ≤ 254 ∧ probe last k = a.
Proof.
  intros Ha. exists ((a - last - 1) mod 254 + 1). unfold probe. split.
  - pose proof (Z.mod_pos_bound (a - last - 1) 254). lia.
  - replace (last + ((a - last - 1) mod 254 + 1) - 1)
      with ((a - last - 1) mod 254 + last) by lia.
    rewrite Zplus_mod_idemp_l.
    replace (a - last - 1 + last) with (a - 1) by lia.
    rewrite Z.mod_small; lia.
Qed.

Lemma alloc_actor_spec n g :
  0 ≤ last_actor_id g ≤ 254 →
  ∃ l, (alloc_actor n g).1 = g <| last_actor_id := l |> ∧ 0 ≤ l ≤ 254 ∧
  (((alloc_actor n g).2 = 0 ∧
    ∀ k, 1 ≤ k ≤ Z.of_nat n → find_actor g (probe (last_actor_id g) k) ≠ None) ∨
   ((alloc_actor n g).2 = l ∧ 1 ≤ l ∧ find_actor g l = None)).
Proof.
  revert g. induction n as [|n IH]; intros g Hl.
  - exists (last_actor_id g). split; [by destruct g|]. split; [done|].
    left. split; [done|]. intros. lia.
  - cbn [alloc_actor]. rewrite <-(probe_1 _ Hl).
    set (g1 := g <| last_actor_id := probe (last_actor_id g) 1 |>).
    change (find_actor g1) with (find_actor g).
    pose proof (probe_range (last_actor_id g) 1) as Hr.
    destruct (find_actor g (probe (last_actor_id g) 1)) eqn:Hf.
    2:{ eexists. split; [reflexivity|]. split; [lia|]. right. split; [done|]. split; [lia|done]. }
    destruct (IH g1) as (l & He & Hlr & Hcase).
    { unfold g1. upd. lia. }
    exists l. split; [by rewrite He; destruct g|]. split; [done|].
    change (find_actor g1) with (find_actor g) in Hcase.
    destruct Hcase as [[H0' Hall]|Hsome]; [left|by right].
    split; [done|]. intros k Hk.
    destruct (decide (k = 1)) as [->|]; [by rewrite Hf|].
    specialize (Hall (k - 1) ltac:(lia)).
    unfold g1 in Hall. revert Hall. upd. intros Hall.
    rewrite probe_step in Hall by done.
    by replace (k - 1 + 1) with k in Hall by lia.
Qed.

(** All numbers taken means at least 254 nodes. *)
Lemma actors_exhausted g :
  (∀ a, 1 ≤ a ≤ 254 → find_actor g a ≠ None) → 254 ≤ len (peers g).
Proof.
  intros Hall.
  assert (seqZ 1 254 ⊆ actor_id <$> peers g) as Hsub.
  { intros a Ha%elem_of_seqZ.
    destruct (find_actor g a) as [gp|] eqn:Hf; [|by apply Hall in Hf; lia].
    apply find_actor_Some in Hf as (Hin & _ & <-).
    by apply list_elem_of_fmap_2. }
  apply NoDup_submseteq, submseteq_length in Hsub; [|apply NoDup_seqZ].
  rewrite length_fmap, length_seqZ in Hsub. lia.
Qed.
End alloc.

(** ** Removal *)

Section removal.
Context `{Ser, Codes}.
Implicit Types (g : Game) (env : PeerEnv) (gp : GamePeer) (p : peer_ptr).

(** The nodes [remove_peer] takes out: those of [p] and the stale ones. *)
Definition leaves env p gp : bool := bool_decide (lock env (peer gp) = Some p).
Definition gone env p gp : bool :=
  leaves env p gp || bool_decide (lock env (peer gp) = None).

Definition deactivate gp : GamePeer := gp <| active := false |>.

(** The events purged when the nodes [ls] leave. *)
Definition purged g (ls : list GamePeer) (ev : Event) : bool :=
  has_flag (flags g) DeleteCacheOnLeave &&
  existsb (λ gp, (sender_actor_id ev =? actor_id gp)
                 && negb (sender_actor_id ev =? 0)) ls.

Definition kept env p (l : list GamePeer) : list GamePeer :=
  remove_if (gone env p) l.
Definition taken env p (l : list GamePeer) : list GamePeer :=
  filter (λ gp, gone env p gp = true) l.
Definition own_nodes env p (l : list GamePeer) : list GamePeer :=
  filter (λ gp, leaves env p gp = true) l.

(** The restart loop in one equation. *)
Definition removed_state env p g : Game :=
  g <| peers := kept env p (peers g) |>
    <| retired_peers ::= λ r, r ++ (deactivate <$> taken env p (peers g)) |>
    <| event_cache ::= remove_if (purged g (own_nodes env p (peers g))) |>.

Lemma none_gone env p l :
  (∀ x, x ∈ l → gone env p x = false) →
  kept env p l = l ∧ taken env p l = [] ∧ own_nodes env p l = [].
Proof.
  intros Hl. split; [by apply remove_if_none|].
  split; apply filter_none; intros x Hx; specialize (Hl x Hx);
    unfold gone in Hl; apply orb_false_elim in Hl as [Hl ?];
    unfold gone; rewrite Hl; [|done].
  by apply not_true_iff_false.
Qed.

Lemma kept_scan env p l1 gp l2 :
  (∀ x, x ∈ l1 → gone env p x = false) → gone env p gp = true →
  kept env p (l1 ++ gp :: l2) = l1 ++ kept env p l2 ∧
  kept env p (l1 ++ l2) = l1 ++ kept env p l2 ∧
  taken env p (l1 ++ gp :: l2) = gp :: taken env p l2 ∧
  taken env p (l1 ++ l2) = taken env p l2 ∧
  own_nodes env p (l1 ++ l2) = own_nodes env p l2 ∧
  own_nodes env p (l1 ++ gp :: l2) =
    (if leaves env p gp then [gp] else []) ++ own_nodes env p l2.
Proof.
  intros Hl1 Hgp. unfold kept, taken, own_nodes.
  destruct (none_gone env p l1 Hl1) as (E0 & E1 & E2). unfold kept, taken, own_nodes in *.
  rewrite !remove_if_app, E0, !filter_app, E1, E2.
  unfold remove_if. rewrite (filter_cons_False _ gp) by (rewrite Hgp; done).
  rewrite (filter_cons_True (λ gp, gone env p gp = true)) by done.
  repeat split; try done. rewrite filter_cons.
  destruct (decide _) as [->|Hn]; [done|]. by destruct (leaves env p gp).
Qed.

Lemma remove_loop_spec fuel env p g lv :
  (length (peers g) < fuel)%nat →
  remove_loop fuel env p g lv =
  (removed_state env p g,
   default lv (last (actor_id <$> own_nodes env p (peers g)))).
Proof.
  revert g lv. induction fuel as [|fuel IH]; intros g lv Hf; [lia|].
  cbn [remove_loop]. destruct (scan env p (peers g)) as [[[l1 gp] l2]|] eqn:Hs.
  2:{ destruct (none_gone env p (peers g) (split_first_None _ _ Hs)) as (Hk & Ht & Ho).
      unfold removed_state. rewrite Hk, Ht, Ho. cbn. rewrite app_nil_r.
      rewrite remove_if_none; [by destruct g|]. intros ev _. unfold purged.
      by rewrite andb_false_r. }
  apply split_first_Some in Hs as (Hp & Hl1 & Hgp).
  destruct (kept_scan env p l1 gp l2 Hl1 Hgp) as (K1 & K2 & T1 & T2 & O1 & O2).
  assert (∀ gx, peers (retire l1 gp l2 gx) = l1 ++ l2) as Hpr by done.
  fold (leaves env p gp).
  assert (length (l1 ++ l2) < fuel)%nat as Hf'.
  { rewrite Hp in Hf. rewrite length_app in *. cbn in Hf. lia. }
  unfold removed_state. rewrite Hp, K1, T1, O2.
  destruct (leaves env p gp) eqn:Hle; rewrite IH by (rewrite Hpr; done);
    unfold removed_state; rewrite Hpr, K2, T2, O1; f_equal.
  - unfold retire, drop_cache, purged. destruct g; cbn in *.
    destruct (has_flag _ _) eqn:Hflag; cbn; f_equal; rewrite ?Hflag; cbn;
      first [done|by rewrite remove_if_remove_if|by rewrite <-app_assoc].
  - cbn. destruct (own_nodes env p l2) as [|n ns]; [done|].
    rewrite fmap_cons, last_cons_cons.
    destruct (last_is_Some (actor_id n :: (actor_id <$> ns))) as [_ [a ->]]; done.
  - unfold retire. destruct g; cbn. f_equal. by rewrite <-app_assoc.
Qed.
End removal.
