(* ===== verification/GameCreation.v ===== *)
(** * The creation transaction of a game

    Models [try_begin_creation], [is_creation_active], [commit_creation] and
    [abort_creation_transaction] of [game.cpp]: the lease a first joiner holds
    on a room while it initialises it, and the rollback of everything the
    attempt changed. *)

From S2P Require Import Prelude Values Types GameState GameMembers.
Open Scope Z_scope.

Section ops.
Context `{Ser, Codes}.
Implicit Types (g : Game) (env : PeerEnv) (owner : option peer_ptr).

(** <src/game.cpp:104-119 Game::try_begin_creation> *)
Definition take_snapshot g : Snapshot :=
  {| initial_is_created := is_created g;
     initial_flags := flags g;
     initial_is_open := is_open g;
     initial_is_visible := is_visible g;
     initial_player_ttl := player_ttl g;
     initial_empty_game_ttl := empty_game_ttl g;
     initial_max_peers := max_peers g;
     initial_master_actor := master_actor g;
     initial_custom_props := custom_props g;
     initial_lobby_props := lobby_props g;
     initial_last_actor_id := last_actor_id g;
     initial_dummy_peer_count := dummy_peer_count g;
     initial_event_cache := event_cache g;
     initial_expected_users := expected_users g;
     initial_expected_user_generations := expected_user_generations g;
     initial_inactive_players := inactive_players g |}.

(** <src/game.cpp:93-139 Game::try_begin_creation>
    Under both mutexes the exchange of [is_creating] cannot fail. *)
Definition try_begin_creation g owner : Game * Z :=
  if bool_decide (owner = None) || is_created g || is_creating g
     || negb (active_peer_count g =? 0)
  then (g, 0)
  else
    let generation := next_generation (next_creation_generation g) in
    (bump_revision
       (g <| creation_initial := take_snapshot g |> <| is_creating := true |>
          <| next_creation_generation := generation |>
          <| active_creation_generation_ := generation |>)
       <| creation_owner := owner |>
       <| reserved_generations := ∅ |> <| removed_generations := ∅ |>,
     generation).

(** <src/game.cpp:141-149 Game::is_creation_active> *)
Definition is_creation_active env g owner (generation : Z) : bool :=
  holds_lease env g owner generation.

(** <src/game.cpp:151-168 Game::commit_creation> *)
Definition commit_creation env g owner (generation : Z) : Game * bool :=
  if negb (holds_lease env g owner generation)
     || bool_decide (find_peer env g owner = None)
  then (g, false)
  else (bump_revision g <| is_created := true |> <| creation_owner := None |>
          <| is_creating := false |>, true).

Definition live env (gp : GamePeer) : bool :=
  negb (bool_decide (lock env (peer gp) = None)).

(** <src/game.cpp:256-264 Game::abort_creation_transaction>
    Each round that retires a node restarts at the front of the shortened
    list, so [fuel] above the number of nodes is enough. *)
Fixpoint retire_live (fuel : nat) env g : Game :=
  match fuel with
  | O => g
  | S fuel =>
      match split_first (live env) (peers g) with
      | None => g
      | Some (l1, gp, l2) => retire_live fuel env (retire l1 gp l2 g)
      end
  end.

(** <src/game.cpp:271-272 Game::abort_creation_transaction> *)
Definition release_all (l : list (string * Z)) g : Game :=
  foldl (λ g ug, (remove_expected_user_if_generation g ug.1 ug.2).1) g l.

(** <src/game.cpp:273-276 Game::abort_creation_transaction>
    [reserve_expected_user_with_generation] with its default time to live. *)
Definition restore_one (st : Game * list Effect) (user : string) :
    Game * list Effect :=
  let '(g, eff) := st in
  if decide (user ∈ expected_users g) then (g, eff)
  else let '(g, _, eff') := reserve_expected_user_with_generation g user 30000 in
       (g, eff ++ eff').

Definition restore_all (l : list (string * Z)) g : Game * list Effect :=
  foldl restore_one (g, []) l.*1.

(** <src/game.cpp:281-292 Game::abort_creation_transaction> *)
Definition restore_fields (s : Snapshot) g : Game :=
  g <| flags := initial_flags s |>
    <| is_open := initial_is_open s |>
    <| is_visible := initial_is_visible s |>
    <| player_ttl := initial_player_ttl s |>
    <| empty_game_ttl := initial_empty_game_ttl s |>
    <| max_peers := initial_max_peers s |>
    <| master_actor := initial_master_actor s |>
    <| custom_props := initial_custom_props s |>
    <| lobby_props := initial_lobby_props s |>
    <| last_actor_id := initial_last_actor_id s |>
    <| dummy_peer_count := initial_dummy_peer_count s |>
    <| event_cache := initial_event_cache s |>.

(** <src/game.cpp:241-303 Game::abort_creation_transaction>
    The two reservation maps are visited in their iteration order. *)
Definition abort_creation_transaction env g owner (generation : Z) :
    Game * bool * list Effect :=
  if negb (holds_lease env g owner generation) then (g, false, [])
  else
    let g := retire_live (S (length (peers g))) env g in
    let g := g <| inactive_players :=
                    initial_inactive_players (creation_initial g) |> in
    let g := release_all (map_to_list (reserved_generations g)) g in
    let '(g, eff) := restore_all (map_to_list (removed_generations g)) g in
    let g := g <| reserved_generations := ∅ |> <| removed_generations := ∅ |> in
    let g := bump_revision (restore_fields (creation_initial g) g) in
    (g <| creation_owner := None |>
       <| is_created := initial_is_created (creation_initial g) |>
       <| is_creating := false |>, true, eff).
End ops.

(** ** The rollback *)

Section rollback.
Context `{Ser, Codes}.
Implicit Types (g : Game) (env : PeerEnv) (owner : option peer_ptr).

Lemma holds_lease_spec env g owner n :
  holds_lease env g owner n = true ↔
  is_creating g = true ∧ n ≠ 0 ∧ n = active_creation_generation_ g ∧
  is_Some owner ∧ lock env (creation_owner g) = owner.
Proof.
  unfold holds_lease. rewrite !andb_true_iff, !negb_true_iff, Z.eqb_neq,
    Z.eqb_eq, !bool_decide_eq_false, bool_decide_eq_true.
  split.
  - intros (((((?&?)&?)&?)&?)&?). by rewrite <-not_eq_None_Some.
  - intros (?&?&?&[p ->]&->). done.
Qed.

(** The retiring loop in one equation. *)
Lemma retire_live_spec fuel env g :
  (length (peers g) < fuel)%nat →
  retire_live fuel env g =
  g <| peers := remove_if (live env) (peers g) |>
    <| retired_peers ::= λ r,
         r ++ (deactivate <$> filter (λ gp, live env gp = true) (peers g)) |>.
Proof.
  revert g. induction fuel as [|fuel IH]; intros g Hf; [lia|].
  cbn [retire_live]. destruct (split_first _ _) as [[[l1 gp] l2]|] eqn:Hs.
  2:{ pose proof (split_first_None _ _ Hs) as Hn. rewrite remove_if_none by done.
      rewrite (filter_none _ (peers g)) by (intros x Hx; by rewrite Hn).
      destruct g; cbn. by rewrite app_nil_r. }
  apply split_first_Some in Hs as (Hp & Hl1 & Hgp).
  assert (peers (retire l1 gp l2 g) = l1 ++ l2) as Hr by done.
  rewrite IH by (rewrite Hr; rewrite Hp, length_app in Hf;
                 rewrite length_app; cbn in Hf; lia).
  rewrite Hr, Hp, !remove_if_app, !filter_app.
  rewrite (filter_none _ l1) by (intros x Hx; by rewrite Hl1).
  rewrite filter_cons_True by done.
  unfold remove_if at 4. rewrite filter_cons_False by (rewrite Hgp; done).
  destruct g; unfold retire; cbn. f_equal. by rewrite <-app_assoc.
Qed.

(** The game without the fields the reservation operations touch. *)
Definition room g : Game :=
  g <| expected_users := ∅ |> <| expected_user_generations := ∅ |>
    <| next_expected_user_generation := 0 |>
    <| reserved_generations := ∅ |> <| removed_generations := ∅ |>.
Definition same_room g g' : Prop := room g' = room g.

Lemma same_room_refl g : same_room g g.
Proof. done. Qed.
Lemma same_room_trans g1 g2 g3 :
  same_room g1 g2 → same_room g2 g3 → same_room g1 g3.
Proof. unfold same_room. congruence. Qed.

Lemma reserve_same_room g u ttl :
  same_room g (reserve_expected_user_with_generation g u ttl).1.1.
Proof.
  unfold reserve_expected_user_with_generation.
  destruct (empty_str u); [apply same_room_refl|].
  destruct (decide (u ∈ expected_users g)); [apply same_room_refl|].
  cbn [fst]. upd. destruct (is_creating g); reflexivity.
Qed.
Lemma note_removed_same_room g u n : same_room g (note_removed g u n).
Proof. unfold note_removed. destruct (_ && _); reflexivity. Qed.
Lemma drop_same_room g u :
  same_room g (g <| expected_user_generations ::= delete u |>
                 <| expected_users ::= λ s, s ∖ {[u]} |>).
Proof. reflexivity. Qed.
Lemma remove_expected_same_room g u : same_room g (remove_expected_user g u).
Proof.
  unfold remove_expected_user. destruct (expected_user_generations g !! u).
  - eapply same_room_trans; [apply note_removed_same_room|apply drop_same_room].
  - reflexivity.
Qed.
Lemma release_same_room g u n :
  same_room g (remove_expected_user_if_generation g u n).1.
Proof.
  unfold remove_expected_user_if_generation.
  destruct (decide _); [apply drop_same_room|apply same_room_refl].
Qed.
Lemma run_task_same_room t g : same_room g (run_task t g).
Proof.
  destruct t as [u n|]; cbn [run_task]; [|apply same_room_refl].
  destruct (decide _); [|apply same_room_refl].
  eapply same_room_trans; [apply note_removed_same_room|apply drop_same_room].
Qed.
End rollback.

(** ** Reservations *)

Section reservations.
Context `{Ser, Codes}.
Implicit Types (g : Game) (env : PeerEnv) (owner : option peer_ptr).

(** Every reservation has a generation, and no reservation is anonymous. *)
Record expect_ok g : Prop := {
  ok_dom : dom (expected_user_generations g) = expected_users g;
  ok_named : EmptyString ∉ expected_users g;
}.

(** Throughout a creation, with [E] the reservations it started from:
    a reservation of [E] is either still there or noted as removed (and
    noted as soon as the attempt reserved the same user itself), and every
    other reservation is the attempt's own. *)
Record lease_expect g : Prop := {
  le_kept u : u ∈ initial_expected_users (creation_initial g) →
    u ∈ expected_users g ∨ u ∈ dom (removed_generations g);
  le_noted u : u ∈ initial_expected_users (creation_initial g) →
    u ∈ dom (reserved_generations g) → u ∈ dom (removed_generations g);
  le_foreign u : u ∉ initial_expected_users (creation_initial g) →
    u ∉ dom (removed_generations g);
  le_owned u : u ∉ initial_expected_users (creation_initial g) →
    expected_user_generations g !! u = reserved_generations g !! u ∨
    expected_user_generations g !! u = None;
}.

(** The effect of every operation on reservations is one of these two. *)
Lemma reserve_expected g u ttl :
  let r := reserve_expected_user_with_generation g u ttl in
  (r.1.2 = None ∧ r.1.1 = g ∧ r.2 = [] ∧ (u = EmptyString ∨ u ∈ expected_users g)) ∨
  (∃ n, r.1.2 = Some n ∧ 0 < n ∧ u ≠ EmptyString ∧ (u ∉ expected_users g) ∧
     r.2 = [Schedule ttl (ExpireExpectedUser u n)] ∧
     expected_users r.1.1 = {[u]} ∪ expected_users g ∧
     expected_user_generations r.1.1 = <[u := n]> (expected_user_generations g) ∧
     reserved_generations r.1.1 =
       (if is_creating g then <[u := n]> (reserved_generations g)
        else reserved_generations g) ∧
     removed_generations r.1.1 = removed_generations g).
Proof.
  cbn zeta. unfold reserve_expected_user_with_generation, empty_str.
  destruct (bool_decide (u = EmptyString)) eqn:He; bools.
  { left. auto. }
  destruct (decide (u ∈ expected_users g)); [left; auto|].
  right. exists (next_generation (next_expected_user_generation g)).
  cbn [fst snd]. upd. pose proof (next_generation_range (next_expected_user_generation g)).
  destruct (is_creating g); upd; repeat split; lia || done.
Qed.

(** Dropping a reservation: by [remove_expected_user] or by the expiry task. *)
Definition drop g (u : string) : Game :=
  g <| expected_user_generations ::= delete u |>
    <| expected_users ::= λ s, s ∖ {[u]} |>.

Lemma note_removed_expected g u n :
  expected_users (note_removed g u n) = expected_users g ∧
  expected_user_generations (note_removed g u n) = expected_user_generations g ∧
  reserved_generations (note_removed g u n) = reserved_generations g ∧
  removed_generations (note_removed g u n) =
    (if is_creating g && negb (owned_reservation g u n)
     then <[u := n]> (removed_generations g) else removed_generations g).
Proof. unfold note_removed. by destruct (_ && _). Qed.

Lemma drop_expect_ok g u : expect_ok g → expect_ok (drop g u).
Proof.
  intros [Hd Hn]. split; unfold drop; upd; [|set_solver].
  by rewrite dom_delete_L, Hd.
Qed.
Lemma note_expect_ok g u n : expect_ok g → expect_ok (note_removed g u n).
Proof. intros [??]. unfold note_removed. by destruct (_ && _). Qed.
Lemma reserve_expect_ok g u ttl :
  expect_ok g → expect_ok (reserve_expected_user_with_generation g u ttl).1.1.
Proof.
  intros [Hd Hn]. destruct (reserve_expected g u ttl) as
    [(_ & -> & _)|(n & _ & _ & Hu & _ & _ & E1 & E2 & _)]; [done|].
  split; rewrite ?E1, ?E2; [by rewrite dom_insert_L, Hd|set_solver].
Qed.
Lemma remove_expect_ok g u : expect_ok g → expect_ok (remove_expected_user g u).
Proof.
  intros Hok. unfold remove_expected_user.
  destruct (expected_user_generations g !! u) as [n|] eqn:E.
  - by apply drop_expect_ok, note_expect_ok.
  - destruct Hok as [Hd Hn]. apply not_elem_of_dom in E. split; upd; set_solver.
Qed.
Lemma release_expect_ok g u n :
  expect_ok g → expect_ok (remove_expected_user_if_generation g u n).1.
Proof.
  intros Hok. unfold remove_expected_user_if_generation.
  destruct (decide _); [by apply drop_expect_ok|done].
Qed.
Lemma run_task_expect_ok t g : expect_ok g → expect_ok (run_task t g).
Proof.
  intros Hok. destruct t as [u n|]; cbn [run_task]; [|done].
  destruct (decide _); [|done]. by apply drop_expect_ok, note_expect_ok.
Qed.

(** ** The creation's view of the reservations is kept *)

Lemma initial_note_removed g u n :
  creation_initial (note_removed g u n) = creation_initial g.
Proof. unfold note_removed. by destruct (_ && _). Qed.

Lemma drop_lease_expect g u n :
  is_creating g = true → expected_user_generations g !! u = Some n →
  lease_expect g → lease_expect (drop (note_removed g u n) u).
Proof.
  intros Hc Hn [Hk Hno Hf Ho].
  destruct (note_removed_expected g u n) as (E1 & E2 & E3 & E4).
  rewrite Hc in E4. cbn in E4. unfold owned_reservation in E4.
  split; unfold drop; upd; intros v; rewrite initial_note_removed, ?E1, ?E2, ?E3, ?E4;
    destruct (bool_decide (reserved_generations g !! u = Some n)) eqn:Hown;
    bools; cbn [negb]; intros Hv.
  - destruct (decide (v = u)) as [->|].
    + right. apply Hno; [done|]. apply elem_of_dom. eauto.
    + destruct (Hk v Hv); set_solver.
  - destruct (decide (v = u)) as [->|]; [set_solver|]. destruct (Hk v Hv); set_solver.
  - by apply Hno.
  - specialize (Hno v Hv). set_solver.
  - by apply Hf.
  - destruct (decide (v = u)) as [->|]; [|specialize (Hf v Hv); set_solver].
    destruct (Ho u Hv); congruence.
  - destruct (decide (v = u)) as [->|].
    + right. apply lookup_delete_eq.
    + rewrite lookup_delete_ne by done. by apply Ho.
  - destruct (decide (v = u)) as [->|].
    + right. apply lookup_delete_eq.
    + rewrite lookup_delete_ne by done. by apply Ho.
Qed.

Lemma reserve_lease_expect g u ttl :
  is_creating g = true → lease_expect g →
  lease_expect (reserve_expected_user_with_generation g u ttl).1.1.
Proof.
  intros Hc Hle. pose proof (reserve_same_room g u ttl) as Hs.
  apply (f_equal creation_initial) in Hs.
  change (creation_initial (room ?x)) with (creation_initial x) in Hs.
  destruct (reserve_expected g u ttl) as
    [(_ & -> & _)|(n & _ & _ & Hu & Hnu & _ & E1 & E2 & E3 & E4)]; [done|].
  rewrite Hc in E3. destruct Hle as [Hk Hno Hf Ho].
  split; intros v; rewrite ?Hs, ?E1, ?E2, ?E3, ?E4; intros Hv.
  - destruct (Hk v Hv); set_solver.
  - rewrite dom_insert, elem_of_union, elem_of_singleton.
    intros [->|]; [|by apply Hno]. by destruct (Hk u Hv).
  - by apply Hf.
  - destruct (decide (v = u)) as [->|].
    + left. by rewrite !lookup_insert_eq.
    + rewrite !lookup_insert_ne by done. by apply Ho.
Qed.

Lemma remove_lease_expect g u :
  is_creating g = true → expect_ok g → lease_expect g →
  lease_expect (remove_expected_user g u).
Proof.
  intros Hc [Hd _] Hle. unfold remove_expected_user.
  destruct (expected_user_generations g !! u) as [n|] eqn:E.
  - by apply drop_lease_expect.
  - destruct Hle as [Hk Hno Hf Ho].
    apply not_elem_of_dom in E. rewrite Hd in E.
    split; upd; [|done..]. intros v Hv. destruct (Hk v Hv); set_solver.
Qed.

Lemma run_task_lease_expect t g :
  is_creating g = true → lease_expect g → lease_expect (run_task t g).
Proof.
  intros Hc Hle. destruct t as [u n|]; cbn [run_task]; [|done].
  destruct (decide _); [|done]. by apply drop_lease_expect.
Qed.

(** Releasing one's own reservation is not noted, and need not be. *)
Lemma release_lease_expect g u n :
  reserved_generations g !! u = Some n → lease_expect g →
  lease_expect (remove_expected_user_if_generation g u n).1.
Proof.
  intros Hr [Hk Hno Hf Ho]. unfold remove_expected_user_if_generation.
  destruct (decide _) as [E|]; [|done]. cbn [fst].
  split; upd; intros v Hv.
  - destruct (decide (v = u)) as [->|].
    + right. apply Hno; [done|]. apply elem_of_dom. eauto.
    + destruct (Hk v Hv); set_solver.
  - by apply Hno.
  - by apply Hf.
  - destruct (decide (v = u)) as [->|].
    + right. apply lookup_delete_eq.
    + rewrite lookup_delete_ne by done. by apply Ho.
Qed.
End reservations.

(** ** What the two rollback loops do to the reservations *)

Section loops.
Context `{Ser, Codes}.
Implicit Types (g : Game) (env : PeerEnv) (l : list (string * Z)).

Lemma release_all_spec l g :
  expect_ok g →
  same_room g (release_all l g) ∧ expect_ok (release_all l g) ∧
  removed_generations (release_all l g) = removed_generations g ∧
  ∀ u, expected_user_generations (release_all l g) !! u =
    match expected_user_generations g !! u with
    | Some n => if decide ((u, n) ∈ l) then None else Some n
    | None => None
    end.
Proof.
  revert g. induction l as [|[v m] l IH]; intros g Hok;
    cbn [release_all foldl fst snd].
  { split; [apply same_room_refl|]. split; [done|]. split; [done|].
    intros u. by destruct (_ !! u). }
  fold (release_all l (remove_expected_user_if_generation g v m).1).
  destruct (IH (remove_expected_user_if_generation g v m).1) as (Hs & Hok' & Hr & Hl);
    [by apply release_expect_ok|].
  split; [eapply same_room_trans; [apply release_same_room|exact Hs]|].
  split; [done|]. rewrite Hr. split.
  { unfold remove_expected_user_if_generation. by destruct (decide _). }
  intros u. rewrite Hl. unfold remove_expected_user_if_generation.
  destruct (decide (expected_user_generations g !! v = Some m)) as [E|E];
    cbn [fst]; upd.
  - destruct (decide (u = v)) as [->|Hne].
    + rewrite lookup_delete_eq, E. rewrite decide_True by left. done.
    + rewrite lookup_delete_ne by done.
      destruct (_ !! u) as [n|]; [|done]. apply decide_ext.
      rewrite elem_of_cons. split; [by right|]. by intros [[=]|].
  - destruct (expected_user_generations g !! u) as [n|] eqn:En; [|done].
    apply decide_ext. rewrite elem_of_cons. split; [by right|].
    intros [[= -> ->]|]; done.
Qed.

Lemma restore_one_spec g eff u :
  let r := restore_one (g, eff) u in
  u ≠ EmptyString → expect_ok g →
  same_room g r.1 ∧ expect_ok r.1 ∧
  expected_users r.1 = {[u]} ∪ expected_users g.
Proof.
  cbn zeta. intros Hu Hok. unfold restore_one.
  destruct (decide (u ∈ expected_users g)) as [Hin|Hnin].
  { split; [apply same_room_refl|]. split; [done|]. cbn [fst]. set_solver. }
  pose proof (reserve_same_room g u 30000) as Hs.
  pose proof (reserve_expect_ok g u 30000 Hok) as Hok'.
  destruct (reserve_expected g u 30000) as
    [(_ & _ & _ & [?|?])|(n & _ & _ & _ & _ & _ & E1 & _)]; [done..|].
  destruct (reserve_expected_user_with_generation g u 30000) as [[g' r'] eff'].
  done.
Qed.

Lemma restore_all_spec l g :
  (∀ u, u ∈ l.*1 → u ≠ EmptyString) → expect_ok g →
  let g' := (restore_all l g).1 in
  same_room g g' ∧ expect_ok g' ∧
  expected_users g' = expected_users g ∪ list_to_set l.*1.
Proof.
  cbn zeta. unfold restore_all. generalize (l.*1) (@nil Effect). intros us eff.
  revert g eff. induction us as [|u us IH]; intros g eff Hu Hok; cbn [foldl].
  { split; [apply same_room_refl|]. split; [done|]. set_solver. }
  destruct (restore_one_spec g eff u) as (Hs & Hok' & E); [|done|].
  { apply Hu. left. }
  destruct (restore_one (g, eff) u) as [g1 eff1]. cbn [fst] in *.
  destruct (IH g1 eff1) as (Hs' & Hok'' & E'); [|done|].
  { intros v Hv. apply Hu. by right. }
  split; [by eapply same_room_trans|]. split; [done|]. rewrite E', E. set_solver.
Qed.

(** After both loops the reservations are those the creation found. *)
Lemma rollback_reservations g :
  expect_ok g → lease_expect g →
  EmptyString ∉ initial_expected_users (creation_initial g) →
  let g1 := release_all (map_to_list (reserved_generations g)) g in
  let g2 := (restore_all (map_to_list (removed_generations g1)) g1).1 in
  same_room g g2 ∧ expect_ok g2 ∧
  expected_users g2 = initial_expected_users (creation_initial g).
Proof.
  cbn zeta. intros Hok [Hk Hno Hf Ho] Hnil.
  destruct (release_all_spec (map_to_list (reserved_generations g)) g Hok)
    as (Hs1 & Hok1 & Hr1 & Hl1).
  rewrite Hr1. set (g1 := release_all _ g) in *.
  assert (∀ u, u ∈ (map_to_list (removed_generations g)).*1 ↔
               u ∈ dom (removed_generations g)) as Hdom.
  { intros u. rewrite list_elem_of_fmap, elem_of_dom. split.
    - intros ([v n] & -> & Hin%elem_of_map_to_list). eauto.
    - intros [n Hn]. exists (u, n). by rewrite elem_of_map_to_list. }
  destruct (restore_all_spec (map_to_list (removed_generations g)) g1)
    as (Hs2 & Hok2 & E2); [|done|].
  { intros u Hu%Hdom ->. by apply (Hf EmptyString). }
  split; [by eapply same_room_trans|]. split; [done|].
  rewrite E2. apply set_eq. intros u.
  rewrite elem_of_union, elem_of_list_to_set, Hdom, <-(ok_dom _ Hok1).
  rewrite elem_of_dom, Hl1. destruct Hok as [Hd Hn0].
  destruct (decide (u ∈ initial_expected_users (creation_initial g))) as [Hi|Hi].
  - split; [done|]. intros _. destruct (Hk u Hi) as [Hin|Hin]; [|by right].
    rewrite <-Hd, elem_of_dom in Hin. destruct Hin as [n Hn]. rewrite Hn.
    destruct (decide ((u, n) ∈ _)) as [Hm|]; [|left; eauto].
    right. apply Hno; [done|]. apply elem_of_map_to_list in Hm.
    apply elem_of_dom. eauto.
  - split; [|done]. intros [Hs|Hr]; [|by apply Hf in Hr].
    destruct (Ho u Hi) as [E|E]; rewrite E in Hs; [|by destruct Hs].
    destruct (reserved_generations g !! u) as [n|] eqn:En; [|by destruct Hs].
    rewrite decide_True in Hs by by apply elem_of_map_to_list.
    by destruct Hs.
Qed.
End loops.
