(* ===== verification/GameProps.v ===== *)
(** * Properties of a game and of its actors

    Models the property operations of [game.cpp]: the built-in properties
    ([PROP_MAP]), the custom ones, the compare-and-set entry points and the
    lobby notification a change triggers. *)

From S2P Require Import Prelude Values Types GameState GameMembers.
Open Scope Z_scope.

(** <src/game.cpp:833-840 PROP_MAP> *)
Inductive GameProp :=
  | PMaxPlayers | PIsVisible | PIsOpen | PPlayerTTL | PEmptyGameTTL
  | PMasterClientId | PLobbyProperties.

#[export] Instance GameProp_eq_dec : EqDecision GameProp.
Proof. solve_decision. Defined.

Definition all_props : list GameProp :=
  [PMaxPlayers; PIsVisible; PIsOpen; PPlayerTTL; PEmptyGameTTL;
   PMasterClientId; PLobbyProperties].

Section ops.
Context `{Ser, Codes}.
Implicit Types (g : Game) (p : GameProp) (key value : Value).

(** <src/game.cpp:833-840 PROP_MAP> The [GameProps] code of each entry. *)
Definition prop_code p : Z :=
  match p with
  | PMaxPlayers => MaxPlayers | PIsVisible => IsVisible | PIsOpen => IsOpen
  | PPlayerTTL => PlayerTTL | PEmptyGameTTL => EmptyGameTTL
  | PMasterClientId => MasterClientId | PLobbyProperties => LobbyProperties
  end.

(** <src/game.cpp:833-840 PROP_MAP> The [updates_lobby] column. *)
Definition updates_lobby p : bool :=
  match p with
  | PMaxPlayers | PIsOpen | PLobbyProperties => true
  | _ => false
  end.

(** <src/game.cpp:833-840 PROP_MAP> The variable, as a value of its type. *)
Definition prop_read p g : Value :=
  match p with
  | PMaxPlayers => of_byte (max_peers g)
  | PIsVisible => of_bool (is_visible g)
  | PIsOpen => of_bool (is_open g)
  | PPlayerTTL => of_int32 (player_ttl g)
  | PEmptyGameTTL => of_int32 (empty_game_ttl g)
  | PMasterClientId => of_int32 (master_actor g)
  | PLobbyProperties => of_strings (lobby_props g)
  end.

(** <src/game.cpp:934-936 Game::insert_game_props>
    [value.store_if<type>(var)]: the variable changes only when the value
    holds its type. The boolean is [value_changed]. *)
Definition prop_store p value g : Game * bool :=
  match p with
  | PMaxPlayers =>
      match get_byte value with
      | Some x => (g <| max_peers := x |>, negb (bool_decide (max_peers g = x)))
      | None => (g, false)
      end
  | PIsVisible =>
      match get_bool value with
      | Some x => (g <| is_visible := x |>, negb (bool_decide (is_visible g = x)))
      | None => (g, false)
      end
  | PIsOpen =>
      match get_bool value with
      | Some x => (g <| is_open := x |>, negb (bool_decide (is_open g = x)))
      | None => (g, false)
      end
  | PPlayerTTL =>
      match get_int32 value with
      | Some x => (g <| player_ttl := x |>, negb (bool_decide (player_ttl g = x)))
      | None => (g, false)
      end
  | PEmptyGameTTL =>
      match get_int32 value with
      | Some x =>
          (g <| empty_game_ttl := x |>, negb (bool_decide (empty_game_ttl g = x)))
      | None => (g, false)
      end
  | PMasterClientId =>
      match get_int32 value with
      | Some x =>
          (g <| master_actor := x |>, negb (bool_decide (master_actor g = x)))
      | None => (g, false)
      end
  | PLobbyProperties =>
      match get_strings value with
      | Some x => (g <| lobby_props := x |>, negb (bool_decide (lobby_props g = x)))
      | None => (g, false)
      end
  end.

(** The [case] of the [switch] a byte key selects. *)
Definition prop_of (b : Z) : option GameProp :=
  find_first (λ p, b =? prop_code p) all_props.

(** ** Reading *)

(** [static_cast<uint8_t>(peers.size() + dummy_peer_count)] *)
Definition player_count g : Z := u8 (len (peers g) + dummy_peer_count g).

(** <src/game.cpp:842-861 Game::get_game_prop> *)
Definition get_game_prop g key : Value :=
  let custom := default null (custom_props g !! key) in
  match get_byte key with
  | Some b =>
      match prop_of b with
      | Some p => prop_read p g
      | None => if b =? PlayerCount then of_byte (player_count g) else custom
      end
  | None => custom
  end.

(** <src/game.cpp:863-877 Game::get_lobby_game_props>
    [emplace] keeps an entry that is already there. *)
Definition get_lobby_game_props g : Hashtable :=
  foldl (λ fres name,
           match custom_props g !! of_string name, fres !! of_string name with
           | Some v, None => <[of_string name := v]> fres
           | _, _ => fres
           end)
    (<[of_byte MaxPlayers := of_byte (max_peers g)]>
       (<[of_byte IsOpen := of_bool (is_open g)]>
          (<[of_byte PlayerCount := of_byte (player_count g)]> ∅)))
    (lobby_props g).

(** <src/game.cpp:879-890 Game::get_game_props> *)
Definition get_game_props g (no_custom : bool) : Hashtable :=
  <[of_byte PlayerCount := of_byte (player_count g)]>
    (foldl (λ fres p, <[of_byte (prop_code p) := prop_read p g]> fres)
       (if no_custom then ∅ else custom_props g) all_props).

(** <src/game.cpp:892-900 Game::get_actor_props> *)
Definition get_actor_props g : Hashtable :=
  foldl (λ fres gp, <[of_int32 (actor_id gp) := of_table (actor_props gp)]> fres)
    ∅ (peers g).

(** <src/game.cpp:902-909 Game::get_actor_props_for> *)
Definition get_actor_props_for g (a : Z) : Hashtable :=
  match find_actor g a with Some gp => actor_props gp | None => ∅ end.

(** ** Identification and notification *)

(** <src/lobby.cpp:162-166 Lobby::add_lobby_info> with <src/apps.cpp:94-97> *)
Definition add_lobby_info (info : LobbyInfo) (params : ParameterList) :
    ParameterList :=
  <[KeyAppVersion := of_string (app_version (li_app info))]>
    (<[KeyApplicationId := of_string (app_id (li_app info))]>
       (<[KeyLobbyType := of_byte (li_type info)]>
          (<[KeyLobbyName := of_string (li_name info)]> params))).

(** <src/game.cpp:305-309 Game::add_game_info>
    [info] identifies the lobby the game points to. *)
Definition add_game_info (info : LobbyInfo) g (params : ParameterList) :
    ParameterList :=
  add_lobby_info info
    (<[KeyAddress := of_string (server_address g)]>
       (<[KeyGameId := of_string (id g)]> params)).

(** <src/game.cpp:311-316 Game::get_game_info> *)
Definition get_game_info (info : LobbyInfo) g : GameInfo :=
  mkGameInfo info (id g) (server_address g).

(** <src/game.cpp:318-329 Game::matches_game_info> *)
Definition matches_game_info (lobby : LobbyInfo) g (info : GameInfo) : bool :=
  bool_decide (gi_id info = id g)
  && bool_decide (app_id (li_app (gi_lobby info)) = app_id (li_app lobby))
  && bool_decide (app_version (li_app (gi_lobby info)) = app_version (li_app lobby)).

(** <src/game.cpp:803-829 Game::trigger_lobby_update> *)
Definition game_update_message (info : LobbyInfo) g : EventMessage :=
  let ps := add_game_info info g ∅ in
  let ps := <[KeyBroadcast := of_bool (is_created g)]> ps in
  let ps := <[IpcRevision := of_int64 (s64 (state_revision_ g))]> ps in
  let ps := <[IpcIsCreating := of_bool (is_creating g)]> ps in
  let ps := <[IpcExpectedUsers := of_strings (elements (expected_users g))]> ps in
  let ps := <[IpcIsVisible := of_bool (is_visible g)]> ps in
  let ps := <[KeyGameProperties := of_table (get_lobby_game_props g)]> ps in
  mkMessage IpcGameUpdate
    (if empty_str (server_address g) then ps
     else <[KeyAddress := of_string (server_address g)]> ps).

(** <src/game.cpp:791-831 Game::trigger_lobby_update> *)
Definition trigger_lobby_update (info : LobbyInfo) g : list Effect :=
  [LobbyGameUpdate; IpcBroadcast (game_update_message info g)].

(** ** Updating *)

(** <src/game.cpp:920-959 Game::insert_game_props>
    One iteration; the state is the game with the flags [update_lobby] and
    [changed]. *)
Definition insert_one (settings : AppSettings) (st : Game * bool * bool)
    (kv : Value * Value) : Game * bool * bool :=
  let '(g, update_lobby, changed) := st in
  let '(key, value) := kv in
  match get_byte key with
  | Some b =>
      match prop_of b with
      | None => st
      | Some p =>
          if bool_decide (p = PMasterClientId)
             && negb (allow_change_master settings) then st
          else
            let '(g, value_changed) := prop_store p value g in
            (g, update_lobby || (value_changed && updates_lobby p),
             changed || value_changed)
      end
  | None =>
      if negb (is_null key) then
        if decide (custom_props g !! key = Some value) then st
        else (g <| custom_props ::= <[key := value]> |>, update_lobby, true)
      else if has_flag (flags g) DeleteNullProps then
        match custom_props g !! key with
        | Some _ => (g <| custom_props ::= delete key |>, update_lobby, true)
        | None => st
        end
      else st
  end.

(** <src/game.cpp:911-978 Game::insert_game_props>
    [entries] is the update in the iteration order of the hash table. *)
Definition insert_game_props_in (settings : AppSettings) (info : LobbyInfo) g
    (entries : list (Value * Value)) : Game * list Effect :=
  let was_visible := is_visible g in
  let '(g, update_lobby, changed) :=
    foldl (insert_one settings) (g, false, false) entries in
  let g := if changed then bump_revision g else g in
  let visibility_changed := negb (Bool.eqb was_visible (is_visible g)) in
  (g,
   (if visibility_changed && was_visible then [LobbyGameDelete] else [])
   ++ (if update_lobby || visibility_changed
       then trigger_lobby_update info g else [])).

(** <src/game.cpp:911-978 Game::insert_game_props> *)
Definition insert_game_props (settings : AppSettings) (info : LobbyInfo) g
    (update : Hashtable) : Game * list Effect :=
  insert_game_props_in settings info g (map_to_list update).

(** [value.is_equal<type>(var)] *)
Definition prop_is p value g : bool :=
  match p with
  | PMaxPlayers => bool_decide (get_byte value = Some (max_peers g))
  | PIsVisible => bool_decide (get_bool value = Some (is_visible g))
  | PIsOpen => bool_decide (get_bool value = Some (is_open g))
  | PPlayerTTL => bool_decide (get_int32 value = Some (player_ttl g))
  | PEmptyGameTTL => bool_decide (get_int32 value = Some (empty_game_ttl g))
  | PMasterClientId => bool_decide (get_int32 value = Some (master_actor g))
  | PLobbyProperties => bool_decide (get_strings value = Some (lobby_props g))
  end.

(** <src/game.cpp:993-1007 Game::expect_game_props> *)
Definition expect_custom g (kv : Value * Value) : bool :=
  let '(key, value) := kv in
  if existsb (λ p, bool_decide (key = of_byte (prop_code p))) all_props then true
  else match custom_props g !! key with
       | None => is_null value && has_flag (flags g) DeleteNullProps
       | Some v => bool_decide (v = value)
       end.

(** <src/game.cpp:980-1010 Game::expect_game_props> *)
Definition expect_game_props g (expected : Hashtable) : bool :=
  forallb (λ p, match expected !! of_byte (prop_code p) with
                | Some value => prop_is p value g
                | None => true
                end) all_props
  && forallb (expect_custom g) (map_to_list expected).

(** <src/game.cpp:1012-1019 Game::apply_game_props> *)
Definition apply_game_props (settings : AppSettings) (info : LobbyInfo) g
    (update : Hashtable) (expected : option Hashtable) :
    Game * bool * list Effect :=
  if match expected with Some e => negb (expect_game_props g e) | None => false end
  then (g, false, [])
  else let '(g, eff) := insert_game_props settings info g update in (g, true, eff).

(** <src/game.cpp:1040-1046 Game::insert_actor_props> *)
Definition insert_actor_one (delete_null : bool) (props : Hashtable)
    (kv : Value * Value) : Hashtable :=
  if negb (is_null kv.1) then <[kv.1 := kv.2]> props
  else if delete_null then delete kv.1 props else props.

(** <src/game.cpp:1029-1049 Game::insert_actor_props>
    The node [find_peer(actor_id)] points to is updated in place. *)
Definition insert_actor_props g (a : Z) (update : Hashtable) : Game * bool :=
  match find_actor g a with
  | None => (g, false)
  | Some _ =>
      let delete_null := has_flag (flags g) DeleteNullProps in
      (g <| peers ::= update_first (λ gp, active gp && (actor_id gp =? a))
              (λ gp, gp <| actor_props ::= λ props,
                 foldl (insert_actor_one delete_null) props (map_to_list update) |>) |>,
       true)
  end.

(** <src/game.cpp:1060-1062 Game::expect_actor_props>
    [actor_props.at(key)] throws for an absent key: the result is [None]. *)
Fixpoint expect_actor_all (delete_null : bool) (props : Hashtable)
    (l : list (Value * Value)) : option bool :=
  match l with
  | [] => Some true
  | (key, value) :: l =>
      match props !! key with
      | None =>
          if negb (is_null value) || negb delete_null then Some false else None
      | Some v =>
          if bool_decide (v = value) then expect_actor_all delete_null props l
          else Some false
      end
  end.

(** <src/game.cpp:1051-1065 Game::expect_actor_props> *)
Definition expect_actor_props g (a : Z) (expected : Hashtable) : option bool :=
  match find_actor g a with
  | None => Some false
  | Some gp =>
      expect_actor_all (has_flag (flags g) DeleteNullProps) (actor_props gp)
        (map_to_list expected)
  end.

(** <src/game.cpp:1021-1027 Game::apply_actor_props>
    [None] when the expectation throws; the game is then unchanged. *)
Definition apply_actor_props g (a : Z) (update : Hashtable)
    (expected : option Hashtable) : option (Game * bool) :=
  match expected with
  | None => Some (insert_actor_props g a update)
  | Some e =>
      ok ← expect_actor_props g a e;
      Some (if ok : bool then insert_actor_props g a update else (g, false))
  end.
End ops.

(** ** One update entry *)

Section update.
Context `{SerLaws, CodesLaws}.
Implicit Types (g : Game) (p : GameProp) (key value : Value).

Lemma prop_code_inj p q : prop_code p = prop_code q → p = q.
Proof.
  pose proof game_prop_keys_nodup as Hn. unfold game_prop_keys in Hn.
  repeat setoid_rewrite NoDup_cons in Hn.
  repeat setoid_rewrite not_elem_of_cons in Hn.
  destruct p, q; cbn; intros; done || (exfalso; intuition congruence).
Qed.

Lemma prop_of_code p : prop_of (prop_code p) = Some p.
Proof.
  unfold prop_of. apply find_first_unique.
  - by destruct p; repeat (left || right).
  - apply Z.eqb_refl.
  - intros q _ Hq%Z.eqb_eq. by apply prop_code_inj.
Qed.

Lemma prop_of_Some b p : prop_of b = Some p → b = prop_code p.
Proof. intros [_ Hb]%find_first_Some. by apply Z.eqb_eq. Qed.

(** The value holds the type of the property's variable. *)
Definition typed p value : bool :=
  match p with
  | PMaxPlayers => bool_decide (is_Some (get_byte value))
  | PIsVisible | PIsOpen => bool_decide (is_Some (get_bool value))
  | PPlayerTTL | PEmptyGameTTL | PMasterClientId =>
      bool_decide (is_Some (get_int32 value))
  | PLobbyProperties => bool_decide (is_Some (get_strings value))
  end.

(** What is stored under a key: a built-in variable or a custom entry. *)
Definition cell g key : option Value :=
  match get_byte key with
  | Some b => p ← prop_of b; Some (prop_read p g)
  | None => custom_props g !! key
  end.

(** The content of the cell [key], previously [old], after an update with
    [value]. *)
Definition written (settings : AppSettings) (fl : Z) (old : option Value)
    key value : option Value :=
  match get_byte key with
  | Some b =>
      match prop_of b with
      | None => old
      | Some p =>
          if bool_decide (p = PMasterClientId)
             && negb (allow_change_master settings) then old
          else if typed p value then Some value else old
      end
  | None =>
      if negb (is_null key) then Some value
      else if has_flag fl DeleteNullProps then None else old
  end.

Lemma written_idemp s fl old key value :
  written s fl (written s fl old key value) key value =
  written s fl old key value.
Proof.
  unfold written. destruct (get_byte key) as [b|].
  - destruct (prop_of b) as [p|]; [|done].
    destruct (_ && _); [done|]. by destruct (typed p value).
  - destruct (negb _); [done|]. by destruct (has_flag _ _).
Qed.

(** The fields no property update touches. *)
Definition non_props g : Game :=
  g <| max_peers := 0 |> <| is_visible := false |> <| is_open := false |>
    <| player_ttl := 0 |> <| empty_game_ttl := 0 |> <| master_actor := 0 |>
    <| lobby_props := [] |> <| custom_props := ∅ |> <| state_revision_ := 0 |>.

Lemma prop_store_spec p value g g' c :
  prop_store p value g = (g', c) →
  non_props g' = non_props g ∧ custom_props g' = custom_props g ∧
  state_revision_ g' = state_revision_ g ∧
  prop_read p g' = (if typed p value then value else prop_read p g) ∧
  (∀ q, q ≠ p → prop_read q g' = prop_read q g) ∧
  c = negb (bool_decide (prop_read p g' = prop_read p g)) ∧
  (c = false → g' = g).
Proof.
  intros E. unfold prop_store in E.
  destruct p; cbn [prop_read typed];
    match type of E with
    | match ?get value with _ => _ end = _ =>
        destruct (get value) as [x|] eqn:Hx; [apply acc_inv in Hx as ->|]
    end; injection E as <- <-.
  all: (split; [reflexivity|]); (split; [reflexivity|]); (split; [reflexivity|]).
  all: cbn; (split; [done|]); (split; [by intros []|]); split; [|try done].
  all: try by rewrite bool_decide_eq_true_2.
  all: try by (f_equal; apply bool_decide_ext; split; [by intros ->|];
               intros E; symmetry; exact (acc_inj _ _ _ _ E)).
  all: intros E; bools; subst x; by destruct g.
Qed.

(** The two flags and the game after one entry, from a clean start. *)
Definition entry s g kv := insert_one s (g, false, false) kv.
Definition changes s g kv : bool := (entry s g kv).2.

Lemma insert_one_flags s g ul ch kv :
  insert_one s (g, ul, ch) kv =
  ((entry s g kv).1.1, ul || (entry s g kv).1.2, ch || changes s g kv).
Proof.
  unfold changes, entry, insert_one. destruct kv as [key value].
  destruct (get_byte key) as [b|].
  - destruct (prop_of b) as [p|]; [|by rewrite !orb_false_r].
    destruct (_ && _); [by rewrite !orb_false_r|].
    by destruct (prop_store p value g) as [g' c].
  - destruct (negb _).
    + destruct (decide _); cbn; by rewrite ?orb_false_r, ?orb_true_r.
    + destruct (has_flag _ _); [|by cbn; rewrite !orb_false_r].
      destruct (_ !! key); cbn; by rewrite ?orb_false_r, ?orb_true_r.
Qed.

Lemma cell_non_byte g key : get_byte key = None → cell g key = custom_props g !! key.
Proof. unfold cell. by intros ->. Qed.

(** One entry writes its own cell and no other, and reports a change
    exactly when the cell's content differs. *)
Lemma entry_spec s g key value :
  let g' := (entry s g (key, value)).1.1 in
  non_props g' = non_props g ∧ state_revision_ g' = state_revision_ g ∧
  cell g' key = written s (flags g) (cell g key) key value ∧
  (∀ k, k ≠ key → cell g' k = cell g k) ∧
  (changes s g (key, value) = true ↔ cell g' key ≠ cell g key) ∧
  (changes s g (key, value) = false →
     g' = g ∧ (entry s g (key, value)).1.2 = false).
Proof.
  cbn zeta. unfold changes, entry, insert_one.
  destruct (get_byte key) as [b|] eqn:Hk.
  - assert (∀ g, cell g key = p ← prop_of b; Some (prop_read p g)) as Hc.
    { intros g0. unfold cell. by rewrite Hk. }
    unfold written. rewrite Hk, !Hc.
    destruct (prop_of b) as [p|] eqn:Hp; cbn [mbind option_bind fst snd].
    2: { repeat split; done. }
    destruct (_ && _); cbn [fst snd]; [repeat split; done|].
    destruct (prop_store p value g) as [g' c] eqn:Hs. cbn [fst snd].
    destruct (prop_store_spec _ _ _ _ _ Hs) as (Hn & Hcu & Hr & Hrd & Ho & Hch & Hid).
    rewrite ?Hc. cbn [mbind option_bind].
    split; [done|]. split; [done|]. split; [by rewrite Hrd; destruct (typed p value)|].
    split.
    { intros k Hne. unfold cell. destruct (get_byte k) as [b'|] eqn:Hk'; [|by rewrite Hcu].
      destruct (prop_of b') as [q|] eqn:Hq; [|done]. cbn. f_equal. apply Ho.
      intros ->. apply prop_of_Some in Hq, Hp. apply acc_inv in Hk, Hk'. congruence. }
    rewrite !orb_false_l. split; [|intros E; split; [by apply Hid|by rewrite E]].
    rewrite Hch, negb_true_iff, bool_decide_eq_false. split; intros Hne E; congruence.
  - assert (∀ g, cell g key = custom_props g !! key) as Hc.
    { intros g0. by apply cell_non_byte. }
    assert (∀ g' k, (∀ p, prop_read p g' = prop_read p g) → k ≠ key →
              (custom_props g' !! k = custom_props g !! k) → cell g' k = cell g k) as Hoth.
    { intros g' k Hp Hne Hk'. unfold cell.
      destruct (get_byte k); [|done]. destruct (prop_of z); [|done]. cbn. by rewrite Hp. }
    unfold written. rewrite Hk, !Hc.
    destruct (negb (is_null key)) eqn:Hnull; cbn [fst snd].
    + destruct (decide (custom_props g !! key = Some value)) as [E|E]; cbn [fst snd].
      { rewrite ?Hc. repeat split; done. }
      rewrite ?Hc. upd. rewrite lookup_insert_eq. repeat split; try done; [|congruence..].
      intros k Hne. apply Hoth; [by intros []|done|]. upd. by rewrite lookup_insert_ne.
    + destruct (has_flag (flags g) DeleteNullProps); cbn [fst snd]; rewrite ?Hc.
      2: { repeat split; done. }
      destruct (custom_props g !! key) as [v|] eqn:E; cbn [fst snd]; rewrite ?Hc.
      2: { repeat split; done. }
      upd. rewrite lookup_delete_eq. repeat split; try done.
      intros k Hne. apply Hoth; [by intros []|done|]. upd. by rewrite lookup_delete_ne.
Qed.

(** The keys whose change is published in the lobby. *)
Definition lobby_key key : bool :=
  match get_byte key with
  | Some b => match prop_of b with Some p => updates_lobby p | None => false end
  | None => false
  end.

Lemma entry_lobby s g key value :
  (entry s g (key, value)).1.2 = changes s g (key, value) && lobby_key key.
Proof.
  unfold changes, entry, insert_one, lobby_key.
  destruct (get_byte key) as [b|].
  - destruct (prop_of b) as [p|]; [|done]. destruct (_ && _); [done|].
    by destruct (prop_store p value g).
  - destruct (negb _); [by destruct (decide _)|].
    destruct (has_flag _ _); [by destruct (_ !! key)|done].
Qed.

Lemma flags_non_props g g' : non_props g' = non_props g → flags g' = flags g.
Proof. by intros E%(f_equal flags). Qed.

(** The whole loop, in any order of the entries. *)
Lemma insert_loop_spec s l g ul ch :
  NoDup l.*1 →
  let r := foldl (insert_one s) (g, ul, ch) l in
  non_props r.1.1 = non_props g ∧
  state_revision_ r.1.1 = state_revision_ g ∧
  (∀ key, cell r.1.1 key =
     match (list_to_map l : Hashtable) !! key with
     | Some value => written s (flags g) (cell g key) key value
     | None => cell g key
     end) ∧
  (r.1.2 = true ↔
     ul = true ∨ ∃ key, lobby_key key = true ∧ cell r.1.1 key ≠ cell g key) ∧
  (r.2 = true ↔ ch = true ∨ ∃ key, cell r.1.1 key ≠ cell g key) ∧
  (r.2 = false → r.1.1 = g).
Proof.
  cbn zeta. revert g ul ch. induction l as [|[k v] l IH]; intros g ul ch Hnd; cbn [foldl].
  { split; [done|]. split; [done|]. split; [done|].
    split; [|split; [|done]]; (split; [by left|]); intros [?|Hx]; [done| |done|];
      [by destruct Hx as (? & _ & ?)|by destruct Hx as (? & ?)]. }
  apply NoDup_cons in Hnd as [Hk Hnd].
  rewrite insert_one_flags, entry_lobby.
  destruct (entry_spec s g k v) as (Hn & Hr & Hck & Hco & Hch & Hid).
  set (g1 := (entry s g (k, v)).1.1) in *.
  destruct (IH g1 (ul || changes s g (k, v) && lobby_key k) (ch || changes s g (k, v)) Hnd)
    as (Hn' & Hr' & Hc' & Hl' & Hch' & Hid'). clear IH.
  set (r := foldl _ _ l) in *.
  rewrite (flags_non_props _ _ Hn) in Hc'.
  assert ((list_to_map l : Hashtable) !! k = None) as Hkl by by apply not_elem_of_list_to_map_1.
  assert (cell r.1.1 k = cell g1 k) as Hrk by by rewrite Hc', Hkl.
  split; [congruence|]. split; [congruence|]. split.
  { intros key. destruct (decide (key = k)) as [->|Hne].
    - cbn. by rewrite lookup_insert_eq, Hrk.
    - cbn. by rewrite lookup_insert_ne, Hc', Hco by done. }
  split; [|split].
  - rewrite Hl', orb_true_iff, andb_true_iff, Hch. split.
    + intros [[?|[??]]|(key & Hlk & Hd)]; [by left|right|right].
      * exists k. by rewrite Hrk.
      * destruct (decide (key = k)) as [->|Hne]; [done|].
        exists key. by rewrite <-Hco.
    + intros [?|(key & Hlk & Hd)]; [by left; left|].
      destruct (decide (key = k)) as [->|Hne].
      * left. right. by rewrite <-Hrk.
      * right. exists key. by rewrite Hco.
  - rewrite Hch', orb_true_iff, Hch. split.
    + intros [[?|?]|(key & Hd)]; [by left|right|right].
      * exists k. by rewrite Hrk.
      * destruct (decide (key = k)) as [->|Hne]; [done|].
        exists key. by rewrite <-Hco.
    + intros [?|(key & Hd)]; [by left; left|].
      destruct (decide (key = k)) as [->|Hne].
      * left. right. by rewrite <-Hrk.
      * right. exists key. by rewrite Hco.
  - intros Hf. rewrite (Hid' Hf).
    destruct (changes s g (k, v)) eqn:E; [|by apply Hid].
    assert (r.2 = true) by (apply Hch'; left; apply orb_true_r). congruence.
Qed.

Lemma cell_bump g key : cell (bump_revision g) key = cell g key.
Proof.
  unfold cell. destruct (get_byte key); [|done].
  destruct (prop_of _) as [p|]; [|done]. by destruct p.
Qed.

Lemma cell_prop g p : cell g (of_byte (prop_code p)) = Some (prop_read p g).
Proof. unfold cell. by rewrite acc_get, prop_of_code. Qed.

(** An update whose cells already hold what it writes is ignored. *)
Lemma insert_unchanged s info g l :
  NoDup l.*1 →
  (∀ key value, (key, value) ∈ l →
     written s (flags g) (cell g key) key value = cell g key) →
  insert_game_props_in s info g l = (g, []).
Proof.
  intros Hnd Hw. destruct (insert_loop_spec s l g false false Hnd)
    as (_ & _ & Hc & Hl & Hch & Hid).
  unfold insert_game_props_in. destruct (foldl _ _ l) as [[g' ul] ch].
  cbn [fst snd] in *.
  assert (∀ key, cell g' key = cell g key) as Hsame.
  { intros key. rewrite Hc. destruct (_ !! key) as [v|] eqn:E; [|done].
    apply Hw. by apply elem_of_list_to_map in E. }
  assert (ch = false) as ->.
  { apply not_true_iff_false. intros Hx%Hch. destruct Hx as [|(key & Hd)]; [done|].
    by apply Hd. }
  assert (ul = false) as ->.
  { apply not_true_iff_false. intros Hx%Hl. destruct Hx as [|(key & _ & Hd)]; [done|].
    by apply Hd. }
  rewrite (Hid eq_refl). by rewrite eqb_reflx.
Qed.

Lemma perm_nodup (update : Hashtable) l :
  l ≡ₚ map_to_list update → NoDup l.*1 ∧ list_to_map l = update.
Proof.
  intros Hl. assert (NoDup l.*1) by (rewrite Hl; apply NoDup_fst_map_to_list).
  split; [done|]. rewrite <-(list_to_map_to_list update).
  by apply list_to_map_proper.
Qed.
End update.

(** ** Properties *)

Section props.
Context `{SerLaws, CodesLaws}.

Lemma insert_props_cells (s : AppSettings) (info : LobbyInfo) (g : Game)
    (update : Hashtable) (l : list (Value * Value)) :
  l ≡ₚ map_to_list update →
  let g' := (insert_game_props_in s info g l).1 in
  (∀ key, cell g' key =
     match update !! key with
     | Some value => written s (flags g) (cell g key) key value
     | None => cell g key
     end) ∧
  non_props g' = non_props g ∧
  ((state_revision_ g' = state_revision_ g ∧ g' = g) ∨
   (state_revision_ g' = u64 (state_revision_ g + 1) ∧
    ∃ key, cell g' key ≠ cell g key)).
Proof.
  intros [Hnd Hm]%perm_nodup. cbn zeta.
  destruct (insert_loop_spec s l g false false Hnd) as (Hn & Hr & Hc & _ & Hch & Hid).
  rewrite Hm in Hc. unfold insert_game_props_in.
  destruct (foldl _ _ l) as [[g' ul] ch]. cbn [fst snd] in *.
  destruct ch; cbn [fst].
  - split; [intros key; by rewrite cell_bump|]. split; [done|]. right.
    split; [by unfold bump_revision; upd; rewrite Hr|].
    destruct (proj1 Hch eq_refl) as [?|(key & ?)]; [done|].
    exists key. by rewrite cell_bump.
  - split; [done|]. split; [done|]. left. by rewrite Hid.
Qed.

(** C5: An update of the game properties, visited in any order of its hash
    table, writes exactly the cells of its keys (a built-in property only
    when the value has its type and, for the master client, the
    application allows it), touches no other state of the game, and bumps
    the revision by one exactly when some cell really changed. *)
Theorem insert_game_props_spec (s : AppSettings) (info : LobbyInfo) (g : Game)
    (update : Hashtable) (l : list (Value * Value)) :
  l ≡ₚ map_to_list update →
  let g' := (insert_game_props_in s info g l).1 in
  (∀ key, cell g' key =
     match update !! key with
     | Some value => written s (flags g) (cell g key) key value
     | None => cell g key
     end) ∧
  non_props g' = non_props g ∧
  ((state_revision_ g' = state_revision_ g ∧ g' = g) ∨
   (state_revision_ g' = u64 (state_revision_ g + 1) ∧
    ∃ key, cell g' key ≠ cell g key)).
Proof. apply insert_props_cells. Qed.

(** Applying the same property update again, as an echo from another
    process does, leaves the game as it is: no revision bump and nothing
    to announce to the lobby or to the other processes. *)
Theorem insert_game_props_echo (s : AppSettings) (info : LobbyInfo) (g : Game)
    (update : Hashtable) :
  let g' := (insert_game_props s info g update).1 in
  insert_game_props s info g' update = (g', []).
Proof.
  cbn zeta. unfold insert_game_props. apply insert_unchanged.
  { apply NoDup_fst_map_to_list. }
  intros key value Hin%elem_of_map_to_list.
  destruct (perm_nodup update (map_to_list update)) as [Hnd Hm]; [done|].
  destruct (insert_loop_spec s _ g false false Hnd) as (Hn & _ & Hc & _).
  rewrite Hm in Hc. unfold insert_game_props_in.
  destruct (foldl _ _ _) as [[g' ul] ch]. cbn [fst snd] in *.
  assert (flags g' = flags g) as Hfl by by apply flags_non_props.
  assert (∀ k, cell (if ch then bump_revision g' else g') k = cell g' k) as Hb.
  { intros k. destruct ch; [apply cell_bump|done]. }
  assert (flags (if ch then bump_revision g' else g') = flags g) as Hfl'
    by by destruct ch.
  rewrite Hfl', Hb, Hc, Hin. apply written_idemp.
Qed.

(** The lobby and the other processes are told about a property update
    exactly when the visibility changed or some property shown in the lobby
    did; a room that disappears is first removed from the room lists. *)
Theorem insert_game_props_notifies (s : AppSettings) (info : LobbyInfo)
    (g : Game) (update : Hashtable) :
  let r := insert_game_props s info g update in
  (LobbyGameUpdate ∈ r.2 ↔
     ∃ p, (updates_lobby p = true ∨ p = PIsVisible) ∧
          prop_read p r.1 ≠ prop_read p g) ∧
  (LobbyGameDelete ∈ r.2 ↔ is_visible g = true ∧ is_visible r.1 = false).
Proof.
  cbn zeta. unfold insert_game_props.
  destruct (perm_nodup update (map_to_list update)) as [Hnd _]; [done|].
  destruct (insert_loop_spec s _ g false false Hnd) as (_ & _ & _ & Hl & _).
  unfold insert_game_props_in. destruct (foldl _ _ _) as [[g' ul] ch].
  cbn [fst snd] in *.
  assert (∀ p, prop_read p (if ch then bump_revision g' else g') = prop_read p g') as Hp
    by by destruct ch, p.
  assert (is_visible (if ch then bump_revision g' else g') = is_visible g') as Hv
    by by destruct ch.
  set (g2 := if ch then _ else _) in *. rewrite Hv.
  assert (prop_read PIsVisible g' ≠ prop_read PIsVisible g ↔
          is_visible g ≠ is_visible g') as Hvis.
  { cbn. split; intros Hne E; apply Hne; [congruence|]. symmetry.
    exact (acc_inj _ _ _ _ E). }
  assert (ul = true ↔ ∃ p, updates_lobby p = true ∧ prop_read p g' ≠ prop_read p g) as Hul.
  { rewrite Hl. split.
    - intros [?|(key & Hk & Hd)]; [done|]. unfold lobby_key, cell in Hk, Hd.
      destruct (get_byte key) as [b|]; [|done].
      destruct (prop_of b) as [p|]; [|done]. exists p. split; [done|].
      intros E. apply Hd. cbn. by rewrite E.
    - intros (p & Hu & Hd). right. exists (of_byte (prop_code p)).
      unfold lobby_key. rewrite acc_get, prop_of_code, !cell_prop. split; [done|].
      congruence. }
  assert (∀ b : bool, LobbyGameUpdate ∈ (if b then [LobbyGameDelete] else []) ↔ False) as Hd1.
  { intros []; in_list; intuition discriminate. }
  assert (∀ b : bool, LobbyGameDelete ∈ (if b then trigger_lobby_update info g2 else []) ↔ False) as Hd2.
  { intros []; unfold trigger_lobby_update; in_list; intuition discriminate. }
  rewrite !elem_of_app, Hd1, Hd2. setoid_rewrite Hp. split.
  - transitivity (ul = true ∨ is_visible g ≠ is_visible g').
    + destruct ul; cbn [orb].
      { split; [by left|]. intros _. right. unfold trigger_lobby_update. left. }
      destruct (is_visible g), (is_visible g'); cbn;
        (split; [intros [[]|Hx]; first [by apply elem_of_nil in Hx|by right]
                |intros [?|Hx]; first [done|right; left]]).
    + rewrite Hul, <-Hvis. split.
      * intros [(p & ? & ?)|?]; [exists p; auto|exists PIsVisible; auto].
      * intros (p & [?| ->] & ?); [left; eauto|by right].
  - destruct (is_visible g), (is_visible g'); cbn;
      in_list; intuition discriminate.
Qed.

(** What an expected entry demands of the current state. *)
Definition entry_expected (g : Game) (key value : Value) : Prop :=
  match find_first (λ p, bool_decide (key = of_byte (prop_code p))) all_props with
  | Some p => value = prop_read p g
  | None =>
      custom_props g !! key = Some value ∨
      (custom_props g !! key = None ∧ value = null ∧
       has_flag (flags g) DeleteNullProps = true)
  end.

Lemma prop_is_spec p value g : prop_is p value g = true ↔ value = prop_read p g.
Proof.
  destruct p; cbn; rewrite bool_decide_eq_true;
    (split; [intros E; exact (acc_inv _ _ E)|intros ->; apply acc_get]).
Qed.

Lemma expect_game_props_spec g expected :
  expect_game_props g expected = true ↔
  ∀ key value, expected !! key = Some value → entry_expected g key value.
Proof.
  unfold expect_game_props. rewrite andb_true_iff, !forallb_forall.
  setoid_rewrite <-list_elem_of_In. unfold entry_expected. split.
  - intros [Hb Hc] key value Hk.
    destruct (find_first _ _) as [p|] eqn:Hf.
    + apply find_first_Some in Hf as [Hin Hp]. bools. subst key.
      specialize (Hb p Hin). rewrite Hk in Hb. by apply prop_is_spec.
    + specialize (Hc (key, value)). rewrite elem_of_map_to_list in Hc.
      specialize (Hc Hk). unfold expect_custom in Hc.
      rewrite find_first_None in Hf.
      destruct (existsb _ _) eqn:He.
      { apply existsb_exists in He as (p & Hp%list_elem_of_In & E).
        by rewrite (Hf p Hp) in E. }
      destruct (_ !! key) as [v|].
      * left. bools. congruence.
      * right. bools. split; [done|]. split; [by apply is_null_spec|done].
  - intros Hall. split.
    + intros p Hp. destruct (expected !! _) as [value|] eqn:Hk; [|done].
      specialize (Hall _ _ Hk). apply prop_is_spec.
      erewrite (find_first_unique _ _ p) in Hall; [done|done|by apply bool_decide_eq_true|].
      intros q _ Hq. bools. apply prop_code_inj. symmetry. exact (acc_inj _ _ _ _ Hq).
    + intros [key value] Hk%elem_of_map_to_list. specialize (Hall _ _ Hk).
      unfold expect_custom. destruct (existsb _ _) eqn:He; [done|].
      rewrite (proj2 (find_first_None _ all_props)) in Hall.
      2: { intros p Hp. apply not_true_iff_false. intros E.
           apply not_true_iff_false in He. apply He, existsb_exists.
           exists p. by rewrite <-list_elem_of_In. }
      destruct Hall as [->|(-> & -> & Hf)]; [by apply bool_decide_eq_true|].
      by rewrite is_null_null, Hf.
Qed.

(** A conditional update of the game properties succeeds exactly when
    every expected entry holds in the current state; it then performs the
    unconditional update, and otherwise changes nothing and announces
    nothing. *)
Theorem apply_game_props_cas (s : AppSettings) (info : LobbyInfo) (g : Game)
    (update expected : Hashtable) :
  let r := apply_game_props s info g update (Some expected) in
  (r.1.2 = true ↔
     ∀ key value, expected !! key = Some value → entry_expected g key value) ∧
  (r.1.2 = true → (r.1.1, r.2) = insert_game_props s info g update) ∧
  (r.1.2 = false → r = (g, false, [])).
Proof.
  cbn zeta. rewrite <-expect_game_props_spec. unfold apply_game_props.
  destruct (expect_game_props g expected); cbn [negb]; [|done].
  by destruct (insert_game_props s info g update).
Qed.

(** The properties of an actor after the update. *)
Definition merged_actor_props (delete_null : bool) (props update : Hashtable) :
    Hashtable :=
  let new := filter (λ kv, kv.1 ≠ null) update ∪ props in
  if delete_null && bool_decide (is_Some (update !! null))
  then delete null new else new.

Lemma insert_actor_one_null d props v :
  insert_actor_one d props (null, v) = if d then delete null props else props.
Proof. unfold insert_actor_one. cbn [fst snd]. by rewrite is_null_null. Qed.
Lemma insert_actor_one_other d props k v :
  k ≠ null → insert_actor_one d props (k, v) = <[k := v]> props.
Proof.
  intros Hk. unfold insert_actor_one. cbn [fst snd].
  destruct (is_null k) eqn:E; [|done]. by apply is_null_spec in E.
Qed.

Lemma insert_actor_fold d l props k :
  NoDup l.*1 →
  foldl (insert_actor_one d) props l !! k =
  match (list_to_map l : Hashtable) !! k with
  | Some v => if decide (k = null) then if d then None else props !! k else Some v
  | None => props !! k
  end.
Proof.
  revert props. induction l as [|[k' v'] l IH]; intros props Hnd; [done|].
  apply NoDup_cons in Hnd as [Hk' Hnd]. cbn [foldl]. rewrite IH by done. cbn.
  assert ((list_to_map l : Hashtable) !! k' = None) as Hl
    by by apply not_elem_of_list_to_map_1.
  destruct (decide (k = k')) as [->|Hne].
  - rewrite Hl, lookup_insert_eq. destruct (decide (k' = null)) as [->|Hn].
    + rewrite insert_actor_one_null. destruct d; [apply lookup_delete_eq|done].
    + by rewrite insert_actor_one_other, lookup_insert_eq.
  - rewrite lookup_insert_ne by done.
    assert (insert_actor_one d props (k', v') !! k = props !! k) as ->; [|done].
    destruct (decide (k' = null)) as [->|Hn].
    + rewrite insert_actor_one_null. destruct d; [by rewrite lookup_delete_ne|done].
    + by rewrite insert_actor_one_other, lookup_insert_ne.
Qed.

(** Updating the properties of an actor changes that actor's node only:
    its properties become the update merged over the old ones (with a null
    key erasing the null entry when null properties are deleted), every
    other actor keeps its own, and the operation reports whether the actor
    exists. *)
Theorem insert_actor_props_spec (g : Game) (a : Z) (update : Hashtable) :
  let r := insert_actor_props g a update in
  r.2 = bool_decide (is_Some (find_actor g a)) ∧
  (r.2 = false → r.1 = g) ∧
  (∀ b, b ≠ a → find_actor r.1 b = find_actor g b) ∧
  (∀ gp, find_actor g a = Some gp →
     find_actor r.1 a = Some (gp <| actor_props :=
       merged_actor_props (has_flag (flags g) DeleteNullProps)
         (actor_props gp) update |>)).
Proof.
  cbn zeta. unfold insert_actor_props.
  destruct (find_actor g a) as [gp0|] eqn:Hf; cbn [fst snd].
  2: { rewrite bool_decide_eq_false_2 by (by intros [? ?]). done. }
  rewrite bool_decide_eq_true_2 by done. split; [done|]. split; [done|].
  unfold find_actor in *. upd. set (d := has_flag _ _).
  assert (∀ props, foldl (insert_actor_one d) props (map_to_list update) =
                   merged_actor_props d props update) as Hm.
  { intros props. apply map_eq. intros k.
    destruct (perm_nodup update (map_to_list update)) as [Hnd Hl]; [done|].
    rewrite insert_actor_fold, Hl by done. unfold merged_actor_props.
    assert ((filter (λ kv, kv.1 ≠ null) update ∪ props) !! k =
            if decide (k = null) then props !! k
            else match update !! k with Some v => Some v | None => props !! k end) as Hu.
    { rewrite lookup_union, map_lookup_filter. destruct (decide (k = null)) as [->|Hn].
      - destruct (update !! null); cbn; [rewrite option_guard_False by tauto|];
          by destruct (props !! null).
      - destruct (update !! k); cbn; [rewrite option_guard_True by done|];
          by destruct (props !! k). }
    destruct (decide (k = null)) as [->|Hn].
    - destruct (update !! null) as [v|]; cbn.
      + rewrite andb_true_r. destruct d; [by rewrite lookup_delete_eq|done].
      + by rewrite andb_false_r.
    - destruct (d && _); [rewrite lookup_delete_ne by done|]; rewrite Hu;
        by destruct (update !! k). }
  generalize (peers g) Hf. intros l. induction l as [|x l IH]; [done|]. intros Hx.
  cbn [find_first] in Hx. cbn [update_first].
  destruct (active x && (actor_id x =? a)) eqn:Hsel.
  - injection Hx as ->. apply andb_prop in Hsel as [Ha Hid]. apply Z.eqb_eq in Hid.
    subst a. split.
    + intros b Hb. cbn [find_first]. upd.
      assert ((actor_id gp0 =? b) = false) as -> by (apply Z.eqb_neq; congruence).
      by rewrite andb_false_r.
    + intros gp. cbn [find_first]. upd. rewrite Ha, Z.eqb_refl. cbn [andb].
      intros [= <-]. f_equal. unfold set_field; cbn. by rewrite Hm.
  - destruct (IH Hx) as [IH1 IH2]. split.
    + intros b Hb. cbn [find_first]. by rewrite IH1.
    + intros gp. cbn [find_first]. rewrite Hsel. apply IH2.
Qed.

(** Conditioning an actor update on the absence of a property, by
    expecting a null value while null properties are deleted, raises
    [std::out_of_range] instead of comparing: the guard skips the absent
    key and then reads it with [at]. *)
Theorem expect_absent_actor_prop_throws (g : Game) (a : Z) (gp : GamePeer)
    (key : Value) (update : Hashtable) :
  find_actor g a = Some gp → actor_props gp !! key = None →
  has_flag (flags g) DeleteNullProps = true →
  apply_actor_props g a update (Some {[key := null]}) = None.
Proof.
  intros Hf Hk Hfl. unfold apply_actor_props, expect_actor_props.
  rewrite Hf, map_to_list_singleton, Hfl. cbn. by rewrite Hk, is_null_null.
Qed.
End props.
