(* ===== verification/GameEvents.v ===== *)
(** * Events of a game

    Models event serialization with its per-protocol cache, the dispatch of
    an event to its receivers, and the flood of a joining peer, from
    [game.cpp].  The protocols' serializers belong to the Luxon protocol
    library: [Wire] is what the server uses of them. *)

From S2P Require Import Prelude Values Types GameState GameProps.
Open Scope Z_scope.

(** [ser::ProtocolImplID::__length], [enet::EnetDeliveryMode::Reliable] and
    [IProtocol::Serialize(message, false)]; [None] is a serialization error. *)
Class Wire `{Ser} := {
  protocol_count : nat;
  Reliable : Z;
  serialize : nat → EventMessage → option ByteArray;
}.

Section ops.
Context `{Ser, Codes, !Wire}.
Implicit Types (g : Game) (env : PeerEnv) (gp : GamePeer) (ev : Event).

(** <src/game.cpp:53-58 Event::get_cached_data> *)
Definition event_message ev : EventMessage :=
  let ps := <[KeyActorNo := of_int32 (sender_actor_id ev)]> (top_params ev) in
  mkMessage (code ev)
    (if is_null (data ev) then ps else <[KeyData := data ev]> ps).

(** <src/game.cpp:34-70 Event::get_cached_data> *)
Definition get_cached_data (proto : nat) ev : Event * option ByteArray :=
  match cached_data ev !! proto with
  | Some (b :: bs) => (ev, Some (b :: bs))
  | slot =>
      match serialize proto (event_message ev) with
      | None => (ev, None)
      | Some payload =>
          (match slot with
           | Some _ => ev <| cached_data ::= <[proto := payload]> |>
           | None => ev
           end, Some payload)
      end
  end.

(** <src/game.cpp:695-703 Game::broadcast_event>
    Send the event to one node, while its peer is alive. *)
Definition dispatch env (st : Event * list Effect) gp : Event * list Effect :=
  let '(ev, eff) := st in
  match lock env (peer gp) with
  | None => (ev, eff)
  | Some p =>
      match env !! p with
      | None => (ev, eff)
      | Some pr =>
          let '(ev, payload) := get_cached_data (protocol pr) ev in
          match payload with
          | None => (ev, eff)
          | Some bytes =>
              (ev, eff ++ [Send p bytes (channel ev) (delivery_mode ev)])
          end
      end
  end.

(** <src/game.cpp:690-692 Game::broadcast_event> *)
Definition default_receivers ev : Event :=
  match receivers ev with
  | RcvNone => ev <| receivers := RcvGroup RgOthers |>
  | _ => ev
  end.

(** <src/game.cpp:705-732 Game::broadcast_event>
    The nodes the event is dispatched to, in order; a set of actors is
    visited in its iteration order. *)
Definition recipients g ev : list GamePeer :=
  match receivers ev with
  | RcvNone => []
  | RcvGroup grp =>
      if grp =? RgMasterClient then
        match find_actor g (master_actor g) with
        | Some gp => if ig_test (interest_groups gp) (interest_group ev) then [gp] else []
        | None => []
        end
      else
        filter (λ gp,
          ((grp =? RgOthers) && (actor_id gp =? sender_actor_id ev) = false) ∧
          ig_test (interest_groups gp) (interest_group ev) = true) (peers g)
  | RcvActors actors =>
      omap (λ a, gp ← find_actor g a;
                 if ig_test (interest_groups gp) (interest_group ev)
                 then Some gp else None) (elements actors)
  end.

(** <src/game.cpp:684-733 Game::broadcast_event>
    The event comes back with its default receivers and its cache filled. *)
Definition broadcast_event env g ev : Event * list Effect :=
  let ev := default_receivers ev in
  foldl (dispatch env) (ev, []) (recipients g ev).

(** ** Flooding a joining peer *)

(** <src/game.cpp:605-610 Game::flood_peer>
    The system event that carries a property table (also lines 623-628). *)
Definition props_event (to : Z) (props : Hashtable) : Event :=
  {| code := EvPropertiesUpdate; sender_actor_id := 0; delivery_mode := Reliable;
     channel := 0; receivers := RcvActors {[to]}; interest_group := 0;
     data := null;
     top_params := <[KeyProperties := of_table props]>
                     (<[KeyTargetActorNo := of_int32 0]> ∅);
     cached_data := replicate protocol_count [] |}.

(** <src/game.cpp:604-619 Game::flood_peer> (also lines 622-637) *)
Definition flood_props (p : peer_ptr) (proto : nat) (to : Z) (props : Hashtable) :
    list Effect :=
  if decide (props = ∅) then []
  else match (get_cached_data proto (props_event to props)).2 with
       | Some bytes => [Send p bytes 0 Reliable]
       | None => []
       end.

(** <src/game.cpp:641-658 Game::flood_peer>
    One cached event; the copy kept in the room remembers its serialization. *)
Definition flood_event (p : peer_ptr) (proto : nat) (to : Z) ev :
    Event * list Effect :=
  if negb (sender_actor_id ev =? 0) && (sender_actor_id ev =? to) then (ev, [])
  else if code ev =? EvPropertiesUpdate then (ev, [])
  else let '(ev, payload) := get_cached_data proto ev in
       (ev, match payload with
            | Some bytes => [Send p bytes (channel ev) (delivery_mode ev)]
            | None => []
            end).

(** <src/game.cpp:586-664 Game::flood_peer>
    The flooded node is the one [game_peer] points to. *)
Definition flood_peer env g gp : Game * bool * list Effect :=
  if negb (active gp) then (g, false, [])
  else match lock env (peer gp) with
  | None => (g, false, [])
  | Some p =>
      match env !! p with
      | None => (g, false, [])
      | Some pr =>
          let proto := protocol pr in
          let to := actor_id gp in
          let out := flood_event p proto to <$> event_cache g in
          (g <| event_cache := out.*1 |>, true,
           flood_props p proto to (get_game_props g false)
           ++ flood_props p proto to (get_actor_props g)
           ++ mjoin out.*2)
      end
  end.

(** <src/game.cpp:580-584 Game::flood_peer_by_actor> *)
Definition flood_peer_by_actor env g (a : Z) : Game * bool * list Effect :=
  match find_actor g a with
  | Some gp => flood_peer env g gp
  | None => (g, false, [])
  end.

(** ** Construction and filtering *)

(** <src/game.cpp:1067-1075 Game::create_property_update_event> *)
Definition create_property_update_event g (a : Z) (props : Hashtable)
    (target_actor_id : Z) : Event :=
  {| code := EvPropertiesUpdate; sender_actor_id := a; delivery_mode := Reliable;
     channel := 0;
     receivers := RcvGroup (if has_flag (flags g) BroadcastPropsChangeToAll
                            then RgAll else RgOthers);
     interest_group := 0; data := null;
     top_params := <[KeyProperties := of_table props]>
                     (<[KeyTargetActorNo := of_int32 target_actor_id]> ∅);
     cached_data := replicate protocol_count [] |}.

(** <src/game.cpp:1077-1102 Game::matches_filter> *)
Definition matches_filter (event_data : Value) (flt : Hashtable) : bool :=
  if decide (flt = ∅) then true
  else match get_table event_data with
       | None => false
       | Some tbl =>
           forallb (λ kv, match tbl !! kv.1 with
                          | Some v => bool_decide (v = kv.2)
                          | None => false
                          end) (map_to_list flt)
       end.
End ops.

(** ** The serialization cache is unobservable *)

Section cache.
Context `{Ser, Codes, !Wire}.
Implicit Types (g : Game) (env : PeerEnv) (gp : GamePeer) (ev : Event).

(** Every filled slot holds what the serializer would produce now. *)
Definition coherent ev : Prop :=
  ∀ proto b bs, cached_data ev !! proto = Some (b :: bs) →
    serialize proto (event_message ev) = Some (b :: bs).

(** The event up to its cache. *)
Definition same_event ev ev' : Prop :=
  ev <| cached_data := [] |> = ev' <| cached_data := [] |>.

Lemma event_message_same ev ev' :
  same_event ev ev' → event_message ev' = event_message ev.
Proof.
  intros E. change (event_message (ev' <| cached_data := [] |>) =
                    event_message (ev <| cached_data := [] |>)).
  by rewrite E.
Qed.

Lemma same_event_trans e1 e2 e3 :
  same_event e1 e2 → same_event e2 e3 → same_event e1 e3.
Proof. unfold same_event. congruence. Qed.

Lemma fresh_coherent ev :
  cached_data ev = replicate protocol_count [] → coherent ev.
Proof.
  intros E proto b bs Hs. rewrite E in Hs.
  apply lookup_replicate in Hs as [? _]. done.
Qed.

Lemma get_cached_data_spec proto ev :
  coherent ev →
  (get_cached_data proto ev).2 = serialize proto (event_message ev) ∧
  same_event ev (get_cached_data proto ev).1 ∧
  coherent (get_cached_data proto ev).1.
Proof.
  intros Hc. unfold get_cached_data.
  assert (∀ r, match serialize proto (event_message ev) with
    | Some payload => (ev <| cached_data ::= <[proto := payload]> |>, Some payload)
    | None => (ev, None)
    end = r →
    r.2 = serialize proto (event_message ev) ∧ same_event ev r.1 ∧ coherent r.1) as Hmiss.
  { intros r <-. destruct (serialize proto (event_message ev)) as [pl|] eqn:Hs;
      [|done].
    split; [done|]. split; [by destruct ev|]. intros q b bs. cbn [fst]. upd.
    destruct (decide (q = proto)) as [->|Hne].
    - rewrite list_lookup_insert_Some. intros [(_ & -> & _)|[? _]]; [|done].
      exact Hs.
    - rewrite list_lookup_insert_ne by done. apply Hc. }
  destruct (cached_data ev !! proto) as [[|b bs]|] eqn:Hslot.
  - specialize (Hmiss _ eq_refl).
    destruct (serialize proto (event_message ev)); exact Hmiss.
  - cbn. split; [symmetry; by apply Hc|done].
  - destruct (serialize proto (event_message ev)) as [pl|]; done.
Qed.
End cache.

(** ** Properties *)

Section props.
Context `{Ser, Codes, !Wire}.
Implicit Types (g : Game) (env : PeerEnv) (gp : GamePeer) (ev : Event).

(** The packet a node receives for an event: the event serialized for the
    node's protocol, nothing when its peer is gone or serialization fails. *)
Definition delivered env ev gp : option Effect :=
  p ← lock env (peer gp); pr ← env !! p;
  bytes ← serialize (protocol pr) (event_message ev);
  Some (Send p bytes (channel ev) (delivery_mode ev)).

Lemma delivered_same env ev ev' gp :
  same_event ev ev' → delivered env ev' gp = delivered env ev gp.
Proof.
  intros E. unfold delivered. rewrite (event_message_same _ _ E).
  assert (channel ev' = channel ev ∧ delivery_mode ev' = delivery_mode ev) as [-> ->];
    [|done].
  split; [exact (eq_sym (f_equal channel E))|exact (eq_sym (f_equal delivery_mode E))].
Qed.

Lemma dispatch_spec env ev eff gp :
  coherent ev →
  same_event ev (dispatch env (ev, eff) gp).1 ∧
  coherent (dispatch env (ev, eff) gp).1 ∧
  (dispatch env (ev, eff) gp).2 = eff ++ option_list (delivered env ev gp).
Proof.
  intros Hc. unfold dispatch, delivered.
  destruct (lock env (peer gp)) as [p|]; cbn; [|by rewrite app_nil_r].
  destruct (env !! p) as [pr|]; cbn; [|by rewrite app_nil_r].
  destruct (get_cached_data_spec (protocol pr) ev Hc) as (Hp & Hs & Hc').
  destruct (get_cached_data (protocol pr) ev) as [ev' payload]. cbn [fst snd] in *.
  rewrite <-Hp. destruct payload as [bytes|]; cbn; [|by rewrite app_nil_r].
  split; [done|]. split; [done|].
  by rewrite (f_equal channel Hs : channel ev = channel ev'),
    (f_equal delivery_mode Hs : delivery_mode ev = delivery_mode ev').
Qed.

Lemma dispatch_all_spec env l ev eff :
  coherent ev →
  let r := foldl (dispatch env) (ev, eff) l in
  same_event ev r.1 ∧ coherent r.1 ∧ r.2 = eff ++ omap (delivered env ev) l.
Proof.
  cbn zeta. revert ev eff. induction l as [|gp l IH]; intros ev eff Hc; cbn [foldl].
  { by rewrite app_nil_r. }
  destruct (dispatch_spec env ev eff gp Hc) as (Hs & Hc' & He).
  destruct (dispatch env (ev, eff) gp) as [ev1 eff1]. cbn [fst snd] in *.
  destruct (IH ev1 eff1 Hc') as (Hs' & Hc'' & He').
  split; [by eapply same_event_trans|]. split; [done|].
  rewrite He', He, <-app_assoc. f_equal. cbn.
  rewrite (list_omap_ext (delivered env ev1) (delivered env ev) l l).
  2: { apply Forall2_same_length_lookup. split; [done|].
       intros i x y Hx Hy. rewrite Hx in Hy. injection Hy as <-.
       by apply delivered_same. }
  by destruct (delivered env ev gp).
Qed.

(** C6: Broadcasting sends the event to its recipients in order, each
    getting it serialized for its own protocol, as if there were no cache;
    the event keeps its content and its cache stays consistent with it. *)
Theorem broadcast_delivers env g ev :
  coherent ev →
  let ev' := default_receivers ev in
  let r := broadcast_event env g ev in
  r.2 = omap (delivered env ev') (recipients g ev') ∧
  same_event ev' r.1 ∧ coherent r.1.
Proof.
  intros Hc. cbn zeta. unfold broadcast_event.
  assert (coherent (default_receivers ev)) as Hc'.
  { unfold default_receivers. by destruct (receivers ev). }
  destruct (dispatch_all_spec env (recipients g (default_receivers ev)) _ [] Hc')
    as (Hs & Hc'' & He). done.
Qed.

(** Whom an event is meant for. *)
Definition addressed g ev gp : Prop :=
  match receivers ev with
  | RcvNone => False
  | RcvGroup grp =>
      if grp =? RgMasterClient then actor_id gp = master_actor g
      else grp = RgOthers → actor_id gp ≠ sender_actor_id ev
  | RcvActors actors => actor_id gp ∈ actors
  end.

Lemma find_actor_in g gp :
  NoDup (actor_id <$> peers g) → Forall (λ gp, active gp = true) (peers g) →
  gp ∈ peers g → find_actor g (actor_id gp) = Some gp.
Proof.
  unfold find_actor. intros Hnd Ha Hin. rewrite Forall_forall in Ha.
  apply find_first_unique; [done|by rewrite (Ha gp Hin), Z.eqb_refl|].
  intros y Hy Hs. apply andb_prop in Hs as [_ Hs]. apply Z.eqb_eq in Hs.
  by eapply NoDup_fmap_eq.
Qed.

(** In a room whose nodes are active and have distinct actor numbers the
    recipients of an event are exactly the nodes it is addressed to (the
    master client, the nodes other than the sender, everybody or the listed
    actors) that listen to its interest group, each once. *)
Theorem broadcast_recipients g ev gp :
  NoDup (actor_id <$> peers g) →
  Forall (λ gp, active gp = true) (peers g) →
  (gp ∈ recipients g ev ↔
     gp ∈ peers g ∧ addressed g ev gp ∧
     ig_test (interest_groups gp) (interest_group ev) = true) ∧
  NoDup (recipients g ev).
Proof.
  intros Hnd Ha. pose proof (find_actor_in g) as Hfi.
  assert (NoDup (peers g)) as Hndp by by eapply NoDup_fmap_1.
  unfold recipients, addressed. destruct (receivers ev) as [|grp|actors].
  - rewrite elem_of_nil. split; [tauto|constructor].
  - destruct (Z.eqb_spec grp RgMasterClient) as [_|_].
    + destruct (find_actor g (master_actor g)) as [m|] eqn:Hm.
      * apply find_actor_Some in Hm as Hm'. destruct Hm' as (Hin & _ & Hid).
        destruct (ig_test _ (interest_group ev)) eqn:Hig.
        -- split; [|apply NoDup_singleton]. rewrite list_elem_of_singleton.
           split; [by intros ->|]. intros (Hg & Hgid & _).
           rewrite <-Hgid, Hfi in Hm by done. congruence.
        -- split; [|constructor]. rewrite elem_of_nil. split; [done|].
           intros (Hg & Hgid & Ht). rewrite <-Hgid, Hfi in Hm by done. congruence.
      * split; [|constructor]. rewrite elem_of_nil. split; [done|].
        intros (Hg & Hgid & _). rewrite <-Hgid, Hfi in Hm by done. congruence.
    + split; [|by apply NoDup_filter]. rewrite list_elem_of_filter, andb_false_iff.
      rewrite Z.eqb_neq, Z.eqb_neq. split.
      * intros ([[Hd|Hd] Hig] & Hin); (split; [done|]); split; done || tauto.
      * intros (Hin & Hd & Hig). split; [|done]. split; [|done].
        destruct (decide (grp = RgOthers)); [right; auto|by left].
  - split.
    + rewrite list_elem_of_omap. split.
      * intros (a & Hel & Hf). destruct (find_actor g a) as [m|] eqn:Hm; [|done].
        cbn in Hf. destruct (ig_test _ _) eqn:Hig; [|done]. injection Hf as ->.
        apply find_actor_Some in Hm as (Hin & _ & <-).
        apply elem_of_elements in Hel. done.
      * intros (Hin & Hac & Hig). exists (actor_id gp).
        rewrite elem_of_elements, Hfi by done. cbn. by rewrite Hig.
    + assert (∀ l : list Z, NoDup l →
        NoDup (omap (λ a, gp ← find_actor g a;
           if ig_test (interest_groups gp) (interest_group ev)
           then Some gp else None) l)) as Hg.
      { intros l Hl. induction Hl as [|a l Ha' Hl IH]; [constructor|]. cbn.
        destruct (find_actor g a) as [m|] eqn:Hm; [|done]. cbn.
        destruct (ig_test _ _); [|done]. constructor; [|done].
        rewrite list_elem_of_omap. intros (b & Hb & Hf).
        destruct (find_actor g b) as [m'|] eqn:Hm'; [|done]. cbn in Hf.
        destruct (ig_test _ _); [|done]. injection Hf as ->.
        apply find_actor_Some in Hm as (_ & _ & <-), Hm' as (_ & _ & <-). done. }
      apply Hg, NoDup_elements.
Qed.

Lemma flood_props_spec p proto to props :
  flood_props p proto to props =
  if decide (props = ∅) then []
  else match serialize proto (event_message (props_event to props)) with
       | Some bytes => [Send p bytes 0 Reliable]
       | None => []
       end.
Proof.
  unfold flood_props. destruct (decide _); [done|].
  destruct (get_cached_data_spec proto (props_event to props)) as (-> & _); [|done].
  by apply fresh_coherent.
Qed.

(** The cached events a joining actor still has to see. *)
Definition to_flood (to : Z) ev : Prop :=
  (sender_actor_id ev = 0 ∨ sender_actor_id ev ≠ to) ∧
  code ev ≠ EvPropertiesUpdate.
#[export] Instance to_flood_dec to ev : Decision (to_flood to ev).
Proof. unfold to_flood. apply _. Defined.

Lemma flood_event_spec p pr env gp ev :
  lock env (peer gp) = Some p → env !! p = Some pr → coherent ev →
  let r := flood_event p (protocol pr) (actor_id gp) ev in
  same_event ev r.1 ∧ coherent r.1 ∧
  r.2 = if decide (to_flood (actor_id gp) ev)
        then option_list (delivered env ev gp) else [].
Proof.
  intros Hl Hp Hc. cbn zeta. unfold flood_event, delivered. rewrite Hl. cbn.
  rewrite Hp. cbn. unfold to_flood.
  destruct (Z.eqb_spec (sender_actor_id ev) 0), (Z.eqb_spec (sender_actor_id ev) (actor_id gp));
    cbn [negb andb].
  2-4: destruct (Z.eqb_spec (code ev) EvPropertiesUpdate).
  all: try (rewrite decide_False by tauto; done).
  all: try (destruct (Z.eqb_spec (code ev) EvPropertiesUpdate);
            [rewrite decide_False by tauto; done|]).
  all: rewrite decide_True by tauto.
  all: destruct (get_cached_data_spec (protocol pr) ev Hc) as (E & Hs & Hc').
  all: destruct (get_cached_data (protocol pr) ev) as [ev' payload]; cbn [fst snd] in *.
  all: rewrite <-E; split; [done|]; split; [done|].
  all: destruct payload as [bytes|]; cbn; [|done].
  all: by rewrite (f_equal channel Hs : channel ev = channel ev'),
    (f_equal delivery_mode Hs : delivery_mode ev = delivery_mode ev').
Qed.

Lemma flood_all_spec p pr env gp l :
  lock env (peer gp) = Some p → env !! p = Some pr → Forall coherent l →
  let out := flood_event p (protocol pr) (actor_id gp) <$> l in
  Forall2 same_event l out.*1 ∧ Forall coherent out.*1 ∧
  mjoin out.*2 = omap (λ ev, delivered env ev gp) (filter (to_flood (actor_id gp)) l).
Proof.
  intros Hl Hp Hc. cbn zeta. induction Hc as [|ev l Hev Hc IH].
  { split; [constructor|]. split; [constructor|done]. }
  destruct IH as (IH1 & IH2 & IH3).
  destruct (flood_event_spec p pr env gp ev Hl Hp Hev) as (Hs & Hc' & He).
  split; [by constructor|]. split; [by constructor|].
  rewrite !fmap_cons. cbn [mjoin list_join]. setoid_rewrite IH3. rewrite He, filter_cons.
  destruct (decide (to_flood (actor_id gp) ev)); [|done].
  cbn. by destruct (delivered env ev gp).
Qed.

(** A joining peer is flooded with the current room properties, then the
    current actor properties, then the cached events in the order they were
    cached, leaving out its own events and stale property updates; nothing
    but the serialization caches of the room changes. *)
Theorem flood_peer_order env g gp p pr :
  active gp = true → lock env (peer gp) = Some p → env !! p = Some pr →
  Forall coherent (event_cache g) →
  let r := flood_peer env g gp in
  let props tbl := if decide (tbl = ∅) then []
                   else option_list (delivered env (props_event (actor_id gp) tbl) gp) in
  r.1.2 = true ∧
  r.2 = props (get_game_props g false) ++ props (get_actor_props g) ++
        omap (λ ev, delivered env ev gp)
          (filter (to_flood (actor_id gp)) (event_cache g)) ∧
  Forall2 same_event (event_cache g) (event_cache r.1.1) ∧
  Forall coherent (event_cache r.1.1) ∧
  r.1.1 <| event_cache := [] |> = g <| event_cache := [] |>.
Proof.
  intros Ha Hl Hp Hc. cbn zeta. unfold flood_peer. rewrite Ha, Hl, Hp.
  cbn [negb fst snd]. upd.
  destruct (flood_all_spec p pr env gp _ Hl Hp Hc) as (H1' & H2' & H3').
  split; [done|]. split; [|done].
  assert (∀ tbl, flood_props p (protocol pr) (actor_id gp) tbl =
    if decide (tbl = ∅) then []
    else option_list (delivered env (props_event (actor_id gp) tbl) gp)) as Hf.
  { intros tbl. rewrite flood_props_spec. destruct (decide _); [done|].
    unfold delivered. rewrite Hl. cbn [mbind option_bind]. rewrite Hp.
    cbn [mbind option_bind]. by destruct (serialize _ _). }
  by rewrite !Hf, H3'.
Qed.

Lemma matches_filter_iff (event_data : Value) (flt : Hashtable) :
  matches_filter event_data flt = true ↔
  flt = ∅ ∨ ∃ tbl, get_table event_data = Some tbl ∧ flt ⊆ tbl.
Proof.
  unfold matches_filter. destruct (decide (flt = ∅)) as [->|Hne].
  { split; [by left|done]. }
  destruct (get_table event_data) as [tbl|].
  2: { split; [done|]. by intros [?|(? & ? & _)]. }
  rewrite forallb_forall. setoid_rewrite <-list_elem_of_In.
  transitivity (flt ⊆ tbl).
  - rewrite map_subseteq_spec. split.
    + intros Hall k v Hk. specialize (Hall (k, v)).
      rewrite elem_of_map_to_list in Hall. specialize (Hall Hk). cbn in Hall.
      destruct (tbl !! k); [|done]. bools. congruence.
    + intros Hs [k v] Hk%elem_of_map_to_list. cbn. rewrite (Hs _ _ Hk).
      by apply bool_decide_eq_true.
  - split; [intros ?; right; eauto|]. by intros [?|(? & [= <-] & ?)].
Qed.

(** An event matches a filter exactly when the filter is empty or the
    event carries a table that contains every entry of the filter. *)
Theorem matches_filter_spec (event_data : Value) (flt : Hashtable) :
  matches_filter event_data flt = true ↔
  flt = ∅ ∨ ∃ tbl, get_table event_data = Some tbl ∧ flt ⊆ tbl.
Proof. apply matches_filter_iff. Qed.
End props.
