(* ===== verification/GameSteps.v ===== *)
(** * The life of a game

    The operations of a room as one step relation, the invariant every
    reachable room satisfies, and the guarantees of the creation transaction,
    of actor numbering, of admission and of removal that follow from it. *)

From S2P Require Import Prelude Values Types GameState GameMembers GameCreation GameProps GameEvents.
Open Scope Z_scope.

(** Decide that a property update ignores a tuple of other fields. *)
Ltac ignored :=
  split; [|done];
  intros [] ? ?; cbn [prop_store];
  match goal with
  | |- context [match ?x with Some _ => _ | None => _ end] => by destruct x
  end.

Section steps.
Context `{Ser, Codes}.
Implicit Types (g : Game) (env : PeerEnv) (gp : GamePeer).

(** A node [create_peer] or [create_peer_for_actor] may return. *)
Definition node_ok gp : Prop := active gp = true ∧ 1 ≤ actor_id gp ≤ 254.

(** One operation on the room, in any environment of live peers.  Handlers
    add only nodes the room created (a failed creation yields a node without
    a peer), release during a creation only the reservations that creation
    made, and edit the event cache freely; [step_remote] is the
    revision and peer count a mirroring process is told (the creation and
    visibility flags of a mirrored room, which [Mirror] models, are not part
    of these steps); [step_groups_edit] and [step_tables] are what a plugin
    writes without asking the room. *)
Inductive step : Game → Game → Prop :=
  | step_begin g owner : step g (try_begin_creation g owner).1
  | step_commit g env owner n : step g (commit_creation env g owner n).1
  | step_abort g env owner n : step g (abort_creation_transaction env g owner n).1.1
  | step_create_peer g env p : step g (create_peer env g p).1
  | step_add g env gp :
      node_ok gp ∨ peer gp = None → step g (add_peer env g gp).1
  | step_add_creation g env gp owner n :
      node_ok gp ∨ peer gp = None →
      step g (add_peer_for_creation env g gp owner n).1
  | step_remove g env p : step g (remove_peer env g p).1.1
  | step_reserve g u ttl :
      step g (reserve_expected_user_with_generation g u ttl).1.1
  | step_unreserve g u : step g (remove_expected_user g u)
  | step_release g u n :
      (is_creating g = true → reserved_generations g !! u = Some n) →
      step g (remove_expected_user_if_generation g u n).1
  | step_task g t : step g (run_task t g)
  | step_groups g env p add remove :
      step g (apply_interest_groups env g p add remove).1
  | step_game_props g s info l : step g (insert_game_props_in s info g l).1
  | step_actor_props g a update : step g (insert_actor_props g a update).1
  | step_config g fl op vis mp ma : step g (set_config_state g fl op vis mp ma)
  | step_settings g pt et fl mp :
      step g (bump_revision (g <| player_ttl := pt |> <| empty_game_ttl := et |>
                               <| flags := fl |> <| max_peers := mp |>))
  | step_actor_edit g a f :
      step g (g <| peers ::= update_first (λ gp, active gp && (actor_id gp =? a))
                               (λ gp, gp <| actor_props ::= f |>) |>)
  | step_cache g f : step g (g <| event_cache ::= f |>)
  | step_remote g rev dummy :
      step g (g <| state_revision_ := rev |> <| dummy_peer_count := dummy |>)
  | step_groups_edit g a f :
      step g (g <| peers ::= update_first (λ gp, active gp && (actor_id gp =? a))
                               (λ gp, gp <| interest_groups ::= f |>) |>)
  | step_tables g custom lobby_ :
      step g (g <| custom_props := custom |> <| lobby_props := lobby_ |>).

(** ** The invariant *)

Record game_ok g : Prop := {
  ok_expect : expect_ok g;
  ok_actors : NoDup (actor_id <$> peers g);
  ok_nodes : Forall node_ok (peers g);
  ok_retired : Forall (λ gp, active gp = false) (retired_peers g);
  ok_last : 0 ≤ last_actor_id g ≤ 254;
  ok_lease : is_creating g = true → lease_expect g;
  ok_initial_last : 0 ≤ initial_last_actor_id (creation_initial g) ≤ 254;
  ok_initial_named : EmptyString ∉ initial_expected_users (creation_initial g);
}.

Lemma new_game_ok s l i a : game_ok (new_game s l i a).
Proof.
  split; cbn; [|apply NoDup_nil_2|apply Forall_nil_2|apply Forall_nil_2|lia|done|lia|set_solver].
  split; cbn; [by rewrite dom_empty_L|set_solver].
Qed.

(** The fields the invariant speaks of, all others erased. *)
Definition ok_view g :=
  (expected_users g, expected_user_generations g, reserved_generations g,
   removed_generations g, peers g, retired_peers g, last_actor_id g,
   is_creating g, creation_initial g).

Lemma game_ok_view g g' : ok_view g' = ok_view g → game_ok g → game_ok g'.
Proof.
  unfold ok_view. intros [= E1 E2 E3 E4 E5 E6 E7 E8 E9] [[] ? ? ? ? Hl ? ?].
  split; rewrite ?E1, ?E2, ?E5, ?E6, ?E7, ?E8, ?E9; try done.
  - split; by rewrite ?E1, ?E2.
  - intros Hc. destruct (Hl Hc). split; rewrite ?E1, ?E2, ?E3, ?E4, ?E9; done.
Qed.

Lemma game_ok_room g g' :
  same_room g g' → expect_ok g' → (is_creating g = true → lease_expect g') →
  game_ok g → game_ok g'.
Proof.
  intros Hs He Hl [_ ? ? ? ? _ ? ?].
  pose proof (f_equal peers Hs : peers g' = peers g) as E1.
  pose proof (f_equal retired_peers Hs : retired_peers g' = retired_peers g) as E2.
  pose proof (f_equal last_actor_id Hs : last_actor_id g' = last_actor_id g) as E3.
  pose proof (f_equal is_creating Hs : is_creating g' = is_creating g) as E4.
  pose proof (f_equal creation_initial Hs : creation_initial g' = creation_initial g) as E5.
  split; rewrite ?E1, ?E2, ?E3, ?E4, ?E5; done.
Qed.

(** Replacing the nodes and the allocation cursor. *)
Lemma game_ok_nodes g l r n :
  NoDup (actor_id <$> l) → Forall node_ok l →
  Forall (λ gp, active gp = false) r → 0 ≤ n ≤ 254 →
  game_ok g →
  game_ok (g <| peers := l |> <| retired_peers := r |> <| last_actor_id := n |>).
Proof.
  intros ? ? ? ? [[] ? ? ? ? Hl ? ?]. split; upd; try done.
  intros Hc. destruct (Hl Hc). by split.
Qed.

Lemma Forall_filter_of {A} (P Q : A → Prop) `{∀ x, Decision (Q x)} l :
  Forall P l → Forall P (filter Q l).
Proof.
  rewrite !Forall_forall. intros Hl x [_ Hx]%list_elem_of_filter. by apply Hl.
Qed.

Lemma deactivated l : Forall (λ gp, active gp = false) (deactivate <$> l).
Proof. apply Forall_fmap, Forall_true. done. Qed.

Lemma emplace_ok g gp u :
  node_ok gp → find_actor g (actor_id gp) = None → game_ok g →
  game_ok (emplace_peer g gp u).1.
Proof.
  intros Hgp Hf Hok. unfold emplace_peer. cbn [fst].
  set (gp' := gp <| owner_game := Some (self g) |>).
  assert (game_ok (g <| peers ::= λ l, l ++ [gp'] |>)) as Hok'.
  { destruct Hok as [He Hnd Hno Hr Hl Hle ? ?]. split; upd; try done.
    - by destruct He.
    - rewrite fmap_app, NoDup_app. change (actor_id <$> [gp']) with [actor_id gp]. split; [done|]. split; [|apply NoDup_singleton].
      intros a (x & -> & Hx)%list_elem_of_fmap. rewrite list_elem_of_singleton.
      rewrite find_actor_None in Hf. apply Hf; [done|].
      rewrite Forall_forall in Hno. by apply Hno.
    - apply Forall_app. split; [done|]. by apply Forall_singleton.
    - intros Hc. destruct (Hle Hc). by split. }
  apply (game_ok_room _ _ (remove_expected_same_room _ u)); [|intros Hc|done].
  - by apply remove_expect_ok, ok_expect.
  - apply remove_lease_expect; [done|by apply ok_expect|by apply ok_lease].
Qed.

Lemma create_peer_view env g p :
  0 ≤ last_actor_id g ≤ 254 →
  ∃ n, (create_peer env g p).1 = g <| last_actor_id := n |> ∧ 0 ≤ n ≤ 254.
Proof.
  intros Hl. unfold create_peer. destruct (p ≫= peer_user env).
  2: { exists (last_actor_id g). split; [by destruct g|done]. }
  destruct (alloc_actor_spec (Z.to_nat 254) g Hl) as (n & E & Hn & _).
  destruct (alloc_actor _ g) as [g' a]. cbn [fst] in E. exists n. split; [|done].
  by destruct (is_valid _).
Qed.

Lemma add_peer_ok env g gp :
  node_ok gp ∨ peer gp = None → game_ok g → game_ok (add_peer env g gp).1.
Proof.
  intros Hgp Hok. unfold add_peer. destruct (_ && _); [done|].
  destruct Hgp as [Hgp| ->]; [|done].
  destruct (lock env (peer gp) ≫= peer_user env) as [u|]; [|done].
  destruct (bool_decide _) eqn:Hf; [done|]. destruct (_ && _); [done|].
  bools. apply emplace_ok; [done| |done]. by apply eq_None_not_Some.
Qed.

Lemma add_peer_for_creation_ok env g gp owner n :
  node_ok gp ∨ peer gp = None → game_ok g →
  game_ok (add_peer_for_creation env g gp owner n).1.
Proof.
  intros Hgp Hok. unfold add_peer_for_creation. destruct (negb _); [done|].
  destruct Hgp as [Hgp| ->]; [|done].
  destruct (lock env (peer gp) ≫= peer_user env) as [u|]; [|done].
  destruct (_ || _) eqn:Hf; [done|]. destruct (_ && _); [done|].
  bools. apply emplace_ok; [done| |done]. by apply eq_None_not_Some.
Qed.

Lemma removed_ok env p g : game_ok g → game_ok (removed_state env p g).
Proof.
  intros Hok. apply (game_ok_view (g
    <| peers := kept env p (peers g) |>
    <| retired_peers := retired_peers g ++ (deactivate <$> taken env p (peers g)) |>
    <| last_actor_id := last_actor_id g |>)).
  { reflexivity. }
  destruct Hok as [? ? ? ? ? ? ? ?].
  apply game_ok_nodes; [..|by split]; unfold kept, remove_if.
  - by apply NoDup_fmap_filter.
  - by apply Forall_filter_of.
  - apply Forall_app. split; [done|apply deactivated].
  - done.
Qed.

Lemma remove_peer_ok env p g : game_ok g → game_ok (remove_peer env g p).1.1.
Proof.
  intros Hok. destruct p as [p|]; [|done]. unfold remove_peer.
  rewrite remove_loop_spec by lia.
  pose proof (removed_ok env p g Hok) as Hr. set (g' := removed_state env p g) in *.
  destruct (_ =? 0); [done|]. destruct (peers g') as [|front l] eqn:Hp; [done|].
  cbn [fst]. destruct (_ =? _); [|done].
  apply (game_ok_view g'); [reflexivity|done].
Qed.

Lemma update_first_fmap {A B} (h : A → B) sel f (l : list A) :
  (∀ x, h (f x) = h x) → h <$> update_first sel f l = h <$> l.
Proof.
  intros Hf. induction l as [|x l IH]; [done|]. cbn.
  destruct (sel x); cbn; [by rewrite Hf|by f_equal].
Qed.

Lemma update_first_Forall {A} (P : A → Prop) sel f (l : list A) :
  (∀ x, P x → P (f x)) → Forall P l → Forall P (update_first sel f l).
Proof.
  intros Hf. induction 1 as [|x l Hx Hl IH]; [constructor|]. cbn.
  destruct (sel x); constructor; auto.
Qed.

Lemma update_node_ok g sel f :
  (∀ gp, actor_id (f gp) = actor_id gp) → (∀ gp, active (f gp) = active gp) →
  game_ok g → game_ok (g <| peers ::= update_first sel f |>).
Proof.
  intros Hid Hac Hok. apply (game_ok_view (g
    <| peers := update_first sel f (peers g) |>
    <| retired_peers := retired_peers g |>
    <| last_actor_id := last_actor_id g |>)); [reflexivity|].
  destruct Hok as [? ? ? ? ? ? ? ?]. apply game_ok_nodes; try done.
  - by rewrite update_first_fmap.
  - apply update_first_Forall; [|done]. unfold node_ok. intros x ?.
    by rewrite Hid, Hac.
Qed.

Lemma begin_ok g owner : game_ok g → game_ok (try_begin_creation g owner).1.
Proof.
  intros [[Hd Hn] ? ? ? ? ? ? ?]. unfold try_begin_creation.
  destruct (_ || _); [done|]. cbn [fst]. split; try done. intros _.
  split; intros u; unfold bump_revision; upd; unfold take_snapshot;
    cbn [initial_expected_users]; rewrite ?dom_empty_L; [by left|set_solver|set_solver|].
  intros Hu. right. apply not_elem_of_dom. by rewrite Hd.
Qed.

(** The configuration is that of the snapshot. *)
Record restored (s : Snapshot) g : Prop := {
  re_created : is_created g = initial_is_created s;
  re_flags : flags g = initial_flags s;
  re_open : is_open g = initial_is_open s;
  re_visible : is_visible g = initial_is_visible s;
  re_player_ttl : player_ttl g = initial_player_ttl s;
  re_empty_game_ttl : empty_game_ttl g = initial_empty_game_ttl s;
  re_max_peers : max_peers g = initial_max_peers s;
  re_master : master_actor g = initial_master_actor s;
  re_custom : custom_props g = initial_custom_props s;
  re_lobby : lobby_props g = initial_lobby_props s;
  re_last : last_actor_id g = initial_last_actor_id s;
  re_dummy : dummy_peer_count g = initial_dummy_peer_count s;
  re_cache : event_cache g = initial_event_cache s;
  re_inactive : inactive_players g = initial_inactive_players s;
  re_users : expected_users g = initial_expected_users s;
}.

(** What the rest of an aborted room looks like. *)
Record retired_to env g g' : Prop := {
  rt_peers : peers g' = remove_if (live env) (peers g);
  rt_retired : retired_peers g' = retired_peers g ++
    (deactivate <$> filter (λ gp, live env gp = true) (peers g));
  rt_initial : creation_initial g' = creation_initial g;
  rt_creating : is_creating g' = false;
  rt_owner : creation_owner g' = None;
  rt_next : next_creation_generation g' = next_creation_generation g;
}.

Lemma same_room_fields g g' :
  same_room g g' →
  peers g' = peers g ∧ retired_peers g' = retired_peers g ∧
  creation_initial g' = creation_initial g ∧
  next_creation_generation g' = next_creation_generation g ∧
  active_creation_generation_ g' = active_creation_generation_ g ∧
  is_creating g' = is_creating g ∧ creation_owner g' = creation_owner g ∧
  inactive_players g' = inactive_players g.
Proof.
  intros Hs. repeat split;
    [exact (f_equal peers Hs)|exact (f_equal retired_peers Hs)
    |exact (f_equal creation_initial Hs)|exact (f_equal next_creation_generation Hs)
    |exact (f_equal active_creation_generation_ Hs)
    |exact (f_equal is_creating Hs)|exact (f_equal creation_owner Hs)
    |exact (f_equal inactive_players Hs)].
Qed.

Lemma abort_spec env g owner n :
  game_ok g → holds_lease env g owner n = true →
  let r := abort_creation_transaction env g owner n in
  r.1.2 = true ∧ expect_ok r.1.1 ∧ restored (creation_initial g) r.1.1 ∧
  retired_to env g r.1.1.
Proof.
  intros Hok Hh. cbn zeta. unfold abort_creation_transaction. rewrite Hh. cbn [negb].
  rewrite retire_live_spec by lia.
  set (g1 := _ <| inactive_players := _ |>).
  assert (expect_ok g1) as He1 by (destruct Hok as [[] _ _ _ _ _ _ _]; done).
  assert (lease_expect g1) as Hle1.
  { destruct (ok_lease _ Hok); [by apply holds_lease_spec in Hh as [? _]|done]. }
  assert (creation_initial g1 = creation_initial g) as Ei by done.
  assert (peers g1 = remove_if (live env) (peers g)) as Ep by done.
  assert (retired_peers g1 = retired_peers g ++
    (deactivate <$> filter (λ gp, live env gp = true) (peers g))) as Er by done.
  assert (next_creation_generation g1 = next_creation_generation g) as En by done.
  assert (inactive_players g1 = initial_inactive_players (creation_initial g)) as Ena by done.
  clearbody g1.
  destruct (rollback_reservations g1 He1 Hle1) as (Hs & He2 & E2).
  { rewrite Ei. by apply (ok_initial_named _ Hok). }
  destruct (restore_all _ _) as [g2 eff]. cbn [fst snd] in *.
  destruct (same_room_fields _ _ Hs) as (F1 & F2 & F3 & F4 & _ & _ & _ & F8).
  unfold bump_revision, restore_fields. upd.
  rewrite F3, Ei. rewrite Ei in E2.
  split; [done|]. split; [by destruct He2|]. split; split; upd; congruence.
Qed.

Lemma abort_ok env g owner n :
  game_ok g → game_ok (abort_creation_transaction env g owner n).1.1.
Proof.
  intros Hok. destruct (holds_lease env g owner n) eqn:Hh.
  2: { unfold abort_creation_transaction. by rewrite Hh. }
  destruct (abort_spec env g owner n Hok Hh) as (_ & He & Hre & Hrt).
  set (g' := (abort_creation_transaction env g owner n).1.1) in *. clearbody g'.
  destruct Hok as [? ? ? ? ? ? Hil Hin], Hrt as [Ep Er Ei Ec _ _].
  split; rewrite ?Ep, ?Er, ?Ei, ?Ec, ?(re_last _ _ Hre); try done.
  - by apply NoDup_fmap_filter.
  - by apply Forall_filter_of.
  - apply Forall_app. split; [done|apply deactivated].
Qed.

(** A property update leaves alone whatever does not depend on the cells it
    can write. *)
Definition ignores_props {A} (view : Game → A) : Prop :=
  (∀ p value g, view (prop_store p value g).1 = view g) ∧
  (∀ f g, view (g <| custom_props ::= f |>) = view g) ∧
  (∀ g, view (bump_revision g) = view g).

Lemma insert_props_view {A} (view : Game → A) s info l g :
  ignores_props view → view (insert_game_props_in s info g l).1 = view g.
Proof.
  intros (Hp & Hc & Hb). unfold insert_game_props_in.
  assert (∀ l st, view (foldl (insert_one s) st l).1.1 = view st.1.1) as Hf.
  { clear l g. induction l as [|[k v] l IH]; intros [[g ul] ch]; [done|]. cbn [foldl].
    rewrite IH. unfold insert_one. destruct (get_byte k) as [b|].
    - destruct (prop_of b) as [p|]; [|done]. destruct (_ && _); [done|].
      specialize (Hp p v g). by destruct (prop_store p v g).
    - destruct (negb _); [destruct (decide _); [done|apply Hc]|].
      destruct (has_flag _ _); [|done]. destruct (_ !! k); [apply Hc|done]. }
  specialize (Hf l (g, false, false)). destruct (foldl _ _ l) as [[g' ul] ch].
  cbn [fst] in *. rewrite <-Hf. destruct ch; [apply Hb|done].
Qed.

Lemma insert_view s info l g :
  ok_view (insert_game_props_in s info g l).1 = ok_view g.
Proof. apply insert_props_view. ignored. Qed.

Lemma steps_ok g g' : game_ok g → rtc step g g' → game_ok g'.
Proof.
  intros Hok Hs. induction Hs as [|g g1 g2 H1 _ IH]; [done|]. apply IH. clear IH g2.
  destruct H1 as [ | | |g env p| | | |g u ttl|g u|g u n Hr|g t|g env p add rem|g s info l
    |g a upd| | |g a f| | |g a f| ].
  - by apply begin_ok.
  - unfold commit_creation. destruct (_ || _); [done|].
    destruct Hok as [[] ? ? ? ? ? ? ?].
    split; unfold bump_revision; cbn [fst]; upd; done || by split.
  - by apply abort_ok.
  - destruct (create_peer_view env g p (ok_last _ Hok)) as (n & -> & Hn).
    destruct Hok as [[] ? ? ? ? Hl ? ?]. split; upd; try done.
    intros Hc. destruct (Hl Hc). by split.
  - by apply add_peer_ok.
  - by apply add_peer_for_creation_ok.
  - by apply remove_peer_ok.
  - eapply game_ok_room; [apply reserve_same_room|..|done].
    + by apply reserve_expect_ok, ok_expect.
    + intros Hc. by apply reserve_lease_expect, ok_lease.
  - eapply game_ok_room; [apply remove_expected_same_room|..|done].
    + by apply remove_expect_ok, ok_expect.
    + intros Hc. by apply remove_lease_expect; [| apply ok_expect|apply ok_lease].
  - eapply game_ok_room; [apply release_same_room|..|done].
    + by apply release_expect_ok, ok_expect.
    + intros Hc. apply release_lease_expect; [by apply Hr|by apply ok_lease].
  - eapply game_ok_room; [apply run_task_same_room|..|done].
    + by apply run_task_expect_ok, ok_expect.
    + intros Hc. by apply run_task_lease_expect, ok_lease.
  - unfold apply_interest_groups. destruct (find_peer env g p); [|done].
    by apply update_node_ok.
  - eapply game_ok_view; [apply insert_view|done].
  - unfold insert_actor_props. destruct (find_actor g a); [|done].
    by apply update_node_ok.
  - eapply game_ok_view; [|done]. reflexivity.
  - eapply game_ok_view; [|done]. reflexivity.
  - by apply update_node_ok.
  - eapply game_ok_view; [|done]. reflexivity.
  - eapply game_ok_view; [|done]. reflexivity.
  - by apply update_node_ok.
  - eapply game_ok_view; [|done]. reflexivity.
Qed.

(** C1: Every operation preserves the invariant of a room: reservations and
    their generations agree, nodes are active with distinct actor numbers
    between 1 and 254, retired nodes are inactive, and a creation in progress
    knows how to give back the reservations it found. *)
Theorem game_invariant g g' : game_ok g → rtc step g g' → game_ok g'.
Proof. apply steps_ok. Qed.
End steps.

(** A room is created, prepared by its first joiner and published. *)
Lemma game_invariant_witness :
  let g0 := new_game (H := TreeSer.tree_ser) 7 1 "room" "udp://h:5056" in
  let g1 := (try_begin_creation g0 (Some 3%nat)).1 in
  game_ok g0 ∧ rtc step g0 g1 ∧ game_ok g1.
Proof.
  assert (game_ok (new_game (H := TreeSer.tree_ser) 7 1 "room" "udp://h:5056")) as H0
    by apply new_game_ok.
  assert (rtc (step (H := TreeSer.tree_ser))
            (new_game 7 1 "room" "udp://h:5056")
            (try_begin_creation (new_game 7 1 "room" "udp://h:5056") (Some 3%nat)).1) as H1
    by (apply rtc_once; constructor).
  split; [exact H0|]. split; [exact H1|]. exact (game_invariant _ _ H0 H1).
Defined.

(** ** What a room is named by *)

Section identity.
Context `{Ser, Codes}.
Implicit Types (g : Game) (env : PeerEnv) (gp : GamePeer).

Definition identity_of g := (self g, game_lobby g, id g, server_address g).

Lemma room_identity g g' : same_room g g' → identity_of g' = identity_of g.
Proof.
  intros Hs. unfold identity_of.
  pose proof (f_equal self Hs : self g' = self g).
  pose proof (f_equal game_lobby Hs : game_lobby g' = game_lobby g).
  pose proof (f_equal id Hs : id g' = id g).
  pose proof (f_equal server_address Hs : server_address g' = server_address g).
  congruence.
Qed.

Lemma emplace_identity g gp u : identity_of (emplace_peer g gp u).1 = identity_of g.
Proof. exact (room_identity _ _ (remove_expected_same_room _ u)). Qed.

(** An aborted creation keeps the name: the whole room but the fields the
    snapshot holds. *)
Lemma abort_identity env g owner n :
  game_ok g → identity_of (abort_creation_transaction env g owner n).1.1 = identity_of g.
Proof.
  intros Hok. unfold abort_creation_transaction.
  destruct (holds_lease env g owner n) eqn:Hh; [|done]. cbn [negb].
  rewrite retire_live_spec by lia. set (g1 := _ <| inactive_players := _ |>).
  assert (expect_ok g1) as He1 by (destruct Hok as [[] _ _ _ _ _ _ _]; done).
  assert (lease_expect g1) as Hle1.
  { destruct (ok_lease _ Hok); [by apply holds_lease_spec in Hh as [? _]|done]. }
  destruct (rollback_reservations g1 He1 Hle1) as (Hs & _ & _).
  { change (creation_initial g1) with (creation_initial g). by apply (ok_initial_named _ Hok). }
  apply room_identity in Hs. destruct (restore_all _ _) as [g2 eff]. cbn [fst] in *.
  etrans; [|exact (Hs : _ = identity_of g)]. reflexivity.
Qed.

(** No operation of a room changes what it is named by. *)
Lemma step_identity g g' : game_ok g → step g g' → identity_of g' = identity_of g.
Proof.
  intros Hok Hs. destruct Hs; try reflexivity;
    eauto using abort_identity, room_identity, reserve_same_room,
      remove_expected_same_room, release_same_room, run_task_same_room.
  - unfold try_begin_creation. by destruct (_ || _).
  - unfold commit_creation. by destruct (_ || _).
  - by destruct (create_peer_view env g p (ok_last _ Hok)) as (n & -> & _).
  - unfold add_peer. repeat case_match; try done; apply emplace_identity.
  - unfold add_peer_for_creation. repeat case_match; try done; apply emplace_identity.
  - unfold remove_peer. destruct p as [p|]; [|done].
    rewrite remove_loop_spec by lia. by repeat case_match.
  - unfold apply_interest_groups. by destruct (find_peer env g p).
  - apply insert_props_view. ignored.
  - unfold insert_actor_props. by destruct (find_actor g a).
Qed.
End identity.

(** ** The creation lease *)

Section lease.
Context `{Ser, Codes}.
Implicit Types (g : Game) (env : PeerEnv) (gp : GamePeer).

Definition lease_view g :=
  (creation_initial g, is_creating g, creation_owner g,
   next_creation_generation g, active_creation_generation_ g, is_created g).

Lemma room_lease g g' : same_room g g' → lease_view g' = lease_view g.
Proof.
  intros Hs. destruct (same_room_fields _ _ Hs) as (_ & _ & E1 & E2 & E3 & E4 & E5 & _).
  pose proof (f_equal is_created Hs : is_created g' = is_created g) as E6.
  unfold lease_view. congruence.
Qed.

Lemma props_lease s info l g :
  lease_view (insert_game_props_in s info g l).1 = lease_view g.
Proof. apply insert_props_view. ignored. Qed.

Lemma emplace_lease g gp u : lease_view (emplace_peer g gp u).1 = lease_view g.
Proof.
  unfold emplace_peer. cbn [fst].
  rewrite (room_lease _ _ (remove_expected_same_room _ u)). reflexivity.
Qed.

(** An operation leaves the lease alone, opens one with the next generation,
    or closes the current one. *)
Inductive lease_change g g' : Prop :=
  | lease_same : lease_view g' = lease_view g → lease_change g g'
  | lease_open :
      is_creating g = false → is_created g = false → is_creating g' = true →
      creation_initial g' = take_snapshot g →
      next_creation_generation g' = next_generation (next_creation_generation g) →
      active_creation_generation_ g' = next_creation_generation g' →
      is_created g' = false →
      lease_change g g'
  | lease_close :
      is_creating g = true → is_creating g' = false →
      next_creation_generation g' = next_creation_generation g →
      is_created g' = true ∨ is_created g' = initial_is_created (creation_initial g) →
      lease_change g g'.

Lemma step_lease g g' : game_ok g → step g g' → lease_change g g'.
Proof.
  intros Hok Hs. destruct Hs.
  all: try (apply lease_same; reflexivity).
  - unfold try_begin_creation. destruct (_ || _) eqn:Hc; [by apply lease_same|].
    bools. apply lease_open; unfold bump_revision; cbn [fst]; upd; done.
  - unfold commit_creation. destruct (_ || _) eqn:Hc; [by apply lease_same|].
    bools. apply holds_lease_spec in H1 as [? _].
    apply lease_close; unfold bump_revision; cbn [fst]; upd; auto.
  - destruct (holds_lease env g owner n) eqn:Hh.
    + destruct (abort_spec env g owner n Hok Hh) as (_ & _ & Hre & [_ _ _ Ec _ En]).
      apply holds_lease_spec in Hh as [? _]. apply lease_close; [done..|].
      right. apply (re_created _ _ Hre).
    + unfold abort_creation_transaction. rewrite Hh. by apply lease_same.
  - apply lease_same. destruct (create_peer_view env g p (ok_last _ Hok)) as (n & -> & _).
    reflexivity.
  - apply lease_same. unfold add_peer. destruct (_ && _); [done|].
    destruct (_ ≫= _); [|done]. destruct (bool_decide _); [done|].
    destruct (_ && _); [done|]. apply emplace_lease.
  - apply lease_same. unfold add_peer_for_creation. destruct (negb _); [done|].
    destruct (_ ≫= _); [|done]. destruct (_ || _); [done|].
    destruct (_ && _); [done|]. apply emplace_lease.
  - apply lease_same. unfold remove_peer. destruct p as [p|]; [|done].
    rewrite remove_loop_spec by lia. destruct (_ =? _); [done|].
    destruct (peers _); [done|]. cbn [fst]. by destruct (_ =? _).
  - apply lease_same, room_lease, reserve_same_room.
  - apply lease_same, room_lease, remove_expected_same_room.
  - apply lease_same, room_lease, release_same_room.
  - apply lease_same, room_lease, run_task_same_room.
  - apply lease_same. unfold apply_interest_groups. by destruct (find_peer env g p).
  - apply lease_same, props_lease.
  - apply lease_same. unfold insert_actor_props. by destruct (find_actor g a).
Qed.

(** ** A created room stays created *)

(** Only a room that is not created yet can be in creation. *)
Record lease_ok g : Prop := {
  lo_created : is_created g = true → is_creating g = false;
  lo_initial : is_creating g = true → initial_is_created (creation_initial g) = false;
}.

Lemma step_lease_ok g g' :
  game_ok g → lease_ok g → step g g' →
  lease_ok g' ∧ (is_created g = true → is_created g' = true).
Proof.
  intros Hok [Hc Hi] Hs. destruct (step_lease _ _ Hok Hs) as [E|? ? ? E ? ? ?|? ? ? Ecl].
  - pose proof (f_equal (λ x, x.1.1.1.1.1) E) as E1. pose proof (f_equal (λ x, x.1.1.1.1.2) E) as E2.
    pose proof (f_equal (λ x, x.2) E) as E3. cbn in E1, E2, E3.
    split; [split; rewrite ?E1, ?E2, ?E3; done|by rewrite E3].
  - split; [split|]; [congruence| |congruence]. intros _. by rewrite E.
  - split; [split; congruence|]. intros Hg. specialize (Hc Hg). congruence.
Qed.

Lemma steps_lease_ok g g' :
  game_ok g → lease_ok g → rtc step g g' →
  lease_ok g' ∧ (is_created g = true → is_created g' = true).
Proof.
  intros Hok Hl Hs. induction Hs as [|g g1 g2 H1 _ IH]; [done|].
  destruct (step_lease_ok _ _ Hok Hl H1) as [Hl1 Hc1].
  destruct IH as [? Hc2]; [by apply (steps_ok g g1); [|apply rtc_once]|done|].
  split; [done|]. auto.
Qed.

(** A step during which the creation is neither committed nor aborted. *)
Definition lease_step g g' : Prop := step g g' ∧ is_creating g' = true.

Lemma lease_steps_initial g g' :
  game_ok g → is_creating g = true → rtc lease_step g g' →
  creation_initial g' = creation_initial g ∧ game_ok g'.
Proof.
  intros Hok Hc Hs. induction Hs as [|g g1 g2 [H1 Hc1] _ IH]; [done|].
  assert (game_ok g1) as Hok1 by (apply (steps_ok g g1); [done|by apply rtc_once]).
  destruct (IH Hok1 Hc1) as [-> ?]. split; [|done].
  destruct (step_lease _ _ Hok H1) as [E| |]; [|congruence..].
  exact (f_equal (λ x, x.1.1.1.1.1) E).
Qed.

(** C2: Whatever happens to a room between the start of a creation and its
    abort (joins, reservations and their expiry, property and configuration
    changes, cached events), the abort gives back the configuration, the
    properties, the event cache and the set of reserved users the room had
    before, and detaches every live peer. *)
Theorem abort_restores_room g0 owner g1 gen g2 env owner' gen' g3 eff :
  game_ok g0 →
  try_begin_creation g0 owner = (g1, gen) → gen ≠ 0 →
  rtc lease_step g1 g2 →
  abort_creation_transaction env g2 owner' gen' = (g3, true, eff) →
  restored (take_snapshot g0) g3 ∧ is_creating g3 = false ∧
  (∀ gp, gp ∈ peers g3 → lock env (peer gp) = None).
Proof.
  intros Hok Hb Hgen Hs Ha.
  assert (g1 = (try_begin_creation g0 owner).1) as E1 by by rewrite Hb.
  assert (game_ok g1) as Hok1 by (rewrite E1; by apply begin_ok).
  assert (is_creating g1 = true ∧ creation_initial g1 = take_snapshot g0) as [Hc Hi].
  { revert Hb. unfold try_begin_creation. destruct (_ || _); [by intros [= _ <-]|].
    intros [= <- _]. unfold bump_revision. by upd. }
  destruct (lease_steps_initial _ _ Hok1 Hc Hs) as [Hi2 Hok2].
  destruct (holds_lease env g2 owner' gen') eqn:Hh.
  2: { unfold abort_creation_transaction in Ha. by rewrite Hh in Ha. }
  destruct (abort_spec env g2 owner' gen' Hok2 Hh) as (_ & _ & Hre & [Ep _ _ Ec _ _]).
  rewrite Ha, Hi2, Hi in *. cbn [fst] in *. split; [done|]. split; [done|].
  intros gp. rewrite Ep, elem_of_remove_if. unfold live. intros [_ Hl]. by bools.
Qed.

(** At most one creation is active: a lease excludes any other owner or
    generation, and the room refuses to start another creation. *)
Theorem creation_exclusive env g owner n :
  is_creation_active env g owner n = true →
  (∀ owner' n', is_creation_active env g owner' n' = true → owner' = owner ∧ n' = n) ∧
  (∀ owner', try_begin_creation g owner' = (g, 0)).
Proof.
  unfold is_creation_active. rewrite holds_lease_spec.
  intros (Hc & _ & -> & _ & <-). split.
  - intros owner' n'. rewrite holds_lease_spec. by intros (_ & _ & -> & _ & <-).
  - intros owner'. unfold try_begin_creation. by rewrite Hc, orb_true_r.
Qed.

(** A closed lease never comes back: once a creation was committed or
    aborted, its generation is refused in every later state, as long as the
    64-bit generation counter has not wrapped. *)
Theorem closed_lease_stays_closed g g' env owner n k :
  game_ok g → is_creating g = false →
  0 < n ≤ next_creation_generation g →
  nsteps step k g g' →
  next_creation_generation g + Z.of_nat k < 2 ^ 64 - 1 →
  is_creation_active env g' owner n = false.
Proof.
  intros Hok Hc Hn Hs Hk.
  assert (is_creating g = true → n < active_creation_generation_ g) as Hact by congruence.
  clear Hc. induction Hs as [g|k g g1 g2 H1 _ IH].
  - apply not_true_iff_false. unfold is_creation_active. rewrite holds_lease_spec.
    intros (Hc & _ & E & _). specialize (Hact Hc). lia.
  - assert (game_ok g1) as Hok1 by (apply (steps_ok g g1); [done|by apply rtc_once]).
    destruct (step_lease _ _ Hok H1) as [E|Hf _ Hc1 _ En Ea _|Hc Hc1 En _].
    + pose proof (f_equal (λ x, x.1.1.1.1.2) E) as E1.
      pose proof (f_equal (λ x, x.1.1.2) E) as E2.
      pose proof (f_equal (λ x, x.1.2) E) as E3. cbn in E1, E2, E3.
      apply IH; rewrite ?E1, ?E2, ?E3; [done|lia|lia|done].
    + rewrite next_generation_succ in En by lia.
      apply IH; [done|lia|lia|]. intros _. lia.
    + apply IH; [done|lia|lia|congruence].
Qed.
End lease.
