(* ===== verification/GameAdmission.v ===== *)
(** * Admission to a game and departure from it

    What joining and leaving guarantee: actor numbers are found whenever one
    is free, a validated join keeps the room within its capacity, user ids
    stay unique, and leaving removes exactly the departing and stale nodes.
    The places where the code does not keep a promise are stated as theorems
    too. *)

From S2P Require Import Prelude Values Types GameState GameMembers GameCreation GameProps GameEvents GameSteps.
Open Scope Z_scope.

Section admission.
Context `{Ser, Codes}.
Implicit Types (g : Game) (env : PeerEnv) (gp : GamePeer).

Lemma create_peer_effect env g p u :
  game_ok g → peer_user env p = Some u →
  let r := create_peer env g (Some p) in
  (is_valid r.2 = true ↔ ∃ a, 1 ≤ a ≤ 254 ∧ find_actor g a = None) ∧
  (len (peers g) < 254 → is_valid r.2 = true) ∧
  (is_valid r.2 = true →
     peer r.2 = Some p ∧ node_ok r.2 ∧ find_actor g (actor_id r.2) = None) ∧
  (∃ n, r.1 = g <| last_actor_id := n |>).
Proof.
  intros Hok Hu. cbn zeta. unfold create_peer.
  cbn [mbind option_bind]. rewrite Hu.
  destruct (alloc_actor_spec (Z.to_nat 254) g (ok_last _ Hok)) as (l & E & Hl & Hcase).
  destruct (alloc_actor (Z.to_nat 254) g) as [g' a]. cbn [fst snd] in *. subst g'.
  destruct Hcase as [[-> Hall]|(-> & Hl1 & Hf)].
  - assert (¬ ∃ a, 1 ≤ a ≤ 254 ∧ find_actor g a = None) as Hno.
    { intros (a & Ha & Hf). destruct (probe_surj (last_actor_id g) a Ha) as (k & Hk & <-).
      by apply (Hall k). }
    assert (is_valid (mkGamePeer (Some p) (Some (self (g <| last_actor_id := l |>))) 0 ∅
              default_groups true) = false) as -> by done.
    split; [|split; [|split; [|by eexists]]].
    + split; [done|by intros ?].
    + intros Hlt. exfalso. pose proof (actors_exhausted g) as Hex.
      assert (254 ≤ len (peers g)); [|lia]. apply Hex. intros a Ha Hfa. eauto.
    + done.
  - assert (∀ pr, is_valid (mkGamePeer (Some p) (Some (self (g <| last_actor_id := l |>))) l
              pr default_groups true) = true) as Hv.
    { intros pr. unfold is_valid. cbn. apply Z.ltb_lt. lia. }
    rewrite Hv. cbn [fst snd].
    assert (∀ f, is_valid (mkGamePeer (Some p) (Some (self (g <| last_actor_id := l |>))) l
              ∅ default_groups true <| actor_props := f |>) = true) as Hv' by (intros; apply Hv).
    rewrite Hv'. split; [split; [intros _; exists l; split; [lia|done]|done]|].
    split; [done|]. split; [|by eexists]. intros _. upd. split; [done|].
    split; [split; [done|]|done]. upd. cbn [actor_id]. lia.
Qed.

(** C10: An authenticated peer gets a node exactly when one of the actor
    numbers 1 to 254 is free, in particular whenever fewer than 254 nodes are
    in the room; the number is then free and the room only remembers where the
    search stopped. *)
Theorem create_peer_finds_actor env g p u :
  game_ok g → peer_user env p = Some u →
  let r := create_peer env g (Some p) in
  (is_valid r.2 = true ↔ ∃ a, 1 ≤ a ≤ 254 ∧ find_actor g a = None) ∧
  (len (peers g) < 254 → is_valid r.2 = true) ∧
  (is_valid r.2 = true →
     peer r.2 = Some p ∧ node_ok r.2 ∧ find_actor g (actor_id r.2) = None) ∧
  (∃ n, r.1 = g <| last_actor_id := n |>).
Proof. apply create_peer_effect. Qed.

(** ** Capacity *)

(** Members, placeholders for remote members and reservations. *)
Definition occupancy g : Z :=
  len (peers g) + dummy_peer_count g + Z.of_nat (size (expected_users g)).

(** The bounds [validate_join] enforces. *)
Definition within_capacity (s : AppSettings) g : Prop :=
  occupancy g ≤ 254 ∧ (0 < max_peers g → occupancy g ≤ max_peers g) ∧
  (max_peers_per_game s ≠ 0 → occupancy g ≤ max_peers_per_game s).

Lemma remove_expected_size g u :
  expected_users (remove_expected_user g u) = expected_users g ∖ {[u]} ∧
  peers (remove_expected_user g u) = peers g ∧
  dummy_peer_count (remove_expected_user g u) = dummy_peer_count g ∧
  max_peers (remove_expected_user g u) = max_peers g.
Proof.
  unfold remove_expected_user, note_removed.
  destruct (_ !! u); [destruct (_ && _)|]; by upd.
Qed.

(** Reserving a list of users, as the join handlers do. *)
Definition reserve_users (l : list string) (ttl : Z) g : Game :=
  foldl (λ g u, (reserve_expected_user_with_generation g u ttl).1.1) g l.

Lemma reserve_users_spec l ttl g :
  peers (reserve_users l ttl g) = peers g ∧
  dummy_peer_count (reserve_users l ttl g) = dummy_peer_count g ∧
  max_peers (reserve_users l ttl g) = max_peers g ∧
  expected_users (reserve_users l ttl g) =
    expected_users g ∪ list_to_set (filter (λ u, u ≠ EmptyString) l).
Proof.
  revert g. induction l as [|u l IH]; intros g; cbn [reserve_users foldl].
  { repeat split; try done. set_solver. }
  fold (reserve_users l ttl (reserve_expected_user_with_generation g u ttl).1.1).
  destruct (IH (reserve_expected_user_with_generation g u ttl).1.1) as (-> & -> & -> & ->).
  pose proof (reserve_same_room g u ttl) as Hs.
  split; [exact (f_equal peers Hs)|]. split; [exact (f_equal dummy_peer_count Hs)|].
  split; [exact (f_equal max_peers Hs)|]. rewrite filter_cons.
  destruct (reserve_expected g u ttl) as
    [(_ & -> & _ & [-> |Hu])|(n & _ & _ & Hne & Hnu & _ & -> & _)].
  - rewrite decide_False by tauto. done.
  - destruct (decide _); set_solver.
  - rewrite decide_True by done. set_solver.
Qed.

(** What [validate_join] lets through fits. *)
Definition fits (s : AppSettings) g (total : Z) : Prop :=
  total ≤ 254 ∧ (0 < max_peers g → total ≤ max_peers g) ∧
  (max_peers_per_game s ≠ 0 → total ≤ max_peers_per_game s).

Lemma validate_join_fits s env g u news allow :
  validate_join s env g u news allow = Ok →
  fits s g (occupancy g + (if bool_decide (u ∈ expected_users g) then 0 else 1)
            + Z.of_nat (size (unique_expected g u news))).
Proof.
  unfold validate_join, validate_join_count.
  destruct (negb (is_created g) && _); [done|]. destruct (negb (is_open g)); [done|].
  set (n := Z.of_nat (size (unique_expected g u news))). unfold fits, occupancy.
  set (k := if bool_decide _ then 0 else 1). rewrite Z.add_assoc.
  destruct (_ && _) eqn:Hmax; [done|]. destruct (negb _ && _) eqn:Happ; [done|].
  destruct (Z.ltb_spec 254 (len (peers g) + dummy_peer_count g +
    Z.of_nat (size (expected_users g)) + k + n)); [done|]. intros _.
  split; [lia|]. apply andb_false_iff in Hmax, Happ. rewrite negb_false_iff in Happ.
  rewrite !Z.ltb_ge in *. lia.
Qed.

Lemma fits_weaken s g g' total :
  fits s g total → max_peers g' = max_peers g → occupancy g' ≤ total → within_capacity s g'.
Proof. unfold fits, within_capacity. intros ? ->. lia. Qed.

(** The room after an accepted join, with the users the peer brings along. *)
Lemma join_fits s env g g' u news allow :
  validate_join s env g u news allow = Ok →
  len (peers g') = len (peers g) + 1 →
  dummy_peer_count g' = dummy_peer_count g → max_peers g' = max_peers g →
  expected_users g' = (expected_users g ∖ {[u]}) ∪ unique_expected g u news →
  within_capacity s g'.
Proof.
  intros Hv Ep Ed Em Eu'. apply validate_join_fits in Hv.
  apply (fits_weaken _ _ _ _ Hv Em). unfold occupancy. rewrite Ep, Ed, Eu'.
  pose proof (size_union_alt (expected_users g ∖ {[u]}) (unique_expected g u news)).
  assert (size (unique_expected g u news ∖ (expected_users g ∖ {[u]})) ≤
          size (unique_expected g u news))%nat by (apply subseteq_size; set_solver).
  case_bool_decide as Hb.
  - pose proof (size_difference (expected_users g) {[u]}) as Hd.
    rewrite size_singleton in Hd. specialize (Hd ltac:(set_solver)).
    assert (size (expected_users g) ≠ 0)%nat by (intros E%size_empty_inv; set_solver). lia.
  - assert (size (expected_users g ∖ {[u]}) ≤ size (expected_users g))%nat
      by (apply subseteq_size; set_solver). lia.
Qed.

(** The room with the user and those it brings along expected. *)
Lemma reservation_fits s env g g' u news allow :
  validate_join s env g u news allow = Ok →
  peers g' = peers g → dummy_peer_count g' = dummy_peer_count g → max_peers g' = max_peers g →
  expected_users g' ⊆ {[u]} ∪ expected_users g ∪ unique_expected g u news →
  within_capacity s g'.
Proof.
  intros Hv Ep Ed Em Eu. apply validate_join_fits in Hv.
  apply (fits_weaken _ _ _ _ Hv Em). unfold occupancy. rewrite Ep, Ed.
  apply subseteq_size in Eu.
  pose proof (size_union_alt ({[u]} ∪ expected_users g) (unique_expected g u news)).
  assert (size (unique_expected g u news ∖ ({[u]} ∪ expected_users g)) ≤
          size (unique_expected g u news))%nat by (apply subseteq_size; set_solver).
  case_bool_decide as Hb.
  - replace ({[u]} ∪ expected_users g) with (expected_users g) in * by set_solver. lia.
  - rewrite (size_union {[u]}) in * by set_solver. rewrite size_singleton in *. lia.
Qed.

(** ** User ids *)

(** The live authenticated members have distinct user ids. *)
Definition member_users env g : list string :=
  omap (λ gp, lock env (peer gp) ≫= peer_user env) (peers g).

Lemma user_joined_spec env g u :
  user_joined env g u = true ↔ u ∈ member_users env g.
Proof.
  unfold user_joined, member_users. rewrite existsb_exists, list_elem_of_omap. split.
  - intros (gp & Hin%list_elem_of_In & Hu). exists gp. split; [done|].
    destruct (_ ≫= _); [|done]. bools. congruence.
  - intros (gp & Hin & Hu). exists gp. rewrite <-list_elem_of_In. split; [done|].
    rewrite Hu. by apply bool_decide_eq_true.
Qed.

Lemma emplace_users env g gp u :
  lock env (peer gp) ≫= peer_user env = Some u →
  member_users env (emplace_peer g gp u).1 = member_users env g ++ [u].
Proof.
  intros Hu. unfold emplace_peer, member_users. cbn [fst].
  destruct (remove_expected_size (g <| peers ::= λ l, l ++ [gp <| owner_game := Some (self g) |>] |>) u)
    as (_ & -> & _). upd. rewrite omap_app. f_equal.
  cbn [omap list_omap]. upd. by rewrite Hu.
Qed.

(** While a room checks users on join, admitting a peer never gives two
    live members the same user id, whether it joins normally or creates the
    room. *)
Theorem admission_keeps_users_distinct env g gp owner n :
  has_flag (flags g) CheckUserOnJoin = true →
  NoDup (member_users env g) →
  NoDup (member_users env (add_peer env g gp).1) ∧
  NoDup (member_users env (add_peer_for_creation env g gp owner n).1).
Proof.
  intros Hf Hnd.
  assert (∀ u, lock env (peer gp) ≫= peer_user env = Some u →
    user_joined env g u = false →
    NoDup (member_users env (emplace_peer g gp u).1)) as Hem.
  { intros u Hu Hj. rewrite (emplace_users _ _ _ _ Hu). apply NoDup_app.
    split; [done|]. split; [|apply NoDup_singleton].
    intros v Hv. rewrite list_elem_of_singleton. intros ->.
    apply user_joined_spec in Hv. congruence. }
  unfold add_peer, add_peer_for_creation. rewrite Hf. cbn [andb]. split.
  - destruct (_ && _); [done|]. destruct (_ ≫= _) as [u|] eqn:Hu; [|done].
    destruct (bool_decide _); [done|]. destruct (user_joined env g u) eqn:Hj; [done|].
    by apply Hem.
  - destruct (negb _); [done|]. destruct (_ ≫= _) as [u|] eqn:Hu; [|done].
    destruct (_ || _); [done|]. destruct (user_joined env g u) eqn:Hj; [done|].
    by apply Hem.
Qed.

(** A peer is inserted exactly when the room is not waiting for its first
    creation, the peer is alive and authenticated, its actor number is free
    and, if the room checks users, its user is not a member yet; the node is
    then appended and the user's reservation consumed, and otherwise the room
    is unchanged. *)
Theorem add_peer_spec env g gp :
  let r := add_peer env g gp in
  (is_Some r.2 ↔
     ¬ (is_creating g = true ∧ is_created g = false) ∧
     (∃ u, lock env (peer gp) ≫= peer_user env = Some u ∧
        (has_flag (flags g) CheckUserOnJoin = true → u ∉ member_users env g)) ∧
     find_actor g (actor_id gp) = None) ∧
  (r.2 = None → r.1 = g) ∧
  (∀ node, r.2 = Some node →
     node = gp <| owner_game := Some (self g) |> ∧
     peers r.1 = peers g ++ [node] ∧
     ∃ u, lock env (peer gp) ≫= peer_user env = Some u ∧
          expected_users r.1 = expected_users g ∖ {[u]}).
Proof.
  cbn zeta. unfold add_peer.
  destruct (is_creating g && negb (is_created g)) eqn:Hc; cbn [fst snd].
  { apply andb_prop in Hc as [Hc1 Hc2]. apply negb_true_iff in Hc2.
    split; [|done]. split; [by intros [? ?]|]. intros [Hn _]. by destruct Hn. }
  assert (¬ (is_creating g = true ∧ is_created g = false)) as Hnc.
  { intros [E1 E2]. by rewrite E1, E2 in Hc. }
  destruct (lock env (peer gp) ≫= peer_user env) as [u|] eqn:Hu; cbn [fst snd].
  2: { split; [|done]. split; [by intros [? ?]|]. by intros (_ & (? & ? & _) & _). }
  destruct (bool_decide (is_Some (find_actor g (actor_id gp)))) eqn:Hf; bools; cbn [fst snd].
  { split; [|done]. split; [by intros [? ?]|]. intros (_ & _ & E).
    rewrite E in Hf. by destruct Hf. }
  apply eq_None_not_Some in Hf.
  destruct (has_flag (flags g) CheckUserOnJoin && user_joined env g u) eqn:Hj; cbn [fst snd].
  { apply andb_prop in Hj as [Hj1 Hj2%user_joined_spec].
    split; [|done]. split; [by intros [? ?]|].
    intros (_ & (v & [= <-] & Hv) & _). by apply Hv in Hj1. }
  split.
  - split; [|by eexists]. intros _. split; [done|]. split; [|done].
    exists u. split; [done|]. intros Hfl. rewrite <-user_joined_spec.
    rewrite Hfl in Hj. cbn in Hj. congruence.
  - split; [done|]. intros node [= <-].
    destruct (remove_expected_size
      (g <| peers ::= λ l, l ++ [gp <| owner_game := Some (self g) |>] |>) u) as (E1 & E2 & _).
    split; [done|]. unfold emplace_peer. cbn [fst]. rewrite E1, E2. upd.
    split; [done|]. by exists u.
Qed.

(** ** Departure *)

Lemma remove_peer_effect env g p :
  game_ok g →
  let r := remove_peer env g (Some p) in
  let own := own_nodes env p (peers g) in
  let rest := kept env p (peers g) in
  peers r.1.1 = rest ∧
  retired_peers r.1.1 =
    retired_peers g ++ (deactivate <$> taken env p (peers g)) ∧
  event_cache r.1.1 = remove_if (purged g own) (event_cache g) ∧
  r.1.2 = bool_decide (own ≠ []) ∧
  master_actor r.1.1 =
    match last own, rest with
    | Some gp, front :: _ =>
        if actor_id gp =? master_actor g then actor_id front else master_actor g
    | _, _ => master_actor g
    end ∧
  r.2 = (if bool_decide (own ≠ [] ∧ rest = [] ∧ 0 < empty_game_ttl g)
         then [Schedule (empty_game_ttl g) KeepGameAlive] else []).
Proof.
  intros Hok. cbn zeta. unfold remove_peer. rewrite remove_loop_spec by lia.
  set (own := own_nodes env p (peers g)).
  assert (peers (removed_state env p g) = kept env p (peers g)) as -> by done.
  assert (empty_game_ttl (removed_state env p g) = empty_game_ttl g) as -> by done.
  assert (master_actor (removed_state env p g) = master_actor g) as -> by done.
  destruct (last own) as [gp|] eqn:Hl.
  - assert (own ≠ []) as Hne by (intros E; by rewrite E in Hl).
    assert (actor_id gp ≠ 0) as Ha0.
    { apply last_Some_elem_of in Hl.
      apply list_elem_of_filter in Hl as [_ Hin].
      pose proof (ok_nodes _ Hok) as Hn. rewrite Forall_forall in Hn.
      destruct (Hn gp Hin). lia. }
    rewrite fmap_last, Hl. cbn [fmap option_fmap option_map default from_option Datatypes.id].
    apply Z.eqb_neq in Ha0 as ->.
    rewrite (bool_decide_eq_true_2 (own ≠ [])) by done.
    destruct (kept env p (peers g)) as [|front rest] eqn:Hk; cbn [fst snd].
    + split; [done|]. split; [done|]. split; [done|]. split; [done|]. split; [done|].
      destruct (Z.ltb_spec 0 (empty_game_ttl g));
        [rewrite bool_decide_eq_true_2 by done|rewrite bool_decide_eq_false_2 by lia || (intros (_&_&?); lia)];
        done.
    + rewrite (bool_decide_eq_false_2 (_ ∧ _ ∧ _)) by (by intros (_ & ? & _)).
      by destruct (actor_id gp =? master_actor g).
  - apply last_None in Hl. rewrite Hl. cbn [fmap list_fmap last default from_option Z.eqb fst snd].
    rewrite (bool_decide_eq_false_2 ([] ≠ [])) by (intros ?; done).
    rewrite (bool_decide_eq_false_2 (_ ∧ _ ∧ _)) by (by intros (? & _)).
    split; [done|]. split; [done|]. split; [|done].
    change (remove_if (purged g own) (event_cache g) = remove_if (purged g []) (event_cache g)).
    by rewrite Hl.
Qed.

(** C4: Removing a peer retires exactly its nodes and those whose peers are
    gone, keeping the others in order; it purges the events of the leaving
    actors when the room deletes them on leave, reports whether the peer was
    a member, hands a leaving master's role to the first remaining node, and
    keeps an empty room alive for its configured time. *)
Theorem remove_peer_spec env g p :
  game_ok g →
  let r := remove_peer env g (Some p) in
  let own := own_nodes env p (peers g) in
  let rest := kept env p (peers g) in
  peers r.1.1 = rest ∧
  retired_peers r.1.1 =
    retired_peers g ++ (deactivate <$> taken env p (peers g)) ∧
  event_cache r.1.1 = remove_if (purged g own) (event_cache g) ∧
  r.1.2 = bool_decide (own ≠ []) ∧
  master_actor r.1.1 =
    match last own, rest with
    | Some gp, front :: _ =>
        if actor_id gp =? master_actor g then actor_id front else master_actor g
    | _, _ => master_actor g
    end ∧
  r.2 = (if bool_decide (own ≠ [] ∧ rest = [] ∧ 0 < empty_game_ttl g)
         then [Schedule (empty_game_ttl g) KeepGameAlive] else []).
Proof. apply remove_peer_effect. Qed.

(** When the leaving peer is not the master but the master's peer has
    silently gone, its node is retired with the leaver and the master role
    keeps naming an actor that is no longer in the room. *)
Theorem stale_master_left_dangling env g p m l r rest :
  game_ok g →
  peers g = m :: l :: r :: rest →
  master_actor g = actor_id m →
  lock env (peer m) = None → lock env (peer l) = Some p →
  (∀ gp, gp ∈ r :: rest → gone env p gp = false) →
  let g' := (remove_peer env g (Some p)).1.1 in
  peers g' = r :: rest ∧ master_actor g' = actor_id m ∧
  find_actor g' (master_actor g') = None.
Proof.
  intros Hok Hp Hm Hlm Hll Hr. cbn zeta.
  destruct (remove_peer_effect env g p Hok) as (Ep & _ & _ & _ & Em & _).
  destruct (none_gone env p (r :: rest) Hr) as (K & _ & O).
  assert (gone env p m = true) as Hgm.
  { unfold gone. by rewrite Hlm, orb_true_r. }
  assert (leaves env p m = false) as Hlem.
  { unfold leaves. rewrite Hlm. by apply bool_decide_eq_false. }
  assert (leaves env p l = true) as Hlel.
  { unfold leaves. rewrite Hll. by apply bool_decide_eq_true. }
  assert (gone env p l = true) as Hgl by (unfold gone; by rewrite Hlel).
  assert (kept env p (peers g) = r :: rest) as Ek.
  { rewrite Hp. unfold kept, remove_if in *.
    rewrite !(filter_cons_False _ _ (_ :: _)) by congruence. exact K. }
  assert (own_nodes env p (peers g) = [l]) as Eo.
  { rewrite Hp. unfold own_nodes in *.
    rewrite filter_cons_False by congruence.
    rewrite filter_cons_True by done. by rewrite O. }
  rewrite Ek in Ep. rewrite Ek, Eo in Em. cbn [last] in Em.
  pose proof (ok_actors _ Hok) as Hnd. rewrite Hp in Hnd.
  rewrite fmap_cons in Hnd. apply NoDup_cons in Hnd as [Hnm _].
  assert (actor_id l ≠ master_actor g) as Hne.
  { rewrite Hm. intros E. apply Hnm, list_elem_of_fmap. exists l. split; [done|left]. }
  apply Z.eqb_neq in Hne. rewrite Hne in Em. rewrite Em, Hm.
  split; [done|]. split; [done|]. apply find_actor_None.
  intros gp Hgp _ E. rewrite Ep in Hgp. apply Hnm, list_elem_of_fmap.
  exists gp. split; [done|by right].
Qed.

Lemma alloc_actor_hit n g a :
  a = (if 254 <=? last_actor_id g then 0 else last_actor_id g) + 1 →
  find_actor g a = None → alloc_actor (S n) g = (g <| last_actor_id := a |>, a).
Proof.
  intros -> Hf. cbn [alloc_actor].
  assert (∀ l a, find_actor (g <| last_actor_id := l |>) a = find_actor g a) as -> by done.
  by rewrite Hf.
Qed.

(** [create_peer] hands out actor number 254, but the rejoin path
    [create_peer_for_actor] refuses to restore it. *)
Theorem last_actor_cannot_rejoin env g p u :
  game_ok g → peer_user env p = Some u →
  last_actor_id g = 253 → find_actor g 254 = None →
  actor_id (create_peer env g (Some p)).2 = 254 ∧
  create_peer_for_actor env g (Some p) 254 = no_game_peer.
Proof.
  intros _ Hu Hl Hf. unfold create_peer, create_peer_for_actor.
  cbn [mbind option_bind]. rewrite Hu. split; [|done].
  replace (Z.to_nat 254) with (S 253) by reflexivity.
  rewrite (alloc_actor_hit 253 g 254) by (rewrite ?Hl; done). reflexivity.
Qed.
End admission.
