(* ===== verification/ForeignBuffers.v ===== *)
(** * What crosses the foreign interface

    Models the parts of [ffi.cpp] that move data between the server and a
    plugin written in another language: the exception boundary, byte arrays,
    texts and lists written into a buffer of the caller, and the words of an
    interest-group mask.  A buffer is the list of its cells; writing outside
    of it is [None]. *)

From S2P Require Import Prelude Types.
Open Scope Z_scope.

Abbreviation Bytes := (list Z).

(** The bytes of a [std::string]. *)
Definition bytes_of (s : string) : Bytes := code_of <$> String.list_ascii_of_string s.

(** ** The exception boundary *)

(** A C++ function that may throw: a [std::exception], with the name of its
    type and its text, or something else. *)
Inductive Exn := StdException (type_name what : string) | OtherException.
Abbreviation throwing A := (fallible Exn A).

(** <src/ffi.cpp:60-62 t_has_error>
    The thread's error. *)
Record FfiError := mkFfiError {
  t_has_error : bool;
  t_last_error_type : string;
  t_last_error_msg : string;
}.

(** <src/ffi.cpp:64-68 set_ffi_error>
    Neither argument is null here. *)
Definition set_ffi_error (type_name msg : string) : FfiError := mkFfiError true type_name msg.

(** <src/ffi.cpp:70-74 clear_ffi_error> *)
Definition clear_ffi_error : FfiError := mkFfiError false EmptyString EmptyString.

(** <src/ffi.cpp:77-88 ffi_safe_call> (also [ffi_safe_exec], lines 91-100, and
    [luxonClearLastError], line 486)
    The result handed out, with the thread's error after the call. *)
Definition ffi_safe_call {A} (default_val : A) (func : throwing A) : A * FfiError :=
  match func with
  | inl x => (x, clear_ffi_error)
  | inr (StdException t m) => (default_val, set_ffi_error t m)
  | inr OtherException => (default_val, set_ffi_error "unknown" "Non-standard exception thrown")
  end.

(** <src/ffi.cpp:480-480 luxonHasError> *)
Definition luxonHasError (e : FfiError) : bool := t_has_error e.

(** An error is pending after a call through the boundary exactly when it
    threw, whatever was pending before; the result is then the default. *)
Lemma ffi_safe_call_spec {A} (d : A) f :
  match f with
  | inl x => ffi_safe_call d f = (x, clear_ffi_error)
  | inr _ => (ffi_safe_call d f).1 = d ∧ luxonHasError (ffi_safe_call d f).2 = true
  end.
Proof. by destruct f as [|[]]. Qed.

(** ** Writing into a buffer *)

Section buffers.
Context {A : Type}.
Implicit Types (buf src : list A).

(** [std::memcpy(buf + off, src, |src|)] *)
Definition blit buf (off : nat) src : option (list A) :=
  if decide (off + length src ≤ length buf)%nat
  then Some (take off buf ++ src ++ drop (off + length src) buf) else None.

Lemma blit_Some buf off src :
  (off + length src ≤ length buf)%nat →
  blit buf off src = Some (take off buf ++ src ++ drop (off + length src) buf).
Proof. intros. unfold blit. by rewrite decide_True. Qed.

Lemma blit_length buf off src buf' : blit buf off src = Some buf' → length buf' = length buf.
Proof.
  unfold blit. destruct (decide _); [|done]. intros [= <-].
  rewrite !length_app, length_take, length_drop. lia.
Qed.

(** Filling a buffer from its start, piece by piece. *)
Lemma blit_next pre rest src :
  (length src ≤ length rest)%nat →
  blit (pre ++ rest) (length pre) src = Some (pre ++ src ++ drop (length src) rest).
Proof.
  intros. rewrite blit_Some by (rewrite length_app; lia).
  by rewrite take_app_length, drop_app_add.
Qed.
End buffers.

(** ** Byte arrays *)

Section byte_arrays.
(** The width of [ffi_size_t], and the most a [ByteArray] can hold. *)
Context (size_bits max_size : Z).
Hypothesis (Hmax : 0 < max_size < 2 ^ size_bits).

(** <src/ffi.cpp:545-557 copyFromByteArray>
    A handle is a [ByteArray] or null. *)
Definition copyFromByteArray (val : option Bytes) (out_buf : Bytes) (max_len : nat) :
    option (Bytes * nat) :=
  match val with
  | None => Some (out_buf, 0%nat)
  | Some array =>
      let copy_len := Nat.min (length array) max_len in
      out_buf ← blit out_buf 0 (take copy_len array);
      Some (out_buf, copy_len)
  end.

(** <src/ffi.cpp:559-567 appendToByteArray> *)
Definition appendToByteArray (val : option Bytes) (buf : Bytes) : option Bytes :=
  (λ array, array ++ buf) <$> val.

(** <src/ffi.cpp:569-578 copyToByteArray> *)
Definition copyToByteArray (val : option Bytes) (buf : Bytes) : option Bytes :=
  (λ _, buf) <$> val.

(** <src/ffi.cpp:580-584 getByteArraySize> *)
Definition getByteArraySize (val : option Bytes) : Z :=
  match val with Some array => len array | None => 0 end.

(** <src/ffi.cpp:592-595 pushToByteArray> *)
Definition pushToByteArray (val : option Bytes) (byte : Z) : option Bytes :=
  (λ array, array ++ [byte]) <$> val.

(** <src/ffi.cpp:597-602 getInByteArray> *)
Definition getInByteArray (val : option Bytes) (index : Z) : Z :=
  match val with
  | Some array => if index <? len array then default 0 (array !! Z.to_nat index) else 0
  | None => 0
  end.

(** What a write ends in: the array, an exception, which no boundary catches
    here, or a write outside of the array. *)
Inductive ArrayResult := Written (array : Bytes) | LengthError | OutOfBounds.

(** [std::vector::resize] *)
Definition resize (array : Bytes) (n : Z) : ArrayResult :=
  if max_size <? n then LengthError
  else Written (take (Z.to_nat n) array ++ replicate (Z.to_nat n - length array) 0).

(** [array->operator[](index) = byte] *)
Definition assign (array : Bytes) (index byte : Z) : ArrayResult :=
  if index <? len array then Written (<[Z.to_nat index := byte]> array) else OutOfBounds.

(** <src/ffi.cpp:604-610 setInByteArray>
    Of an array that is there; a null handle is ignored. *)
Definition setInByteArray (array : Bytes) (index byte : Z) : ArrayResult :=
  match (if len array <=? index then resize array (wrap size_bits (index + 1))
         else Written array) with
  | Written array => assign array index byte
  | r => r
  end.

(** Setting a byte within what an array can hold sets that byte, fills the
    gap up to it with zeros, and keeps every other one. *)
Lemma set_get_byte array index byte :
  len array ≤ max_size → 0 ≤ index < max_size →
  ∃ array', setInByteArray array index byte = Written array' ∧
    len array' = Z.max (len array) (index + 1) ∧
    ∀ j, 0 ≤ j → getInByteArray (Some array') j =
      if j =? index then byte else getInByteArray (Some array) j.
Proof.
  intros Hl Hi. unfold setInByteArray, resize. rewrite wrap_small by lia.
  set (grown := array ++ replicate (Z.to_nat (index + 1) - length array) 0).
  assert (∀ a, a = grown ∨ a = array → index < len a →
    ∀ j, 0 ≤ j → getInByteArray (Some (<[Z.to_nat index := byte]> a)) j =
      if j =? index then byte else getInByteArray (Some array) j) as Hget.
  { intros a Ha Hlt j Hj. unfold getInByteArray. rewrite length_insert.
    destruct (Z.eqb_spec j index) as [->|Hne].
    { rewrite (proj2 (Z.ltb_lt _ _)) by done. by rewrite list_lookup_insert_eq by lia. }
    rewrite list_lookup_insert_ne by lia. destruct Ha as [-> | ->]; [|done].
    unfold grown in *. rewrite length_app, length_replicate in *.
    destruct (Z.ltb_spec j (len array)) as [Hja|Hja].
    - rewrite (proj2 (Z.ltb_lt _ _)) by lia. by rewrite lookup_app_l by lia.
    - destruct (_ <? _) eqn:E; [|done]. bools.
      by rewrite lookup_app_r, lookup_replicate_2 by lia. }
  destruct (Z.leb_spec (len array) index) as [Hg|Hg].
  - rewrite (proj2 (Z.ltb_ge _ _)) by lia. rewrite take_ge by lia. fold grown.
    assert (len grown = index + 1) as Eg
      by (unfold grown; rewrite length_app, length_replicate; lia).
    unfold assign. rewrite (proj2 (Z.ltb_lt _ _)) by lia.
    eexists. split; [done|]. rewrite length_insert. split; [lia|].
    apply Hget; [by left|lia].
  - unfold assign. rewrite (proj2 (Z.ltb_lt _ _)) by done.
    eexists. split; [done|]. rewrite length_insert. split; [lia|].
    apply Hget; [by right|done].
Qed.

(** The largest index there is wraps the new size to 0: the array is emptied
    and the byte written outside of it. *)
Lemma set_last_index array byte :
  len array ≤ max_size → setInByteArray array (2 ^ size_bits - 1) byte = OutOfBounds.
Proof.
  intros Hl. unfold setInByteArray, resize.
  rewrite (proj2 (Z.leb_le _ _)) by lia.
  replace (2 ^ size_bits - 1 + 1) with (2 ^ size_bits) by lia.
  replace (wrap size_bits (2 ^ size_bits)) with 0 by (unfold wrap; rewrite Z_mod_same_full; done).
  rewrite (proj2 (Z.ltb_ge _ _)) by lia. change (Z.to_nat 0) with 0%nat.
  unfold assign. rewrite take_0, Nat.sub_0_l. cbn [replicate app length].
  by rewrite (proj2 (Z.ltb_ge _ _)) by lia.
Qed.

(** Bytes copied into an array and out again are the same. *)
Lemma copy_roundtrip array buf out :
  (length buf ≤ length out)%nat →
  copyFromByteArray (copyToByteArray (Some array) buf) out (length out) =
  Some (buf ++ drop (length buf) out, length buf).
Proof.
  intros Hl. cbn. rewrite Nat.min_l by done. rewrite take_ge by done.
  pose proof (blit_next [] out buf Hl) as E. cbn in E. by rewrite E.
Qed.
End byte_arrays.

(** ** Texts *)

Section texts.
Implicit Types (out : Bytes) (max_len : nat) (s : string).

(** <src/ffi.cpp:1144-1146 gameGetId> (also lines 1460-1462)
    What fits of a text, and a terminator. *)
Definition copy_truncated s out max_len : option Bytes :=
  let n := Nat.min (max_len - 1) (String.length s) in
  out ← blit out 0 (take n (bytes_of s));
  blit out n [0].

(** <src/ffi.cpp:1139-1154 gameGetId>
    Of a room's id, or of a null handle; nothing throws. *)
Definition gameGetId (id : option string) out max_len : option Bytes :=
  if (max_len =? 0)%nat then Some out
  else match id with
  | Some id => copy_truncated id out max_len
  | None => blit out 0 [0]
  end.

(** <src/ffi.cpp:1445-1470 gameValidateJoin>
    [res] is what the room's [validate_join] returns; [out_err_code] and
    [out_err_str] may be null. *)
Definition gameValidateJoin (res : Z * string) (out_err_code : option Z)
    (out_err_str : option Bytes) max_len : option (bool * option Z * option Bytes) :=
  let out_err_code := (λ _, res.1) <$> out_err_code in
  match out_err_str with
  | Some out =>
      if (max_len =? 0)%nat then Some (res.1 =? 0, out_err_code, Some out)
      else
        out ← (if negb (res.1 =? 0) then copy_truncated res.2 out max_len else blit out 0 [0]);
        Some (res.1 =? 0, out_err_code, Some out)
  | None => Some (res.1 =? 0, out_err_code, None)
  end.

(** <src/ffi.cpp:1849-1866 serverManagerGetEndpointOf>
    [ep] is the address chosen, unless the handle is null. *)
Definition serverManagerGetEndpointOf (ep : option string) out max_len : option (bool * Bytes) :=
  if (max_len =? 0)%nat then Some (false, out)
  else match ep with
  | None => Some (false, out)
  | Some ep =>
      if (max_len <=? String.length ep)%nat then Some (false, out)
      else
        out ← blit out 0 (bytes_of ep);
        out ← blit out (String.length ep) [0];
        Some (true, out)
  end.

(** ** Lists *)

(** <src/ffi.cpp:1665-1671 lobbyQueryLobbies>
    From [cur] on; [None] in the result when the buffer is too small. *)
Fixpoint pack_strings (vec : list string) out max_len (cur : nat) :
    option (Bytes * option nat) :=
  match vec with
  | [] => Some (out, Some cur)
  | s :: vec =>
      if (max_len <? cur + String.length s + 1)%nat then Some (out, None)
      else
        out ← blit out cur (bytes_of s);
        let cur := (cur + String.length s)%nat in
        out ← blit out cur [0];
        pack_strings vec out max_len (cur + 1)
  end.

(** <src/ffi.cpp:1655-1679 lobbyQueryLobbies>
    [vec] is what the lobby's query found; the result is what is put in
    [*out_written], or [None] for the return value [false]. *)
Definition lobbyQueryLobbies (vec : list string) out max_len : option (Bytes * option nat) :=
  '(out, r) ← pack_strings vec out max_len 0;
  match r with
  | None => Some (out, None)
  | Some cur =>
      if bool_decide (vec = []) && (0 <? max_len)%nat then
        out ← blit out 0 [0]; Some (out, Some 1%nat)
      else Some (out, Some cur)
  end.

(** <src/ffi.cpp:1080-1085 eventGetReceiversActors> *)
Fixpoint pack_actors (ids : list Z) (out : list Z) (max_count cur : nat) :
    option (list Z * nat) :=
  match ids with
  | [] => Some (out, cur)
  | a :: ids =>
      if (max_count <=? cur)%nat then Some (out, cur)
      else out ← blit out cur [a]; pack_actors ids out max_count (S cur)
  end.
End texts.

(** What a reader takes from a buffer: the text up to the terminator, and the
    texts of a buffer of terminated texts. *)
Fixpoint c_text (buf : Bytes) : option Bytes :=
  match buf with
  | [] => None
  | b :: buf => if b =? 0 then Some [] else (b ::.) <$> c_text buf
  end.

Fixpoint c_texts (acc buf : Bytes) : list Bytes :=
  match buf with
  | [] => []
  | b :: buf => if b =? 0 then reverse acc :: c_texts [] buf else c_texts (b :: acc) buf
  end.

Section text_facts.
Implicit Types (out : Bytes) (max_len : nat) (s : string).

Lemma bytes_length s : length (bytes_of s) = String.length s.
Proof. unfold bytes_of. rewrite length_fmap. induction s; cbn; congruence. Qed.

Lemma bytes_inj s1 s2 : bytes_of s1 = bytes_of s2 → s1 = s2.
Proof.
  intros E. apply (f_equal (fmap char_of)) in E. unfold bytes_of in E.
  rewrite !(fmap_inv code_of char_of) in E by apply char_code.
  rewrite <-(String.string_of_list_ascii_of_string s1), E.
  apply String.string_of_list_ascii_of_string.
Qed.

Lemma c_text_app l rest : 0 ∉ l → c_text (l ++ 0 :: rest) = Some l.
Proof.
  induction l as [|b l IH]; [done|]. rewrite not_elem_of_cons. intros [Hb Hl]. cbn.
  destruct (Z.eqb_spec b 0) as [->|]; [done|]. by rewrite (IH Hl).
Qed.

Lemma c_texts_app l acc rest :
  0 ∉ l → c_texts acc (l ++ 0 :: rest) = (reverse acc ++ l) :: c_texts [] rest.
Proof.
  revert acc. induction l as [|b l IH]; intros acc; cbn; [by rewrite app_nil_r|].
  rewrite not_elem_of_cons. intros [Hb Hl]. destruct (Z.eqb_spec b 0) as [->|]; [done|].
  by rewrite (IH _ Hl), reverse_cons, <-(assoc_L (++)).
Qed.

(** A text and its terminator at the start of a buffer they fit into. *)
Lemma blit_text out (l : Bytes) :
  (length l < length out)%nat →
  (o ← blit out 0 l; blit o (length l) [0]) = Some (l ++ 0 :: drop (S (length l)) out).
Proof.
  intros Hl. pose proof (blit_next [] out l ltac:(lia)) as E. cbn [app length] in E.
  rewrite E. cbn [mbind option_bind].
  rewrite (blit_next l (drop (length l) out) [0]) by (rewrite length_drop; cbn; lia).
  do 2 f_equal. cbn [app length]. by rewrite drop_drop, Nat.add_1_r.
Qed.

Lemma copy_truncated_spec s out max_len :
  (0 < max_len ≤ length out)%nat →
  copy_truncated s out max_len =
  Some (take (max_len - 1) (bytes_of s) ++
        0 :: drop (S (Nat.min (max_len - 1) (String.length s))) out).
Proof.
  intros Hm. unfold copy_truncated. rewrite <-bytes_length.
  set (n := Nat.min (max_len - 1) (length (bytes_of s))).
  assert (take n (bytes_of s) = take (max_len - 1) (bytes_of s)) as E.
  { unfold n. destruct (Nat.min_spec (max_len - 1) (length (bytes_of s))) as [[? ->]|[? ->]];
      [done|by rewrite !take_ge by lia]. }
  pose proof (blit_text out (take n (bytes_of s))) as Hb.
  rewrite length_take in Hb. replace (Nat.min n (length (bytes_of s))) with n in Hb by lia.
  rewrite Hb by lia. by rewrite E.
Qed.
End text_facts.

(** ** Nothing is written past the caller's limit *)

Section bounded.
Implicit Types (out : Bytes) (max_len : nat) (s : string).

(** Only the first [max_len] cells may differ. *)
Definition within {A} (max_len : nat) (out out' : list A) : Prop :=
  length out' = length out ∧ drop max_len out' = drop max_len out.

Lemma within_refl {A} n (out : list A) : within n out out.
Proof. done. Qed.

Lemma within_app {A} (pre l rest : list A) n :
  (length pre + length l ≤ n)%nat → (length l ≤ length rest)%nat →
  within n (pre ++ rest) (pre ++ l ++ drop (length l) rest).
Proof.
  intros Hn Hl. split; [rewrite !length_app, length_drop; lia|].
  rewrite !drop_app, drop_drop.
  replace (length l + (n - length pre - length l))%nat with (n - length pre)%nat by lia.
  by rewrite (drop_ge l) by lia.
Qed.

Lemma within_trans {A} n (o1 o2 o3 : list A) : within n o1 o2 → within n o2 o3 → within n o1 o3.
Proof. intros [? ?] [? ?]. split; congruence. Qed.

Lemma text_within out (l : Bytes) max_len :
  (length l < max_len ≤ length out)%nat →
  within max_len out (l ++ 0 :: drop (S (length l)) out).
Proof.
  intros Hl. pose proof (within_app [] (l ++ [0]) out max_len) as Hw.
  rewrite length_app in Hw. cbn [length app Nat.add] in Hw.
  rewrite <-(assoc_L (++)), Nat.add_1_r in Hw. apply Hw; lia.
Qed.

Lemma truncated_bounded s out max_len :
  (0 < max_len ≤ length out)%nat →
  ∃ out', copy_truncated s out max_len = Some out' ∧ within max_len out out' ∧
    (0 ∉ bytes_of s → c_text out' = Some (take (max_len - 1) (bytes_of s))).
Proof.
  intros Hm. rewrite copy_truncated_spec by done. eexists. split; [done|].
  rewrite <-bytes_length, <-length_take. split.
  - apply text_within. rewrite length_take. lia.
  - intros H0. apply c_text_app. intros Hin. apply H0.
    rewrite <-(take_drop (max_len - 1) (bytes_of s)). apply elem_of_app. by left.
Qed.

Lemma nul_bounded out max_len :
  (0 < max_len ≤ length out)%nat →
  ∃ out', blit out 0 [0] = Some out' ∧ within max_len out out' ∧ c_text out' = Some [].
Proof.
  intros Hm. pose proof (blit_next [] out [0] ltac:(cbn; lia)) as E. cbn [app length] in E.
  eexists. split; [exact E|]. split; [|done]. by apply (text_within out []).
Qed.

(** The texts of a list, each with its terminator. *)
Definition packed (vec : list string) : Bytes := mjoin ((λ s, bytes_of s ++ [0]) <$> vec).

Lemma packed_cons s vec : packed (s :: vec) = bytes_of s ++ 0 :: packed vec.
Proof. unfold packed. cbn. by rewrite <-(assoc_L (++)). Qed.

Lemma packed_take k vec : (length (packed (take k vec)) ≤ length (packed vec))%nat.
Proof.
  revert k. induction vec as [|s vec IH]; intros [|k]; cbn [take]; [done..|cbn; lia|].
  rewrite !packed_cons, !length_app. cbn [length]. specialize (IH k). lia.
Qed.

(** Of a list, as many texts are written as fit, each with its terminator. *)
Lemma pack_strings_prefix vec pre rest max_len :
  (length pre ≤ max_len ≤ length (pre ++ rest))%nat →
  ∃ k, (k ≤ length vec)%nat ∧
    (length pre + length (packed (take k vec)) ≤ max_len)%nat ∧
    ((k < length vec)%nat → (max_len < length pre + length (packed (take (S k) vec)))%nat) ∧
    pack_strings vec (pre ++ rest) max_len (length pre) =
    Some (pre ++ packed (take k vec) ++ drop (length (packed (take k vec))) rest,
          if decide (k = length vec) then Some (length pre + length (packed vec))%nat else None).
Proof.
  revert pre rest. induction vec as [|s vec IH]; intros pre rest Hm.
  { exists 0%nat. cbn. rewrite Nat.add_0_r, drop_0. split_and!; [lia|lia|lia|done]. }
  cbn [pack_strings length]. rewrite length_app in Hm.
  destruct (Nat.ltb_spec max_len (length pre + String.length s + 1)) as [Hs|Hs].
  { exists 0%nat. cbn [take]. rewrite decide_False by lia. rewrite packed_cons, length_app.
    cbn [length]. rewrite bytes_length. cbn. rewrite drop_0. split_and!; [lia..|done]. }
  rewrite blit_next by (rewrite bytes_length; lia). cbn [mbind option_bind].
  rewrite (assoc_L (++)), <-(bytes_length s), <-length_app.
  rewrite blit_next by (rewrite length_drop, bytes_length; cbn; lia). cbn [mbind option_bind length].
  rewrite drop_drop, (assoc_L (++) _ [0]), Nat.add_1_r.
  set (pre' := (pre ++ bytes_of s) ++ [0]).
  assert (length pre' = length pre + S (String.length s))%nat as El
    by (unfold pre'; rewrite !length_app, bytes_length; cbn; lia).
  replace (length (pre ++ bytes_of s) + 1)%nat with (length pre')
    by (unfold pre'; rewrite !length_app; cbn; lia).
  destruct (IH pre' (drop (S (length (bytes_of s))) rest)) as (k & Hk & Hfit & Hnext & E).
  { rewrite length_app, length_drop, bytes_length. lia. }
  rewrite E. exists (S k). cbn [take]. rewrite !packed_cons, !length_app. cbn [length].
  rewrite bytes_length. split; [lia|]. split; [lia|]. split.
  { intros Hlt. specialize (Hnext ltac:(lia)). lia. }
  f_equal. f_equal.
  - unfold pre'. rewrite drop_drop, <-!(assoc_L (++)). cbn [app]. do 4 f_equal. f_equal. lia.
  - destruct (decide (k = length vec)), (decide (S k = S (length vec))); try lia; [|done].
    f_equal. lia.
Qed.

(** All of them when all of them fit. *)
Lemma pack_strings_spec vec rest max_len :
  (max_len ≤ length rest)%nat →
  if decide (length (packed vec) ≤ max_len)%nat then
    pack_strings vec rest max_len 0 =
    Some (packed vec ++ drop (length (packed vec)) rest, Some (length (packed vec)))
  else ∃ out', pack_strings vec rest max_len 0 = Some (out', None).
Proof.
  intros Hm. destruct (pack_strings_prefix vec [] rest max_len) as (k & Hk & Hfit & Hnext & E);
    [cbn; lia|]. cbn [app length Nat.add] in *. rewrite E.
  destruct (decide (k = length vec)) as [->|Hne].
  - rewrite take_ge in * by done. by rewrite decide_True.
  - specialize (Hnext ltac:(lia)). pose proof (packed_take (S k) vec).
    rewrite decide_False by lia. eauto.
Qed.

Lemma c_texts_packed vec :
  Forall (λ s, 0 ∉ bytes_of s) vec → c_texts [] (packed vec) = bytes_of <$> vec.
Proof.
  induction 1 as [|s vec Hs _ IH]; [done|].
  rewrite packed_cons, c_texts_app by done. by rewrite IH.
Qed.
End bounded.

Section bounded_theorems.
Implicit Types (out : Bytes) (max_len : nat).

(** C40: Whatever is written for the caller stays within the room the caller gave,
    in a buffer at least that large.  A room's id and an error's text are cut
    to fit and terminated with a NUL; an address is written whole, with its
    NUL, or not at all.  Of the ids a query found as many are written as fit,
    each with its NUL, one after the other; the call succeeds exactly when
    these are all, and then gives their length; with nothing found it writes
    one NUL. *)
Theorem foreign_texts_bounded out max_len :
  (max_len ≤ length out)%nat →
  (∀ id, ∃ out', gameGetId id out max_len = Some out' ∧ within max_len out out' ∧
    ((0 < max_len)%nat → 0 ∉ bytes_of (default EmptyString id) →
     c_text out' = Some (take (max_len - 1) (bytes_of (default EmptyString id))))) ∧
  (∀ res err_code, ∃ out',
    gameValidateJoin res err_code (Some out) max_len =
      Some (res.1 =? 0, (λ _, res.1) <$> err_code, Some out') ∧ within max_len out out' ∧
    ((0 < max_len)%nat → 0 ∉ bytes_of res.2 →
     c_text out' = Some (if res.1 =? 0 then [] else take (max_len - 1) (bytes_of res.2)))) ∧
  (∀ ep, ∃ b out', serverManagerGetEndpointOf ep out max_len = Some (b, out') ∧
    within max_len out out' ∧
    match ep with
    | Some ep => b = (String.length ep <? max_len)%nat ∧
        if b then 0 ∉ bytes_of ep → c_text out' = Some (bytes_of ep) else out' = out
    | None => b = false ∧ out' = out
    end) ∧
  (∀ vec, ∃ out' r, lobbyQueryLobbies vec out max_len = Some (out', r) ∧
    within max_len out out' ∧
    ∃ k, (k ≤ length vec)%nat ∧
      (k = length vec ∨ (max_len < length (packed (take (S k) vec)))%nat) ∧
      let texts := if bool_decide (vec = []) && (0 <? max_len)%nat then [0] else packed (take k vec) in
      take (length texts) out' = texts ∧ drop (length texts) out' = drop (length texts) out ∧
      r = if decide (k = length vec) then Some (length texts) else None).
Proof.
  intros Hm. split; [|split; [|split]].
  - intros id. unfold gameGetId. destruct (Nat.eqb_spec max_len 0) as [->|H0].
    { eexists. split; [done|]. split; [apply within_refl|lia]. }
    destruct id as [id|]; cbn [default].
    + destruct (truncated_bounded id out max_len) as (out' & ? & ? & ?); [lia|]. eauto.
    + destruct (nul_bounded out max_len) as (out' & ? & ? & E); [lia|].
      exists out'. split; [done|]. split; [done|].
      rewrite E. change (bytes_of EmptyString) with ([] : Bytes). by rewrite take_nil.
  - intros res err. unfold gameValidateJoin. destruct (Nat.eqb_spec max_len 0) as [->|H0].
    { eexists. split; [done|]. split; [apply within_refl|lia]. }
    destruct (res.1 =? 0); cbn [negb].
    + destruct (nul_bounded out max_len) as (out' & -> & ? & ?); [lia|]. eauto.
    + destruct (truncated_bounded res.2 out max_len) as (out' & -> & ? & ?); [lia|]. eauto.
  - intros ep. unfold serverManagerGetEndpointOf. destruct (Nat.eqb_spec max_len 0) as [->|H0].
    { exists false, out. split; [done|]. split; [apply within_refl|]. by destruct ep. }
    destruct ep as [ep|]; [|exists false, out; split; [done|]; split; [apply within_refl|done]].
    destruct (Nat.leb_spec max_len (String.length ep)) as [Hl|Hl].
    { exists false, out. split; [done|]. split; [apply within_refl|].
      by rewrite (proj2 (Nat.ltb_ge _ _)). }
    exists true. eexists. rewrite <-bytes_length in *. split.
    { pose proof (blit_text out (bytes_of ep) ltac:(lia)) as E.
      destruct (blit out 0 _) as [o|]; [|done]. cbn [mbind option_bind] in *. by rewrite E. }
    split; [by apply text_within|]. rewrite (proj2 (Nat.ltb_lt _ _)) by done.
    split; [done|]. apply c_text_app.
  - intros vec. unfold lobbyQueryLobbies.
    destruct (pack_strings_prefix vec [] out max_len) as (k & Hk & Hfit & Hnext & E); [cbn; lia|].
    cbn [app length Nat.add] in Hfit, Hnext, E. rewrite E. cbn [mbind option_bind].
    set (l := packed (take k vec)) in *.
    assert (within max_len out (l ++ drop (length l) out)) as Hw by (apply (within_app []); cbn; lia).
    assert (k = length vec ∨ (max_len < length (packed (take (S k) vec)))%nat) as Hmax.
    { destruct (decide (k = length vec)); [by left|right; apply Hnext; lia]. }
    destruct (decide (k = length vec)) as [Ek|Ek].
    2: { eexists _, _. split; [done|]. split; [done|]. exists k. split; [done|]. split; [done|].
         rewrite bool_decide_eq_false_2 by (intros ->; cbn in *; lia). cbn [andb].
         rewrite decide_False by done. by rewrite take_app_length, drop_app_length. }
    destruct (bool_decide (vec = []) && (0 <? max_len)%nat) eqn:Eb.
    + apply andb_true_iff in Eb as [->%bool_decide_eq_true H0%Nat.ltb_lt]. subst k l. cbn in *.
      destruct out as [|b out]; cbn in *; [lia|]. eexists _, _. split; [done|]. split.
      { split; [done|]. destruct max_len; [lia|done]. }
      exists 0%nat. by split_and!; [|left|..].
    + eexists _, _. split; [done|]. split; [done|]. exists k. split; [done|]. split; [done|].
      rewrite decide_True by done. rewrite take_app_length, drop_app_length.
      split; [done|]. split; [done|]. unfold l. by rewrite take_ge by lia.
Qed.

(** A query's ids, of which two fit. *)
Lemma foreign_texts_bounded_witness :
  (∃ out', gameGetId (Some "lobby 7") (replicate 6 255) 4 = Some out' ∧
    c_text out' = Some [108; 111; 98]) ∧
  (∃ out', lobbyQueryLobbies ["a"; "bc"; "def"]%string (replicate 9 255) 8 = Some (out', None) ∧
    take 5 out' = [97; 0; 98; 99; 0] ∧ drop 5 out' = replicate 4 255).
Proof.
  split.
  - destruct (proj1 (foreign_texts_bounded (replicate 6 255) 4 ltac:(cbn; lia)) (Some "lobby 7"%string))
      as (out' & E & _ & Ht).
    exists out'. split; [exact E|]. apply Ht; [lia|]. by apply (bool_decide_unpack _).
  - destruct (foreign_texts_bounded (replicate 9 255) 8 ltac:(cbn; lia)) as (_ & _ & _ & Hq).
    destruct (Hq ["a"; "bc"; "def"]%string) as (out' & r & E & _ & k & Hk & Hmax & Ht & Hd & Hr).
    assert (k = 2)%nat as ->.
    { destruct k as [|[|[|[|k]]]]; [| |reflexivity| |cbn in Hk; lia].
      - destruct Hmax as [Hmax|Hmax]; [discriminate Hmax|cbn in Hmax; lia].
      - destruct Hmax as [Hmax|Hmax]; [discriminate Hmax|cbn in Hmax; lia].
      - apply (f_equal (fmap snd)) in E. rewrite Hr in E. vm_compute in E. discriminate E. }
    exists out'. split; [rewrite E, Hr; reflexivity|]. split; [exact Ht|exact Hd].
Defined.

Example id_cut : gameGetId (Some "lobby 7") (replicate 6 255) 4 = Some [108; 111; 98; 0; 255; 255].
Proof. reflexivity. Qed.

(** A query's answer is read back: it is written exactly when all of it fits,
    and what is in the buffer up to the count given is the ids found, in
    order; nothing found reads as one empty id. *)
Theorem query_answer_read_back vec out max_len :
  (0 < max_len ≤ length out)%nat → Forall (λ s, 0 ∉ bytes_of s) vec →
  let texts := if decide (vec = []) then [EmptyString] else vec in
  ∃ out' r, lobbyQueryLobbies vec out max_len = Some (out', r) ∧
    match r with
    | Some n => (n ≤ max_len)%nat ∧ c_texts [] (take n out') = bytes_of <$> texts
    | None => (max_len < length (packed vec))%nat
    end.
Proof.
  intros Hm Hv. cbn zeta. unfold lobbyQueryLobbies.
  pose proof (pack_strings_spec vec out max_len ltac:(lia)) as Hp.
  destruct (decide (length (packed vec) ≤ max_len)%nat) as [Hf|Hf].
  2: { destruct Hp as (out' & ->). cbn. eexists _, _. split; [done|]. cbn. lia. }
  rewrite Hp. cbn [mbind option_bind]. destruct (decide (vec = [])) as [->|Hne].
  - rewrite bool_decide_true, (proj2 (Nat.ltb_lt _ _)) by (done || lia). cbn [andb].
    pose proof (blit_next [] out [0] ltac:(cbn; lia)) as E.
    change (packed []) with (@nil Z). cbn in *. rewrite drop_0, E. cbn.
    eexists _, _. split; [done|]. split; [lia|done].
  - rewrite bool_decide_false by done. cbn [andb]. eexists _, _. split; [done|].
    split; [done|]. rewrite take_app_length. by apply c_texts_packed.
Qed.

Lemma query_answer_read_back_witness :
  ∃ out' r, lobbyQueryLobbies ["red"; "blue"] (replicate 9 255) 9 = Some (out', r).
Proof.
  destruct (query_answer_read_back ["red"; "blue"] (replicate 9 255) 9) as (out' & r & E & _).
  - cbn. lia.
  - repeat constructor; by apply (bool_decide_unpack _).
  - exists out', r. exact E.
Defined.

Lemma pack_actors_spec ids pre rest max_count :
  (length pre ≤ max_count ≤ length (pre ++ rest))%nat →
  let n := Nat.min (length ids) (max_count - length pre) in
  pack_actors ids (pre ++ rest) max_count (length pre) =
  Some (pre ++ take n ids ++ drop n rest, (length pre + n)%nat).
Proof.
  revert pre rest. induction ids as [|a ids IH]; intros pre rest Hm.
  { cbn. by rewrite Nat.add_0_r. }
  cbn zeta. cbn [pack_actors length]. destruct (Nat.leb_spec max_count (length pre)) as [Hc|Hc].
  { replace (Nat.min _ _) with 0%nat by lia. cbn. by rewrite Nat.add_0_r. }
  rewrite length_app in Hm. rewrite blit_next by (cbn; lia). cbn [mbind option_bind length].
  destruct rest as [|r rest]; [cbn in Hm; lia|].
  specialize (IH (pre ++ [a]) rest). rewrite !length_app in IH. cbn [length] in *.
  specialize (IH ltac:(lia)). change (drop 1 (r :: rest)) with (drop 0 rest).
  rewrite drop_0, (assoc_L (++)). rewrite Nat.add_1_r in IH. rewrite IH.
  replace (Nat.min (S (length ids)) (max_count - length pre))
    with (S (Nat.min (length ids) (max_count - S (length pre)))) by lia.
  cbn [take drop]. rewrite <-!(assoc_L (++)). cbn [app]. do 2 f_equal. lia.
Qed.
End bounded_theorems.

(** ** Interest-group masks *)

Section masks.
Implicit Types (ig : InterestGroups) (words : list Z).

(** <src/ffi.cpp:903-907 gamePeerGetInterestGroupsMask>
    One word; the index is converted to [uint8_t]. *)
Definition mask_word ig (w : Z) : Z :=
  foldl (λ word b, if ig_test ig (u8 (w * 32 + b)) then Z.lor word (Z.shiftl 1 b) else word)
    0 (seqZ 0 32).

(** <src/ffi.cpp:895-914 gamePeerGetInterestGroupsMask>
    For a member; the caller's words behind the eighth are cleared. *)
Definition get_mask ig (out_mask_words : list Z) (max_words : nat) : option (list Z) :=
  if (max_words =? 0)%nat then Some out_mask_words
  else
    let limit := Nat.min max_words 8 in
    out ← blit out_mask_words 0 (mask_word ig <$> seqZ 0 (Z.of_nat limit));
    blit out limit (replicate (max_words - limit) 0).

(** <src/ffi.cpp:925-929 gamePeerSetInterestGroupsMask> *)
Definition set_mask_word ig (w word : Z) : InterestGroups :=
  foldl (λ ig b, if has_flag word (Z.shiftl 1 b) then ig_set ig (u8 (w * 32 + b)) else ig)
    ig (seqZ 0 32).

(** <src/ffi.cpp:916-933 gamePeerSetInterestGroupsMask>
    For a member; [mask_words] are the [word_count] words the caller gives. *)
Definition set_mask ig (mask_words : list Z) : InterestGroups :=
  if decide (mask_words = []) then ig
  else
    foldl (λ ig p, set_mask_word ig p.1 p.2) ig_reset_all
      (zip (seqZ 0 8) mask_words).

Lemma lor_bits (f : Z → bool) l acc k :
  (∀ b, b ∈ l → 0 ≤ b) → 0 ≤ k →
  Z.testbit (foldl (λ a b, if f b then Z.lor a (Z.shiftl 1 b) else a) acc l) k =
  Z.testbit acc k || (bool_decide (k ∈ l) && f k).
Proof.
  intros Hl Hk. revert acc. induction l as [|b l IH]; intros acc; cbn [foldl].
  { by rewrite orb_false_r. }
  rewrite IH by (intros; apply Hl; by right).
  assert (0 ≤ b) as Hb by (apply Hl; left).
  assert (Z.testbit (Z.shiftl 1 b) k = bool_decide (k = b)) as E.
  { rewrite Z.shiftl_1_l, Z.pow2_bits_eqb by done. rewrite Z.eqb_sym.
    destruct (bool_decide_reflect (k = b)) as [->|]; [apply Z.eqb_refl|by apply Z.eqb_neq]. }
  destruct (f b) eqn:Hf; [rewrite Z.lor_spec, E|]; destruct (decide (k = b)) as [->|Hn].
  - rewrite (bool_decide_true (b = b)), (bool_decide_true (b ∈ b :: l)), Hf by (done || left).
    destruct (Z.testbit acc b); done.
  - rewrite (bool_decide_false (k = b)) by done. rewrite orb_false_r. f_equal. f_equal.
    apply bool_decide_ext. rewrite elem_of_cons. naive_solver.
  - rewrite Hf. by rewrite !andb_false_r.
  - f_equal. f_equal. apply bool_decide_ext. rewrite elem_of_cons. naive_solver.
Qed.

Lemma mask_word_bit ig w k :
  0 ≤ w < 8 → 0 ≤ k →
  Z.testbit (mask_word ig w) k = (k <? 32) && ig_test ig (w * 32 + k).
Proof.
  intros Hw Hk. unfold mask_word. rewrite lor_bits; [|by intros b Hb%elem_of_seqZ; lia|done].
  rewrite Z.bits_0. cbn [orb]. destruct (Z.ltb_spec k 32) as [Hl|Hl].
  - rewrite bool_decide_true by (apply elem_of_seqZ; lia). by rewrite wrap_small by lia.
  - by rewrite bool_decide_false by (rewrite elem_of_seqZ; lia).
Qed.

Lemma flag_bit word b : 0 ≤ b → has_flag word (Z.shiftl 1 b) = Z.testbit word b.
Proof.
  intros Hb. unfold has_flag. rewrite Z.shiftl_1_l.
  destruct (Z.testbit word b) eqn:E.
  - apply negb_true_iff, Z.eqb_neq. intros E0. apply (f_equal (λ z, Z.testbit z b)) in E0.
    by rewrite Z.land_spec, E, Z.pow2_bits_true, Z.bits_0 in E0.
  - apply negb_false_iff, Z.eqb_eq, Z.bits_inj'. intros k Hk.
    rewrite Z.land_spec, Z.bits_0, Z.pow2_bits_eqb by done.
    destruct (Z.eqb_spec b k) as [<-|]; [by rewrite E|apply andb_false_r].
Qed.

Lemma set_word_bit ig w word k :
  0 ≤ w < 8 → 0 ≤ k →
  Z.testbit (bitset_ (set_mask_word ig w word)) k =
  Z.testbit (bitset_ ig) k ||
  (bool_decide (k - w * 32 ∈ seqZ 0 32) && Z.testbit word (k - w * 32)).
Proof.
  intros Hw Hk. unfold set_mask_word.
  assert (∀ b, b ∈ seqZ 0 32 → 0 ≤ b < 32) as Hl by (intros b Hb%elem_of_seqZ; lia).
  revert ig Hl. generalize (seqZ 0 32) as l.
  induction l as [|b l IH]; intros ig Hl; cbn [foldl]; [by rewrite orb_false_r|].
  rewrite IH by (intros; apply Hl; by right).
  assert (0 ≤ b < 32) as Hb by (apply Hl; left).
  rewrite flag_bit by lia. rewrite wrap_small by lia.
  assert (∀ (P : bool), bool_decide (k - w * 32 ∈ b :: l) && P =
    (bool_decide (k = w * 32 + b) && P) || (bool_decide (k - w * 32 ∈ l) && P)) as E.
  { intros P. rewrite <-andb_orb_distrib_l, <-bool_decide_or. f_equal.
    apply bool_decide_ext. rewrite elem_of_cons.
    assert (k - w * 32 = b ↔ k = w * 32 + b) as -> by lia. done. }
  rewrite E, orb_assoc. f_equal.
  destruct (bool_decide_reflect (k = w * 32 + b)) as [->|Hn]; cbn [andb].
  - replace (w * 32 + b - w * 32) with b by lia.
    destruct (Z.testbit word b) eqn:Eb; cbn [andb].
    + unfold ig_set. cbn [bitset_]. by rewrite Z.setbit_eq, orb_true_r by lia.
    + by rewrite orb_false_r.
  - rewrite orb_false_r. destruct (Z.testbit word b) eqn:Eb; [|done].
    unfold ig_set. cbn [bitset_]. by rewrite Z.setbit_neq by lia.
Qed.
End masks.

Section mask_facts.
Implicit Types (ig : InterestGroups) (words : list Z).

Lemma window_bit k w : 0 ≤ k → bool_decide (k - w * 32 ∈ seqZ 0 32) = (k / 32 =? w).
Proof.
  intros Hk. pose proof (Z.div_mod k 32 ltac:(lia)). pose proof (Z.mod_pos_bound k 32 ltac:(lia)).
  destruct (Z.eqb_spec (k / 32) w) as [E|E].
  - apply bool_decide_true, elem_of_seqZ. lia.
  - apply bool_decide_false. rewrite elem_of_seqZ. nia.
Qed.

Lemma set_words_bit words ig w0 n k :
  0 ≤ w0 → w0 + n ≤ 8 → 0 ≤ k →
  Z.testbit (bitset_ (foldl (λ ig p, set_mask_word ig p.1 p.2) ig (zip (seqZ w0 n) words))) k =
  Z.testbit (bitset_ ig) k ||
  ((w0 <=? k / 32) && (k / 32 <? w0 + n) &&
   Z.testbit (default 0 (words !! Z.to_nat (k / 32 - w0))) (k mod 32)).
Proof.
  intros Hw Hn Hk. revert w0 n ig Hw Hn. pose proof (Z.div_pos k 32 Hk ltac:(lia)).
  induction words as [|word words IH]; intros w0 n ig Hw Hn.
  { rewrite zip_with_nil_r, lookup_nil. cbn [foldl default]. by rewrite Z.bits_0, andb_false_r, orb_false_r. }
  destruct (Z.ltb_spec 0 n) as [Hpos|Hneg].
  2: { rewrite seqZ_nil by lia. cbn [zip_with foldl].
       destruct (Z.leb_spec w0 (k / 32)), (Z.ltb_spec (k / 32) (w0 + n)); try lia;
         by rewrite orb_false_r. }
  rewrite seqZ_cons by lia. cbn [zip_with foldl fst snd].
  rewrite IH by lia. rewrite set_word_bit, window_bit by lia.
  rewrite <-orb_assoc. f_equal. replace (Z.succ w0 + Z.pred n) with (w0 + n) by lia.
  destruct (Z.eqb_spec (k / 32) w0) as [E|E].
  - rewrite (proj2 (Z.leb_gt _ _)), (proj2 (Z.leb_le _ _)), (proj2 (Z.ltb_lt _ _)) by lia.
    cbn [andb]. rewrite orb_false_r. replace (Z.to_nat (k / 32 - w0)) with 0%nat by lia.
    cbn [lookup list_lookup default]. f_equal.
    pose proof (Z.div_mod k 32 ltac:(lia)). lia.
  - cbn [andb orb]. destruct (Z.ltb_spec (k / 32) (w0 + n)); [|by rewrite !andb_false_r].
    rewrite !andb_true_r. destruct (Z.leb_spec w0 (k / 32)) as [Hle|Hgt].
    + rewrite (proj2 (Z.leb_le _ _)) by lia. cbn [andb].
      replace (Z.to_nat (k / 32 - w0)) with (S (Z.to_nat (k / 32 - Z.succ w0))) by lia. done.
    + by rewrite (proj2 (Z.leb_gt _ _)) by lia.
Qed.

Lemma set_mask_bit ig words k :
  words ≠ [] → 0 ≤ k < 256 →
  Z.testbit (bitset_ (set_mask ig words)) k =
  Z.testbit (default 0 (words !! Z.to_nat (k / 32))) (k mod 32).
Proof.
  intros Hw Hk. unfold set_mask. rewrite decide_False by done.
  rewrite set_words_bit by lia. unfold ig_reset_all. cbn [bitset_]. rewrite Z.bits_0. cbn [orb].
  assert (0 ≤ k / 32 < 8) by (split; [apply Z.div_pos|apply Z.div_lt_upper_bound]; lia).
  rewrite (proj2 (Z.leb_le _ _)), (proj2 (Z.ltb_lt _ _)) by lia. cbn [andb].
  by rewrite Z.sub_0_r.
Qed.

(** What a mask of words reads back as: word [w] of it. *)
Definition mask_read words (w : Z) : Z :=
  Z.lor (if w =? 0 then 1 else 0) (default 0 (words !! Z.to_nat w)).

Lemma mask_word_set ig words w :
  words ≠ [] → Forall (λ x, 0 ≤ x < 2 ^ 32) words → 0 ≤ w < 8 →
  mask_word (set_mask ig words) w = mask_read words w.
Proof.
  intros Hne Hu Hw. apply Z.bits_inj'. intros k Hk. unfold mask_read.
  rewrite mask_word_bit, Z.lor_spec by lia.
  assert (0 ≤ default 0 (words !! Z.to_nat w) < 2 ^ 32) as Hd.
  { destruct (words !! Z.to_nat w) as [x|] eqn:E; cbn [default]; [|lia].
    rewrite Forall_lookup in Hu. by apply (Hu _ _ E). }
  set (d := default 0 _) in *.
  assert (Z.testbit (if w =? 0 then 1 else 0) k = (w =? 0) && (k =? 0)) as E1.
  { destruct (Z.eqb_spec w 0); [|apply Z.bits_0]. change 1 with (2 ^ 0).
    rewrite Z.pow2_bits_eqb by lia. apply Z.eqb_sym. }
  destruct (Z.ltb_spec k 32) as [Hl|Hg]; cbn [andb].
  - unfold ig_test. rewrite E1. destruct (Z.eqb_spec (w * 32 + k) 0) as [E|E].
    + rewrite (proj2 (Z.eqb_eq w 0)), (proj2 (Z.eqb_eq k 0)) by lia. done.
    + rewrite set_mask_bit by (done || lia).
      replace ((w * 32 + k) / 32) with w by (apply Z.div_unique with k; lia).
      replace ((w * 32 + k) mod 32) with k by (apply Z.mod_unique with w; lia). fold d.
      destruct (Z.eqb_spec w 0), (Z.eqb_spec k 0); [lia|done..].
  - rewrite E1. rewrite (proj2 (Z.eqb_neq k 0)) by lia. rewrite andb_false_r. cbn [orb].
    symmetry. apply (proj1 (Z.bounded_iff_bits_nonneg' 32 d ltac:(lia) ltac:(lia))); lia.
Qed.

(** A mask of 32-bit words set on a member reads back as it was, cut or
    extended with zeros to the words asked for: group 0 reads as a member's
    always, the words behind the eighth as zero.  Nothing else of the
    caller's buffer changes. *)
Theorem interest_mask_roundtrip ig words out n :
  words ≠ [] → Forall (λ x, 0 ≤ x < 2 ^ 32) words → (n ≤ length out)%nat →
  get_mask (set_mask ig words) out n =
  Some ((mask_read words <$> seqZ 0 (Z.of_nat (Nat.min n 8))) ++ replicate (n - 8) 0 ++ drop n out).
Proof.
  intros Hne Hu Hn. unfold get_mask. destruct (Nat.eqb_spec n 0) as [->|H0]; [done|].
  assert (mask_word (set_mask ig words) <$> seqZ 0 (Z.of_nat (Nat.min n 8)) =
          mask_read words <$> seqZ 0 (Z.of_nat (Nat.min n 8))) as ->.
  { apply list_fmap_ext. intros i w Hw. apply mask_word_set; [done..|].
    apply list_elem_of_lookup_2, elem_of_seqZ in Hw. lia. }
  set (l := _ <$> _). assert (length l = Nat.min n 8) as Hl.
  { unfold l. rewrite length_fmap, length_seqZ. lia. }
  pose proof (blit_next [] out l ltac:(lia)) as E. cbn [app length] in E. rewrite E.
  cbn [mbind option_bind]. replace (n - Nat.min n 8)%nat with (n - 8)%nat by lia.
  rewrite <-Hl at 1. rewrite blit_next by (rewrite length_drop, length_replicate; lia).
  rewrite drop_drop, length_replicate. do 4 f_equal. lia.
Qed.

Lemma interest_mask_roundtrip_witness :
  get_mask (set_mask default_groups [0; 5]) (replicate 4 7) 3 = Some [1; 5; 0; 7].
Proof.
  rewrite (interest_mask_roundtrip default_groups [0; 5] (replicate 4 7) 3);
    [reflexivity|done|repeat constructor; lia|cbn; lia].
Defined.
End mask_facts.
