(* ===== verification/PluginEvents.v ===== *)
(** * Events in the hands of a plugin

    Models the event interface of [ffi.cpp]: a plugin makes an event, edits
    it field by field, and has a room broadcast it, as often as it likes.  A
    handle is the event or null, which every call ignores; the plugin's own
    values are given as values. *)

From S2P Require Import Prelude Values Types GameState GameProps GameEvents ForeignBuffers.
Open Scope Z_scope.

Section ops.
Context `{Ser, Codes, !Wire}.
(** [v->get<ser::Dictionary>()], for a value that is one. *)
Context (get_dictionary : Value → option ParameterList).
Implicit Types (g : Game) (env : PeerEnv) (gp : GamePeer) (ev : Event).

(** <src/ffi.cpp:982-984 createEvent> *)
Definition createEvent : Event :=
  {| code := 0; sender_actor_id := 0; delivery_mode := Reliable; channel := 0;
     receivers := RcvNone; interest_group := 0; data := null; top_params := ∅;
     cached_data := replicate protocol_count [] |}.

(** <src/ffi.cpp:993-1004 eventSetRoutingMetadata> *)
Definition eventSetRoutingMetadata ev (code_ sender mode channel_ group : Z) : Event :=
  ev <| code := code_ |> <| sender_actor_id := sender |> <| delivery_mode := mode |>
     <| channel := channel_ |> <| interest_group := group |>.

(** <src/ffi.cpp:1006-1022 eventGetRoutingMetadata>
    What the outputs that are not null receive. *)
Definition eventGetRoutingMetadata ev : Z * Z * Z * Z * Z :=
  (code ev, sender_actor_id ev, delivery_mode ev, channel ev, interest_group ev).

(** <src/ffi.cpp:1024-1029 eventSetReceiversAll> *)
Definition eventSetReceiversAll ev : Event := ev <| receivers := RcvNone |>.

(** <src/ffi.cpp:1031-1036 eventSetReceiversGroup> *)
Definition eventSetReceiversGroup ev (group : Z) : Event := ev <| receivers := RcvGroup group |>.

(** <src/ffi.cpp:1038-1047 eventSetReceiversActors>
    [actor_ids] are the [count] numbers given; null when there are some is
    ignored. *)
Definition eventSetReceiversActors ev (actor_ids : option (list Z)) (count : nat) : Event :=
  match actor_ids with
  | None => if (0 <? count)%nat then ev else ev <| receivers := RcvActors ∅ |>
  | Some ids => ev <| receivers := RcvActors (list_to_set (take count ids)) |>
  end.

(** <ffi_include/luxon_server_ffi.h:71-71 LuxonEventReceiversType> *)
Inductive LuxonEventReceiversType :=
  | LUXON_RECEIVERS_ALL | LUXON_RECEIVERS_GROUP | LUXON_RECEIVERS_ACTORS.

(** <src/ffi.cpp:1049-1059 eventGetReceiversType> *)
Definition eventGetReceiversType ev : LuxonEventReceiversType :=
  match receivers ev with
  | RcvGroup _ => LUXON_RECEIVERS_GROUP
  | RcvActors _ => LUXON_RECEIVERS_ACTORS
  | RcvNone => LUXON_RECEIVERS_ALL
  end.

(** <src/ffi.cpp:1061-1069 eventGetReceiversGroup> *)
Definition eventGetReceiversGroup ev : Z :=
  match receivers ev with RcvGroup g => g | _ => 0 end.

(** <src/ffi.cpp:1071-1090 eventGetReceiversActors>
    With an output for the count; the result is the caller's numbers and the
    count. *)
Definition eventGetReceiversActors ev (out_actor_ids : option (list Z)) (max_count : nat) :
    option (option (list Z) * nat) :=
  match out_actor_ids, receivers ev with
  | Some out, RcvActors actors =>
      if (max_count =? 0)%nat then Some (Some out, 0%nat)
      else '(out, cur) ← pack_actors (elements actors) out max_count 0; Some (Some out, cur)
  | out, _ => Some (out, 0%nat)
  end.

(** <src/ffi.cpp:1092-1100 eventSetData> *)
Definition eventSetData ev (v : option Value) : Event :=
  match v with Some v => ev <| data := v |> | None => ev end.

(** <src/ffi.cpp:1102-1110 eventGetData> *)
Definition eventGetData ev : Value := data ev.

(** <src/ffi.cpp:1112-1123 eventSetTopParams> *)
Definition eventSetTopParams ev (v : option Value) : Event :=
  match v ≫= get_dictionary with Some d => ev <| top_params := d |> | None => ev end.

(** <src/ffi.cpp:1125-1133 eventGetTopParams> *)
Definition eventGetTopParams ev : ParameterList := top_params ev.

(** <src/ffi.cpp:1436-1443 gameBroadcastEvent>
    The event comes back with its default receivers and its cache. *)
Definition gameBroadcastEvent env (g : option Game) (ev : option Event) :
    option Event * list Effect :=
  match g, ev with
  | Some g, Some ev => let '(ev, eff) := broadcast_event env g ev in (Some ev, eff)
  | _, ev => (ev, [])
  end.

(** The editing calls. *)
Inductive Edit :=
  | SetRoutingMetadata (code_ sender mode channel_ group : Z)
  | SetReceiversAll
  | SetReceiversGroup (group : Z)
  | SetReceiversActors (actor_ids : option (list Z)) (count : nat)
  | SetData (v : option Value)
  | SetTopParams (v : option Value).

Definition edit ev (e : Edit) : Event :=
  match e with
  | SetRoutingMetadata c s m ch gr => eventSetRoutingMetadata ev c s m ch gr
  | SetReceiversAll => eventSetReceiversAll ev
  | SetReceiversGroup gr => eventSetReceiversGroup ev gr
  | SetReceiversActors ids n => eventSetReceiversActors ev ids n
  | SetData v => eventSetData ev v
  | SetTopParams v => eventSetTopParams ev v
  end.

Lemma edit_cache ev es : cached_data (foldl edit ev es) = cached_data ev.
Proof.
  revert ev. induction es as [|e es IH]; intros ev; [done|]. cbn [foldl]. rewrite IH.
  destruct e; cbn [edit]; try reflexivity.
  - unfold eventSetReceiversActors. destruct actor_ids; [done|]. by destruct (_ <? _)%nat.
  - unfold eventSetData. by destruct v.
  - unfold eventSetTopParams. by destruct (v ≫= _).
Qed.

(** What a plugin does with an event over time. *)
Inductive Use :=
  | Edits (e : Edit)
  | Broadcasts (env : PeerEnv) (g : option Game).

Definition use ev (u : Use) : Event :=
  match u with
  | Edits e => edit ev e
  | Broadcasts env g => default ev (gameBroadcastEvent env g (Some ev)).1
  end.

(** The packet a node gets of an event: what the cache has for the node's
    protocol, or else the event serialized as it is. *)
Definition payload ev (proto : nat) : option ByteArray :=
  match cached_data ev !! proto with
  | Some (b :: bs) => Some (b :: bs)
  | _ => serialize proto (event_message ev)
  end.

Definition packet env ev gp : option Effect :=
  p ← lock env (peer gp); pr ← env !! p;
  bytes ← payload ev (protocol pr);
  Some (Send p bytes (channel ev) (delivery_mode ev)).

(** Asking for a packet fills the slot of its protocol. *)
Lemma get_cached_data_payload proto ev :
  let '(ev', bytes) := get_cached_data proto ev in
  bytes = payload ev proto ∧ same_event ev ev' ∧
  length (cached_data ev') = length (cached_data ev) ∧
  (∀ q, payload ev' q = payload ev q) ∧
  (∀ q b bs, cached_data ev !! q = Some (b :: bs) → cached_data ev' !! q = Some (b :: bs)) ∧
  (∀ b bs, (proto < length (cached_data ev))%nat → bytes = Some (b :: bs) →
     cached_data ev' !! proto = Some (b :: bs)).
Proof.
  unfold get_cached_data, payload.
  destruct (cached_data ev !! proto) as [[|b bs]|] eqn:E.
  2: { split_and!; try done. by intros b' bs' _ [= <- <-]. }
  all: destruct (serialize proto (event_message ev)) as [pl|] eqn:Es;
    [|by split_and!; try done].
  - assert (same_event ev (ev <| cached_data ::= <[proto := pl]> |>)) as Hs by (by destruct ev).
    split; [done|]. split; [exact Hs|]. rewrite (event_message_same _ _ Hs). upd.
    split; [apply length_insert|]. split; [|split].
    + intros q. destruct (decide (q = proto)) as [->|Hne]; [|by rewrite list_lookup_insert_ne].
      rewrite list_lookup_insert_eq by (by eapply lookup_lt_Some). rewrite E, Es. by destruct pl.
    + intros q b bs Hq. destruct (decide (q = proto)) as [->|Hne]; [congruence|].
      by rewrite list_lookup_insert_ne.
    + intros b bs Hl [= ->]. by apply list_lookup_insert_eq.
  - split_and!; try done. intros b bs Hl _. apply lookup_ge_None in E. lia.
Qed.

Lemma packet_same env ev ev' gp :
  same_event ev ev' → (∀ q, payload ev' q = payload ev q) → packet env ev' gp = packet env ev gp.
Proof.
  intros Hs Hp. unfold packet. destruct (lock env (peer gp)) as [p|]; [|done]. cbn.
  destruct (env !! p) as [pr|]; [|done]. cbn. rewrite Hp.
  assert (channel ev' = channel ev ∧ delivery_mode ev' = delivery_mode ev) as [-> ->]; [|done].
  unfold same_event in Hs. destruct ev, ev'; cbn in Hs. by injection Hs as ->.
Qed.

(** Dispatching an event to one node. *)
Lemma dispatch_packet env ev eff gp :
  ∃ ev1, dispatch env (ev, eff) gp = (ev1, eff ++ option_list (packet env ev gp)) ∧
    same_event ev ev1 ∧ (∀ q, payload ev1 q = payload ev q) ∧
    length (cached_data ev1) = length (cached_data ev) ∧
    (∀ q b bs, cached_data ev !! q = Some (b :: bs) → cached_data ev1 !! q = Some (b :: bs)) ∧
    (∀ p pr b bs ch md, env !! p = Some pr → (protocol pr < length (cached_data ev))%nat →
       packet env ev gp = Some (Send p (b :: bs) ch md) →
       cached_data ev1 !! protocol pr = Some (b :: bs)).
Proof.
  unfold dispatch, packet.
  destruct (lock env (peer gp)) as [p0|]; cbn [mbind option_bind option_list];
    [|exists ev; rewrite app_nil_r; by split_and!].
  destruct (env !! p0) as [pr0|] eqn:Hp0; cbn [mbind option_bind option_list];
    [|exists ev; rewrite app_nil_r; by split_and!].
  pose proof (get_cached_data_payload (protocol pr0) ev) as Hg.
  destruct (get_cached_data (protocol pr0) ev) as [ev1 bytes].
  destruct Hg as (-> & Hs & Hlen & Hpay & Hkeep & Hfill).
  assert (channel ev1 = channel ev ∧ delivery_mode ev1 = delivery_mode ev) as [-> ->].
  { unfold same_event in Hs. destruct ev, ev1; cbn in Hs. by injection Hs as ->. }
  exists ev1. destruct (payload ev (protocol pr0)) as [bytes|]; cbn [mbind option_bind option_list];
    (split; [by rewrite ?app_nil_r|]); (do 4 (split; [done|])); [|done].
  intros p pr b bs ch md Hp Hl [= -> -> _ _]. rewrite Hp0 in Hp. injection Hp as <-. auto.
Qed.

Lemma omap_cons_list {A B} (f : A → option B) x l : omap f (x :: l) = option_list (f x) ++ omap f l.
Proof. cbn. by destruct (f x). Qed.

(** A round of dispatching: everybody's packet, and the slots of those who got
    one filled. *)
Lemma dispatch_packets env gps ev eff :
  let r := foldl (dispatch env) (ev, eff) gps in
  r.2 = eff ++ omap (packet env ev) gps ∧
  length (cached_data r.1) = length (cached_data ev) ∧
  (∀ q b bs, cached_data ev !! q = Some (b :: bs) → cached_data r.1 !! q = Some (b :: bs)) ∧
  (∀ p pr b bs ch md, env !! p = Some pr → (protocol pr < length (cached_data ev))%nat →
     Send p (b :: bs) ch md ∈ omap (packet env ev) gps →
     cached_data r.1 !! protocol pr = Some (b :: bs)).
Proof.
  revert ev eff. induction gps as [|gp gps IH]; intros ev eff; cbn zeta; cbn [foldl].
  { cbn. rewrite app_nil_r. split_and!; try done. by intros p pr b bs ch md _ _ ?%not_elem_of_nil. }
  rewrite omap_cons_list.
  destruct (dispatch_packet env ev eff gp) as (ev1 & -> & Hs & Hpay & Hlen & Hkeep & Hfill).
  destruct (IH ev1 (eff ++ option_list (packet env ev gp))) as (E1 & E2 & E3 & E4).
  assert (omap (packet env ev1) gps = omap (packet env ev) gps) as Ho.
  { clear -Hs Hpay. induction gps as [|g gps IH]; [done|].
    by rewrite !omap_cons_list, IH, (packet_same env ev ev1 g Hs Hpay). }
  rewrite Ho in E1, E4. rewrite Hlen in E2, E4. split; [by rewrite E1, <-app_assoc|].
  split; [done|]. split; [auto|]. intros p pr b bs ch md Hp Hl [Hin|Hin]%elem_of_app; [|by eapply E4].
  apply E3. destruct (packet env ev gp) as [e|] eqn:Epk; [|by apply not_elem_of_nil in Hin].
  apply list_elem_of_singleton in Hin as <-. by eapply Hfill.
Qed.

Lemma default_receivers_cache ev : cached_data (default_receivers ev) = cached_data ev.
Proof. unfold default_receivers. by destruct (receivers ev). Qed.

(** What a use of an event leaves in its cache. *)
Lemma use_cache ev u :
  length (cached_data (use ev u)) = length (cached_data ev) ∧
  ∀ q b bs, cached_data ev !! q = Some (b :: bs) → cached_data (use ev u) !! q = Some (b :: bs).
Proof.
  destruct u as [e|env [g|]]; cbn [use].
  - change (edit ev e) with (foldl edit ev [e]). by rewrite edit_cache.
  - unfold gameBroadcastEvent, broadcast_event.
    destruct (dispatch_packets env (recipients g (default_receivers ev)) (default_receivers ev) [])
      as (_ & El & Ek & _).
    destruct (foldl (dispatch env) _ _) as [ev' eff]. cbn in *. by rewrite default_receivers_cache in *.
  - done.
Qed.

Lemma uses_cache ev us :
  length (cached_data (foldl use ev us)) = length (cached_data ev) ∧
  ∀ q b bs, cached_data ev !! q = Some (b :: bs) → cached_data (foldl use ev us) !! q = Some (b :: bs).
Proof.
  revert ev. induction us as [|u us IH]; intros ev; [done|]. cbn [foldl].
  destruct (use_cache ev u) as [El Ek], (IH (use ev u)) as [El' Ek']. split; [congruence|auto].
Qed.

(** A broadcast, packet by packet. *)
Lemma broadcast_packets env g ev :
  let '(ev', eff) := gameBroadcastEvent env (Some g) (Some ev) in
  eff = omap (packet env (default_receivers ev)) (recipients g (default_receivers ev)) ∧
  ev' = Some (use ev (Broadcasts env (Some g))) ∧
  ∀ p pr b bs ch md, env !! p = Some pr → (protocol pr < length (cached_data ev))%nat →
    Send p (b :: bs) ch md ∈ eff →
    cached_data (use ev (Broadcasts env (Some g))) !! protocol pr = Some (b :: bs).
Proof.
  cbn [use]. unfold gameBroadcastEvent, broadcast_event.
  destruct (dispatch_packets env (recipients g (default_receivers ev)) (default_receivers ev) [])
    as (E & _ & _ & Ef).
  destruct (foldl (dispatch env) _ _) as [ev' eff]. cbn in *. rewrite E, default_receivers_cache in *.
  split_and!; eauto.
Qed.
End ops.

(** ** What a plugin's event sends *)

Section theorems.
Context `{Ser, Codes, !Wire}.
Context (get_dictionary : Value → option ParameterList).
Implicit Types (g : Game) (env : PeerEnv) (gp : GamePeer) (ev : Event).

(** C39: An event's content is fixed by its first broadcast.  However it was
    edited before, its first broadcast sends every recipient the event as it
    is then.  Once a client was sent a packet of the event, no edit and no
    further broadcast, in whatever order, changes it for the clients of the
    same protocol: every later broadcast sends them the same bytes, to the
    recipients and on the channel the edited event names then. *)
Theorem broadcast_fixes_content env g :
  (∀ es, let ev := foldl (edit get_dictionary) createEvent es in
   (gameBroadcastEvent env (Some g) (Some ev)).2 =
     omap (delivered env (default_receivers ev)) (recipients g (default_receivers ev))) ∧
  (∀ us p pr b bs ch md,
     let ev := foldl (use get_dictionary) createEvent us in
     let sent := gameBroadcastEvent env (Some g) (Some ev) in
     env !! p = Some pr → (protocol pr < protocol_count)%nat → Send p (b :: bs) ch md ∈ sent.2 →
     ∀ us' env' g', let ev' := foldl (use get_dictionary) (default ev sent.1) us' in
       (gameBroadcastEvent env' (Some g') (Some ev')).2 =
         omap (packet env' (default_receivers ev')) (recipients g' (default_receivers ev')) ∧
       payload (default_receivers ev') (protocol pr) = Some (b :: bs)).
Proof.
  split.
  - intros es. cbn zeta. set (ev := foldl _ _ es).
    assert (coherent (default_receivers ev)) as Hc.
    { apply fresh_coherent. rewrite default_receivers_cache. unfold ev. by rewrite edit_cache. }
    destruct (dispatch_all_spec env (recipients g (default_receivers ev)) _ [] Hc)
      as (_ & _ & He).
    unfold gameBroadcastEvent, broadcast_event. by destruct (foldl (dispatch env) _ _).
  - intros us p pr b bs ch md. cbn zeta. set (ev := foldl _ _ us). intros Hp Hl Hin us' env' g'.
    pose proof (broadcast_packets get_dictionary env g ev) as Hb.
    destruct (gameBroadcastEvent env (Some g) (Some ev)) as [sent eff]. cbn [fst snd] in *.
    destruct Hb as (_ & -> & Hfill). cbn [default from_option].
    set (ev' := foldl _ _ us'). split.
    + pose proof (broadcast_packets get_dictionary env' g' ev') as Hb.
      destruct (gameBroadcastEvent env' (Some g') (Some ev')) as [s' e']. by destruct Hb as (-> & _).
    + unfold payload. rewrite default_receivers_cache.
      assert (length (cached_data ev) = protocol_count) as El.
      { unfold ev. destruct (uses_cache get_dictionary createEvent us) as [-> _].
        apply length_replicate. }
      rewrite <-El in Hl. pose proof (Hfill p pr b bs ch md Hp Hl Hin) as Hs.
      unfold ev'. by rewrite (proj2 (uses_cache get_dictionary _ us') _ _ _ Hs).
Qed.

(** ** Receivers *)

(** A receiver set for all is not everyone: the sender is skipped, as with
    the receiver group for the others. *)
Lemma receivers_all_skips_sender env g ev gp :
  NoDup (actor_id <$> peers g) → Forall (λ gp, active gp = true) (peers g) →
  RgOthers ≠ RgMasterClient →
  actor_id gp = sender_actor_id ev →
  gp ∉ recipients g (default_receivers (eventSetReceiversAll ev)).
Proof.
  intros Hnd Ha Hne Hs. unfold eventSetReceiversAll, default_receivers. upd.
  unfold recipients. upd. rewrite (proj2 (Z.eqb_neq _ _)) by done.
  rewrite list_elem_of_filter, Z.eqb_refl, Hs, Z.eqb_refl. cbn. by intros [[? _] _].
Qed.

(** The actors read back are those set, as many as fit. *)
Lemma receivers_actors_read_back ev ids out n :
  (n ≤ length out)%nat →
  let set := list_to_set ids : gset Z in
  let k := Nat.min (size set) n in
  eventGetReceiversActors (eventSetReceiversActors ev (Some ids) (length ids)) (Some out) n =
  Some (Some (take k (elements set) ++ drop k out), k).
Proof.
  intros Hn. cbn zeta. unfold eventSetReceiversActors, eventGetReceiversActors. upd.
  rewrite take_ge by done. unfold size, set_size. cbn [compose].
  destruct (Nat.eqb_spec n 0) as [->|Hp]; [by rewrite Nat.min_0_r|].
  pose proof (pack_actors_spec (elements (list_to_set ids : gset Z)) [] out n) as E.
  cbn [app length] in E. cbn zeta in E. rewrite E by lia. cbn. by rewrite Nat.sub_0_r.
Qed.
End theorems.
