(* ===== verification/PluginCalls.v ===== *)
(** * Rooms in the hands of a plugin

    Models the game and game peer interface of [ffi.cpp]: what a plugin does
    to a room and to its members through handles.  A call takes the room's
    lock as the code does, so it is one step of the room; the server's own
    steps come in between.  A handle to a room is never null here (a null
    one is ignored by every call); the values handed over are given as
    values, null where the call tolerates it. *)

From S2P Require Import Prelude Values Types GameState GameMembers GameCreation GameProps GameEvents GameSteps ForeignBuffers PluginEvents.
Open Scope Z_scope.

Section ops.
Context `{Ser, Codes, !Wire}.
(** The application's settings, the room's lobby, and the rooms whose last
    owner has not let go. *)
Context (settings : AppSettings) (info : LobbyInfo) (alive : game_ptr → bool).
Implicit Types (g : Game) (env : PeerEnv) (gp : GamePeer).

(** What a plugin reaches: the room, and the nodes it allocated itself. *)
Record Reach := mkReach {
  the_game : Game;
  containers : gmap nat GamePeer;
}.
#[export] Instance eta_Reach : Eta Reach := λ w, mkReach (the_game w) (containers w).
Implicit Types (w : Reach).

(** Where a [GamePeerHandle] points at the moment of a call: nowhere, to a
    node of the plugin, to the active node of an actor, to a retired node. *)
Inductive NodeHandle :=
  | NullNode | Container (c : nat) | Member (a : Z) | Retired (i : nat).

(** The node; [None] for a node that was freed. *)
Definition node_of w (h : NodeHandle) : option (option GamePeer) :=
  match h with
  | NullNode => Some None
  | Container c => Some <$> containers w !! c
  | Member a => Some <$> find_actor (the_game w) a
  | Retired i => Some <$> retired_peers (the_game w) !! i
  end.

(** Assigning through the handle. *)
Definition edit_node w (h : NodeHandle) (f : GamePeer → GamePeer) : Reach :=
  match h with
  | NullNode => w
  | Container c => w <| containers ::= alter f c |>
  | Member a => w <| the_game ::= λ g, g <| peers ::=
      update_first (λ gp, active gp && (actor_id gp =? a)) f |> |>
  | Retired i => w <| the_game ::= λ g, g <| retired_peers ::= alter f i |> |>
  end.

(** ** Game peers *)

(** <src/ffi.cpp:853-855 createGamePeerContainer> *)
Definition createGamePeerContainer w : Reach * NodeHandle :=
  let c := fresh (dom (containers w)) in
  (w <| containers ::= <[c := no_game_peer]> |>, Container c).

(** <src/ffi.cpp:857-862 destroyGamePeerContainer>
    A node of a room cannot be freed: that is [None]. *)
Definition destroyGamePeerContainer w (h : NodeHandle) : option Reach :=
  gp ← node_of w h;
  match h, gp with
  | _, None => Some w
  | Container c, Some _ => Some (w <| containers ::= delete c |>)
  | _, Some _ => None
  end.

(** <src/ffi.cpp:864-871 gamePeerIsValid> *)
Definition gamePeerIsValid (gp : option GamePeer) : bool :=
  match gp with
  | Some gp => is_valid gp && match owner_game gp with Some o => alive o | None => false end
  | None => false
  end.

(** <src/ffi.cpp:873-878 gamePeerGetActorId> *)
Definition gamePeerGetActorId (gp : option GamePeer) : Z :=
  match gp with Some gp => actor_id gp | None => 0 end.

(** <src/ffi.cpp:880-885 gamePeerHasInterestGroup> *)
Definition gamePeerHasInterestGroup (gp : option GamePeer) (group : Z) : bool :=
  match gp with
  | Some n => gamePeerIsValid gp && ig_test (interest_groups n) group
  | None => false
  end.

(** The guard of the calls that change a node. *)
Definition edit_valid w (h : NodeHandle) (f : GamePeer → GamePeer) : option Reach :=
  gp ← node_of w h;
  Some (if gamePeerIsValid gp then edit_node w h f else w).

(** <src/ffi.cpp:887-893 gamePeerSetInterestGroup> *)
Definition gamePeerSetInterestGroup w h (group : Z) (enable : bool) : option Reach :=
  edit_valid w h (λ gp, gp <| interest_groups ::=
    λ ig, if enable then ig_set ig group else ig_reset ig group |>).

(** <src/ffi.cpp:895-914 gamePeerGetInterestGroupsMask> *)
Definition gamePeerGetInterestGroupsMask (gp : option GamePeer) (out_mask_words : option (list Z))
    (max_words : nat) : option (option (list Z)) :=
  match out_mask_words, gp with
  | Some out, Some n =>
      if gamePeerIsValid gp then Some <$> get_mask (interest_groups n) out max_words
      else Some (Some out)
  | out, _ => Some out
  end.

(** <src/ffi.cpp:916-933 gamePeerSetInterestGroupsMask> *)
Definition gamePeerSetInterestGroupsMask w h (mask_words : option (list Z)) : option Reach :=
  match mask_words with
  | None => Some w
  | Some words => edit_valid w h (λ gp, gp <| interest_groups ::= λ ig, set_mask ig words |>)
  end.

(** <src/ffi.cpp:935-943 gamePeerGetActorProps> *)
Definition gamePeerGetActorProps (gp : option GamePeer) (out_props : Value) : Value :=
  match gp with
  | Some n => if gamePeerIsValid gp then of_table (actor_props n) else out_props
  | None => out_props
  end.

(** <src/ffi.cpp:945-958 gamePeerSetActorProps> *)
Definition gamePeerSetActorProps w h (props : option Value) : option Reach :=
  match props with
  | None => Some w
  | Some v =>
      match get_table v with
      | Some t => edit_valid w h (λ gp, gp <| actor_props := t |>)
      | None => gp ← node_of w h; Some w
      end
  end.

(** <src/ffi.cpp:960-969 gamePeerGetBasePeer> *)
Definition gamePeerGetBasePeer env (gp : option GamePeer) : option peer_ptr :=
  match gp with
  | Some n => if gamePeerIsValid gp then lock env (peer n) else None
  | None => None
  end.

(** <src/ffi.cpp:971-976 gamePeerDisconnect>
    With [GamePeer::disconnect] of game.cpp: the peer that is told to
    disconnect, if any; the call returns whether there is one. *)
Definition gamePeerDisconnect env (gp : option GamePeer) : option peer_ptr :=
  match gp with
  | Some n => if gamePeerIsValid gp then lock env (peer n) else None
  | None => None
  end.
End ops.

Section games.
Context `{Ser, Codes, !Wire}.
Context (settings : AppSettings) (info : LobbyInfo) (alive : game_ptr → bool).
Implicit Types (g : Game) (env : PeerEnv) (gp : GamePeer) (w : Reach).

(** ** Configuration *)

(** <src/ffi.cpp:1156-1175 gameGetConfigState>
    What the outputs that are not null receive. *)
Definition gameGetConfigState g : Z * bool * bool * bool * Z * Z :=
  let state := get_config_snapshot g in
  (cs_flags state, cs_is_created state, cs_is_open state, cs_is_visible state,
   cs_max_peers state, cs_master_actor state).

(** <src/ffi.cpp:1177-1182 gameSetConfigState> *)
Definition gameSetConfigState g (flags_ : Z) (op vis : bool) (max master : Z) : Game :=
  set_config_state g flags_ op vis max master.

(** <src/ffi.cpp:1184-1189 gameGetMasterActor> *)
Definition gameGetMasterActor g : Z := cs_master_actor (get_config_snapshot g).

(** <src/ffi.cpp:1191-1199 gameSetMasterActor>
    [state] is the snapshot taken at the start of the call; the room is
    unlocked between it and the update of [g]. *)
Definition gameSetMasterActor (state : ConfigSnapshot) g (a : Z) : Game :=
  set_config_state g (cs_flags state) (cs_is_open state) (cs_is_visible state)
    (cs_max_peers state) a.

(** <src/ffi.cpp:1201-1206 gameGetLastActorId> *)
Definition gameGetLastActorId g : Z := cs_last_actor_id (get_config_snapshot g).

(** <src/ffi.cpp:1208-1213 gameGetMaxPeers> *)
Definition gameGetMaxPeers g : Z := cs_max_peers (get_config_snapshot g).

(** <src/ffi.cpp:1215-1223 gameSetMaxPeers> *)
Definition gameSetMaxPeers (state : ConfigSnapshot) g (max : Z) : Game :=
  set_config_state g (cs_flags state) (cs_is_open state) (cs_is_visible state)
    max (cs_master_actor state).

(** <src/ffi.cpp:1225-1235 gameGetTtlConfig> *)
Definition gameGetTtlConfig g : Z * Z :=
  let state := get_config_snapshot g in (cs_player_ttl state, cs_empty_game_ttl state).

(** <src/ffi.cpp:1237-1246 gameSetTtlConfig> *)
Definition gameSetTtlConfig g (player empty : Z) : Game :=
  bump_revision (g <| player_ttl := player |> <| empty_game_ttl := empty |>).

(** <src/ffi.cpp:1248-1257 gameGetCustomProps> *)
Definition gameGetCustomProps g : Value := of_table (custom_props g).

(** <src/ffi.cpp:1259-1273 gameSetCustomProps> *)
Definition gameSetCustomProps g (v : Value) : Game :=
  match get_table v with Some t => g <| custom_props := t |> | None => g end.

(** <src/ffi.cpp:1275-1284 gameGetLobbyPropsToSerValue> *)
Definition gameGetLobbyPropsToSerValue g : Value := of_strings (lobby_props g).

(** <src/ffi.cpp:1286-1298 gameSetLobbyPropsFromSerValue> *)
Definition gameSetLobbyPropsFromSerValue g (v : Value) : Game :=
  match get_strings v with Some l => g <| lobby_props := l |> | None => g end.

(** ** Expected users *)

(** <src/ffi.cpp:1300-1310 gameGetExpectedUsersToSerValue> *)
Definition gameGetExpectedUsersToSerValue g : Value := of_strings (elements (expected_users g)).

(** One reservation of the loop, with what it schedules so far. *)
Definition reserve_named (st : Game * list Effect) (u : string) : Game * list Effect :=
  if empty_str u then st
  else let '(g, _, eff) := reserve_expected_user st.1 u 30000 in (g, st.2 ++ eff).

(** <src/ffi.cpp:1312-1332 gameSetExpectedUsersFromSerValue> *)
Definition gameSetExpectedUsersFromSerValue g (v : Value) : Game * list Effect :=
  match get_strings v with
  | Some vec =>
      let previous_expected_users := elements (expected_users g) in
      let g := foldl remove_expected_user g previous_expected_users in
      foldl reserve_named (g, []) vec
  | None => (g, [])
  end.

(** <src/ffi.cpp:1334-1341 gameAddExpectedUser> *)
Definition gameAddExpectedUser g (u : string) : Game * list Effect :=
  let '(g, _, eff) := reserve_expected_user g u 30000 in (g, eff).

(** <src/ffi.cpp:1343-1350 gameRemoveExpectedUser> *)
Definition gameRemoveExpectedUser g (u : string) : Game := remove_expected_user g u.

(** ** Members *)

(** <src/ffi.cpp:1352-1357 gameGetPeerCount> *)
Definition gameGetPeerCount g : Z := active_peer_count g.

(** <src/ffi.cpp:1359-1369 gameCreatePeer>
    The shared pointer made for the call owns nothing and is gone when it
    returns, so the weak pointer of the node has expired. *)
Definition gameCreatePeer env w (p : peer_ptr) : Reach * NodeHandle :=
  let '(g, gp) := create_peer env (the_game w) (Some p) in
  let c := fresh (dom (containers w)) in
  (w <| the_game := g |> <| containers ::= <[c := gp <| peer := None |>]> |>, Container c).

(** <src/ffi.cpp:1371-1386 gameAddPeer>
    The handle given is freed whatever happened; freeing a node of a room is
    [None]. *)
Definition gameAddPeer env w (h : NodeHandle) : option (Reach * NodeHandle) :=
  gp ← node_of w h;
  match h, gp with
  | _, None => Some (w, NullNode)
  | Container c, Some gp =>
      let '(g, persistent_slot) := add_peer env (the_game w) gp in
      Some (w <| the_game := g |> <| containers ::= delete c |>,
            match persistent_slot with Some gp => Member (actor_id gp) | None => NullNode end)
  | _, Some _ => None
  end.

(** <src/ffi.cpp:1388-1398 gameRemovePeer> *)
Definition gameRemovePeer env g (p : peer_ptr) : Game * bool * list Effect :=
  remove_peer env g (Some p).

(** <src/ffi.cpp:1400-1411 gameFloodPeer> *)
Definition gameFloodPeer env g (gp : option GamePeer) : Game * bool * list Effect :=
  match gp with
  | Some gp => flood_peer_by_actor env g (actor_id gp)
  | None => (g, false, [])
  end.

(** <src/ffi.cpp:1413-1421 gameFindPeerByActorId> *)
Definition gameFindPeerByActorId g (a : Z) : NodeHandle :=
  match find_actor g a with Some gp => Member (actor_id gp) | None => NullNode end.

(** <src/ffi.cpp:1423-1434 gameFindPeerByBasePeer> *)
Definition gameFindPeerByBasePeer env g (p : peer_ptr) : NodeHandle :=
  match find_peer env g (Some p) with Some gp => Member (actor_id gp) | None => NullNode end.

(** ** Properties *)

(** <src/ffi.cpp:1472-1477 gameTriggerLobbyUpdate> *)
Definition gameTriggerLobbyUpdate g : list Effect := trigger_lobby_update info g.

(** <src/ffi.cpp:1479-1487 gameGetGameProp> *)
Definition gameGetGameProp g (key : Value) : Value := get_game_prop g key.

(** <src/ffi.cpp:1489-1497 gameGetLobbyGameProps> *)
Definition gameGetLobbyGameProps g : Value := of_table (get_lobby_game_props g).

(** <src/ffi.cpp:1499-1507 gameGetGameProps> *)
Definition gameGetGameProps g (no_custom : bool) : Value := of_table (get_game_props g no_custom).

(** <src/ffi.cpp:1509-1517 gameGetActorProps> *)
Definition gameGetActorProps g : Value := of_table (get_actor_props g).

(** <src/ffi.cpp:1519-1536 gameInsertGameProps>
    The target of the event is its default, 0. *)
Definition gameInsertGameProps env g (update : Value) (broadcast : bool) : Game * list Effect :=
  match get_table update with
  | Some t =>
      let '(g, eff) := insert_game_props settings info g t in
      (g, eff ++ (if broadcast
                  then (broadcast_event env g (create_property_update_event g 0 t 0)).2 else []))
  | None => (g, [])
  end.

(** <src/ffi.cpp:1538-1551 gameExpectGameProps> *)
Definition gameExpectGameProps g (expected : Value) : bool :=
  match get_table expected with Some t => expect_game_props g t | None => false end.

(** <src/ffi.cpp:1553-1573 gameInsertActorProps> *)
Definition gameInsertActorProps env g (a : Z) (update : Value) (broadcast : bool) :
    Game * bool * list Effect :=
  match get_table update with
  | Some t =>
      let '(g, ok) := insert_actor_props g a t in
      (g, ok, if ok && broadcast
              then (broadcast_event env g (create_property_update_event g 0 t a)).2 else [])
  | None => (g, false, [])
  end.

(** <src/ffi.cpp:1575-1588 gameExpectActorProps>
    The exception of an absent property is caught at the boundary. *)
Definition gameExpectActorProps g (a : Z) (expected : Value) : bool * FfiError :=
  ffi_safe_call false
    match get_table expected with
    | Some t => match expect_actor_props g a t with
                | Some b => inl b
                | None => inr (StdException "std::out_of_range" "at")
                end
    | None => inl false
    end.

(** <src/ffi.cpp:1590-1603 gameMatchesFilter> *)
Definition gameMatchesFilter (event_data flt : Value) : bool :=
  match get_table flt with Some t => matches_filter event_data t | None => false end.
End games.

(** ** All calls that change something *)

Section runs.
Context `{Ser, Codes, !Wire}.
Context (settings : AppSettings) (info : LobbyInfo) (alive : game_ptr → bool).
Implicit Types (g : Game) (env : PeerEnv) (gp : GamePeer) (w : Reach).

Inductive PluginCall :=
  | CreateContainer
  | DestroyContainer (h : NodeHandle)
  | SetInterestGroup (h : NodeHandle) (group : Z) (enable : bool)
  | SetInterestGroupsMask (h : NodeHandle) (mask_words : option (list Z))
  | SetActorProps (h : NodeHandle) (props : option Value)
  | SetConfigState (flags_ : Z) (op vis : bool) (max master : Z)
  | SetMasterActor (state : ConfigSnapshot) (a : Z)
  | SetMaxPeers (state : ConfigSnapshot) (max : Z)
  | SetTtlConfig (player empty : Z)
  | SetCustomProps (v : Value)
  | SetLobbyProps (v : Value)
  | SetExpectedUsers (v : Value)
  | AddExpectedUser (u : string)
  | RemoveExpectedUser (u : string)
  | CreatePeer (p : peer_ptr)
  | AddPeer (h : NodeHandle)
  | RemovePeer (p : peer_ptr)
  | FloodPeer (h : NodeHandle)
  | InsertGameProps (update : Value) (broadcast : bool)
  | InsertActorProps (a : Z) (update : Value) (broadcast : bool).

Definition on_game w (r : Game * list Effect) : option (Reach * list Effect) :=
  Some (w <| the_game := r.1 |>, r.2).

(** The call; [None] when it goes through a freed node or frees one of the
    room's. *)
Definition run_call env w (c : PluginCall) : option (Reach * list Effect) :=
  let g := the_game w in
  match c with
  | CreateContainer => Some ((createGamePeerContainer w).1, [])
  | DestroyContainer h => (., []) <$> destroyGamePeerContainer w h
  | SetInterestGroup h n b => (., []) <$> gamePeerSetInterestGroup alive w h n b
  | SetInterestGroupsMask h ws => (., []) <$> gamePeerSetInterestGroupsMask alive w h ws
  | SetActorProps h v => (., []) <$> gamePeerSetActorProps alive w h v
  | SetConfigState f o v m a => on_game w (gameSetConfigState g f o v m a, [])
  | SetMasterActor s a => on_game w (gameSetMasterActor s g a, [])
  | SetMaxPeers s m => on_game w (gameSetMaxPeers s g m, [])
  | SetTtlConfig p e => on_game w (gameSetTtlConfig g p e, [])
  | SetCustomProps v => on_game w (gameSetCustomProps g v, [])
  | SetLobbyProps v => on_game w (gameSetLobbyPropsFromSerValue g v, [])
  | SetExpectedUsers v => on_game w (gameSetExpectedUsersFromSerValue g v)
  | AddExpectedUser u => on_game w (gameAddExpectedUser g u)
  | RemoveExpectedUser u => on_game w (gameRemoveExpectedUser g u, [])
  | CreatePeer p => Some ((gameCreatePeer env w p).1, [])
  | AddPeer h => r ← gameAddPeer env w h; Some (r.1, [])
  | RemovePeer p => let '(g, _, eff) := gameRemovePeer env g p in on_game w (g, eff)
  | FloodPeer h =>
      gp ← node_of w h; let '(g, _, eff) := gameFloodPeer env g gp in on_game w (g, eff)
  | InsertGameProps v b => on_game w (gameInsertGameProps settings info env g v b)
  | InsertActorProps a v b =>
      let '(g, _, eff) := gameInsertActorProps env g a v b in on_game w (g, eff)
  end.

(** What a plugin and the server do in turn, in any environment of peers. *)
Inductive turn : Reach → Reach → Prop :=
  | plugin_turn env w c w' eff : run_call env w c = Some (w', eff) → turn w w'
  | server_turn w g' : step (the_game w) g' → turn w (w <| the_game := g' |>).

(** The room keeps its invariant, and no node of the plugin has a peer. *)
Record reach_ok w : Prop := {
  reach_game : game_ok (the_game w);
  reach_nodes : map_Forall (λ _ gp, peer gp = None) (containers w);
}.

Definition members g : list Z := actor_id <$> peers g.

(** A sequence of the room's own operations that adds nobody. *)
Definition call_steps g g' : Prop := rtc step g g' ∧ sublist (members g') (members g).

(** What a call does to what the plugin reaches. *)
Definition call_ok w w' : Prop :=
  call_steps (the_game w) (the_game w') ∧
  map_Forall (λ _ gp, peer gp = None) (containers w').

Lemma call_steps_refl g : call_steps g g.
Proof. by split. Qed.

(** One step that leaves the nodes' numbers alone. *)
Lemma one_step g g' : step g g' → members g' = members g → call_steps g g'.
Proof. intros Hs E. split; [by apply rtc_once|by rewrite E]. Qed.

(** Editing a valid node never reaches a retired one. *)
Lemma edit_valid_ok w h f w' :
  (∀ g a, step g (g <| peers ::= update_first (λ gp, active gp && (actor_id gp =? a)) f |>)) →
  (∀ gp, actor_id (f gp) = actor_id gp) → (∀ gp, peer (f gp) = peer gp) →
  reach_ok w → edit_valid alive w h f = Some w' → call_ok w w'.
Proof.
  intros Hf Ha Hp Hok. pose proof (reach_nodes _ Hok) as Hc. unfold edit_valid.
  destruct (node_of w h) as [gp|] eqn:Hn; [|done]. cbn [mbind option_bind].
  destruct (gamePeerIsValid alive gp) eqn:Hv; intros [= <-]; [|by split; [apply call_steps_refl|]].
  destruct h as [|c|a|i]; cbn [edit_node].
  - by split; [apply call_steps_refl|].
  - split; [by apply call_steps_refl|]. upd. intros c' gp'. rewrite lookup_alter_Some.
    intros [(-> & y & Hy & ->)|[_ Hy]]; [rewrite Hp|]; by eapply Hc.
  - split; [|done]. upd. apply one_step; [apply Hf|]. unfold members. upd.
    by apply update_first_fmap.
  - exfalso. cbn in Hn. destruct (retired_peers _ !! i) as [n|] eqn:Hi; [|done].
    injection Hn as <-. pose proof (ok_retired _ (reach_game _ Hok)) as Hr.
    rewrite Forall_lookup in Hr. specialize (Hr _ _ Hi).
    cbn in Hv. unfold is_valid in Hv. by rewrite Hr in Hv.
Qed.

(** A node without a peer is never added. *)
Lemma add_expired env g gp : peer gp = None → add_peer env g gp = (g, None).
Proof. intros E. unfold add_peer. destruct (_ && _); [done|]. by rewrite E. Qed.

Lemma room_members g g' : same_room g g' → members g' = members g.
Proof. intros Hs. unfold members. by destruct (same_room_fields _ _ Hs) as [-> _]. Qed.

Lemma reserve_named_steps l st : rtc step st.1 (foldl reserve_named st l).1.
Proof.
  revert st. induction l as [|u l IH]; intros [g eff]; [done|]. cbn [foldl].
  etransitivity; [|apply IH]. unfold reserve_named. destruct (empty_str u); [done|].
  unfold reserve_expected_user. cbn [fst snd]. apply rtc_once.
  pose proof (step_reserve g u 30000) as S.
  by destruct (reserve_expected_user_with_generation g u 30000) as [[g1 r] e].
Qed.

Lemma remove_named_steps l g : rtc step g (foldl remove_expected_user g l).
Proof.
  revert g. induction l as [|u l IH]; intros g; [done|]. cbn [foldl].
  eapply rtc_l; [apply step_unreserve|apply IH].
Qed.

Lemma reserve_named_room l st : same_room st.1 (foldl reserve_named st l).1.
Proof.
  revert st. induction l as [|u l IH]; intros [g eff]; [done|]. cbn [foldl].
  eapply same_room_trans; [|apply IH]. unfold reserve_named. destruct (empty_str u); [done|].
  unfold reserve_expected_user. cbn [fst snd]. pose proof (reserve_same_room g u 30000) as R.
  by destruct (reserve_expected_user_with_generation g u 30000) as [[g1 r] e].
Qed.

Lemma remove_named_room l g : same_room g (foldl remove_expected_user g l).
Proof.
  revert g. induction l as [|u l IH]; intros g; [done|]. cbn [foldl].
  eapply same_room_trans; [apply remove_expected_same_room|apply IH].
Qed.

Lemma remove_call env g p : call_steps g (gameRemovePeer env g p).1.1.
Proof.
  split; [apply rtc_once, step_remove|]. unfold gameRemovePeer, remove_peer, members.
  rewrite remove_loop_spec by lia.
  assert (sublist (actor_id <$> peers (removed_state env p g)) (actor_id <$> peers g)) as Hs.
  { apply (fmap_sublist actor_id). unfold removed_state. cbn. unfold kept, remove_if.
    apply sublist_filter. }
  destruct (_ =? 0); [done|].
  destruct (peers (removed_state env p g)) eqn:E; [by cbn [fst]; rewrite E|].
  cbn [fst]. destruct (_ =? _); upd; by rewrite E.
Qed.

Lemma flood_call env g (gp : option GamePeer) : call_steps g (gameFloodPeer env g gp).1.1.
Proof.
  unfold gameFloodPeer, flood_peer_by_actor, flood_peer.
  destruct gp as [gp|]; [|apply call_steps_refl].
  destruct (find_actor g _) as [n|]; [|apply call_steps_refl].
  destruct (negb _); [apply call_steps_refl|].
  destruct (lock env _) as [p|]; [|apply call_steps_refl].
  destruct (env !! p); [|apply call_steps_refl].
  by apply one_step; [apply (step_cache g (λ _, _))|].
Qed.

Lemma expected_call g v : call_steps g (gameSetExpectedUsersFromSerValue g v).1.
Proof.
  unfold gameSetExpectedUsersFromSerValue.
  destruct (get_strings v) as [vec|]; [|apply call_steps_refl].
  set (g1 := foldl remove_expected_user g _). split.
  - etransitivity; [apply remove_named_steps|apply (reserve_named_steps vec (g1, []))].
  - rewrite (room_members g _); [done|].
    eapply same_room_trans; [apply remove_named_room|apply (reserve_named_room vec (g1, []))].
Qed.

Lemma insert_actor_call g a t : call_steps g (insert_actor_props g a t).1.
Proof.
  apply one_step; [apply step_actor_props|]. unfold insert_actor_props, members.
  destruct (find_actor g a); [|done]. cbn [fst]. upd. by rewrite update_first_fmap.
Qed.

Lemma config_call g f o v m a : call_steps g (set_config_state g f o v m a).
Proof. by apply one_step; [apply step_config|]. Qed.

Lemma tables_call g custom lobby_ :
  call_steps g (g <| custom_props := custom |> <| lobby_props := lobby_ |>).
Proof. by apply one_step; [apply step_tables|]. Qed.

(** Every call is made of the room's own operations, and adds nobody. *)
Lemma run_call_ok env w c w' eff :
  reach_ok w → run_call env w c = Some (w', eff) → call_ok w w'.
Proof.
  intros Hok. pose proof (reach_nodes _ Hok) as Hn.
  assert (∀ r : Game * list Effect, call_steps (the_game w) r.1 →
    on_game w r = Some (w', eff) → call_ok w w') as Hgame.
  { by intros r Hr [= <- _]. }
  assert (∀ o : option Reach, (∀ w1, o = Some w1 → call_ok w w1) →
    (., []) <$> o = Some (w', eff) → call_ok w w') as Hnode.
  { intros [w1|] Ho; [|done]. intros [= <- _]. by apply Ho. }
  assert (call_ok w w) as Hsame by (by split; [apply call_steps_refl|]).
  destruct c; cbn [run_call].
  - intros [= <- _]. split; [by apply call_steps_refl|]. by apply map_Forall_insert_2.
  - apply Hnode. intros w1. unfold destroyGamePeerContainer.
    destruct (node_of w h) as [[gp|]|]; cbn; [|by destruct h; intros [= <-]|done].
    destruct h; try done. intros [= <-].
    split; [by apply call_steps_refl|]. by apply map_Forall_delete.
  - apply Hnode. intros w1 E.
    refine (edit_valid_ok _ _ _ _ _ _ _ Hok E); [intros g a|done..].
    apply step_groups_edit.
  - apply Hnode. intros w1. unfold gamePeerSetInterestGroupsMask.
    destruct mask_words; [|by intros [= <-]]. intros E.
    refine (edit_valid_ok _ _ _ _ _ _ _ Hok E); [intros g a|done..].
    apply step_groups_edit.
  - apply Hnode. intros w1. unfold gamePeerSetActorProps.
    destruct props as [v|]; [|by intros [= <-]].
    destruct (get_table v) as [t|]; [|by destruct (node_of w h); [intros [= <-]|]]. intros E.
    refine (edit_valid_ok _ _ _ _ _ _ _ Hok E); [intros g a|done..].
    apply (step_actor_edit g a (λ _, t)).
  - apply Hgame, config_call.
  - apply Hgame, config_call.
  - apply Hgame, config_call.
  - apply Hgame. cbn. apply one_step; [|done]. unfold gameSetTtlConfig.
    pose proof (step_settings (the_game w) player empty (flags (the_game w))
      (max_peers (the_game w))) as S. by destruct (the_game w).
  - apply Hgame. cbn. unfold gameSetCustomProps.
    destruct (get_table v) as [t|]; [|apply call_steps_refl].
    pose proof (tables_call (the_game w) t (lobby_props (the_game w))) as S.
    by destruct (the_game w).
  - apply Hgame. cbn. unfold gameSetLobbyPropsFromSerValue.
    destruct (get_strings v) as [l|]; [|apply call_steps_refl].
    pose proof (tables_call (the_game w) (custom_props (the_game w)) l) as S.
    by destruct (the_game w).
  - apply Hgame, expected_call.
  - apply Hgame. unfold gameAddExpectedUser, reserve_expected_user.
    pose proof (step_reserve (the_game w) u 30000) as S.
    pose proof (reserve_same_room (the_game w) u 30000) as R.
    destruct (reserve_expected_user_with_generation _ u 30000) as [[g1 r] e]. cbn [fst] in *.
    apply one_step; [done|by apply room_members].
  - apply Hgame.
    apply one_step; [apply step_unreserve|apply room_members, remove_expected_same_room].
  - intros [= <- _]. unfold gameCreatePeer.
    pose proof (create_peer_view env (the_game w) (Some p) (ok_last _ (reach_game _ Hok)))
      as (n & E & _).
    pose proof (step_create_peer (the_game w) env (Some p)) as S.
    destruct (create_peer env (the_game w) (Some p)) as [g1 gp]. cbn [fst] in *. split.
    + apply one_step; [done|]. cbn. by rewrite E.
    + by apply map_Forall_insert_2.
  - unfold gameAddPeer. destruct (node_of w h) as [[gp|]|] eqn:Eh; cbn; [| |done].
    2: { destruct h; cbn; by intros [= <- _]. }
    destruct h; cbn in *; try done.
    destruct (containers w !! c) as [gp'|] eqn:Ec; [|done]. injection Eh as ->.
    rewrite add_expired by by apply (Hn c). cbn. intros [= <- _].
    split; [by apply call_steps_refl|by apply map_Forall_delete].
  - pose proof (remove_call env (the_game w) p) as R.
    destruct (gameRemovePeer _ _ _) as [[g1 b] e]. by apply Hgame.
  - destruct (node_of w h) as [gp|]; [|done]. cbn [mbind option_bind].
    pose proof (flood_call env (the_game w) gp) as R.
    destruct (gameFloodPeer _ _ _) as [[g1 b] e]. by apply Hgame.
  - apply Hgame. unfold gameInsertGameProps.
    destruct (get_table update) as [t|]; [|apply call_steps_refl].
    pose proof (step_game_props (the_game w) settings info (map_to_list t)) as S.
    pose proof (insert_view settings info (map_to_list t) (the_game w)) as V.
    apply (f_equal (λ v, v.1.1.1.1.2)) in V. cbn in V.
    unfold insert_game_props. destruct (insert_game_props_in _ _ _ _) as [g1 e]. cbn [fst] in *.
    apply one_step; [done|]. unfold members. by rewrite V.
  - unfold gameInsertActorProps.
    destruct (get_table update) as [t|]; [|by apply Hgame, call_steps_refl].
    pose proof (insert_actor_call (the_game w) a t) as R.
    destruct (insert_actor_props _ _ _) as [g1 b]. by apply Hgame.
Qed.

Lemma call_reach_ok w w' : reach_ok w → call_ok w w' → reach_ok w'.
Proof. intros [Hg _] [[Hs _] Hn]. split; [by eapply steps_ok|done]. Qed.
End runs.

(** ** Replacing the expected users *)

Section expected.
Context `{Ser, Codes, !Wire}.
Implicit Types (g : Game).

Definition named (l : list string) : gset string :=
  list_to_set (filter (λ u, u ≠ EmptyString) l).

Definition expiry (un : string * Z) : Effect :=
  Schedule 30000 (ExpireExpectedUser un.1 un.2).

Lemma remove_users l g :
  expected_users (foldl remove_expected_user g l) = expected_users g ∖ list_to_set l.
Proof.
  revert g. induction l as [|u l IH]; intros g; cbn [foldl]; [set_solver|]. rewrite IH.
  assert (expected_users (remove_expected_user g u) = expected_users g ∖ {[u]}) as ->; [|set_solver].
  unfold remove_expected_user. destruct (expected_user_generations g !! u) as [n|]; [|done].
  upd. by destruct (note_removed_expected g u n) as [-> _].
Qed.

(** What a run of reservations adds: each new user once, with the expiry of
    the generation the room then has for that user. *)
Lemma reserve_users l g eff :
  let r := foldl reserve_named (g, eff) l in
  ∃ news, r.2 = eff ++ (expiry <$> news) ∧
    expected_users r.1 = expected_users g ∪ named l ∧
    NoDup news.*1 ∧ (∀ u, u ∈ news.*1 ↔ u ∈ named l ∧ u ∉ expected_users g) ∧
    (∀ u n, (u, n) ∈ news → expected_user_generations r.1 !! u = Some n) ∧
    (∀ u, u ∈ expected_users g →
       expected_user_generations r.1 !! u = expected_user_generations g !! u).
Proof.
  cbn zeta. revert g eff. induction l as [|u l IH]; intros g eff; cbn [foldl].
  { exists []. cbn. rewrite app_nil_r. unfold named. cbn.
    split; [done|]. split; [set_solver|]. split; [constructor|].
    split; [set_solver|]. split; [set_solver|done]. }
  assert (reserve_named (g, eff) u = (g, eff) ∧ (u = EmptyString ∨ u ∈ expected_users g) ∨
    ∃ g1 n, reserve_named (g, eff) u = (g1, eff ++ [expiry (u, n)]) ∧ u ≠ EmptyString ∧
      (u ∉ expected_users g) ∧ expected_users g1 = {[u]} ∪ expected_users g ∧
      expected_user_generations g1 = <[u := n]> (expected_user_generations g)) as Hstep.
  { unfold reserve_named, reserve_expected_user, empty_str. cbn [fst snd].
    destruct (bool_decide_reflect (u = EmptyString)) as [->|Hu]; [left; auto|].
    destruct (reserve_expected g u 30000) as
      [(_ & E & Ee & [?|?])|(n & _ & _ & _ & Hn & Ee & E1 & E2 & _)]; [done|left|right].
    - destruct (reserve_expected_user_with_generation g u 30000) as [[g1 r] e]. cbn in *. subst.
      rewrite app_nil_r. auto.
    - destruct (reserve_expected_user_with_generation g u 30000) as [[g1 r] e]. cbn in *. subst.
      exists g1, n. auto. }
  assert (named (u :: l) = (if decide (u = EmptyString) then ∅ else {[u]}) ∪ named l) as En.
  { unfold named. rewrite filter_cons. destruct (decide (u = EmptyString)), (decide (u ≠ EmptyString));
      done || set_solver. }
  rewrite En. destruct Hstep as [(-> & Hu)|(g1 & n & -> & Hu & Hn & E1 & E2)].
  - destruct (IH g eff) as (news & Hr & He & Hd & Hi & Hg & Hk).
    exists news. split; [done|]. split.
    { rewrite He. destruct (decide (u = EmptyString)) as [|]; set_solver. }
    split; [done|]. split; [|done]. intros v. rewrite Hi.
    destruct (decide (u = EmptyString)); [set_solver|]. destruct Hu as [?|Hu]; [done|].
    split; [set_solver|]. intros [[->%elem_of_singleton|?]%elem_of_union ?]; [done|auto].
  - rewrite decide_False by done.
    destruct (IH g1 (eff ++ [expiry (u, n)])) as (news & Hr & He & Hd & Hi & Hg & Hk).
    exists ((u, n) :: news). split; [by rewrite Hr, <-app_assoc|]. rewrite fmap_cons. split.
    { rewrite He, E1. set_solver. }
    assert (u ∉ news.*1) as Hun by (rewrite Hi, E1; set_solver).
    split; [constructor; done|]. split.
    { intros v. rewrite elem_of_cons, Hi, E1. cbn [fst].
      destruct (decide (v = u)) as [->|]; set_solver. }
    split.
    + intros v m. rewrite elem_of_cons. intros [[= -> ->]|Hv]; [|by apply Hg].
      rewrite Hk by (rewrite E1; set_solver). rewrite E2. apply lookup_insert_eq.
    + intros v Hv. rewrite Hk by (rewrite E1; set_solver). rewrite E2.
      apply lookup_insert_ne. by intros ->.
Qed.

(** The users a plugin lists take the place of those the room expected: each
    named one has one reservation, which expires after 30 seconds whether or
    not it was there before, and nothing else of the room changes. *)
Theorem set_expected_users_replaces g v vec :
  get_strings v = Some vec →
  let r := gameSetExpectedUsersFromSerValue g v in
  expected_users r.1 = named vec ∧ same_room g r.1 ∧
  ∃ news, r.2 = expiry <$> news ∧ NoDup news.*1 ∧ (∀ u, u ∈ news.*1 ↔ u ∈ named vec) ∧
    ∀ u n, (u, n) ∈ news → expected_user_generations r.1 !! u = Some n.
Proof.
  intros Hv. cbn zeta. unfold gameSetExpectedUsersFromSerValue. rewrite Hv.
  set (g1 := foldl remove_expected_user g (elements (expected_users g))).
  assert (expected_users g1 = ∅) as E.
  { unfold g1. rewrite remove_users, list_to_set_elements_L. set_solver. }
  destruct (reserve_users vec g1 []) as (news & Hr & He & Hd & Hi & Hg & _). cbn zeta in *.
  rewrite E in *. split; [by rewrite He; set_solver|]. split.
  { eapply same_room_trans; [apply remove_named_room|apply (reserve_named_room vec (g1, []))]. }
  exists news. split; [exact Hr|]. split; [done|]. split; [|done].
  intros u. rewrite Hi. set_solver.
Qed.
End expected.

(** ** What a plugin can and cannot do to a room *)

Section theorems.
Context `{Ser, Codes, !Wire}.
Context (settings : AppSettings) (info : LobbyInfo) (alive : game_ptr → bool).
Implicit Types (g : Game) (env : PeerEnv) (w : Reach).

(** Whatever a plugin calls, with whatever handles and in whatever turns with
    the server, the room keeps its invariant. *)
Theorem plugin_keeps_room w w' :
  reach_ok w → rtc (turn settings info alive) w w' → reach_ok w'.
Proof.
  intros Hok Hs. induction Hs as [|w w1 w2 Ht _ IH]; [done|]. apply IH. clear IH.
  destruct Ht as [env w c w1 eff Hc|w g' Hg].
  - eapply call_reach_ok, run_call_ok; eauto.
  - destruct Hok as [Hok Hn]. split; [|done]. apply (steps_ok (the_game w)); [done|by apply rtc_once].
Qed.

(** C38: A plugin's calls only ever take members away, in the order they are in:
    the node of [gameCreatePeer] has lost its peer by the time the call
    returns, so that [gameAddPeer] refuses it, whatever node it is given. *)
Theorem plugin_adds_no_member w w' :
  reach_ok w →
  rtc (λ w w', ∃ env c eff, run_call settings info alive env w c = Some (w', eff)) w w' →
  sublist (members (the_game w')) (members (the_game w)) ∧
  ∀ env h w'' r, gameAddPeer env w' h = Some (w'', r) →
    r = NullNode ∧ the_game w'' = the_game w'.
Proof.
  intros Hok Hs.
  assert (reach_ok w' ∧ sublist (members (the_game w')) (members (the_game w))) as [Hok' Hm].
  { induction Hs as [w|w w1 w2 (env & c & eff & Hc) _ IH]; [done|].
    pose proof (run_call_ok settings info alive _ _ _ _ _ Hok Hc) as Hcall.
    destruct (IH (call_reach_ok _ _ Hok Hcall)) as [? ?]. destruct Hcall as [[_ Hm1] _].
    split; [done|]. by etrans. }
  split; [done|]. intros env h w'' r. unfold gameAddPeer.
  destruct (node_of w' h) as [[gp|]|] eqn:Eh; cbn; [| |done].
  2: { destruct h; cbn; by intros [= <- <-]. }
  destruct h; cbn in *; try done.
  destruct (containers w' !! c) as [gp'|] eqn:Ec; [|done]. injection Eh as ->.
  rewrite add_expired by by apply (reach_nodes _ Hok' c). by intros [= <- <-].
Qed.
End theorems.
