(* ===== verification/Ipc.v ===== *)
(** * The inter-process message stream

    Models [ipc.cpp] (POSIX build): messages are serialized, prefixed with
    their length and written to a non-blocking stream socket; the receiver
    drains the socket into a buffer and takes one complete frame per call.
    The operating system decides how much each [send] and [recv] moves: its
    answers are an explicit list, an exhausted list meaning "would block". *)

From S2P Require Import Prelude.
Open Scope Z_scope.

Abbreviation bytes := (list Z).

(** The message serializer [IPCBinaryProtocol] belongs to the protocol
    library; [IpcCodecLaw] is what the stream relies on. *)
Class IpcCodec (Message : Type) := {
  ipc_serialize : Message → option bytes;
  ipc_deserialize : bytes → option Message;
}.
Class IpcCodecLaw (Message : Type) `{!IpcCodec Message} : Prop := {
  ipc_roundtrip m p : ipc_serialize m = Some p → ipc_deserialize p = Some m;
}.

(** <include/luxon/server/ipc.hpp:103-109 IPC> *)
Record IPC := mkIPC {
  fd_ : Z;
  child_fd_ : Z;
  recv_buffer_ : bytes;
  send_buffer_ : bytes;
}.
#[export] Instance eta_IPC : Eta IPC := λ i,
  mkIPC (fd_ i) (child_fd_ i) (recv_buffer_ i) (send_buffer_ i).

(** <include/luxon/server/ipc.hpp:20-26 IPC::INVALID_OS_SOCKET> *)
Definition INVALID_OS_SOCKET : Z := -1.

(** <include/luxon/server/ipc.hpp:98-98 IPC::is_open> *)
Definition is_open_ipc (i : IPC) : bool := negb (fd_ i =? INVALID_OS_SOCKET).

(** <src/ipc.cpp:283-288 IPC::close_child_fd> *)
Definition close_child_fd (i : IPC) : IPC :=
  if child_fd_ i =? INVALID_OS_SOCKET then i
  else i <| child_fd_ := INVALID_OS_SOCKET |>.

(** <src/ipc.cpp:227-231 IPC::IPC(IPC&&)>
    The new object and what is left of the moved-from one. *)
Definition move_ipc (i : IPC) : IPC * IPC :=
  (i, mkIPC INVALID_OS_SOCKET INVALID_OS_SOCKET [] []).

(** The exceptions the two operations throw. *)
Inductive IpcError :=
  | NotConnected | SerializeFailed | TooLarge | ConnectionLost
  | DeserializeFailed.

(** What [send] answers: bytes taken ([SendSome 0] is a return of 0), the
    retryable errors, or any other error. *)
Inductive SendRes := SendSome (n : nat) | SendIntr | SendAgain | SendFail.

(** What [recv] answers; no bytes is the end of the stream. *)
Inductive RecvRes := RecvData (d : bytes) | RecvIntr | RecvAgain | RecvFail.

(** ** Framing *)

(** <src/ipc.cpp:304-309 IPC::send_message>
    [htonl]: the four bytes of the length, most significant first. *)
Definition htonl (n : Z) : bytes :=
  [Z.land (Z.shiftr n 24) 255; Z.land (Z.shiftr n 16) 255;
   Z.land (Z.shiftr n 8) 255; Z.land n 255].

(** <src/ipc.cpp:423-425 IPC::receive_message> [ntohl] *)
Definition ntohl (b : bytes) : Z :=
  foldl (λ acc x, Z.lor (Z.shiftl acc 8) x) 0 (take 4 b).

(** <src/ipc.cpp:304-311 IPC::send_message> *)
Definition frame (payload : bytes) : bytes := htonl (u32 (len payload)) ++ payload.

Section stream.
Context {Message : Type} `{!IpcCodec Message}.

(** <src/ipc.cpp:316-364 IPC::send_message>
    The flush loop: what went out on the wire and what stays queued, or an
    error. *)
Fixpoint flush (os : list SendRes) (written pending : bytes) :
    bytes * (bytes + IpcError) :=
  match pending with
  | [] => (written, inl [])
  | _ =>
      match os with
      | [] | SendAgain :: _ => (written, inl pending)
      | SendIntr :: os => flush os written pending
      | SendFail :: _ | SendSome 0 :: _ => (written, inr ConnectionLost)
      | SendSome n :: os =>
          flush os (written ++ take n pending) (drop n pending)
      end
  end.

(** <src/ipc.cpp:290-365 IPC::send_message>
    The channel, the bytes handed to the socket and the exception thrown. *)
Definition send_message (i : IPC) (msg : Message) (os : list SendRes) :
    IPC * bytes * option IpcError :=
  if negb (is_open_ipc i) then (i, [], Some NotConnected)
  else match ipc_serialize msg with
  | None => (i, [], Some SerializeFailed)
  | Some payload =>
      if 2 ^ 32 - 1 <? len payload then (i, [], Some TooLarge)
      else
        let queued := send_buffer_ i ++ frame payload in
        match flush os [] queued with
        | (written, inl rest) => (i <| send_buffer_ := rest |>, written, None)
        | (written, inr e) =>
            (i <| send_buffer_ := queued |> <| fd_ := INVALID_OS_SOCKET |>,
             written, Some e)
        end
  end.

(** <src/ipc.cpp:371-417 IPC::receive_message>
    The draining loop: the bytes appended to the buffer, and whether the
    connection was lost. *)
Fixpoint drain (os : list RecvRes) (buf : bytes) : bytes * bool :=
  match os with
  | [] | RecvAgain :: _ => (buf, false)
  | RecvIntr :: os => drain os buf
  | RecvFail :: _ | RecvData [] :: _ => (buf, true)
  | RecvData d :: os => drain os (buf ++ d)
  end.

(** <src/ipc.cpp:419-435 IPC::receive_message>
    One complete frame of the buffer with the rest, if there is one. *)
Definition take_frame (buf : bytes) : option (bytes * bytes) :=
  if len buf <? 4 then None
  else
    let payload_len := ntohl buf in
    if len buf <? 4 + payload_len then None
    else
      let n := Z.to_nat payload_len in
      Some (take n (drop 4 buf), drop n (drop 4 buf)).

(** <src/ipc.cpp:367-444 IPC::receive_message> *)
Definition receive_message (i : IPC) (os : list RecvRes) :
    IPC * (option Message + IpcError) :=
  if negb (is_open_ipc i) then (i, inl None)
  else match drain os (recv_buffer_ i) with
  | (buf, true) =>
      (i <| recv_buffer_ := buf |> <| fd_ := INVALID_OS_SOCKET |>, inr ConnectionLost)
  | (buf, false) =>
      match take_frame buf with
      | None => (i <| recv_buffer_ := buf |>, inl None)
      | Some (payload, rest) =>
          (i <| recv_buffer_ := rest |>,
           match ipc_deserialize payload with
           | Some m => inl (Some m)
           | None => inr DeserializeFailed
           end)
      end
  end.

(** ** Runs of each side *)

(** Consecutive sends, each with what the socket answered to it. *)
Fixpoint send_all (i : IPC) (l : list (Message * list SendRes)) :
    IPC * bytes * option IpcError :=
  match l with
  | [] => (i, [], None)
  | (m, os) :: l =>
      match send_message i m os with
      | (i, out, None) =>
          let '(i, out', e) := send_all i l in (i, out ++ out', e)
      | (i, out, Some e) => (i, out, Some e)
      end
  end.

(** Consecutive receives, collecting the messages. *)
Fixpoint receive_all (i : IPC) (l : list (list RecvRes)) :
    IPC * list Message * option IpcError :=
  match l with
  | [] => (i, [], None)
  | os :: l =>
      match receive_message i os with
      | (i, inr e) => (i, [], Some e)
      | (i, inl r) =>
          let '(i, ms, e) := receive_all i l in (i, option_list r ++ ms, e)
      end
  end.

(** The data a sequence of socket answers delivers before it blocks or
    fails. *)
Fixpoint delivered_data (os : list RecvRes) : bytes :=
  match os with
  | RecvIntr :: os => delivered_data os
  | RecvData [] :: _ => []
  | RecvData d :: os => d ++ delivered_data os
  | _ => []
  end.
End stream.

(** ** Lemmas *)

Lemma ntohl_htonl n l : 0 ≤ n < 2 ^ 32 → ntohl (htonl n ++ l) = n.
Proof.
  intros Hn. unfold ntohl, htonl. cbn [app firstn foldl].
  rewrite take_0. cbn [foldl]. rewrite !byte_at by lia.
  assert (Z.land n 255 = n mod 256) as ->.
  { change 255 with (Z.ones 8). by rewrite Z.land_ones by lia. }
  rewrite Z.shiftl_0_l, Z.lor_0_l.
  assert (∀ a b c d, 0 ≤ a < 256 → 0 ≤ b < 256 → 0 ≤ c < 256 → 0 ≤ d < 256 →
    Z.lor (Z.shiftl (Z.lor (Z.shiftl (Z.lor (Z.shiftl a 8) b) 8) c) 8) d =
    ((a * 256 + b) * 256 + c) * 256 + d) as Hl.
  { intros. rewrite (lor_shift8 a) by lia. rewrite (lor_shift8 (a * 256 + b)) by lia.
    by rewrite lor_shift8 by lia. }
  rewrite Hl by (apply Z.mod_pos_bound; lia).
  change (2 ^ 24) with 16777216 in *. change (2 ^ 16) with 65536 in *.
  change (2 ^ 8) with 256 in *. change (2 ^ 32) with 4294967296 in *.
  change 16777216 with (256 * 256 * 256). change 65536 with (256 * 256).
  rewrite <-!Z.div_div by lia.
  Z.div_mod_to_equations. lia.
Qed.

Lemma length_htonl n : length (htonl n) = 4%nat.
Proof. done. Qed.

Section stream_facts.
Context {Message : Type} `{!IpcCodec Message, !IpcCodecLaw Message}.

(** Nothing is lost, duplicated or reordered between queue and wire. *)
Lemma flush_spec os written pending :
  match flush os written pending with
  | (out, inl rest) => out ++ rest = written ++ pending
  | (out, inr _) => ∃ rest, out ++ rest = written ++ pending
  end.
Proof.
  revert written pending. induction os as [|r os IH]; intros written pending.
  { destruct pending; cbn; done. }
  destruct pending as [|b pending]; [done|]. cbn [flush].
  destruct r as [[|n]| | |]; [by exists (b :: pending)| |apply IH|done|by exists (b :: pending)].
  specialize (IH (written ++ take (S n) (b :: pending)) (drop (S n) (b :: pending))).
  rewrite <-app_assoc, take_drop in IH. exact IH.
Qed.

(** The frames of a list of messages, one after the other. *)
Inductive framed : list Message → bytes → Prop :=
  | framed_nil : framed [] []
  | framed_cons m p ms l :
      ipc_serialize m = Some p → len p ≤ 2 ^ 32 - 1 → framed ms l →
      framed (m :: ms) (frame p ++ l).

Lemma framed_inv ms s :
  framed ms s →
  (ms = [] ∧ s = []) ∨
  ∃ m p ms' l, ms = m :: ms' ∧ ipc_serialize m = Some p ∧
    len p ≤ 2 ^ 32 - 1 ∧ framed ms' l ∧ s = frame p ++ l.
Proof. destruct 1; [by left|right]. eauto 10. Qed.

Lemma send_message_spec i m os :
  match send_message i m os with
  | (i', out, None) =>
      ∃ p, ipc_serialize m = Some p ∧ len p ≤ 2 ^ 32 - 1 ∧
        out ++ send_buffer_ i' = send_buffer_ i ++ frame p ∧
        fd_ i' = fd_ i ∧ recv_buffer_ i' = recv_buffer_ i
  | (i', _, Some _) => send_buffer_ i `prefix_of` send_buffer_ i'
  end.
Proof.
  unfold send_message. destruct (is_open_ipc i); cbn [negb]; [|done].
  destruct (ipc_serialize m) as [p|] eqn:Hp; [|done].
  destruct (Z.ltb_spec (2 ^ 32 - 1) (len p)); [done|].
  pose proof (flush_spec os [] (send_buffer_ i ++ frame p)) as Hf.
  destruct (flush os [] _) as [out [rest|e]]; cbn [set_field send_buffer_].
  - exists p. cbn in Hf. cbn. auto.
  - cbn. by eexists.
Qed.

(** C8: The sender's side of the stream: however the socket splits, delays or
    interrupts the writes, what has reached the wire followed by what is
    still queued is the concatenation of the frames of the messages sent, in
    order. *)
Theorem send_stream_conserved i l i' out :
  send_buffer_ i = [] →
  send_all i l = (i', out, None) →
  framed l.*1 (out ++ send_buffer_ i') ∧ fd_ i' = fd_ i.
Proof.
  assert (∀ pre, pre = send_buffer_ i →
    send_all i l = (i', out, None) →
    ∃ s, framed l.*1 s ∧ out ++ send_buffer_ i' = pre ++ s ∧ fd_ i' = fd_ i) as Hgen.
  { revert i i' out. induction l as [|[m os] l IH]; intros i i' out pre ->; cbn [send_all].
    { intros [= <- <-]. exists []. rewrite app_nil_r. repeat split; constructor. }
    pose proof (send_message_spec i m os) as Hs.
    destruct (send_message i m os) as [[i1 o1] [e|]]; [done|].
    destruct Hs as (p & Hp & Hle & Eo & Ef & _).
    destruct (send_all i1 l) as [[i2 o2] e2] eqn:E2. intros [= <- <- ->].
    destruct (IH i1 i2 o2 (send_buffer_ i1) eq_refl E2) as (s & Hfr & Es & Ef2).
    exists (frame p ++ s). split; [by constructor|]. split; [|congruence].
    by rewrite <-app_assoc, Es, app_assoc, Eo, <-app_assoc. }
  intros He Hs. destruct (Hgen [] (eq_sym He) Hs) as (s & Hf & -> & E).
  done.
Qed.

Lemma drain_data os buf :
  (drain os buf).1 = buf ++ delivered_data os.
Proof.
  revert buf. induction os as [|[d| | |] os IH]; intros buf; cbn; rewrite ?app_nil_r; try done.
  destruct d as [|b d]; cbn; [by rewrite app_nil_r|]. rewrite IH.
  by rewrite <-app_assoc.
Qed.

Lemma take_frame_cons p l :
  len p ≤ 2 ^ 32 - 1 → take_frame (frame p ++ l) = Some (p, l).
Proof.
  intros Hp. unfold take_frame, frame. rewrite <-app_assoc.
  rewrite (wrap_small 32) by lia. rewrite ntohl_htonl by lia.
  rewrite !length_app, length_htonl.
  destruct (Z.ltb_spec (Z.of_nat (4 + (length p + length l))) 4); [lia|].
  destruct (Z.ltb_spec (Z.of_nat (4 + (length p + length l))) (4 + len p)); [lia|].
  rewrite Nat2Z.id, drop_app_length' by done. by rewrite take_app_length, drop_app_length.
Qed.

(** A proper prefix of a frame stream starting with a frame that is not
    complete yields nothing. *)
Lemma take_frame_partial p buf rest l :
  len p ≤ 2 ^ 32 - 1 → buf ++ rest = frame p ++ l →
  (length buf < length (frame p))%nat → take_frame buf = None.
Proof.
  intros Hp E Hl. unfold take_frame. destruct (Z.ltb_spec (len buf) 4) as [|H4]; [done|].
  assert (ntohl buf = len p) as ->.
  { assert (take 4 buf = htonl (u32 (len p))) as Et.
    { apply (f_equal (take 4)) in E. rewrite take_app_le in E by lia.
      rewrite E. unfold frame. rewrite <-app_assoc. by rewrite take_app_length' by done. }
    unfold ntohl. rewrite Et. rewrite (wrap_small 32) by lia.
    pose proof (ntohl_htonl (len p) []) as Hn. unfold ntohl in Hn.
    rewrite app_nil_r in Hn. rewrite (take_ge (htonl _)) in Hn by done.
    apply Hn. lia. }
  unfold frame in Hl. rewrite length_app, length_htonl in Hl.
  destruct (Z.ltb_spec (len buf) (4 + len p)); [done|lia].
Qed.

(** What the receiver has buffered, with what is still to come, is a frame
    stream of the messages still to deliver. *)
Lemma receive_message_spec i os ms rest :
  fd_ i ≠ INVALID_OS_SOCKET →
  framed ms (recv_buffer_ i ++ delivered_data os ++ rest) →
  match receive_message i os with
  | (i', inl None) =>
      fd_ i' = fd_ i ∧ framed ms (recv_buffer_ i' ++ rest) ∧
      (∀ m ms', ms = m :: ms' → rest ≠ [])
  | (i', inl (Some m)) =>
      fd_ i' = fd_ i ∧
      ∃ ms', ms = m :: ms' ∧ framed ms' (recv_buffer_ i' ++ rest)
  | (_, inr e) => e = ConnectionLost
  end.
Proof.
  intros Hfd Hfr. unfold receive_message, is_open_ipc.
  apply Z.eqb_neq in Hfd. rewrite Hfd. cbn [negb].
  pose proof (drain_data os (recv_buffer_ i)) as Hd.
  destruct (drain os (recv_buffer_ i)) as [buf lost]. cbn [fst] in Hd.
  rewrite app_assoc, <-Hd in Hfr. destruct lost; [done|].
  destruct (framed_inv _ _ Hfr) as [[-> E2]|(m & p & ms' & l & -> & Hp & Hle & Hf & E2)].
  { apply app_eq_nil in E2 as [-> ->]. cbn. split; [done|]. split; [constructor|done]. }
  destruct (decide (length buf < length (frame p))%nat) as [Hlt|Hge].
  - rewrite (take_frame_partial p buf rest l) by done. split; [done|].
    split; [exact Hfr|]. intros m' ms'' _ ->.
    apply (f_equal length) in E2. rewrite !length_app in E2. cbn [length] in E2. lia.
  - assert (∃ buf', buf = frame p ++ buf' ∧ l = buf' ++ rest) as (buf' & -> & ->).
    { exists (drop (length (frame p)) buf). split.
      - rewrite <-(take_drop (length (frame p)) buf) at 1. f_equal.
        apply (f_equal (take (length (frame p)))) in E2.
        rewrite take_app_length, take_app_le in E2 by lia. done.
      - apply (f_equal (drop (length (frame p)))) in E2.
        by rewrite drop_app_length, drop_app_le in E2 by lia. }
    rewrite take_frame_cons, (ipc_roundtrip _ _ Hp) by done. cbn. eauto.
Qed.

(** C7: The receiver's side: reading a frame stream in any fragmentation,
    with any interruptions, delivers the messages in order, one per call and
    each exactly once; what is not delivered yet is still framed in the
    buffer and the unread data, and when nothing is left unread the calls
    run out of messages only after the last one. *)
Theorem receive_stream_in_order i l ms rest i' out :
  fd_ i ≠ INVALID_OS_SOCKET →
  framed ms (recv_buffer_ i ++ mjoin (delivered_data <$> l) ++ rest) →
  receive_all i l = (i', out, None) →
  ∃ later, ms = out ++ later ∧ framed later (recv_buffer_ i' ++ rest) ∧
    (rest = [] → mjoin (delivered_data <$> l) = [] →
     (length out < length l)%nat → later = []).
Proof.
  revert i ms i' out. induction l as [|os l IH]; intros i ms i' out Hfd Hfr; cbn [receive_all].
  { intros [= <- <-]. exists ms. split; [done|]. split; [done|]. intros _ _ Hl.
    cbn in Hl. lia. }
  cbn in Hfr. rewrite <-app_assoc in Hfr.
  pose proof (receive_message_spec i os ms _ Hfd Hfr) as Hs.
  destruct (receive_message i os) as [i1 [r|e]]; [|done].
  destruct (receive_all i1 l) as [[i2 ms2] e2] eqn:E2. intros [= <- <- ->].
  destruct r as [m|].
  - destruct Hs as (Ef & ms' & -> & Hfr').
    destruct (IH i1 ms' i2 ms2) as (later & -> & Hl & Hend); [congruence|done|done|].
    exists later. split; [done|]. split; [done|]. intros Hr Hd Hlen.
    apply Hend; [done| |cbn in Hlen; lia].
    cbn in Hd. by apply app_eq_nil in Hd as [_ ?].
  - destruct Hs as (Ef & Hfr' & Hne).
    destruct (IH i1 ms i2 ms2) as (later & -> & Hl & Hend); [congruence|done|done|].
    exists later. split; [done|]. split; [done|]. intros -> Hd Hlen.
    cbn in Hd. apply app_eq_nil in Hd as [_ Hd]. rewrite Hd in Hne.
    destruct (ms2 ++ later) as [|m ms'] eqn:E; [by apply app_eq_nil in E as [_ ?]|].
    exfalso. by apply (Hne m ms' eq_refl).
Qed.

(** A peer that closes right after a complete message takes the message
    with it: the end of the stream is raised as an error before the frames
    already received are looked at. *)
Theorem close_discards_received i m p :
  fd_ i ≠ INVALID_OS_SOCKET → recv_buffer_ i = [] →
  ipc_serialize m = Some p → len p ≤ 2 ^ 32 - 1 →
  (receive_message i [RecvData (frame p); RecvAgain]).2 = inl (Some m) ∧
  (receive_message i [RecvData (frame p); RecvData []]).2 = inr ConnectionLost ∧
  fd_ (receive_message i [RecvData (frame p); RecvData []]).1 = INVALID_OS_SOCKET.
Proof.
  intros Hfd Hb Hp Hle. unfold receive_message, is_open_ipc.
  apply Z.eqb_neq in Hfd. rewrite Hfd, Hb. cbn [negb].
  destruct (frame p) as [|b fr] eqn:Hfr; [by destruct p|]. cbn [drain].
  split; [|done]. rewrite app_nil_l, <-Hfr, <-(app_nil_r (frame p)).
  rewrite take_frame_cons by done. cbn. by rewrite (ipc_roundtrip _ _ Hp).
Qed.
End stream_facts.

(** ** Witnesses: strings sent as their character codes *)

Definition ByteString := bytes.
#[export] Instance bytes_codec : IpcCodec ByteString := {|
  ipc_serialize m := Some m;
  ipc_deserialize p := Some p;
|}.
#[export] Instance bytes_codec_law : IpcCodecLaw ByteString.
Proof. split. by intros m p [= ->]. Qed.

Definition open_channel : IPC := mkIPC 5 INVALID_OS_SOCKET [] [].

Lemma send_stream_conserved_witness :
  framed (Message := ByteString) [[1; 2; 3]; [4]]
    ([0; 0; 0; 3; 1; 2] ++ [3; 0; 0; 0; 1; 4]) ∧ fd_ open_channel = 5.
Proof.
  exact (send_stream_conserved (Message := ByteString) open_channel
    [([1; 2; 3], [SendSome 2; SendIntr; SendSome 3; SendAgain]);
     ([4], [SendSome 1; SendAgain])]
    (mkIPC 5 INVALID_OS_SOCKET [] [3; 0; 0; 0; 1; 4]) [0; 0; 0; 3; 1; 2]
    eq_refl eq_refl).
Defined.

Lemma receive_stream_in_order_witness :
  ∃ later : list ByteString, [[7; 8]; [9]] = [[7; 8]; [9]] ++ later ∧
    framed later ([] ++ []) ∧ ([] = @nil Z → mjoin (delivered_data <$>
      [[RecvData [0; 0]; RecvAgain]; [RecvIntr; RecvData [0; 2; 7; 8; 0]];
       [RecvData [0; 0; 1; 9]]]) = [] → (2 < 3)%nat → later = []).
Proof.
  apply (receive_stream_in_order (Message := ByteString) open_channel
    [[RecvData [0; 0]; RecvAgain]; [RecvIntr; RecvData [0; 2; 7; 8; 0]];
     [RecvData [0; 0; 1; 9]]] [[7; 8]; [9]] [] (mkIPC 5 INVALID_OS_SOCKET [] [])).
  - done.
  - apply (framed_cons (Message := ByteString) [7; 8] [7; 8] [[9]] [0; 0; 0; 1; 9]);
      [done|done|].
    apply (framed_cons (Message := ByteString) [9] [9] [] []); [done|done|constructor].
  - reflexivity.
Defined.

Lemma close_discards_received_witness :
  (receive_message (Message := ByteString) open_channel
     [RecvData (frame [7; 8]); RecvData []]).2 = inr ConnectionLost.
Proof.
  apply (close_discards_received (Message := ByteString) open_channel [7; 8] [7; 8]);
    done.
Defined.
