(* ===== verification/SockSelector.v ===== *)
(** * The socket selector

    Models [sock_selector.cpp] (Linux build): readable descriptors and their
    callbacks.  The callbacks live in a map from unsigned keys, used only
    through the [KeyedMap] interface; the proofs use only its laws.

    A callback may remove itself, or add a descriptor and make the map move its
    functions to grow.  In the code the captures of the running function are
    gone or moved from then on; the model takes all its commands, so it holds
    of callbacks that no longer use what they captured.  Those the program
    registers ([ServerManager::setup], [setup_subprocess] and
    [setup_http_server]) neither add nor remove descriptors while they run. *)

From S2P Require Import Prelude Interfaces OffsetMap.
Open Scope Z_scope.

(** What a callback asks of the selector while it runs; [ok] is the answer of
    [epoll_ctl]. *)
Inductive Command :=
  | AddFd (fd : Z) (callback : nat) (ok : bool)
  | RemoveFd (fd : Z).

Section selector.
Context (M : Type → Type) `{!KeyedMap 32 M, !KeyedMapLaws 32 M}.

(** The program's callbacks, by name: what each does when called for a
    descriptor. *)
Context (body : nat → Z → list Command).

(** <include/luxon/server/sock_selector.hpp:36-50 SockSelector>
    [callbacks] holds [std::function]s, [None] being the empty one;
    [capacity] is [events.size()].  The descriptors registered with the
    kernel are [watched]. *)
Record SockSelector := mkSelector {
  callbacks : M (option nat);
  watched : gset Z;
  capacity : Z;
}.
#[local] Instance eta_SockSelector : Eta SockSelector := λ s,
  mkSelector (callbacks s) (watched s) (capacity s).

(** [fd] converted to the map's key type [unsigned]. *)
Definition key (fd : Z) : Z := u32 fd.

(** <src/sock_selector.cpp:21-31 SockSelector::SockSelector> *)
Definition new_selector : SockSelector := mkSelector (km_empty (w := 32)) ∅ 128.

(** <src/sock_selector.cpp:84-107 SockSelector::add_read_fd> *)
Definition add_read_fd (s : SockSelector) (fd : Z) (callback : nat) (ok : bool) :
    SockSelector * bool :=
  if negb ok then (s, false)
  else (mkSelector
          (km_insert_or_assign (w := 32) (callbacks s) (key fd) (Some callback)).1
          ({[fd]} ∪ watched s) (capacity s), true).

(** <src/sock_selector.cpp:109-135 SockSelector::remove_read_fd> *)
Definition remove_read_fd (s : SockSelector) (fd : Z) : SockSelector :=
  mkSelector (km_erase (w := 32) (callbacks s) (key fd)).1
    (watched s ∖ {[fd]}) (capacity s).

Definition command (s : SockSelector) (c : Command) : SockSelector :=
  match c with
  | AddFd fd cb ok => (add_read_fd s fd cb ok).1
  | RemoveFd fd => remove_read_fd s fd
  end.

(** <src/sock_selector.cpp:55-58 SockSelector::run>
    The dispatch loop over the descriptors [epoll_wait] reported, with the
    calls made.  [callbacks[fd]] creates an empty function for an unknown
    descriptor, and calling it throws: [false]. *)
Fixpoint dispatch_events (s : SockSelector) (ready : list Z) :
    SockSelector * list (Z * nat) * bool :=
  match ready with
  | [] => (s, [], true)
  | fd :: ready =>
      match km_get (w := 32) (callbacks s) (key fd) with
      | Some (Some cb) =>
          let s := foldl command s (body cb fd) in
          let '(s, log, ok) := dispatch_events s ready in
          (s, (fd, cb) :: log, ok)
      | _ =>
          (mkSelector (km_insert (w := 32) (callbacks s) (key fd) None).1
             (watched s) (capacity s), [], false)
      end
  end.

(** <src/sock_selector.cpp:45-64 SockSelector::run>
    [None] is a failing [epoll_wait].  The event array doubles when it was
    filled. *)
Definition run (s : SockSelector) (ready : option (list Z)) :
    SockSelector * list (Z * nat) * option bool :=
  match ready with
  | None => (s, [], Some false)
  | Some ready =>
      match dispatch_events s ready with
      | (s, log, false) => (s, log, None)
      | (s, log, true) =>
          (if len ready =? capacity s
           then mkSelector (callbacks s) (watched s) (capacity s * 2) else s,
           log, Some true)
      end
  end.

(** ** Specification: a table from descriptors to callbacks *)

Definition valid_fd (fd : Z) : Prop := 0 ≤ fd < 2 ^ 31.

(** The selector's table is [t]; every entry is a registered callback. *)
Definition table (s : SockSelector) (t : gmap Z nat) : Prop :=
  km_repr (w := 32) (callbacks s) (Some <$> t).

Definition spec_command (t : gmap Z nat) (c : Command) : gmap Z nat :=
  match c with
  | AddFd fd cb true => <[fd := cb]> t
  | AddFd _ _ false => t
  | RemoveFd fd => delete fd t
  end.

Definition command_ok (c : Command) : Prop :=
  match c with AddFd fd _ _ | RemoveFd fd => valid_fd fd end.

(** The calls made for the ready descriptors, looked up when their turn
    comes; [None] when one has no callback then. *)
Fixpoint spec_dispatch (t : gmap Z nat) (ready : list Z) :
    option (gmap Z nat * list (Z * nat)) :=
  match ready with
  | [] => Some (t, [])
  | fd :: ready =>
      cb ← t !! fd;
      r ← spec_dispatch (foldl spec_command t (body cb fd)) ready;
      Some (r.1, (fd, cb) :: r.2)
  end.

Lemma key_fd fd : valid_fd fd → key fd = fd ∧ key_ok 32 fd.
Proof.
  unfold valid_fd, key, key_ok. intros. split; [|lia]. apply wrap_small. lia.
Qed.

Lemma new_selector_table : table new_selector ∅.
Proof. unfold table. rewrite fmap_empty. apply km_empty_repr. Qed.

Lemma command_table s t c :
  command_ok c → table s t → table (command s c) (spec_command t c).
Proof.
  unfold table. destruct c as [fd cb ok|fd]; cbn; intros Hfd Ht;
    destruct (key_fd fd Hfd) as [Hk Hok].
  - unfold add_read_fd. destruct ok; cbn; [|done]. rewrite Hk, fmap_insert.
    by apply km_assign_repr.
  - rewrite Hk, fmap_delete. by apply km_erase_repr.
Qed.

Lemma commands_table s t l :
  Forall command_ok l → table s t →
  table (foldl command s l) (foldl spec_command t l).
Proof.
  intros Hl. revert s t. induction Hl as [|c l Hc Hl IH]; intros s t Ht; [done|].
  cbn. apply IH. by apply command_table.
Qed.

(** C9: The selector refines a table from descriptors to callbacks: reported
    descriptors are served in order, each by the callback registered when its
    turn comes, and additions and removals made by callbacks take effect at
    once.  When a descriptor was removed by an earlier callback of the same
    round its call raises [std::bad_function_call]. *)
Theorem selector_refines_table (s : SockSelector) (t : gmap Z nat) (ready : list Z) :
  table s t →
  (∀ cb fd, Forall command_ok (body cb fd)) →
  Forall valid_fd ready →
  match spec_dispatch t ready with
  | Some (t', calls) =>
      (run s (Some ready)).2 = Some true ∧
      (run s (Some ready)).1.2 = calls ∧ table (run s (Some ready)).1.1 t'
  | None => (run s (Some ready)).2 = None
  end.
Proof.
  intros Ht Hb Hr.
  assert (match spec_dispatch t ready with
    | Some (t', calls) => ∃ s', dispatch_events s ready = (s', calls, true) ∧ table s' t'
    | None => ∃ s' log, dispatch_events s ready = (s', log, false)
    end) as Hd.
  { revert s t Ht. induction Hr as [|fd ready Hfd Hr IH]; intros s t Ht; cbn.
    { by exists s. }
    destruct (key_fd fd Hfd) as [Hk Hok]. rewrite Hk.
    rewrite (km_get_repr _ _ _ Ht Hok), lookup_fmap.
    destruct (t !! fd) as [cb|]; cbn; [|by do 2 eexists].
    specialize (IH _ _ (commands_table s t (body cb fd) (Hb cb fd) Ht)).
    destruct (spec_dispatch _ ready) as [[t' calls]|]; cbn.
    - destruct IH as (s' & -> & Ht'). by exists s'.
    - destruct IH as (s' & log & ->). by do 2 eexists. }
  unfold run. destruct (spec_dispatch t ready) as [[t' calls]|].
  - destruct Hd as (s' & -> & Ht'). split; [done|]. split; [done|]. cbn.
    by destruct (_ =? _).
  - destruct Hd as (s' & log & ->). done.
Qed.
End selector.

(** ** Witness: the selector over [offset_map]

    Callback 1 closes descriptor 9. *)

#[local] Instance laws32 : KeyedMapLaws 32 offset_map := offset_map_laws 32 eq_refl.

Definition closing (cb : nat) (fd : Z) : list Command :=
  if decide (cb = 1%nat) then [RemoveFd 9] else [].

Definition two_sockets : SockSelector offset_map :=
  foldl (command offset_map) (new_selector offset_map)
    [AddFd 5 1 true; AddFd 9 2 true].

Lemma two_sockets_table : table offset_map two_sockets {[5 := 1%nat; 9 := 2%nat]}.
Proof.
  replace ({[5 := 1%nat; 9 := 2%nat]} : gmap Z nat)
    with (foldl spec_command ∅ [AddFd 5 1 true; AddFd 9 2 true]) by (by vm_compute).
  apply commands_table; [apply _| |apply new_selector_table, _].
  by repeat constructor.
Qed.

Lemma selector_refines_table_witness :
  (run offset_map closing two_sockets (Some [9; 5])).1.2 = [(9, 2%nat); (5, 1%nat)] ∧
  (run offset_map closing two_sockets (Some [5; 9])).2 = None.
Proof.
  assert (∀ cb fd, Forall command_ok (closing cb fd)) as Hb.
  { intros cb fd. unfold closing. destruct (decide (cb = 1%nat)); by repeat constructor. }
  split.
  - refine (proj1 (proj2 (selector_refines_table offset_map closing two_sockets _ [9; 5]
      two_sockets_table Hb _))). by repeat constructor.
  - refine (selector_refines_table offset_map closing two_sockets _ [5; 9]
      two_sockets_table Hb _). by repeat constructor.
Defined.
