(* ===== verification/Metrics.v ===== *)
(** * Rolling statistics

    Models [metrics.hpp] and [metrics.cpp]: a metric keeps the samples of the
    last minute and gives the least, average and greatest value of a recent
    window.  Times are readings of the steady clock, in nanoseconds. *)

From S2P Require Import Prelude.
Open Scope Z_scope.

(** <include/luxon/server/metrics.hpp:11-14 Metric::Sample> *)
Record Sample := mkSample { timestamp : Z; sample : Z }.

(** The samples, oldest first. *)
Abbreviation Metric := (list Sample).

(** [duration_cast<milliseconds>(now - timestamp)] *)
Definition age_ms (now : Z) (s : Sample) : Z := Z.quot (now - timestamp s) 1000000.

(** <include/luxon/server/metrics.hpp:18-30 Metric::for_each_in_window>
    The values visited, newest first; [l] is what is left of the history. *)
Fixpoint visit (now duration_ms : Z) (l : list Sample) : list Z :=
  match l with
  | [] => []
  | s :: l => if duration_ms <? age_ms now s then [] else sample s :: visit now duration_ms l
  end.
Definition in_window (now duration_ms : Z) (history : Metric) : list Z :=
  visit now duration_ms (rev history).

(** <src/metrics.cpp:11-17 Metric::add> *)
Fixpoint drop_old (now : Z) (history : Metric) : Metric :=
  match history with
  | [] => []
  | s :: l => if 60000 <? age_ms now s then drop_old now l else history
  end.

(** <src/metrics.cpp:7-18 Metric::add> *)
Definition add (now value : Z) (history : Metric) : Metric :=
  drop_old now (history ++ [mkSample now value]).

(** <src/metrics.cpp:20-31 Metric::min> *)
Definition metric_min (now duration_ms : Z) (history : Metric) : Z :=
  let '(m, found) :=
    foldl (λ st v, (if v <? st.1 then v else st.1, true)) (2 ^ 32 - 1, false)
      (in_window now duration_ms history) in
  if found : bool then m else 0.

(** <src/metrics.cpp:33-42 Metric::max> *)
Definition metric_max (now duration_ms : Z) (history : Metric) : Z :=
  foldl (λ m v, if m <? v then v else m) 0 (in_window now duration_ms history).

(** <src/metrics.cpp:44-54 Metric::avg> *)
Definition metric_avg (now duration_ms : Z) (history : Metric) : Z :=
  let '(total, count) :=
    foldl (λ st v, (u64 (st.1 + v), st.2 + 1)) (0, 0) (in_window now duration_ms history) in
  if 0 <? count then u32 (total / count) else 0.

(** ** What the statistics say *)

(** The clock never goes back. *)
Definition in_order (now : Z) (history : Metric) : Prop :=
  StronglySorted (λ a b, timestamp a ≤ timestamp b) history ∧
  Forall (λ s, timestamp s ≤ now) history.

Lemma age_le now a b : timestamp a ≤ timestamp b → timestamp b ≤ now → age_ms now b ≤ age_ms now a.
Proof. unfold age_ms. intros. apply Z.quot_le_mono; lia. Qed.

(** Stopping at the first sample that is too old visits exactly the recent
    ones. *)
Lemma in_window_filter now duration history :
  in_order now history →
  in_window now duration history =
    sample <$> rev (filter (λ s, age_ms now s ≤ duration) history).
Proof.
  intros [Hs Hn]. unfold in_window. induction history as [|s l IH] using rev_ind; [done|].
  rewrite rev_unit. cbn [visit]. rewrite filter_app, rev_app_distr, fmap_app.
  apply Forall_app in Hn as [Hl Hs1]. apply Forall_cons in Hs1 as [Hs1 _].
  assert (Forall (λ x, timestamp x ≤ timestamp s) l ∧
    StronglySorted (λ a b, timestamp a ≤ timestamp b) l) as [Hx Hs'].
  { apply StronglySorted_app in Hs as (Hx & Hs & _). split; [|done].
    apply Forall_forall. intros x Hin. by apply Hx; [|left]. }
  rewrite filter_cons, filter_nil. destruct (Z.ltb_spec duration (age_ms now s)).
  - rewrite decide_False by lia. cbn. symmetry.
    assert (filter (λ s, age_ms now s ≤ duration) l = []) as ->; [|done].
    apply filter_none. intros x Hin. rewrite Forall_forall in Hx.
    pose proof (age_le now x s (Hx x Hin) Hs1). lia.
  - rewrite decide_True by lia. cbn. f_equal. by apply IH.
Qed.

Lemma max_spec l m :
  0 ≤ m → let r := foldl (λ m v, if m <? v then v else m) m l in
  m ≤ r ∧ (∀ v, v ∈ l → v ≤ r) ∧ (r = m ∨ r ∈ l).
Proof.
  revert m. induction l as [|v l IH]; intros m Hm; cbn zeta; cbn [foldl].
  { split; [lia|]. split; [|by left]. by intros v ?%elem_of_nil. }
  destruct (Z.ltb_spec m v) as [Hv|Hv].
  - destruct (IH v) as (H1 & H2 & H3); [lia|]. split; [lia|]. split.
    + intros x [-> |Hx]%elem_of_cons; [done|by apply H2].
    + right. destruct H3 as [-> |?]; [by left|by right].
  - destruct (IH m Hm) as (H1 & H2 & H3). split; [done|]. split.
    + intros x [-> |Hx]%elem_of_cons; [lia|by apply H2].
    + destruct H3 as [?|?]; [by left|by right; right].
Qed.

Lemma min_spec l m :
  let r := (foldl (λ (st : Z * bool) v, (if v <? st.1 then v else st.1, true)) m l).1 in
  r ≤ m.1 ∧ (∀ v, v ∈ l → r ≤ v) ∧ (r = m.1 ∨ r ∈ l).
Proof.
  revert m. induction l as [|v l IH]; intros [m f]; cbn zeta; cbn [foldl fst].
  { split; [lia|]. split; [|by left]. by intros v ?%elem_of_nil. }
  destruct (IH (if v <? m then v else m, true)) as (H1 & H2 & H3). cbn [fst] in *.
  destruct (Z.ltb_spec v m) as [Hv|Hv].
  - split; [lia|]. split.
    + intros x [-> |Hx]%elem_of_cons; [done|by apply H2].
    + right. destruct H3 as [-> |?]; [by left|by right].
  - split; [done|]. split.
    + intros x [-> |Hx]%elem_of_cons; [lia|by apply H2].
    + destruct H3 as [?|?]; [by left|by right; right].
Qed.

Lemma min_found l m f :
  (foldl (λ (st : Z * bool) v, (if v <? st.1 then v else st.1, true)) (m, f) l).2 =
  f || negb (bool_decide (l = [])).
Proof.
  revert m f. induction l as [|v l IH]; intros m f; cbn [foldl]; [by rewrite orb_false_r|].
  rewrite IH. by destruct f.
Qed.

(** The running sum stays exact below [2 ^ 64]. *)
Lemma sum_spec l t c :
  0 ≤ t → Forall (λ v, 0 ≤ v < 2 ^ 32) l → t + len l * 2 ^ 32 < 2 ^ 64 →
  let r := foldl (λ (st : Z * Z) v, (u64 (st.1 + v), st.2 + 1)) (t, c) l in
  r.1 = t + foldr Z.add 0 l ∧ r.2 = c + len l.
Proof.
  revert t c. induction l as [|v l IH]; intros t c Ht Hl Hb; cbn zeta; cbn [foldl foldr length].
  { cbn. lia. }
  apply Forall_cons in Hl as [Hv Hl]. cbn [length] in Hb. cbn [fst snd].
  rewrite wrap_small by lia.
  destruct (IH (t + v) (c + 1)) as [-> ->]; [lia|done|lia|]. lia.
Qed.

Lemma sum_bounds l a b :
  Forall (λ v, a ≤ v ≤ b) l → a * len l ≤ foldr Z.add 0 l ≤ b * len l.
Proof. induction 1; cbn [foldr length]; lia. Qed.

(** The statistics of a window: over the samples recorded in the last
    [duration] milliseconds, the least and the greatest value are values of
    the window that bound it, the average is the exact quotient of the sum,
    rounded down, and lies between them (so nothing wraps in 32 bits); all
    three are zero when the window is empty. *)
Theorem metric_statistics now duration history :
  in_order now history → Forall (λ s, 0 ≤ sample s < 2 ^ 32) history →
  len history ≤ 2 ^ 31 →
  let window := sample <$> rev (filter (λ s, age_ms now s ≤ duration) history) in
  let least := metric_min now duration history in
  let greatest := metric_max now duration history in
  let average := metric_avg now duration history in
  match window with
  | [] => least = 0 ∧ greatest = 0 ∧ average = 0
  | _ => least ∈ window ∧ greatest ∈ window ∧ (∀ v, v ∈ window → least ≤ v ≤ greatest) ∧
         average = foldr Z.add 0 window / len window ∧ least ≤ average ≤ greatest
  end.
Proof.
  intros Ho Hb Hlen window. unfold metric_min, metric_max, metric_avg.
  rewrite !in_window_filter by done. fold window.
  assert (Forall (λ v, 0 ≤ v < 2 ^ 32) window) as Hw.
  { apply Forall_fmap. rewrite Forall_forall in *. intros s Hs. apply Hb.
    apply list_elem_of_In, in_rev, list_elem_of_In, list_elem_of_filter in Hs. tauto. }
  assert (len window ≤ 2 ^ 31) as Hlw.
  { subst window. rewrite length_fmap, length_rev.
    pose proof (length_filter (λ s, age_ms now s ≤ duration) history). lia. }
  clearbody window. destruct window as [|w ws] eqn:Ew; [done|]. rewrite <-Ew in *.
  pose proof (min_spec window (2 ^ 32 - 1, false)) as (M1 & M2 & M3).
  pose proof (min_found window (2 ^ 32 - 1) false) as Mf.
  destruct (foldl _ (2 ^ 32 - 1, false) window) as [least found]. cbn [fst snd] in *.
  rewrite bool_decide_eq_false_2 in Mf by (by rewrite Ew). subst found.
  pose proof (max_spec window 0) as (X1 & X2 & X3); [lia|]. set (greatest := foldl _ 0 window) in *.
  destruct (sum_spec window 0 0) as [S1 S2]; [lia|done|lia|].
  destruct (foldl _ (0, 0) window) as [total count]. cbn [fst snd] in *. subst total count.
  assert (w ∈ window) as Hin by (rewrite Ew; by left).
  rewrite Forall_forall in Hw. pose proof (Hw w Hin) as Hw0.
  assert (0 < len window) as Hpos by (rewrite Ew; cbn [length]; lia).
  assert (least ∈ window) as Hleast.
  { destruct M3 as [E|?]; [|done]. specialize (M2 w Hin). assert (w = least) as <- by lia. done. }
  assert (greatest ∈ window) as Hgreat.
  { destruct X3 as [E|?]; [|done]. specialize (X2 w Hin). assert (w = greatest) as <- by lia. done. }
  destruct (sum_bounds window least greatest) as [B1 B2].
  { apply Forall_forall. intros v Hv. split; [by apply M2|by apply X2]. }
  assert (least ≤ foldr Z.add 0 window / len window ≤ greatest) as Havg.
  { split; [apply Z.div_le_lower_bound; lia|apply Z.div_le_upper_bound; lia]. }
  pose proof (Hw _ Hleast). pose proof (Hw _ Hgreat). rewrite !Z.add_0_l.
  rewrite (proj2 (Z.ltb_lt 0 _)) by done. rewrite wrap_small by lia.
  split; [done|]. split; [done|]. split; [|by split]. intros v Hv. split; [by apply M2|by apply X2].
Qed.

Lemma filter_every {A} (Q : A → Prop) `{∀ x, Decision (Q x)} (l : list A) :
  (∀ x, x ∈ l → Q x) → filter Q l = l.
Proof.
  induction l as [|x l IH]; intros Hq; [done|]. rewrite filter_cons_True by (apply Hq; by left).
  f_equal. apply IH. intros y Hy. apply Hq. by right.
Qed.

(** Adding keeps the samples in order and those of the last minute only. *)
Lemma drop_old_spec now history :
  in_order now history →
  drop_old now history = filter (λ s, age_ms now s ≤ 60000) history.
Proof.
  intros [Hs Hn]. induction history as [|s l IH]; [done|].
  apply StronglySorted_inv in Hs as [Hs Hx]. apply Forall_cons in Hn as [Hn Hl].
  cbn [drop_old]. rewrite filter_cons. destruct (Z.ltb_spec 60000 (age_ms now s)).
  - rewrite decide_False by lia. by apply IH.
  - rewrite decide_True by lia. f_equal. symmetry. apply filter_every.
    rewrite Forall_forall in *. intros x Hin. pose proof (age_le now s x (Hx x Hin) (Hl x Hin)). lia.
Qed.

Lemma metric_statistics_witness :
  let h := add 2000000 7 (add 1000000 3 []) in
  metric_min 2000000 30000 h ≤ metric_avg 2000000 30000 h ≤ metric_max 2000000 30000 h.
Proof.
  intros h.
  pose proof (metric_statistics 2000000 30000 h) as H.
  refine (proj2 (proj2 (proj2 (proj2 (H _ _ _))))).
  - split; repeat constructor; discriminate.
  - repeat constructor; discriminate.
  - discriminate.
Defined.
