(* ===== verification/ServerManager.v ===== *)
(** * The server manager's own machinery

    Models the parts of [server_manager.cpp] the components lean on: endpoint
    addresses and their proxies, the global limits, the queue of scheduled
    tasks, the round over the listening servers within a tick's time budget,
    and the relaying of messages between processes. *)

From S2P Require Import Prelude Values Types.
Open Scope Z_scope.

(** ** Configuration *)

(** <include/luxon/server/server_manager.hpp:55-55 ServerType> *)
Inductive ServerType := NoServer | NameServer | MasterServer | GameServer.

#[export] Instance ServerType_eq_dec : EqDecision ServerType.
Proof. solve_decision. Defined.

(** The transport protocols are the network library's; the server names
    three of them. *)
Class Transports := {
  ServerProtocol : Type;
  UDP : ServerProtocol;
  TCP : ServerProtocol;
  WebSocket : ServerProtocol;
  ServerProtocol_eq_dec :: EqDecision ServerProtocol;
}.

Section config.
Context `{Transports}.

(** <include/luxon/server/server_manager.hpp:57-60 ProxyConfig> *)
Record ProxyConfig := mkProxyConfig {
  proxy_protocol : ServerProtocol;
  proxy_address : string;
}.

(** <include/luxon/server/server_manager.hpp:62-73 ServerConfig> *)
Record ServerConfig := mkServerConfig {
  config_type : ServerType;
  config_port : Z;
  config_allow_unsolicited : bool;
  config_subprocess : bool;
  is_routing_only : bool;
  stun_server_host : string;
  stun_server_port : Z;
  external_address : string;
  proxies : list ProxyConfig;
}.
Implicit Types (configs : list ServerConfig).

(** <src/server_manager.cpp:137-142 NormalizeMaxGamePeers> *)
Definition NormalizeMaxGamePeers (value : Z) : Z :=
  let normalized := u8 (Z.min value 255) in
  if normalized =? 255 then 0 else normalized.

(** ** Addresses *)

(** <src/server_manager.cpp:518-530 ServerManager::get_static_endpoint_address_str>
    The view returned is the configuration's own copy of the string; the
    empty string when there is none. *)
Fixpoint get_static_endpoint_address_str configs (address : string) : string :=
  match configs with
  | [] => EmptyString
  | cfg :: configs =>
      if bool_decide (external_address cfg = address) then external_address cfg
      else match find_first (λ p, bool_decide (proxy_address p = address)) (proxies cfg) with
           | Some p => proxy_address p
           | None => get_static_endpoint_address_str configs address
           end
  end.

(** <src/server_manager.cpp:532-550 ServerManager::get_random_server_base_address>
    [pick] draws an index below the bound it is given; the function throws
    without a candidate. *)
Definition get_random_server_base_address configs (pick : nat → nat)
    (server_type : ServerType) : option string :=
  let candidates := filter (λ cfg, config_type cfg = server_type ∧
                              external_address cfg ≠ EmptyString) configs in
  external_address <$> (candidates !! pick (length candidates)).

(** <src/server_manager.cpp:552-567 ServerManager::resolve_server_address> *)
Fixpoint resolve_server_address configs (t : ServerType) (proto : ServerProtocol)
    (base_address : string) : string :=
  match configs with
  | [] => base_address
  | cfg :: configs =>
      if bool_decide (config_type cfg = t) && bool_decide (external_address cfg = base_address)
      then
        if bool_decide (proto = UDP) then external_address cfg
        else match find_first (λ p, bool_decide (proxy_protocol p = proto)) (proxies cfg) with
             | Some p => proxy_address p
             | None => external_address cfg
             end
      else resolve_server_address configs t proto base_address
  end.

(** <src/server_manager.cpp:569-572 ServerManager::get_random_server_address> *)
Definition get_random_server_address configs pick t proto : option string :=
  resolve_server_address configs t proto <$> get_random_server_base_address configs pick t.
End config.

(** ** Scheduled tasks *)

(** <include/luxon/server/server_manager.hpp:160-164 ServerManager::ScheduledTask>
    The callback is its name. *)
Record ScheduledTask := mkTask { execution_time : Z; cb : nat }.
#[export] Instance ScheduledTask_eq_dec : EqDecision ScheduledTask.
Proof. solve_decision. Defined.

Implicit Types (q : list ScheduledTask) (now : Z).

(** <include/luxon/server/server_manager.hpp:299-305 ServerManager::add_scheduled_task>
    [unsigned] target times wrap at 32 bits. *)
Definition add_scheduled_task now q (delay_ms : Z) (callback : nat) : list ScheduledTask :=
  mkTask (wrap 32 (now + delay_ms)) callback :: q.

(** [scheduled_tasks_.top()]: a task no other task is due before.  Which one
    of several is the heap's choice. *)
Definition is_top q (t : ScheduledTask) : Prop :=
  t ∈ q ∧ ∀ t', t' ∈ q → execution_time t ≤ execution_time t'.

(** <src/server_manager.cpp:574-596 ServerManager::run_scheduled_tasks>
    One call runs at most one task. *)
Inductive run_scheduled_tasks now : list ScheduledTask → list ScheduledTask →
    option ScheduledTask → Prop :=
  | run_nothing : run_scheduled_tasks now [] [] None
  | run_not_due q t :
      is_top q t → now ≤ execution_time t → run_scheduled_tasks now q q None
  | run_task_now l1 t l2 :
      is_top (l1 ++ t :: l2) t → execution_time t < now →
      run_scheduled_tasks now (l1 ++ t :: l2) (l1 ++ l2) (Some t).

(** ** One round over the servers *)

Section round.
(** [service i budget] is what remains of the time budget after servicing
    the [i]-th server: the network library's. *)
Context (service : nat → Z → Z).

(** <src/server_manager.cpp:657-684 ServerManager::run_once>
    The [n] servers are numbered in the table's order and [it] is the
    iterator kept between ticks, [n] being [end()].  The loop returns the
    iterator and the servers serviced, in order. *)
Fixpoint service_servers (n servers_to_process : nat) (it : nat)
    (remaining_timeout : Z) : nat * list nat :=
  match servers_to_process with
  | O => (it, [])
  | S servers_to_process =>
      if 0 <? remaining_timeout then
        let i := if (it =? n)%nat then O else it in
        let '(it, done) := service_servers n servers_to_process (S i)
                             (service i remaining_timeout) in
        (it, i :: done)
      else (it, [])
  end.

(** Several ticks, each with the whole budget. *)
Fixpoint ticks (n : nat) (tick_time_budget : Z) (k it : nat) : nat * list nat :=
  match k with
  | O => (it, [])
  | S k =>
      let '(it, done) := service_servers n n it tick_time_budget in
      let '(it, later) := ticks n tick_time_budget k it in
      (it, done ++ later)
  end.
End round.

(** <src/server_manager.cpp:495-497 ServerManager::ServerManager> *)
Definition effective_budget (tick_time_budget : Z) : Z :=
  if tick_time_budget =? 0 then 2 ^ 32 - 1 else tick_time_budget.

(** ** Relaying messages between processes *)

(** <src/server_manager.cpp:761-771 ServerManager::ipc_broadcast>
    Connections are numbered; [parent_ipc] is the connection to the parent
    process, [is_open] the state of each.  The result lists the connections
    the message is sent over. *)
Definition ipc_broadcast (is_open : nat → bool) (parent_ipc : nat)
    (subprocesses : list nat) (skip : option nat) (parent children : bool) : list nat :=
  let goes i := negb (bool_decide (skip = Some i)) && is_open i in
  (if parent && goes parent_ipc then [parent_ipc] else [])
  ++ (if children then filter (λ i, goes i = true) subprocesses else []).

(** ** Properties *)

Section addresses.
Context `{Transports}.
Implicit Types (configs : list ServerConfig).

(** An address some server or one of its proxies is reached at. *)
Definition known_address configs (a : string) : Prop :=
  ∃ cfg, cfg ∈ configs ∧
    (external_address cfg = a ∨ ∃ p, p ∈ proxies cfg ∧ proxy_address p = a).

Lemma static_address_known configs a :
  known_address configs a → get_static_endpoint_address_str configs a = a.
Proof.
  induction configs as [|cfg configs IH]; intros (c & Hc & Ha); [set_solver|].
  cbn [get_static_endpoint_address_str]. case_bool_decide as He; [done|].
  destruct (find_first _ _) eqn:Hf.
  - apply find_first_Some in Hf as [_ Hp]. by apply bool_decide_eq_true in Hp.
  - apply IH. exists c. split; [|done]. apply elem_of_cons in Hc as [->|]; [|done].
    exfalso. destruct Ha as [|(p & Hp & Hpa)]; [done|].
    rewrite find_first_None in Hf. specialize (Hf _ Hp).
    by rewrite bool_decide_eq_false in Hf.
Qed.

Lemma static_address_unknown configs a :
  ¬ known_address configs a → get_static_endpoint_address_str configs a = EmptyString.
Proof.
  induction configs as [|cfg configs IH]; intros Hn; [done|].
  cbn [get_static_endpoint_address_str]. case_bool_decide as He.
  { destruct Hn. exists cfg. split; [by left|by left]. }
  destruct (find_first _ _) as [p|] eqn:Hf.
  - apply find_first_Some in Hf as [Hin Hp]. apply bool_decide_eq_true in Hp.
    destruct Hn. exists cfg. split; [by left|right; eauto].
  - apply IH. intros (c & Hc & Ha). apply Hn. exists c. split; [by right|done].
Qed.

(** A base address resolves to itself or to a proxy, for the client's
    transport, of a server of that type listening there. *)
Lemma resolve_address_spec configs t proto cfg :
  cfg ∈ configs → config_type cfg = t →
  let a := resolve_server_address configs t proto (external_address cfg) in
  ∃ c, c ∈ configs ∧ config_type c = t ∧ external_address c = external_address cfg ∧
    (a = external_address c ∨
     proto ≠ UDP ∧ ∃ p, p ∈ proxies c ∧ proxy_protocol p = proto ∧ proxy_address p = a).
Proof.
  induction configs as [|c configs IH]; intros Hin Ht; [set_solver|].
  cbn [resolve_server_address]. destruct (bool_decide _ && bool_decide _) eqn:E.
  - apply andb_prop in E as [?%bool_decide_eq_true ?%bool_decide_eq_true].
    exists c. do 3 (split; [by constructor || done|]).
    case_bool_decide; [by left|]. destruct (find_first _ _) as [p|] eqn:Hf; [|by left].
    apply find_first_Some in Hf as [Hp ?%bool_decide_eq_true]. right. eauto.
  - apply elem_of_cons in Hin as [->|Hin].
    { by rewrite !bool_decide_eq_true_2 in E. }
    destruct (IH Hin Ht) as (c' & ? & ? & ? & ?). exists c'. by repeat split; [right|..].
Qed.

Lemma random_address_listed configs pick t proto a :
  get_random_server_address configs pick t proto = Some a →
  ∃ c, c ∈ configs ∧ config_type c = t ∧ external_address c ≠ EmptyString ∧
    (a = external_address c ∨
     proto ≠ UDP ∧ ∃ p, p ∈ proxies c ∧ proxy_protocol p = proto ∧ proxy_address p = a).
Proof.
  unfold get_random_server_address, get_random_server_base_address.
  rewrite <-option_fmap_compose. intros (cfg & Hc & ->)%fmap_Some. cbn.
  apply list_elem_of_lookup_2, list_elem_of_filter in Hc as ((Ht & Hne) & Hin).
  destruct (resolve_address_spec _ _ proto _ Hin Ht) as (c & Hcin & Hct & He & Ha).
  exists c. rewrite He in *. done.
Qed.

(** The address handed to a client for a kind of server is, whatever the
    random choice, that of a configured server of that kind or of its proxy
    for the client's transport, and a room created under it finds the
    configuration's own copy.  Of any other address a room keeps the empty
    string. *)
Theorem handed_out_address_resolves configs pick t proto a :
  get_random_server_address configs pick t proto = Some a →
  (∃ c, c ∈ configs ∧ config_type c = t ∧ external_address c ≠ EmptyString ∧
    (a = external_address c ∨
     proto ≠ UDP ∧ ∃ p, p ∈ proxies c ∧ proxy_protocol p = proto ∧ proxy_address p = a)) ∧
  get_static_endpoint_address_str configs a = a ∧
  (∀ b, ¬ known_address configs b →
     get_static_endpoint_address_str configs b = EmptyString).
Proof.
  intros Ha. pose proof (random_address_listed _ _ _ _ _ Ha) as (c & Hin & Hct & Hne & Hac).
  split; [eauto 10|]. split; [|apply static_address_unknown].
  apply static_address_known. exists c. split; [done|].
  destruct Hac as [->|(_ & p & Hp & _ & <-)]; [by left|right; eauto].
Qed.
End addresses.

(** ** Scheduled tasks run *)

(** Ticks with the tasks added after each; the tasks run, in order. *)
Inductive run_ticks : list ScheduledTask → list (Z * list ScheduledTask) →
    list ScheduledTask → Prop :=
  | run_ticks_nil q : run_ticks q [] []
  | run_ticks_cons q now added events q' t ran :
      run_scheduled_tasks now q q' t → run_ticks (added ++ q') events ran →
      run_ticks q ((now, added) :: events) (option_list t ++ ran).

(** A queue that is not empty has a top. *)
Lemma is_top_exists q : q ≠ [] → ∃ t, is_top q t.
Proof.
  induction q as [|t q IH]; [done|]. intros _. destruct q as [|t' q'].
  - exists t. split; [left|]. by intros ? ->%list_elem_of_singleton.
  - destruct IH as (m & Hm & Hmin); [done|].
    destruct (Z.le_gt_cases (execution_time t) (execution_time m)).
    + exists t. split; [left|]. intros x [->|Hx]%elem_of_cons; [lia|].
      specialize (Hmin _ Hx). lia.
    + exists m. split; [by right|]. intros x [->|Hx]%elem_of_cons; [lia|auto].
Qed.

Lemma run_scheduled_tasks_total now q :
  ∃ q' t, run_scheduled_tasks now q q' t.
Proof.
  destruct (decide (q = [])) as [->|Hq]; [exists [], None; constructor|].
  destruct (is_top_exists q Hq) as [t Ht].
  destruct (Z.lt_ge_cases (execution_time t) now).
  - destruct (list_elem_of_split _ _ (proj1 Ht)) as (l1 & l2 & ->).
    exists (l1 ++ l2), (Some t). by constructor.
  - exists q, None. by eapply run_not_due.
Qed.

(** The tasks due no later than [at]. *)
Definition due_by (at_ : Z) q : list ScheduledTask :=
  filter (λ t, execution_time t ≤ at_) q.

Lemma due_by_app at_ q1 q2 : due_by at_ (q1 ++ q2) = due_by at_ q1 ++ due_by at_ q2.
Proof. apply filter_app. Qed.

Lemma due_by_later at_ q :
  Forall (λ t, at_ < execution_time t) q → due_by at_ q = [].
Proof.
  intros Hq. apply filter_none. intros t Ht. rewrite Forall_forall in Hq.
  specialize (Hq _ Ht). lia.
Qed.

(** A scheduled task runs.  While the ticks come after its time and
    nothing due before it or with it is added, it runs within as many ticks
    as there were tasks due no later than it, one task running per tick; and
    a tick can always be made. *)
Theorem scheduled_task_runs q t events ran :
  t ∈ q → run_ticks q events ran →
  Forall (λ e, execution_time t < e.1 ∧
               Forall (λ t', execution_time t < execution_time t') e.2) events →
  (length (due_by (execution_time t) q) ≤ length events)%nat →
  t ∈ ran ∧ ∀ now q, ∃ q' r, run_scheduled_tasks now q q' r.
Proof.
  intros Hin Hrun Hev Hlen. split; [|intros; apply run_scheduled_tasks_total].
  revert Hin Hev Hlen. induction Hrun as [q|q now added events q' r ran Hstep Hrun IH];
    intros Hin Hev Hlen.
  - exfalso. destruct (due_by (execution_time t) q) eqn:E; [|cbn in Hlen; lia].
    assert (t ∈ due_by (execution_time t) q) as Ht.
    { apply list_elem_of_filter. split; [lia|done]. }
    rewrite E in Ht. set_solver.
  - apply Forall_cons in Hev as [[Hnow Hadd] Hev]. cbn in Hnow, Hadd, Hlen.
    destruct Hstep as [|q t' [_ Hmin] Hnot|l1 t' l2 [_ Hmin] Hdue].
    + set_solver.
    + specialize (Hmin _ Hin). lia.
    + cbn [option_list app]. destruct (decide (t' = t)) as [->|Hne]; [by left|right].
      apply IH; [set_solver|done|].
      rewrite due_by_app, (due_by_later _ added) by done. cbn [app length].
      specialize (Hmin _ Hin). revert Hlen. rewrite !due_by_app. cbn [due_by].
      unfold due_by at 2. rewrite filter_cons. rewrite decide_True by done.
      fold (due_by (execution_time t) l2). rewrite !length_app. cbn. lia.
Qed.

(** ** No server is starved *)

Section fairness.
Context (service : nat → Z → Z).

(** The iterator as an index: [end()] is about to wrap around. *)
Definition cyclic (n it m : nat) : list nat := (λ j, ((it + j) mod n)%nat) <$> seq 0 m.

Lemma cyclic_app n it m1 m2 : cyclic n it (m1 + m2) = cyclic n it m1 ++ cyclic n (it + m1) m2.
Proof.
  unfold cyclic. rewrite seq_app, fmap_app. f_equal. cbn [Nat.add].
  rewrite <-(Nat.add_0_r m1) at 1. rewrite <-fmap_add_seq, <-list_fmap_compose.
  apply list_fmap_ext. intros ? j _. cbn. f_equal. lia.
Qed.

Lemma cyclic_mod n it m : n ≠ 0%nat → cyclic n (it mod n) m = cyclic n it m.
Proof.
  intros. apply list_fmap_ext. intros ? j _. by rewrite Nat.Div0.add_mod_idemp_l.
Qed.

Lemma service_servers_spec n s it budget it' done :
  n ≠ 0%nat → (it ≤ n)%nat →
  service_servers service n s it budget = (it', done) →
  done = cyclic n it (length done) ∧ (it' ≤ n)%nat ∧
  (it' mod n = (it + length done) mod n)%nat ∧
  (0 < budget → s ≠ 0%nat → (0 < length done)%nat).
Proof.
  intros Hn. revert it budget it' done.
  induction s as [|s IH]; intros it budget it' done Hit; cbn [service_servers].
  { intros [= <- <-]. cbn. by rewrite Nat.add_0_r. }
  destruct (Z.ltb_spec 0 budget) as [Hb|Hb].
  2: { intros [= <- <-]. cbn. rewrite Nat.add_0_r. repeat split; [lia|lia]. }
  set (i := if (it =? n)%nat then 0%nat else it).
  assert (i < n ∧ i mod n = it mod n)%nat as [Hi Hm].
  { subst i. destruct (Nat.eqb_spec it n) as [->|]; [|lia].
    rewrite Nat.Div0.mod_same, Nat.Div0.mod_0_l. lia. }
  destruct (service_servers _ _ _ _ _) as [it1 rest] eqn:E. intros [= <- <-].
  apply IH in E as (Hr & Hle & Hmod & _); [|lia].
  cbn [length]. repeat split; [|done| |lia].
  - change (S (length rest)) with (1 + length rest)%nat. rewrite cyclic_app.
    rewrite <-(cyclic_mod n (it + 1)), <-Nat.Div0.add_mod_idemp_l, <-Hm by done.
    rewrite Nat.Div0.add_mod_idemp_l, cyclic_mod, Nat.add_1_r by done.
    cbn. rewrite <-Hr, Nat.add_0_r, <-Hm, Nat.mod_small by lia. done.
  - rewrite Hmod, <-(Nat.Div0.add_mod_idemp_l it), <-Hm, Nat.Div0.add_mod_idemp_l.
    f_equal. lia.
Qed.

Lemma ticks_spec n budget k it it' done :
  n ≠ 0%nat → (it ≤ n)%nat → 0 < budget →
  ticks service n budget k it = (it', done) →
  done = cyclic n it (length done) ∧ (k ≤ length done)%nat.
Proof.
  intros Hn. revert it it' done. induction k as [|k IH]; intros it it' done Hit Hb; cbn [ticks].
  { intros [= <- <-]. done. }
  destruct (service_servers _ _ _ _ _) as [it1 d1] eqn:E1.
  destruct (ticks _ _ _ _ it1) as [it2 d2] eqn:E2. intros [= <- <-].
  apply service_servers_spec in E1 as (H1 & Hle & Hm & Hpos); [|done..].
  apply IH in E2 as (H2 & Hk); [|done..]. rewrite length_app. split; [|lia].
  rewrite cyclic_app, <-H1. f_equal.
  rewrite <-(cyclic_mod n (it + _)), <-Hm, cyclic_mod by done. done.
Qed.

(** C18: No server is starved.  However the time budget of a tick is used up,
    the servers serviced over any run of ticks follow one another in the
    table's order, wrapping around, each tick taking up where the last one
    stopped, and each of the [n] servers is serviced within [n] ticks. *)
Theorem servers_not_starved n tick_time_budget k it :
  (it ≤ n)%nat → 0 ≤ tick_time_budget →
  let done := (ticks service n (effective_budget tick_time_budget) k it).2 in
  done = cyclic n it (length done) ∧
  ((n ≤ k)%nat → ∀ i, (i < n)%nat → i ∈ done).
Proof.
  intros Hit Hb. destruct n as [|n].
  { cbn. split; [|lia]. induction k as [|k IH] in it, Hit |- *; [done|]. cbn.
    specialize (IH it Hit). destruct (ticks _ _ _ _ _). exact IH. }
  destruct (ticks _ _ _ _ _) as [it' done] eqn:E. cbn [snd].
  apply ticks_spec in E as (Hd & Hk); [|lia..|].
  2: { unfold effective_budget. destruct (Z.eqb_spec tick_time_budget 0); lia. }
  split; [done|]. intros Hn i Hi. rewrite Hd. unfold cyclic.
  apply list_elem_of_fmap. exists ((i + S n - it mod S n) mod S n)%nat.
  pose proof (Nat.mod_upper_bound it (S n)). pose proof (Nat.mod_upper_bound (i + S n - it mod S n) (S n)).
  split; [|apply elem_of_seq; lia].
  rewrite <-Nat.Div0.add_mod_idemp_l, Nat.Div0.add_mod_idemp_r.
  replace (it mod S n + (i + S n - it mod S n))%nat with (i + 1 * S n)%nat by lia.
  by rewrite Nat.Div0.mod_add, Nat.mod_small.
Qed.
End fairness.

(** ** The theorems at concrete inputs *)

Definition two_transports : Transports := {|
  ServerProtocol := bool; UDP := false; TCP := true; WebSocket := true |}.
Definition sample_configs : list (ServerConfig (H := two_transports)) :=
  [mkServerConfig (H := two_transports) NameServer 5058 false false false "" 19302 "h:5058" [];
   mkServerConfig (H := two_transports) GameServer 5056 false false false "" 19302 "h:5056"
     [mkProxyConfig (H := two_transports) true "ws://h:9091"]].

Lemma handed_out_address_resolves_witness :
  get_random_server_address (H := two_transports) sample_configs (λ _, O) GameServer true
    = Some "ws://h:9091" ∧
  get_static_endpoint_address_str (H := two_transports) sample_configs "ws://h:9091"
    = "ws://h:9091".
Proof.
  split; [reflexivity|].
  exact (proj1 (proj2 (handed_out_address_resolves (H := two_transports)
    sample_configs (λ _, O) GameServer true "ws://h:9091" eq_refl))).
Defined.

Lemma scheduled_task_runs_witness :
  let q := [mkTask 5 1; mkTask 10 2] in
  let ran := [mkTask 5 1; mkTask 10 2] in
  run_ticks q [(11, [mkTask 90 3]); (12, [])] ran ∧ mkTask 10 2 ∈ ran.
Proof.
  intros q ran.
  assert (run_ticks q [(11, [mkTask 90 3]); (12, [])] ran) as Hrun.
  { apply (run_ticks_cons q 11 [mkTask 90 3] [(12, [])] [mkTask 10 2]
      (Some (mkTask 5 1)) [mkTask 10 2]).
    - apply (run_task_now 11 [] (mkTask 5 1) [mkTask 10 2]); [|reflexivity].
      split; [left|]. intros t Ht. repeat (apply elem_of_cons in Ht as [->|Ht]; [cbn; lia|]).
      by apply elem_of_nil in Ht.
    - apply (run_ticks_cons [mkTask 90 3; mkTask 10 2] 12 [] [] [mkTask 90 3]
        (Some (mkTask 10 2)) []); [|constructor].
      apply (run_task_now 12 [mkTask 90 3] (mkTask 10 2) []); [|reflexivity].
      split; [set_solver|]. intros t Ht.
      repeat (apply elem_of_cons in Ht as [->|Ht]; [cbn; lia|]).
      by apply elem_of_nil in Ht. }
  split; [exact Hrun|].
  refine (proj1 (scheduled_task_runs q (mkTask 10 2) _ ran _ Hrun _ _)).
  - set_solver.
  - repeat constructor.
  - apply Nat.leb_le. reflexivity.
Defined.

Lemma servers_not_starved_witness :
  (ticks (λ _ b, b - 900) 3 (effective_budget 1000) 3 1).2 = [1; 2; 0; 1; 2; 0]%nat ∧
  2%nat ∈ (ticks (λ _ b, b - 900) 3 (effective_budget 1000) 3 1).2.
Proof.
  split; [reflexivity|].
  refine (proj2 (servers_not_starved (λ _ b, b - 900) 3 1000 3 1 _ _) _ 2%nat _); lia.
Defined.
