(* ===== verification/Coroutines.v ===== *)
(** * Tasks

    Models the task of [AwaitableTask.hpp]: a finishing coroutine and its
    owner, who awaits it or lets it go, race on one atomic word.  A step is one
    atomic operation, and the schedules are all interleavings.  Steps are
    labelled with whether they touch the coroutine's frame, so that safety says
    that no step touches it after it is destroyed.  An owner that is destroyed
    while it holds the task destroys the frame as it stands; [drop_sound] says
    when that is safe.  One that is destroyed while it is suspended in the
    task is not modelled. *)

From S2P Require Import Prelude.
Open Scope Z_scope.

(** <basic-coro/include/AwaitableTask.hpp:135-144 TaskPromise::state_>
    A null pointer, the address of the one awaiting coroutine, or one of the
    two reserved addresses. *)
Inductive Word := Null | Waiter | completedState | detachedState.

(** <basic-coro/include/AwaitableTask.hpp:54-54 TaskPromise::DetachResult> *)
Inductive DetachResult := detached | was_completed | already_detached | already_waiting.

(** <basic-coro/include/AwaitableTask.hpp:92-92 TaskPromise::completed> *)
Definition completed (w : Word) : bool :=
  match w with completedState => true | _ => false end.

(** <basic-coro/include/AwaitableTask.hpp:94-115 TaskPromise::storeWaiting>
    The new word, and what it returns: an exception is nothing. *)
Definition storeWaiting (w : Word) : Word * option bool :=
  match w with
  | Null => (Waiter, Some true)
  | completedState => (w, Some false)
  | detachedState | Waiter => (w, None)
  end.

(** <basic-coro/include/AwaitableTask.hpp:117-133 TaskPromise::detach> *)
Definition detach (w : Word) : Word * DetachResult :=
  match w with
  | Null => (detachedState, detached)
  | completedState => (w, was_completed)
  | detachedState => (w, already_detached)
  | Waiter => (w, already_waiting)
  end.

(** Where the coroutine of the task is: in its body; at [final_suspend], with
    the word to be exchanged; past the exchange, holding what it replaced; or
    suspended for good. *)
Inductive Body := Running | AtFinal | Exchanged (previous : Word) | Over.

(** Where the owner of the task is: holding it; told that it is not ready;
    suspended in [co_await]; about to take the result; with the result, which
    says whether it was an exception; detaching, with the answer; or without
    the task.  An exception of the library itself is [Misused]. *)
Inductive Owner :=
  | Holds | NotReady | Suspended | Taking | Has (exception : bool)
  | Detaching (r : DetachResult) | Released | Misused.

Record State := mkState {
  state_ : Word;
  body : Body;
  owner : Owner;
  exception_ : bool;
  destroyed : nat;
  terminated : bool;
}.
#[export] Instance eta_State : Eta State := λ s,
  mkState (state_ s) (body s) (owner s) (exception_ s) (destroyed s) (terminated s).
Implicit Types (s : State).

Definition destroy s : State := s <| destroyed ::= S |>.

Definition initial : State := mkState Null Running Holds false 0 false.

(** Resuming the awaiting coroutine; no other may be resumed. *)
Definition resume (o : Owner) : Owner :=
  match o with Suspended => Taking | _ => Misused end.

(** <basic-coro/include/AwaitableTask.hpp:58-90 TaskPromise::final_suspend>
    After the exchange, which gave [previous], with whether it touches the
    frame.  A detached task whose body threw ends the process. *)
Definition final_suspend (previous : Word) s : bool * State :=
  match previous with
  | Null | completedState => (false, s <| body := Over |>)
  | detachedState =>
      (true, if exception_ s then s <| body := Over |> <| terminated := true |>
             else destroy (s <| body := Over |>))
  | Waiter => (false, s <| body := Over |> <| owner ::= resume |>)
  end.

(** <basic-coro/include/AwaitableTask.hpp:236-236 Task::awaiter::await_ready> *)
Definition await_ready s : State :=
  s <| owner := if completed (state_ s) then Taking else NotReady |>.

(** <basic-coro/include/AwaitableTask.hpp:238-244 Task::awaiter::await_suspend> *)
Definition await_suspend s : State :=
  let '(w, r) := storeWaiting (state_ s) in
  s <| state_ := w |>
    <| owner := match r with Some true => Suspended | Some false => Taking | None => Misused end |>.

(** <basic-coro/include/AwaitableTask.hpp:246-265 Task::awaiter::await_resume>
    The result is taken, and the awaiter destroys the frame. *)
Definition await_resume s : State := destroy (s <| owner := Has (exception_ s) |>).

(** <basic-coro/include/AwaitableTask.hpp:285-308 Task::detachImpl>
    After the word was tried, with answer [r]. *)
Definition detachImpl (r : DetachResult) s : bool * State :=
  match r with
  | detached => (false, s <| owner := Released |>)
  | was_completed =>
      (true, if exception_ s then s <| owner := Released |> <| terminated := true |>
             else destroy (s <| owner := Released |>))
  | already_detached | already_waiting => (false, s <| owner := Misused |>)
  end.

(** <basic-coro/include/AwaitableTask.hpp:197-201 TaskBase::~TaskBase> (also the
    move assignment, lines 187-195)
    An owner that neither awaits nor detaches destroys the frame, without
    asking the word whether the coroutine is done with it. *)
Definition drop s : State := destroy (s <| owner := Released |>).

(** The steps of the coroutine, whose body returns or throws
    ([unhandled_exception]), and those of an owner that awaits or detaches.
    An owner that drops its task does no step: [drop_sound] says when it may. *)
Inductive step : bool → State → State → Prop :=
  | body_ends s thrown : body s = Running →
      step true s (s <| exception_ := thrown |> <| body := AtFinal |>)
  | body_exchanges s : body s = AtFinal →
      step true s (s <| state_ := completedState |> <| body := Exchanged (state_ s) |>)
  | body_leaves s p : body s = Exchanged p →
      step (final_suspend p s).1 s (final_suspend p s).2
  | owner_asks s : owner s = Holds → step true s (await_ready s)
  | owner_waits s : owner s = NotReady → step true s (await_suspend s)
  | owner_takes s : owner s = Taking → step true s (await_resume s)
  | owner_detaches s : owner s = Holds →
      step true s (s <| state_ := (detach (state_ s)).1 |>
        <| owner := Detaching (detach (state_ s)).2 |>)
  | owner_leaves s r : owner s = Detaching r → step (detachImpl r s).1 s (detachImpl r s).2.

Inductive reachable : State → Prop :=
  | reach_initial : reachable initial
  | reach_step s s' touches : reachable s → step touches s s' → reachable s'.

(** *** The invariant *)

(** What the word is, how often the frame was destroyed and whether the
    process was ended, by where the two sides are. *)
Definition expected (b : Body) (o : Owner) (thrown : bool) : option (Word * nat * bool) :=
  let gone := Some (completedState, if thrown then 0%nat else 1%nat, thrown) in
  match b, o with
  | (Running | AtFinal), (Holds | NotReady) => Some (Null, 0%nat, false)
  | (Running | AtFinal), Suspended => Some (Waiter, 0%nat, false)
  | (Running | AtFinal), (Detaching detached | Released) => Some (detachedState, 0%nat, false)
  | (Exchanged Null | Over), (Holds | NotReady | Taking | Detaching was_completed) =>
      Some (completedState, 0%nat, false)
  | (Exchanged Null | Over), Has e => if eqb e thrown then Some (completedState, 1%nat, false) else None
  | (Exchanged Null | Over), Released => gone
  | Exchanged Waiter, Suspended => Some (completedState, 0%nat, false)
  | Exchanged detachedState, (Detaching detached | Released) => Some (completedState, 0%nat, false)
  | Over, Detaching detached => gone
  | _, _ => None
  end.

Definition inv s : Prop :=
  expected (body s) (owner s) (exception_ s) = Some (state_ s, destroyed s, terminated s).

(** Every case of a step: the sides, the flags and the word. *)
Ltac step_cases Hi Hs :=
  let Hb := fresh in
  destruct Hs as [s th Hb|s Hb|s p Hb|s Hb|s Hb|s Hb|s Hb|s r Hb]; destruct s as [w b o e d x];
  cbn in Hb; subst;
  repeat match goal with
  | y : Body |- _ => destruct y | y : Owner |- _ => destruct y | y : bool |- _ => destruct y
  | y : DetachResult |- _ => destruct y | y : Word |- _ => destruct y
  end; cbn in Hi |- *; try discriminate Hi; injection Hi; intros; subst.

Lemma step_inv t s s' : inv s → step t s s' → inv s'.
Proof. unfold inv. intros Hi Hs. step_cases Hi Hs; reflexivity. Qed.

Lemma reachable_inv s : reachable s → inv s.
Proof. induction 1; [reflexivity|by eapply step_inv]. Qed.

(** How far a run can still go. *)
Definition left_over s : nat :=
  match body s with Running => 3 | AtFinal => 2 | Exchanged _ => 1 | Over => 0 end +
  match owner s with
  | Holds => 4 | NotReady => 3 | Suspended => 2 | Taking | Detaching _ => 1 | _ => 0
  end.
Lemma step_shrinks t s s' :
  inv s → step t s s' → (t = true → destroyed s = 0%nat) ∧ (left_over s' < left_over s)%nat.
Proof.
  unfold inv, left_over. intros Hi Hs.
  step_cases Hi Hs; (split; [done|lia]).
Qed.

(** Until both sides are done, one of them can go on. *)
Lemma step_possible s :
  inv s → (∀ t s', ¬ step t s s') →
  body s = Over ∧ (owner s = Has (exception_ s) ∨ owner s = Released).
Proof.
  intros Hi Hstuck.
  destruct (body s) as [| |p|] eqn:Hb.
  - by destruct (Hstuck _ _ (body_ends s false Hb)).
  - by destruct (Hstuck _ _ (body_exchanges s Hb)).
  - by destruct (Hstuck _ _ (body_leaves s p Hb)).
  - split; [done|]. unfold inv in Hi. rewrite Hb in Hi.
    destruct (owner s) as [| | | |e|r| |] eqn:Ho.
    + by destruct (Hstuck _ _ (owner_asks s Ho)).
    + by destruct (Hstuck _ _ (owner_waits s Ho)).
    + discriminate Hi.
    + by destruct (Hstuck _ _ (owner_takes s Ho)).
    + left. cbn in Hi. destruct (eqb e (exception_ s)) eqn:E; [|done].
      by apply eqb_prop in E as ->.
    + by destruct (Hstuck _ _ (owner_leaves s r Ho)).
    + by right.
    + discriminate Hi.
Qed.

(** Dropping a task is sound exactly when its coroutine is done: then nothing
    is left to run and the frame was destroyed once, an exception in it being
    lost.  Before, the coroutine's next step touches the frame after it is
    gone, unless a suspended body is never resumed or the exchange of the word
    was its last use. *)
Theorem drop_sound s :
  reachable s → owner s = Holds →
  (body s = Over →
   destroyed (drop s) = 1%nat ∧ terminated (drop s) = false ∧ ∀ t s', ¬ step t (drop s) s') ∧
  (body s = Running ∨ body s = AtFinal →
   destroyed (drop s) = 1%nat ∧ ∃ s', step true (drop s) s').
Proof.
  intros Hi%reachable_inv Ho. unfold inv in Hi. rewrite Ho in Hi.
  destruct s as [w b o e d x]. cbn in Ho, Hi |- *. subst o. split.
  - intros ->. injection Hi as <- <- <-. split; [done|]. split; [done|].
    intros t s' Hs. inversion Hs; discriminate.
  - intros [-> | ->]; injection Hi as <- <- <-; (split; [done|]); eexists.
    + by apply (body_ends _ false).
    + by apply body_exchanges.
Qed.

(** C34: A task, whichever way its owner and its coroutine interleave: the
    frame is never touched once destroyed and the library's own errors never
    occur; every run ends; and at its end the owner either has the result,
    which is an exception exactly when the body threw, or has let go, and
    then the process has been ended exactly when the body threw.  The frame
    has been destroyed once, unless the process was ended. *)
Theorem task_protocol s :
  reachable s →
  owner s ≠ Misused ∧
  (∀ t s', step t s s' → (t = true → destroyed s = 0%nat) ∧ (left_over s' < left_over s)%nat) ∧
  ((∀ t s', ¬ step t s s') →
   destroyed s = (if terminated s then 0%nat else 1%nat) ∧
   (owner s = Has (exception_ s) ∧ terminated s = false ∨
    owner s = Released ∧ terminated s = exception_ s)).
Proof.
  intros Hi%reachable_inv. split; [|split].
  - intros Ho. unfold inv in Hi. rewrite Ho in Hi. by destruct (body s) as [| |[]|].
  - intros t s' Hs. by eapply step_shrinks.
  - intros Hstuck. destruct (step_possible s Hi Hstuck) as [Hb Ho].
    unfold inv in Hi. rewrite Hb in Hi.
    destruct Ho as [Ho|Ho]; rewrite Ho in Hi |- *; cbn in Hi.
    + rewrite eqb_reflx in Hi. injection Hi as _ <- <-. auto.
    + injection Hi as _ <- <-. by destruct (exception_ s); auto.
Qed.
(** An owner asks, finds the task running and suspends; the body throws, and
    the owner gets the exception. *)
Definition awaited : State := mkState completedState Over (Has true) true 1 false.

#[local] Tactic Notation "go" hyp(R) open_constr(c) :=
  eapply reach_step in R; [|eapply c; reflexivity]; vm_compute in R.

Lemma awaited_reachable : reachable awaited.
Proof.
  pose proof reach_initial as R.
  go R (owner_asks _).
  go R (owner_waits _).
  go R (body_ends _ true).
  go R (body_exchanges _).
  go R (body_leaves _ Waiter).
  go R (owner_takes _). exact R.
Qed.

Lemma task_protocol_witness :
  reachable awaited ∧ destroyed awaited = 1%nat ∧ owner awaited = Has true.
Proof.
  destruct (task_protocol awaited awaited_reachable) as (_ & _ & H).
  split; [exact awaited_reachable|].
  assert (∀ t s', ¬ step t awaited s') as Hstuck by (intros t s' Hs; inversion Hs; discriminate).
  destruct (H Hstuck) as [Hd [[Ho _]|[Ho _]]]; [|discriminate Ho].
  split; [exact Hd|exact Ho].
Defined.
