(* ===== verification/ForeignCalls.v ===== *)
(** * Awaiting a foreign call

    Models the awaiter of [FfiAwaiter.hpp], which a foreign thread resumes or
    cancels, with the entry point of [ffi.cpp] that reaches it.  A step is one
    critical section or one atomic operation, and the schedules are all
    interleavings; steps are labelled with whether they touch the shared
    state. *)

From S2P Require Import Prelude.
Open Scope Z_scope.

(** <basic-coro/include/FfiAwaiter.hpp:20-43 FfiStateBase>
    [coro] says whether there is a coroutine to resume; [result_] is that of
    the one instantiation, a byte, whose copy does not throw. *)
Record FfiState := mkFfi {
  refs : Z;
  coro : bool;
  completed : bool;
  cancelled : bool;
  suspended : bool;
  ffi_armed : bool;
  result_ : option Z;
}.
#[export] Instance eta_FfiState : Eta FfiState := λ m,
  mkFfi (refs m) (coro m) (completed m) (cancelled m) (suspended m) (ffi_armed m) (result_ m).
Implicit Types (m : FfiState).

(** What the foreign side asks for, and what the coroutine gets. *)
Inductive Call := Resume (v : Z) | Cancel.
Inductive Outcome := Value (v : Z) | CancelledException | InitiatorException | LibraryError.

(** *** The critical sections *)

(** <basic-coro/include/FfiAwaiter.hpp:47-117 ffi_resume_impl>
    With [ffi_cancel_impl], up to the end of the lock: whether the coroutine
    is to be resumed and whether the foreign side's reference is to be
    released. *)
Definition complete (k : Call) m : FfiState * bool * bool :=
  if ffi_armed m then
    let m := m <| ffi_armed := false |>
               <| cancelled := match k with Cancel => true | Resume _ => false end |>
               <| completed := true |> in
    let m := match k with Resume v => m <| result_ := Some v |> | Cancel => m end in
    (m, suspended m && coro m, true)
  else (m, false, false).

(** <basic-coro/include/FfiAwaiter.hpp:181-193 FfiAwaiter::await_suspend> *)
Definition arm m : FfiState :=
  m <| coro := true |> <| suspended := false |> <| ffi_armed := true |>.

(** <basic-coro/include/FfiAwaiter.hpp:274-283 FfiAwaiter::reset>
    Also what [await_suspend] does when the initiator throws. *)
Definition forget_coro m : FfiState := m <| coro := false |> <| suspended := false |>.

(** <basic-coro/include/FfiAwaiter.hpp:207-217 FfiAwaiter::await_suspend>
    Once the initiator is back: whether the coroutine stays suspended. *)
Definition decide_suspend m : FfiState * bool :=
  if completed m then (forget_coro m, false) else (m <| suspended := true |>, true).

(** <basic-coro/include/FfiAwaiter.hpp:220-261 FfiAwaiter::await_resume> *)
Definition unpack m : FfiState * Outcome :=
  if negb (completed m) then (m, LibraryError)
  else
    let m := forget_coro m in
    if cancelled m then (m, CancelledException)
    else match result_ m with
    | None => (m, LibraryError)
    | Some v => (m <| result_ := None |>, Value v)
    end.

(** *** The two sides *)

(** Where the coroutine is: with a new state; armed; counted for the foreign
    side; past the initiator, which gave the handle away; suspended; resumed;
    leaving the expression with its outcome; having forgotten itself; past
    its reference.  Resumed while it runs, it is [Overrun]. *)
Inductive Awaiter :=
  | Created | Armed | Counted | Initiated | Waiting | Unpacking
  | Leaving (o : Outcome) | Dropping (o : Outcome) | Ended (o : Outcome) | Overrun.

(** Where a caller is: yet to call; past its critical section; back, having
    called too early for there to be a handle, or having called. *)
Inductive Caller :=
  | Outside (k : Call) | Inside (k : Call) (resumes releases : bool)
  | TooEarly (k : Call) | Back (k : Call).

Record State := mkState {
  mem : FfiState;
  freed : nat;
  awaiter : Awaiter;
  callers : list Caller;
}.
#[export] Instance eta_State : Eta State := λ s,
  mkState (mem s) (freed s) (awaiter s) (callers s).
Implicit Types (s : State).

(** <src/ffi.cpp:205-205 FfiCoroContext::awaiter_handle>
    The context has the handle from the initiator on. *)
Definition handed (a : Awaiter) : bool :=
  match a with
  | Created | Armed | Counted => false
  | Leaving InitiatorException | Dropping InitiatorException | Ended InitiatorException => false
  | _ => true
  end.

(** <basic-coro/include/FfiAwaiter.hpp:32-36 FfiStateBase::releaseRef> *)
Definition releaseRef s : State :=
  let s := s <| mem ::= λ m, m <| refs ::= Z.pred |> |> in
  if refs (mem s) =? 0 then s <| freed ::= S |> else s.

(** <basic-coro/include/FfiAwaiter.hpp:30-30 FfiStateBase::addRef> *)
Definition addRef s : State := s <| mem ::= λ m, m <| refs ::= Z.succ |> |>.

(** <src/ffi.cpp:504-510 luxonResumeCoroutine>
    Nothing happens without a handle. *)
Definition luxonResumeCoroutine (a : Awaiter) (k : Call) m : option (FfiState * bool * bool) :=
  if handed a then Some (complete k m) else None.

(** [coro.resume()] *)
Definition resume_coro (a : Awaiter) : Awaiter :=
  match a with Waiting => Unpacking | _ => Overrun end.

Definition initial (ks : list Call) : State :=
  mkState (mkFfi 1 false false false false false None) 0 Created (Outside <$> ks).

(** The steps of the coroutine ([await_suspend], [await_resume] and the
    awaiter's destructor), then those of a caller. *)
Inductive step : bool → State → State → Prop :=
  | arms s : awaiter s = Created →
      step true s (s <| mem ::= arm |> <| awaiter := Armed |>)
  | counts s : awaiter s = Armed → step true s (addRef s <| awaiter := Counted |>)
  | initiates s : awaiter s = Counted → step false s (s <| awaiter := Initiated |>)
  | init_throws s : awaiter s = Counted →
      step true s (s <| mem ::= forget_coro |> <| awaiter := Leaving InitiatorException |>)
  | suspends s : awaiter s = Initiated →
      step true s (s <| mem := (decide_suspend (mem s)).1 |>
        <| awaiter := if (decide_suspend (mem s)).2 then Waiting else Unpacking |>)
  | unpacks s : awaiter s = Unpacking →
      step true s (s <| mem := (unpack (mem s)).1 |> <| awaiter := Leaving (unpack (mem s)).2 |>)
  | forgets s o : awaiter s = Leaving o →
      step true s (s <| mem ::= forget_coro |> <| awaiter := Dropping o |>)
  | drops s o : awaiter s = Dropping o → step true s (releaseRef s <| awaiter := Ended o |>)
  | calls_early s i k : callers s !! i = Some (Outside k) →
      luxonResumeCoroutine (awaiter s) k (mem s) = None →
      step false s (s <| callers ::= <[i := TooEarly k]> |>)
  | calls s i k m resumes releases : callers s !! i = Some (Outside k) →
      luxonResumeCoroutine (awaiter s) k (mem s) = Some (m, resumes, releases) →
      step true s (s <| mem := m |> <| callers ::= <[i := Inside k resumes releases]> |>)
  | resumes_coro s i k r : callers s !! i = Some (Inside k true r) →
      step false s (s <| awaiter ::= resume_coro |> <| callers ::= <[i := Inside k false r]> |>)
  | releases_ref s i k : callers s !! i = Some (Inside k false true) →
      step true s (releaseRef s <| callers ::= <[i := Back k]> |>)
  | comes_back s i k : callers s !! i = Some (Inside k false false) →
      step false s (s <| callers ::= <[i := Back k]> |>).

Inductive reachable (ks : list Call) : State → Prop :=
  | reach_initial : reachable ks (initial ks)
  | reach_step s s' touches : reachable ks s → step touches s s' → reachable ks s'.
(** *** One caller *)

Definition outcome (k : Call) : Outcome :=
  match k with Resume v => Value v | Cancel => CancelledException end.
Definition cancels (k : Call) : bool :=
  match k with Cancel => true | Resume _ => false end.
Definition carries (k : Call) : option Z :=
  match k with Resume v => Some v | Cancel => None end.

(** The state until a call gets through. *)
Definition before (a : Awaiter) : option FfiState :=
  match a with
  | Created => Some (mkFfi 1 false false false false false None)
  | Armed => Some (mkFfi 1 true false false false true None)
  | Counted | Initiated => Some (mkFfi 2 true false false false true None)
  | Waiting => Some (mkFfi 2 true false false true true None)
  | Leaving InitiatorException | Dropping InitiatorException =>
      Some (mkFfi 2 false false false false true None)
  | Ended InitiatorException => Some (mkFfi 1 false false false false true None)
  | _ => None
  end.

(** The state from then on, with [held] references of the caller left and
    the coroutine to be resumed by it or not. *)
Definition after (k : Call) (resumes : bool) (held : Z) (a : Awaiter) m : Prop :=
  match a with
  | Initiated => resumes = false ∧ m = mkFfi (1 + held) true true (cancels k) false false (carries k)
  | Waiting => resumes = true ∧ m = mkFfi (1 + held) true true (cancels k) true false (carries k)
  | Unpacking => resumes = false ∧ ∃ c z,
      m = mkFfi (1 + held) c true (cancels k) z false (carries k)
  | Leaving o | Dropping o => resumes = false ∧ o = outcome k ∧
      m = mkFfi (1 + held) false true (cancels k) false false None
  | Ended o => resumes = false ∧ o = outcome k ∧
      m = mkFfi held false true (cancels k) false false None
  | _ => False
  end.

Definition has_ended (a : Awaiter) : bool := match a with Ended _ => true | _ => false end.

Definition inv (k : Call) s : Prop :=
  ∃ c, callers s = [c] ∧
  match c with
  | Outside k' | TooEarly k' => k' = k ∧ freed s = 0%nat ∧ before (awaiter s) = Some (mem s)
  | Inside k' resumes releases => k' = k ∧ releases = true ∧ freed s = 0%nat ∧
      after k resumes 1 (awaiter s) (mem s)
  | Back k' => k' = k ∧ freed s = (if has_ended (awaiter s) then 1%nat else 0%nat) ∧
      after k false 0 (awaiter s) (mem s)
  end.

Lemma one_caller (c c' : Caller) i : [c] !! i = Some c' → i = 0%nat ∧ c = c'.
Proof. intros [? ?]%list_lookup_singleton_Some. done. Qed.

(** Every case of a step with one caller. *)
Ltac step_cases Hc Hi Hs :=
  let Ha := fresh in let Hl := fresh in let Hr := fresh in
  destruct Hs as [s Ha|s Ha|s Ha|s Ha|s Ha|s Ha|s o Ha|s o Ha|s i k' Hl Hr
    |s i k' m' x y Hl Hr|s i k' x Hl|s i k' Hl|s i k' Hl];
  destruct s as [m f a cs]; cbn in *; subst;
  try (apply one_caller in Hl as [-> ->]);
  try match goal with c : Caller |- _ => destruct c end; cbn in Hi;
  repeat match goal with
  | H : _ ∧ _ |- _ => destruct H
  | H : ∃ _, _ |- _ => destruct H
  end; subst;
  try match goal with a : Awaiter |- _ => destruct a end;
  try match goal with o : Outcome |- _ => destruct o end;
  try match goal with k : Call |- _ => destruct k end;
  cbn in *;
  repeat match goal with
  | H : Some _ = Some _ |- _ => injection H; clear H; intros; subst
  | H : _ ∧ _ |- _ => destruct H
  | H : ∃ _, _ |- _ => destruct H
  | H : Some _ = None |- _ => discriminate H
  | H : None = Some _ |- _ => discriminate H
  | H : False |- _ => destruct H
  | H : true = false |- _ => discriminate H
  | H : false = true |- _ => discriminate H
  end; subst; cbn in *;
  try match goal with H : (_, _, _) = (_, _, _) |- _ => injection H; clear H; intros; subst end.

Lemma call_step_inv k t s s' : inv k s → step t s s' → inv k s'.
Proof.
  intros (c & Hc & Hi) Hs. unfold inv. step_cases Hc Hi Hs;
    (eexists; split; [reflexivity|]); cbn; repeat split; eauto.
Qed.

Lemma call_reachable_inv k s : reachable [k] s → inv k s.
Proof.
  induction 1; [|by eapply call_step_inv]. exists (Outside k). by repeat split.
Qed.

(** How far a run can still go. *)
Definition awaiter_left (a : Awaiter) : nat :=
  match a with
  | Created => 10 | Armed => 9 | Counted => 8 | Initiated => 7 | Waiting => 6 | Unpacking => 5
  | Leaving _ => 4 | Dropping _ => 3 | Ended _ => 2 | Overrun => 0
  end.
Definition caller_left (c : Caller) : nat :=
  match c with Outside _ => 3 | Inside _ true _ => 2 | Inside _ false _ => 1 | _ => 0 end.
Definition left_over s : nat := awaiter_left (awaiter s) + list_sum (caller_left <$> callers s).

Lemma call_step_shrinks k t s s' :
  inv k s → step t s s' → (t = true → freed s = 0%nat) ∧ (left_over s' < left_over s)%nat.
Proof.
  intros (c & Hc & Hi) Hs. unfold left_over.
  step_cases Hc Hi Hs; (split; [done|vm_compute; lia]).
Qed.

(** A coroutine that is not suspended or past its expression can go on. *)
Lemma awaiter_possible s :
  (∀ t s', ¬ step t s s') →
  awaiter s = Waiting ∨ (∃ o, awaiter s = Ended o) ∨ awaiter s = Overrun.
Proof.
  intros Hstuck. destruct (awaiter s) as [| | | | | |o|o|o|] eqn:Ha; eauto; exfalso.
  - by apply (Hstuck _ _ (arms s Ha)).
  - by apply (Hstuck _ _ (counts s Ha)).
  - by apply (Hstuck _ _ (initiates s Ha)).
  - by apply (Hstuck _ _ (suspends s Ha)).
  - by apply (Hstuck _ _ (unpacks s Ha)).
  - by apply (Hstuck _ _ (forgets s o Ha)).
  - by apply (Hstuck _ _ (drops s o Ha)).
Qed.

(** So can a caller that is not back. *)
Lemma caller_possible s i c :
  callers s !! i = Some c → (∀ t s', ¬ step t s s') →
  match c with
  | Outside _ | Inside _ true _ => False
  | Inside _ false _ => False
  | TooEarly _ | Back _ => True
  end.
Proof.
  intros Hl Hstuck. destruct c as [k|k [] []|k|k]; try done.
  - destruct (luxonResumeCoroutine (awaiter s) k (mem s)) as [[[m x] y]|] eqn:E.
    + by apply (Hstuck _ _ (calls s i k m x y Hl E)).
    + by apply (Hstuck _ _ (calls_early s i k Hl E)).
  - by apply (Hstuck _ _ (resumes_coro s i k true Hl)).
  - by apply (Hstuck _ _ (resumes_coro s i k false Hl)).
  - by apply (Hstuck _ _ (releases_ref s i k Hl)).
  - by apply (Hstuck _ _ (comes_back s i k Hl)).
Qed.

(** C35: Awaiting a foreign call, completed or cancelled once, in every
    interleaving of the two threads: the coroutine is never resumed unless it
    is suspended, the shared state is never touched once freed, and every run
    ends.  If the call got through, the coroutine has left with what the call
    carries and the state is freed, once.  If it came before the coroutine
    had given its handle away, it had no effect: the coroutine stays suspended
    for good.  If the initiator threw, the state is leaked. *)
Theorem ffi_await_protocol k s :
  reachable [k] s →
  awaiter s ≠ Overrun ∧
  (∀ t s', step t s s' → (t = true → freed s = 0%nat) ∧ (left_over s' < left_over s)%nat) ∧
  ((∀ t s', ¬ step t s s') →
   callers s = [Back k] ∧ awaiter s = Ended (outcome k) ∧ freed s = 1%nat ∨
   callers s = [TooEarly k] ∧ awaiter s = Waiting ∧ freed s = 0%nat ∨
   callers s = [TooEarly k] ∧ awaiter s = Ended InitiatorException ∧ freed s = 0%nat).
Proof.
  intros Hi%call_reachable_inv. split; [|split].
  - intros Ha. destruct Hi as (c & _ & Hi). rewrite Ha in Hi. destruct c; naive_solver.
  - intros t s' Hs. by eapply call_step_shrinks.
  - intros Hstuck. destruct Hi as (c & Hc & Hi).
    pose proof (caller_possible s 0 c ltac:(by rewrite Hc) Hstuck) as Hcaller.
    destruct c as [k'|k' [] y|k'|k']; [done..| |].
    + destruct Hi as (-> & Hf & Hb). right.
      destruct (awaiter_possible s Hstuck) as [Ha|[[o Ha]|Ha]]; rewrite Ha in Hb; [by left| |done].
      right. by destruct o.
    + destruct Hi as (-> & Hf & Hb). left.
      destruct (awaiter_possible s Hstuck) as [Ha|[[o Ha]|Ha]]; rewrite Ha in Hb, Hf;
        [by destruct Hb| |done].
      destruct Hb as (_ & -> & _). by rewrite Ha.
Qed.
(** *** Runs *)

#[local] Tactic Notation "go" hyp(R) open_constr(c) :=
  eapply reach_step in R; [|eapply c; reflexivity]; vm_compute in R.

Definition called_back : State :=
  mkState (mkFfi 0 false true false false false None) 1 (Ended (Value 7)) [Back (Resume 7)].

(** The coroutine suspends, the call comes, resumes it and gives its
    reference back before the coroutine goes on. *)
Lemma called_back_reachable : reachable [Resume 7] called_back.
Proof.
  pose proof (reach_initial [Resume 7]) as R.
  go R (arms _).
  go R (counts _).
  go R (initiates _).
  go R (suspends _).
  go R (calls _ 0 (Resume 7) _ _ _).
  go R (resumes_coro _ 0 (Resume 7) true).
  go R (releases_ref _ 0 (Resume 7)).
  go R (unpacks _).
  go R (forgets _ (Value 7)).
  go R (drops _ (Value 7)). exact R.
Qed.

Lemma ffi_await_protocol_witness :
  reachable [Resume 7] called_back ∧ awaiter called_back = Ended (outcome (Resume 7)) ∧
  freed called_back = 1%nat.
Proof.
  destruct (ffi_await_protocol (Resume 7) called_back called_back_reachable) as (_ & _ & H).
  split; [exact called_back_reachable|].
  assert (∀ t s', ¬ step t called_back s') as Hstuck.
  { intros t s' Hs. inversion Hs as [| | | | | | | |? i ? Hl|? i ? ? ? ? Hl|? i ? ? Hl|? i ? Hl|? i ? Hl];
      try discriminate; apply one_caller in Hl as [_ ?]; discriminate. }
  destruct (H Hstuck) as [(_ & Ha & Hf)|[(Hc & _)|(Hc & _)]]; [|discriminate Hc..].
  split; [exact Ha|exact Hf].
Defined.

(** A call that comes too early is lost: the coroutine is never resumed. *)
Theorem early_call_lost k :
  ∃ s, reachable [k] s ∧ awaiter s = Waiting ∧ callers s = [TooEarly k] ∧
    ∀ t s', ¬ step t s s'.
Proof.
  pose proof (reach_initial [k]) as R.
  go R (calls_early _ 0 k).
  go R (arms _).
  go R (counts _).
  go R (initiates _).
  go R (suspends _).
  eexists. split; [exact R|]. split; [done|]. split; [done|].
  intros t s' Hs. inversion Hs as [| | | | | | | |? i ? Hl|? i ? ? ? ? Hl|? i ? ? Hl|? i ? Hl|? i ? Hl];
    try discriminate; apply one_caller in Hl as [_ ?]; discriminate.
Qed.

(** A second call on a handle that has been used touches the freed state. *)
Theorem second_call_after_free k :
  ∃ s s', reachable [Resume 7; k] s ∧ freed s = 1%nat ∧ step true s s'.
Proof.
  pose proof (reach_initial [Resume 7; k]) as R.
  go R (arms _).
  go R (counts _).
  go R (initiates _).
  go R (suspends _).
  go R (calls _ 0 (Resume 7) _ _ _).
  go R (resumes_coro _ 0 (Resume 7) true).
  go R (releases_ref _ 0 (Resume 7)).
  go R (unpacks _).
  go R (forgets _ (Value 7)).
  go R (drops _ (Value 7)).
  do 2 eexists. split; [exact R|]. split; [reflexivity|].
  eapply (calls _ 1 k _ _ _); reflexivity.
Qed.
