(* ===== verification/Connections.v ===== *)
(** * The table of connections

    Models the callbacks the server manager installs on the peers of the
    network library ([ServerManager::setup]), the table of connection
    handlers they fill and empty, and the slow update over it.  The callbacks
    start detached coroutines that await the handlers; a coroutine is where it
    is suspended, and its steps interleave with everything else.  An exception
    that leaves a detached coroutine ends the process ([Coroutines]). *)

From S2P Require Import Prelude ServerManager.
Open Scope Z_scope.

(** ** State *)

(** [enet::EnetConnectionState] *)
Inductive ConnectionState := Disconnected | Connecting | Connected | Disconnecting.
#[export] Instance ConnectionState_eq_dec : EqDecision ConnectionState.
Proof. solve_decision. Defined.

(** What a coroutine awaits of its handler. *)
Inductive Awaited := StateChange | Connect | Disconnect | Command.

(** A coroutine holds its handler; [state] is that of the state change it
    is about. *)
Record Coroutine := mkCoroutine { handler : nat; state : ConnectionState; awaits : Awaited }.

(** How an awaited handler ends: it returns, throws a [std::exception], or
    throws anything else. *)
Inductive Ending := Returns | Throws | ThrowsOther.

(** <include/luxon/server/server_manager.hpp:185-187 ServerManager>
    Handlers are numbered by [next_handler] and callbacks by
    [next_callback]; [removes] is what the callbacks that remove a handler
    capture.  [marked] lists the handlers told that they are disconnected (a
    game server's handler notes it), [handled] those whose disconnect was
    handled, [dropped] the peers told to disconnect. *)
Record Loop := mkLoop {
  connections_ : list nat;
  coroutines : list Coroutine;
  scheduled_tasks_ : list ScheduledTask;
  removes : gmap nat nat;
  next_handler : nat;
  next_callback : nat;
  marked : list nat;
  handled : list nat;
  dropped : list nat;
  crashed : bool;
}.
#[export] Instance eta_Loop : Eta Loop := λ s,
  mkLoop (connections_ s) (coroutines s) (scheduled_tasks_ s) (removes s) (next_handler s)
    (next_callback s) (marked s) (handled s) (dropped s) (crashed s).
Implicit Types (s : Loop) (h : nat) (co : Coroutine).

Definition empty_loop : Loop := mkLoop [] [] [] ∅ 0 0 [] [] [] false.

(** [handler_weak.lock()]: the table and the coroutines own handlers. *)
Definition lock s h : bool :=
  bool_decide (h ∈ connections_ s) || bool_decide (h ∈ handler <$> coroutines s).

(** ** Callbacks *)

(** <src/server_manager.cpp:1148-1150 ServerManager::setup>
    [on_peer_connected]: a handler is made and put at the end. *)
Definition on_peer_connected s : Loop :=
  s <| connections_ ::= λ l, l ++ [next_handler s] |> <| next_handler ::= S |>.

(** <src/server_manager.cpp:1088-1091 ServerManager::setup>
    [on_state_changed]: a coroutine begins, unless the handler is gone. *)
Definition on_state_changed h (st : ConnectionState) s : Loop :=
  if lock s h then s <| coroutines ::= cons (mkCoroutine h st StateChange) |> else s.

(** <src/server_manager.cpp:1119-1125 ServerManager::setup>
    [on_payload_command] *)
Definition on_payload_command h s : Loop :=
  if lock s h then s <| coroutines ::= cons (mkCoroutine h Connected Command) |> else s.

(** <src/server_manager.cpp:1111-1113 ServerManager::setup>
    Scheduling the removal of a handler, now. *)
Definition schedule_removal now h s : Loop :=
  s <| scheduled_tasks_ := add_scheduled_task now (scheduled_tasks_ s) 0 (next_callback s) |>
    <| removes ::= <[next_callback s := h]> |>
    <| next_callback ::= S |>.

(** <src/server_manager.cpp:1093-1145 ServerManager::setup>
    How a coroutine goes on when what it awaits ends: what it awaits next, if
    anything, and the loop.  Only the state change and the command are within
    a [try], which catches standard exceptions. *)
Definition continue_ now co (e : Ending) s : option Awaited * Loop :=
  match awaits co, e with
  | (StateChange | Command), ThrowsOther | (Connect | Disconnect), (Throws | ThrowsOther) =>
      (None, s <| crashed := true |>)
  | StateChange, _ =>
      match state co with
      | Connected => (Some Connect, s)
      | Disconnected => (Some Disconnect, s <| marked ::= cons (handler co) |>)
      | _ => (None, s)
      end
  | Connect, Returns => (None, s)
  | Disconnect, Returns =>
      (None, schedule_removal now (handler co) s <| handled ::= cons (handler co) |>)
  | Command, Returns => (None, s)
  | Command, Throws => (None, s <| dropped ::= cons (handler co) |>)
  end.

(** <src/server_manager.cpp:1112-1112 ServerManager::setup>
    The scheduled callback. *)
Definition run_callback (cb : nat) s : Loop :=
  match removes s !! cb with
  | Some h => s <| connections_ ::= filter (λ v, v ≠ h) |>
  | None => s
  end.

(** <src/server_manager.cpp:701-710 ServerManager::run_once>
    The slow update asks every connection in turn; [throws] says which
    handlers throw, and their peers are told to disconnect. *)
Definition slow_update (throws : nat → bool) s : Loop :=
  foldl (λ s h, if throws h then s <| dropped ::= cons h |> else s) s (connections_ s).

(** ** Steps *)

Inductive step : Loop → Loop → Prop :=
  | peer_connected s : step s (on_peer_connected s)
  | state_changed s h st : step s (on_state_changed h st s)
  | payload_command s h : step s (on_payload_command h s)
  | coroutine_goes_on s l1 co l2 now e : coroutines s = l1 ++ co :: l2 →
      step s (let '(next, s) := continue_ now co e s in
              s <| coroutines := l1 ++ option_list ((λ a, mkCoroutine (handler co) (state co) a) <$> next) ++ l2 |>)
  | other_task s now delay :
      step s (s <| scheduled_tasks_ := add_scheduled_task now (scheduled_tasks_ s) delay (next_callback s) |>
                <| next_callback ::= S |>)
  | task_runs s now q t : run_scheduled_tasks now (scheduled_tasks_ s) q t →
      step s (from_option (λ t, run_callback (cb t)) id t (s <| scheduled_tasks_ := q |>))
  | slow_updates s throws : step s (slow_update throws s).

(** Nothing happens once the process has ended. *)
Definition reachable : Loop → Prop :=
  rtc (λ s s', crashed s = false ∧ step s s') empty_loop.

(** ** The invariant *)

(** A callback that removes the handler was scheduled, and is scheduled no
    more: a task leaves the queue only by being run. *)
Definition removed s h : Prop :=
  ∃ n, removes s !! n = Some h ∧ n ∉ cb <$> scheduled_tasks_ s.

Record loop_ok s : Prop := {
  ok_nodup : NoDup (connections_ s);
  ok_known h : h ∈ connections_ s → (h < next_handler s)%nat;
  ok_left h : (h < next_handler s)%nat → h ∉ connections_ s ↔ removed s h;
  ok_handled h : h ∈ handled s ↔ ∃ n, removes s !! n = Some h;
  ok_removes h n : removes s !! n = Some h →
    (n < next_callback s)%nat ∧ (h < next_handler s)%nat ∧ h ∈ marked s;
  ok_queue : NoDup (cb <$> scheduled_tasks_ s);
  ok_tasks n : n ∈ cb <$> scheduled_tasks_ s → (n < next_callback s)%nat;
  ok_coroutines co : co ∈ coroutines s →
    (handler co < next_handler s)%nat ∧ (awaits co = Disconnect → handler co ∈ marked s);
}.

Lemma empty_loop_ok : loop_ok empty_loop.
Proof.
  assert (∀ h n, (∅ : gmap nat nat) !! n ≠ Some h) as Hno by (intros h n; by rewrite lookup_empty).
  split; cbn.
  - constructor.
  - by intros h ?%not_elem_of_nil.
  - lia.
  - intros h. split; [by intros ?%not_elem_of_nil|intros (n & E); by destruct (Hno h n)].
  - intros h n E. by destruct (Hno h n).
  - constructor.
  - by intros n ?%not_elem_of_nil.
  - by intros co ?%not_elem_of_nil.
Qed.

Lemma lock_known s h : loop_ok s → lock s h = true → (h < next_handler s)%nat.
Proof.
  intros Hok [Hl|Hl]%orb_true_iff; apply bool_decide_eq_true in Hl.
  - by apply ok_known.
  - apply list_elem_of_fmap in Hl as (co & -> & Hco). by apply ok_coroutines.
Qed.

Lemma on_peer_connected_ok s : loop_ok s → loop_ok (on_peer_connected s).
Proof.
  intros Hok. split; unfold on_peer_connected, removed; upd; try apply Hok.
  - apply NoDup_app. split; [apply Hok|]. split; [|apply NoDup_singleton].
    intros h Hh%(ok_known _ Hok) ->%list_elem_of_singleton. lia.
  - intros h [Hh%(ok_known _ Hok)| ->%list_elem_of_singleton]%elem_of_app; lia.
  - intros h Hh. rewrite not_elem_of_app, list_elem_of_singleton.
    destruct (decide (h = next_handler s)) as [->|Hne].
    + split; [tauto|]. intros (n & (_ & Hlt & _)%(ok_removes _ Hok) & _). lia.
    + rewrite (ok_left _ Hok h) by lia. unfold removed. tauto.
  - intros h n (? & ? & ?)%(ok_removes _ Hok). split_and!; [done|lia|done].
  - intros co Hco. destruct (ok_coroutines _ Hok co Hco). split; [lia|done].
Qed.

Lemma add_coroutine_ok s h st a :
  loop_ok s → a ≠ Disconnect →
  loop_ok (if lock s h then s <| coroutines ::= cons (mkCoroutine h st a) |> else s).
Proof.
  intros Hok Ha. destruct (lock s h) eqn:Hl; [|done].
  split; unfold removed; upd; try apply Hok.
  intros co [->|Hco]%elem_of_cons; [|by apply Hok].
  split; [by apply lock_known|done].
Qed.

(** Replacing a coroutine by what it becomes. *)
Lemma replace_coroutine_ok s l1 co l2 next :
  loop_ok s → coroutines s = l1 ++ co :: l2 →
  (next = Some Disconnect → handler co ∈ marked s) →
  loop_ok (s <| coroutines :=
    l1 ++ option_list ((λ a, mkCoroutine (handler co) (state co) a) <$> next) ++ l2 |>).
Proof.
  intros Hok Hco Hn. split; unfold removed; upd; try apply Hok.
  intros c Hc. assert (c ∈ coroutines s ∨ ∃ a, next = Some a ∧ c = mkCoroutine (handler co) (state co) a)
    as [?|(a & -> & ->)].
  { rewrite Hco. destruct next as [a|]; cbn in Hc; [|set_solver].
    apply elem_of_app in Hc as [?|[->|?]%elem_of_cons]; [set_solver| |set_solver]. right. eauto. }
  - by apply Hok.
  - cbn. split; [apply (ok_coroutines _ Hok); rewrite Hco; set_solver|]. intros ->. by apply Hn.
Qed.

Lemma mark_ok s h : loop_ok s → loop_ok (s <| marked ::= cons h |>).
Proof.
  intros Hok. split; unfold removed; upd; try apply Hok.
  - intros h' n (? & ? & ?)%(ok_removes _ Hok). split_and!; [done|done|by right].
  - intros co Hco. destruct (ok_coroutines _ Hok co Hco). split; [done|]. intros ?; right; auto.
Qed.

(** A number not used yet. *)
Lemma next_callback_fresh s :
  loop_ok s → removes s !! next_callback s = None ∧ next_callback s ∉ cb <$> scheduled_tasks_ s.
Proof.
  intros Hok. split.
  - destruct (removes s !! next_callback s) eqn:E; [|done]. apply (ok_removes _ Hok) in E. lia.
  - intros Hin%(ok_tasks _ Hok). lia.
Qed.

Lemma other_task_ok s now delay :
  loop_ok s →
  loop_ok (s <| scheduled_tasks_ := add_scheduled_task now (scheduled_tasks_ s) delay (next_callback s) |>
             <| next_callback ::= S |>).
Proof.
  intros Hok. destruct (next_callback_fresh s Hok) as [Hfresh Hnew].
  split; unfold removed, add_scheduled_task; upd; rewrite ?fmap_cons; cbn [cb]; try apply Hok.
  - intros h Hh. rewrite (ok_left _ Hok h Hh). unfold removed. setoid_rewrite not_elem_of_cons.
    split; intros (n & Hn & ?); exists n; [|naive_solver]. split; [done|]. split; [|done]. congruence.
  - intros h n (? & ? & ?)%(ok_removes _ Hok). split_and!; [lia|done|done].
  - apply NoDup_cons. by split; [|apply Hok].
  - intros n [->|Hn%(ok_tasks _ Hok)]%elem_of_cons; lia.
Qed.

Lemma handle_ok now s h :
  loop_ok s → (h < next_handler s)%nat → h ∈ marked s →
  loop_ok (schedule_removal now h s <| handled ::= cons h |>).
Proof.
  intros Hok Hlt Hm. destruct (next_callback_fresh s Hok) as [Hfresh Hnew].
  unfold schedule_removal.
  split; unfold removed, add_scheduled_task; upd; rewrite ?fmap_cons; cbn [cb]; try apply Hok.
  - intros h' Hh'. rewrite (ok_left _ Hok h' Hh'). unfold removed. setoid_rewrite not_elem_of_cons.
    split; intros (n & Hn & Hq).
    + exists n. rewrite lookup_insert_ne by congruence. split; [done|]. split; [|done]. congruence.
    + destruct Hq as [Hne Hq]. rewrite lookup_insert_ne in Hn by done. eauto.
  - intros h'. rewrite elem_of_cons, (ok_handled _ Hok h'). split.
    + intros [->|(n & Hn)]; [exists (next_callback s); apply lookup_insert_eq|].
      exists n. rewrite lookup_insert_ne; [done|]. congruence.
    + intros (n & [[_ <-]|[_ Hn]]%lookup_insert_Some); [by left|right; eauto].
  - intros h' n [[<- <-]|[_ (? & ? & ?)%(ok_removes _ Hok)]]%lookup_insert_Some;
      split_and!; done || lia.
  - apply NoDup_cons. by split; [|apply Hok].
  - intros n [->|Hn%(ok_tasks _ Hok)]%elem_of_cons; lia.
Qed.

Lemma continue_ok now co e s next s' l1 l2 :
  loop_ok s → coroutines s = l1 ++ co :: l2 → continue_ now co e s = (next, s') →
  loop_ok s' ∧ coroutines s' = l1 ++ co :: l2 ∧ (next = Some Disconnect → handler co ∈ marked s') ∧
  connections_ s' = connections_ s.
Proof.
  intros Hok Hco. assert (co ∈ coroutines s) as Hin by (rewrite Hco; set_solver).
  destruct (ok_coroutines _ Hok co Hin) as [Hlt Hm].
  assert (loop_ok (s <| crashed := true |>)) as Hcr by (split; unfold removed; upd; apply Hok).
  assert (loop_ok (s <| dropped ::= cons (handler co) |>)) as Hdr by (split; unfold removed; upd; apply Hok).
  assert (awaits co = Disconnect →
    loop_ok (schedule_removal now (handler co) s <| handled ::= cons (handler co) |>)) as Hh
    by (intros; apply handle_ok; auto).
  pose proof (mark_ok s (handler co) Hok) as Hmk.
  unfold continue_. destruct (awaits co) eqn:Ha, e; try destruct (state co); intros [= <- <-];
    (split; [auto|split; [exact Hco|split; [try done|done]]]).
  all: intros _; upd; left.
Qed.

(** What one look at the queue does to it. *)
Lemma tasks_step now q q' t :
  run_scheduled_tasks now q q' t →
  match t with
  | None => q' = q
  | Some u => ∃ l1 l2, q = l1 ++ u :: l2 ∧ q' = l1 ++ l2
  end.
Proof. destruct 1; eauto. Qed.

(** Running a task. *)
Definition run_one s l1 (u : ScheduledTask) l2 : Loop :=
  run_callback (cb u) (s <| scheduled_tasks_ := l1 ++ l2 |>).

Lemma run_one_connections s l1 u l2 h :
  h ∈ connections_ (run_one s l1 u l2) ↔ h ∈ connections_ s ∧ removes s !! cb u ≠ Some h.
Proof.
  unfold run_one, run_callback. upd. destruct (removes s !! cb u) as [h0|]; upd; [|naive_solver].
  rewrite list_elem_of_filter. naive_solver.
Qed.

Lemma run_one_rest s l1 u l2 :
  let s' := run_one s l1 u l2 in
  scheduled_tasks_ s' = l1 ++ l2 ∧ removes s' = removes s ∧ coroutines s' = coroutines s ∧
  next_handler s' = next_handler s ∧ next_callback s' = next_callback s ∧ marked s' = marked s ∧
  handled s' = handled s.
Proof. unfold run_one, run_callback. upd. by destruct (removes s !! cb u). Qed.

Lemma run_one_ok s l1 u l2 :
  loop_ok s → scheduled_tasks_ s = l1 ++ u :: l2 → loop_ok (run_one s l1 u l2).
Proof.
  intros Hok Hs. pose proof (ok_queue _ Hok) as Hnd. rewrite Hs, fmap_app, fmap_cons in Hnd.
  assert (cb u ∉ (cb <$> l1 ++ l2)) as Hu.
  { rewrite fmap_app. apply NoDup_app in Hnd as (_ & Hd & [Hu _]%NoDup_cons).
    intros [Hin|Hin]%elem_of_app; [|done]. apply (Hd _ Hin). left. }
  assert (∀ n, n ∈ cb <$> scheduled_tasks_ s ↔ n = cb u ∨ n ∈ cb <$> l1 ++ l2) as Hq.
  { intros n. rewrite Hs, !fmap_app, fmap_cons, !elem_of_app, elem_of_cons. tauto. }
  pose proof (run_one_connections s l1 u l2) as Hc.
  destruct (run_one_rest s l1 u l2) as (Es & Er & Ec & Eh & En & Em & Ed).
  split; unfold removed; rewrite ?Es, ?Er, ?Ec, ?Eh, ?En, ?Em, ?Ed; try apply Hok.
  - unfold run_one, run_callback. upd. destruct (removes s !! cb u); upd; [apply NoDup_filter|]; apply Hok.
  - intros h [Hh _]%Hc. by apply Hok.
  - intros h Hh. rewrite Hc. transitivity (removed s h ∨ removes s !! cb u = Some h).
    { rewrite <-(ok_left _ Hok h Hh). destruct (decide (removes s !! cb u = Some h)); tauto. }
    unfold removed. setoid_rewrite Hq. split.
    + intros [(n & Hn & Hnq)|Hn]; [exists n; split; [done|tauto]|by exists (cb u)].
    + intros (n & Hn & Hnq). destruct (decide (n = cb u)) as [->|]; [by right|left].
      exists n. split; [done|]. tauto.
  - rewrite fmap_app. apply NoDup_app in Hnd as (Hl1 & Hd & [_ Hl2]%NoDup_cons).
    apply NoDup_app. split; [done|]. split; [|done]. intros n Hn Hn2. apply (Hd n Hn). by right.
  - intros n Hn. apply (ok_tasks _ Hok), Hq. by right.
Qed.

Lemma slow_update_spec throws s :
  slow_update throws s =
  s <| dropped := reverse (filter (λ h, throws h = true) (connections_ s)) ++ dropped s |>.
Proof.
  unfold slow_update. generalize (connections_ s) as l. intros l. revert s.
  induction l as [|h l IH]; intros s; [by destruct s|]. cbn [foldl]. rewrite IH, filter_cons.
  destruct (throws h) eqn:E.
  - rewrite decide_True by done. upd. rewrite reverse_cons, <-app_assoc. by destruct s.
  - rewrite decide_False by done. done.
Qed.

Lemma step_ok s s' : loop_ok s → step s s' → loop_ok s'.
Proof.
  intros Hok Hs. destruct Hs as [s|s h st|s h|s l1 co l2 now e Hco|s now delay|s now q t Hq|s throws].
  - by apply on_peer_connected_ok.
  - by apply add_coroutine_ok.
  - by apply add_coroutine_ok.
  - destruct (continue_ now co e s) as [next s'] eqn:E.
    destruct (continue_ok _ _ _ _ _ _ _ _ Hok Hco E) as (Hok' & Hco' & Hn & _).
    by apply replace_coroutine_ok.
  - by apply other_task_ok.
  - apply tasks_step in Hq. destruct t as [u|]; cbn.
    + destruct Hq as (l1 & l2 & Hs & ->). by apply run_one_ok.
    + subst q. by destruct s.
  - rewrite slow_update_spec. split; unfold removed; upd; apply Hok.
Qed.

Lemma reachable_ok s : reachable s → loop_ok s.
Proof.
  intros Hr. pose proof empty_loop_ok as Hok. unfold reachable in Hr.
  induction Hr as [|x y z [_ Hs] _ IH]; [done|]. apply IH. by eapply step_ok.
Qed.

(** A step takes a handler out of the table exactly by running a task that
    removes it. *)
Lemma step_leaves s s' h :
  loop_ok s → step s s' → h ∈ connections_ s →
  (h ∉ connections_ s' ↔
   ∃ t, t ∈ scheduled_tasks_ s ∧ (t ∉ scheduled_tasks_ s') ∧ removes s !! cb t = Some h).
Proof.
  intros Hok Hs Hh.
  assert (∀ s', connections_ s' = connections_ s ∨ connections_ s' = connections_ s ++ [next_handler s] →
    (∀ t, t ∈ scheduled_tasks_ s → t ∈ scheduled_tasks_ s') →
    (h ∉ connections_ s' ↔
     ∃ t, t ∈ scheduled_tasks_ s ∧ (t ∉ scheduled_tasks_ s') ∧ removes s !! cb t = Some h)) as Hstay.
  { intros s0 Hc Ht. split; [|intros (t & Hin & Hout & _); by destruct Hout; apply Ht].
    intros Hno. destruct Hno, Hc as [-> | ->]; set_solver. }
  destruct Hs as [s|s h' st|s h'|s l1 co l2 now e Hco|s now delay|s now q t Hq|s throws].
  - apply Hstay; [by right|done].
  - apply Hstay; unfold on_state_changed; destruct (lock s h'); auto.
  - apply Hstay; unfold on_payload_command; destruct (lock s h'); auto.
  - destruct (continue_ now co e s) as [next s'] eqn:E.
    destruct (continue_ok _ _ _ _ _ _ _ _ Hok Hco E) as (_ & _ & _ & Ec).
    apply Hstay; [left; exact Ec|]. upd. revert E. unfold continue_.
    destruct (awaits co), e; try destruct (state co); intros [= _ <-];
      intros t Ht; first [exact Ht|by right].
  - apply Hstay; [by left|]. intros t Ht. by right.
  - apply tasks_step in Hq. destruct t as [u|]; cbn.
    2: { subst q. apply Hstay; [by left|done]. }
    destruct Hq as (l1 & l2 & Hs & ->).
    change (run_callback (cb u) (s <| scheduled_tasks_ := l1 ++ l2 |>)) with (run_one s l1 u l2).
    rewrite (run_one_connections s l1 u l2). setoid_rewrite (proj1 (run_one_rest s l1 u l2)).
    pose proof (ok_queue _ Hok) as Hnd. rewrite Hs, fmap_app, fmap_cons in Hnd.
    assert (u ∉ l1 ++ l2) as Hu.
    { apply NoDup_app in Hnd as (_ & Hd & [Hu _]%NoDup_cons). intros [Hin|Hin]%elem_of_app.
      - apply (Hd (cb u)); [by apply list_elem_of_fmap_2|left].
      - by apply Hu, list_elem_of_fmap_2. }
    split.
    + intros Hno. exists u. split; [rewrite Hs; set_solver|]. split; [done|].
      destruct (decide (removes s !! cb u = Some h)); tauto.
    + intros (t & Ht & Hnt & Hr) [_ Hne]. apply Hne.
      rewrite Hs in Ht. assert (t = u) as -> by set_solver. exact Hr.
  - rewrite slow_update_spec. apply Hstay; [by left|done].
Qed.

(** C36: The table of connections, however callbacks, coroutines, scheduled
    tasks and slow updates interleave.  No handler is in it twice.  A handler
    has left it exactly when a removal scheduled for it has been run: one is
    scheduled exactly when its disconnect has been handled to the end, which
    began only after it was told that it is disconnected, and the step that
    runs one is the only one that takes a handler out.  A slow update, which
    changes nothing else, asks each connection once. *)
Theorem connection_table_sound s throws :
  reachable s →
  NoDup (connections_ s) ∧
  (∀ h, (h < next_handler s)%nat →
     (h ∉ connections_ s ↔ ∃ n, removes s !! n = Some h ∧ n ∉ cb <$> scheduled_tasks_ s)) ∧
  (∀ h, h ∈ handled s ↔ ∃ n, removes s !! n = Some h) ∧
  (∀ h, h ∈ handled s → h ∈ marked s) ∧
  (∀ s' h, step s s' → h ∈ connections_ s →
     (h ∉ connections_ s' ↔
      ∃ t, t ∈ scheduled_tasks_ s ∧ (t ∉ scheduled_tasks_ s') ∧ removes s !! cb t = Some h)) ∧
  slow_update throws s =
    s <| dropped := reverse (filter (λ h, throws h = true) (connections_ s)) ++ dropped s |>.
Proof.
  intros Hok%reachable_ok. split; [apply Hok|]. split; [apply Hok|]. split; [apply Hok|].
  split; [|split; [|apply slow_update_spec]].
  - intros h (n & Hn)%(ok_handled _ Hok). by apply (ok_removes _ Hok) in Hn as (_ & _ & ?).
  - intros s' h Hs Hh. by apply step_leaves.
Qed.

(** ** A connection that comes and goes *)

Lemma reach_step s s' : reachable s → crashed s = false → step s s' → reachable s'.
Proof. intros Hr Hc Hs. unfold reachable in *. by eapply rtc_r. Qed.

(** Two peers connect; the first one's disconnect is handled and its removal
    scheduled, at time 3. *)
Definition after_disconnect : Loop :=
  mkLoop [0; 1]%nat [] [mkTask 3 0] {[ 0%nat := 0%nat ]} 2 1 [0%nat] [0%nat] [] false.
Definition after_removal : Loop :=
  mkLoop [1%nat] [] [] {[ 0%nat := 0%nat ]} 2 1 [0%nat] [0%nat] [] false.

Lemma after_disconnect_reachable : reachable after_disconnect.
Proof.
  assert (reachable empty_loop) as R by (unfold reachable; reflexivity).
  eapply reach_step in R; [|reflexivity|eapply peer_connected].
  eapply reach_step in R; [|reflexivity|eapply peer_connected].
  eapply reach_step in R; [|reflexivity|eapply (state_changed _ 0 Disconnected)].
  eapply reach_step in R; [|reflexivity|
    eapply (coroutine_goes_on _ [] (mkCoroutine 0 Disconnected StateChange) [] 3 Throws); reflexivity].
  eapply reach_step in R; [|reflexivity|
    eapply (coroutine_goes_on _ [] (mkCoroutine 0 Disconnected Disconnect) [] 3 Returns); reflexivity].
  exact R.
Qed.

Lemma removal_runs : step after_disconnect after_removal.
Proof.
  apply (task_runs after_disconnect 4 [] (Some (mkTask 3 0))).
  apply (run_task_now 4 [] (mkTask 3 0) []); [|reflexivity].
  split; [left|]. intros t ->%list_elem_of_singleton. reflexivity.
Qed.

Lemma after_removal_reachable : reachable after_removal.
Proof. exact (reach_step _ _ after_disconnect_reachable eq_refl removal_runs). Qed.

(** The first connection is in the table until its removal is run, though its
    disconnect has been handled, and then no more. *)
Lemma connection_table_sound_witness :
  0%nat ∈ handled after_disconnect ∧ 0%nat ∈ connections_ after_disconnect ∧
  (0%nat ∉ connections_ after_removal) ∧ 1%nat ∈ connections_ after_removal.
Proof.
  destruct (connection_table_sound after_disconnect (λ _, false) after_disconnect_reachable)
    as (_ & _ & Hd & _ & Hstep & _).
  assert (0%nat ∈ connections_ after_disconnect) as Hin by left.
  split; [apply Hd; exists 0%nat; reflexivity|]. split; [exact Hin|]. split.
  - apply (proj2 (Hstep after_removal 0%nat removal_runs Hin)). exists (mkTask 3 0).
    split; [left|]. split; [apply not_elem_of_nil|reflexivity].
  - destruct (connection_table_sound after_removal (λ _, false) after_removal_reachable)
      as (_ & Hleft & _).
    destruct (decide (1%nat ∈ connections_ after_removal)) as [Hc|Hc]; [exact Hc|].
    apply (proj1 (Hleft 1%nat ltac:(cbn; lia))) in Hc as (n & Hn & _). cbn in Hn.
    apply lookup_singleton_Some in Hn as [_ Hn]. discriminate Hn.
Defined.
