(* ===== verification/PeerPersistence.v ===== *)
(** * Persistent peers

    Models [peer_persistence.cpp] and the registry events of
    [server_manager.cpp]: authenticated identities parked under a token while
    their client moves between servers, with their expiry and their
    replication between processes. *)

From S2P Require Import Prelude Values Types GameState.
Open Scope Z_scope.

(** <src/peer_persistence.cpp:19-20 next_store_generation>
    The part of [ServerManager] the persistence functions touch:
    [peer_persistent_data] and the process-wide counter
    [next_store_generation]. *)
Record Registry := mkRegistry {
  peer_persistent_data : list PeerPersistent;
  next_store_generation : Z;
}.
#[export] Instance eta_Registry : Eta Registry := λ r,
  mkRegistry (peer_persistent_data r) (next_store_generation r).

(** The scheduled removal of a stored peer (peer_persistence.cpp:48-52). *)
Record ExpireStored := mkExpireStored {
  expire_ms : Z;
  expire_token : string;
  expire_generation : Z;
}.

Section ops.
Context `{Ser, Codes}.
(** [is_created] and [is_creating] of the game an identity owns. *)
Context (game_state : game_ptr → bool * bool).
Implicit Types (r : Registry) (pp : PeerPersistent).

(** <include/luxon/server/peer_persistence.hpp:30-33 PeerPersistent::reset_invitation> *)
Definition reset_invitation pp : PeerPersistent := pp <| invitation := no_game_info |>.
(** <include/luxon/server/peer_persistence.hpp:34-34 PeerPersistent::reset_owned_game> *)
Definition reset_owned_game pp : PeerPersistent := pp <| owned_game := None |>.
(** <include/luxon/server/peer_persistence.hpp:35-38 PeerPersistent::reset_game> *)
Definition reset_game pp : PeerPersistent := reset_owned_game (reset_invitation pp).

(** <include/luxon/server/peer_persistence.hpp:41-41 PeerPersistent::has_invitation> *)
Definition has_invitation pp : bool := has_game_info (invitation pp).
(** <include/luxon/server/peer_persistence.hpp:42-44 PeerPersistent::owns> *)
Definition owns pp (g : game_ptr) : bool := bool_decide (owned_game pp = Some g).

(** <include/luxon/server/peer_persistence.hpp:45-50 PeerPersistent::reset_owned_game_if_created> *)
Definition reset_owned_game_if_created pp : PeerPersistent :=
  match owned_game pp with
  | Some g =>
      let '(created, creating) := game_state g in
      if created && negb creating then reset_owned_game pp else pp
  | None => pp
  end.

(** <include/luxon/server/peer_persistence.hpp:61-71 PeerPersistent::invite>
    An invitation is the identification of the game, its strings copied into
    the identity. *)
Definition invite_info (info : GameInfo) pp : PeerPersistent :=
  pp <| invitation := info |>.
(** <include/luxon/server/peer_persistence.hpp:52-59 PeerPersistent::invite> *)
Definition invite_game (g : game_ptr) (info : GameInfo) (is_creating : bool) pp :
    PeerPersistent :=
  let pp := invite_info info pp in
  if is_creating then pp <| owned_game := Some g |> else pp.

(** <src/peer_persistence.cpp:33-55 store_persistent_peer> *)
Definition store_persistent_peer r pp : Registry * list ExpireStored :=
  if bool_decide (pp_app pp = None) then (r, [])
  else
    let pp := reset_owned_game_if_created pp in
    let generation := u64 (next_store_generation r + 1) in
    let pp := pp <| store_generation := generation |> in
    (r <| peer_persistent_data ::= λ l,
            remove_if (λ v, bool_decide (token v = token pp)) l ++ [pp] |>
       <| next_store_generation := generation |>,
     if 0 <=? reconnect_ttl_ms pp
     then [mkExpireStored (Z.max 30000 (reconnect_ttl_ms pp)) (token pp) generation]
     else []).

(** <src/peer_persistence.cpp:48-52 store_persistent_peer> *)
Definition expire_stored r (t : ExpireStored) : Registry :=
  r <| peer_persistent_data ::= remove_if (λ v,
         bool_decide (token v = expire_token t)
         && (store_generation v =? expire_generation t)) |>.

(** <src/peer_persistence.cpp:67-71 load_persistent_peer> *)
Definition consume_message pp : EventMessage :=
  mkMessage IpcPersistentPeerConsume
    (<[IpcRevision := of_int64 (s64 (store_generation pp))]>
       (<[KeyToken := of_string (token pp)]> ∅)).

(** <src/peer_persistence.cpp:57-79 load_persistent_peer>
    [fresh] is the token [create_token] draws. *)
Definition load_persistent_peer r (tok : string) (refresh : bool) (fresh : string) :
    Registry * option PeerPersistent * list EventMessage :=
  match split_first (λ v, bool_decide (token v = tok)) (peer_persistent_data r) with
  | None => (r, None, [])
  | Some (l1, pp, l2) =>
      (r <| peer_persistent_data := l1 ++ l2 |>,
       Some (if refresh then pp <| token := fresh |> else pp),
       [consume_message pp])
  end.

(** <src/peer_persistence.cpp:81-87 create_persistent_peer> *)
Definition create_persistent_peer (fresh : string) : PeerPersistent :=
  mkPeerPersistent no_game_info None None EmptyString fresh 30000 0.

(** <src/peer_persistence.cpp:89-96 reset_persistent_peer_game_ownership> *)
Definition reset_persistent_peer_game_ownership r (g : game_ptr) : Registry :=
  r <| peer_persistent_data ::= λ l,
         match split_first (λ pp, owns pp g) l with
         | Some (l1, pp, l2) => l1 ++ reset_owned_game pp :: l2
         | None => l
         end |>.

(** <src/peer_persistence.cpp:99-113 sync_persistent_peer>
    [app_info] identifies the application the peer points to. *)
Definition sync_persistent_peer (app_info : app_ptr → AppInfo) pp : EventMessage :=
  let ps := <[KeyToken := of_string (token pp)]> ∅ in
  let ps := <[KeyUserId := of_string (user_id pp)]> ps in
  let ps := <[KeyPlayerTTL := of_int32 (reconnect_ttl_ms pp)]> ps in
  let ps := <[IpcRevision := of_int64 (s64 (store_generation pp))]> ps in
  mkMessage IpcPersistentPeerStore
    (if has_invitation pp then encode_game_info (invitation pp) ps
     else match pp_app pp with
          | Some a =>
              let info := app_info a in
              <[KeyAppVersion := of_string (app_version info)]>
                (<[KeyApplicationId := of_string (app_id info)]> ps)
          | None => ps
          end).

(** <src/server_manager.cpp:756-758 ServerManager::has_persistent_peer> *)
Definition has_persistent_peer r (tok : string) : bool :=
  existsb (λ pp, bool_decide (token pp = tok)) (peer_persistent_data r).

(** <src/handler_base.cpp:47-52 HandlerBase::~HandlerBase>
    Every handler parks its identity this way (also handler_masterserver.cpp
    395-396, 545-546 and 706-707): first replicated, then stored. *)
Definition park (app_info : app_ptr → AppInfo) r pp :
    Registry * EventMessage * list ExpireStored :=
  let msg := sync_persistent_peer app_info pp in
  let '(r, tasks) := store_persistent_peer r pp in (r, msg, tasks).

(** ** Replication *)

(** [params[key].get_ptr<int64_t>()], ignoring negative values. *)
Definition revision_param (params : ParameterList) : option Z :=
  v ← params !! IpcRevision; rev ← get_int64 v;
  if 0 <=? rev then Some rev else None.

(** <src/server_manager.cpp:817-832 ServerManager::process_ipc_event> *)
Definition process_consume r (params : ParameterList) : Registry :=
  match (v ← params !! KeyToken; get_string v) with
  | None => r
  | Some tok =>
      r <| peer_persistent_data ::= remove_if (λ pp,
             bool_decide (token pp = tok)
             && match revision_param params with
                | Some rev => store_generation pp <=? rev
                | None => true
                end) |>
  end.

(** <src/server_manager.cpp:955-1007 ServerManager::process_ipc_event>
    [get_app] is the application the parameters name, [fresh] the token drawn
    for the new entry (and replaced). A parameter of the wrong type makes the
    decoding throw: [None]. *)
Definition process_store (get_app : AppInfo → option app_ptr) (fresh : string)
    r (params : ParameterList) : option (Registry * list ExpireStored) :=
  match (v ← params !! KeyToken; get_string v),
        (v ← params !! KeyUserId; get_string v) with
  | Some tok, Some user =>
      let pp := create_persistent_peer fresh <| token := tok |> <| user_id := user |> in
      let pp := match (v ← params !! KeyPlayerTTL; get_int32 v) with
                | Some ttl => pp <| reconnect_ttl_ms := ttl |>
                | None => pp
                end in
      let newer := match revision_param params with
                   | Some rev =>
                       existsb (λ v, bool_decide (token v = tok)
                                     && (rev <? store_generation v))
                         (peer_persistent_data r)
                   | None => false
                   end in
      if newer then Some (r, [])
      else
        let pp := match revision_param params with
                  | Some rev => pp <| store_generation := rev |>
                  | None => pp
                  end in
        info ← decode_game_info params;
        match get_app (li_app (gi_lobby info)) with
        | None => Some (r, [])
        | Some a =>
            Some (store_persistent_peer r
                    (invite_info info (pp <| pp_app := Some a |>)))
        end
  | _, _ => Some (r, [])
  end.
End ops.

(** ** Lemmas and properties *)

Section facts.
Context `{Ser, Codes} (game_state : game_ptr → bool * bool).
Implicit Types (r : Registry) (pp : PeerPersistent).

(** Each token names one identity, and generations come from the counter. *)
Record registry_ok r : Prop := {
  reg_tokens : NoDup (token <$> peer_persistent_data r);
  reg_generations : Forall (λ pp, 0 ≤ store_generation pp ≤ next_store_generation r)
                      (peer_persistent_data r);
  reg_next : 0 ≤ next_store_generation r < 2 ^ 64;
}.

(** The identity parked under a token. *)
Definition parked r (tok : string) : option PeerPersistent :=
  find_first (λ pp, bool_decide (token pp = tok)) (peer_persistent_data r).

(** What [store] parks. *)
Definition stored_form r pp : PeerPersistent :=
  reset_owned_game_if_created game_state pp
    <| store_generation := u64 (next_store_generation r + 1) |>.

Lemma reset_owned_same pp :
  token (reset_owned_game_if_created game_state pp) = token pp ∧
  user_id (reset_owned_game_if_created game_state pp) = user_id pp ∧
  pp_app (reset_owned_game_if_created game_state pp) = pp_app pp ∧
  invitation (reset_owned_game_if_created game_state pp) = invitation pp ∧
  reconnect_ttl_ms (reset_owned_game_if_created game_state pp) = reconnect_ttl_ms pp.
Proof.
  unfold reset_owned_game_if_created. destruct (owned_game pp) as [g|]; [|done].
  destruct (game_state g). by destruct (_ && _).
Qed.

Lemma store_data r pp :
  pp_app pp ≠ None →
  peer_persistent_data (store_persistent_peer game_state r pp).1 =
  remove_if (λ v, bool_decide (token v = token pp)) (peer_persistent_data r)
  ++ [stored_form r pp].
Proof.
  intros Ha. unfold store_persistent_peer.
  rewrite bool_decide_eq_false_2 by done. cbn [fst].
  upd. by rewrite (proj1 (reset_owned_same pp)).
Qed.

Lemma NoDup_fmap_remove_if {A B} (f : A → B) p (l : list A) :
  NoDup (f <$> l) → NoDup (f <$> remove_if p l).
Proof.
  unfold remove_if. induction l as [|x l IH]; [done|]. rewrite fmap_cons, NoDup_cons.
  intros [Hx Hn]. rewrite filter_cons. destruct (decide _); [|by apply IH].
  rewrite fmap_cons, NoDup_cons. split; [|by apply IH].
  rewrite list_elem_of_fmap. intros (y & E & [_ Hy]%list_elem_of_filter).
  apply Hx, list_elem_of_fmap. eauto.
Qed.

Lemma find_first_remove_if {A} (p q : A → bool) (l : list A) :
  (∀ x, p x = true → q x = false) → find_first p (remove_if q l) = find_first p l.
Proof.
  intros Hpq. unfold remove_if. induction l as [|x l IH]; [done|].
  rewrite filter_cons. cbn. destruct (p x) eqn:Hp.
  - rewrite decide_True by by apply Hpq. cbn. by rewrite Hp.
  - destruct (decide _); cbn; by rewrite ?Hp.
Qed.

Lemma store_found r pp :
  registry_ok r → pp_app pp ≠ None → next_store_generation r < 2 ^ 64 - 1 →
  let r' := (store_persistent_peer game_state r pp).1 in
  registry_ok r' ∧
  parked r' (token pp) = Some (stored_form r pp) ∧
  (∀ tok, tok ≠ token pp → parked r' tok = parked r tok) ∧
  (store_persistent_peer game_state r pp).2 =
    (if 0 <=? reconnect_ttl_ms pp
     then [mkExpireStored (Z.max 30000 (reconnect_ttl_ms pp)) (token pp)
             (next_store_generation r + 1)]
     else []).
Proof.
  intros [Ht Hg Hn] Ha Hmax. cbn zeta.
  assert (token (stored_form r pp) = token pp) as Etok
    by (unfold stored_form; upd; apply reset_owned_same).
  assert (u64 (next_store_generation r + 1) = next_store_generation r + 1) as Egen
    by (apply wrap_small; lia).
  split; [|split; [|split]].
  - split; rewrite ?store_data by done.
    + rewrite fmap_app, NoDup_app. split; [by apply NoDup_fmap_remove_if|].
      split; [|apply NoDup_singleton].
      intros tok (v & -> & Hv)%list_elem_of_fmap. apply elem_of_remove_if in Hv as [_ Hv].
      bools. cbn [fmap list_fmap]. by rewrite list_elem_of_singleton, Etok.
    + assert (next_store_generation (store_persistent_peer game_state r pp).1 =
              next_store_generation r + 1) as ->.
      { unfold store_persistent_peer. rewrite bool_decide_eq_false_2 by done.
        cbn [fst]. by upd. }
      apply Forall_app. split.
      * rewrite Forall_forall in *. intros v [Hv _]%elem_of_remove_if.
        specialize (Hg v Hv). lia.
      * apply Forall_singleton. unfold stored_form. upd. rewrite Egen. lia.
    + unfold store_persistent_peer. rewrite bool_decide_eq_false_2 by done.
      cbn [fst]. upd. rewrite Egen. lia.
  - unfold parked. rewrite store_data, find_first_app by done.
    rewrite (proj2 (find_first_None _ _)).
    + cbn [find_first]. by rewrite Etok, bool_decide_eq_true_2.
    + by intros v [_ Hv]%elem_of_remove_if.
  - intros tok Hne. unfold parked. rewrite store_data, find_first_app by done.
    rewrite find_first_remove_if.
    + destruct (find_first _ _); [done|]. cbn [find_first]. rewrite Etok.
      by rewrite bool_decide_eq_false_2 by congruence.
    + intros v Hv. bools. subst tok. by apply bool_decide_eq_false.
  - unfold store_persistent_peer. rewrite bool_decide_eq_false_2 by done. cbn [snd].
    upd. destruct (reset_owned_same pp) as (-> & _ & _ & _ & ->). by rewrite Egen.
Qed.

(** Parking an identity makes it the one found under its token, with its
    user, application and invitation, replaces whatever was parked under the
    token before and leaves every other token alone; the registry keeps one
    identity per token, and a removal is scheduled, never sooner than thirty
    seconds, unless the peer asked to be kept forever. *)
Theorem store_then_found r pp :
  registry_ok r → pp_app pp ≠ None → next_store_generation r < 2 ^ 64 - 1 →
  let r' := (store_persistent_peer game_state r pp).1 in
  registry_ok r' ∧
  parked r' (token pp) = Some (stored_form r pp) ∧
  (∀ tok, tok ≠ token pp → parked r' tok = parked r tok) ∧
  (store_persistent_peer game_state r pp).2 =
    (if 0 <=? reconnect_ttl_ms pp
     then [mkExpireStored (Z.max 30000 (reconnect_ttl_ms pp)) (token pp)
             (next_store_generation r + 1)]
     else []).
Proof. apply store_found. Qed.

Lemma load_once r tok refresh fresh :
  registry_ok r →
  let res := load_persistent_peer r tok refresh fresh in
  match parked r tok with
  | None => res = (r, None, [])
  | Some pp =>
      res.1.2 = Some (if refresh then pp <| token := fresh |> else pp) ∧
      parked res.1.1 tok = None ∧ registry_ok res.1.1 ∧
      (∀ tok', tok' ≠ tok → parked res.1.1 tok' = parked r tok') ∧
      res.2 = [consume_message pp]
  end.
Proof.
  intros [Ht Hg Hn]. cbn zeta. unfold load_persistent_peer, parked in *.
  destruct (split_first _ _) as [[[l1 pp] l2]|] eqn:Hs.
  2: { pose proof (split_first_None _ _ Hs) as Hno.
       by rewrite (proj2 (find_first_None _ _) Hno). }
  apply split_first_Some in Hs as (E & Hl1 & Hpp).
  rewrite E in *. rewrite find_first_app, (proj2 (find_first_None _ l1)) by done.
  cbn [find_first]. rewrite Hpp. cbn [fst snd]. upd.
  rewrite fmap_app, fmap_cons in Ht. bools. subst tok.
  apply NoDup_app in Ht as (Hn1 & Hd & Hn2). apply NoDup_cons in Hn2 as [Hx Hn2].
  split; [done|]. split; [|split; [split; upd|split; [|done]]].
  - rewrite find_first_app, (proj2 (find_first_None _ l1)) by done.
    apply find_first_None. intros v Hv. apply bool_decide_eq_false. intros Ev.
    apply Hx, list_elem_of_fmap. by exists v.
  - rewrite fmap_app. apply NoDup_app. split; [done|]. split; [|done].
    intros x Hx1 Hx2. apply (Hd x Hx1). by right.
  - apply Forall_app in Hg as [? Hg]. apply Forall_cons in Hg as [_ ?].
    by apply Forall_app.
  - done.
  - intros tok' Hne. rewrite !find_first_app. destruct (find_first _ l1); [done|].
    cbn. by rewrite (bool_decide_eq_false_2 (token pp = tok')) by congruence.
Qed.

(** Loading by token takes the parked identity out, at most once: the
    caller gets it (under a new token if asked), the token is no longer
    parked, the other tokens are untouched, and exactly one message tells the
    other processes. *)
Theorem load_takes_once r tok refresh fresh :
  registry_ok r →
  let res := load_persistent_peer r tok refresh fresh in
  match parked r tok with
  | None => res = (r, None, [])
  | Some pp =>
      res.1.2 = Some (if refresh then pp <| token := fresh |> else pp) ∧
      parked res.1.1 tok = None ∧ registry_ok res.1.1 ∧
      (∀ tok', tok' ≠ tok → parked res.1.1 tok' = parked r tok') ∧
      res.2 = [consume_message pp]
  end.
Proof. apply load_once. Qed.

(** An expiry task only removes the parking it was scheduled for: once
    the identity was loaded and parked again, the old task leaves the new
    entry in place. *)
Theorem stale_expiry_harmless r pp tok pp' t :
  registry_ok r → pp_app pp ≠ None → next_store_generation r < 2 ^ 64 - 1 →
  token pp = tok → parked r tok = Some pp' →
  t = mkExpireStored 30000 tok (store_generation pp') →
  let r' := (store_persistent_peer game_state r pp).1 in
  parked (expire_stored r' t) tok = Some (stored_form r pp) ∧
  parked (expire_stored r t) tok = None.
Proof.
  intros Hok Ha Hmax <- Hp ->. cbn zeta.
  destruct (store_found r pp Hok Ha Hmax) as (_ & Hf & _).
  pose proof (reg_generations _ Hok) as Hg.
  apply find_first_Some in Hp as Hp'. destruct Hp' as [Hin Htok]. bools.
  rewrite Forall_forall in Hg. specialize (Hg pp' Hin).
  split.
  - unfold parked, expire_stored in *. upd. cbn [expire_token expire_generation].
    set (l := peer_persistent_data (store_persistent_peer game_state r pp).1) in *.
    assert (∀ v, v ∈ l → token v = token pp → v = stored_form r pp) as Hu.
    { unfold l. rewrite store_data by done. intros v Hv Ev.
      apply elem_of_app in Hv as [[_ Hv]%elem_of_remove_if|Hv].
      - bools. congruence.
      - by apply list_elem_of_singleton in Hv. }
    apply find_first_Some in Hf as [Hfin Hft].
    apply find_first_unique; [|done|].
    + apply elem_of_remove_if. split; [done|]. apply andb_false_iff. right.
      apply Z.eqb_neq. unfold stored_form. upd. rewrite wrap_small; lia.
    + intros y [Hy _]%elem_of_remove_if Ey. bools. by apply Hu.
  - unfold parked, expire_stored. upd. cbn [expire_token expire_generation].
    apply find_first_None. intros v [Hv Hne]%elem_of_remove_if.
    apply not_true_iff_false. intros Ev. rewrite Ev in Hne. bools.
    cbn in Hne. assert (v = pp') as ->; [|by rewrite Z.eqb_refl in Hne].
    apply (NoDup_fmap_eq token (peer_persistent_data r)); [apply Hok|done|done|congruence].
Qed.
End facts.

(** ** Replication between two processes *)

Section replication.
Context `{SerLaws, CodesLaws, !RegistryKeys} (game_state : game_ptr → bool * bool).
Implicit Types (r : Registry) (pp : PeerPersistent).

Lemma s64_small z : 0 ≤ z < 2 ^ 63 → s64 z = z.
Proof.
  intros Hz. unfold swrap. rewrite wrap_small by lia.
  rewrite decide_True by lia. done.
Qed.

(** Lookups of the registry's own keys in a replication message. *)
Lemma sync_params app_info pp :
  has_invitation pp = true → 0 ≤ store_generation pp < 2 ^ 63 →
  let ps := parameters (sync_persistent_peer app_info pp) in
  ps !! KeyToken = Some (of_string (token pp)) ∧
  ps !! KeyUserId = Some (of_string (user_id pp)) ∧
  ps !! KeyPlayerTTL = Some (of_int32 (reconnect_ttl_ms pp)) ∧
  revision_param ps = Some (store_generation pp) ∧
  decode_game_info ps = Some (invitation pp).
Proof.
  intros Hi Hg. cbn zeta. unfold sync_persistent_peer. rewrite Hi.
  cbn [parameters]. pose proof registry_keys_nodup as Hnd.
  cbn [app] in Hnd. apply NoDup_cons in Hnd as [K1 Hnd].
  apply NoDup_cons in Hnd as [K2 Hnd]. apply NoDup_cons in Hnd as [K3 Hnd].
  apply NoDup_cons in Hnd as [K4 _].
  rewrite !not_elem_of_cons in K1. rewrite !not_elem_of_cons in K2.
  rewrite not_elem_of_cons in K3.
  destruct K1 as (?&?&?&K1), K2 as (?&?&K2), K3 as (?&K3).
  assert (∀ k, k ∉ info_keys → ∀ ps, encode_game_info (invitation pp) ps !! k = ps !! k)
    as Henc by (intros; by apply encode_game_info_other).
  assert (KeyToken ∉ info_keys) by first [done|unfold info_keys; rewrite !not_elem_of_cons; tauto].
  assert (KeyUserId ∉ info_keys) by first [done|unfold info_keys; rewrite !not_elem_of_cons; tauto].
  unfold revision_param. rewrite !Henc by done.
  repeat first [rewrite lookup_insert_eq | rewrite lookup_insert_ne by congruence].
  cbn [mbind option_bind]. rewrite acc_get. cbn [mbind option_bind].
  rewrite s64_small by done.
  rewrite (proj2 (Z.leb_le 0 (store_generation pp))) by lia.
  repeat split. by apply decode_encode_game_info.
Qed.

(** An identity parked in one process and replicated to another is not
    revoked there when it is consumed at home: the receiver stamps its copy
    with its own counter instead of the replicated revision, so a consume
    carrying the home generation leaves a copy whose local counter is ahead. *)
Theorem replica_outlives_consume app_info get_app fresh home away pp tok :
  registry_ok home → registry_ok away →
  token pp = tok → pp_app pp ≠ None → has_invitation pp = true →
  0 ≤ store_generation pp < 2 ^ 63 →
  get_app (li_app (gi_lobby (invitation pp))) ≠ None →
  parked away tok = None →
  next_store_generation home < next_store_generation away < 2 ^ 63 - 1 →
  ∃ home' msg tasks away' tasks' got home'' consume,
    park game_state app_info home pp = (home', msg, tasks) ∧
    process_store game_state get_app fresh away (parameters msg) = Some (away', tasks') ∧
    load_persistent_peer home' tok false fresh = (home'', Some got, [consume]) ∧
    parked home'' tok = None ∧
    is_Some (parked (process_consume away' (parameters consume)) tok).
Proof.
  intros Hh Hw <- Ha Hi Hsg Hga Hp Hlt.
  destruct (sync_params app_info pp Hi Hsg) as (Et & Eu & Ettl & Er & Ed).
  assert (existsb (λ v, bool_decide (token v = token pp) &&
            (store_generation pp <? store_generation v)) (peer_persistent_data away) = false)
    as Hnew.
  { apply not_true_iff_false. intros (v & Hv & E)%existsb_exists. bools.
    unfold parked in Hp. rewrite find_first_None in Hp.
    apply list_elem_of_In in Hv. specialize (Hp v Hv). by bools. }
  unfold process_store. unfold park.
  destruct (store_persistent_peer game_state home pp) as [home' tasks] eqn:Est.
  assert (registry_ok home' ∧ parked home' (token pp) = Some (stored_form game_state home pp))
    as [Hok' Hpk'].
  { destruct (store_found game_state home pp Hh Ha ltac:(lia)) as (H1' & H2' & _).
    by rewrite Est in H1', H2'. }
  eexists home', _, tasks. rewrite Et, Eu, Ettl, Er, Ed.
  cbn [mbind option_bind]. rewrite !acc_get. rewrite Hnew.
  destruct (get_app (li_app (gi_lobby (invitation pp)))) as [a|]; [|done].
  set (copy := invite_info _ _).
  assert (token copy = token pp) as Ect by done.
  assert (pp_app copy ≠ None) as Eca by done.
  destruct (store_persistent_peer game_state away copy) as [away' tasks'] eqn:Esw.
  destruct (store_found game_state away copy Hw Eca ltac:(lia)) as (_ & Hpw & _).
  rewrite Esw, Ect in Hpw. cbn [fst] in Hpw. clearbody copy.
  pose proof (load_once home' (token pp) false fresh Hok') as Hload.
  rewrite Hpk' in Hload. destruct Hload as (Hgot & Hnone & Hrest).
  destruct (load_persistent_peer home' (token pp) false fresh) as [[home'' got] msgs].
  cbn [fst snd] in *. destruct Hrest as (_ & _ & ->). subst got.
  do 5 eexists. split; [done|]. split; [done|]. split; [done|]. split; [done|].
  assert (store_generation (stored_form game_state home pp) = next_store_generation home + 1)
    as Eg by (unfold stored_form; upd; apply wrap_small; destruct Hh; lia).
  assert (token (stored_form game_state home pp) = token pp) as Etk
    by (unfold stored_form; upd; apply reset_owned_same).
  unfold process_consume, consume_message, revision_param. cbn [parameters].
  pose proof registry_keys_nodup as Hnd. cbn [app] in Hnd.
  apply NoDup_cons in Hnd as [K1 _]. rewrite !not_elem_of_cons in K1.
  destruct K1 as (_ & _ & K1 & _).
  rewrite (lookup_insert_ne _ IpcRevision KeyToken) by congruence.
  rewrite !lookup_insert_eq. cbn [mbind option_bind]. rewrite !acc_get.
  cbn [mbind option_bind]. rewrite s64_small by (destruct Hh; lia).
  rewrite Eg, Etk, (proj2 (Z.leb_le 0 _)) by (destruct Hh; lia).
  unfold parked in *. upd. apply find_first_Some in Hpw as [Hin Htk].
  apply (find_first_is_Some _ _ (stored_form game_state away copy)); [|done].
  apply elem_of_remove_if. split; [done|]. apply andb_false_iff. right.
  apply Z.leb_gt. unfold stored_form. upd. rewrite wrap_small; [lia|].
  destruct Hw. lia.
Qed.
End replication.
