(* ===== verification/PackedViews.v ===== *)
(** * Views packed into a buffer of their own

    Models [pfr_pack.hpp], which copies the texts the string views of a
    structure show into one buffer and lets the views show the copies, and
    its use for the invitations of [peer_persistence.hpp].  Memory is made
    of blocks; a string that outgrows its capacity moves to a block of its
    own, and what showed the old block dangles. *)

From Stdlib Require Import Ascii String.
From S2P Require Import Prelude Values Types PeerPersistence.
Open Scope nat_scope.

(** A stateful action on the elements of a list, in order. *)
Section in_turn.
Context {A S : Type} (action : A → S → A * S).
Fixpoint in_turn (l : list A) (st : S) : list A * S :=
  match l with
  | [] => ([], st)
  | x :: l =>
      let '(x, st) := action x st in
      let '(l, st) := in_turn l st in (x :: l, st)
  end.

Lemma in_turn_app l1 l2 st :
  in_turn (l1 ++ l2) st =
  let '(l1, st) := in_turn l1 st in let '(l2, st) := in_turn l2 st in (l1 ++ l2, st).
Proof.
  revert st. induction l1 as [|v l1 IH]; intros st; cbn [in_turn app].
  { by destruct (in_turn l2 st). }
  destruct (action v st) as [v' st1]. rewrite IH.
  destruct (in_turn l1 st1) as [l1' st2]. by destruct (in_turn l2 st2).
Qed.
End in_turn.

(** ** Memory *)

(** The blocks that are allocated, and a number no block has had. *)
Record Memory := mkMemory { blocks : gmap nat (list ascii); next_block : nat }.

(** A [std::string_view], and a [std::string] by the block of its data, its
    length and its capacity. *)
Record View := mkView { v_block : nat; v_off : nat; v_len : nat }.
Record Buffer := mkBuffer { b_block : nat; b_size : nat; b_capacity : nat }.
Implicit Types (m : Memory) (v : View) (b : Buffer) (l : list View) (data : list ascii).

Definition empty_view : View := mkView 0 0 0.

(** What a view shows; [None] when it reads memory it must not. *)
Definition read m v : option (list ascii) :=
  if decide (v_len v = 0) then Some []
  else
    s ← blocks m !! v_block v;
    if decide (v_off v + v_len v ≤ length s) then Some (take (v_len v) (drop (v_off v) s)) else None.

Section pack.
(** The capacity a string of one capacity takes when it needs another. *)
Context (grow : nat → nat → nat).

(** Moving a string's data to a new block. *)
Definition reallocate (capacity : nat) m b : Memory * Buffer :=
  (mkMemory (<[next_block m := default [] (blocks m !! b_block b)]> (delete (b_block b) (blocks m)))
     (S (next_block m)),
   mkBuffer (next_block m) (b_size b) capacity).

(** [std::string::reserve] and [append]. *)
Definition reserve (n : nat) m b : Memory * Buffer :=
  if b_capacity b <? n then reallocate (grow (b_capacity b) n) m b else (m, b).
Definition append data m b : Memory * Buffer :=
  let '(m, b) := reserve (b_size b + length data) m b in
  (mkMemory (alter (λ s, s ++ data) (b_block b) (blocks m)) (next_block m),
   mkBuffer (b_block b) (b_size b + length data) (b_capacity b)).

(** [std::string::clear]: the block and the capacity stay. *)
Definition clear m b : Memory * Buffer :=
  (mkMemory (alter (λ _, []) (b_block b) (blocks m)) (next_block m),
   mkBuffer (b_block b) 0 (b_capacity b)).

(** ** Structures *)

#[local] Set Warnings "-register-all".
(** What reflection sees of a structure. *)
Inductive Obj :=
  | StringView (v : View) | ArrayOf (elements : list Obj) | Aggregate (fields : list Obj) | OtherType.

(** <include/luxon/server/pfr_pack.hpp:13-27 string_views>
    [visit_views]: the action on every view, in the order of the fields. *)
Fixpoint visit_views {S} (action : View → S → View * S) (obj : Obj) (st : S) : Obj * S :=
  match obj with
  | StringView v => let '(v, st) := action v st in (StringView v, st)
  | ArrayOf elements =>
      let '(elements, st) := in_turn (visit_views action) elements st in (ArrayOf elements, st)
  | Aggregate fields =>
      let '(fields, st) := in_turn (visit_views action) fields st in (Aggregate fields, st)
  | OtherType => (OtherType, st)
  end.

(** <include/luxon/server/pfr_pack.hpp:37-49 string_views>
    One view; nothing remains once a view was read that must not be. *)
Definition relink v (st : option (Memory * Buffer)) : View * option (Memory * Buffer) :=
  match st with
  | None => (v, None)
  | Some (m, b) =>
      if decide (v_len v = 0) then (empty_view, st)
      else
        let current_offset := b_size b in
        match read m v with
        | None => (v, None)
        | Some data =>
            let '(m, b) := append data m b in
            (mkView (b_block b) current_offset (v_len v), Some (m, b))
        end
  end.

(** <include/luxon/server/pfr_pack.hpp:11-50 string_views> *)
Definition string_views (instance : Obj) m b : Obj * option (Memory * Buffer) :=
  let total_needed := (visit_views (λ v n, (v, n + v_len v)) instance 0).2 in
  let '(m, b) := reserve total_needed m b in
  visit_views relink instance (Some (m, b)).

(** ** Lists of views *)

Fixpoint views_of (obj : Obj) : list View :=
  match obj with
  | StringView v => [v]
  | ArrayOf objs | Aggregate objs => mjoin (views_of <$> objs)
  | OtherType => []
  end.

(** Induction over structures. *)
Lemma Obj_nested_ind (P : Obj → Prop) :
  (∀ v, P (StringView v)) → (∀ objs, Forall P objs → P (ArrayOf objs)) →
  (∀ objs, Forall P objs → P (Aggregate objs)) → P OtherType → ∀ obj, P obj.
Proof.
  intros Hv Ha Hg Ho. fix IH 1. intros [v|objs|objs|].
  - apply Hv.
  - apply Ha. induction objs; constructor; [apply IH|assumption].
  - apply Hg. induction objs; constructor; [apply IH|assumption].
  - apply Ho.
Qed.

(** Same structure, up to its views. *)
Fixpoint shape (obj : Obj) : Obj :=
  match obj with
  | StringView _ => StringView empty_view
  | ArrayOf objs => ArrayOf (shape <$> objs)
  | Aggregate objs => Aggregate (shape <$> objs)
  | OtherType => OtherType
  end.

Lemma visit_views_list {S} (action : View → S → View * S) obj st :
  let r := visit_views action obj st in
  in_turn action (views_of obj) st = (views_of r.1, r.2) ∧ shape r.1 = shape obj.
Proof.
  cbn zeta. revert st. induction obj as [v|objs IH|objs IH|] using Obj_nested_ind; intros st.
  { cbn. by destruct (action v st). }
  3: done.
  all: cbn [visit_views views_of shape].
  all: assert (∀ st, in_turn action (mjoin (views_of <$> objs)) st =
    (mjoin (views_of <$> (in_turn (visit_views action) objs st).1), (in_turn (visit_views action) objs st).2) ∧
    shape <$> (in_turn (visit_views action) objs st).1 = shape <$> objs) as E;
    [|destruct (E st) as [E1 E2]; destruct (in_turn _ objs st) as [objs' st']; cbn in *; by rewrite E1, E2].
  all: induction IH as [|o objs Ho _ IH]; intros st'; [done|].
  all: change (mjoin (views_of <$> (o :: objs))) with (views_of o ++ mjoin (views_of <$> objs));
    cbn [in_turn]; rewrite in_turn_app.
  all: destruct (Ho st') as [Eo Es]; rewrite Eo.
  all: destruct (visit_views action o st') as [o' st1]; cbn [fst snd] in *.
  all: destruct (IH st1) as [E1 E2]; rewrite E1; destruct (in_turn _ objs st1) as [objs' st2]; cbn in *.
  all: by rewrite Es, E2.
Qed.

(** ** Buffers *)

(** No block has a number yet to come, and the buffer's holds [data]. *)
Record holds m b data : Prop := {
  holds_allocated i : is_Some (blocks m !! i) → i < next_block m;
  holds_block : blocks m !! b_block b = Some data;
  holds_size : length data = b_size b;
}.

(** What becomes of memory when the buffer changes from [b] to [b']: other
    blocks stay, and a block the buffer leaves is gone for good. *)
Record moved m b m' b' : Prop := {
  moved_next : next_block m ≤ next_block m';
  moved_others i : i ≠ b_block b → i < next_block m → i ≠ b_block b' ∧ blocks m' !! i = blocks m !! i;
  moved_old : b_block b' ≠ b_block b → blocks m' !! b_block b = None ∧ next_block m ≤ b_block b';
}.

Lemma moved_refl m b : moved m b m b.
Proof. by split. Qed.

Lemma moved_trans m1 b1 m2 b2 m3 b3 :
  b_block b1 < next_block m1 → b_block b2 < next_block m2 →
  moved m1 b1 m2 b2 → moved m2 b2 m3 b3 → moved m1 b1 m3 b3.
Proof.
  intros L1 L2 [N1 O1 D1] [N2 O2 D2]. split; [lia| |].
  - intros i Hi Hl. destruct (O1 i Hi Hl) as [Hi2 E]. destruct (O2 i Hi2 ltac:(lia)) as [? E2].
    by rewrite E2.
  - intros Hne. destruct (decide (b_block b2 = b_block b1)) as [E|E].
    + rewrite E in *. destruct (D2 Hne). split; [done|lia].
    + destruct (D1 E) as [Hn Hl]. destruct (O2 (b_block b1)) as [? E2]; [done|lia|].
      split; [by rewrite E2|]. destruct (decide (b_block b3 = b_block b2)) as [->|E3]; [done|].
      destruct (D2 E3). lia.
Qed.

Lemma holds_lt m b data : holds m b data → b_block b < next_block m.
Proof. intros [Ha Hb _]. apply Ha. by rewrite Hb. Qed.

Lemma reserve_spec n m b data :
  (∀ c k, k ≤ grow c k) → holds m b data →
  let r := reserve n m b in
  holds r.1 r.2 data ∧ moved m b r.1 r.2 ∧ n ≤ b_capacity r.2 ∧ b_size r.2 = b_size b ∧
  (n ≤ b_capacity b → r = (m, b)) ∧ (b_capacity b < n → b_block r.2 ≠ b_block b).
Proof.
  intros Hg Hh. pose proof (holds_lt _ _ _ Hh) as Hlt. destruct Hh as [Ha Hb Hs]. cbn zeta.
  unfold reserve, reallocate.
  destruct (Nat.ltb_spec (b_capacity b) n) as [Hc|Hc]; cbn [fst snd b_block b_size b_capacity].
  - split_and!; [|split|apply Hg|done|lia|lia]; cbn [blocks next_block b_block b_size].
    + split; cbn [blocks next_block b_block b_size]; [| |done].
      * intros i. destruct (decide (i = next_block m)) as [->|]; [lia|].
        rewrite lookup_insert_ne by done. intros [x Hx]. apply lookup_delete_Some in Hx as [_ Hx].
        specialize (Ha i ltac:(eauto)). lia.
      * by rewrite lookup_insert_eq, Hb.
    + lia.
    + intros i Hi Hl. split; [lia|]. rewrite lookup_insert_ne, lookup_delete_ne by (done || lia). done.
    + intros _. rewrite lookup_insert_ne, lookup_delete_eq by lia. done.
  - split_and!; [done|apply moved_refl|done|done|done|lia].
Qed.

Lemma append_spec extra m b data :
  (∀ c k, k ≤ grow c k) → holds m b data →
  let r := append extra m b in
  holds r.1 r.2 (data ++ extra) ∧ moved m b r.1 r.2 ∧
  (b_size b + length extra ≤ b_capacity b → b_block r.2 = b_block b ∧ b_capacity r.2 = b_capacity b) ∧
  (b_capacity b < b_size b + length extra → b_block r.2 ≠ b_block b).
Proof.
  intros Hg Hh. cbn zeta. unfold append.
  pose proof (reserve_spec (b_size b + length extra) m b data Hg Hh) as (H1 & Hm & _ & Hsz & Hs & Hne).
  destruct (reserve _ m b) as [m1 b1]. cbn [fst snd b_block b_capacity] in *.
  pose proof (holds_lt _ _ _ H1) as Hlt. destruct H1 as [Ha Hb Hl].
  split_and!; [| |intros Hle; specialize (Hs Hle); by simplify_eq|exact Hne].
  - split; cbn [blocks next_block b_block b_size].
    + intros i. rewrite lookup_alter_is_Some. apply Ha.
    + by rewrite lookup_alter_eq, Hb.
    + rewrite length_app. lia.
  - eapply moved_trans; [by eapply holds_lt|exact Hlt|exact Hm|].
    split; cbn [blocks next_block b_block]; [done| |done].
    intros i Hi Hi2. split; [done|]. by rewrite lookup_alter_ne.
Qed.

(** ** Views *)

(** A view that reads [d] outside of the buffer. *)
Definition readable m b v (d : list ascii) : Prop :=
  read m v = Some d ∧ (v_len v = 0 ∨ v_block v ≠ b_block b).

Lemma read_length m v d : read m v = Some d → length d = v_len v.
Proof.
  unfold read. destruct (decide (v_len v = 0)) as [->|]; [by intros [= <-]|].
  destruct (blocks m !! v_block v) as [s|]; [|done]. cbn. destruct (decide _); [|done].
  intros [= <-]. rewrite length_take, length_drop. lia.
Qed.

Lemma readable_moved m b m' b' data v d :
  holds m b data → moved m b m' b' → readable m b v d → readable m' b' v d.
Proof.
  intros [Ha _ _] [_ Ho _] [Hr Hv]. unfold readable, read in *.
  destruct (decide (v_len v = 0)); [by split; [|left]|].
  destruct Hv as [?|Hv]; [done|]. destruct (blocks m !! v_block v) as [s|] eqn:E; [|done].
  destruct (Ho (v_block v) Hv) as [Hn E']; [apply Ha; eauto|]. rewrite E', E.
  split; [done|by right].
Qed.

(** [v] shows [d] somewhere in the contents [full] of a block. *)
Definition shows (block : nat) (full : list ascii) v (d : list ascii) : Prop :=
  v_len v = length d ∧
  (d = [] ∨ v_block v = block ∧ ∃ pre post, full = pre ++ d ++ post ∧ length pre = v_off v).

Lemma shows_read m block full v d :
  blocks m !! block = Some full → shows block full v d → read m v = Some d.
Proof.
  intros Hb [Hl Hd]. unfold read. destruct (decide (v_len v = 0)) as [E|E].
  { destruct d; [done|]. cbn in Hl. lia. }
  destruct Hd as [->|[-> (pre & post & -> & Hp)]]; [done|]. rewrite Hb. cbn [mbind option_bind].
  rewrite decide_True by (rewrite !length_app; lia). by rewrite <-Hp, Hl, drop_app_length, take_app_length.
Qed.

(** Relinking views of what lies outside of the buffer always goes through;
    when the buffer has room for all of it, every view shows its text. *)
Lemma relink_spec l ds m b data :
  (∀ c k, k ≤ grow c k) → holds m b data → Forall2 (readable m b) l ds →
  ∃ l' m' b', in_turn relink l (Some (m, b)) = (l', Some (m', b')) ∧
    holds m' b' (data ++ mjoin ds) ∧ moved m b m' b' ∧
    (b_size b + length (mjoin ds) ≤ b_capacity b →
     b_block b' = b_block b ∧ b_capacity b' = b_capacity b ∧
     Forall2 (shows (b_block b) (data ++ mjoin ds)) l' ds).
Proof.
  intros Hg. revert ds m b data. induction l as [|v l IH]; intros ds m b data Hh Hf.
  { apply Forall2_nil_inv_l in Hf as ->. exists [], m, b. cbn. rewrite app_nil_r.
    split_and!; [done|done|apply moved_refl|]. intros _. by split_and!. }
  apply Forall2_cons_inv_l in Hf as (d & ds' & Hv & Hf & ->). rename ds' into ds.
  pose proof (read_length _ _ _ (proj1 Hv)) as Hlen. cbn [in_turn].
  change (mjoin (d :: ds)) with (d ++ mjoin ds). unfold relink at 1.
  destruct (decide (v_len v = 0)) as [E|E].
  - rewrite E in Hlen. destruct d; [|done]. destruct (IH ds m b data Hh Hf) as (l' & m' & b' & -> & H1 & H2 & H3).
    exists (empty_view :: l'), m', b'. split_and!; [done..|]. intros Hle. destruct (H3 Hle) as (? & ? & ?).
    split_and!; [done..|]. constructor; [|done]. split; [done|by left].
  - rewrite (proj1 Hv). pose proof (append_spec d m b data Hg Hh) as (H1 & H2 & H3 & _).
    destruct (append d m b) as [m1 b1] eqn:Ea. cbn [fst snd] in *.
    assert (Forall2 (readable m1 b1) l ds) as Hf1.
    { eapply Forall2_impl; [exact Hf|]. intros v' d' Hr. by apply (readable_moved m b m1 b1 data). }
    destruct (IH ds m1 b1 (data ++ d) H1 Hf1) as (l' & m' & b' & -> & H4 & H5 & H6).
    rewrite <-(assoc_L (++)) in H4, H6.
    exists (mkView (b_block b1) (b_size b) (v_len v) :: l'), m', b'.
    split_and!; [done|exact H4| |].
    { apply (moved_trans m b m1 b1); [by eapply holds_lt|by eapply holds_lt|done|done]. }
    intros Hle. rewrite length_app in Hle. destruct (H3 ltac:(lia)) as [Eb Ec].
    pose proof (holds_size _ _ _ H1) as Hs1. rewrite length_app, (holds_size _ _ _ Hh) in Hs1.
    destruct (H6 ltac:(lia)) as (E1 & E2 & E3). split_and!; [congruence..|].
    rewrite Eb in *. constructor; [|done]. split; [by cbn|]. right. split; [done|].
    exists data, (mjoin ds). split; [done|]. apply (holds_size _ _ _ Hh).
Qed.

Lemma total_length m b l ds n :
  Forall2 (readable m b) l ds →
  (in_turn (λ v n, (v, n + v_len v)) l n).2 = n + length (mjoin ds).
Proof.
  intros Hf. revert n. induction Hf as [|v d l ds [Hv _] _ IH]; intros n; [cbn; lia|].
  cbn [in_turn]. specialize (IH (n + v_len v)).
  destruct (in_turn _ l (n + v_len v)) as [l' n']. cbn [snd] in *. subst n'.
  change (mjoin (d :: ds)) with (d ++ mjoin ds). rewrite length_app, (read_length _ _ _ Hv). lia.
Qed.

(** Packing into an empty buffer: the structure keeps its form, its views
    show the texts they showed, all in the buffer, one behind the other, and
    go on to show them whatever becomes of the rest of memory. *)
Theorem packed_views_read_back instance m b ds :
  (∀ c k, k ≤ grow c k) → holds m b [] → Forall2 (readable m b) (views_of instance) ds →
  ∃ instance' m' b', string_views instance m b = (instance', Some (m', b')) ∧
    shape instance' = shape instance ∧ holds m' b' (mjoin ds) ∧ moved m b m' b' ∧
    ∀ m2, blocks m2 !! b_block b' = blocks m' !! b_block b' →
      Forall2 (λ v d, read m2 v = Some d) (views_of instance') ds.
Proof.
  intros Hg Hh Hf. unfold string_views.
  pose proof (visit_views_list (λ v n, (v, n + v_len v)) instance 0) as [Et _].
  apply (f_equal snd) in Et. cbn [snd] in Et. rewrite (total_length m b _ ds) in Et by done.
  rewrite <-Et. cbn [Nat.add]. set (n := length (mjoin ds)).
  pose proof (reserve_spec n m b [] Hg Hh) as (H1 & H2 & H3 & Hz & _).
  destruct (reserve n m b) as [m1 b1]. cbn [fst snd] in *.
  destruct (relink_spec (views_of instance) ds m1 b1 [] Hg H1) as (l' & m' & b' & E & H4 & H5 & H6).
  { eapply Forall2_impl; [exact Hf|]. intros v d Hr. by apply (readable_moved m b m1 b1 []). }
  pose proof (visit_views_list relink instance (Some (m1, b1))) as [Ev Es].
  rewrite E in Ev. destruct (visit_views relink instance (Some (m1, b1))) as [instance' st]. cbn [fst snd] in *.
  injection Ev as -> <-. exists instance', m', b'.
  pose proof (holds_size _ _ _ Hh) as Hs. cbn in Hs.
  destruct H6 as (Eb & _ & Hsh); [fold n; lia|]. cbn [app] in *.
  split_and!; [done|done|done|apply (moved_trans m b m1 b1); eauto using holds_lt|].
  intros m2 Hm2. eapply Forall2_impl; [exact Hsh|]. intros v d Hd.
  apply (shows_read m2 (b_block b1) (mjoin ds)); [|done].
  rewrite <-Eb, Hm2. apply (holds_block _ _ _ H4).
Qed.

(** Packing into a buffer that is not empty and has room for some of the texts
    only: the views relinked before it moved dangle. *)
Theorem packed_views_dangle instance m b data l1 v l2 ds1 d ds2 :
  (∀ c k, k ≤ grow c k) → holds m b data → views_of instance = l1 ++ v :: l2 →
  Forall2 (readable m b) (l1 ++ v :: l2) (ds1 ++ d :: ds2) → length ds1 = length l1 → d ≠ [] →
  length (mjoin (ds1 ++ d :: ds2)) ≤ b_capacity b →
  b_size b + length (mjoin ds1) ≤ b_capacity b < b_size b + length (mjoin ds1) + length d →
  ∃ instance' m' b', string_views instance m b = (instance', Some (m', b')) ∧
    Forall (λ v', v_len v' = 0 ∨ read m' v' = None) (take (length l1) (views_of instance')).
Proof.
  intros Hg Hh Ei Hf Hl Hd Htot [Hfit Hover]. unfold string_views.
  pose proof (visit_views_list (λ v n, (v, n + v_len v)) instance 0) as [Et _].
  apply (f_equal snd) in Et. cbn [snd] in Et. rewrite Ei, (total_length m b _ _ 0 Hf) in Et.
  rewrite <-Et. cbn [Nat.add].
  pose proof (reserve_spec (length (mjoin (ds1 ++ d :: ds2))) m b data Hg Hh) as (_ & _ & _ & _ & Er & _).
  rewrite (Er Htot).
  apply Forall2_app_inv in Hf as [Hf1 Hf2]; [|done].
  apply Forall2_cons_1 in Hf2 as [Hv Hf2].
  destruct (relink_spec l1 ds1 m b data Hg Hh Hf1) as (l1' & m1 & b1 & E1 & H1 & M1 & R1).
  destruct (R1 Hfit) as (Eb & Ec & Hs1).
  pose proof (holds_size _ _ _ H1) as Hz. rewrite length_app, (holds_size _ _ _ Hh) in Hz.
  assert (readable m1 b1 v d) as [Hr _] by (by apply (readable_moved m b m1 b1 data)).
  pose proof (read_length _ _ _ Hr) as Hlen.
  pose proof (append_spec d m1 b1 _ Hg H1) as (H2 & M2 & _ & Hne).
  destruct (append d m1 b1) as [m2 b2] eqn:Ea. cbn [fst snd] in *. specialize (Hne ltac:(lia)).
  assert (moved m b m2 b2) as M12 by (apply (moved_trans m b m1 b1); eauto using holds_lt).
  destruct (relink_spec l2 ds2 m2 b2 _ Hg H2) as (l2' & m3 & b3 & E3 & H3 & M3 & _).
  { eapply Forall2_impl; [exact Hf2|]. intros v' d' Hr'. by apply (readable_moved m b m2 b2 data). }
  pose proof (visit_views_list relink instance (Some (m, b))) as [Ev _].
  rewrite Ei, in_turn_app, E1 in Ev. cbn [in_turn] in Ev. unfold relink at 1 in Ev.
  rewrite decide_False in Ev by (destruct d; [done|cbn in Hlen; lia]). rewrite Hr, Ea, E3 in Ev.
  destruct (visit_views relink instance (Some (m, b))) as [instance' st]. cbn [fst snd] in *.
  injection Ev as Ev <-. exists instance', m3, b3. split; [done|]. rewrite <-Ev.
  assert (length l1' = length l1) as Hl1.
  { rewrite <-Hl. by apply Forall2_length in Hs1. }
  rewrite <-Hl1, take_app_length.
  assert (blocks m3 !! b_block b = None) as Hgone.
  { rewrite <-Eb in *. destruct (moved_old _ _ _ _ M2 Hne) as [Hn Hlt].
    destruct (moved_others _ _ _ _ M3 (b_block b1)) as [_ ->]; [done| |done].
    pose proof (holds_lt _ _ _ H1). pose proof (moved_next _ _ _ _ M2). lia. }
  eapply Forall2_Forall_l; [exact Hs1|]. apply Forall_true. intros d' v' [Hlv Hv'].
  destruct (decide (v_len v' = 0)) as [?|Hn]; [by left|right].
  destruct Hv' as [->|[Hb' _]]; [done|]. unfold read. rewrite decide_False by done.
  by rewrite Hb', Hgone.
Qed.
End pack.

(** ** Invitations *)

Section invitations.
Context (grow : nat → nat → nat).

(** A [GameInfo] as reflection sees it: the application's id and version, the
    lobby's name and type, the room's id and address. *)
Definition game_info_obj (app version name id address : View) : Obj :=
  Aggregate [
    Aggregate [Aggregate [StringView app; StringView version]; StringView name; OtherType];
    StringView id; StringView address].

(** The identification the views show now. *)
Definition read_game_info m (type : Z) (obj : Obj) : option GameInfo :=
  texts ← mapM (read m) (views_of obj);
  match string_of_list_ascii <$> texts with
  | [app; version; name; id; address] =>
      Some (mkGameInfo (mkLobbyInfo (mkAppInfo app version) name type) id address)
  | _ => None
  end.

(** <include/luxon/server/peer_persistence.hpp:20-22 PeerPersistent> *)
Record Invitation := mkInvitation {
  invitation_views : Obj;
  invitation_type : Z;
  invitation_buf : Buffer;
}.

(** <include/luxon/server/peer_persistence.hpp:30-33 PeerPersistent::reset_invitation> *)
Definition reset_invitation_views m (p : Invitation) : Memory * Invitation :=
  let '(m, b) := clear m (invitation_buf p) in
  (m, mkInvitation (game_info_obj empty_view empty_view empty_view empty_view empty_view) 0 b).

(** <include/luxon/server/peer_persistence.hpp:61-71 PeerPersistent::invite>
    Of the identification a room or another process gave. *)
Definition invite_views (info : Obj) (type : Z) m (p : Invitation) : option (Memory * Invitation) :=
  let '(views, st) := string_views grow info m (invitation_buf p) in
  '(m, b) ← st; Some (m, mkInvitation views type b).

(** The invitation of an identity, as [PeerPersistence] has it. *)
Definition represents m (p : Invitation) (pp : PeerPersistent) : Prop :=
  read_game_info m (invitation_type p) (invitation_views p) = Some (invitation pp).

(** The identification depends on the texts shown alone. *)
Lemma read_game_info_texts m m' type obj obj' gi ds :
  read_game_info m type obj = Some gi → mapM (read m) (views_of obj) = Some ds →
  mapM (read m') (views_of obj') = Some ds → read_game_info m' type obj' = Some gi.
Proof. unfold read_game_info. intros Hg E ->. by rewrite E in Hg. Qed.

(** C21: The views of an identity are the texts [PeerPersistence] gives it: an
    invitation that is reset is none, and one made after a reset is the
    identification it was given, also when the room it was taken from, or
    anything else in memory, is gone. *)
Theorem invitation_refines m p pp data :
  (∀ c k, k ≤ grow c k) → holds m (invitation_buf p) data →
  let r := reset_invitation_views m p in
  represents r.1 r.2 (reset_invitation pp) ∧
  ∀ info type gi,
    read_game_info r.1 type info = Some gi →
    Forall (λ v, v_len v = 0 ∨ v_block v ≠ b_block (invitation_buf p)) (views_of info) →
    ∃ m' p', invite_views info type r.1 r.2 = Some (m', p') ∧
      ∀ m2, blocks m2 !! b_block (invitation_buf p') = blocks m' !! b_block (invitation_buf p') →
        represents m2 p' (invite_info gi pp).
Proof.
  intros Hg [Ha Hb Hs]. cbn zeta. unfold reset_invitation_views, clear. cbn [fst snd].
  set (m0 := mkMemory _ _). set (b0 := mkBuffer _ _ _). split; [done|].
  intros info type gi Hgi Hout.
  destruct (mapM (read m0) (views_of info)) as [ds|] eqn:Hds;
    [|unfold read_game_info in Hgi; by rewrite Hds in Hgi].
  pose proof Hds as Hf. apply mapM_Some_1 in Hf.
  assert (holds m0 b0 []) as H0.
  { split; unfold m0, b0; cbn [blocks next_block b_block b_size]; [|by rewrite lookup_alter_eq, Hb|done].
    intros i. rewrite lookup_alter_is_Some. apply Ha. }
  destruct (packed_views_read_back grow info m0 b0 ds Hg H0) as (o & m' & b' & E & Hsh & _ & _ & Hr).
  { rewrite Forall_lookup in Hout. apply Forall2_same_length_lookup_2; [by apply Forall2_length in Hf|].
    intros i v d Hv Hd. split; [by apply (Forall2_lookup_lr _ _ _ i v d Hf)|by apply (Hout i)]. }
  unfold invite_views. cbn [invitation_buf]. rewrite E. cbn. eexists _, _. split; [done|].
  intros m2 Hm2. unfold represents, invite_info. cbn [invitation_views invitation_type invitation_buf].
  upd. eapply read_game_info_texts; [exact Hgi|exact Hds|]. by apply mapM_Some_2, Hr.
Qed.
End invitations.

(** ** At concrete texts *)

(** Doubling, as the usual libraries do; a room's identification in two
    blocks, and a buffer with room for fifteen characters. *)
Definition doubling (capacity n : nat) : nat := Nat.max (2 * capacity) n.
Definition room_memory : Memory :=
  mkMemory {[0 := []; 1 := list_ascii_of_string "app1.0lobby"; 2 := list_ascii_of_string "room42host"]} 3.
Definition room_info : Obj :=
  game_info_obj (mkView 1 0 3) (mkView 1 3 3) (mkView 1 6 5) (mkView 2 0 6) (mkView 2 6 4).
Definition short_info : Obj :=
  game_info_obj (mkView 1 0 3) (mkView 1 3 3) empty_view (mkView 2 0 4) empty_view.
Definition no_invitation : Invitation :=
  mkInvitation (game_info_obj empty_view empty_view empty_view empty_view empty_view) 0 (mkBuffer 0 0 15).

Definition room_gi : GameInfo :=
  mkGameInfo (mkLobbyInfo (mkAppInfo "app" "1.0") "lobby" 0) "room42" "host".

Lemma room_memory_holds : holds room_memory (mkBuffer 0 0 15) [].
Proof.
  split; [|done|done]. intros i [x Hx]. cbn in Hx. unfold room_memory in Hx. cbn in Hx.
  assert (i ∈ dom (blocks room_memory)) as Hi by (apply elem_of_dom; eauto).
  assert (dom (blocks room_memory) = {[0; 1; 2]}) as E by (by vm_compute).
  rewrite E in Hi. cbn. set_solver by lia.
Qed.

Lemma doubling_enough c k : k ≤ doubling c k.
Proof. unfold doubling. lia. Qed.

Lemma invitation_refines_witness :
  let r := reset_invitation_views room_memory no_invitation in
  ∃ m' p', invite_views doubling room_info 0 r.1 r.2 = Some (m', p') ∧
    represents m' p' (invite_info room_gi (mkPeerPersistent no_game_info None None "u" "t" 0 0)).
Proof.
  cbn zeta.
  destruct (proj2 (invitation_refines doubling room_memory no_invitation
    (mkPeerPersistent no_game_info None None "u" "t" 0 0) [] doubling_enough room_memory_holds)
    room_info 0%Z room_gi) as (m' & p' & E & Hr).
  - vm_compute. reflexivity.
  - apply (bool_decide_unpack _). by vm_compute.
  - exists m', p'. split; [exact E|by apply Hr].
Defined.

(** Two invitations with no reset between them: the second one's texts start
    behind the first one's, the buffer moves while they are copied, and what
    was relinked before shows memory that is gone. *)
Definition invited_twice : option (Memory * Invitation) :=
  '(m, p) ← invite_views doubling short_info 0 room_memory no_invitation;
  invite_views doubling short_info 0 m p.

Example second_invitation_dangles :
  (λ '(m, p), (read_game_info m 0 (invitation_views p), mapM (read m) (take 1 (views_of (invitation_views p)))))
    <$> invited_twice = Some (None, None).
Proof. vm_compute. reflexivity. Qed.

Lemma packed_views_dangle_witness :
  ∃ instance' m' b',
    string_views doubling short_info
      (mkMemory (<[0 := list_ascii_of_string "app1.0room"]> (blocks room_memory)) 3) (mkBuffer 0 10 15)
    = (instance', Some (m', b')) ∧
    Forall (λ v', v_len v' = 0 ∨ read m' v' = None) (take 1 (views_of instance')).
Proof.
  apply (packed_views_dangle doubling short_info _ _ (list_ascii_of_string "app1.0room")
    [mkView 1 0 3] (mkView 1 3 3) [empty_view; mkView 2 0 4; empty_view]
    [list_ascii_of_string "app"] (list_ascii_of_string "1.0") [[]; list_ascii_of_string "room"; []]).
  - apply doubling_enough.
  - split; [|by vm_compute|done]. intros i [x Hx]. cbn in Hx.
    assert (i ∈ dom (<[0 := list_ascii_of_string "app1.0room"]> (blocks room_memory))) as Hi
      by (apply elem_of_dom; eauto).
    assert (dom (<[0 := list_ascii_of_string "app1.0room"]> (blocks room_memory)) = {[0; 1; 2]}) as E by (by vm_compute).
    rewrite E in Hi. cbn. set_solver by lia.
  - done.
  - repeat (apply Forall2_cons_2; [split; [by vm_compute|apply (bool_decide_unpack _); by vm_compute]|]).
    apply Forall2_nil_2.
  - done.
  - done.
  - vm_compute. lia.
  - vm_compute. lia.
Defined.
