(* ===== verification/Directory.v ===== *)
(** * The directory of applications, lobbies and rooms

    Models [apps.cpp] and the room list of [lobby.cpp]: the server's table of
    applications, each application's tables of lobbies and rooms and each
    lobby's list of rooms, all of weak pointers.  Objects live in three heaps
    while somebody shares them; the deleters given to their shared pointers
    run when the last owner lets go, which is then an operation here. *)

From S2P Require Import Prelude Values Types GameState GameProps GameMembers GameCreation GameEvents GameSteps PeerPersistence ServerManager.
Open Scope Z_scope.

(** ** The objects *)

(** <include/luxon/server/apps.hpp:62-74 App> *)
Record App := mkApp {
  app_ident : AppInfo;
  settings_ : AppSettings;
  lobbies_ : gmap (string * Z) lobby_ptr;
  games_ : gmap string game_ptr;
}.
#[export] Instance eta_App : Eta App := λ a,
  mkApp (app_ident a) (settings_ a) (lobbies_ a) (games_ a).

(** <include/luxon/server/lobby.hpp:31-47 Lobby>
    [lobby_home] is the application whose closure deletes the lobby; the
    handlers are named. *)
Record Lobby := mkLobby {
  lobby_app : option app_ptr;
  lobby_home : app_ptr;
  lobby_name : string;
  lobby_type : Z;
  games : list game_ptr;
  game_list_update_handlers : list nat;
}.
#[export] Instance eta_Lobby : Eta Lobby := λ l,
  mkLobby (lobby_app l) (lobby_home l) (lobby_name l) (lobby_type l) (games l)
    (game_list_update_handlers l).

(** <include/luxon/server/server_manager.hpp:167-167 ServerManager::apps>
    The table with the heaps.  [next_ptr] names the next object: a weak
    pointer to an object that died never locks to a later one. *)
Record Directory `{Ser} := mkDirectory {
  apps : gmap (string * string) (option app_ptr);
  app_heap : gmap app_ptr App;
  lobby_heap : gmap lobby_ptr Lobby;
  game_heap : gmap game_ptr Game;
  next_ptr : nat;
}.
#[export] Instance eta_Directory `{Ser} : Eta Directory := λ d,
  mkDirectory _ (apps d) (app_heap d) (lobby_heap d) (game_heap d) (next_ptr d).

(** [weak_ptr::lock] *)
Definition alive {A} (heap : gmap nat A) (w : option nat) : option nat :=
  p ← w; if decide (is_Some (heap !! p)) then Some p else None.

(** What a lobby tells its subscribers (lobby.hpp:26-29). *)
Inductive Notice :=
  | GameListUpdate (handler : nat) (g : game_ptr)
  | GameListDelete (handler : nat) (g : game_ptr).

(** Why an operation does not return: an exception, or a null pointer used. *)
Inductive Fault := Thrown | NullDereference.

(** Where an application's settings come from: the embedder's hook, which may
    answer for good, the settings database when one is configured, and the
    process-wide limit. *)
Class SettingsSource := {
  load_hook : AppInfo → AppSettings → AppSettings * bool * bool;
  settings_manager : option (string → option AppSettings);
  max_game_peers_ : Z;
}.

(** The lobby type that queries rooms with SQL, and whether the database
    such a lobby needs can be set up. *)
Class SqlLobbies := { SqlLobby : Z; sqlite_ready : bool }.

Section ops.
Context `{Ser, Codes, SettingsSource, SqlLobbies, Transports}.
Context (configs : list ServerConfig).
Implicit Types (d : Directory) (a : app_ptr) (l : lobby_ptr) (gm : game_ptr).

(** ** Applications *)

(** <src/apps.cpp:40-43 AppSettings::enforce_global_config> *)
Definition enforce_global_config (s : AppSettings) : AppSettings :=
  if negb (max_game_peers_ =? 0) then
    s <| max_peers_per_game := if max_peers_per_game s =? 0 then max_game_peers_
                               else Z.min (max_peers_per_game s) max_game_peers_ |>
  else s.

(** <src/apps.cpp:47-72 App::load_app_settings> *)
Definition load_app_settings (info : AppInfo) (s : AppSettings) : AppSettings * bool :=
  let '(s, taken, hookpoint_success) := load_hook info s in
  let '(s, fres) :=
    if taken then (s, hookpoint_success)
    else match settings_manager with
    | Some get_app_settings =>
        match get_app_settings (app_id info) with
        | Some settings => (settings, true)
        | None => (s, false)
        end
    | None => (s, true)
    end in
  (if fres then enforce_global_config s else s, fres).

(** <src/apps.cpp:123-133 App::try_get> *)
Definition try_get d (key : string * string) : Directory * option app_ptr :=
  match apps d !! key with
  | Some w =>
      match alive (app_heap d) w with
      | Some a => (d, Some a)
      | None => (d <| apps ::= delete key |>, None)
      end
  | None => (d, None)
  end.

(** <src/apps.cpp:135-161 App::get>
    A failed load destroys the new application, whose deleter takes the
    entry away again. *)
Definition get d (key : string * string) : Directory * option app_ptr :=
  match try_get d key with
  | (d, Some a) => (d, Some a)
  | (d, None) =>
      let d := d <| apps ::= <[key := None]> |> in
      let info := mkAppInfo key.1 key.2 in
      let '(s, ok) := load_app_settings info default_settings in
      if negb ok then (d <| apps ::= delete key |>, None)
      else
        let a := next_ptr d in
        (d <| app_heap ::= <[a := mkApp info s ∅ ∅]> |>
           <| next_ptr ::= S |> <| apps ::= <[key := Some a]> |>, Some a)
  end.

Definition key_of (info : AppInfo) : string * string := (app_id info, app_version info).

(** <src/apps.cpp:147-151 App::get>
    The deleter: the object is already out of reach of weak pointers. *)
Definition destroy_app d a : Directory :=
  match app_heap d !! a with
  | None => d
  | Some app =>
      d <| app_heap ::= delete a |> <| apps ::= delete (key_of (app_ident app)) |>
  end.

(** <src/apps.cpp:163-171 App::get_all> *)
Definition get_all d : list app_ptr :=
  omap (λ kv : (string * string) * option app_ptr, alive (app_heap d) kv.2)
    (map_to_list (apps d)).

(** ** Lobbies *)

(** <src/lobby.cpp:30-37 Lobby::Lobby>
    An SQL lobby opens a database of its own and throws when that fails. *)
Definition new_lobby (app : option app_ptr) (home : app_ptr) (name : string) (type : Z) :
    option Lobby :=
  if (type =? SqlLobby) && negb sqlite_ready then None
  else Some (mkLobby app home name type [] []).

(** <src/apps.cpp:106-121 App::get_lobby> *)
Definition get_lobby d a (lid : string * Z) : Directory * lobby_ptr + Fault :=
  match app_heap d !! a with
  | None => inr NullDereference
  | Some app =>
      match alive (lobby_heap d) (lobbies_ app !! lid) with
      | Some l => inl (d, l)
      | None =>
          let '(d, shared) := try_get d (key_of (app_ident app)) in
          match new_lobby shared a lid.1 lid.2 with
          | None => inr Thrown
          | Some lobby =>
              let l := next_ptr d in
              inl (d <| lobby_heap ::= <[l := lobby]> |> <| next_ptr ::= S |>
                     <| app_heap ::= <[a := app <| lobbies_ ::= <[lid := l]> |>]> |>, l)
          end
      end
  end.

(** <src/apps.cpp:115-118 App::get_lobby>
    The deleter runs in the application that made the lobby. *)
Definition destroy_lobby d l : Directory :=
  match lobby_heap d !! l with
  | None => d
  | Some lobby =>
      d <| lobby_heap ::= delete l |>
        <| app_heap ::= alter (λ app, app <| lobbies_ ::=
             delete (lobby_name lobby, lobby_type lobby) |>) (lobby_home lobby) |>
  end.

(** <src/apps.cpp:74-82 App::get_game_count> *)
Definition get_game_count d (app : App) : Z :=
  foldr (λ (kv : (string * Z) * lobby_ptr) n,
           match lobby_heap d !! kv.2 with
           | Some lobby => len (games lobby) + n
           | None => n
           end) 0 (map_to_list (lobbies_ app)).

(** <src/lobby.cpp:142-150 Lobby::get_peer_count> *)
Definition lobby_peer_count d (lobby : Lobby) : Z :=
  foldr (λ gm n, match game_heap d !! gm with
                 | Some g => active_peer_count g + n
                 | None => n
                 end) 0 (games lobby).

(** <src/lobby.cpp:152-160 Lobby::get_master_peer_count> *)
Definition get_master_peer_count d (lobby : Lobby) : Z :=
  foldr (λ gm n, match game_heap d !! gm with
                 | Some g => (if has_peer_actor g (master_actor g) then 1 else 0) + n
                 | None => n
                 end) 0 (games lobby).

(** <src/apps.cpp:84-92 App::get_peer_count> *)
Definition get_peer_count d (peer_persistent_data : list PeerPersistent) a : Z :=
  len (filter (λ pp, pp_app pp = Some a) peer_persistent_data)
  + match app_heap d !! a with
    | Some app =>
        foldr (λ (kv : (string * Z) * lobby_ptr) n,
                 match lobby_heap d !! kv.2 with
                 | Some lobby => lobby_peer_count d lobby + n
                 | None => n
                 end) 0 (map_to_list (lobbies_ app))
    | None => 0
    end.

(** ** Rooms *)

(** [ptr->lobby->app->games_] *)
Definition room_app d (lobby : Lobby) : option (app_ptr * App) :=
  a ← lobby_app lobby; app ← app_heap d !! a; Some (a, app).

(** <src/lobby.cpp:90-140 Lobby::create_game>
    [inl] is the room, possibly a null pointer; [inr] the refusal. *)
Definition create_game d l (id_ address : string) (or_get : bool) :
    Directory * (option game_ptr + ErrorCode) * list Notice + Fault :=
  match lobby_heap d !! l with
  | None => inr NullDereference
  | Some lobby =>
      if empty_str id_ then inl (d, inr GameIdNotExists, [])
      else match room_app d lobby with
      | None => inr NullDereference
      | Some (a, app) =>
          match games_ app !! id_ with
          | Some gm =>
              if or_get then inl (d, inl (alive (game_heap d) (Some gm)), [])
              else inl (d, inr GameIdAlreadyExists, [])
          | None =>
              if negb (max_game_count (settings_ app) =? 0)
                 && (max_game_count (settings_ app) <=? get_game_count d app)
              then inl (d, inr ServerFull, [])
              else
                let gm := next_ptr d in
                let g := new_game gm l id_ (get_static_endpoint_address_str configs address) in
                inl (d <| game_heap ::= <[gm := g]> |> <| next_ptr ::= S |>
                       <| app_heap ::= <[a := app <| games_ ::= <[id_ := gm]> |>]> |>
                       <| lobby_heap ::= <[l := lobby <| games ::= λ gs, gs ++ [gm] |>]> |>,
                     inl (Some gm),
                     (λ h, GameListUpdate h gm) <$> game_list_update_handlers lobby)
          end
      end
  end.

(** [find_if] and [erase] of the one element found. *)
Definition erase_found (p : nat → bool) (gs : list nat) : list nat :=
  match split_first p gs with Some (l1, _, l2) => l1 ++ l2 | None => gs end.

(** <src/game.cpp:79-86 Game::~Game> *)
Definition game_delete_message (info : LobbyInfo) (g : Game) : EventMessage :=
  mkMessage IpcGameDelete (add_game_info info g ∅).

(** <src/lobby.cpp:168-173 Lobby::get_lobby_info> *)
Definition get_lobby_info (app : App) (lobby : Lobby) : LobbyInfo :=
  mkLobbyInfo (app_ident app) (lobby_name lobby) (lobby_type lobby).

(** <src/lobby.cpp:113-132 Lobby::create_game>
    The deleter.  The room itself can still be read, but every weak pointer
    to it has expired by now. *)
Definition destroy_game d gm : Directory * list Notice * list EventMessage + Fault :=
  match game_heap d !! gm with
  | None => inl (d, [], [])
  | Some g =>
      let d := d <| game_heap ::= delete gm |> in
      match lobby_heap d !! game_lobby g with
      | None => inr NullDereference
      | Some lobby =>
          match room_app d lobby with
          | None => inr NullDereference
          | Some (a, app) =>
              inl (d <| app_heap ::= <[a := app <| games_ ::= delete (id g) |>]> |>
                     <| lobby_heap ::= <[game_lobby g := lobby <| games ::=
                          erase_found (λ it, bool_decide
                            (alive (game_heap d) (Some it) = Some gm)) |>]> |>,
                   if is_visible g
                   then (λ h, GameListDelete h gm) <$> game_list_update_handlers lobby
                   else [],
                   [game_delete_message (get_lobby_info app lobby) g])
          end
      end
  end.

(** ** By identification *)

(** <include/luxon/server/server_manager.hpp:332-332 ServerManager::get_lobby> *)
Definition get_lobby_by_info d (info : LobbyInfo) : Directory * lobby_ptr + Fault :=
  match get d (key_of (li_app info)) with
  | (d, Some a) => get_lobby d a (li_name info, li_type info)
  | (d, None) => inr NullDereference
  end.

(** <include/luxon/server/server_manager.hpp:338-338 ServerManager::try_get_lobby> *)
Definition try_get_lobby d (info : LobbyInfo) : Directory * lobby_ptr + Fault :=
  match try_get d (key_of (li_app info)) with
  | (d, Some a) => get_lobby d a (li_name info, li_type info)
  | (d, None) => inr NullDereference
  end.

(** <src/server_manager.cpp:749-754 ServerManager::get_game>
    Composed with its overload of server_manager.hpp:359, which finds the
    lobby first. *)
Definition get_game d (info : GameInfo) :
    Directory * (option game_ptr + ErrorCode) * list Notice + Fault :=
  match get_lobby_by_info d (gi_lobby info) with
  | inl (d, l) => create_game d l (gi_id info) (gi_server_address info) true
  | inr e => inr e
  end.
End ops.

(** ** The invariant *)

Section invariant.
Context `{Ser, Codes, SettingsSource, SqlLobbies, Transports}.
Context (configs : list ServerConfig).
Implicit Types (d : Directory) (a : app_ptr) (l : lobby_ptr) (gm : game_ptr).

(** The live objects by name. *)
Definition app_key d a : option (string * string) :=
  key_of ∘ app_ident <$> app_heap d !! a.
Definition lobbies_of d a : option (gmap (string * Z) lobby_ptr) :=
  lobbies_ <$> app_heap d !! a.
Definition games_of d a : option (gmap string game_ptr) :=
  games_ <$> app_heap d !! a.
Definition lobby_place (lobby : Lobby) : app_ptr * (string * Z) :=
  (lobby_home lobby, (lobby_name lobby, lobby_type lobby)).
Definition lobby_key d l : option (app_ptr * (string * Z)) :=
  lobby_place <$> lobby_heap d !! l.
Definition room_key d gm : option (app_ptr * string) :=
  g ← game_heap d !! gm; place ← lobby_key d (game_lobby g); Some (place.1, id g).

(** The tables hold exactly the live objects, under their own names, and a
    lobby lists each of its rooms once. *)
Record dir_ok d : Prop := {
  dir_apps key w :
    apps d !! key = Some w ↔ ∃ a, w = Some a ∧ app_key d a = Some key;
  dir_lobbies a tbl : lobbies_of d a = Some tbl →
    ∀ key l, tbl !! key = Some l ↔ lobby_key d l = Some (a, key);
  dir_games a tbl : games_of d a = Some tbl →
    ∀ i gm, tbl !! i = Some gm ↔ room_key d gm = Some (a, i);
  dir_home l lobby : lobby_heap d !! l = Some lobby →
    lobby_app lobby = Some (lobby_home lobby) ∧ is_Some (app_key d (lobby_home lobby));
  dir_room gm g : game_heap d !! gm = Some g →
    self g = gm ∧ id g ≠ EmptyString ∧
    ∃ lobby, lobby_heap d !! game_lobby g = Some lobby ∧ gm ∈ games lobby;
  dir_listed l lobby : lobby_heap d !! l = Some lobby →
    NoDup (games lobby) ∧ Forall (λ gm, (gm < next_ptr d)%nat) (games lobby) ∧
    ∀ gm g, gm ∈ games lobby → game_heap d !! gm = Some g → game_lobby g = l;
  dir_fresh p : (next_ptr d ≤ p)%nat →
    app_heap d !! p = None ∧ lobby_heap d !! p = None ∧ game_heap d !! p = None;
  dir_sound gm g : game_heap d !! gm = Some g → game_ok g ∧ lease_ok g;
}.

Definition empty_directory : Directory := mkDirectory _ ∅ ∅ ∅ ∅ 0.

Lemma empty_directory_ok : dir_ok empty_directory.
Proof.
  split; unfold app_key, lobbies_of, games_of; cbn; intros *;
    rewrite ?lookup_empty; naive_solver.
Qed.

(** One change of the directory.  A lobby is released after its rooms and an
    application after its lobbies, for rooms and lobbies share them. *)
Inductive dir_step : Directory → Directory → Prop :=
  | step_get d key : dir_step d (get d key).1
  | step_try_get d key : dir_step d (try_get d key).1
  | step_get_lobby d a lid d' l :
      get_lobby d a lid = inl (d', l) → dir_step d d'
  | step_create_game d l i address or_get d' r ns :
      create_game configs d l i address or_get = inl (d', r, ns) → dir_step d d'
  | step_destroy_game d gm d' ns ms :
      destroy_game d gm = inl (d', ns, ms) → dir_step d d'
  | step_destroy_lobby d l :
      (∀ gm g, game_heap d !! gm = Some g → game_lobby g ≠ l) →
      dir_step d (destroy_lobby d l)
  | step_destroy_app d a :
      (∀ l lobby, lobby_heap d !! l = Some lobby → lobby_app lobby ≠ Some a) →
      dir_step d (destroy_app d a)
  | step_room d gm g g' :
      game_heap d !! gm = Some g → GameSteps.step g g' →
      dir_step d (d <| game_heap ::= <[gm := g']> |>)
  | step_subscribe d l f :
      dir_step d (d <| lobby_heap ::= alter (λ lobby,
                         lobby <| game_list_update_handlers ::= f |>) l |>).

Lemma alive_Some {A} (heap : gmap nat A) p x :
  heap !! p = Some x → alive heap (Some p) = Some p.
Proof. intros Hp. cbn. rewrite decide_True; eauto. Qed.

Lemma alive_spec {A} (heap : gmap nat A) w p :
  alive heap w = Some p ↔ w = Some p ∧ is_Some (heap !! p).
Proof.
  destruct w as [q|]; cbn; [|naive_solver]. destruct (decide _); naive_solver.
Qed.

(** Replacing a value by one that looks the same. *)
Lemma lookup_same_view {A B} (f : A → B) (m : gmap nat A) k x y j :
  m !! k = Some x → f y = f x → f <$> <[k:=y]> m !! j = f <$> m !! j.
Proof.
  intros Hk Hf. destruct (decide (k = j)) as [->|].
  - by rewrite lookup_insert_eq, Hk; cbn; rewrite Hf.
  - by rewrite lookup_insert_ne.
Qed.

Lemma app_key_Some d a key :
  app_key d a = Some key ↔ ∃ app, app_heap d !! a = Some app ∧ key_of (app_ident app) = key.
Proof. unfold app_key. rewrite fmap_Some. naive_solver. Qed.

Lemma lobby_key_Some d l a key :
  lobby_key d l = Some (a, key) ↔
  ∃ lobby, lobby_heap d !! l = Some lobby ∧ lobby_home lobby = a ∧
           (lobby_name lobby, lobby_type lobby) = key.
Proof. unfold lobby_key, lobby_place. rewrite fmap_Some. naive_solver. Qed.

Lemma room_key_Some d gm a i :
  room_key d gm = Some (a, i) ↔
  ∃ g lobby, game_heap d !! gm = Some g ∧ lobby_heap d !! game_lobby g = Some lobby ∧
             lobby_home lobby = a ∧ id g = i.
Proof.
  unfold room_key. destruct (game_heap d !! gm) as [g|]; cbn; [|naive_solver].
  unfold lobby_key. split.
  - destruct (lobby_heap d !! game_lobby g) as [lobby|] eqn:E; [|done].
    cbn. intros [= <- <-]. by exists g, lobby.
  - intros (g' & lobby & [= <-] & -> & <- & <-). done.
Qed.

Lemma try_get_ok d key :
  dir_ok d →
  try_get d key = (d, x ← apps d !! key; x) ∧
  ∀ a, (x ← apps d !! key; x) = Some a ↔ app_key d a = Some key.
Proof.
  intros Hok. unfold try_get. pose proof (dir_apps _ Hok key) as Hk.
  destruct (apps d !! key) as [w|] eqn:E; cbn.
  - destruct (proj1 (Hk w) eq_refl) as (a & -> & Ha).
    pose proof Ha as (app & Happ & _)%app_key_Some. rewrite (alive_Some _ _ _ Happ).
    split; [done|]. intros b. split; [by intros [= <-]|]. intros Hb.
    destruct (Hk (Some b)) as [_ Hk2]. assert (Some (Some a) = Some (Some b)); [|congruence].
    apply Hk2. eauto.
  - split; [done|]. intros a. split; [done|]. intros Ha.
    destruct (Hk (Some a)) as [_ Hk2]. discriminate Hk2. eauto.
Qed.

(** *** Creating objects *)

Lemma new_app_ok d key s :
  dir_ok d → apps d !! key = None →
  dir_ok (d <| app_heap ::= <[next_ptr d := mkApp (mkAppInfo key.1 key.2) s ∅ ∅]> |>
            <| next_ptr ::= S |> <| apps ::= <[key := Some (next_ptr d)]> |>).
Proof.
  intros [Happ Hlob Hgames Hhome Hroom Hlist Hfresh Hsound] Hkey.
  destruct (Hfresh (next_ptr d)) as (Fa & Fl & Fg); [lia|].
  assert (∀ p, p ≠ next_ptr d ∨ p = next_ptr d) as Hdec by lia.
  assert (app_key d (next_ptr d) = None) as Hnk by (unfold app_key; by rewrite Fa).
  assert (∀ l lobby, lobby_heap d !! l = Some lobby → lobby_home lobby ≠ next_ptr d) as Hne.
  { intros l lobby Hl E. apply Hhome in Hl as [_ [? Hs]]. congruence. }
  split; unfold app_key, lobbies_of, games_of in *; upd.
  - intros k w. rewrite lookup_insert_Some, Happ. split.
    + intros [[<- <-]|(Hk & a & -> & Ha)]; eexists; (split; [done|]).
      * rewrite lookup_insert_eq. by destruct key.
      * rewrite lookup_insert_ne; [done|]. intros <-. congruence.
    + intros (a & -> & Ha). destruct (Hdec a) as [Hn| ->].
      * rewrite lookup_insert_ne in Ha by done. right. split; [|eauto]. intros <-.
        assert (apps d !! key = Some (Some a)) by (apply Happ; eauto). congruence.
      * rewrite lookup_insert_eq in Ha. left. destruct key. naive_solver.
  - intros a tbl. destruct (Hdec a) as [Hn| ->]; [rewrite lookup_insert_ne by done; apply Hlob|].
    rewrite lookup_insert_eq. intros [= <-] k l. rewrite lookup_empty.
    change (_ <$> _ !! _) with (lobby_key d l).
    rewrite lobby_key_Some. split; [done|]. intros (lobby & Hl & Hh & _). by apply Hne in Hl.
  - intros a tbl. destruct (Hdec a) as [Hn| ->]; [rewrite lookup_insert_ne by done; apply Hgames|].
    rewrite lookup_insert_eq. intros [= <-] k gm. rewrite lookup_empty.
    change (room_key _ gm) with (room_key d gm). rewrite room_key_Some.
    split; [done|]. intros (g & lobby & _ & Hl & Hh & _). by apply Hne in Hl.
  - intros l lobby Hl. destruct (Hhome _ _ Hl). split; [done|].
    rewrite lookup_insert_ne; [done|]. by apply not_eq_sym, Hne with l.
  - done.
  - intros l lobby Hl. destruct (Hlist _ _ Hl) as (? & Hlt & ?).
    repeat split; [done| |done]. eapply Forall_impl; [exact Hlt|]. cbn. lia.
  - intros p Hp. destruct (Hfresh p) as (? & ? & ?); [lia|].
    rewrite lookup_insert_ne by lia. done.
  - exact Hsound.
Qed.

Lemma get_ok d key : dir_ok d → dir_ok (get d key).1.
Proof.
  intros Hok. unfold get. destruct (try_get_ok d key Hok) as [-> Hd].
  destruct (x ← apps d !! key; x) as [a|] eqn:E; [done|].
  assert (apps d !! key = None) as Hn.
  { destruct (apps d !! key) as [w|] eqn:Ew; [|done].
    apply (dir_apps _ Hok) in Ew as (? & -> & _). done. }
  destruct (load_app_settings _ _) as [s ok]. destruct ok; cbn [negb fst].
  - replace (d <| apps ::= <[key := None]> |> <| app_heap ::= _ |> <| next_ptr ::= S |>
      <| apps ::= _ |>) with (d <| app_heap ::= <[next_ptr d := mkApp (mkAppInfo key.1 key.2) s ∅ ∅]> |>
            <| next_ptr ::= S |> <| apps ::= <[key := Some (next_ptr d)]> |>).
    + by apply new_app_ok.
    + destruct d. cbn. by rewrite insert_insert_eq.
  - replace (d <| apps ::= _ |> <| apps ::= _ |>) with d; [done|].
    destruct d. cbn in *. by rewrite delete_insert_id.
Qed.

(** Under the invariant the lobby table and the heap agree. *)
Lemma find_lobby_ok d a app key :
  dir_ok d → app_heap d !! a = Some app →
  alive (lobby_heap d) (lobbies_ app !! key) = lobbies_ app !! key ∧
  try_get d (key_of (app_ident app)) = (d, Some a).
Proof.
  intros Hok Ha. split.
  - destruct (lobbies_ app !! key) as [l|] eqn:E; [|done].
    apply (dir_lobbies _ Hok a) in E; [|unfold lobbies_of; by rewrite Ha].
    apply lobby_key_Some in E as (lobby & Hl & _). by apply (alive_Some _ _ lobby).
  - destruct (try_get_ok d (key_of (app_ident app)) Hok) as [-> Hk].
    f_equal. apply Hk, app_key_Some. eauto.
Qed.

Lemma new_lobby_ok d a app lid lobby :
  dir_ok d → app_heap d !! a = Some app → lobbies_ app !! lid = None →
  lobby = mkLobby (Some a) a lid.1 lid.2 [] [] →
  dir_ok (d <| lobby_heap ::= <[next_ptr d := lobby]> |> <| next_ptr ::= S |>
            <| app_heap ::= <[a := app <| lobbies_ ::= <[lid := next_ptr d]> |>]> |>).
Proof.
  intros [Happ Hlob Hgames Hhome Hroom Hlist Hfresh Hsound] Ha Hlid Elobby.
  destruct (Hfresh (next_ptr d)) as (Fa & Fl & Fg); [lia|].
  assert (lobby_place lobby = (a, lid)) as Hplace by (subst; by destruct lid).
  assert (∀ l lb, lobby_heap d !! l = Some lb → next_ptr d ≠ l) as Hne by congruence.
  split; unfold app_key, lobbies_of, games_of, room_key, lobby_key in *; upd.
  - intros k w. rewrite Happ. by setoid_rewrite (lookup_same_view (key_of ∘ app_ident) _ a app).
  - intros b tbl Hb. assert (lobbies_ <$> app_heap d !! a = Some (lobbies_ app)) as Hta by by rewrite Ha.
    destruct (decide (b = a)) as [->|Hba].
    + rewrite lookup_insert_eq in Hb. injection Hb as <-. upd. intros key l.
      rewrite lookup_insert_Some, (Hlob a _ Hta). destruct (decide (l = next_ptr d)) as [->|].
      * rewrite lookup_insert_eq, Fl. cbn. rewrite Hplace. naive_solver.
      * rewrite lookup_insert_ne by done. split; [naive_solver|]. intros Hl. right.
        split; [|done]. intros <-. apply (Hlob a _ Hta) in Hl. congruence.
    + rewrite lookup_insert_ne in Hb by done. intros key l. rewrite (Hlob b _ Hb).
      destruct (decide (l = next_ptr d)) as [->|]; [|by rewrite lookup_insert_ne].
      rewrite lookup_insert_eq, Fl. cbn. rewrite Hplace. naive_solver.
  - intros b tbl. rewrite (lookup_same_view games_ _ a app) by done. intros Hb i gm.
    rewrite (Hgames b _ Hb). destruct (game_heap d !! gm) as [g|] eqn:Hg; [|done]. cbn.
    destruct (Hroom _ _ Hg) as (_ & _ & lb & Hlb & _). by rewrite lookup_insert_ne by eauto.
  - intros l lb Hl. rewrite (lookup_same_view (key_of ∘ app_ident) _ a app) by done.
    apply lookup_insert_Some in Hl as [[<- <-]|[? Hl]]; [|by apply (Hhome l)].
    subst lobby. cbn. by rewrite Ha.
  - intros gm g Hg. destruct (Hroom _ _ Hg) as (? & ? & lb & Hl & ?).
    repeat split; [done..|]. exists lb. by rewrite lookup_insert_ne by eauto.
  - intros l lb Hl. apply lookup_insert_Some in Hl as [[<- <-]|[? Hl]].
    + subst lobby. cbn. split; [apply NoDup_nil_2|]. split; [apply Forall_nil_2|]. set_solver.
    + destruct (Hlist _ _ Hl) as (? & Hlt & ?). repeat split; [done| |done].
      eapply Forall_impl; [exact Hlt|]. cbn. lia.
  - intros p Hp. destruct (Hfresh p) as (? & ? & ?); [lia|].
    assert (p ≠ a) by (intros ->; destruct (Hfresh a); [lia|congruence]).
    rewrite !lookup_insert_ne by lia. done.
  - exact Hsound.
Qed.

Lemma get_lobby_ok d a lid d' l :
  dir_ok d → get_lobby d a lid = inl (d', l) → dir_ok d'.
Proof.
  intros Hok. unfold get_lobby. destruct (app_heap d !! a) as [app|] eqn:Ha; [|done].
  destruct (find_lobby_ok _ _ _ lid Hok Ha) as [-> ->].
  destruct (lobbies_ app !! lid) as [l0|] eqn:E; [by intros [= <- _]|].
  unfold new_lobby. destruct (_ && _); [done|]. intros [= <- _].
  by apply new_lobby_ok.
Qed.


(** The application of a live lobby. *)
Lemma room_app_ok d l lobby :
  dir_ok d → lobby_heap d !! l = Some lobby →
  ∃ app, room_app d lobby = Some (lobby_home lobby, app) ∧
         app_heap d !! lobby_home lobby = Some app.
Proof.
  intros Hok Hl. destruct (dir_home _ Hok _ _ Hl) as [E [app Ha]%fmap_is_Some].
  exists app. unfold room_app. by rewrite E; cbn; rewrite Ha.
Qed.

(** Changing the room lists of a lobby and of its application. *)
Definition set_rooms d a l tbl gs heap : Directory :=
  d <| game_heap := heap |>
    <| app_heap ::= alter (λ app, app <| games_ := tbl |>) a |>
    <| lobby_heap ::= alter (λ lobby, lobby <| games := gs |>) l |>.

Lemma set_rooms_views d a l tbl gs heap :
  let d' := set_rooms d a l tbl gs heap in
  (∀ b, app_key d' b = app_key d b) ∧ (∀ b, lobbies_of d' b = lobbies_of d b) ∧
  (∀ x, lobby_key d' x = lobby_key d x) ∧ apps d' = apps d ∧
  (∀ b, games_of d' b = if decide (a = b) then (λ _, tbl) <$> app_heap d !! a
                        else games_of d b).
Proof.
  cbn. unfold app_key, lobbies_of, lobby_key, games_of, set_rooms; upd.
  repeat split; intros b; rewrite ?lookup_alter; case_decide; subst; try done.
  - by destruct (app_heap d !! b).
  - by destruct (app_heap d !! b).
  - by destruct (lobby_heap d !! b).
  - by destruct (app_heap d !! b).
Qed.

Lemma set_rooms_room_key d a l tbl gs heap n x :
  room_key (set_rooms d a l tbl gs heap <| next_ptr := n |>) x =
  g ← heap !! x; place ← lobby_key d (game_lobby g); Some (place.1, id g).
Proof.
  destruct (set_rooms_views d a l tbl gs heap) as (_ & _ & Vlk & _).
  unfold room_key. change (game_heap (set_rooms _ _ _ _ _ _ <| next_ptr := n |>)) with heap.
  destruct (heap !! x) as [g|]; [|done]. cbn [mbind option_bind]. f_equal. apply Vlk.
Qed.

(** It keeps the invariant when the table still matches the rooms alive and
    the list still holds them. *)
Lemma set_rooms_ok d a l lobby tbl gs heap (n : nat) :
  dir_ok d → lobby_heap d !! l = Some lobby → lobby_home lobby = a →
  let d' := set_rooms d a l tbl gs heap <| next_ptr := n |> in
  (∀ i gm, tbl !! i = Some gm ↔ room_key d' gm = Some (a, i)) →
  (∀ b gm i, b ≠ a → room_key d' gm = Some (b, i) ↔ room_key d gm = Some (b, i)) →
  (∀ gm g, heap !! gm = Some g → self g = gm ∧ id g ≠ EmptyString ∧
     if decide (game_lobby g = l)
     then gm ∈ gs ∧ (game_heap d !! gm = Some g ∨ (next_ptr d ≤ gm)%nat)
     else game_heap d !! gm = Some g) →
  NoDup gs → Forall (λ gm, (gm < n)%nat) gs →
  (∀ gm g, gm ∈ gs → heap !! gm = Some g → game_lobby g = l) →
  (next_ptr d ≤ n)%nat → (∀ p, (n ≤ p)%nat → heap !! p = None) →
  (∀ gm g, heap !! gm = Some g → game_ok g ∧ lease_ok g) →
  dir_ok d'.
Proof.
  intros [Happ Hlob Hgames Hhome Hroom Hlist Hfresh Hsound] Hl Ha d' Htbl Hother Hheap Hnd Hlt Hgs Hn Hp Hsnd.
  destruct (set_rooms_views d a l tbl gs heap) as (Vk & Vl & Vlk & Va & Vg).
  change (∀ b, app_key d' b = app_key d b) in Vk.
  change (∀ b, lobbies_of d' b = lobbies_of d b) in Vl.
  change (∀ x, lobby_key d' x = lobby_key d x) in Vlk.
  assert (∀ x, lobby_heap d' !! x = if decide (x = l) then Some (lobby <| games := gs |>)
                                    else lobby_heap d !! x) as Elob.
  { intros x. subst d'. unfold set_rooms. upd. rewrite lookup_alter. case_decide; subst.
    - by rewrite decide_True, Hl.
    - by rewrite decide_False. }
  assert (game_heap d' = heap) as Eheap by done.
  split.
  - intros key w. change (apps d') with (apps d). rewrite Happ. by setoid_rewrite Vk.
  - intros b t. rewrite Vl. setoid_rewrite Vlk. apply Hlob.
  - intros b t Hb. change (games_of d' b) with (games_of (set_rooms d a l tbl gs heap) b) in Hb.
    rewrite Vg in Hb. case_decide as Hab.
    + subst b. apply fmap_Some in Hb as (? & _ & ->). exact Htbl.
    + intros i gm. rewrite Hother by done. by apply Hgames.
  - intros x lb. rewrite Elob, Vk. case_decide; [|apply Hhome].
    intros [= <-]. exact (Hhome _ _ Hl).
  - intros gm g. rewrite Eheap. intros Hg. destruct (Hheap _ _ Hg) as (? & ? & Hin).
    do 2 (split; [done|]). setoid_rewrite Elob. case_decide as Hgl.
    + eexists. split; [done|]. apply Hin.
    + apply (Hroom _ _ Hin).
  - intros x lb. rewrite Elob, Eheap. case_decide as Hx; [intros [= <-]; subst x; by repeat split|].
    intros Hlb. destruct (Hlist _ _ Hlb) as (? & Hlt' & Hin). split; [done|]. split.
    + eapply Forall_impl; [exact Hlt'|]. cbn. lia.
    + intros gm g Hgm Hg. destruct (Hheap _ _ Hg) as (_ & _ & Hg'). case_decide as Hgl; [|eauto].
      destruct Hg' as [_ [Hg'|Hge]]; [by eapply Hin|].
      rewrite Forall_forall in Hlt'. specialize (Hlt' _ Hgm). lia.
  - intros p Hp'. change (n ≤ p)%nat in Hp'. destruct (Hfresh p) as (Fa & Fl & _); [lia|].
    rewrite Elob, Eheap. repeat split; [|case_decide; congruence|auto].
    unfold d', set_rooms. upd. rewrite lookup_alter. case_decide; [|done].
    subst p. by rewrite Fa.
  - intros gm g. rewrite Eheap. apply Hsnd.
Qed.

Lemma alter_as_insert {A} (f : A → A) (m : gmap nat A) k x :
  m !! k = Some x → alter f k m = <[k := f x]> m.
Proof.
  intros Hk. apply map_eq. intros j. rewrite lookup_alter. case_decide; subst.
  - by rewrite lookup_insert_eq, Hk.
  - by rewrite lookup_insert_ne.
Qed.

(** *** Rooms come and go *)

(** What a successful creation does. *)
Lemma create_game_result d l lobby app i address :
  lobby_heap d !! l = Some lobby → app_heap d !! lobby_home lobby = Some app →
  let gm := next_ptr d in let g := new_game gm l i address in
  d <| game_heap ::= <[gm := g]> |> <| next_ptr ::= S |>
    <| app_heap ::= <[lobby_home lobby := app <| games_ ::= <[i := gm]> |>]> |>
    <| lobby_heap ::= <[l := lobby <| games ::= λ gs, gs ++ [gm] |>]> |>
  = set_rooms d (lobby_home lobby) l (<[i := gm]> (games_ app)) (games lobby ++ [gm])
      (<[gm := g]> (game_heap d)) <| next_ptr := S (next_ptr d) |>.
Proof.
  intros Hl Ha. destruct d. unfold set_rooms. cbn in *.
  by rewrite (alter_as_insert _ _ _ _ Hl), (alter_as_insert _ _ _ _ Ha).
Qed.

Lemma new_game_dir_ok d l lobby app i address :
  dir_ok d → lobby_heap d !! l = Some lobby →
  app_heap d !! lobby_home lobby = Some app →
  games_ app !! i = None → i ≠ EmptyString →
  let gm := next_ptr d in
  dir_ok (set_rooms d (lobby_home lobby) l (<[i := gm]> (games_ app)) (games lobby ++ [gm])
      (<[gm := new_game gm l i address]> (game_heap d)) <| next_ptr := S (next_ptr d) |>).
Proof.
  intros Hok Hl Ha Hi Hne gm. set (g := new_game gm l i address).
  destruct (dir_fresh _ Hok gm) as (Fa & Fl & Fg); [subst gm; lia|].
  destruct (dir_listed _ Hok _ _ Hl) as (Hnd & Hlt & Hin).
  assert (∀ tbl gs x, room_key (set_rooms d (lobby_home lobby) l tbl gs
            (<[gm := g]> (game_heap d)) <| next_ptr := S (next_ptr d) |>) x =
          if decide (x = gm) then Some (lobby_home lobby, i) else room_key d x) as Hrk.
  { intros tbl gs x. rewrite set_rooms_room_key. case_decide as Hx; [subst x|].
    - rewrite lookup_insert_eq. cbn. unfold lobby_key. by rewrite Hl.
    - by rewrite lookup_insert_ne. }
  apply (set_rooms_ok _ _ _ lobby); try done.
  - intros j x. rewrite Hrk, lookup_insert_Some, (dir_games _ Hok (lobby_home lobby));
      [|unfold games_of; by rewrite Ha].
    case_decide as Hx; [subst x|].
    + assert (room_key d gm = None) as -> by (unfold room_key; by rewrite Fg).
      split; [intros [[-> _]|[_ ?]]; done|]. intros [= ->]. by left.
    + split; [intros [[_ ?]|[_ ?]]; congruence|]. intros Hj. right. split; [|done]. intros <-.
      apply (dir_games _ Hok (lobby_home lobby) (games_ app)) in Hj; [congruence|].
      unfold games_of. by rewrite Ha.
  - intros b x j Hb. rewrite Hrk. case_decide; [|done]. subst x.
    unfold room_key. rewrite Fg. naive_solver.
  - intros x h [[<- <-]|[Hx Hg]]%lookup_insert_Some.
    + cbn. rewrite decide_True by done. repeat split; [done|set_solver|right; subst gm; lia].
    + destruct (dir_room _ Hok _ _ Hg) as (? & ? & lb & Hlb & Hx2). do 2 (split; [done|]).
      case_decide as E; [|done]. subst l. split; [set_solver|by left].
  - rewrite NoDup_app. repeat split; [done| |apply NoDup_singleton].
    intros x Hx ->%list_elem_of_singleton. rewrite Forall_forall in Hlt.
    specialize (Hlt _ Hx). subst gm. lia.
  - rewrite Forall_app, Forall_singleton. split; [|subst gm; lia].
    eapply Forall_impl; [exact Hlt|]. cbn. lia.
  - intros x h Hx [[<- <-]|[Hxn Hg]]%lookup_insert_Some; [done|].
    apply elem_of_app in Hx as [Hx|Hx%list_elem_of_singleton]; [by eapply Hin|congruence].
  - lia.
  - intros p Hp. rewrite lookup_insert_ne by (subst gm; lia).
    apply (dir_fresh _ Hok). lia.
  - intros x h [[<- <-]|[_ Hh]]%lookup_insert_Some; [by split; [apply new_game_ok|split]|].
    by eapply dir_sound.
Qed.

Lemma create_game_ok d l i address or_get d' r ns :
  dir_ok d → create_game configs d l i address or_get = inl (d', r, ns) → dir_ok d'.
Proof.
  intros Hok. unfold create_game. destruct (lobby_heap d !! l) as [lobby|] eqn:Hl; [|done].
  destruct (empty_str i) eqn:Hi; [by intros [= <- _ _]|].
  destruct (room_app_ok _ _ _ Hok Hl) as (app & -> & Ha).
  destruct (games_ app !! i) eqn:Hg; [by destruct or_get; intros [= <- _ _]|].
  destruct (_ && _); [by intros [= <- _ _]|]. intros [= <- _ _].
  eapply (eq_ind_r dir_ok); [|exact (create_game_result d l lobby app i _ Hl Ha)].
  apply new_game_dir_ok; try done. by apply bool_decide_eq_false in Hi.
Qed.

(** The search for a room that expired finds nothing: no weak pointer locks
    to it. *)
Lemma erase_expired gm (heap : gmap game_ptr Game) gs :
  erase_found (λ it, bool_decide (alive (delete gm heap) (Some it) = Some gm)) gs = gs.
Proof.
  unfold erase_found. destruct (split_first _ gs) as [[[l1 x] l2]|] eqn:E; [|done].
  exfalso. apply split_first_Some in E as (_ & _ & Hx%bool_decide_eq_true).
  apply alive_spec in Hx as [[= ->] [g Hg]]. by rewrite lookup_delete_eq in Hg.
Qed.

Lemma destroy_game_result d gm g lobby :
  dir_ok d → game_heap d !! gm = Some g → lobby_heap d !! game_lobby g = Some lobby →
  ∃ app, app_heap d !! lobby_home lobby = Some app ∧
  destroy_game d gm = inl
    (set_rooms d (lobby_home lobby) (game_lobby g) (delete (id g) (games_ app)) (games lobby)
       (delete gm (game_heap d)) <| next_ptr := next_ptr d |>,
     if is_visible g then (λ h, GameListDelete h gm) <$> game_list_update_handlers lobby else [],
     [game_delete_message (get_lobby_info app lobby) g]).
Proof.
  intros Hok Hg Hl. destruct (room_app_ok _ _ _ Hok Hl) as (app & Hra & Ha).
  exists app. split; [done|]. unfold destroy_game. rewrite Hg.
  change (lobby_heap (d <| game_heap ::= delete gm |>)) with (lobby_heap d). rewrite Hl.
  change (room_app (d <| game_heap ::= delete gm |>) lobby) with (room_app d lobby). rewrite Hra.
  change (game_heap (d <| game_heap ::= delete gm |>)) with (delete gm (game_heap d)).
  do 3 f_equal. destruct d. unfold set_rooms. cbn in *. setoid_rewrite erase_expired.
  by rewrite (alter_as_insert _ _ _ _ Hl), (alter_as_insert _ _ _ _ Ha).
Qed.

Lemma destroyed_dir_ok d gm g lobby app :
  dir_ok d → game_heap d !! gm = Some g → lobby_heap d !! game_lobby g = Some lobby →
  app_heap d !! lobby_home lobby = Some app → gm ∈ games lobby →
  dir_ok (set_rooms d (lobby_home lobby) (game_lobby g) (delete (id g) (games_ app))
            (games lobby) (delete gm (game_heap d)) <| next_ptr := next_ptr d |>).
Proof.
  intros Hok Hg Hl Ha Hgm.
  destruct (dir_listed _ Hok _ _ Hl) as (Hnd & Hlt & Hin).
  assert (∀ i x, games_ app !! i = Some x ↔ room_key d x = Some (lobby_home lobby, i)) as Htbl.
  { apply (dir_games _ Hok). unfold games_of. by rewrite Ha. }
  assert (room_key d gm = Some (lobby_home lobby, id g)) as Hk.
  { apply room_key_Some. by exists g, lobby. }
  assert (∀ x, x ≠ gm → room_key (set_rooms d (lobby_home lobby) (game_lobby g)
    (delete (id g) (games_ app)) (games lobby) (delete gm (game_heap d))
    <| next_ptr := next_ptr d |>) x = room_key d x) as Hrk.
  { intros x Hx. by rewrite set_rooms_room_key, lookup_delete_ne. }
  assert (∀ y, room_key (set_rooms d (lobby_home lobby) (game_lobby g)
    (delete (id g) (games_ app)) (games lobby) (delete gm (game_heap d))
    <| next_ptr := next_ptr d |>) gm ≠ Some y) as Hrn.
  { intros y. by rewrite set_rooms_room_key, lookup_delete_eq. }
  apply (set_rooms_ok _ _ _ lobby); try done.
  - intros i x. rewrite lookup_delete_Some, Htbl. destruct (decide (x = gm)) as [->|Hx].
    + rewrite Hk. split; [intros [? [= ?]]; congruence|intros E; by apply Hrn in E].
    + rewrite Hrk by done. split; [by intros []|]. intros Hi. split; [|done]. intros <-.
      apply Htbl in Hi, Hk. congruence.
  - intros b x i Hb. destruct (decide (x = gm)) as [->|Hx]; [|by rewrite Hrk].
    rewrite Hk. split; [intros E; by apply Hrn in E|congruence].
  - intros x h [Hx Hh]%lookup_delete_Some. destruct (dir_room _ Hok _ _ Hh) as (? & ? & lb & Hlb & ?).
    do 2 (split; [done|]). case_decide as E; [|done]. rewrite E in Hlb.
    assert (lb = lobby) as -> by congruence. split; [done|by left].
  - intros x h Hx [_ Hh]%lookup_delete_Some. by eapply Hin.
  - intros p Hp. apply lookup_delete_None. right. by apply (dir_fresh _ Hok).
  - intros x h [_ Hh]%lookup_delete_Some. by eapply dir_sound.
Qed.

Lemma destroy_game_ok d gm d' ns ms :
  dir_ok d → destroy_game d gm = inl (d', ns, ms) → dir_ok d'.
Proof.
  intros Hok. destruct (game_heap d !! gm) as [g|] eqn:Hg.
  2: { unfold destroy_game. rewrite Hg. by intros [= <- _ _]. }
  destruct (dir_room _ Hok _ _ Hg) as (_ & Hne & lobby & Hl & Hgm).
  destruct (destroy_game_result _ _ _ _ Hok Hg Hl) as (app & Ha & ->). intros E.
  eapply (eq_ind _ dir_ok); [by eapply destroyed_dir_ok|]. congruence.
Qed.

(** *** Releasing lobbies and applications *)

Lemma destroy_lobby_ok d l :
  dir_ok d → (∀ gm g, game_heap d !! gm = Some g → game_lobby g ≠ l) →
  dir_ok (destroy_lobby d l).
Proof.
  intros Hok Hfree. unfold destroy_lobby. destruct (lobby_heap d !! l) as [lobby|] eqn:Hl; [|done].
  pose proof Hok as [Happ Hlob Hgames Hhome Hroom Hlist Hfresh Hsound].
  set (unlist := λ app, app <| lobbies_ ::= delete (lobby_name lobby, lobby_type lobby) |>).
  assert (lobby_key d l = Some (lobby_place lobby)) as Hlk by (unfold lobby_key; by rewrite Hl).
  assert (∀ x lb, delete l (lobby_heap d) !! x = Some lb → x ≠ l ∧ lobby_heap d !! x = Some lb) as Hdel.
  { intros x lb. rewrite lookup_delete_Some. naive_solver. }
  assert (∀ {B} (f : App → B) a, (∀ app, f (unlist app) = f app) →
    f <$> alter unlist (lobby_home lobby) (app_heap d) !! a = f <$> app_heap d !! a) as Hview.
  { intros B f a Hf. rewrite lookup_alter. case_decide; [|done]. subst.
    rewrite <-option_fmap_compose. by destruct (app_heap d !! _); cbn; rewrite ?Hf. }
  split; unfold app_key, lobbies_of, games_of in *; upd.
  - intros key w. rewrite Happ. by setoid_rewrite (Hview _ (key_of ∘ app_ident)).
  - intros a tbl Ha key x. unfold lobby_key in *. upd.
    assert (∃ tbl0, lobbies_ <$> app_heap d !! a = Some tbl0 ∧
      tbl = if decide (lobby_home lobby = a) then delete (lobby_place lobby).2 tbl0 else tbl0)
      as (tbl0 & Ht & ->).
    { rewrite lookup_alter in Ha. case_decide; [subst a|by exists tbl].
      destruct (app_heap d !! _) as [app|] eqn:E; [|done]. injection Ha as <-.
      exists (lobbies_ app). split; [done|]. done. }
    pose proof (Hlob _ _ Ht key x) as Hx.
    destruct (decide (x = l)) as [->|Hxl].
    + rewrite lookup_delete_eq. split; [|done]. case_decide; [|rewrite Hx, Hlk; intros E%(inj Some); apply (f_equal fst) in E; done].
      rewrite lookup_delete_Some, Hx, Hlk. intros [Hk E%(inj Some)]. by rewrite E in Hk.
    + rewrite lookup_delete_ne by done. case_decide; [|done]. subst a.
      rewrite lookup_delete_Some, Hx. split; [by intros []|]. intros E. split; [|done].
      intros <-. apply (Hlob _ _ Ht) in E.
      assert (tbl0 !! (lobby_place lobby).2 = Some l) by (apply (Hlob _ _ Ht); by rewrite Hlk).
      congruence.
  - intros a tbl. rewrite (Hview _ games_) by done. intros Ha i gm. rewrite (Hgames _ _ Ha).
    unfold room_key, lobby_key. upd. destruct (game_heap d !! gm) as [g|] eqn:Hg; [|done]. cbn.
    by rewrite lookup_delete_ne by (apply not_eq_sym; eauto).
  - intros x lb [_ Hx]%Hdel. rewrite (Hview _ (key_of ∘ app_ident)) by done. by apply (Hhome x).
  - intros gm g Hg. destruct (Hroom _ _ Hg) as (? & ? & lb & ? & ?). repeat split; [done..|].
    exists lb. split; [|done]. rewrite lookup_delete_ne; [done|]. apply not_eq_sym. eauto.
  - intros x lb [_ Hx]%Hdel. by apply Hlist.
  - intros p Hp. destruct (Hfresh _ Hp) as (Fa & ? & ?). rewrite lookup_alter, lookup_delete_None.
    repeat split; [|by right|done]. case_decide; subst; by rewrite ?Fa.
  - exact Hsound.
Qed.

Lemma destroy_app_ok d a :
  dir_ok d → (∀ l lobby, lobby_heap d !! l = Some lobby → lobby_app lobby ≠ Some a) →
  dir_ok (destroy_app d a).
Proof.
  intros Hok Hfree. unfold destroy_app. destruct (app_heap d !! a) as [app|] eqn:Ha; [|done].
  pose proof Hok as [Happ Hlob Hgames Hhome Hroom Hlist Hfresh Hsound].
  assert (apps d !! key_of (app_ident app) = Some (Some a)) as Hreg.
  { apply Happ. exists a. split; [done|]. apply app_key_Some. eauto. }
  split; unfold app_key, lobbies_of, games_of in *; upd.
  - intros key w. rewrite lookup_delete_Some, Happ. split.
    + intros [Hk (b & -> & Hb)]. exists b. split; [done|]. rewrite lookup_delete_ne; [done|].
      intros <-. rewrite Ha in Hb. by injection Hb.
    + intros (b & -> & Hb). destruct (decide (b = a)) as [->|Hba]; [by rewrite lookup_delete_eq in Hb|].
      rewrite lookup_delete_ne in Hb by done. split; [|eauto]. intros <-.
      assert (apps d !! key_of (app_ident app) = Some (Some b)) by (apply Happ; eauto). congruence.
  - intros b tbl. destruct (decide (b = a)) as [->|Hba]; [by rewrite lookup_delete_eq|].
    rewrite lookup_delete_ne by done. apply Hlob.
  - intros b tbl. destruct (decide (b = a)) as [->|Hba]; [by rewrite lookup_delete_eq|].
    rewrite lookup_delete_ne by done. apply Hgames.
  - intros l lobby Hl. destruct (Hhome _ _ Hl) as [E ?]. split; [done|].
    rewrite lookup_delete_ne; [done|]. intros Ea. apply (Hfree _ _ Hl). congruence.
  - done.
  - done.
  - intros p Hp. destruct (Hfresh _ Hp) as (? & ? & ?). rewrite lookup_delete_None. auto.
  - exact Hsound.
Qed.

Lemma room_change_ok d gm g g' :
  dir_ok d → game_heap d !! gm = Some g → GameSteps.step g g' →
  dir_ok (d <| game_heap ::= <[gm := g']> |>).
Proof.
  intros [Happ Hlob Hgames Hhome Hroom Hlist Hfresh Hsound] Hg Hs.
  pose proof (step_identity g g' (proj1 (Hsound _ _ Hg)) Hs) as [= Es El Ei _].
  split; upd; try done.
  - intros a tbl Ha i x. rewrite (Hgames a tbl Ha). unfold room_key. upd.
    destruct (decide (x = gm)) as [->|]; [|by rewrite lookup_insert_ne].
    rewrite lookup_insert_eq, Hg. cbn. by rewrite El, Ei.
  - intros x h [[<- <-]|[? Hh]]%lookup_insert_Some; [|by apply Hroom].
    rewrite Es, El, Ei. by apply Hroom.
  - intros l lobby Hl. destruct (Hlist _ _ Hl) as (? & ? & Hin). repeat split; [done..|].
    intros x h Hx [[<- <-]|[? Hh]]%lookup_insert_Some; [|eauto]. rewrite El. eauto.
  - intros p Hp. destruct (Hfresh _ Hp) as (? & ? & ?). rewrite lookup_insert_ne by congruence. done.
  - intros x h [[<- <-]|[_ Hh]]%lookup_insert_Some; [|eauto].
    destruct (Hsound _ _ Hg) as [Hgok Hlok]. split.
    + by apply (steps_ok g); [|apply rtc_once].
    + by apply (step_lease_ok g).
Qed.

Lemma subscribe_ok d l f :
  dir_ok d →
  dir_ok (d <| lobby_heap ::= alter (λ lobby,
                 lobby <| game_list_update_handlers ::= f |>) l |>).
Proof.
  intros Hok. destruct (lobby_heap d !! l) as [lobby|] eqn:Hl.
  2: { replace (d <| lobby_heap ::= _ |>) with d; [done|]. destruct d. cbn in *.
       f_equal. symmetry. apply map_eq. intros j. rewrite lookup_alter.
       case_decide; [subst; by rewrite Hl|done]. }
  pose proof Hok as [Happ Hlob Hgames Hhome Hroom Hlist Hfresh Hsound].
  set (d' := d <| lobby_heap ::= _ |>).
  assert (∀ x, ∃ u : Lobby → Lobby, lobby_heap d' !! x = u <$> lobby_heap d !! x ∧
    ∀ lb, lobby_place (u lb) = lobby_place lb ∧ lobby_app (u lb) = lobby_app lb ∧
          games (u lb) = games lb) as Hu.
  { intros x. subst d'. upd. rewrite lookup_alter. case_decide.
    { eexists. subst. split; [reflexivity|]. by intros lb. }
    exists (λ lb, lb). split; [symmetry; apply option_fmap_id|done]. }
  assert (∀ x, lobby_key d' x = lobby_key d x) as Hlk.
  { intros x. unfold lobby_key. destruct (Hu x) as (u & -> & Hp).
    destruct (lobby_heap d !! x); [|done]. cbn. f_equal. apply Hp. }
  assert (∀ x lb, lobby_heap d' !! x = Some lb → ∃ lb0, lobby_heap d !! x = Some lb0 ∧
    lobby_place lb = lobby_place lb0 ∧ lobby_app lb = lobby_app lb0 ∧ games lb = games lb0) as Hback.
  { intros x lb. destruct (Hu x) as (u & -> & Hp). intros (lb0 & E & ->)%fmap_Some.
    exists lb0. split; [done|apply Hp]. }
  split.
  - exact Happ.
  - intros a tbl Ha key x. rewrite Hlk. by apply Hlob.
  - intros a tbl Ha i x. rewrite (Hgames a tbl Ha). unfold room_key.
    change (game_heap d') with (game_heap d). destruct (game_heap d !! x); [|done]. cbn. by rewrite Hlk.
  - intros x lb (lb0 & Hlb & [= E _ _] & -> & _)%Hback. rewrite E. by apply (Hhome x).
  - intros x g Hg. destruct (Hroom _ _ Hg) as (? & ? & lb & Hlb & ?). do 2 (split; [done|]).
    destruct (Hu (game_lobby g)) as (u & -> & Hp). rewrite Hlb. eexists. split; [done|].
    by rewrite (proj2 (proj2 (Hp lb))).
  - intros x lb (lb0 & Hlb & _ & _ & ->)%Hback. by apply (Hlist x).
  - intros p Hp. destruct (Hfresh _ Hp) as (? & Fl & ?). repeat split; [done| |done].
    destruct (Hu p) as (u & -> & _). by rewrite Fl.
  - exact Hsound.
Qed.

Lemma dir_step_ok d d' : dir_step d d' → dir_ok d → dir_ok d'.
Proof.
  intros [] Hok; eauto using get_ok, get_lobby_ok, create_game_ok, destroy_game_ok,
    destroy_lobby_ok, destroy_app_ok, room_change_ok, subscribe_ok.
  by destruct (try_get_ok d0 key Hok) as [-> _].
Qed.

Lemma dir_steps_ok d d' : rtc dir_step d d' → dir_ok d → dir_ok d'.
Proof. induction 1; eauto using dir_step_ok. Qed.
End invariant.

(** ** What the directory promises *)

Section promises.
Context `{Ser, Codes, SettingsSource, SqlLobbies, Transports}.
Context (configs : list ServerConfig).
Implicit Types (d : Directory) (a : app_ptr) (l : lobby_ptr) (gm : game_ptr).

Lemma live_room_listed d gm a i :
  dir_ok d → room_key d gm = Some (a, i) →
  ∃ app, app_heap d !! a = Some app ∧ games_ app !! i = Some gm.
Proof.
  intros Hok Hk. pose proof Hk as (g & lobby & _ & Hl & Hh & _)%room_key_Some.
  destruct (dir_home _ Hok _ _ Hl) as [_ [app Ha]%fmap_is_Some]. rewrite Hh in Ha.
  exists app. split; [done|]. apply (dir_games _ Hok a); [|done].
  unfold games_of. by rewrite Ha.
Qed.

Lemma live_lobby_listed d l a key :
  dir_ok d → lobby_key d l = Some (a, key) →
  ∃ app, app_heap d !! a = Some app ∧ lobbies_ app !! key = Some l.
Proof.
  intros Hok Hk. pose proof Hk as (lobby & Hl & Hh & _)%lobby_key_Some.
  destruct (dir_home _ Hok _ _ Hl) as [_ [app Ha]%fmap_is_Some]. rewrite Hh in Ha.
  exists app. split; [done|]. apply (dir_lobbies _ Hok a); [|done].
  unfold lobbies_of. by rewrite Ha.
Qed.

(** C17: Names are unique in every reachable directory: no two live
    applications have the same id and version, no two live lobbies of an
    application the same name and type, and no two live rooms of an
    application, in whatever lobbies, the same id; the tables find the live
    object of a name, and every live room satisfies the rooms' invariant. *)
Theorem directory_names_unique d :
  rtc (dir_step configs) empty_directory d →
  (∀ a b key, app_key d a = Some key → app_key d b = Some key →
     a = b ∧ apps d !! key = Some (Some a)) ∧
  (∀ l k place, lobby_key d l = Some place → lobby_key d k = Some place → l = k) ∧
  (∀ g h a i, room_key d g = Some (a, i) → room_key d h = Some (a, i) →
     g = h ∧ ∃ app, app_heap d !! a = Some app ∧ games_ app !! i = Some g) ∧
  (∀ gm g, game_heap d !! gm = Some g → game_ok g).
Proof.
  intros Hd. pose proof (dir_steps_ok _ _ _ Hd empty_directory_ok) as Hok.
  split; [|split; [|split; [|intros gm g Hg; apply (dir_sound _ Hok _ _ Hg)]]].
  - intros a b key Ha Hb.
    assert (apps d !! key = Some (Some a)) by (apply (dir_apps _ Hok); eauto).
    assert (apps d !! key = Some (Some b)) by (apply (dir_apps _ Hok); eauto).
    split; congruence.
  - intros l k [a key] (app & Ha & Hl)%live_lobby_listed (app' & Ha' & Hk)%live_lobby_listed; [|done..].
    congruence.
  - intros g h a i (app & Ha & Hg)%live_room_listed (app' & Ha' & Hh)%live_room_listed; [|done..].
    split; [congruence|eauto].
Qed.

(** Whether an application may not create another room. *)
Definition at_limit d (app : App) : bool :=
  negb (max_game_count (settings_ app) =? 0)
  && (max_game_count (settings_ app) <=? get_game_count d app).

Lemma create_game_cases d l lobby i address or_get :
  dir_ok d → lobby_heap d !! l = Some lobby →
  ∃ app, app_heap d !! lobby_home lobby = Some app ∧
  create_game configs d l i address or_get =
    (if empty_str i then inl (d, inr GameIdNotExists, [])
    else match games_ app !! i with
    | Some gm => inl (d, if or_get then inl (Some gm) else inr GameIdAlreadyExists, [])
    | None =>
        if at_limit d app then inl (d, inr ServerFull, [])
        else
          let gm := next_ptr d in
          let g := new_game gm l i (get_static_endpoint_address_str configs address) in
          inl (set_rooms d (lobby_home lobby) l (<[i := gm]> (games_ app))
                 (games lobby ++ [gm]) (<[gm := g]> (game_heap d)) <| next_ptr := S gm |>,
               inl (Some gm),
               (λ h, GameListUpdate h gm) <$> game_list_update_handlers lobby)
    end) ∧
  ∀ gm, games_ app !! i = Some gm ↔
    ∃ g other, game_heap d !! gm = Some g ∧ id g = i ∧
      lobby_heap d !! game_lobby g = Some other ∧ lobby_home other = lobby_home lobby.
Proof.
  intros Hok Hl. destruct (room_app_ok _ _ _ Hok Hl) as (app & Hra & Ha).
  assert (games_of d (lobby_home lobby) = Some (games_ app)) as Ht by (unfold games_of; by rewrite Ha).
  exists app. split; [done|]. split.
  - unfold create_game. rewrite Hl, Hra. destruct (empty_str i); [done|].
    destruct (games_ app !! i) as [gm|] eqn:Hg.
    + destruct or_get; [|done].
      apply (dir_games _ Hok _ _ Ht), room_key_Some in Hg as (g & _ & Hg & _).
      by rewrite (alive_Some _ _ _ Hg).
    + fold (at_limit d app). destruct (at_limit d app); [done|].
      exact (f_equal (λ x, inl (x, _, _)) (create_game_result _ _ _ _ _ _ Hl Ha)).
  - intros gm. rewrite (dir_games _ Hok _ _ Ht), room_key_Some. naive_solver.
Qed.

(** What asking a live lobby for a room gives: a refusal for the empty
    id; the live room of that id when there is one in any lobby of the
    application and it may be reused, and a refusal otherwise; a refusal at
    the application's limit; else a new room in this lobby, under the next
    name, announced to the lobby's subscribers.  It never dereferences a null
    pointer nor returns one, and a refusal changes nothing. *)
Theorem create_game_spec d l lobby i address or_get :
  dir_ok d → lobby_heap d !! l = Some lobby →
  ∃ app, app_heap d !! lobby_home lobby = Some app ∧
  create_game configs d l i address or_get =
    (if empty_str i then inl (d, inr GameIdNotExists, [])
    else match games_ app !! i with
    | Some gm => inl (d, if or_get then inl (Some gm) else inr GameIdAlreadyExists, [])
    | None =>
        if at_limit d app then inl (d, inr ServerFull, [])
        else
          let gm := next_ptr d in
          let g := new_game gm l i (get_static_endpoint_address_str configs address) in
          inl (set_rooms d (lobby_home lobby) l (<[i := gm]> (games_ app))
                 (games lobby ++ [gm]) (<[gm := g]> (game_heap d)) <| next_ptr := S gm |>,
               inl (Some gm),
               (λ h, GameListUpdate h gm) <$> game_list_update_handlers lobby)
    end) ∧
  ∀ gm, games_ app !! i = Some gm ↔
    ∃ g other, game_heap d !! gm = Some g ∧ id g = i ∧
      lobby_heap d !! game_lobby g = Some other ∧ lobby_home other = lobby_home lobby.
Proof. apply create_game_cases. Qed.

(** *** Rooms that are gone still count *)

(** Rooms being created and destroyed, nothing being released. *)
Inductive room_churn : Directory → Directory → Prop :=
  | churn_create d l i address or_get d' r ns :
      create_game configs d l i address or_get = inl (d', r, ns) → room_churn d d'
  | churn_destroy d gm d' ns ms :
      destroy_game d gm = inl (d', ns, ms) → room_churn d d'.

Lemma churn_ok d d' : room_churn d d' → dir_ok d → dir_ok d'.
Proof. intros [] Hok; eauto using create_game_ok, destroy_game_ok. Qed.

(** An application's count only depends on the lists of its lobbies. *)
Lemma get_game_count_mono d d' app app' :
  lobbies_ app' = lobbies_ app →
  (∀ l lobby, lobby_heap d !! l = Some lobby →
     ∃ lobby', lobby_heap d' !! l = Some lobby' ∧ games lobby `prefix_of` games lobby') →
  get_game_count d app ≤ get_game_count d' app'.
Proof.
  intros E Hl. unfold get_game_count. rewrite E.
  induction (map_to_list (lobbies_ app)) as [|[key l] kvs IH]; cbn [foldr snd]; [lia|].
  destruct (lobby_heap d !! l) as [lobby|] eqn:Hlb.
  - destruct (Hl _ _ Hlb) as (lobby' & -> & ?%prefix_length). lia.
  - destruct (lobby_heap d' !! l); lia.
Qed.

Definition keeps_lists d d' : Prop :=
  (∀ a app, app_heap d !! a = Some app → ∃ app', app_heap d' !! a = Some app' ∧
     settings_ app' = settings_ app ∧ lobbies_ app' = lobbies_ app) ∧
  (∀ l lobby, lobby_heap d !! l = Some lobby → ∃ lobby', lobby_heap d' !! l = Some lobby' ∧
     lobby_home lobby' = lobby_home lobby ∧ games lobby `prefix_of` games lobby').

Lemma keeps_lists_refl d : keeps_lists d d.
Proof. split; eauto. Qed.

Lemma set_rooms_keeps d a l lobby tbl gs heap n :
  lobby_heap d !! l = Some lobby → games lobby `prefix_of` gs →
  keeps_lists d (set_rooms d a l tbl gs heap <| next_ptr := n |>).
Proof.
  intros Hl Hgs. unfold set_rooms. split; upd.
  - intros b app Hb. rewrite lookup_alter. case_decide; subst; [|by exists app].
    rewrite Hb. by eexists.
  - intros x lb Hx. rewrite lookup_alter. case_decide; subst; [|by exists lb].
    rewrite Hx. eexists. split; [done|]. split; [done|]. upd. congruence.
Qed.

Lemma churn_keeps_lists d d' : dir_ok d → room_churn d d' → keeps_lists d d'.
Proof.
  intros Hok Hs. revert Hok.
  destruct Hs as [d0 l i address or_get d1 r ns E|d0 gm d1 ns ms E]; intros Hok.
  - destruct (lobby_heap d0 !! l) as [lobby|] eqn:Hl; [|unfold create_game in E; by rewrite Hl in E].
    destruct (create_game_cases d0 l lobby i address or_get Hok Hl) as (app & Ha & E' & _).
    rewrite E' in E. repeat case_match; simplify_eq; try apply keeps_lists_refl.
    injection E as <- _ _. apply set_rooms_keeps with lobby; [done|]. by apply prefix_app_r.
  - destruct (game_heap d0 !! gm) as [g|] eqn:Hg.
    2: { unfold destroy_game in E. rewrite Hg in E. injection E as <- _ _. apply keeps_lists_refl. }
    destruct (dir_room _ Hok _ _ Hg) as (_ & _ & lobby & Hl & _).
    destruct (destroy_game_result _ _ _ _ Hok Hg Hl) as (app & Ha & E'). rewrite E' in E.
    apply (f_equal (λ x, match x with inl (d, _, _) => d | inr _ => d0 end)) in E.
    rewrite <-E. by apply set_rooms_keeps with lobby.
Qed.

Lemma churns_keep d d' :
  rtc room_churn d d' → dir_ok d → dir_ok d' ∧ keeps_lists d d'.
Proof.
  induction 1 as [d|d d1 d2 H1' _ IH]; intros Hok; [split; [done|apply keeps_lists_refl]|].
  destruct (IH (churn_ok _ _ H1' Hok)) as [Hok2 [Ka Kl]].
  destruct (churn_keeps_lists _ _ Hok H1') as [Ja Jl]. split; [done|]. split.
  - intros a app (app1 & Ha1 & E1 & F1)%Ja.
    apply Ka in Ha1 as (app2 & Ha2 & E2 & F2). exists app2. by rewrite E2, F2.
  - intros l lb (lb1 & Hl1 & E1 & P1)%Jl.
    apply Kl in Hl1 as (lb2 & Hl2 & E2 & P2). exists lb2. rewrite E2. split; [done|].
    split; [done|]. by etrans.
Qed.

(** An application that reached its room limit stays at it: whatever
    rooms are then destroyed (or created elsewhere), as long as its lobbies
    live, a room of a new id is refused, even when no room is left. *)
Theorem room_limit_never_recovers d d' l lobby app i address or_get :
  dir_ok d → lobby_heap d !! l = Some lobby →
  app_heap d !! lobby_home lobby = Some app → at_limit d app = true →
  rtc room_churn d d' → i ≠ EmptyString →
  (∀ gm g, game_heap d' !! gm = Some g → id g ≠ i) →
  create_game configs d' l i address or_get = inl (d', inr ServerFull, []).
Proof.
  intros Hok Hl Ha Hfull Hch Hi Hfree.
  destruct (churns_keep _ _ Hch Hok) as [Hok' [Ka Kl]].
  destruct (Kl _ _ Hl) as (lobby' & Hl' & Hh & _). destruct (Ka _ _ Ha) as (app' & Ha' & Es & El).
  destruct (create_game_cases d' l lobby' i address or_get Hok' Hl') as (app2 & Ha2 & -> & Hg).
  rewrite Hh, Ha' in Ha2. injection Ha2 as <-.
  unfold empty_str. rewrite bool_decide_eq_false_2 by done.
  destruct (games_ app' !! i) as [gm|] eqn:Eg.
  { destruct (proj1 (Hg gm) eq_refl) as (g & _ & Hgm & Hid & _). by apply Hfree in Hgm. }
  enough (at_limit d' app' = true) as -> by done.
  unfold at_limit in *. rewrite Es. apply andb_prop in Hfull as [-> Hle%Z.leb_le]. cbn.
  apply Z.leb_le. etrans; [exact Hle|]. apply get_game_count_mono; [done|].
  intros x lb (lb' & ? & ? & ?)%Kl. eauto.
Qed.

(** *** Finding a room by its identification *)

(** Looking an application up: it is then live, unless its settings could
    not be loaded. *)
Lemma get_spec d info :
  dir_ok d →
  match get d (key_of info) with
  | (d', Some a) => is_Some (app_heap d' !! a)
  | (_, None) => True
  end ∧
  ((get d (key_of info)).2 = None ↔
   (∀ a, app_key d a ≠ Some (key_of info)) ∧ (load_app_settings info default_settings).2 = false).
Proof.
  intros Hok. unfold get. destruct (try_get_ok d (key_of info) Hok) as [-> Hk].
  destruct (x ← apps d !! key_of info; x) as [a|] eqn:E.
  - pose proof (proj1 (Hk a) eq_refl) as Ha. cbn. split.
    + apply app_key_Some in Ha as (? & ? & _). eauto.
    + split; [done|]. intros [Hno _]. by destruct (Hno a).
  - assert (∀ a, app_key d a ≠ Some (key_of info)) by (intros a Ha%Hk; done).
    replace (mkAppInfo (key_of info).1 (key_of info).2) with info by (by destruct info).
    destruct (load_app_settings info default_settings) as [s []]; cbn; [|done].
    upd. rewrite lookup_insert_eq. split; [eauto|]. split; [done|]. by intros [_ ?].
Qed.

(** A live application always gives a lobby. *)
Lemma get_lobby_live d a app lid :
  dir_ok d → sqlite_ready = true → app_heap d !! a = Some app →
  ∃ d' l lobby, get_lobby d a lid = inl (d', l) ∧ dir_ok d' ∧ lobby_heap d' !! l = Some lobby.
Proof.
  intros Hok Hsql Ha. pose proof (get_lobby_ok d a lid) as Hok'. unfold get_lobby in *.
  rewrite Ha in *. destruct (find_lobby_ok _ _ _ lid Hok Ha) as [Ef Et]. rewrite Ef, Et in *.
  destruct (lobbies_ app !! lid) as [l|].
  - apply alive_spec in Ef as [_ [lobby Hl]]. exists d, l, lobby. eauto.
  - unfold new_lobby in *. rewrite Hsql, andb_false_r in *.
    do 3 eexists. split; [reflexivity|]. split; [by eapply Hok'|].
    upd. apply lookup_insert_eq.
Qed.

(** Finding or creating a room by its identification dereferences a null
    pointer exactly when the application is not live and its settings cannot
    be loaded, the database not knowing its id, say; otherwise it answers. *)
Theorem get_game_dereferences_null d (info : GameInfo) :
  dir_ok d → sqlite_ready = true →
  let app := li_app (gi_lobby info) in
  (get_game configs d info = inr NullDereference ↔
   (∀ a, app_key d a ≠ Some (key_of app)) ∧ (load_app_settings app default_settings).2 = false) ∧
  (∀ e, get_game configs d info = inr e → e = NullDereference).
Proof.
  intros Hok Hsql app. unfold get_game, get_lobby_by_info. fold app.
  pose proof (get_ok d (key_of app) Hok) as Hok'.
  destruct (get_spec d app Hok) as [Hlive Hnone].
  destruct (get d (key_of app)) as [d1 [a|]]; cbn in *;
    [|by split; [rewrite <-Hnone|intros ? [= <-]]].
  destruct Hlive as [ap Ha].
  destruct (get_lobby_live _ _ _ (li_name (gi_lobby info), li_type (gi_lobby info)) Hok' Hsql Ha)
    as (d2 & l & lobby & -> & Hok2 & Hl).
  destruct (create_game_cases d2 l lobby (gi_id info) (gi_server_address info) true Hok2 Hl)
    as (app2 & _ & -> & _).
  split; [rewrite <-Hnone|]; repeat case_match; naive_solver.
Qed.

(** *** Settings *)

(** Under a configured limit on the peers of a room, every application
    that loads carries a limit between one and that limit, whatever the hook
    and the database say (their numbers being unsigned); a limit of 255 or
    more, or none, changes nothing. *)
Theorem loaded_settings_capped info s limit :
  max_game_peers_ = NormalizeMaxGamePeers limit → 0 ≤ limit →
  (load_app_settings info default_settings) = (s, true) → 0 ≤ max_peers_per_game s →
  (1 ≤ limit < 255 → 1 ≤ max_peers_per_game s ≤ limit) ∧
  (limit = 0 ∨ 255 ≤ limit → max_game_peers_ = 0).
Proof.
  intros Hm Hlim Hload Hs. unfold NormalizeMaxGamePeers in Hm.
  assert (u8 (Z.min limit 255) = Z.min limit 255) as Eu by (apply wrap_small; lia).
  rewrite Eu in Hm. split; intros Hl.
  - assert (max_game_peers_ = limit) as El.
    { rewrite Hm. destruct (Z.eqb_spec (Z.min limit 255) 255); lia. }
    assert (∃ s0, s = enforce_global_config s0) as [s0 ->].
    { unfold load_app_settings in Hload. destruct (load_hook _ _) as [[s1 taken] ok].
      repeat case_match; simplify_eq; eauto. }
    unfold enforce_global_config in *. rewrite El in *.
    destruct (Z.eqb_spec limit 0); [lia|]. cbn in *. upd. upd_in Hs.
    destruct (Z.eqb_spec (max_peers_per_game s0) 0); lia.
  - rewrite Hm. destruct (Z.eqb_spec (Z.min limit 255) 255); lia.
Qed.
End promises.
