(* ===== verification/DirectoryScenarios.v ===== *)
(** * Concrete directories

    The theorems of the directory applied to a small server: one application
    allowed a single room, its default lobby, and that room. *)

From S2P Require Import Prelude Values Types GameState GameProps PeerPersistence ServerManager Directory.
Open Scope Z_scope.
Import TreeSer PhotonCodes.

(** The database knows one application, limited to one room. *)
#[export] Instance one_app : SettingsSource := {|
  load_hook _ s := (s, false, true);
  settings_manager := Some (λ i,
    if bool_decide (i = "app"%string)
    then Some (default_settings <| max_game_count := 1 |> <| max_peers_per_game := 40 |>)
    else None);
  max_game_peers_ := NormalizeMaxGamePeers 16;
|}.
#[export] Instance sql_lobbies : SqlLobbies := {| SqlLobby := 2; sqlite_ready := true |}.
#[export] Existing Instance two_transports.

Definition the_app : string * string := ("app"%string, "1"%string).
Definition with_app : Directory := (get empty_directory the_app).1.
Definition with_lobby : Directory :=
  match get_lobby with_app 0 (EmptyString, 0) with inl (d, _) => d | inr _ => with_app end.
Definition with_room : Directory :=
  match create_game sample_configs with_lobby 1 "room" "h:5056" false with
  | inl (d, _, _) => d | inr _ => with_lobby end.
Definition without_room : Directory :=
  match destroy_game with_room 2 with inl (d, _, _) => d | inr _ => with_room end.

Lemma with_lobby_step : ∃ l, get_lobby with_app 0 (EmptyString, 0) = inl (with_lobby, l).
Proof. eexists. reflexivity. Qed.
Lemma with_room_step : ∃ r ns,
  create_game sample_configs with_lobby 1 "room" "h:5056" false = inl (with_room, r, ns).
Proof. do 2 eexists. reflexivity. Qed.
Lemma without_room_step : ∃ ns ms, destroy_game with_room 2 = inl (without_room, ns, ms).
Proof. do 2 eexists. reflexivity. Qed.

Lemma with_room_reachable : rtc (dir_step sample_configs) empty_directory with_room.
Proof.
  eapply rtc_l; [exact (step_get _ _ the_app)|].
  destruct with_lobby_step as [l Hl]. eapply rtc_l; [exact (step_get_lobby _ _ _ _ _ _ Hl)|].
  destruct with_room_step as (r & ns & Hr). eapply rtc_l; [|apply rtc_refl].
  exact (step_create_game _ _ _ _ _ _ _ _ _ Hr).
Qed.

Lemma with_room_ok : dir_ok with_room.
Proof. exact (dir_steps_ok _ _ _ with_room_reachable empty_directory_ok). Qed.

Lemma directory_names_unique_witness :
  room_key with_room 2 = Some (0%nat, "room"%string) ∧
  ∃ app, app_heap with_room !! 0%nat = Some app ∧ games_ app !! "room"%string = Some 2%nat.
Proof.
  split; [reflexivity|].
  destruct (directory_names_unique sample_configs with_room with_room_reachable)
    as (_ & _ & Hrooms & _).
  exact (proj2 (Hrooms 2%nat 2%nat 0%nat "room"%string eq_refl eq_refl)).
Defined.

Definition the_lobby : Lobby := mkLobby (Some 0%nat) 0 EmptyString 0 [2%nat] [].
Lemma the_lobby_lives : lobby_heap with_room !! 1%nat = Some the_lobby.
Proof. reflexivity. Qed.

Lemma create_game_spec_witness :
  create_game sample_configs with_room 1 "room" "" true = inl (with_room, inl (Some 2%nat), []).
Proof.
  destruct (create_game_spec sample_configs with_room 1 the_lobby "room" "" true
    with_room_ok the_lobby_lives) as (app & Ha & E & Hg).
  assert (games_ app !! "room"%string = Some 2%nat) as Hr.
  { apply Hg. do 2 eexists. repeat split. }
  rewrite Hr in E. exact E.
Defined.

(** The only room was destroyed; there is no place for another. *)
Lemma room_limit_never_recovers_witness :
  create_game sample_configs without_room 1 "other" "" false
  = inl (without_room, inr ServerFull, []).
Proof.
  destruct without_room_step as (ns & ms & Hd).
  refine (room_limit_never_recovers sample_configs with_room without_room 1 the_lobby
    (mkApp (mkAppInfo "app" "1") (mkAppSettings EmptyString 0 0 EmptyString 0 16 1 true true)
       {[ (EmptyString, 0) := 1%nat ]}
       {[ "room"%string := 2%nat ]}) "other" "" false
    with_room_ok the_lobby_lives eq_refl _ _ _ _).
  - vm_compute. reflexivity.
  - exact (rtc_once _ _ (churn_destroy _ _ _ _ _ _ Hd)).
  - discriminate.
  - intros gm g Hg. change (game_heap without_room) with (∅ : gmap game_ptr Game) in Hg.
    by rewrite lookup_empty in Hg.
Defined.

Lemma get_game_dereferences_null_witness :
  get_game sample_configs empty_directory
    (mkGameInfo (mkLobbyInfo (mkAppInfo "unknown" "1") EmptyString 0) "room" EmptyString)
  = inr NullDereference.
Proof.
  refine (proj2 (proj1 (get_game_dereferences_null (H2 := sql_lobbies) sample_configs
    empty_directory _ empty_directory_ok eq_refl)) _).
  split; [|reflexivity]. intros a. unfold app_key. cbn. rewrite lookup_empty. discriminate.
Defined.

Lemma loaded_settings_capped_witness :
  let s := (load_app_settings (mkAppInfo "app" "1") default_settings).1 in
  1 ≤ max_peers_per_game s ≤ 16.
Proof.
  intros s.
  refine (proj1 (loaded_settings_capped (mkAppInfo "app" "1") s 16 eq_refl _ eq_refl _) _);
    [lia| |lia].
  apply Z.leb_le. reflexivity.
Defined.
