(* ===== verification/Release.v ===== *)
(** * Letting go of objects

    A shared pointer that goes out of scope destroys its object when nobody
    else holds it: applications are held by lobbies and identities, lobbies
    by rooms and subscribed clients, rooms by connections and identities.
    Handlers create such objects on the way and may end up not using them. *)

From S2P Require Import Prelude Values Types GameState GameSteps PeerPersistence ServerManager Directory.
Open Scope Z_scope.

Section releases.
Context `{Ser, Codes, SettingsSource, SqlLobbies, Transports}.
Implicit Types (d : Directory) (a : app_ptr) (l : lobby_ptr).

(** The application a temporary pointer lets go of is destroyed unless a
    lobby or an identity holds it. *)
Definition release_app (held : app_ptr → bool) d a : Directory :=
  if held a || existsb (λ kv : lobby_ptr * Lobby, bool_decide (lobby_app kv.2 = Some a))
                 (map_to_list (lobby_heap d))
  then d else destroy_app d a.

(** The lobby a temporary pointer lets go of is destroyed, and lets go of its
    application, unless a room or a subscribed client holds it. *)
Definition release_lobby (held : app_ptr → bool) d l : Directory :=
  match lobby_heap d !! l with
  | None => d
  | Some lobby =>
      if existsb (λ kv : game_ptr * Game, bool_decide (game_lobby kv.2 = l))
           (map_to_list (game_heap d))
         || negb (bool_decide (game_list_update_handlers lobby = []))
      then d
      else
        let d := destroy_lobby d l in
        match lobby_app lobby with Some a => release_app held d a | None => d end
  end.

(** <src/server_manager.cpp:749-754 ServerManager::get_game>
    With the temporary lobby of server_manager.hpp:359 let go. *)
Definition find_room (configs : list ServerConfig) (held : app_ptr → bool) d (info : GameInfo) :
    Directory * (option game_ptr + ErrorCode) * list Notice + Fault :=
  match get_lobby_by_info d (gi_lobby info) with
  | inr f => inr f
  | inl (d, l) =>
      match create_game configs d l (gi_id info) (gi_server_address info) true with
      | inr f => inr f
      | inl (d, r, ns) => inl (release_lobby held d l, r, ns)
      end
  end.

(** The room a temporary pointer lets go of, held by nobody else, dies and
    lets go of its lobby. *)
Definition release_room (held : app_ptr → bool) d (gm : game_ptr) :
    Directory * list Notice * list EventMessage + Fault :=
  match game_heap d !! gm with
  | None => inl (d, [], [])
  | Some g =>
      match destroy_game d gm with
      | inr f => inr f
      | inl (d, ns, msgs) => inl (release_lobby held d (game_lobby g), ns, msgs)
      end
  end.

Lemma release_app_ok held d a : dir_ok d → dir_ok (release_app held d a).
Proof.
  intros Hok. unfold release_app. destruct (held a); [done|]. cbn [orb].
  destruct (existsb _ _) eqn:E; [done|]. apply destroy_app_ok; [done|].
  intros l lobby Hl Ha. apply not_true_iff_false in E. apply E, existsb_exists.
  exists (l, lobby). split; [|by apply bool_decide_eq_true].
  by apply list_elem_of_In, elem_of_map_to_list.
Qed.

Lemma release_lobby_ok held d l : dir_ok d → dir_ok (release_lobby held d l).
Proof.
  intros Hok. unfold release_lobby. destruct (lobby_heap d !! l) as [lobby|]; [|done].
  destruct (existsb _ _) eqn:E; [done|]. destruct (negb _); [done|]. cbn [orb].
  assert (dir_ok (destroy_lobby d l)) as Hd.
  { apply destroy_lobby_ok; [done|]. intros gm g Hg Hl. apply not_true_iff_false in E.
    apply E, existsb_exists. exists (gm, g). split; [|by apply bool_decide_eq_true].
    by apply list_elem_of_In, elem_of_map_to_list. }
  destruct (lobby_app lobby); [by apply release_app_ok|done].
Qed.

Lemma get_lobby_by_info_ok d info d' l :
  dir_ok d → get_lobby_by_info d info = inl (d', l) → dir_ok d'.
Proof.
  intros Hok. unfold get_lobby_by_info. pose proof (get_ok d (key_of (li_app info)) Hok) as Hok'.
  destruct (get _ _) as [d1 [a|]]; [|done]. by apply get_lobby_ok.
Qed.

Lemma find_room_ok configs held d info d' r ns :
  dir_ok d → find_room configs held d info = inl (d', r, ns) → dir_ok d'.
Proof.
  intros Hok. unfold find_room.
  destruct (get_lobby_by_info d _) as [[d1 l]|f] eqn:El; [|done].
  destruct (create_game _ _ _ _ _ _) as [[[d2 r2] ns2]|f] eqn:Ec; [|done].
  intros [= <- _ _]. eapply release_lobby_ok, create_game_ok; [|done].
  by eapply get_lobby_by_info_ok.
Qed.

Lemma release_room_ok held d gm d' ns msgs :
  dir_ok d → release_room held d gm = inl (d', ns, msgs) → dir_ok d'.
Proof.
  intros Hok. unfold release_room. destruct (game_heap d !! gm) as [g|]; [|by intros [= <- _ _]].
  destruct (destroy_game d gm) as [[[d1 ns1] ms1]|f] eqn:E; [|done]. intros [= <- _ _].
  by eapply release_lobby_ok, destroy_game_ok.
Qed.

(** Any sequence of a room's own steps keeps the directory sound. *)
Lemma room_changes_ok (configs : list ServerConfig) d gm g g' :
  dir_ok d → game_heap d !! gm = Some g → rtc step g g' →
  dir_ok (d <| game_heap ::= <[gm := g']> |>).
Proof.
  intros Hok Hg Hs. revert d Hok Hg. induction Hs as [g|g g1 g2 H1' _ IH]; intros d Hok Hg.
  - replace (d <| game_heap ::= _ |>) with d; [done|]. destruct d. cbn in *.
    by rewrite insert_id.
  - specialize (IH (d <| game_heap ::= <[gm := g1]> |>)).
    replace (d <| game_heap ::= <[gm := g2]> |>) with
      (d <| game_heap ::= <[gm := g1]> |> <| game_heap ::= <[gm := g2]> |>).
    + apply IH; [|by upd; rewrite lookup_insert_eq].
      exact (dir_step_ok configs _ _ (step_room configs d gm g g1 Hg H1') Hok).
    + destruct d. cbn. by rewrite insert_insert_eq.
Qed.
(** Live rooms of [d] are live in [d']. *)
Definition keeps_rooms (d d' : Directory) : Prop :=
  ∀ gm, is_Some (game_heap d !! gm) → is_Some (game_heap d' !! gm).

#[local] Instance keeps_rooms_po : PreOrder keeps_rooms.
Proof. split; unfold keeps_rooms; [intros d|intros d1 d2 d3]; auto. Qed.

Lemma same_heap_keeps d d' : game_heap d' = game_heap d → keeps_rooms d d'.
Proof. by intros E gm; rewrite E. Qed.

Lemma release_app_heap held d a : game_heap (release_app held d a) = game_heap d.
Proof.
  unfold release_app. destruct (_ || _); [done|]. unfold destroy_app.
  by destruct (app_heap d !! a).
Qed.

Lemma release_lobby_heap held d l : game_heap (release_lobby held d l) = game_heap d.
Proof.
  unfold release_lobby. destruct (lobby_heap d !! l) as [lobby|] eqn:E; [|done].
  destruct (_ || _); [done|].
  assert (game_heap (destroy_lobby d l) = game_heap d) as Hd
    by (unfold destroy_lobby; by rewrite E).
  destruct (lobby_app lobby); by rewrite ?release_app_heap.
Qed.

Lemma get_heap d key : game_heap (get d key).1 = game_heap d.
Proof.
  unfold get. assert (game_heap (try_get d key).1 = game_heap d) as Ht.
  { unfold try_get. destruct (apps d !! key) as [w|]; [|done].
    by destruct (alive (app_heap d) w). }
  destruct (try_get d key) as [d1 [a|]]; [done|].
  destruct (load_app_settings _ _) as [s []]; exact Ht.
Qed.

Lemma get_lobby_heap d a lid d' l :
  dir_ok d → get_lobby d a lid = inl (d', l) → game_heap d' = game_heap d.
Proof.
  intros Hok. unfold get_lobby. destruct (app_heap d !! a) as [app|] eqn:Ha; [|done].
  destruct (find_lobby_ok _ _ _ lid Hok Ha) as [-> ->].
  destruct (lobbies_ app !! lid); [by intros [= <- _]|].
  destruct (new_lobby _ _ _ _); [|done]. by intros [= <- _].
Qed.

Lemma create_game_keeps configs d l i address or_get d' r ns :
  dir_ok d → create_game configs d l i address or_get = inl (d', r, ns) →
  keeps_rooms d d' ∧ ∀ gm, r = inl (Some gm) → is_Some (game_heap d' !! gm).
Proof.
  intros Hok E. destruct (lobby_heap d !! l) as [lobby|] eqn:Hl.
  2: { unfold create_game in E. by rewrite Hl in E. }
  destruct (create_game_cases configs d l lobby i address or_get Hok Hl) as (app & Ha & E' & Hg).
  rewrite E' in E. destruct (empty_str i); [by injection E as <- <- _|].
  destruct (games_ app !! i) as [gm0|] eqn:Ei.
  { injection E as <- <- _. split; [done|]. intros gm Hr.
    destruct (proj1 (Hg gm0) eq_refl) as (x & _ & Hx & _). destruct or_get; [|done].
    injection Hr as <-. eauto. }
  destruct (at_limit d app); [by injection E as <- <- _|].
  injection E as <- <- _. split; [intros x Hx|intros gm [= <-]]; unfold set_rooms; upd;
    apply lookup_insert_is_Some'; [by right|by left].
Qed.

Lemma find_room_keeps configs held d info d' r ns :
  dir_ok d → find_room configs held d info = inl (d', r, ns) →
  keeps_rooms d d' ∧ ∀ gm, r = inl (Some gm) → is_Some (game_heap d' !! gm).
Proof.
  intros Hok. unfold find_room.
  destruct (get_lobby_by_info d _) as [[d1 l]|f] eqn:El; [|done].
  assert (game_heap d1 = game_heap d ∧ dir_ok d1) as [E1 Hok1].
  { split; [|by eapply get_lobby_by_info_ok]. unfold get_lobby_by_info in El.
    pose proof (get_heap d (key_of (li_app (gi_lobby info)))) as Eg.
    pose proof (get_ok d (key_of (li_app (gi_lobby info))) Hok) as Hok'.
    destruct (get _ _) as [d0 [a|]]; [|done]. cbn in *. rewrite <-Eg. by eapply get_lobby_heap. }
  destruct (create_game _ _ _ _ _ _) as [[[d2 r2] ns2]|f] eqn:Ec; [|done].
  intros [= <- <- _]. destruct (create_game_keeps _ _ _ _ _ _ _ _ _ Hok1 Ec) as [Hk Hr].
  split.
  - intros gm Hgm. rewrite release_lobby_heap. apply Hk. by rewrite E1.
  - intros gm Hgm. rewrite release_lobby_heap. auto.
Qed.

(** Lobbies with subscribers stay, with their subscribers. *)
Definition keeps_lobbies (d d' : Directory) : Prop :=
  ∀ l lobby, lobby_heap d !! l = Some lobby → game_list_update_handlers lobby ≠ [] →
  ∃ lobby', lobby_heap d' !! l = Some lobby' ∧
    game_list_update_handlers lobby' = game_list_update_handlers lobby.

#[export] Instance keeps_lobbies_po : PreOrder keeps_lobbies.
Proof.
  split; [by intros d l lobby; eauto|]. intros d1 d2 d3 H12 H23 l lobby Hl Hn.
  destruct (H12 _ _ Hl Hn) as (lb & Hlb & E). rewrite <-E. apply H23; congruence.
Qed.

Lemma same_lobbies_keep d d' : lobby_heap d' = lobby_heap d → keeps_lobbies d d'.
Proof. intros E l lobby Hl _. exists lobby. by rewrite E. Qed.

Lemma release_app_lobbies held d a : lobby_heap (release_app held d a) = lobby_heap d.
Proof.
  unfold release_app. destruct (_ || _); [done|]. unfold destroy_app.
  by destruct (app_heap d !! a).
Qed.

Lemma release_lobby_lobbies held d l : keeps_lobbies d (release_lobby held d l).
Proof.
  unfold release_lobby. destruct (lobby_heap d !! l) as [lobby|] eqn:E; [|done].
  destruct (_ || _) eqn:Eh; [done|]. apply orb_false_elim in Eh as [_ Eh].
  apply negb_false_iff, bool_decide_eq_true in Eh.
  assert (keeps_lobbies d (destroy_lobby d l)) as Hd.
  { unfold destroy_lobby. rewrite E. intros k lb Hk Hn. exists lb. upd.
    rewrite lookup_delete_ne; [done|]. intros <-. congruence. }
  destruct (lobby_app lobby) as [a|]; [|done]. etrans; [exact Hd|].
  apply same_lobbies_keep, release_app_lobbies.
Qed.

Lemma release_lobby_other held d l l' :
  l ≠ l' → lobby_heap (release_lobby held d l) !! l' = lobby_heap d !! l'.
Proof.
  intros Hne. unfold release_lobby. destruct (lobby_heap d !! l) as [lobby|] eqn:E; [|done].
  destruct (_ || _); [done|].
  assert (lobby_heap (destroy_lobby d l) !! l' = lobby_heap d !! l') as Hd.
  { unfold destroy_lobby. rewrite E. upd. by rewrite lookup_delete_ne. }
  destruct (lobby_app lobby); by rewrite ?release_app_lobbies.
Qed.

Lemma get_lobbies d key : lobby_heap (get d key).1 = lobby_heap d.
Proof.
  unfold get. assert (lobby_heap (try_get d key).1 = lobby_heap d) as Ht.
  { unfold try_get. destruct (apps d !! key) as [w|]; [|done].
    by destruct (alive (app_heap d) w). }
  destruct (try_get d key) as [d1 [a|]]; [done|].
  destruct (load_app_settings _ _) as [s []]; exact Ht.
Qed.

Lemma get_lobby_lobbies d a lid d' l :
  dir_ok d → get_lobby d a lid = inl (d', l) →
  keeps_lobbies d d' ∧ is_Some (lobby_heap d' !! l).
Proof.
  intros Hok. unfold get_lobby. destruct (app_heap d !! a) as [app|] eqn:Ha; [|done].
  destruct (find_lobby_ok _ _ _ lid Hok Ha) as [Ef ->]. rewrite Ef.
  destruct (lobbies_ app !! lid) as [l0|] eqn:El.
  - intros [= <- <-]. split; [done|]. by apply alive_spec in Ef as [_ ?].
  - destruct (new_lobby _ _ _ _) as [lobby|]; [|done]. intros [= <- <-].
    destruct (dir_fresh _ Hok (next_ptr d)) as (_ & Fl & _); [lia|]. split.
    + intros k lb Hk _. exists lb. split; [|done]. cbn. rewrite lookup_insert_ne; [done|]. congruence.
    + cbn. rewrite lookup_insert_eq. eauto.
Qed.

Lemma set_rooms_lobbies d a l tbl gs heap n :
  keeps_lobbies d (set_rooms d a l tbl gs heap <| next_ptr := n |>).
Proof.
  intros k lb Hk _. unfold set_rooms. upd. rewrite lookup_alter. case_decide; [|eauto].
  subst. rewrite Hk. eexists. by split.
Qed.

Lemma create_game_lobbies configs d l i address or_get d' r ns :
  dir_ok d → create_game configs d l i address or_get = inl (d', r, ns) → keeps_lobbies d d'.
Proof.
  intros Hok E. destruct (lobby_heap d !! l) as [lobby|] eqn:Hl.
  2: { unfold create_game in E. by rewrite Hl in E. }
  destruct (create_game_cases configs d l lobby i address or_get Hok Hl) as (app & Ha & E' & _).
  rewrite E' in E. destruct (empty_str i); [by injection E as <- _ _|].
  destruct (games_ app !! i); [by injection E as <- _ _|].
  destruct (at_limit d app); injection E as <- _ _; [done|]. apply set_rooms_lobbies.
Qed.

Lemma release_room_lobbies held d gm d' ns msgs :
  dir_ok d → release_room held d gm = inl (d', ns, msgs) → keeps_lobbies d d'.
Proof.
  intros Hok. unfold release_room. destruct (game_heap d !! gm) as [g|] eqn:Hg; [|by intros [= <- _ _]].
  destruct (dir_room _ Hok _ _ Hg) as (_ & _ & lobby & Hl & _).
  destruct (destroy_game_result _ _ _ _ Hok Hg Hl) as (app & Ha & ->). cbn. intros E.
  apply (f_equal (λ x, match x with inl (d, _, _) => d | inr _ => d end)) in E. rewrite <-E.
  etrans; [apply (set_rooms_lobbies d)|apply release_lobby_lobbies].
Qed.
End releases.
