(* ===== verification/LobbyQuery.v ===== *)
(** * Querying the rooms of an SQL lobby

    Models [Lobby::query_lobbies] of [lobby.cpp]: the client's conditions are
    split, screened for keywords and tried in order until one matches a room.
    The database engine and the string splitter are parameters. *)

From S2P Require Import Prelude.
From Stdlib Require Import Ascii.
From Stdlib Require String.
Open Scope Z_scope.

(** ** The keyword screen *)

(** A character of a word, for the regular expression's [\b]. *)
Definition word_char (c : ascii) : bool :=
  let n := Z.of_nat (nat_of_ascii c) in
  ((48 <=? n) && (n <=? 57)) || ((65 <=? n) && (n <=? 90))
  || ((97 <=? n) && (n <=? 122)) || (n =? 95).

Definition upper (c : ascii) : ascii :=
  let n := nat_of_ascii c in
  if (97 <=? n)%nat && (n <=? 122)%nat then ascii_of_nat (n - 32) else c.

(** The maximal words of a text in upper case, [acc] being the word read so
    far, backwards. *)
Fixpoint words_from (acc : list ascii) (s : list ascii) : list (list ascii) :=
  match s with
  | [] => match acc with [] => [] | _ => [rev acc] end
  | c :: s =>
      if word_char c then words_from (upper c :: acc) s
      else match acc with
           | [] => words_from [] s
           | _ => rev acc :: words_from [] s
           end
  end.

Definition words (s : string) : list string :=
  String.string_of_list_ascii <$> words_from [] (String.list_ascii_of_string s).

Definition forbidden_keywords : list string :=
  ["ALTER"; "CREATE"; "DELETE"; "DROP"; "EXEC"; "EXECUTE"; "INSERT"; "MERGE";
   "SELECT"; "UPDATE"; "UNION"]%string.

(** <src/lobby.cpp:194-199 Lobby::query_lobbies>
    The expression matches a keyword between word boundaries, that is a
    maximal word, in any letter case. *)
Definition has_forbidden_keyword (s : string) : bool :=
  existsb (λ w, bool_decide (w ∈ forbidden_keywords)) (words s).

(** ** The query *)

Section query.
(** [str_split s c n] of the utility library, and the ids the database
    selects under a condition; [None] when preparing or stepping fails. *)
Context (str_split : string → ascii → nat → list string).
Context (select : string → option (list string)).

(** <src/lobby.cpp:203-231 Lobby::query_lobbies> *)
Fixpoint run_queries (queries : list string) : option (list string) :=
  match queries with
  | [] => Some []
  | filter :: queries =>
      if bool_decide (filter = EmptyString) then run_queries queries
      else match select filter with
           | None => None
           | Some [] => run_queries queries
           | Some results => Some results
           end
  end.

Definition drop_last_empty (l : list string) : list string :=
  match last l with
  | Some s => if bool_decide (s = EmptyString) then take (length l - 1) l else l
  | None => l
  end.

(** <src/lobby.cpp:175-234 Lobby::query_lobbies> [None] is an exception. *)
Definition query_lobbies (sql_queries : string) : option (list string) :=
  let queries := drop_last_empty (str_split sql_queries ";" 3) in
  match queries with
  | [] => Some []
  | _ =>
      if (3 <? len queries) then None
      else if has_forbidden_keyword sql_queries then None
      else run_queries queries
  end.

(** ** Properties *)

(** The conditions are tried in order: the answer is that of the first one
    that matches a room, those before matching none. *)
Lemma run_queries_spec queries ids :
  ids ≠ [] →
  run_queries queries = Some ids ↔
  ∃ before q after, queries = before ++ q :: after ∧ q ≠ EmptyString ∧
    select q = Some ids ∧
    Forall (λ p, p = EmptyString ∨ select p = Some []) before.
Proof.
  intros Hids. induction queries as [|q queries IH]; cbn [run_queries].
  { split; [congruence|]. intros ([|??] & ? & ? & [=] & _). }
  case_bool_decide as Hq.
  - rewrite IH. split.
    + intros (b & p & a & -> & ? & ? & ?). exists (q :: b), p, a.
      repeat split; [done..|constructor; auto].
    + intros ([|p b] & p' & a & [= <- ->] & ? & ? & Hb); [done|].
      apply Forall_cons in Hb as [_ Hb]. by exists b, p', a.
  - destruct (select q) as [[|i ids0]|] eqn:Hs.
    + rewrite IH. split.
      * intros (b & p & a & -> & ? & ? & ?). exists (q :: b), p, a.
        repeat split; [done..|constructor; auto].
      * intros ([|p b] & p' & a & [= <- ->] & ? & ? & Hb); [congruence|].
        apply Forall_cons in Hb as [_ Hb]. by exists b, p', a.
    + split.
      * intros [= <-]. by exists [], q, queries.
      * intros ([|p b] & p' & a & [= <- ->] & ? & ? & Hb); [congruence|].
        apply Forall_cons in Hb as [[|] _]; congruence.
    + split; [done|].
      intros ([|p b] & p' & a & [= <- ->] & ? & ? & Hb); [congruence|].
      apply Forall_cons in Hb as [[|] _]; congruence.
Qed.

(** Rooms are found only through a query without keywords of the language,
    whatever the database does. *)
Lemma query_screened sql ids :
  query_lobbies sql = Some ids → ids ≠ [] →
  has_forbidden_keyword sql = false ∧
  ∃ q, q ∈ str_split sql ";" 3 ∧ q ≠ EmptyString ∧ select q = Some ids.
Proof.
  unfold query_lobbies. intros Hq Hids.
  assert (drop_last_empty (str_split sql ";" 3) ⊆ str_split sql ";" 3) as Hsub.
  { unfold drop_last_empty. destruct (last _); [|done]. case_bool_decide; [|done].
    apply subseteq_take. }
  destruct (drop_last_empty _) as [|x l] eqn:E; [congruence|]. rewrite <-E in *.
  destruct (3 <? _); [done|]. destruct (has_forbidden_keyword sql); [done|].
  split; [done|]. apply run_queries_spec in Hq as (b & q & a & El & ? & ? & _); [|done].
  exists q. split; [|done]. apply Hsub. rewrite El. set_solver.
Qed.
End query.

(** Keywords count in any letter case, but not inside longer words. *)
Example screens_union : has_forbidden_keyword "1) union(select 1" = true.
Proof. reflexivity. Qed.
Example passes_updated : has_forbidden_keyword "updated_at > 3 AND c1 = 'x'" = false.
Proof. reflexivity. Qed.
