(* ===== verification/SqlText.v ===== *)
(** * The text comparisons of the database

    Models the functions of [sqlite3.c] that compare texts for a lobby's
    table of rooms: [sqlite3_stricmp], and the matcher behind
    [sqlite3_strlike] and [sqlite3_strglob], which jumps ahead to the next
    character that can match and gives up early.  A text is the list of its
    bytes up to the terminator, which reads as zero.  The matcher is proved
    equivalent to a declarative reading of patterns. *)

From S2P Require Import Prelude.
Open Scope Z_scope.

(** ** Tables *)

(** <src/sqlite3.c:23420-23437 sqlite3UpperToLower> *)
Definition sqlite3UpperToLower : list Z :=
  [0; 1; 2; 3; 4; 5; 6; 7; 8; 9; 10; 11; 12; 13; 14; 15;
   16; 17; 18; 19; 20; 21; 22; 23; 24; 25; 26; 27; 28; 29; 30; 31;
   32; 33; 34; 35; 36; 37; 38; 39; 40; 41; 42; 43; 44; 45; 46; 47;
   48; 49; 50; 51; 52; 53; 54; 55; 56; 57; 58; 59; 60; 61; 62; 63;
   64; 97; 98; 99; 100; 101; 102; 103; 104; 105; 106; 107; 108; 109; 110; 111;
   112; 113; 114; 115; 116; 117; 118; 119; 120; 121; 122; 91; 92; 93; 94; 95;
   96; 97; 98; 99; 100; 101; 102; 103; 104; 105; 106; 107; 108; 109; 110; 111;
   112; 113; 114; 115; 116; 117; 118; 119; 120; 121; 122; 123; 124; 125; 126; 127;
   128; 129; 130; 131; 132; 133; 134; 135; 136; 137; 138; 139; 140; 141; 142; 143;
   144; 145; 146; 147; 148; 149; 150; 151; 152; 153; 154; 155; 156; 157; 158; 159;
   160; 161; 162; 163; 164; 165; 166; 167; 168; 169; 170; 171; 172; 173; 174; 175;
   176; 177; 178; 179; 180; 181; 182; 183; 184; 185; 186; 187; 188; 189; 190; 191;
   192; 193; 194; 195; 196; 197; 198; 199; 200; 201; 202; 203; 204; 205; 206; 207;
   208; 209; 210; 211; 212; 213; 214; 215; 216; 217; 218; 219; 220; 221; 222; 223;
   224; 225; 226; 227; 228; 229; 230; 231; 232; 233; 234; 235; 236; 237; 238; 239;
   240; 241; 242; 243; 244; 245; 246; 247; 248; 249; 250; 251; 252; 253; 254; 255].

(** <src/sqlite3.c:23514-23550 sqlite3CtypeMap> *)
Definition sqlite3CtypeMap : list Z :=
  [0; 0; 0; 0; 0; 0; 0; 0; 0; 1; 1; 1; 1; 1; 0; 0;
   0; 0; 0; 0; 0; 0; 0; 0; 0; 0; 0; 0; 0; 0; 0; 0;
   1; 0; 128; 0; 64; 0; 0; 128; 0; 0; 0; 0; 0; 0; 0; 0;
   12; 12; 12; 12; 12; 12; 12; 12; 12; 12; 0; 0; 0; 0; 0; 0;
   0; 10; 10; 10; 10; 10; 10; 2; 2; 2; 2; 2; 2; 2; 2; 2;
   2; 2; 2; 2; 2; 2; 2; 2; 2; 2; 2; 128; 0; 0; 0; 64;
   128; 42; 42; 42; 42; 42; 42; 34; 34; 34; 34; 34; 34; 34; 34; 34;
   34; 34; 34; 34; 34; 34; 34; 34; 34; 34; 34; 0; 0; 0; 0; 0;
   64; 64; 64; 64; 64; 64; 64; 64; 64; 64; 64; 64; 64; 64; 64; 64;
   64; 64; 64; 64; 64; 64; 64; 64; 64; 64; 64; 64; 64; 64; 64; 64;
   64; 64; 64; 64; 64; 64; 64; 64; 64; 64; 64; 64; 64; 64; 64; 64;
   64; 64; 64; 64; 64; 64; 64; 64; 64; 64; 64; 64; 64; 64; 64; 64;
   64; 64; 64; 64; 64; 64; 64; 64; 64; 64; 64; 64; 64; 64; 64; 64;
   64; 64; 64; 64; 64; 64; 64; 64; 64; 64; 64; 64; 64; 64; 64; 64;
   64; 64; 64; 64; 64; 64; 64; 64; 64; 64; 64; 64; 64; 64; 64; 64;
   64; 64; 64; 64; 64; 64; 64; 64; 64; 64; 64; 64; 64; 64; 64; 64].

(** <src/sqlite3.c:35319-35328 sqlite3Utf8Trans1> *)
Definition sqlite3Utf8Trans1 : list Z :=
  [0; 1; 2; 3; 4; 5; 6; 7; 8; 9; 10; 11; 12; 13; 14; 15;
   16; 17; 18; 19; 20; 21; 22; 23; 24; 25; 26; 27; 28; 29; 30; 31;
   0; 1; 2; 3; 4; 5; 6; 7; 8; 9; 10; 11; 12; 13; 14; 15;
   0; 1; 2; 3; 4; 5; 6; 7; 0; 1; 2; 3; 0; 1; 0; 0].

(** <src/sqlite3.c:21278-21278 sqlite3Tolower> *)
Definition sqlite3Tolower (x : Z) : Z := nth (Z.to_nat (u8 x)) sqlite3UpperToLower 0.

(** <src/sqlite3.c:21272-21272 sqlite3Toupper> *)
Definition sqlite3Toupper (x : Z) : Z :=
  Z.land x (Z.lnot (Z.land (nth (Z.to_nat (u8 x)) sqlite3CtypeMap 0) 0x20)).

(** ** Reading *)

(** [*z] *)
Definition peek (z : list Z) : Z := match z with b :: _ => b | [] => 0 end.

(** The bytes that continue a character. *)
Fixpoint continuation (c : Z) (z : list Z) : Z * list Z :=
  match z with
  | b :: rest =>
      if Z.land b 0xc0 =? 0x80
      then continuation (u32 (Z.shiftl c 6 + Z.land 0x3f b)) rest
      else (c, z)
  | [] => (c, [])
  end.

(** <src/sqlite3.c:35442-35461 sqlite3Utf8Read>
    At the terminator the caller never looks at the pointer again. *)
Definition sqlite3Utf8Read (z : list Z) : Z * list Z :=
  match z with
  | [] => (0, [])
  | c :: z =>
      if 0xc0 <=? c then
        let '(c, z) := continuation (nth (Z.to_nat (c - 0xc0)) sqlite3Utf8Trans1 0) z in
        (if (c <? 0x80) || (Z.land c 0xFFFFF800 =? 0xD800)
            || (Z.land c 0xFFFFFFFE =? 0xFFFE)
         then 0xFFFD else c, z)
      else (c, z)
  end.

(** <src/sqlite3.c:132418-132418 Utf8Read> *)
Definition Utf8Read (z : list Z) : Z * list Z :=
  if peek z <? 0x80 then (peek z, tail z) else sqlite3Utf8Read z.

Fixpoint skip_continuation (z : list Z) : list Z :=
  match z with
  | b :: rest => if Z.land b 0xc0 =? 0x80 then skip_continuation rest else z
  | [] => []
  end.

(** <src/sqlite3.c:21213-21217 SQLITE_SKIP_UTF8> *)
Definition skip_utf8 (z : list Z) : list Z :=
  match z with
  | [] => []
  | b :: rest => if 0xc0 <=? b then skip_continuation rest else rest
  end.

(** ** Comparison without case *)

(** <src/sqlite3.c:36275-36301 sqlite3StrICmp> *)
Fixpoint sqlite3_stricmp (a b : list Z) : Z :=
  match a, b with
  | [], [] => 0
  | [], x :: _ => sqlite3Tolower 0 - sqlite3Tolower x
  | c :: _, [] => sqlite3Tolower c - sqlite3Tolower 0
  | c :: a, x :: b =>
      if c =? x then sqlite3_stricmp a b
      else
        let d := sqlite3Tolower c - sqlite3Tolower x in
        if d =? 0 then sqlite3_stricmp a b else d
  end.

(** ** Patterns *)

(** <src/sqlite3.c:132401-132406 compareInfo> *)
Record compareInfo := mkCompareInfo {
  matchAll : Z;
  matchOne : Z;
  matchSet : Z;
  noCase : bool;
}.

(** <src/sqlite3.c:132421-132421 globInfo> *)
Definition globInfo : compareInfo := mkCompareInfo 42 63 91 false.
(** <src/sqlite3.c:132424-132424 likeInfoNorm> *)
Definition likeInfoNorm : compareInfo := mkCompareInfo 37 95 0 true.

(** <src/sqlite3.c:132432-132432 SQLITE_MATCH> *)
Definition SQLITE_MATCH : Z := 0.
(** <src/sqlite3.c:132433-132433 SQLITE_NOMATCH> *)
Definition SQLITE_NOMATCH : Z := 1.
(** <src/sqlite3.c:132434-132434 SQLITE_NOWILDCARDMATCH> *)
Definition SQLITE_NOWILDCARDMATCH : Z := 2.

(** What a run of wildcards leaves: the string may end too early. *)
Inductive Skipped :=
  | RanOut
  | Reached (c : Z) (zPattern zString : list Z).

Section compare.
Context (pInfo : compareInfo) (matchOther : Z).

(** <src/sqlite3.c:132491-132496 patternCompare>
    [None] when the fuel is used up. *)
Fixpoint skip_wild (n : nat) (zPattern zString : list Z) : option Skipped :=
  match n with
  | O => None
  | S n =>
      let '(c, zPattern) := Utf8Read zPattern in
      if (c =? matchAll pInfo) || ((c =? matchOne pInfo) && negb (matchOne pInfo =? 0)) then
        if c =? matchOne pInfo then
          let '(x, zString) := sqlite3Utf8Read zString in
          if x =? 0 then Some RanOut else skip_wild n zPattern zString
        else skip_wild n zPattern zString
      else Some (Reached c zPattern zString)
  end.

(** <src/sqlite3.c:132507-132512 patternCompare>
    [matches] is the recursive call on the pattern from its set on. *)
Fixpoint search_set (n : nat) (matches : list Z → option Z) (zString : list Z) : option Z :=
  match n with
  | O => None
  | S n =>
      match zString with
      | [] => Some SQLITE_NOWILDCARDMATCH
      | _ =>
          bMatch ← matches zString;
          if bMatch =? SQLITE_NOMATCH then search_set n matches (skip_utf8 zString)
          else Some bMatch
      end
  end.

(** <src/sqlite3.c:132536-132542 patternCompare>
    The jump of [strcspn] over bytes that are not in [zStop] is the last
    branch. *)
Fixpoint search_stop (matches : list Z → option Z) (zStop zString : list Z) : option Z :=
  match zString with
  | [] => Some SQLITE_NOWILDCARDMATCH
  | b :: zString =>
      if existsb (Z.eqb b) zStop then
        bMatch ← matches zString;
        if bMatch =? SQLITE_NOMATCH then search_stop matches zStop zString
        else Some bMatch
      else search_stop matches zStop zString
  end.

(** <src/sqlite3.c:132543-132550 patternCompare> *)
Fixpoint search_char (n : nat) (matches : list Z → option Z) (c : Z) (zString : list Z) :
    option Z :=
  match n with
  | O => None
  | S n =>
      let '(c2, zString) := Utf8Read zString in
      if c2 =? 0 then Some SQLITE_NOWILDCARDMATCH
      else if negb (c2 =? c) then search_char n matches c zString
      else
        bMatch ← matches zString;
        if bMatch =? SQLITE_NOMATCH then search_char n matches c zString
        else Some bMatch
  end.

(** <src/sqlite3.c:132573-132585 patternCompare>
    The members of a set, [c2] being the character just read: whether [c] is
    one of them, the character that ended the set and what follows. *)
Fixpoint set_members (n : nat) (c prior_c c2 : Z) (seen : bool) (zPattern : list Z) :
    option (bool * Z * list Z) :=
  match n with
  | O => None
  | S n =>
      if (c2 =? 0) || (c2 =? 93) then Some (seen, c2, zPattern)
      else if (c2 =? 45) && negb (peek zPattern =? 93) && negb (peek zPattern =? 0)
              && (0 <? prior_c) then
        let '(c2, zPattern) := sqlite3Utf8Read zPattern in
        let seen := seen || ((prior_c <=? c) && (c <=? c2)) in
        let '(c2, zPattern) := sqlite3Utf8Read zPattern in
        set_members n c 0 c2 seen zPattern
      else
        let prior_c := c2 in
        let seen := seen || (c =? c2) in
        let '(c2, zPattern) := sqlite3Utf8Read zPattern in
        set_members n c prior_c c2 seen zPattern
  end.

(** <src/sqlite3.c:132559-132589 patternCompare>
    The pattern after a set that has the character [c]. *)
Definition match_set (c : Z) (zPattern : list Z) : option (option (list Z)) :=
  let n := S (length zPattern) in
  let '(c2, zPattern) := sqlite3Utf8Read zPattern in
  let '(invert, (c2, zPattern)) :=
    if c2 =? 94 then (true, sqlite3Utf8Read zPattern) else (false, (c2, zPattern)) in
  let '(seen, (c2, zPattern)) :=
    if c2 =? 93 then (c =? 93, sqlite3Utf8Read zPattern) else (false, (c2, zPattern)) in
  r ← set_members n c 0 c2 seen zPattern;
  let '(seen, c2, zPattern) := r in
  Some (if (c2 =? 0) || negb (xorb seen invert) then None else Some zPattern).

(** Whether two characters are the same, in any letter case if so asked. *)
Definition same_char (c c2 : Z) : bool :=
  (c =? c2)
  || (noCase pInfo && (sqlite3Tolower c =? sqlite3Tolower c2) && (c <? 0x80) && (c2 <? 0x80)).

(** <src/sqlite3.c:132474-132601 patternCompare>
    [&zPattern[-1]] is the pattern with its last byte, the opening bracket,
    back in front.  [zPattern==zEscaped] holds right after an escaped
    character only. *)
Fixpoint patternCompare (n : nat) (zPattern zString : list Z) : option Z :=
  match n with
  | O => None
  | S n =>
      let '(c, zPattern) := Utf8Read zPattern in
      if c =? 0 then Some (if peek zString =? 0 then SQLITE_MATCH else SQLITE_NOMATCH)
      else if c =? matchAll pInfo then
        r ← skip_wild (S (length zPattern)) zPattern zString;
        match r with
        | RanOut => Some SQLITE_NOWILDCARDMATCH
        | Reached c zPattern zString =>
            if c =? 0 then Some SQLITE_MATCH
            else if (c =? matchOther) && negb (matchSet pInfo =? 0) then
              search_set (S (length zString)) (patternCompare n (c :: zPattern)) zString
            else
              let '(c, zPattern) :=
                if c =? matchOther then sqlite3Utf8Read zPattern else (c, zPattern) in
              if c =? 0 then Some SQLITE_NOWILDCARDMATCH
              else if c <? 0x80 then
                search_stop (patternCompare n zPattern)
                  (if noCase pInfo then [sqlite3Toupper c; sqlite3Tolower c] else [c]) zString
              else search_char (S (length zString)) (patternCompare n zPattern) c zString
        end
      else if (c =? matchOther) && negb (matchSet pInfo =? 0) then
        let '(c, zString) := sqlite3Utf8Read zString in
        if c =? 0 then Some SQLITE_NOMATCH
        else
          r ← match_set c zPattern;
          match r with
          | None => Some SQLITE_NOMATCH
          | Some zPattern => patternCompare n zPattern zString
          end
      else
        let '(escaped, (c, zPattern)) :=
          if c =? matchOther then (true, sqlite3Utf8Read zPattern)
          else (false, (c, zPattern)) in
        if c =? 0 then Some SQLITE_NOMATCH
        else
          let '(c2, zString) := Utf8Read zString in
          if same_char c c2 then patternCompare n zPattern zString
          else if (c =? matchOne pInfo) && negb escaped && negb (c2 =? 0)
          then patternCompare n zPattern zString
          else Some SQLITE_NOMATCH
  end.
End compare.

(** Enough fuel: one more than the pattern has bytes. *)
Definition compare (pInfo : compareInfo) (matchOther : Z) (zPattern zString : list Z) : Z :=
  default SQLITE_NOMATCH
    (patternCompare pInfo matchOther (S (length zPattern)) zPattern zString).

(** <src/sqlite3.c:132607-132615 sqlite3_strglob> *)
Definition sqlite3_strglob (zGlobPattern zString : list Z) : Z :=
  compare globInfo 91 zGlobPattern zString.

(** <src/sqlite3.c:132621-132629 sqlite3_strlike> *)
Definition sqlite3_strlike (zPattern zStr : list Z) (esc : Z) : Z :=
  compare likeInfoNorm esc zPattern zStr.

Example like_any_case :
  sqlite3_strlike [37; 65; 95; 37] [98; 97; 99] 0 = SQLITE_MATCH.
Proof. reflexivity. Qed.
Example glob_set :
  sqlite3_strglob [42; 91; 97; 45; 99; 93; 120] [98; 97; 99; 120] = SQLITE_MATCH.
Proof. reflexivity. Qed.

(** ** Characters *)

(** The bytes of a text: anything but the terminator. *)
Definition text_ok (z : list Z) : Prop := Forall (λ b, 0 < b < 256) z.

(** The characters of a text. *)
Fixpoint decode_from (n : nat) (z : list Z) : list Z :=
  match n, z with
  | S n, _ :: _ => let '(c, z) := sqlite3Utf8Read z in c :: decode_from n z
  | _, _ => []
  end.
Definition decode (z : list Z) : list Z := decode_from (length z) z.

Lemma continuation_spec c z r z' :
  continuation c z = (r, z') → 0 ≤ c →
  0 ≤ r ∧ z' = skip_continuation z ∧
  ∃ cs, z = cs ++ z' ∧ Forall (λ b, Z.land b 0xc0 = 0x80) cs.
Proof.
  revert c. induction z as [|b z IH]; intros c; cbn [continuation skip_continuation].
  { intros [= <- <-]. intros. split; [done|]. split; [done|]. by exists []. }
  destruct (_ =? _) eqn:Hb.
  - intros Hc Hn. apply Z.eqb_eq in Hb.
    destruct (IH _ Hc) as (? & ? & cs & Ez & Hcs); [apply wrap_range; lia|].
    split; [done|]. split; [done|]. exists (b :: cs). split; [by rewrite Ez at 1|]. by constructor.
  - intros [= <- <-]. intros. split; [done|]. split; [done|]. by exists [].
Qed.

Lemma trans_nonneg i : 0 ≤ nth i sqlite3Utf8Trans1 0.
Proof.
  assert (Forall (λ x, 0 ≤ x) sqlite3Utf8Trans1) as H by (apply (bool_decide_unpack _); vm_compute; exact I).
  rewrite Forall_forall in H. destruct (nth_in_or_default i sqlite3Utf8Trans1 0) as [Hi| ->]; [|lia].
  by apply H, list_elem_of_In.
Qed.

(** Reading a text that has not ended: a character other than zero; an ASCII
    character is one byte, any other consists of other bytes. *)
Lemma read_spec b z :
  text_ok (b :: z) →
  ∃ c z', sqlite3Utf8Read (b :: z) = (c, z') ∧ 0 < c ∧ text_ok z' ∧
    skip_utf8 (b :: z) = z' ∧
    (length z' < length (b :: z))%nat ∧
    ((c < 0x80 ∧ b = c ∧ z' = z) ∨
     0x80 ≤ c ∧ 0x80 ≤ b ∧ ∃ cs, z = cs ++ z' ∧ Forall (λ x, Z.land x 0xc0 = 0x80) cs).
Proof.
  intros [Hb Hz]%Forall_cons. unfold sqlite3Utf8Read, skip_utf8.
  destruct (0xc0 <=? b) eqn:E; bools.
  - destruct (continuation _ z) as [c z'] eqn:Hc.
    apply continuation_spec in Hc as (Hc & -> & cs & Hcs & Hcont); [|apply trans_nonneg].
    eexists _, _. split; [done|].
    assert (length (skip_continuation z) ≤ length z)%nat as Hl.
    { rewrite Hcs at 2. rewrite length_app. lia. }
    assert (text_ok (skip_continuation z)) as Hok.
    { unfold text_ok. rewrite Hcs in Hz. by apply Forall_app in Hz as [_ ?]. }
    destruct (c <? 0x80) eqn:Hlt; bools; cbn [orb].
    + repeat split; [done..|cbn; lia|]. right. repeat split; [lia..|eauto].
    + destruct (_ || _).
      * repeat split; [done..|cbn; lia|]. right. repeat split; [lia..|eauto].
      * repeat split; [lia|done..|cbn; lia|]. right. repeat split; [lia..|eauto].
  - eexists _, _. split; [done|]. repeat split; [lia|done|cbn; lia|].
    destruct (decide (b < 0x80)); [by left|]. right. repeat split; [lia..|]. by exists [].
Qed.

Lemma decode_from_enough n z :
  text_ok z → (length z ≤ n)%nat → decode_from n z = decode z.
Proof.
  unfold decode. remember (length z) as k eqn:Hk.
  assert (length z ≤ k)%nat as Hz by lia. clear Hk. revert n k Hz.
  induction n as [|n IH] in z |- *; intros k Hz Hok Hn.
  { assert (k = 0%nat) as -> by lia. done. }
  destruct k as [|k]; [destruct z; [done|cbn in Hz; lia]|].
  destruct z as [|b z]; [done|]. cbn [decode_from].
  destruct (read_spec b z Hok) as (c & z' & -> & _ & Hok' & _ & Hl & _).
  f_equal. apply IH; [cbn in *; lia|done|lia].
Qed.

Lemma decode_cons b z c z' :
  text_ok (b :: z) → sqlite3Utf8Read (b :: z) = (c, z') → decode (b :: z) = c :: decode z'.
Proof.
  intros Hok Hr. unfold decode at 1. cbn [length decode_from]. rewrite Hr. f_equal.
  destruct (read_spec b z Hok) as (c0 & z0 & Hr0 & _ & Hok0 & _ & Hl & _).
  rewrite Hr in Hr0. injection Hr0 as <- <-. apply decode_from_enough; [done|cbn in Hl; lia].
Qed.

(** The fast reading macro is the same as the function. *)
Lemma fast_read z : text_ok z → Utf8Read z = sqlite3Utf8Read z.
Proof.
  intros Hok. unfold Utf8Read. destruct z as [|b z]; [done|]. cbn [peek tail].
  destruct (_ <? _) eqn:E; [|done]. bools. cbn [sqlite3Utf8Read].
  destruct (_ <=? _) eqn:E2; [|done]. bools. lia.
Qed.

(** Reading, as a case distinction. *)
Lemma read_view z :
  text_ok z →
  (z = [] ∧ sqlite3Utf8Read z = (0, []) ∧ decode z = [] ∧ peek z = 0) ∨
  ∃ c z', sqlite3Utf8Read z = (c, z') ∧ 0 < c ∧ text_ok z' ∧ z ≠ [] ∧
    skip_utf8 z = z' ∧ decode z = c :: decode z' ∧ (length z' < length z)%nat ∧
    (peek z < 0x80 ∨ c < 0x80 → z = c :: z') ∧ 0 < peek z.
Proof.
  intros Hok. destruct z as [|b z]; [by left|]. right.
  destruct (read_spec b z Hok) as (c & z' & Hr & Hc & Hok' & Hs & Hl & Hcase).
  exists c, z'. split; [done|]. split; [done|]. split; [done|]. split; [done|].
  split; [done|]. split; [by apply decode_cons|]. split; [done|].
  apply Forall_cons in Hok as [? _]. split; [|cbn; lia]. cbn [peek].
  destruct Hcase as [(? & -> & ->)|(? & ? & _)]; [done|lia].
Qed.

(** ** What a pattern means *)

(** The members of a set up to its closing bracket, as ranges, and what
    follows; a dash between two members makes a range of them, [prior] being
    the member before, if any. *)
Fixpoint set_ranges (prior : Z) (p : list Z) : option (list (Z * Z) * list Z) :=
  match p with
  | [] => None
  | c :: p =>
      if c =? 93 then Some ([], p)
      else match p with
      | hi :: q =>
          if (c =? 45) && (0 <? prior) && negb (hi =? 93) then
            r ← set_ranges 0 q; Some ((prior, hi) :: r.1, r.2)
          else r ← set_ranges c p; Some ((c, c) :: r.1, r.2)
      | [] => None
      end
  end.

(** A caret at the beginning inverts the set; a closing bracket at the
    beginning is a member. *)
Definition set_of (p : list Z) : option (bool * list (Z * Z) * list Z) :=
  let '(invert, p) := match p with c :: q => if c =? 94 then (true, q) else (false, p) | [] => (false, p) end in
  let '(first, p) := match p with c :: q => if c =? 93 then ([(93, 93)], q) else ([], p) | [] => ([], p) end in
  r ← set_ranges 0 p; Some (invert, first ++ r.1, r.2).

Definition in_ranges (x : Z) (l : list (Z * Z)) : bool :=
  existsb (λ r : Z * Z, (r.1 <=? x) && (x <=? r.2)) l.

Section meaning.
Context (pInfo : compareInfo) (matchOther : Z).

(** [matched p t]: the characters [t] match the pattern [p]. *)
Inductive matched : list Z → list Z → Prop :=
  | matched_end : matched [] []
  | matched_all p skipped t :
      matched p t → matched (matchAll pInfo :: p) (skipped ++ t)
  | matched_one p x t :
      matched p t → matched (matchOne pInfo :: p) (x :: t)
  | matched_set p invert ranges q x t :
      matchSet pInfo ≠ 0 → set_of p = Some (invert, ranges, q) →
      in_ranges x ranges ≠ invert → matched q t → matched (matchOther :: p) (x :: t)
  | matched_escape c p x t :
      matchSet pInfo = 0 → same_char pInfo c x = true → matched p t →
      matched (matchOther :: c :: p) (x :: t)
  | matched_char c p x t :
      c ≠ matchAll pInfo → c ≠ matchOne pInfo → c ≠ matchOther →
      same_char pInfo c x = true → matched p t → matched (c :: p) (x :: t).

(** The special characters are different, and a set opens with ASCII. *)
Record info_ok : Prop := {
  all_one : matchAll pInfo ≠ matchOne pInfo;
  all_other : matchAll pInfo ≠ matchOther;
  one_other : matchOne pInfo ≠ matchOther;
  all_nonzero : matchAll pInfo ≠ 0;
  one_nonzero : matchOne pInfo ≠ 0;
  set_ascii : matchSet pInfo ≠ 0 → 0 < matchOther < 0x80;
}.
Context (Hinfo : info_ok).

Lemma matched_nil_inv t : matched [] t ↔ t = [].
Proof. split; [by inversion 1|]. intros ->. constructor. Qed.

Lemma matched_all_inv p t :
  matched (matchAll pInfo :: p) t ↔ ∃ t', t' `suffix_of` t ∧ matched p t'.
Proof.
  destruct Hinfo. split.
  - inversion 1; subst; try congruence. eexists. split; [|done]. by eexists.
  - intros (t' & [k ->] & Hm). by constructor.
Qed.

Lemma matched_one_inv p t :
  matched (matchOne pInfo :: p) t ↔ ∃ x t', t = x :: t' ∧ matched p t'.
Proof.
  destruct Hinfo. split.
  - inversion 1; subst; try congruence. eauto.
  - intros (x & t' & -> & Hm). by constructor.
Qed.

Lemma matched_char_inv c p t :
  c ≠ matchAll pInfo → c ≠ matchOne pInfo → c ≠ matchOther →
  matched (c :: p) t ↔ ∃ x t', t = x :: t' ∧ same_char pInfo c x = true ∧ matched p t'.
Proof.
  intros. split.
  - inversion 1; subst; try congruence. eauto.
  - intros (x & t' & -> & ? & ?). by constructor.
Qed.

Lemma matched_escape_inv p t :
  matchSet pInfo = 0 →
  matched (matchOther :: p) t ↔
  ∃ c q x t', p = c :: q ∧ t = x :: t' ∧ same_char pInfo c x = true ∧ matched q t'.
Proof.
  destruct Hinfo. intros Hs. split.
  - inversion 1; subst; try congruence. naive_solver.
  - intros (c & q & x & t' & -> & -> & ? & ?). by apply matched_escape.
Qed.

Lemma matched_set_inv p t :
  matchSet pInfo ≠ 0 →
  matched (matchOther :: p) t ↔
  ∃ invert ranges q x t', set_of p = Some (invert, ranges, q) ∧ t = x :: t' ∧
    in_ranges x ranges ≠ invert ∧ matched q t'.
Proof.
  destruct Hinfo. intros Hs. split.
  - inversion 1; subst; try congruence. naive_solver.
  - intros (i & r & q & x & t' & ? & -> & ? & ?). by eapply matched_set.
Qed.

(** ** Verdicts *)

(** What the outcome [r] of matching says about a pattern, given as the
    texts it matches: without a match behind a wildcard there is none further
    on either. *)
Definition hopeless (P : list Z → Prop) (t : list Z) : Prop :=
  ∀ t', t' `suffix_of` t → ¬ P t'.
Definition verdict (P : list Z → Prop) (t : list Z) (r : Z) : Prop :=
  (r = SQLITE_MATCH ∧ P t) ∨ (r = SQLITE_NOMATCH ∧ ¬ P t)
  ∨ (r = SQLITE_NOWILDCARDMATCH ∧ hopeless P t).

Lemma hopeless_suffix P t t' : t' `suffix_of` t → hopeless P t → hopeless P t'.
Proof. intros Ht Hh u Hu. apply Hh. by trans t'. Qed.

(** One character of the text for the first element of the pattern. *)
Lemma verdict_step (P Q : list Z → Prop) x t r :
  (∀ u, P u → ∃ y u', u = y :: u' ∧ Q u') → (P (x :: t) ↔ Q t) →
  verdict Q t r → verdict P (x :: t) r.
Proof.
  intros Hstep Heq [[-> Hq]|[[-> Hq]|[-> Hq]]]; [left|right; left|right; right].
  - by rewrite Heq.
  - by rewrite Heq.
  - split; [done|]. intros u Hu (y & u' & -> & Hu')%Hstep. apply (Hq u'); [|done].
    apply suffix_cons_inv in Hu as [[= -> ->]|Hu]; [done|].
    trans (y :: u'); [by apply suffix_cons_r|done].
Qed.

Lemma verdict_all p t :
  ¬ matched (matchAll pInfo :: p) t →
  verdict (matched (matchAll pInfo :: p)) t SQLITE_NOWILDCARDMATCH.
Proof.
  intros Hm. right; right. split; [done|]. intros t' Ht' Hm'. apply Hm.
  apply matched_all_inv in Hm' as (u & Hu & ?). apply matched_all_inv.
  exists u. split; [by trans t'|done].
Qed.
End meaning.

(** ** Sets *)

Lemma peek_ascii z c : text_ok z → c < 0x80 → (peek z =? c) = (peek (decode z) =? c).
Proof.
  intros Hok Hc.
  destruct (read_view z Hok) as [(-> & _ & -> & _)|(x & z' & _ & _ & _ & _ & _ & -> & _ & Ha & _)]; [done|].
  cbn [peek]. destruct (decide (peek z < 0x80 ∨ x < 0x80)) as [Hd|Hd].
  - by rewrite Ha.
  - rewrite !(proj2 (Z.eqb_neq _ _)) by lia. done.
Qed.

(** Reading the members of a set, the next one not yet read. *)
Lemma set_members_spec n c prior seen z c2 p :
  text_ok z → sqlite3Utf8Read z = (c2, p) → (length z < n)%nat →
  match set_ranges prior (decode z) with
  | None => ∃ s p', set_members n c prior c2 seen p = Some (s, 0, p')
  | Some (ranges, q) =>
      ∃ p', set_members n c prior c2 seen p = Some (seen || in_ranges c ranges, 93, p') ∧
        decode p' = q ∧ text_ok p' ∧ (length p' < length z)%nat
  end.
Proof.
  revert prior seen z c2 p. induction n as [|n IH]; intros prior seen z c2 p Hok Hr Hn; [lia|].
  destruct (read_view z Hok) as [(-> & Hr' & -> & _)|(x & z' & Hr' & Hx & Hok' & _ & _ & -> & Hl & _)];
    rewrite Hr in Hr'; injection Hr' as -> ->; cbn [set_members set_ranges].
  { eexists _, _. done. }
  rewrite (proj2 (Z.eqb_neq x 0)) by lia. cbn [orb].
  destruct (x =? 93) eqn:E93; bools.
  { subst. exists z'. rewrite orb_false_r. done. }
  destruct (sqlite3Utf8Read z') as [y z''] eqn:Hr2.
  pose proof (λ s, IH x s z' y z'' Hok' Hr2 ltac:(lia)) as Hlit.
  destruct (read_view z' Hok') as [(-> & Hr' & Hd & Hp)|(y' & z3 & Hr' & Hy & Hok3 & _ & _ & Hd & Hl3 & Ha & Hp)];
    rewrite Hr2 in Hr'; injection Hr' as -> ->.
  - rewrite Hd, Hp in *. cbn [negb Z.eqb]. rewrite andb_false_r. cbn [andb].
    destruct (Hlit (seen || (c =? x))) as (s & p' & E). by exists s, p'.
  - rewrite Hd in *. cbv beta iota.
    rewrite (proj2 (Z.eqb_neq (peek z') 0)) by lia. cbn [negb]. rewrite andb_true_r.
    assert ((peek z' =? 93) = (y' =? 93)) as ->.
    { by rewrite peek_ascii, Hd. }
    replace ((x =? 45) && negb (y' =? 93) && (0 <? prior))
      with ((x =? 45) && (0 <? prior) && negb (y' =? 93))
      by (rewrite <-!andb_assoc; f_equal; apply andb_comm).
    destruct ((x =? 45) && (0 <? prior) && negb (y' =? 93)).
    + destruct (sqlite3Utf8Read z3) as [w z4] eqn:Hr3.
      pose proof (IH 0 (seen || ((prior <=? c) && (c <=? y'))) z3 w z4 Hok3 Hr3 ltac:(lia)) as Hrec.
      destruct (set_ranges 0 (decode z3)) as [[ranges q]|]; cbn; [|done].
      destruct Hrec as (p' & -> & ? & ? & ?). exists p'.
      split; [by rewrite <-orb_assoc|]. repeat split; [done..|lia].
    + specialize (Hlit (seen || (c =? x))).
      destruct (set_ranges x (y' :: decode z3)) as [[ranges q]|]; cbn; [|done].
      destruct Hlit as (p' & -> & ? & ? & ?). exists p'. split; [|repeat split; [done..|lia]].
      rewrite <-orb_assoc. do 5 f_equal. rewrite Z.eqb_sym.
      destruct (x =? c) eqn:E; bools; symmetry; [apply andb_true_iff|apply andb_false_iff];
        rewrite ?Z.leb_le, ?Z.leb_gt; lia.
Qed.

(** A character that may come first, in bytes and in characters. *)
Lemma lead_spec {A B} (k : Z) (a a' : A) (b b' : B) z :
  text_ok z → 0 < k →
  ∃ r z1, text_ok z1 ∧ (length z1 ≤ length z)%nat ∧
    (let '(c, p) := sqlite3Utf8Read z in
     if c =? k then (a, sqlite3Utf8Read p) else (a', (c, p)))
      = (if r : bool then a else a', sqlite3Utf8Read z1) ∧
    match decode z with
    | c :: q => if c =? k then (b, q) else (b', decode z)
    | [] => (b', decode z)
    end = (if r then b else b', decode z1).
Proof.
  intros Hok Hk.
  destruct (read_view z Hok) as [(-> & -> & -> & _)|(c & z' & Hr & Hc & Hok' & _ & _ & Hd & Hl & _)].
  - exists false, []. rewrite (proj2 (Z.eqb_neq _ _)) by lia. done.
  - rewrite Hr, Hd. destruct (c =? k).
    + exists true, z'. repeat split; [done|lia].
    + exists false, z. rewrite Hr, Hd. done.
Qed.

Lemma match_set_spec c z :
  text_ok z →
  match set_of (decode z) with
  | None => match_set c z = Some None
  | Some (invert, ranges, q) =>
      if eqb (in_ranges c ranges) invert then match_set c z = Some None
      else ∃ p', match_set c z = Some (Some p') ∧ decode p' = q ∧ text_ok p' ∧
             (length p' < length z)%nat
  end.
Proof.
  intros Hok. unfold match_set, set_of.
  destruct (lead_spec 94 true false true false z Hok) as (i & z1 & Hok1 & Hl1 & E1 & F1); [done|].
  rewrite F1. destruct (sqlite3Utf8Read z) as [c1 p1]. rewrite E1. clear E1 F1 c1 p1.
  destruct (lead_spec 93 (c =? 93) false [(93, 93)] [] z1 Hok1) as (f & z2 & Hok2 & Hl2 & E2 & F2);
    [done|].
  rewrite F2. destruct (sqlite3Utf8Read z1) as [c1 p1]. rewrite E2. clear E2 F2 c1 p1.
  destruct (sqlite3Utf8Read z2) as [c2 p] eqn:Hr.
  pose proof (set_members_spec (S (length z)) c 0 (if f then c =? 93 else false)
    z2 c2 p Hok2 Hr ltac:(lia)) as Hm.
  destruct (set_ranges 0 (decode z2)) as [[ranges q]|]; cbn [mbind option_bind fst snd].
  - destruct Hm as (p' & -> & Hq & Hok' & Hl). cbn [Z.eqb orb].
    assert (in_ranges c ((if f then [(93, 93)] else []) ++ ranges)
      = (if f then c =? 93 else false) || in_ranges c ranges) as ->.
    { unfold in_ranges. rewrite existsb_app. f_equal. destruct f; [|done]. cbn. lia. }
    destruct (_ || _), i; cbn; eauto with lia.
  - by destruct Hm as (s & p' & ->).
Qed.

(** ** Searching behind a wildcard *)

Section search.
Context (P : list Z → Prop) (matches : list Z → option Z) (limit : nat).
Context (Hmatches : ∀ z, text_ok z →
  ∃ r, matches z = Some r ∧ verdict P (decode z) r).

(** A place where a character the search looks for is followed by a match. *)
Definition found (Q : Z → bool) (t : list Z) : Prop :=
  ∃ before x u, t = before ++ x :: u ∧ Q x = true ∧ P u.

Lemma found_cons Q x t : found Q (x :: t) ↔ (Q x = true ∧ P t) ∨ found Q t.
Proof.
  split.
  - intros ([|y b] & x' & u & [= -> ->] & ? & ?); [by left|]. right. by exists b, x', u.
  - intros [[? ?]|(b & x' & u & -> & ? & ?)]; [by exists [], x, t|]. by exists (x :: b), x', u.
Qed.

Lemma found_nil Q : ¬ found Q [].
Proof. by intros ([] & ? & ? & [=] & _). Qed.

Lemma hopeless_not_found Q t : hopeless P t → ¬ found Q t.
Proof.
  intros Hh (b & x & u & -> & _ & Hu). apply (Hh u); [|done].
  apply suffix_app_r. by apply suffix_cons_r.
Qed.

(** The outcome of a search. *)
Definition searched (F : Prop) (r : Z) : Prop :=
  (r = SQLITE_MATCH ∧ F) ∨ (r = SQLITE_NOWILDCARDMATCH ∧ ¬ F).

Lemma searched_iff F G r : (F ↔ G) → searched F r → searched G r.
Proof. unfold searched. tauto. Qed.

(** One candidate: stop unless it failed and a later one may succeed. *)
Lemma search_one Q x t r (k : option Z) :
  Q x = true → verdict P t r → (∃ r', k = Some r' ∧ searched (found Q t) r') →
  ∃ r', (if r =? SQLITE_NOMATCH then k else Some r) = Some r' ∧
    searched (found Q (x :: t)) r'.
Proof.
  intros Hx [[-> Hp]|[[-> Hp]|[-> Hp]]] Hk; cbn [Z.eqb SQLITE_MATCH SQLITE_NOMATCH SQLITE_NOWILDCARDMATCH Pos.eqb].
  - eexists. split; [done|]. left. rewrite found_cons. auto.
  - destruct Hk as (r' & -> & Hk). exists r'. split; [done|].
    eapply searched_iff; [|exact Hk]. rewrite found_cons. tauto.
  - eexists. split; [done|]. right. split; [done|]. rewrite found_cons.
    intros [[_ Ht]|Hf]; [by apply (Hp t)|]. by eapply hopeless_not_found.
Qed.

Lemma search_char_spec n c z :
  text_ok z → 0 < c → (length z < n)%nat →
  ∃ r, search_char n matches c z = Some r ∧ searched (found (λ x, x =? c) (decode z)) r.
Proof.
  revert z. induction n as [|n IH]; intros z Hok Hc Hn; [lia|].
  cbn [search_char]. rewrite fast_read by done.
  destruct (read_view z Hok) as [(-> & -> & -> & _)|(x & z' & -> & Hx & Hok' & _ & _ & -> & Hl & _)].
  - eexists. split; [done|]. right. split; [done|apply found_nil].
  - rewrite (proj2 (Z.eqb_neq x 0)) by lia.
    destruct (IH z' Hok' Hc ltac:(lia)) as (r' & Hr' & Hs').
    destruct (x =? c) eqn:E; cbn [negb].
    + destruct (Hmatches z' Hok') as (r & -> & Hv). cbn [mbind option_bind].
      eapply search_one; eauto.
    + exists r'. split; [done|]. eapply searched_iff; [|exact Hs'].
      rewrite found_cons. naive_solver congruence.
Qed.

Lemma search_stop_skip stop cs z :
  Forall (λ b, existsb (Z.eqb b) stop = false) cs →
  search_stop matches stop (cs ++ z) = search_stop matches stop z.
Proof. induction 1 as [|b cs Hb _ IH]; [done|]. cbn [app search_stop]. by rewrite Hb. Qed.

(** The bytes jumped over are whole characters, for the search looks for
    ASCII characters only. *)
Lemma search_stop_spec stop z :
  text_ok z → Forall (λ c, 0 < c < 0x80) stop →
  ∃ r, search_stop matches stop z = Some r ∧
    searched (found (λ x, existsb (Z.eqb x) stop) (decode z)) r.
Proof.
  intros Hok Hstop. remember (length z) as n eqn:Hn.
  assert (length z ≤ n)%nat as Hle by lia. clear Hn. revert z Hok Hle.
  induction n as [|n IH]; intros z Hok Hle.
  { destruct z; [|cbn in Hle; lia]. eexists. split; [done|]. right.
    split; [done|apply found_nil]. }
  destruct z as [|b z].
  { eexists. split; [done|]. right. split; [done|apply found_nil]. }
  assert (∀ x, 0x80 ≤ x → existsb (Z.eqb x) stop = false) as Hbig.
  { intros x Hx. apply not_true_iff_false. rewrite existsb_exists.
    intros (y & Hy & E). bools. rewrite Forall_forall in Hstop.
    apply list_elem_of_In, Hstop in Hy. lia. }
  destruct (read_spec b z Hok) as (c & z' & Hr & Hc & Hok' & _ & Hl & Hcase).
  rewrite (decode_cons _ _ _ _ Hok Hr).
  destruct (IH z' Hok' ltac:(cbn in *; lia)) as (r' & Hr' & Hs').
  destruct Hcase as [(Ha & -> & ->)|(Hca & Hba & cs & -> & Hcs)].
  - cbn [search_stop]. destruct (existsb _ stop) eqn:E.
    + destruct (Hmatches z Hok') as (r & -> & Hv). cbn [mbind option_bind].
      by eapply (search_one (λ x, existsb (Z.eqb x) stop)); eauto.
    + exists r'. split; [done|]. eapply searched_iff; [|exact Hs'].
      rewrite found_cons, E. naive_solver.
  - exists r'. split.
    + rewrite <-Hr'. cbn [search_stop]. rewrite Hbig by done. apply search_stop_skip.
      apply Forall_cons in Hok as [_ Hok]. apply Forall_app in Hok as [Hok _].
      clear -Hcs Hok Hbig. induction Hcs as [|x cs Hx _ IH]; [constructor|].
      apply Forall_cons in Hok as [Hx' Hok]. constructor; [|by apply IH].
      apply Hbig. destruct (decide (x < 0x80)); [|lia].
      assert (Z.testbit (Z.land x 0xc0) 7 = true) as Hb by (by rewrite Hx).
      rewrite Z.land_spec in Hb. apply andb_prop in Hb as [Hb _].
      assert (Z.testbit x 7 = false); [|congruence].
      apply Z.bits_above_log2; [lia|]. apply Z.log2_lt_pow2; lia.
    + eapply searched_iff; [|exact Hs']. rewrite found_cons, Hbig by done. naive_solver.
Qed.

Lemma search_set_spec n z :
  text_ok z → ¬ P [] → (length z < n)%nat →
  ∃ r, search_set n matches z = Some r ∧
    searched (∃ t, t `suffix_of` decode z ∧ P t) r.
Proof.
  revert z. induction n as [|n IH]; intros z Hok Hnil Hn; [lia|].
  destruct (read_view z Hok) as [(-> & _ & -> & _)|(x & z' & Hr & Hx & Hok' & Hne & Hs & Hd & Hl & _)].
  - eexists. split; [done|]. right. split; [done|].
    intros (t & Ht & HP). apply suffix_nil_inv in Ht as ->. done.
  - cbn [search_set]. destruct (Hmatches z Hok) as (r & Hm & Hv).
    destruct z as [|b z0]; [done|]. rewrite Hm, Hs, Hd in *. cbn [mbind option_bind].
    destruct (IH z' Hok' Hnil ltac:(lia)) as (r' & Hr' & Hs').
    destruct Hv as [[-> Hp]|[[-> Hp]|[-> Hp]]]; cbn [Z.eqb SQLITE_MATCH SQLITE_NOMATCH SQLITE_NOWILDCARDMATCH Pos.eqb].
    + eexists. split; [done|]. left. eauto.
    + exists r'. split; [done|]. eapply searched_iff; [|exact Hs'].
      split; intros (t & Ht & HP); exists t; (split; [|done]); [by apply suffix_cons_r|].
      destruct t as [|y t]; [done|]. apply suffix_cons_inv in Ht as [E|?]; [|done].
      by rewrite E in HP.
    + eexists. split; [done|]. right. split; [done|]. intros (t & Ht & HP). by apply (Hp t).
Qed.
End search.

(** ** The matcher *)

Lemma decode_positive z : text_ok z → Forall (λ c, 0 < c) (decode z).
Proof.
  remember (length z) as n eqn:Hn. revert z Hn.
  induction (Nat.lt_wf_0 n) as [n _ IH]. intros z -> Hok.
  destruct (read_view z Hok) as [(_ & _ & -> & _)|(c & z' & _ & Hc & Hok' & _ & _ & -> & Hl & _)];
    [done|]. constructor; [done|]. by eapply IH.
Qed.

Lemma found_iff P Q Q' t :
  Forall (λ x, Q x = Q' x) t → found P Q t ↔ found P Q' t.
Proof.
  induction 1 as [|x t Hx _ IH]; [split; by intros ?%found_nil|].
  by rewrite !found_cons, IH, Hx.
Qed.

(** The two letters the search stops at are the letters that are the same. *)
Lemma stop_chars pInfo c :
  0 < c < 0x80 →
  let stop := if noCase pInfo then [sqlite3Toupper c; sqlite3Tolower c] else [c] in
  Forall (λ x, 0 < x < 0x80) stop ∧
  ∀ x, 0 < x → existsb (Z.eqb x) stop = same_char pInfo c x.
Proof.
  intros Hc. cbn zeta. unfold same_char. destruct (noCase pInfo).
  2:{ split; [by constructor|]. intros x Hx. cbn. by rewrite !orb_false_r, Z.eqb_sym. }
  assert (forallb (λ n, let c := Z.of_nat n in
    (0 <? sqlite3Toupper c) && (sqlite3Toupper c <? 0x80)
    && (0 <? sqlite3Tolower c) && (sqlite3Tolower c <? 0x80)
    && forallb (λ m, let x := Z.of_nat m in
         Bool.eqb (existsb (Z.eqb x) [sqlite3Toupper c; sqlite3Tolower c])
           ((c =? x) || (sqlite3Tolower c =? sqlite3Tolower x))) (seq 1 127))
    (seq 1 127) = true) as Hall by (vm_compute; reflexivity).
  rewrite forallb_forall in Hall. specialize (Hall (Z.to_nat c)).
  cbv zeta in Hall. rewrite Z2Nat.id in Hall by lia.
  specialize (Hall ltac:(apply in_seq; lia)).
  apply andb_prop in Hall as [Hr Hall]. bools.
  split; [by repeat constructor|]. intros x Hx.
  rewrite (proj2 (Z.ltb_lt c _)), andb_true_r by lia. cbn [andb].
  destruct (x <? 0x80) eqn:E; bools.
  - rewrite andb_true_r. rewrite forallb_forall in Hall. specialize (Hall (Z.to_nat x)).
    cbv zeta in Hall. rewrite Z2Nat.id in Hall by lia.
    apply Bool.eqb_prop, Hall, in_seq. lia.
  - rewrite andb_false_r, orb_false_r. cbn [existsb].
    rewrite !(proj2 (Z.eqb_neq _ _)) by lia. done.
Qed.

Section matcher.
Context (pInfo : compareInfo) (matchOther : Z) (Hinfo : info_ok pInfo matchOther).
Abbreviation all := (matchAll pInfo).
Abbreviation mt := (matched pInfo matchOther).

(** The rest of the pattern behind wildcards, [c] being its first character. *)
Definition rest_of (c : Z) (p : list Z) : list Z := if c =? 0 then [] else c :: decode p.

Lemma skip_wild_spec n p s :
  text_ok p → text_ok s → (length p < n)%nat →
  (skip_wild pInfo n p s = Some RanOut ∧ ¬ mt (all :: decode p) (decode s)) ∨
  ∃ c p' s', skip_wild pInfo n p s = Some (Reached c p' s') ∧
    text_ok p' ∧ text_ok s' ∧ 0 ≤ c ∧ c ≠ all ∧ c ≠ matchOne pInfo ∧
    (c ≠ 0 → (length p' < length p)%nat) ∧
    (mt (all :: decode p) (decode s) ↔ mt (all :: rest_of c p') (decode s')).
Proof.
  pose proof Hinfo as [H1 H2 H3 H4 H5 H6].
  revert p s. induction n as [|n IH]; intros p s Hp Hs Hn; [lia|].
  cbn [skip_wild]. rewrite fast_read by done.
  destruct (read_view p Hp) as [(-> & -> & -> & _)|(c & p' & -> & Hc & Hp' & _ & _ & -> & Hl & _)].
  { rewrite (proj2 (Z.eqb_neq 0 all)), (proj2 (Z.eqb_neq 0 (matchOne pInfo))) by congruence.
    cbn [orb andb].
    right. exists 0, [], s. do 4 (split; [done|]). split; [congruence|].
    split; [congruence|done]. }
  rewrite (proj2 (Z.eqb_neq (matchOne pInfo) 0)) by done. cbn [negb]. rewrite andb_true_r.
  destruct (c =? all) eqn:Ea; bools.
  - subst c. rewrite (proj2 (Z.eqb_neq _ _)) by done. cbn [orb].
    assert (mt (all :: all :: decode p') (decode s) ↔ mt (all :: decode p') (decode s)) as Hiff.
    { rewrite (matched_all_inv _ _ Hinfo). split.
      - intros (t & Ht & (u & Hu & ?)%(matched_all_inv _ _ Hinfo)).
        apply (matched_all_inv _ _ Hinfo). exists u. split; [by trans t|done].
      - intros ?. by exists (decode s). }
    destruct (IH p' s Hp' Hs ltac:(lia)) as [[? Hn']|(c & q & t & ? & ? & ? & ? & ? & ? & Hlt & Hm)];
          [left; by rewrite Hiff|].
    right. exists c, q, t. do 6 (split; [done|]). split; [|by rewrite Hiff].
      intros Hc0. specialize (Hlt Hc0). lia.
  - destruct (c =? matchOne pInfo) eqn:Eo; bools; cbn [orb].
    + subst c. destruct (read_view s Hs) as [(-> & -> & -> & _)|(x & s' & -> & Hx & Hs' & _ & _ & -> & _)].
      * left. split; [done|]. rewrite (matched_all_inv _ _ Hinfo).
        intros (t & ->%suffix_nil_inv & (? & ? & [=] & _)%(matched_one_inv _ _ Hinfo)).
      * rewrite (proj2 (Z.eqb_neq x 0)) by lia.
        assert (mt (all :: matchOne pInfo :: decode p') (x :: decode s')
                ↔ mt (all :: decode p') (decode s')) as Hiff.
        { rewrite !(matched_all_inv _ _ Hinfo). split.
          - intros (t & Ht & (y & u & -> & Hu)%(matched_one_inv _ _ Hinfo)).
            exists u. split; [|done]. apply suffix_cons_inv in Ht as [[= -> ->]|Ht]; [done|].
            trans (y :: u); [by apply suffix_cons_r|done].
          - intros (t & [k Hk] & Ht). destruct (decide (k = [])) as [->|Hne].
            + exists (x :: t). cbn in Hk. rewrite Hk. split; [done|]. by constructor.
            + destruct (exists_last Hne) as (k' & y & ->).
              exists (y :: t). split; [|by constructor]. exists (x :: k').
              rewrite Hk. by rewrite <-app_assoc. }
        destruct (IH p' s' Hp' Hs' ltac:(lia)) as [[? Hn']|(c & q & t & ? & ? & ? & ? & ? & ? & Hlt & Hm)];
          [left; by rewrite Hiff|].
        right. exists c, q, t. do 6 (split; [done|]). split; [|by rewrite Hiff].
      intros Hc0. specialize (Hlt Hc0). lia.
    + right. exists c, p', s. unfold rest_of. rewrite (proj2 (Z.eqb_neq c 0)) by lia.
      do 3 (split; [done|]). split; [lia|]. do 3 (split; [done|]). done.
Qed.

(** What is known of the recursive calls, on shorter patterns. *)
Definition matches_below (n : nat) : Prop := ∀ p z,
  text_ok p → text_ok z → (length p < n)%nat →
  ∃ r, patternCompare pInfo matchOther n p z = Some r ∧ verdict (mt (decode p)) (decode z) r.

Lemma char_search n c p z :
  matches_below n → text_ok p → text_ok z → (length p < n)%nat → 0 < c →
  ∃ r,
    (if c <? 0x80 then
       search_stop (patternCompare pInfo matchOther n p)
         (if noCase pInfo then [sqlite3Toupper c; sqlite3Tolower c] else [c]) z
     else search_char (S (length z)) (patternCompare pInfo matchOther n p) c z) = Some r ∧
    searched (found (mt (decode p)) (same_char pInfo c) (decode z)) r.
Proof.
  intros Hbelow Hp Hz Hn Hc.
  assert (∀ z, text_ok z → ∃ r, patternCompare pInfo matchOther n p z = Some r ∧
    verdict (mt (decode p)) (decode z) r) as Hm by auto.
  pose proof (decode_positive z Hz) as Hpos.
  destruct (c <? 0x80) eqn:E; bools.
  - destruct (stop_chars pInfo c) as [Hstop Hsame]; [lia|].
    destruct (search_stop_spec _ _ Hm _ z Hz Hstop) as (r & Hr & Hs).
    exists r. split; [exact Hr|]. eapply searched_iff; [|exact Hs]. apply found_iff.
    eapply Forall_impl; [exact Hpos|]. cbn. auto.
  - destruct (search_char_spec _ _ Hm (S (length z)) c z) as (r & Hr & Hs); [done|lia|lia|].
    exists r. split; [exact Hr|]. eapply searched_iff; [|exact Hs]. apply found_iff.
    eapply Forall_impl; [exact Hpos|]. intros x Hx. unfold same_char.
    rewrite (proj2 (Z.ltb_ge c _)), andb_false_r by lia. cbn [andb].
    by rewrite orb_false_r, Z.eqb_sym.
Qed.

Lemma verdict_searched p F z r :
  (F ↔ mt (all :: p) z) → searched F r → verdict (mt (all :: p)) z r.
Proof.
  intros HF [[-> Hf]|[-> Hf]]; [left; split; [done|by apply HF]|].
  apply verdict_all; [done|]. by rewrite <-HF.
Qed.

(** Behind a wildcard, the first element of the pattern decides where. *)
Lemma all_found (Q : Z → bool) p q t :
  (∀ t, mt p t ↔ ∃ x u, t = x :: u ∧ Q x = true ∧ mt q u) →
  found (mt q) Q t ↔ mt (all :: p) t.
Proof.
  intros Hp. rewrite (matched_all_inv _ _ Hinfo). split.
  - intros (b & x & u & -> & ? & ?). exists (x :: u). split; [by eexists|].
    apply Hp. eauto.
  - intros (t' & [b ->] & (x & u & -> & ? & ?)%Hp). by exists b, x, u.
Qed.

Lemma decode_ascii c p :
  text_ok p → 0 < c < 0x80 → text_ok (c :: p) ∧ decode (c :: p) = c :: decode p.
Proof.
  intros Hp Hc. assert (text_ok (c :: p)) as Hok by (constructor; [lia|done]).
  split; [done|]. apply decode_cons; [done|]. cbn [sqlite3Utf8Read].
  by rewrite (proj2 (Z.leb_gt _ _)) by lia.
Qed.

Lemma wild_case n p z :
  matches_below n → text_ok p → text_ok z → (length p < n)%nat →
  ∃ r,
    (r ← skip_wild pInfo (S (length p)) p z;
     match r with
     | RanOut => Some SQLITE_NOWILDCARDMATCH
     | Reached c p z =>
         if c =? 0 then Some SQLITE_MATCH
         else if (c =? matchOther) && negb (matchSet pInfo =? 0) then
           search_set (S (length z)) (patternCompare pInfo matchOther n (c :: p)) z
         else
           let '(c, p) := if c =? matchOther then sqlite3Utf8Read p else (c, p) in
           if c =? 0 then Some SQLITE_NOWILDCARDMATCH
           else if c <? 0x80 then
             search_stop (patternCompare pInfo matchOther n p)
               (if noCase pInfo then [sqlite3Toupper c; sqlite3Tolower c] else [c]) z
           else search_char (S (length z)) (patternCompare pInfo matchOther n p) c z
     end) = Some r ∧
    verdict (mt (all :: decode p)) (decode z) r.
Proof.
  pose proof Hinfo as [H1 H2 H3 H4 H5 H6]. intros Hbelow Hp Hz Hn.
  destruct (skip_wild_spec (S (length p)) p z Hp Hz ltac:(lia))
    as [[-> Hno]|(c & q & t & -> & Hq & Ht & Hc & Hca & Hco & Hl & Hiff)].
  { eexists. split; [done|]. by apply verdict_all. }
  cbn [mbind option_bind].
  assert (∀ r F, (F ↔ mt (all :: rest_of c q) (decode t)) → searched F r →
    verdict (mt (all :: decode p)) (decode z) r) as Hdone.
  { intros r F HF. apply verdict_searched. by rewrite Hiff. }
  unfold rest_of in *. destruct (c =? 0) eqn:E0; bools.
  { eexists. split; [done|]. left. split; [done|]. apply Hiff.
    apply (matched_all_inv _ _ Hinfo). exists []. split; [apply suffix_nil|constructor]. }
  specialize (Hl E0). destruct (c =? matchOther) eqn:Eo; cbn [andb].
  - bools. subst c. destruct (matchSet pInfo =? 0) eqn:Es; bools; cbn [negb].
    + destruct (read_view q Hq) as [(-> & -> & Hd & _)|(c & q' & -> & Hc' & Hq' & _ & _ & Hd & Hl' & _)].
      * eexists. split; [done|]. apply (Hdone _ False); [|right; split; [done|tauto]].
        rewrite Hd. split; [done|]. rewrite (matched_all_inv _ _ Hinfo).
        intros (u & _ & (? & ? & ? & ? & [=] & _)%(matched_escape_inv _ _ Hinfo)); done.
      * rewrite (proj2 (Z.eqb_neq c 0)) by lia.
        destruct (char_search n c q' t) as (r & Hr & Hs); [done..|lia|done|].
        exists r. split; [exact Hr|]. eapply Hdone; [|exact Hs]. rewrite Hd.
        apply all_found. intros u. rewrite (matched_escape_inv _ _ Hinfo) by done. naive_solver.
    + destruct (decode_ascii matchOther q Hq (H6 Es)) as [Hok Hd].
      destruct (search_set_spec (mt (matchOther :: decode q))
        (patternCompare pInfo matchOther n (matchOther :: q))) with (n := S (length t)) (z := t)
        as (r & Hr & Hs); [|done| |lia|].
      * intros w Hw. destruct (Hbelow (matchOther :: q) w) as (r & ? & Hv); [done..|cbn; lia|].
        rewrite Hd in Hv. eauto.
      * by intros (? & ? & ? & ? & ? & _ & [=] & _)%(matched_set_inv _ _ Hinfo).
      * exists r. split; [exact Hr|]. eapply Hdone; [|exact Hs].
        by rewrite (matched_all_inv _ _ Hinfo).
  - bools. rewrite (proj2 (Z.eqb_neq c 0)) by done.
    destruct (char_search n c q t) as (r & Hr & Hs); [done..|lia|lia|].
    exists r. split; [exact Hr|]. eapply Hdone; [|exact Hs].
    apply all_found. intros u. by apply matched_char_inv.
Qed.

(** One character of the pattern against one of the text; [any] when it is
    the wildcard for one character. *)
Lemma char_case n (P : list Z → Prop) c (any : bool) q z :
  matches_below n → text_ok q → text_ok z → (length q < n)%nat → 0 < c →
  (∀ t, P t ↔ ∃ x u, t = x :: u ∧ same_char pInfo c x || any = true ∧ mt (decode q) u) →
  ∃ r,
    (let '(c2, z) := Utf8Read z in
     if same_char pInfo c c2 then patternCompare pInfo matchOther n q z
     else if any && negb (c2 =? 0) then patternCompare pInfo matchOther n q z
     else Some SQLITE_NOMATCH) = Some r ∧ verdict P (decode z) r.
Proof.
  intros Hbelow Hq Hz Hn Hc HP. rewrite fast_read by done.
  assert (∀ t, ¬ P t → verdict P t SQLITE_NOMATCH) as Hno by (right; left; done).
  destruct (read_view z Hz) as [(-> & -> & Hdz & _)|(x & z' & -> & Hx & Hz' & _ & _ & -> & _)].
  - assert (same_char pInfo c 0 = false) as ->.
    { unfold same_char. rewrite (proj2 (Z.eqb_neq c 0)) by lia. cbn [orb].
      destruct (c <? 0x80) eqn:E; [|by rewrite andb_false_r]. bools.
      destruct (sqlite3Tolower c =? sqlite3Tolower 0) eqn:El; [|by rewrite andb_false_r]. bools.
      pose proof (stop_chars likeInfoNorm c ltac:(lia)) as [Hs _]. cbn [noCase likeInfoNorm] in Hs.
      apply Forall_cons in Hs as [_ [Hs _]%Forall_cons].
      change (sqlite3Tolower 0) with 0 in El. lia. }
    cbn [Z.eqb negb]. rewrite andb_false_r. eexists. split; [done|]. apply Hno. rewrite Hdz, HP.
    by intros (? & ? & [=] & _).
  - rewrite (proj2 (Z.eqb_neq x 0)), andb_true_r by lia.
    destruct (same_char pInfo c x || any) eqn:E.
    + destruct (Hbelow q z' Hq Hz' Hn) as (r & Hr & Hv). exists r. split.
      { destruct (same_char _ _ _); [done|]. cbn [orb] in E. by rewrite E. }
      eapply (verdict_step P (mt (decode q))); [| |exact Hv].
      * intros u (y & u' & -> & _ & ?)%HP. eauto.
      * rewrite HP. naive_solver.
    + apply orb_false_elim in E as [E1 E2]. rewrite E1, E2. eexists. split; [done|].
      apply Hno. rewrite HP. intros (? & ? & [= <- <-] & E & _). by rewrite E1, E2 in E.
Qed.

(** A set of characters against one character of the text. *)
Lemma set_case n q z :
  matches_below n → text_ok q → text_ok z → (length q < n)%nat → matchSet pInfo ≠ 0 →
  ∃ r,
    (let '(c, z) := sqlite3Utf8Read z in
     if c =? 0 then Some SQLITE_NOMATCH
     else
       r ← match_set c q;
       match r with
       | None => Some SQLITE_NOMATCH
       | Some q => patternCompare pInfo matchOther n q z
       end) = Some r ∧ verdict (mt (matchOther :: decode q)) (decode z) r.
Proof.
  intros Hbelow Hq Hz Hn Hset0. assert (∀ t, mt (matchOther :: decode q) t → t ≠ []) as Hne.
  { by intros t (? & ? & ? & ? & ? & _ & -> & _)%(matched_set_inv _ _ Hinfo). }
  destruct (read_view z Hz) as [(-> & -> & Hdz & _)|(x & z' & -> & Hx & Hz' & _ & _ & -> & _)].
  { eexists. split; [done|]. right; left. split; [done|]. rewrite Hdz. intros Hm. by apply Hne in Hm. }
  rewrite (proj2 (Z.eqb_neq x 0)) by lia.
  pose proof (match_set_spec x q Hq) as Hset.
  destruct (set_of (decode q)) as [[[invert ranges] rest]|] eqn:Eset.
  + destruct (Bool.eqb _ _) eqn:Ein.
    * rewrite Hset. cbn [mbind option_bind]. eexists. split; [done|]. right; left. split; [done|].
      apply Bool.eqb_prop in Ein.
      intros (? & ? & ? & ? & ? & E & [= <- <-] & ? & _)%(matched_set_inv _ _ Hinfo); [|done].
      rewrite Eset in E. congruence.
    * destruct Hset as (q' & -> & Hdq & Hq' & Hl'). cbn [mbind option_bind].
      destruct (Hbelow q' z' Hq' Hz' ltac:(lia)) as (r & Hr & Hv). exists r. split; [exact Hr|].
      rewrite Hdq in Hv. apply eqb_false_iff in Ein.
      eapply (verdict_step _ (mt rest)); [| |exact Hv].
      -- intros u (? & ? & ? & y & u' & E & -> & ? & ?)%(matched_set_inv _ _ Hinfo); [|done].
         rewrite Eset in E. injection E as <- <- <-. eauto.
      -- rewrite (matched_set_inv _ _ Hinfo) by done. rewrite Eset. naive_solver.
  + rewrite Hset. cbn [mbind option_bind]. eexists. split; [done|]. right; left. split; [done|].
    intros (? & ? & ? & ? & ? & E & _)%(matched_set_inv _ _ Hinfo); [|done]. congruence.
Qed.

(** With more fuel than the pattern has bytes the matcher decides, and its
    three outcomes mean what they say. *)
Lemma patternCompare_spec n : matches_below n.
Proof.
  pose proof Hinfo as [H1 H2 H3 H4 H5 H6].
  induction n as [|n IH]; intros p z Hp Hz Hn; [lia|].
  cbn [patternCompare]. rewrite fast_read by done.
  destruct (read_view p Hp) as [(-> & -> & -> & _)|(c & q & -> & Hc & Hq & _ & _ & Hd & Hl & _)].
  { eexists. split; [done|].
    destruct (read_view z Hz) as [(-> & _ & -> & _)|(x & z' & _ & _ & _ & _ & _ & -> & _ & _ & Hx)].
    - left. split; [done|constructor].
    - rewrite (proj2 (Z.eqb_neq _ _)) by lia. right; left. split; [done|]. by inversion 1. }
  rewrite Hd, (proj2 (Z.eqb_neq c 0)) by lia.
  destruct (c =? all) eqn:Ea; bools.
  { subst c. apply wild_case; [done..|lia]. }
  destruct ((c =? matchOther) && negb (matchSet pInfo =? 0)) eqn:Es; bools.
  - subst c. apply set_case; [done..|lia|done].
  - destruct (c =? matchOther) eqn:Eo; cbn [negb andb] in *.
    + bools. subst c. destruct (read_view q Hq) as [(-> & -> & -> & _)|(c & q' & -> & Hc' & Hq' & _ & _ & -> & Hl' & _)].
      { eexists. split; [done|]. right; left. split; [done|].
        by intros (? & ? & ? & ? & [=] & _)%(matched_escape_inv _ _ Hinfo). }
      rewrite (proj2 (Z.eqb_neq c 0)) by lia. cbn [negb]. rewrite andb_false_r.
      apply char_case; [done..|lia|done|]. intros t. rewrite (matched_escape_inv _ _ Hinfo) by done.
      setoid_rewrite orb_false_r. naive_solver.
    + rewrite (proj2 (Z.eqb_neq c 0)) by lia. cbn [negb]. rewrite andb_true_r.
      apply char_case; [done..|lia|done|]. intros t. destruct (c =? matchOne pInfo) eqn:E1; bools.
      * subst c. rewrite (matched_one_inv _ _ Hinfo). setoid_rewrite orb_true_r. naive_solver.
      * setoid_rewrite orb_false_r. by apply matched_char_inv.
Qed.
End matcher.

Lemma like_info : info_ok likeInfoNorm 0.
Proof. by split. Qed.
Lemma glob_info : info_ok globInfo 91.
Proof. by split. Qed.

(** C16: [LIKE] and [GLOB] as a lobby's table uses them: on every pattern and
    every text they answer, and the answer is a match exactly when the
    characters of the text match the pattern as documented, [%] or [*] standing for
    any sequence and [_] or [?] for any character, letters of either case being
    the same for [LIKE] only, sets of characters for [GLOB] only.  The jump to
    the next character that can match, and giving up once the rest fails
    behind a wildcard, never miss a match. *)
Theorem like_glob_spec pattern text :
  text_ok pattern → text_ok text →
  (sqlite3_strlike pattern text 0 = SQLITE_MATCH
     ↔ matched likeInfoNorm 0 (decode pattern) (decode text)) ∧
  (sqlite3_strglob pattern text = SQLITE_MATCH
     ↔ matched globInfo 91 (decode pattern) (decode text)).
Proof.
  intros Hp Ht.
  assert (∀ pInfo other, info_ok pInfo other →
    compare pInfo other pattern text = SQLITE_MATCH
    ↔ matched pInfo other (decode pattern) (decode text)) as Hcompare;
    [|split; apply Hcompare; [apply like_info|apply glob_info]].
  intros pInfo other Hinfo. unfold compare.
  destruct (patternCompare_spec pInfo other Hinfo (S (length pattern)) pattern text)
    as (r & -> & Hv); [done..|lia|]. cbn [default].
  destruct Hv as [[-> ?]|[[-> ?]|[-> Hh]]]; [done|done|].
  split; [done|]. intros Hm. by destruct (Hh (decode text)).
Qed.

(** The pattern [a%_Z] and the text [AxYz]. *)
Lemma like_glob_spec_witness :
  text_ok [97; 37; 95; 90] ∧ text_ok [65; 120; 89; 122] ∧
  matched likeInfoNorm 0 (decode [97; 37; 95; 90]) (decode [65; 120; 89; 122]).
Proof.
  assert (text_ok [97; 37; 95; 90] ∧ text_ok [65; 120; 89; 122]) as [Hp Ht]
    by (split; repeat constructor).
  split; [exact Hp|]. split; [exact Ht|].
  apply (like_glob_spec _ _ Hp Ht). vm_compute. reflexivity.
Defined.
