(* ===== verification/DataModel.v ===== *)
(** * Request models

    Models [data_model.hpp]: a request is described by a list of parameter
    specifications, decoded in one pass over the parameters it carries and
    encoded back.  The C++ model is a template over the specifications; here
    it is a function of them.  A field keeps an [option] of its payload: a
    required parameter never holds [None].  Enumerations are carried as their
    wire integer together with the set of their enumerators. *)

From S2P Require Import Prelude Values Types.
Open Scope Z_scope.

(** <include/luxon/server/data_model.hpp:88-99 detail::WireType>
    The payload types the server's models use. *)
Inductive WireType :=
  | TBool | TByte | TInt16 | TInt32 | TInt64 | TString | TBytes | TBools
  | TInts | TStrings | TObjects | THashtable.

#[export] Instance WireType_eq_dec : EqDecision WireType.
Proof. solve_decision. Defined.

(** The alternative of [ser::Value] that holds a payload. *)
Definition wire_alt (t : WireType) : Alt :=
  match t with
  | TBool => ABool | TByte => AByte | TInt16 => AInt16 | TInt32 => AInt32
  | TInt64 => AInt64 | TString => AString | TBytes => ABytes
  | TBools => ABools | TInts => AInt32s | TStrings => AStrings
  | TObjects => AObjects | THashtable => AHashtable
  end.

(** <include/luxon/server/data_model.hpp:127-172 value_type_name> *)
Definition value_type_name (a : Alt) : string :=
  match a with
  | ANull => "null" | ABool => "bool" | AByte => "byte" | AInt16 => "int16"
  | AInt32 => "int32" | AInt64 => "int64" | AFloat => "float"
  | ADouble => "double" | AString => "string" | ABytes => "byte[]"
  | ABools => "bool[]" | AInt16s => "int16[]" | AInt32s => "int32[]"
  | AInt64s => "int64[]" | AFloats => "float[]" | ADoubles => "double[]"
  | AStrings => "string[]" | AObjects => "object[]"
  | ADictionary => "dictionary<byte,value>"
  | AHashtable => "hashtable<value,value>" | ACustom => "custom"
  | _ => "unknown"
  end.

Section model.
Context `{Ser}.

(** A hashtable payload is a shared pointer, which may be null. *)
Definition carrier (t : WireType) : Type :=
  match t with
  | TBool => bool
  | TByte | TInt16 | TInt32 | TInt64 => Z
  | TString => string
  | TBytes | TInts => list Z
  | TBools => list bool
  | TStrings => list string
  | TObjects => list Value
  | THashtable => option Hashtable
  end.

(** [src.get_ptr<wire_type>()] *)
Definition get_ptr (t : WireType) : Value → option (carrier t) :=
  match t return Value → option (carrier t) with
  | TBool => get_bool
  | TByte => get_byte
  | TInt16 => get_int16
  | TInt32 => get_int32
  | TInt64 => get_int64
  | TString => get_string
  | TBytes => get_bytes
  | TBools => get_bools
  | TInts => get_ints
  | TStrings => get_strings
  | TObjects => get_list
  | THashtable => λ v, if decide (kind v = AHashtable) then Some (get_table v) else None
  end.

(** [ser::Value{v}] *)
Definition put_value (t : WireType) : carrier t → Value :=
  match t return carrier t → Value with
  | TBool => of_bool
  | TByte => of_byte
  | TInt16 => of_int16
  | TInt32 => of_int32
  | TInt64 => of_int64
  | TString => of_string
  | TBytes => of_bytes
  | TBools => of_bools
  | TInts => of_ints
  | TStrings => of_strings
  | TObjects => of_list
  | THashtable => λ p, match p with Some tbl => of_table tbl | None => of_null_table end
  end.

(** [value_type{}] *)
Definition zero_value (t : WireType) : carrier t :=
  match t return carrier t with
  | TBool => false
  | TByte | TInt16 | TInt32 | TInt64 => 0
  | TString => EmptyString
  | TBytes | TInts => []
  | TBools => []
  | TStrings => []
  | TObjects => []
  | THashtable => None
  end.

(** <include/luxon/server/data_model.hpp:248-262 Parameter> *)
Record ParameterSpec := mkParameter {
  ty : WireType;
  wire_key : Z;
  optional : bool;
  default_provider : option (carrier ty);
  enum_contains : option (carrier ty → bool);
}.

Definition has_default (p : ParameterSpec) : bool :=
  bool_decide (is_Some (default_provider p)).

(** <include/luxon/server/data_model.hpp:217-240 detail::make_missing_error>
    The decoding errors, with what their messages mention; each becomes a
    response [OperationInvalid] to the request. *)
Inductive DecodeError :=
  | Missing (key : Z) (expected : Alt)
  | RequiredNull (key : Z) (expected : Alt)
  | TypeMismatch (key : Z) (expected got : Alt)
  | InvalidEnumValue (key : Z).

(** <include/luxon/server/data_model.hpp:299-311 ViewField>
    A decoded parameter. *)
Record ViewField := mkView {
  spec : ParameterSpec;
  value : option (carrier (ty spec));
}.

(** <include/luxon/server/data_model.hpp:314-337 ViewField::make_default> *)
Definition make_default (p : ParameterSpec) : option (carrier (ty p)) :=
  match default_provider p with
  | Some d => Some d
  | None => if optional p then None else Some (zero_value (ty p))
  end.

(** The state of one parameter during decoding: its storage, [seen[I]] and
    [errs[I]]. *)
Record Slot := mkSlot {
  view : ViewField;
  seen : bool;
  err : option DecodeError;
}.

Definition init_slot (p : ParameterSpec) : Slot := mkSlot (mkView p (make_default p)) false None.

(** <include/luxon/server/data_model.hpp:423-460 ModelView::decode_one_into> *)
Definition decode_one_into (src : Value) (s : Slot) : Slot :=
  let p := spec (view s) in
  if is_null src then
    if optional p then mkSlot (mkView p None) true (err s)
    else if has_default p then mkSlot (view s) true (err s)
    else mkSlot (view s) true (Some (RequiredNull (wire_key p) (wire_alt (ty p))))
  else match get_ptr (ty p) src with
  | None =>
      mkSlot (view s) true
        (Some (TypeMismatch (wire_key p) (wire_alt (ty p)) (kind src)))
  | Some x =>
      if match enum_contains p with Some ok => ok x | None => true end
      then mkSlot (mkView p (Some x)) true (err s)
      else mkSlot (view s) true (Some (InvalidEnumValue (wire_key p)))
  end.

(** <include/luxon/server/data_model.hpp:467-476 ModelView::make_handlers>
    The table entry of a key: the last parameter with that key. *)
Fixpoint handler_of (ps : list ParameterSpec) (k : Z) : option nat :=
  match ps with
  | [] => None
  | p :: ps =>
      match handler_of ps k with
      | Some i => Some (S i)
      | None => if wire_key p =? k then Some 0%nat else None
      end
  end.

(** <include/luxon/server/data_model.hpp:494-499 ModelView::decode> *)
Definition decode_step (ps : list ParameterSpec) (slots : list Slot) (kv : Z * Value) :
    list Slot :=
  match handler_of ps kv.1 with
  | Some i => alter (decode_one_into kv.2) i slots
  | None => slots
  end.

(** <include/luxon/server/data_model.hpp:506-520 ModelView::decode> *)
Definition check_one (s : Slot) : option DecodeError :=
  match err s with
  | Some e => Some e
  | None =>
      let p := spec (view s) in
      if seen s || optional p || has_default p then None
      else Some (Missing (wire_key p) (wire_alt (ty p)))
  end.

Fixpoint check_all (slots : list Slot) : DecodeError + list ViewField :=
  match slots with
  | [] => inr []
  | s :: slots =>
      match check_one s with
      | Some e => inl e
      | None => match check_all slots with
                | inl e => inl e
                | inr vs => inr (view s :: vs)
                end
      end
  end.

(** <include/luxon/server/data_model.hpp:482-529 ModelView::decode>
    [l] is the request's parameter list in its iteration order. *)
Definition decode_in (ps : list ParameterSpec) (l : list (Z * Value)) :
    DecodeError + list ViewField :=
  check_all (foldl (decode_step ps) (init_slot <$> ps) l).

(** <include/luxon/server/data_model.hpp:482-529 ModelView::decode> *)
Definition decode (ps : list ParameterSpec) (params : ParameterList) :
    DecodeError + list ViewField :=
  decode_in ps (map_to_list params).

(** <include/luxon/server/data_model.hpp:603-629 Model::encode>
    One parameter ([put_one]); [None] is the enumeration error. *)
Definition put_one (params : ParameterList) (f : ViewField) : option ParameterList :=
  match value f with
  | None => Some params
  | Some x =>
      if match enum_contains (spec f) with Some ok => ok x | None => true end
      then Some (<[wire_key (spec f) := put_value (ty (spec f)) x]> params)
      else None
  end.

(** <include/luxon/server/data_model.hpp:631-635 Model::encode> *)
Fixpoint encode_onto (params : ParameterList) (fs : list ViewField) :
    option ParameterList :=
  match fs with
  | [] => Some params
  | f :: fs => params ← put_one params f; encode_onto params fs
  end.

(** <include/luxon/server/data_model.hpp:597-636 Model::encode> *)
Definition encode (fs : list ViewField) : option ParameterList := encode_onto ∅ fs.

(** <include/luxon/server/data_model.hpp:368-388 ModelView::get>
    The field under a key, read at its payload type. *)
Definition get_field (t : WireType) (k : Z) (fs : list ViewField) :
    option (carrier t) :=
  match find_first (λ f, wire_key (spec f) =? k) fs with
  | None => None
  | Some f =>
      match decide (ty (spec f) = t) with
      | left e => match e in _ = t return option (carrier t) with eq_refl => value f end
      | right _ => None
      end
  end.
End model.

(** ** Facts *)

Section facts.
Context `{SerLaws}.
Implicit Types (p : ParameterSpec) (s : Slot) (f : ViewField).

(** What a parameter decodes to from the value it is given, if any. *)
Definition field_of p (src : option Value) : DecodeError + ViewField :=
  match src with
  | None =>
      if optional p || has_default p then inr (mkView p (make_default p))
      else inl (Missing (wire_key p) (wire_alt (ty p)))
  | Some v =>
      let s := decode_one_into v (init_slot p) in
      match err s with Some e => inl e | None => inr (view s) end
  end.

(** The reference decoder: each parameter is looked up on its own. *)
Fixpoint decode_fields (ps : list ParameterSpec) (params : ParameterList) :
    DecodeError + list ViewField :=
  match ps with
  | [] => inr []
  | p :: ps =>
      match field_of p (params !! wire_key p) with
      | inl e => inl e
      | inr f => match decode_fields ps params with
                 | inl e => inl e
                 | inr fs => inr (f :: fs)
                 end
      end
  end.

Lemma handler_of_Some ps k i :
  handler_of ps k = Some i → ∃ p, ps !! i = Some p ∧ wire_key p = k.
Proof.
  revert i. induction ps as [|p ps IH]; [done|]. intros i. cbn.
  destruct (handler_of ps k) as [j|].
  - intros [= <-]. by apply IH.
  - destruct (Z.eqb_spec (wire_key p) k); [|done]. intros [= <-]. by exists p.
Qed.

Lemma handler_of_key ps i p :
  NoDup (wire_key <$> ps) → ps !! i = Some p → handler_of ps (wire_key p) = Some i.
Proof.
  revert i. induction ps as [|q ps IH]; [done|]. intros i.
  rewrite fmap_cons, NoDup_cons. intros [Hq Hn] Hi. cbn [handler_of].
  destruct i as [|i]; cbn in Hi.
  - injection Hi as ->. destruct (handler_of ps (wire_key p)) as [j|] eqn:Hj.
    + destruct (handler_of_Some _ _ _ Hj) as (p' & Hp' & E). exfalso. apply Hq.
      rewrite <-E. apply list_elem_of_fmap_2. by eapply list_elem_of_lookup_2.
    + by rewrite Z.eqb_refl.
  - by rewrite (IH i) by done.
Qed.

(** The slot of parameter [p] after the parameters [l] were visited. *)
Definition slot_after p (l : list (Z * Value)) : Slot :=
  match list_to_map (M := gmap Z Value) l !! wire_key p with
  | Some v => decode_one_into v (init_slot p)
  | None => init_slot p
  end.

Lemma decode_loop ps l :
  NoDup (wire_key <$> ps) → NoDup l.*1 →
  foldl (decode_step ps) (init_slot <$> ps) l = (λ p, slot_after p l) <$> ps.
Proof.
  intros Hps. induction l as [|[k v] l IH] using rev_ind; intros Hl.
  { apply list_fmap_ext. intros. unfold slot_after. cbn. done. }
  rewrite fmap_app, NoDup_app in Hl. destruct Hl as (Hl & Hk & _).
  rewrite foldl_app, IH by done. cbn [foldl]. unfold decode_step. cbn [fst snd].
  assert (k ∉ l.*1) as Hkl by (intros Hin; by apply (Hk k Hin); left).
  assert (∀ p, slot_after p (l ++ [(k, v)]) =
    if decide (wire_key p = k) then decode_one_into v (init_slot p) else slot_after p l)
    as Hslot.
  { intros p. unfold slot_after. rewrite list_to_map_snoc by done.
    destruct (decide (wire_key p = k)) as [->|Hne].
    - by rewrite lookup_insert_eq.
    - by rewrite lookup_insert_ne by congruence. }
  apply list_eq. intros i. rewrite list_lookup_fmap.
  destruct (ps !! i) as [p|] eqn:Hi; cbn.
  - rewrite Hslot. destruct (decide (wire_key p = k)) as [<-|Hne].
    + rewrite (handler_of_key ps i p) by done.
      rewrite list_lookup_alter_eq, list_lookup_fmap, Hi. cbn. f_equal. f_equal.
      unfold slot_after. by rewrite not_elem_of_list_to_map_1.
    + destruct (handler_of ps k) as [j|] eqn:Hj.
      * destruct (handler_of_Some _ _ _ Hj) as (q & Hq & E).
        rewrite list_lookup_alter_ne by congruence. by rewrite list_lookup_fmap, Hi.
      * by rewrite list_lookup_fmap, Hi.
  - destruct (handler_of ps k) as [j|]; [|by rewrite list_lookup_fmap, Hi].
    destruct (decide (j = i)) as [->|].
    + by rewrite list_lookup_alter_eq, list_lookup_fmap, Hi.
    + by rewrite list_lookup_alter_ne, list_lookup_fmap, Hi by done.
Qed.

Lemma check_slot p l :
  check_one (slot_after p l) =
  match field_of p (list_to_map (M := gmap Z Value) l !! wire_key p) with
  | inl e => Some e
  | inr _ => None
  end ∧
  (∀ f, field_of p (list_to_map (M := gmap Z Value) l !! wire_key p) = inr f →
     view (slot_after p l) = f).
Proof.
  unfold slot_after, field_of.
  destruct (list_to_map l !! wire_key p) as [v|].
  - unfold check_one.
    assert (seen (decode_one_into v (init_slot p)) = true) as ->.
    { unfold decode_one_into. cbn [view spec init_slot]. destruct (is_null v).
      - by destruct (optional p), (has_default p).
      - destruct (get_ptr (ty p) v) as [x|]; [|done].
        by destruct (match enum_contains p with Some ok => ok x | None => true end). }
    destruct (err (decode_one_into v (init_slot p))); [done|].
    split; [done|]. by intros f [= <-].
  - unfold check_one. cbn. destruct (optional p || has_default p); [|done].
    split; [done|]. by intros f [= <-].
Qed.

Lemma decode_in_fields ps params l :
  NoDup (wire_key <$> ps) → l ≡ₚ map_to_list params →
  decode_in ps l = decode_fields ps params.
Proof.
  intros Hps Hl.
  assert (NoDup l.*1) as Hn by (rewrite Hl; apply NoDup_fst_map_to_list).
  assert (list_to_map l = params) as <-.
  { rewrite <-(list_to_map_to_list params). by apply list_to_map_proper. }
  unfold decode_in. rewrite decode_loop by done. clear Hl Hn Hps.
  induction ps as [|p ps IH]; [done|]. rewrite fmap_cons. cbn [check_all decode_fields].
  destruct (check_slot p l) as [-> Hv].
  destruct (field_of p (list_to_map l !! wire_key p)) as [e|f]; [done|].
  by rewrite (Hv f eq_refl), IH.
Qed.

(** C14: When the parameters of a request model have distinct keys the one-pass
    decoder, whatever the order in which it visits the request, gives each
    parameter the result of looking its key up on its own, and otherwise
    reports the error of the first parameter that has one, in the order of
    the model. *)
Theorem decode_by_lookup ps (params : ParameterList) (l : list (Z * Value)) :
  NoDup (wire_key <$> ps) → l ≡ₚ map_to_list params →
  decode_in ps l = decode_fields ps params.
Proof. apply decode_in_fields. Qed.

(** ** Encoding *)

(** A field its own decoder can produce and its encoder does not drop: a
    payload that is a valid enumerator, or nothing for an optional parameter
    without default. *)
Definition encodable f : Prop :=
  match value f with
  | None => optional (spec f) = true ∧ default_provider (spec f) = None
  | Some x => match enum_contains (spec f) with Some ok => ok x = true | None => True end
  end.

Lemma get_put t (x : carrier t) :
  is_null (put_value t x) = false ∧ get_ptr t (put_value t x) = Some x.
Proof.
  split.
  - destruct t; cbn [put_value];
      [ unfold is_null; rewrite acc_kind; by rewrite bool_decide_eq_false..|].
    destruct x as [tbl|].
    + by apply (acc_not_null of_table get_table).
    + unfold is_null. cbn. by rewrite null_table_kind, bool_decide_eq_false.
  - destruct t; cbn [put_value get_ptr]; [apply acc_get..|]. destruct x as [tbl|]; cbn.
    + by rewrite (acc_kind (get := get_table)), decide_True, acc_get.
    + by rewrite null_table_kind, decide_True, null_table_get.
Qed.

Lemma field_of_put f :
  encodable f →
  field_of (spec f) (put_value (ty (spec f)) <$> value f) = inr f.
Proof.
  destruct f as [p [x|]]; unfold encodable; cbn [spec value fmap option_fmap option_map].
  - intros Hok. unfold field_of, decode_one_into. cbn [view init_slot spec].
    destruct (get_put (ty p) x) as [-> ->].
    destruct (enum_contains p); [|done]. by rewrite Hok.
  - intros [Ho Hd]. unfold field_of, make_default. by rewrite Ho, Hd.
Qed.

Lemma encode_onto_lookup fs params :
  NoDup (wire_key <$> (spec <$> fs)) → Forall encodable fs →
  ∃ params', encode_onto params fs = Some params' ∧
    (∀ f, f ∈ fs → value f ≠ None →
       params' !! wire_key (spec f) = put_value (ty (spec f)) <$> value f) ∧
    (∀ f, f ∈ fs → value f = None →
       params' !! wire_key (spec f) = params !! wire_key (spec f)) ∧
    (∀ k, k ∉ wire_key <$> (spec <$> fs) → params' !! k = params !! k).
Proof.
  intros Hn Hv. revert params Hn.
  induction Hv as [|f fs Hf Hfs IH]; intros params.
  { intros _. exists params. split; [done|]. split; [|split; [|done]];
      intros f Hin; by apply not_elem_of_nil in Hin. }
  rewrite !fmap_cons, NoDup_cons. intros [Hk Hn]. cbn [encode_onto].
  assert (∃ q, put_one params f = Some q ∧
    q !! wire_key (spec f) = (match value f with
      | Some x => Some (put_value (ty (spec f)) x) | None => params !! wire_key (spec f) end) ∧
    (∀ k, k ≠ wire_key (spec f) → q !! k = params !! k)) as (q & -> & Hq & Hqo).
  { unfold put_one. unfold encodable in Hf. destruct (value f) as [x|]; [|by eexists].
    destruct (enum_contains (spec f)) as [ok|]; [rewrite Hf|];
      (eexists; split; [done|]; split; [apply lookup_insert_eq|];
       intros k Hne; by rewrite lookup_insert_ne by congruence). }
  destruct (IH q Hn) as (params' & E & Hs & Hnone & Ho). cbn [mbind option_bind].
  exists params'. split; [done|]. split; [|split].
  - intros g [->|Hg]%elem_of_cons Hne; [|by apply Hs].
    rewrite Ho, Hq by done. by destruct (value f).
  - intros g [->|Hg]%elem_of_cons Hvn.
    + rewrite Ho, Hq by done. by rewrite Hvn.
    + rewrite Hnone by done. apply Hqo. intros E'. apply Hk. rewrite <-E'.
      by do 2 apply list_elem_of_fmap_2.
  - intros k [Hk1 Hk2]%not_elem_of_cons. by rewrite Ho, Hqo.
Qed.

(** Encoding a model whose keys are distinct and whose fields are
    encodable succeeds, and decoding the parameters with the same model gives
    every field back. *)
Theorem model_roundtrip fs :
  NoDup (wire_key <$> (spec <$> fs)) → Forall encodable fs →
  ∃ params, encode fs = Some params ∧ decode (spec <$> fs) params = inr fs.
Proof.
  intros Hn Hv. destruct (encode_onto_lookup fs ∅ Hn Hv) as (params & E & Hs & Hno & _).
  exists params. split; [done|]. unfold decode.
  rewrite (decode_in_fields _ params) by done. clear E.
  assert (∀ f, f ∈ fs → params !! wire_key (spec f) = put_value (ty (spec f)) <$> value f)
    as Hl.
  { intros f Hin. destruct (value f) as [x|] eqn:Hx.
    - rewrite (Hs f Hin) by congruence. by rewrite Hx.
    - rewrite (Hno f Hin Hx). apply lookup_empty. }
  clear Hs Hno Hn. induction Hv as [|f fs Hf Hfs IH]; [done|].
  rewrite fmap_cons. cbn [decode_fields]. rewrite (Hl f) by left.
  rewrite field_of_put by done. rewrite IH; [done|].
  intros g Hg. apply Hl. by right.
Qed.

(** A decoded required field always holds a value. *)
Lemma decoded_required ps params fs f :
  decode_fields ps params = inr fs → f ∈ fs → optional (spec f) = false →
  is_Some (value f).
Proof.
  revert fs. induction ps as [|p ps IH]; intros fs; cbn [decode_fields].
  { intros [= <-] Hf. by apply not_elem_of_nil in Hf. }
  destruct (field_of p _) as [e|g] eqn:Hg; [done|].
  destruct (decode_fields ps params) as [e|fs'] eqn:Hd; [done|].
  intros [= <-] [->|Hf]%elem_of_cons Ho; [|by eapply IH]. clear IH Hd.
  assert (∀ p', optional p' = false → is_Some (make_default p')) as Hmd.
  { intros p' Hp'. unfold make_default. destruct (default_provider p'); [done|]. by rewrite Hp'. }
  revert Hg. unfold field_of, decode_one_into. destruct (params !! wire_key p) as [v|].
  - cbn [view spec init_slot err]. destruct (is_null v).
    + destruct (optional p) eqn:Hp.
      * intros [= <-]. cbn in Ho. congruence.
      * destruct (has_default p); [|done]. intros [= <-]. by apply Hmd.
    + destruct (get_ptr (ty p) v) as [x|]; [|done].
      destruct (match enum_contains p with Some ok => ok x | None => true end); [|done]. by intros [= <-].
  - destruct (optional p || has_default p); [|done]. intros [= <-]. by apply Hmd.
Qed.
End facts.

(** A model with a required string, an enumeration with a default and an
    optional number. *)
Definition demo_model : list (ParameterSpec (H := TreeSer.tree_ser)) :=
  [mkParameter TString 255 false None None;
   mkParameter TByte 212 false (Some 0) (Some (λ z, bool_decide (z ∈ [0; 2; 3])));
   mkParameter TInt32 235 true None None].

Definition demo_request : list (Z * Value (Ser := TreeSer.tree_ser)) :=
  [(235, of_int32 7); (9, of_bool true); (255, of_string "room")].

Lemma decode_by_lookup_witness :
  decode_in demo_model demo_request =
  decode_fields demo_model (list_to_map demo_request).
Proof.
  apply (decode_by_lookup demo_model (list_to_map demo_request) demo_request).
  - by apply (bool_decide_unpack _).
  - symmetry. apply map_to_list_to_map. by apply (bool_decide_unpack _).
Defined.

Definition demo_fields : list (ViewField (H := TreeSer.tree_ser)) :=
  [mkView (mkParameter TString 255 false None None) (Some "room"%string);
   mkView (mkParameter TByte 212 false (Some 0) (Some (λ z, bool_decide (z ∈ [0; 2; 3]))))
     (Some 2);
   mkView (mkParameter TInt32 235 true None None) None].

Lemma model_roundtrip_witness :
  ∃ params, encode demo_fields = Some params ∧
    decode (spec <$> demo_fields) params = inr demo_fields.
Proof.
  apply (model_roundtrip demo_fields).
  - by apply (bool_decide_unpack _).
  - repeat constructor.
Defined.
