(* ===== verification/HandlerGame.v ===== *)
(** * The game server's handler

    Models [handler_gameserver.cpp] for a connection that was sent to a room:
    joining or creating it, raising events, setting properties, changing
    interest groups, leaving and disconnecting.  A handler is a program over
    the handler's own state and the room; returning early ends it, and a
    destructor at scope exit is a wrapper around the scope's body.

    The room's operations take its lock themselves or run inside one critical
    section, so they are atomic here.  Other connections interleave at the
    awaits, which are the plugin calls: each hook may change the handler and
    the room before it answers.  A build without plugins has no hooks. *)

From S2P Require Import Prelude Program Values Types GameState GameMembers GameCreation GameProps GameEvents DataModel.
Open Scope Z_scope.

(** <include/luxon/server/game_plugin_base.hpp:27-27 game_plugins::Result>
    A foreign plugin's byte is cast to it, so it may be none of the three. *)
Inductive PluginResult := Continue | Fail | Cancel | Unnamed (value : Z).

(** The operations a client can request. *)
Inductive OpCode :=
  | OpAuthenticate | OpAuthenticateOnce | OpCreateGame | OpJoinGame
  | OpRaiseEvent | OpLeave | OpSetProperties | OpChangeInterestGroups
  | OpGetRegions | OpJoinLobby | OpLeaveLobby | OpLobbyStats | OpGetGameList
  | OpJoinRandomGame | OpFindFriends
  | OpOther (n : Z).

#[export] Instance OpCode_eq_dec : EqDecision OpCode.
Proof. solve_decision. Defined.

Section data.
Context `{Ser}.

(** [ser::OperationRequestMessage] with the encryption flag and the ENet
    header it came with. *)
Record Request := mkRequest {
  operation_code : OpCode;
  r_parameters : ParameterList;
  is_encrypted : bool;
  channel_id : Z;
  delivery : Z;
}.

(** <include/luxon/server/handler_gameserver.hpp:43-51 PendingJoin>
    [wait_started] is the time the request was put aside. *)
Record PendingJoin := mkPendingJoin {
  pj_generation : Z;
  pj_request : Request;
  pj_wait_started : Z;
}.

(** <include/luxon/server/handler_gameserver.hpp:53-59 PendingAuthentication> *)
Record PendingAuthentication := mkPendingAuth {
  pa_request : Request;
  pa_wait_started : Z;
}.

(** <include/luxon/server/handler_gameserver.hpp:33-42 GameServerHandler>
    The pointers to the room, [current_game_] and [creation_game_], are
    booleans: the handler only ever points to the room it was sent to;
    [game_peer_] is only ever tested. *)
Record Handler := mkHandler {
  this_peer : peer_ptr;
  current_game_ : bool;
  game_peer_ : bool;
  has_left_ : bool;
  disconnected_ : bool;
  creation_generation_ : Z;
  creation_game_ : bool;
  pending_join_ : option PendingJoin;
  pending_authentication_ : option PendingAuthentication;
}.

(** The locals of a join that its rollback reads. *)
Record JoinLocals := mkJoinLocals {
  is_master : bool;
  request_generation : Z;
  creation_aborted : bool;
  creation_committed : bool;
  added_expected_users : list (string * Z);
}.

Record World := mkWorld {
  handler : Handler;
  room : Game;
  locals : JoinLocals;
}.

(** What a handler sends: responses, the room's own effects, the end of the
    connection, and what it leaves to [HandlerBase]. *)
Inductive Out :=
  | Reply (op : OpCode) (return_code : ErrorCode) (params : ParameterList) (ch : Z)
  | Emit (e : Effect)
  | Disconnect
  | BaseRequest (req : Request)
  | BaseDisconnect
  | Throw.
End data.

#[export] Instance eta_Handler `{Ser} : Eta Handler := λ h,
  mkHandler (this_peer h) (current_game_ h) (game_peer_ h) (has_left_ h)
    (disconnected_ h) (creation_generation_ h) (creation_game_ h)
    (pending_join_ h) (pending_authentication_ h).
#[export] Instance eta_JoinLocals : Eta JoinLocals := λ l,
  mkJoinLocals (is_master l) (request_generation l) (creation_aborted l)
    (creation_committed l) (added_expected_users l).
#[export] Instance eta_World `{Ser} : Eta World := λ w,
  mkWorld (handler w) (room w) (locals w).

(** ** Programs *)

Abbreviation M := (Prog World Out).

Section pieces.
Context `{Ser}.

Definition on_handler (f : Handler → Handler) : M () := modify (λ w, w <| handler ::= f |>).
Definition on_room (f : Game → Game) : M () := modify (λ w, w <| room ::= f |>).
Definition on_locals (f : JoinLocals → JoinLocals) : M () :=
  modify (λ w, w <| locals ::= f |>).
Definition emit (l : list Effect) : M () := say (Emit <$> l).

(** An operation of the room that also has effects. *)
Definition room_op {A} (f : Game → Game * A * list Effect) : M A := λ w,
  let '(g, x, eff) := f (room w) in (w <| room := g |>, Emit <$> eff, Some x).
End pieces.

(** ** Plugins *)

(** The hooks of the plugins loaded in the room ([execute_plugin_chain]);
    each runs at an await, so it takes and returns the world. *)
Class Plugins `{Ser} := {
  plugins_enabled : bool;
  plugins_loaded : World → bool;
  on_attach (name : string) : World → World;
  on_create_game (is_join create_if_not_exists : bool) : World → World * PluginResult;
  before_join : World → World * PluginResult;
  on_join_game (joiner : GamePeer) :
    World → World * PluginResult * option bool * option bool;
  on_leave (leaver : option GamePeer) : World → World * PluginResult;
  on_raise_event (raiser : GamePeer) (ev : Event) (cache_op : Z) :
    World → World * PluginResult * Event;
  before_set_properties (setter : GamePeer) (broadcast : bool) (target : Z)
      (update expected : option Hashtable) :
    World → World * PluginResult * bool * Z;
  on_set_properties (setter : GamePeer) (broadcast : bool) (target : Z)
      (update expected : option Hashtable) :
    World → World * PluginResult;
}.

(** The build without [LUXON_SERVER_ENABLE_PLUGINS]. *)
Definition no_plugins `{Ser} : Plugins := {|
  plugins_enabled := false;
  plugins_loaded _ := false;
  on_attach _ w := w;
  on_create_game _ _ w := (w, Continue);
  before_join w := (w, Continue);
  on_join_game _ w := (w, Continue, None, None);
  on_leave _ w := (w, Continue);
  on_raise_event _ ev _ w := (w, Continue, ev);
  before_set_properties _ b t _ _ w := (w, Continue, b, t);
  on_set_properties _ _ _ _ _ w := (w, Continue);
|}.

(** Run a hook. *)
Definition hook `{Ser} {A} (f : World → World * A) : M A := λ w,
  let '(w, x) := f w in (w, [], Some x).

(** ** Request models *)

Section models.
Context `{Ser, Codes}.

Definition enumerator (l : list Z) : Z → bool := λ z, bool_decide (z ∈ l).

(** <src/handler_gameserver.cpp:26-30 models::RaiseEvent> *)
Definition raise_event_model : list ParameterSpec :=
  [mkParameter TInts KeyActorList true None None;
   mkParameter TByte KeyReceiverGroup false (Some RgOthers) (Some (enumerator receiver_groups));
   mkParameter TByte KeyInterestGroup false (Some 0) None;
   mkParameter TByte KeyCache false (Some DoNotCache) (Some (enumerator cache_operations));
   mkParameter TByte KeyCode false (Some 200) None].

(** <src/handler_gameserver.cpp:32-40 models::JoinOrCreateGame> *)
Definition join_model : list ParameterSpec :=
  [mkParameter TString KeyGameId false None None;
   mkParameter TBool KeyBroadcast false (Some true) None;
   mkParameter TByte KeyCreateIfNotExists false (Some 0) None;
   mkParameter TStrings KeyExpectedUsers false (Some []) None;
   mkParameter TStrings KeyPlugins false (Some []) None;
   mkParameter THashtable KeyGameProperties false (Some None) None;
   mkParameter THashtable KeyActorProperties false (Some None) None;
   mkParameter TInt32 KeyPlayerTTL true None None;
   mkParameter TInt32 KeyEmptyRoomTTL true None None;
   mkParameter TInt32 KeyGameFlags true None None;
   mkParameter TBool KeyCheckUserOnJoin true None None;
   mkParameter TBool KeySuppressRoomEvents true None None;
   mkParameter TBool KeyPublishUserId true None None].

(** <src/handler_gameserver.cpp:42-45 models::SetProperties> *)
Definition set_properties_model : list ParameterSpec :=
  [mkParameter THashtable KeyProperties false (Some None) None;
   mkParameter THashtable KeyExpectedValues false (Some None) None;
   mkParameter TBool KeyBroadcast false (Some true) None;
   mkParameter TInt32 KeyActorNo false (Some 0) None].

(** <src/handler_gameserver.cpp:47-47 models::ChangeInterestGroups> *)
Definition change_groups_model : list ParameterSpec :=
  [mkParameter TBytes KeyAdd true None None;
   mkParameter TBytes KeyRemove true None None].

(** [params->get<Key>()] of a required parameter. *)
Definition got (t : WireType) (k : Z) (fs : list ViewField) : carrier t :=
  default (zero_value t) (get_field t k fs).
End models.

(** ** Requests *)

Section requests.
Context `{Ser, Codes, !Wire, !Plugins}.
(** The live peers, the settings of the application and the identification of
    the room's lobby do not change while a request is handled. *)
Context (env : PeerEnv) (settings : AppSettings) (info : LobbyInfo).
Implicit Types (req : Request) (w : World).

Definition me : M (option peer_ptr) := λ w, (w, [], Some (Some (this_peer (handler w)))).
Definition the_room : M Game := λ w, (w, [], Some (room w)).
Definition has_disconnected : M bool := λ w, (w, [], Some (disconnected_ (handler w))).

(** [Game::trigger_lobby_update] on the handler's room. *)
Definition lobby_update : M () :=
  room_op (λ g, (g, (), trigger_lobby_update info g)).

Definition reply req (rc : ErrorCode) : M () :=
  say [Reply (operation_code req) rc ∅ (channel_id req)].

(** <src/handler_gameserver.cpp:209-220 ensure_joined_state> *)
Definition ensure_joined_state req (joined : bool) : M () :=
  w ⇐ get;
  let h := handler w in
  let has_joined_peer :=
    current_game_ h
    && bool_decide (is_Some (actor_id_for_peer env (room w) (Some (this_peer h)))) in
  if Bool.eqb has_joined_peer joined then ret ()
  else reply req OperationNotAllowedInCurrentState ;;; stop.

(** Decode the request or answer with the decoding error, on channel 0. *)
Definition decode_or_reply (ps : list ParameterSpec) req : M (list ViewField) :=
  match decode ps (r_parameters req) with
  | inr fs => ret fs
  | inl _ => say [Reply (operation_code req) OperationInvalid ∅ 0] ;;; stop
  end.

(** <src/handler_gameserver.cpp:313-316 RaiseEvent> (also 1013-1015)
    The actor number of this connection; a handler without one gives up. *)
Definition sender : M Z :=
  w ⇐ get;
  let a := default 0 (actor_id_for_peer env (room w) (Some (this_peer (handler w)))) in
  if a =? 0 then stop else ret a.

Definition empty_cache : list ByteArray := replicate protocol_count [].

(** *** Raising events *)

(** <src/handler_gameserver.cpp:317-328 RaiseEvent> *)
Definition build_event req (fs : list ViewField) (a : Z) : Event :=
  {| code := got TByte KeyCode fs;
     sender_actor_id := a;
     delivery_mode := delivery req;
     channel := channel_id req;
     receivers := match get_field TInts KeyActorList fs with
                  | Some actors => RcvActors (list_to_set actors)
                  | None => RcvGroup (got TByte KeyReceiverGroup fs)
                  end;
     interest_group := got TByte KeyInterestGroup fs;
     data := default null (r_parameters req !! KeyData);
     top_params := ∅;
     cached_data := empty_cache |}.

(** <src/handler_gameserver.cpp:378-402 RaiseEvent> The removal filter. *)
Definition removed_from_cache (ev : Event) (filter_senders : list Z) (cached : Event) :
    bool :=
  let filter_data := default ∅ (get_table (data ev)) in
  if negb (code ev =? 0) && negb (code cached =? code ev) then false
  else if negb (bool_decide (filter_senders = []))
          && negb (bool_decide (sender_actor_id cached ∈ filter_senders)) then false
  else if negb (bool_decide (filter_data = ∅))
          && negb (matches_filter (data cached) filter_data) then false
  else true.

(** <src/handler_gameserver.cpp:409-411 RaiseEvent> *)
Definition from_left_actor g (cached : Event) : bool :=
  negb (bool_decide (is_Some (find_actor g (sender_actor_id cached))))
  && negb (sender_actor_id cached =? 0).

(** <src/handler_gameserver.cpp:330-351 RaiseEvent> The plugins' verdict; they
    may rewrite the event. *)
Definition raise_hooks req (ev : Event) (cache_op : Z) : M Event :=
  if plugins_enabled then
    g ⇐ the_room;
    match find_actor g (sender_actor_id ev) with
    | None => stop
    | Some raiser =>
        r ⇐ hook (λ w, let '(w, r, ev) := on_raise_event raiser ev cache_op w in (w, (r, ev)));
        match r.1 with
        | Cancel => stop
        | Fail => reply req PluginReportedError ;;; stop
        | Continue | Unnamed _ => ret r.2
        end
    end
  else ret ev.

(** <src/handler_gameserver.cpp:294-433 RaiseEvent> *)
Definition raise_event req : M () :=
  ensure_joined_state req true ;;;
  fs ⇐ decode_or_reply raise_event_model req;
  let cache_op := got TByte KeyCache fs in
  a ⇐ sender;
  ev ⇐ raise_hooks req (build_event req fs a) cache_op;
  if 220 <? code ev then reply req OperationInvalid ;;; stop
  else if cache_op =? RemoveFromRoomCache then
    on_room (λ g, g <| event_cache ::= remove_if
      (removed_from_cache ev (default [] (get_field TInts KeyActorList fs))) |>)
  else if cache_op =? RemoveFromCacheForActorsLeft then
    on_room (λ g, g <| event_cache ::= remove_if (from_left_actor g) |>)
  else
    let can_cache := (cache_op =? AddToRoomCache) || (cache_op =? AddToRoomCacheGlobal) in
    when (can_cache && bool_decide (get_field TInts KeyActorList fs = None)
          && negb (got TByte KeyReceiverGroup fs =? RgMasterClient)
          && (got TByte KeyInterestGroup fs =? 0))
      (let cached_copy := if cache_op =? AddToRoomCacheGlobal
                          then ev <| sender_actor_id := 0 |> else ev in
       on_room (λ g, g <| event_cache ::= λ l, l ++ [cached_copy] |>)) ;;;
    g ⇐ the_room;
    emit (broadcast_event env g ev).2.

(** *** Joining and creating *)

(** <src/handler_gameserver.cpp:538-542 rollback_expected_users> *)
Definition rollback_expected_users : M () :=
  w ⇐ get;
  on_room (release_all (added_expected_users (locals w))) ;;;
  on_locals (λ l, l <| added_expected_users := [] |>).

(** <src/handler_gameserver.cpp:543-566 rollback_join> *)
Definition rollback_join : M () :=
  w ⇐ get;
  let l := locals w in
  let owner := Some (this_peer (handler w)) in
  if creation_committed l || creation_aborted l then ret ()
  else if is_master l then
    aborted ⇐ room_op (λ g, abort_creation_transaction env g owner (request_generation l));
    on_locals (λ l, l <| creation_aborted := true |>) ;;;
    on_handler (λ h, h <| game_peer_ := false |> <| creation_game_ := false |>
                       <| creation_generation_ := 0 |>) ;;;
    when aborted lobby_update
  else
    on_locals (λ l, l <| creation_aborted := true |>) ;;;
    when (game_peer_ (handler w))
      (room_op (λ g, remove_peer env g owner) ;;; ret ()) ;;;
    on_handler (λ h, h <| game_peer_ := false |>) ;;;
    rollback_expected_users.

(** Give up the join. *)
Definition abandon {A} : M A := rollback_join ;;; stop.

(** <src/handler_gameserver.cpp:710-719 JoinGame> (also 732-742 and 754-764)
    Give up the join, end the connection and say why. *)
Definition refuse req (rc : ErrorCode) : M () :=
  rollback_join ;;; say [Disconnect] ;;; reply req rc ;;; stop.

(** <src/handler_gameserver.cpp:694-698 JoinGame> The creation this join runs
    is still the active one (also 745-750, 843-847, 863-868). *)
Definition still_joining : M () :=
  w ⇐ get;
  let l := locals w in
  if disconnected_ (handler w)
     || (is_master l
         && negb (is_creation_active env (room w) (Some (this_peer (handler w)))
                    (request_generation l)))
  then abandon else ret ().

(** <src/handler_gameserver.cpp:583-603 JoinGame> Attach the requested plugins. *)
Fixpoint attach_plugins (names : list string) : M () :=
  match names with
  | [] => ret ()
  | name :: names =>
      d ⇐ has_disconnected;
      if d then abandon
      else
        modify (on_attach name) ;;;
        d ⇐ has_disconnected;
        if d then abandon else attach_plugins names
  end.

(** <src/handler_gameserver.cpp:668-675 set_flag>
    The flags are a [uint8_t], the mask an [int32_t]. *)
Definition set_flag (mask : Z) (b : option bool) (flags_ : Z) : Z :=
  match b with
  | None => flags_
  | Some true => u8 (Z.lor flags_ mask)
  | Some false => u8 (Z.land flags_ (Z.lnot mask))
  end.

(** <src/handler_gameserver.cpp:660-684 JoinGame>
    Only the low byte of the flags asked for is kept. *)
Definition apply_settings (fs : list ViewField) g : Game :=
  let g := match get_field TInt32 KeyPlayerTTL fs with
           | Some t => g <| player_ttl := t |> | None => g end in
  let g := match get_field TInt32 KeyEmptyRoomTTL fs with
           | Some t => g <| empty_game_ttl := t |> | None => g end in
  let g := match get_field TInt32 KeyGameFlags fs with
           | Some t => g <| flags := u8 t |> | None => g end in
  let g := g <| flags ::= set_flag CheckUserOnJoin (get_field TBool KeyCheckUserOnJoin fs) |>
             <| flags ::= set_flag SuppressRoomEvents (get_field TBool KeySuppressRoomEvents fs) |>
             <| flags ::= set_flag PublishUserId (get_field TBool KeyPublishUserId fs) |> in
  let g := match got THashtable KeyGameProperties fs with
           | Some props =>
               match props !! of_byte MaxPlayers ≫= get_byte with
               | Some m => g <| max_peers := m |>
               | None => g
               end
           | None => g
           end in
  bump_revision g.

(** <src/handler_gameserver.cpp:656-691 JoinGame> *)
Definition configure_room (fs : list ViewField) : M () :=
  w ⇐ get;
  if is_creation_active env (room w) (Some (this_peer (handler w)))
       (request_generation (locals w))
  then on_room (apply_settings fs)
  else abandon.

(** <src/handler_gameserver.cpp:617-649 JoinGame> *)
Definition join_hooks req (fs : list ViewField) : M () :=
  if plugins_enabled then
    d ⇐ has_disconnected;
    if d then abandon
    else
      g ⇐ the_room;
      res ⇐ (if is_created g then hook before_join
             else hook (on_create_game (bool_decide (operation_code req = OpJoinGame))
                          (negb (got TByte KeyCreateIfNotExists fs =? 0))));
      d ⇐ has_disconnected;
      if d then abandon
      else match res with
           | Continue => ret ()
           | Cancel => rollback_join ;;; reply req OperationNotAllowedInCurrentState ;;; stop
           | Fail | Unnamed _ => rollback_join ;;; reply req PluginReportedError ;;; stop
           end
  else ret ().

(** <src/handler_gameserver.cpp:721-727 JoinGame> *)
Fixpoint reserve_expected (users : list string) (u : string) : M () :=
  match users with
  | [] => ret ()
  | e :: users =>
      w ⇐ get;
      (if empty_str e || bool_decide (e = u)
          || bool_decide (is_Some (find_peer env (room w) (Some (this_peer (handler w)))))
       then ret ()
       else
         r ⇐ room_op (λ g, reserve_expected_user_with_generation g e 30000);
         match r with
         | Some n => on_locals (λ l, l <| added_expected_users ::= λ a, a ++ [(e, n)] |>)
         | None => ret ()
         end) ;;;
      reserve_expected users u
  end.

(** The user id of this connection, which is authenticated. *)
Definition user_of w : string := default EmptyString (peer_user env (this_peer (handler w))).

(** <src/handler_gameserver.cpp:700-766 JoinGame>
    The admission: one critical section from the validation to the insertion
    of the new node. *)
Definition admission req (fs : list ViewField) : M () :=
  let expected_users := got TStrings KeyExpectedUsers fs in
  w ⇐ get;
  let owner := Some (this_peer (handler w)) in
  let l := locals w in
  if is_master l && negb (is_creation_active env (room w) owner (request_generation l))
  then abandon
  else match validate_join settings env (room w) (user_of w) expected_users (is_master l) with
  | Ok =>
      reserve_expected expected_users (user_of w) ;;;
      game_peer ⇐ room_op (λ g, (create_peer env g owner, []));
      if negb (is_valid game_peer) then refuse req GameFull
      else
        still_joining ;;;
        node ⇐ room_op (λ g,
          (if is_master l
           then add_peer_for_creation env g game_peer owner (request_generation l)
           else add_peer env g game_peer, []));
        match node with
        | None => refuse req GameFull
        | Some _ => on_handler (λ h, h <| game_peer_ := true |>)
        end
  | rc => refuse req rc
  end.

(** <src/handler_gameserver.cpp:769-840 JoinGame>
    The value is [broadcast_actor_props]. *)
Definition joined_hooks req : M bool :=
  if plugins_enabled then
    d ⇐ has_disconnected;
    if d then abandon
    else
      w ⇐ get;
      let owner := Some (this_peer (handler w)) in
      match find_peer env (room w) owner with
      | None => abandon
      | Some joiner =>
          r ⇐ hook (λ w, let '(w, r, publish, bcast) := on_join_game joiner w in
                         (w, (r, publish, bcast)));
          let '(res, publish_user_id, broadcast_actor_props) := r in
          d ⇐ has_disconnected;
          if d then abandon
          else
            w ⇐ get;
            let resolved :=
              bool_decide (actor_id_for_peer env (room w) owner = Some (actor_id joiner))
              && bool_decide (is_Some (find_actor (room w) (actor_id joiner))) in
            let end_creator := when (is_master (locals w)) (say [Disconnect]) in
            on_handler (λ h, h <| game_peer_ := resolved |>) ;;;
            if negb resolved then rollback_join ;;; end_creator ;;; stop
            else match res with
            | Continue =>
                when (negb (default true publish_user_id))
                  (on_room (λ g, g <| peers ::= update_first
                     (λ gp, active gp && (actor_id gp =? actor_id joiner))
                     (λ gp, gp <| actor_props ::= delete (of_byte ActorUserId) |>) |>)) ;;;
                ret (default true broadcast_actor_props)
            | _ =>
                removed ⇐ (if is_master (locals w) then ret false
                           else room_op (λ g, remove_peer env g owner));
                when removed lobby_update ;;;
                on_handler (λ h, h <| game_peer_ := false |>) ;;;
                rollback_join ;;; end_creator ;;;
                reply req (match res with
                           | Cancel => OperationNotAllowedInCurrentState
                           | _ => PluginReportedError
                           end) ;;; stop
            end
      end
  else ret true.

(** <src/handler_gameserver.cpp:848-862 JoinGame>
    The properties the request brings; the value is the joined actor. *)
Definition insert_join_props (fs : list ViewField) : M Z :=
  w ⇐ get;
  let owner := Some (this_peer (handler w)) in
  let joined := match find_peer env (room w) owner with
                | Some gp => actor_id gp | None => 0 end in
  if joined =? 0 then abandon
  else
    match got THashtable KeyActorProperties fs with
    | Some props => on_room (λ g, (insert_actor_props g joined props).1)
    | None => ret ()
    end ;;;
    when (is_master (locals w))
      match got THashtable KeyGameProperties fs with
      | Some props =>
          room_op (λ g, let '(g, eff) := insert_game_props settings info g props in
                        (g, (), eff))
      | None => ret ()
      end ;;;
    ret joined.

(** <src/handler_gameserver.cpp:878-891 JoinGame> *)
Definition commit_join : M () :=
  w ⇐ get;
  let l := locals w in
  if is_master l then
    if disconnected_ (handler w) then abandon
    else
      ok ⇐ room_op (λ g, (commit_creation env g (Some (this_peer (handler w)))
                            (request_generation l), []));
      if negb ok then abandon
      else
        on_locals (λ l, l <| creation_committed := true |>) ;;;
        on_handler (λ h, h <| creation_game_ := false |> <| creation_generation_ := 0 |>) ;;;
        lobby_update
  else on_locals (λ l, l <| creation_committed := true |>).

(** <src/handler_gameserver.cpp:935-939 JoinGame> *)
Definition join_event (actor_no : Z) (actor_ids : list Z)
    (props : option Hashtable) : Event :=
  let ps := <[KeyActorNo := of_int32 actor_no]>
              (<[KeyActorList := of_ints actor_ids]> ∅) in
  {| code := EvJoin; sender_actor_id := actor_no; delivery_mode := Reliable;
     channel := 0; receivers := RcvGroup RgAll; interest_group := 0; data := null;
     top_params := match props with
                   | Some tbl => <[KeyActorProperties := of_table tbl]> ps
                   | None => ps
                   end;
     cached_data := empty_cache |}.

(** <src/handler_gameserver.cpp:893-948 JoinGame>
    The answer to the new member, the announcement to everybody and the flood
    of the room's state. *)
Definition welcome req (joined : Z) (all_actor_props : Hashtable)
    (broadcast_actor_props : bool) : M () :=
  w ⇐ get;
  if disconnected_ (handler w) || negb (game_peer_ (handler w)) then abandon
  else
    let g := room w in
    let flags_ := flags g in
    let actor_ids := actor_id <$> peers g in
    let '(actor_no, joined_actor_props) :=
      match find_actor g joined with
      | Some gp => (actor_id gp, actor_props gp)
      | None => (0, ∅)
      end in
    let ps := <[KeyActorNo := of_int32 actor_no]>
                (<[KeyGameProperties := of_table (get_game_props g false)]>
                   (<[KeyActorList := of_ints actor_ids]>
                      (<[KeyGameFlags := of_int32 flags_]> ∅))) in
    say [Reply (operation_code req) Ok
           (if broadcast_actor_props
            then <[KeyActorProperties := of_table all_actor_props]> ps else ps)
           (channel_id req)] ;;;
    when (negb (actor_no =? 0) && negb (has_flag flags_ SuppressRoomEvents))
      (emit (broadcast_event env g
         (join_event actor_no actor_ids
            (if broadcast_actor_props && negb (has_flag flags_ SuppressPlayerInfo)
             then Some joined_actor_props else None))).2) ;;;
    when (negb (actor_no =? 0))
      (room_op (λ g, flood_peer_by_actor env g actor_no) ;;; ret ()).

(** <src/handler_gameserver.cpp:767-891 JoinGame>
    What follows the admission. *)
Definition finish_join req (fs : list ViewField) : M () :=
  lobby_update ;;;
  broadcast_actor_props ⇐ joined_hooks req;
  still_joining ;;;
  joined ⇐ insert_join_props fs;
  still_joining ;;;
  g ⇐ the_room;
  let all_actor_props := get_actor_props g in
  commit_join ;;;
  welcome req joined all_actor_props broadcast_actor_props.

(** <src/handler_gameserver.cpp:572-699 JoinGame>
    The part of the join that the destructor [ensure_reset] guards. *)
Definition join_body req (fs : list ViewField) : M () :=
  d ⇐ has_disconnected;
  if d then abandon
  else
    w ⇐ get;
    (if is_master (locals w) then
       when (plugins_enabled && negb (plugins_loaded w))
         (attach_plugins (got TStrings KeyPlugins fs))
     else match validate_join_count settings env (room w) (user_of w) 0 false with
          | Ok => ret ()
          | rc => say [Reply OpJoinGame rc ∅ (channel_id req)] ;;; stop
          end) ;;;
    join_hooks req fs ;;;
    when (is_master (locals w)) (configure_room fs) ;;;
    still_joining ;;;
    admission req fs ;;;
    finish_join req fs.

(** <src/handler_gameserver.cpp:567-570 JoinGame> *)
Definition ensure_reset : M () :=
  w ⇐ get;
  if negb (creation_committed (locals w)) && negb (creation_aborted (locals w))
  then rollback_join else ret ().

(** <src/handler_gameserver.cpp:471-485 JoinGame> (also 510-523)
    Put the request aside until the creation in progress ends. *)
Definition retain_join req (now : Z) : M () :=
  w ⇐ get;
  match pending_join_ (handler w) with
  | Some _ => reply req OperationNotAllowedInCurrentState
  | None =>
      on_handler (λ h, h <| pending_join_ :=
        Some (mkPendingJoin (active_creation_generation (room w)) req now) |>)
  end ;;; stop.

(** <src/handler_gameserver.cpp:440-571 CreateGame, JoinGame>
    The guards before the transaction; [now] is the clock. *)
Definition join_game req (now : Z) : M () :=
  ensure_joined_state req false ;;;
  fs ⇐ decode_or_reply join_model req;
  let join_mode := got TByte KeyCreateIfNotExists fs in
  let can_create := bool_decide (operation_code req = OpCreateGame) || (join_mode =? 1) in
  g ⇐ the_room;
  if negb (bool_decide (got TString KeyGameId fs = id g))
  then reply req GameIdNotExists ;;; stop
  else if is_creating g then retain_join req now
  else if negb (is_created g) && negb can_create then reply req GameIdNotExists ;;; stop
  else
    owner ⇐ me;
    generation ⇐ room_op (λ g, (try_begin_creation g owner, []));
    let master := negb (generation =? 0) in
    when master (on_handler (λ h, h <| creation_generation_ := generation |>
                                      <| creation_game_ := true |>)) ;;;
    g ⇐ the_room;
    if negb master && negb (is_created g) then
      if is_creating g then retain_join req now
      else reply req GameIdNotExists ;;; stop
    else
      on_locals (λ _, mkJoinLocals master generation false false []) ;;;
      scope (join_body req fs) ensure_reset.

(** *** Leaving *)

(** <src/handler_gameserver.cpp:951-983 Leave> *)
Definition leave req : M () :=
  (if plugins_enabled then
     w ⇐ get;
     match find_peer env (room w) (Some (this_peer (handler w))) with
     | None => stop
     | Some leaver =>
         res ⇐ hook (on_leave (Some leaver));
         match res with
         | Fail => reply req PluginReportedError ;;; stop
         | _ => ret ()
         end
     end
   else ret ()) ;;;
  reply req Ok ;;;
  on_handler (λ h, h <| has_left_ := true |>) ;;;
  say [Disconnect].

(** *** Properties and interest groups *)

(** <src/handler_gameserver.cpp:1017-1039 SetProperties>
    The plugins' verdict; they may change the broadcast flag and the target. *)
Definition set_hooks req (broadcast : bool) (target : Z) (update expected : option Hashtable) :
    M (bool * Z) :=
  if plugins_enabled then
    w ⇐ get;
    match find_peer env (room w) (Some (this_peer (handler w))) with
    | None => stop
    | Some setter =>
        r ⇐ hook (λ w, let '(w, res, b, t) :=
                         before_set_properties setter broadcast target update expected w in
                       (w, (res, b, t)));
        let '(res, b, t) := r in
        match res with
        | Fail => reply req PluginReportedError ;;; stop
        | _ => ret (b, t)
        end
    end
  else ret (broadcast, target).

(** <src/handler_gameserver.cpp:1041-1049 SetProperties>
    An actor update whose expectation throws ends the request. *)
Definition apply_props (target : Z) (props : Hashtable) (expected : option Hashtable) :
    M bool :=
  if negb (target =? 0) then
    g ⇐ the_room;
    match apply_actor_props g target props expected with
    | None => say [Throw] ;;; stop
    | Some (g, ok) => on_room (λ _, g) ;;; ret ok
    end
  else room_op (λ g, apply_game_props settings info g props expected).

(** <src/handler_gameserver.cpp:985-1082 SetProperties> *)
Definition set_properties req : M () :=
  ensure_joined_state req true ;;;
  fs ⇐ decode_or_reply set_properties_model req;
  let expected := got THashtable KeyExpectedValues fs in
  match got THashtable KeyProperties fs with
  | None => reply req OperationInvalid ;;; stop
  | Some props =>
      if decide (props = ∅) then reply req OperationInvalid ;;; stop
      else
        a ⇐ sender;
        bt ⇐ set_hooks req (got TBool KeyBroadcast fs) (got TInt32 KeyActorNo fs)
               (Some props) expected;
        let '(broadcast, target) := bt in
        ok ⇐ apply_props target props expected;
        reply req (if ok : bool then Ok else OperationInvalid) ;;;
        g ⇐ the_room;
        when (ok && broadcast)
          (emit (broadcast_event env g (create_property_update_event g a props target)).2) ;;;
        when plugins_enabled
          match find_actor g a with
          | None => stop
          | Some setter =>
              hook (on_set_properties setter broadcast target (Some props) expected) ;;; ret ()
          end
  end.

(** <src/handler_gameserver.cpp:1084-1108 ChangeInterestGroups> *)
Definition change_interest_groups req : M () :=
  ensure_joined_state req true ;;;
  fs ⇐ decode_or_reply change_groups_model req;
  owner ⇐ me;
  room_op (λ g, (apply_interest_groups env g owner
                   (default [] (get_field TBytes KeyAdd fs))
                   (default [] (get_field TBytes KeyRemove fs)), [])) ;;;
  ret ().

(** <src/handler_gameserver.cpp:435-441 HandleOperationRequest>
    The requests of an authenticated peer that was sent to this room. *)
Definition room_request req (now : Z) : M () :=
  if bool_decide (operation_code req = OpRaiseEvent) then raise_event req
  else if negb (channel_id req =? 0) then say [BaseRequest req]
  else match operation_code req with
  | OpCreateGame | OpJoinGame => join_game req now
  | OpLeave => leave req
  | OpSetProperties => set_properties req
  | OpChangeInterestGroups => change_interest_groups req
  | _ => say [BaseRequest req]
  end.

(** ** Disconnection and waiting *)

(** <src/handler_gameserver.cpp:123-133 HandleDisconnect> *)
Definition drop_creation : M () :=
  w ⇐ get;
  let h := handler w in
  when (creation_game_ h && negb (creation_generation_ h =? 0))
    (aborted ⇐ room_op (λ g, abort_creation_transaction env g (Some (this_peer h))
                              (creation_generation_ h));
     on_handler (λ h, h <| creation_game_ := false |> <| creation_generation_ := 0 |>
                        <| pending_join_ := None |> <| game_peer_ := false |>) ;;;
     when aborted lobby_update).

(** <src/handler_gameserver.cpp:185-189 HandleDisconnect> *)
Definition leave_event (a : Z) (actor_ids : list Z) (new_master : option Z) : Event :=
  let ps := <[KeyActorList := of_ints actor_ids]> (<[KeyActorNo := of_int32 a]> ∅) in
  {| code := EvLeave; sender_actor_id := a; delivery_mode := Reliable; channel := 0;
     receivers := RcvGroup RgAll; interest_group := 0; data := null;
     top_params := match new_master with
                   | Some m => <[KeyMasterClientId := of_int32 m]> ps
                   | None => ps
                   end;
     cached_data := empty_cache |}.

(** <src/handler_gameserver.cpp:135-193 HandleDisconnect> *)
Definition depart : M () :=
  w ⇐ get;
  let owner := Some (this_peer (handler w)) in
  let snapshot := get_config_snapshot (room w) in
  let a := default 0 (actor_id_for_peer env (room w) owner) in
  when (negb (cs_peer_count snapshot =? 0) && negb (a =? 0) && has_peer_actor (room w) a)
    (when (has_flag (cs_flags snapshot) KeyCleanupCacheOnLeave)
       (on_room (λ g, g <| event_cache ::= remove_if (λ ev, sender_actor_id ev =? a) |>)) ;;;
     when (plugins_enabled && negb (has_left_ (handler w)))
       (hook (on_leave (find_actor (room w) a)) ;;; ret ()) ;;;
     room_op (λ g, remove_peer env g owner) ;;;
     on_handler (λ h, h <| game_peer_ := false |>) ;;;
     lobby_update ;;;
     g ⇐ the_room;
     when (negb (has_flag (flags g) SuppressRoomEvents))
       (emit (broadcast_event env g
          (leave_event a (actor_id <$> peers g)
             (if a =? cs_master_actor snapshot then Some (master_actor g) else None))).2)).

(** <src/handler_gameserver.cpp:112-202 HandleDisconnect> *)
Definition handle_disconnect : M () :=
  on_handler (λ h, h <| disconnected_ := true |> <| pending_join_ := None |>
                     <| pending_authentication_ := None |>) ;;;
  w ⇐ get;
  when (current_game_ (handler w))
    (on_handler (λ h, h <| current_game_ := false |>) ;;;
     drop_creation ;;;
     depart ;;;
     on_handler (λ h, h <| creation_game_ := false |> <| creation_generation_ := 0 |>
                        <| game_peer_ := false |>)) ;;;
  say [BaseDisconnect].

(** <src/handler_gameserver.cpp:52-72 HandleSlowUpdate>
    [known] is [has_persistent_peer]. The value is a request to handle now. *)
Definition poll_authentication (known : string → bool) (now : Z) : M (option Request) :=
  w ⇐ get;
  match pending_authentication_ (handler w) with
  | None => ret None
  | Some pa =>
      let clear := on_handler (λ h, h <| pending_authentication_ := None |>) in
      if match r_parameters (pa_request pa) !! KeyToken ≫= get_string with
         | Some tok => known tok
         | None => false
         end
      then clear ;;; ret (Some (pa_request pa))
      else if 2000 <=? now - pa_wait_started pa then
        say [Reply (operation_code (pa_request pa)) AuthenticationTokenExpired ∅ 0; Disconnect] ;;;
        clear ;;; stop
      else ret None
  end.

(** <src/handler_gameserver.cpp:74-106 HandleSlowUpdate> *)
Definition poll_join (now : Z) : M (option Request) :=
  w ⇐ get;
  match pending_join_ (handler w) with
  | None => ret None
  | Some pj =>
      let g := room w in
      let generation_changed :=
        negb (pj_generation pj =? 0)
        && negb (active_creation_generation g =? pj_generation pj) in
      let creation_finished := is_created g && negb (is_creating g) && negb generation_changed in
      let creation_aborted_ := negb (is_created g) && negb (is_creating g) in
      let clear := on_handler (λ h, h <| pending_join_ := None |>) in
      if creation_finished then
        clear ;;; on_handler (λ h, h <| current_game_ := true |>) ;;; ret (Some (pj_request pj))
      else
        when (creation_aborted_ || generation_changed || (5000 <=? now - pj_wait_started pj))
          (reply (pj_request pj) GameIdNotExists ;;; clear) ;;;
        ret None
  end.

(** <src/handler_gameserver.cpp:50-110 HandleSlowUpdate> *)
Definition handle_slow_update (known : string → bool) (now : Z) : M (option Request) :=
  r ⇐ poll_authentication known now;
  match r with
  | Some req => ret (Some req)
  | None => poll_join now
  end.
End requests.
