(* ===== verification/HandlerGameSafety.v ===== *)
(** * A connection only changes its room through the room's operations

    The effect of every program of the handler on the room is a sequence of
    room steps, so it keeps the room's invariant whatever the client sends,
    wherever the handler returns, and whatever the plugins do with the room's
    operations in the meantime. *)

From S2P Require Import Prelude Program Values Types GameState GameMembers GameCreation GameProps GameEvents GameSteps DataModel HandlerGame.
Open Scope Z_scope.

Section safety.
Context `{Ser, Codes, !Wire}.
Implicit Types (w : World) (g : Game).

(** The room is sound; during a join, which creates the room or not ([Some
    b]), a room that is not being created by it is created already. *)
Definition sound (joining : option bool) w : Prop :=
  game_ok (room w) ∧ lease_ok (room w) ∧
  match joining with
  | Some b => is_master (locals w) = b ∧ (b = false → is_created (room w) = true)
  | None => True
  end.

Lemma sound_steps j w w' :
  sound j w → rtc step (room w) (room w') → is_master (locals w') = is_master (locals w) →
  sound j w'.
Proof.
  intros (Hok & Hl & Hm) Hs E.
  destruct (steps_lease_ok _ _ Hok Hl Hs) as [Hl' Hc].
  split; [by eapply steps_ok|]. split; [done|]. destruct j as [b|]; [|done].
  rewrite E. split; [apply Hm|]. intros Hb. by apply Hc, Hm.
Qed.

(** A hook may use the operations of a room that is sound, and leaves the join
    alone. *)
Definition hook_ok {A} (f : World → World * A) : Prop :=
  ∀ w, game_ok (room w) → rtc step (room w) (room (f w).1) ∧ locals (f w).1 = locals w.

Class PluginsLaws `{!Plugins} : Prop := {
  attach_ok name : hook_ok (λ w, (on_attach name w, ()));
  create_ok b c : hook_ok (on_create_game b c);
  before_join_ok : hook_ok before_join;
  join_ok gp w :
    game_ok (room w) →
    rtc step (room w) (room (on_join_game gp w).1.1.1) ∧
    locals (on_join_game gp w).1.1.1 = locals w;
  leave_ok gp : hook_ok (on_leave gp);
  raise_ok gp ev c w :
    game_ok (room w) →
    rtc step (room w) (room (on_raise_event gp ev c w).1.1) ∧
    locals (on_raise_event gp ev c w).1.1 = locals w;
  before_set_ok gp b t u e w :
    game_ok (room w) →
    rtc step (room w) (room (before_set_properties gp b t u e w).1.1.1) ∧
    locals (before_set_properties gp b t u e w).1.1.1 = locals w;
  set_ok gp b t u e : hook_ok (on_set_properties gp b t u e);
}.

(** ** The triple *)

(** From a sound world satisfying [P] the program takes the room through room
    steps to a sound world, which satisfies [Q] if the program goes on. *)
Definition safe {A} (j : option bool) (P : World → Prop) (m : M A) (Q : A → World → Prop) : Prop :=
  ∀ w, sound j w → P w →
    let r := m w in
    rtc step (room w) (room r.1.1) ∧ sound j r.1.1 ∧ ∀ x, r.2 = Some x → Q x r.1.1.

Abbreviation always := (λ _ : World, True).
Abbreviation any := (λ _ _, True).

Lemma safe_bind {A B} j P Q R (m : M A) (f : A → M B) :
  safe j P m Q → (∀ x, safe j (Q x) (f x) R) → safe j P (bind m f) R.
Proof.
  intros Hm Hf w Hw Hp. destruct (Hm w Hw Hp) as (Hs & Hw1 & Hq). unfold bind.
  destruct (m w) as [[w1 out] [x|]]; cbn in *; [|done].
  destruct (Hf x w1 Hw1 (Hq x eq_refl)) as (Hs2 & Hw2 & Hr).
  destruct (f x w1) as [[w2 out2] r]. cbn in *.
  split; [by etransitivity|]. done.
Qed.

Lemma safe_weaken {A} j (P P' : World → Prop) (m : M A) (Q Q' : A → World → Prop) :
  safe j P m Q → (∀ w, P' w → P w) → (∀ x w, Q x w → Q' x w) → safe j P' m Q'.
Proof.
  intros Hm Hp Hq w Hw Hw'. destruct (Hm w Hw (Hp w Hw')) as (? & ? & ?).
  split; [done|]. split; [done|]. auto.
Qed.

Lemma safe_pre {A} j (P : World → Prop) (m : M A) Q :
  safe j always m Q → safe j P m Q.
Proof. intros Hm. by eapply safe_weaken. Qed.

Lemma safe_ret {A} j (P : World → Prop) (Q : A → World → Prop) (x : A) :
  (∀ w, P w → Q x w) → safe j P (ret x) Q.
Proof. intros Hq w Hw Hp. split; [done|]. split; [done|]. intros y [= <-]. auto. Qed.

Lemma safe_stop {A} j (P : World → Prop) (Q : A → World → Prop) : safe j P stop Q.
Proof. intros w Hw _. by split. Qed.

Lemma safe_say j P out : safe j P (say out) (λ _, P).
Proof. intros w Hw Hp. by split. Qed.

Lemma safe_get j P : safe j P get (λ w0 w, w = w0 ∧ P w ∧ sound j w).
Proof. intros w Hw Hp. split; [done|]. split; [done|]. by intros x [= <-]. Qed.

(** A read of the world. *)
Lemma safe_read {A} j (P : World → Prop) (f : World → A) :
  safe j P (λ w, (w, [], Some (f w))) (λ _, P).
Proof. intros w Hw Hp. by split. Qed.

Lemma safe_on_handler j P f : safe j P (on_handler f) any.
Proof. intros w Hw _. split; [done|]. split; [|done]. by eapply sound_steps. Qed.

Lemma safe_on_locals j P f :
  (∀ l, is_master (f l) = is_master l) → safe j P (on_locals f) any.
Proof.
  intros Hf w Hw _. split; [done|]. split; [|done].
  eapply sound_steps; [done|done|]. apply Hf.
Qed.

Lemma safe_on_room j (P : World → Prop) f :
  (∀ w, sound j w → P w → rtc step (room w) (f (room w))) → safe j P (on_room f) any.
Proof.
  intros Hf w Hw Hp. split; [by apply Hf|]. split; [|done].
  eapply sound_steps; [done|by apply Hf|done].
Qed.

Lemma safe_room_op {A} j (P : World → Prop) (f : Game → Game * A * list Effect)
    (Q : A → World → Prop) :
  (∀ w, sound j w → P w → rtc step (room w) (f (room w)).1.1 ∧
     Q (f (room w)).1.2 (w <| room := (f (room w)).1.1 |>)) →
  safe j P (room_op f) Q.
Proof.
  intros Hf w Hw Hp. destruct (Hf w Hw Hp) as [Hs Hq]. unfold room_op.
  destruct (f (room w)) as [[g x] eff] eqn:E. cbn [fst snd] in *.
  split; [done|]. split; [|by intros y [= <-]].
  by eapply sound_steps.
Qed.

Lemma safe_hook {A} j (P : World → Prop) (f : World → World * A) :
  hook_ok f → safe j P (hook f) any.
Proof.
  intros Hf w Hw _. destruct (Hf w (proj1 Hw)) as [Hs Hl]. unfold hook.
  destruct (f w) as [w' x]. cbn in *. split; [done|]. split; [|done].
  eapply sound_steps; [done|done|]. by rewrite Hl.
Qed.

Lemma safe_when j P b m : (b = true → safe j P m any) → safe j P (when b m) any.
Proof.
  intros Hm. unfold when. destruct b; [by apply Hm|]. by apply safe_ret.
Qed.

Lemma safe_scope {A} j P (m : M A) f :
  safe j P m any → safe j always f any → safe j P (scope m f) any.
Proof.
  intros Hm Hf w Hw Hp. destruct (Hm w Hw Hp) as (Hs & Hw1 & _). unfold scope.
  destruct (m w) as [[w1 out] r]. cbn in *.
  destruct (Hf w1 Hw1 I) as (Hs2 & Hw2 & _).
  destruct (f w1) as [[w2 out2] r2]. cbn in *. split; [by etransitivity|]. done.
Qed.

Lemma safe_seq {A B} j P (m : M A) (f : A → M B) R :
  safe j P m any → (∀ x, safe j always (f x) R) → safe j P (bind m f) R.
Proof. intros Hm Hf. eapply safe_bind; [exact Hm|]. intros x. by apply safe_pre. Qed.

Lemma safe_done j P out : safe j P (say out) any.
Proof. intros w Hw Hp. by split. Qed.

Lemma safe_look {A} j P (f : World → A) : safe j P (λ w, (w, [], Some (f w))) any.
Proof. intros w Hw Hp. by split. Qed.

Lemma safe_get_bind {A} j P (f : World → M A) R :
  (∀ w0, sound j w0 → P w0 → safe j (λ w, w = w0) (f w0) R) →
  safe j P (bind get f) R.
Proof.
  intros Hf w Hw Hp. pose proof (Hf w Hw Hp w Hw eq_refl) as Hr.
  unfold bind, get. by destruct (f w w) as [[??]?].
Qed.
End safety.

(** Follow the structure of a program whose continuation needs no facts. *)
Ltac safe_step :=
  match goal with
  | |- safe _ _ (bind get _) _ => apply safe_get_bind; intros ? ? _
  | |- safe _ _ (bind _ _) _ => eapply safe_seq; [|intros ?]
  | |- safe _ _ (ret _) _ => apply safe_ret; done
  | |- safe _ _ stop _ => apply safe_stop
  | |- safe _ _ (say _) _ => apply safe_done
  | |- safe _ _ (emit _) _ => apply safe_done
  | |- safe _ _ (reply _ _) _ => apply safe_done
  | |- safe _ _ me _ => apply safe_look
  | |- safe _ _ the_room _ => apply safe_look
  | |- safe _ _ has_disconnected _ => apply safe_look
  | |- safe _ _ (on_handler _) _ => apply safe_on_handler
  | |- safe _ _ (on_locals _) _ => apply safe_on_locals; done
  | |- safe _ _ (when _ _) _ => apply safe_when; intros ?
  | |- safe _ _ (if ?b then _ else _) _ => destruct b eqn:?
  | |- safe _ _ (match ?x with _ => _ end) _ => destruct x eqn:?
  | |- safe _ _ (let '(_, _) := ?x in _) _ => destruct x eqn:?
  | |- safe _ _ _ _ => first [ solve [eauto with safe] | apply safe_pre; solve [eauto with safe] ]
  end; cbv zeta.
Ltac safe_tac := cbv zeta; repeat safe_step.

Create HintDb safe.

Section programs.
Context `{Ser, Codes, !Wire, !Plugins, !PluginsLaws}.
Context (env : PeerEnv) (settings : AppSettings) (info : LobbyInfo).
Implicit Types (w : World) (g : Game) (req : Request).

Abbreviation always := (λ _ : World, True).
Abbreviation any := (λ _ _, True).

(** One step of the room. *)
Lemma safe_room_step j P f :
  (∀ g, step g (f g)) → safe j P (on_room f) any.
Proof. intros Hf. apply safe_on_room. intros. by apply rtc_once. Qed.

Lemma safe_op_step {A} j P (f : Game → Game * A * list Effect) :
  (∀ g, rtc step g (f g).1.1) → safe j P (room_op f) any.
Proof. intros Hf. apply safe_room_op. intros. by split. Qed.

Lemma safe_op_keep j P {A} (f : Game → A * list Effect) :
  safe j P (room_op (λ g, (g, (f g).1, (f g).2))) any.
Proof. by apply safe_op_step. Qed.

Lemma safe_lobby_update j : safe j always (lobby_update info) any.
Proof. by apply safe_op_step. Qed.
#[local] Hint Resolve safe_lobby_update : safe.

Lemma safe_ensure_joined j req b : safe j always (ensure_joined_state env req b) any.
Proof. unfold ensure_joined_state. safe_tac. Qed.
#[local] Hint Resolve safe_ensure_joined : safe.

Lemma safe_decode j ps req : safe j always (decode_or_reply ps req) any.
Proof. unfold decode_or_reply. safe_tac. Qed.
#[local] Hint Resolve safe_decode : safe.

Lemma safe_sender j : safe j always (sender env) any.
Proof. unfold sender. safe_tac. Qed.
#[local] Hint Resolve safe_sender : safe.

Lemma safe_hook3 {A B} j P (f : World → World * A * B) (h : World → World * (A * B)) :
  (∀ w, game_ok (room w) →
     rtc step (room w) (room (f w).1.1) ∧ locals (f w).1.1 = locals w) →
  (∀ w, (h w).1 = (f w).1.1) → safe j P (hook h) any.
Proof. intros Hf Hh. apply safe_hook. intros w Hw. rewrite Hh. by apply Hf. Qed.

Lemma safe_raise_hooks j req ev c : safe j always (raise_hooks req ev c) any.
Proof.
  unfold raise_hooks. safe_tac.
  match goal with |- context [on_raise_event ?r ev c] =>
    apply (safe_hook3 _ _ (on_raise_event r ev c)); [apply raise_ok|];
    intros w; by destruct (on_raise_event r ev c w) as [[??]?]
  end.
Qed.
#[local] Hint Resolve safe_raise_hooks : safe.

Lemma safe_raise_event j req : safe j always (raise_event env req) any.
Proof.
  unfold raise_event. safe_tac; apply safe_room_step; intros g; apply step_cache.
Qed.
#[local] Hint Resolve safe_raise_event : safe.

(** *** The rollback *)

Lemma release_all_steps l g :
  is_creating g = false → rtc step g (release_all l g).
Proof.
  revert g. induction l as [|[u n] l IH]; intros g Hc; [done|]. cbn [release_all foldl].
  eapply rtc_l; [apply (step_release g u n); congruence|]. apply IH.
  destruct (same_room_fields _ _ (release_same_room g u n)) as (_ & _ & _ & _ & _ & E & _).
  cbn in *. by rewrite E.
Qed.

Lemma safe_rollback_expected : safe (Some false) always rollback_expected_users any.
Proof.
  unfold rollback_expected_users. apply safe_get_bind. intros w0 Hw0 _.
  eapply safe_seq; [|intros; by apply safe_on_locals].
  apply safe_on_room. intros w (Hok & Hl & _ & Hc) _. apply release_all_steps.
  apply (lo_created _ Hl). by apply Hc.
Qed.

Lemma safe_rollback b : safe (Some b) always (rollback_join env info) any.
Proof.
  unfold rollback_join. apply safe_get_bind. intros w0 (_ & _ & Hb & _) _. cbv zeta.
  destruct (_ || _); [by apply safe_ret|]. rewrite Hb. destruct b.
  - safe_tac. apply safe_op_step. intros g. apply rtc_once. constructor.
  - safe_tac.
    + apply safe_op_step. intros g. apply rtc_once. constructor.
    + apply safe_rollback_expected.
Qed.
#[local] Hint Resolve safe_rollback : safe.

Lemma safe_abandon {A} b : safe (Some b) always (abandon env info (A := A)) any.
Proof. unfold abandon. safe_tac. Qed.
#[local] Hint Resolve safe_abandon : safe.

Lemma safe_refuse b req rc : safe (Some b) always (refuse env info req rc) any.
Proof. unfold refuse. safe_tac. Qed.
#[local] Hint Resolve safe_refuse : safe.

Lemma safe_still_joining b : safe (Some b) always (still_joining env info) any.
Proof. unfold still_joining. safe_tac. Qed.
#[local] Hint Resolve safe_still_joining : safe.

(** *** Joining *)

Lemma safe_attach b names : safe (Some b) always (attach_plugins env info names) any.
Proof.
  induction names as [|name names IH]; cbn [attach_plugins]; safe_tac.
  intros w Hw _. destruct (attach_ok name w (proj1 Hw)) as [Hs Hl]. cbn in *.
  split; [done|]. split; [|done]. eapply sound_steps; [done|done|by rewrite Hl].
Qed.
#[local] Hint Resolve safe_attach : safe.

Lemma apply_settings_step fs g : rtc step g (apply_settings fs g).
Proof.
  apply rtc_once. set (r := apply_settings fs g).
  assert (r = bump_revision (g <| player_ttl := player_ttl r |>
                               <| empty_game_ttl := empty_game_ttl r |>
                               <| flags := flags r |> <| max_peers := max_peers r |>)) as E.
  { subst r. unfold apply_settings. destruct g.
    destruct (get_field TInt32 KeyPlayerTTL fs), (get_field TInt32 KeyEmptyRoomTTL fs),
      (get_field TInt32 KeyGameFlags fs);
      (destruct (got THashtable KeyGameProperties fs) as [props|];
       [destruct (_ ≫= _)|]; reflexivity). }
  rewrite E. apply step_settings.
Qed.

Lemma safe_configure b fs : safe (Some b) always (configure_room env info fs) any.
Proof.
  unfold configure_room. safe_tac. apply safe_on_room. intros. apply apply_settings_step.
Qed.
#[local] Hint Resolve safe_configure : safe.

Lemma safe_join_hooks b req fs : safe (Some b) always (join_hooks env info req fs) any.
Proof.
  unfold join_hooks. safe_tac; apply safe_hook; [apply before_join_ok|apply create_ok].
Qed.
#[local] Hint Resolve safe_join_hooks : safe.

Lemma safe_reserve b users u : safe (Some b) always (reserve_expected env users u) any.
Proof.
  induction users as [|e users IH]; cbn [reserve_expected]; safe_tac.
  apply safe_op_step. intros g. apply rtc_once. constructor.
Qed.
#[local] Hint Resolve safe_reserve : safe.

(** The node of a new peer has an actor number when it is valid. *)
Lemma create_peer_node g p :
  game_ok g → is_valid (create_peer env g p).2 = true → node_ok (create_peer env g p).2.
Proof.
  intros Hok. unfold create_peer. destruct (p ≫= peer_user env); [|done].
  destruct (alloc_actor_spec (Z.to_nat 254) g (ok_last _ Hok)) as (l & E & Hl & Hcase).
  destruct (alloc_actor (Z.to_nat 254) g) as [g' a]. cbn [fst snd] in *.
  assert (a ≤ 254) by (destruct Hcase as [[-> _]|(-> & _)]; lia).
  destruct (is_valid (mkGamePeer p (Some (self g')) a ∅ default_groups true)) eqn:Hv;
    [|done].
  intros _. apply Z.ltb_lt in Hv. split; [done|]. cbn [snd]. upd. cbn [actor_id] in *. lia.
Qed.

Lemma safe_pure {A} j (φ : Prop) (m : M A) R :
  (φ → safe j always m R) → safe j (λ _, φ) m R.
Proof. intros Hm w Hw Hp. by apply (Hm Hp). Qed.

Lemma safe_admission b req fs : safe (Some b) always (admission env settings info req fs) any.
Proof.
  unfold admission. apply safe_get_bind. intros w0 (_ & _ & Eb & _) _. cbv zeta.
  destruct (_ && _) eqn:Hl; [apply safe_pre, safe_abandon|].
  destruct (validate_join _ _ _ _ _ _); try (apply safe_pre; apply safe_refuse).
  eapply safe_seq; [apply safe_pre, safe_reserve|]. intros _.
  eapply (safe_bind _ _ (λ gp _, is_valid gp = true → node_ok gp)).
  { apply safe_room_op. intros w (Hok & _) _. cbn [fst snd]. split.
    - apply rtc_once. constructor.
    - intros Hv. by apply create_peer_node. }
  intros gp. apply safe_pure. intros Hgp.
  destruct (is_valid gp) eqn:Hv; cbn [negb]; [|apply safe_refuse].
  specialize (Hgp eq_refl). safe_tac. apply safe_op_step. intros g. cbn [fst].
  apply rtc_once. destruct (is_master _); constructor; by left.
Qed.
#[local] Hint Resolve safe_admission : safe.

Lemma safe_joined_hooks b req : safe (Some b) always (joined_hooks env info req) any.
Proof.
  unfold joined_hooks. safe_tac.
  all: try (apply safe_op_step; intros; apply rtc_once; constructor).
  all: try (apply safe_room_step; intros; apply step_actor_edit).
  all: match goal with |- context [on_join_game ?gp] =>
         apply safe_hook; intros w Hg; destruct (join_ok gp w Hg) as [Hs Hl];
         by destruct (on_join_game gp w) as [[[??]?]?]
       end.
Qed.
#[local] Hint Resolve safe_joined_hooks : safe.

Lemma safe_insert_props b fs :
  safe (Some b) always (insert_join_props env settings info fs) any.
Proof.
  unfold insert_join_props. safe_tac.
  - apply safe_room_step. intros. apply step_actor_props.
  - apply safe_op_step. intros r. unfold insert_game_props.
    match goal with |- context [map_to_list ?props] =>
      pose proof (step_game_props r settings info (map_to_list props)) as Hs end.
    destruct (insert_game_props_in _ _ _ _). cbn in *. by apply rtc_once.
Qed.
#[local] Hint Resolve safe_insert_props : safe.

Lemma safe_commit b : safe (Some b) always (commit_join env info) any.
Proof.
  unfold commit_join. safe_tac. apply safe_op_step. intros g. apply rtc_once, step_commit.
Qed.
#[local] Hint Resolve safe_commit : safe.

Lemma flood_step g a : rtc step g (flood_peer_by_actor env g a).1.1.
Proof.
  unfold flood_peer_by_actor, flood_peer. destruct (find_actor g a) as [gp|]; [|done].
  destruct (negb _); [done|]. destruct (lock env (peer gp)) as [p|]; [|done].
  destruct (env !! p) as [pr|]; [|done]. cbn [fst]. apply rtc_once.
  apply (step_cache g (λ l, (flood_event p (protocol pr) (actor_id gp) <$> l).*1)).
Qed.

Lemma safe_welcome b req a t c : safe (Some b) always (welcome env info req a t c) any.
Proof.
  unfold welcome. safe_tac; apply safe_op_step; intros; apply flood_step.
Qed.
#[local] Hint Resolve safe_welcome : safe.

Lemma safe_finish_join b req fs : safe (Some b) always (finish_join env settings info req fs) any.
Proof. unfold finish_join. safe_tac. Qed.
#[local] Hint Resolve safe_finish_join : safe.

Lemma safe_join_body b req fs : safe (Some b) always (join_body env settings info req fs) any.
Proof. unfold join_body. safe_tac. Qed.

Lemma safe_ensure_reset b : safe (Some b) always (ensure_reset env info) any.
Proof. unfold ensure_reset. safe_tac. Qed.

Lemma safe_retain j req now : safe j always (retain_join req now) any.
Proof. unfold retain_join. safe_tac. Qed.
#[local] Hint Resolve safe_retain : safe.

(** Enter the guarded part of a join from a world in which the room was seen
    created unless this join creates it. *)
Lemma safe_enter w0 (L : JoinLocals) (m : M ()) :
  (is_master L = false → is_created (room w0) = true) →
  safe (Some (is_master L)) always m any →
  safe None (λ w, w = w0) (on_locals (λ _, L) ;;; m) any.
Proof.
  intros Hc Hm w (Hok & Hl & _) ->.
  specialize (Hm (w0 <| locals := L |>)). unfold bind, on_locals, modify.
  change (w0 <| locals ::= λ _, L |>) with (w0 <| locals := L |>).
  destruct Hm as (Hs & (Hok' & Hl' & _) & _); [by split|done|].
  destruct (m _) as [[w' out] r]. cbn in *. split; [done|]. by split.
Qed.

Lemma safe_the_room_bind {A} j P (f : Game → M A) R :
  (∀ w0, sound j w0 → P w0 → safe j (λ w, w = w0) (f (room w0)) R) →
  safe j P (bind the_room f) R.
Proof.
  intros Hf w Hw Hp. pose proof (Hf w Hw Hp w Hw eq_refl) as Hr.
  unfold bind, the_room. by destruct (f (room w) w) as [[??]?].
Qed.

Lemma safe_join_game req now : safe None always (join_game env settings info req now) any.
Proof.
  unfold join_game.
  do 2 (eapply safe_seq; [solve [eauto with safe typeclass_instances]|intros ?]).
  eapply safe_seq; [apply safe_look|intros g]. cbv zeta.
  destruct (negb _); [safe_tac|]. destruct (is_creating g); [safe_tac|].
  destruct (_ && _); [safe_tac|]. eapply safe_seq; [apply safe_look|intros owner].
  eapply safe_seq; [|intros gen].
  { apply safe_op_step; intros; apply rtc_once, step_begin. }
  eapply safe_seq; [safe_tac|intros _]. apply safe_the_room_bind. intros w0 _ _.
  destruct (_ && _) eqn:Hg; [safe_tac|]. apply safe_enter.
  - cbn [is_master]. destruct (gen =? 0); [|done]. cbn in Hg. by bools.
  - apply safe_scope; [apply safe_join_body|apply safe_ensure_reset].
Qed.
#[local] Hint Resolve safe_join_game : safe.

(** *** The other requests *)

Lemma safe_leave j req : safe j always (leave env req) any.
Proof. unfold leave. safe_tac. apply safe_hook, leave_ok. Qed.
#[local] Hint Resolve safe_leave : safe.

Lemma safe_set_hooks j req b t u e : safe j always (set_hooks env req b t u e) any.
Proof.
  unfold set_hooks. safe_tac.
  match goal with |- context [before_set_properties ?gp b t u e] =>
    apply safe_hook; intros w Hg; destruct (before_set_ok gp b t u e w Hg) as [Hs Hl];
    by destruct (before_set_properties gp b t u e w) as [[[??]?]?]
  end.
Qed.
#[local] Hint Resolve safe_set_hooks : safe.

Lemma game_props_step g up : rtc step g (insert_game_props settings info g up).1.
Proof. apply rtc_once, (step_game_props g settings info (map_to_list up)). Qed.

Lemma apply_game_props_step g up e :
  rtc step g (apply_game_props settings info g up e).1.1.
Proof.
  unfold apply_game_props.
  destruct (match e with Some e => negb (expect_game_props g e) | None => false end); [done|].
  pose proof (game_props_step g up). by destruct (insert_game_props _ _ _ _).
Qed.

Lemma apply_actor_props_step g a up e g' ok :
  apply_actor_props g a up e = Some (g', ok) → rtc step g g'.
Proof.
  unfold apply_actor_props.
  assert (rtc step g (insert_actor_props g a up).1) as Hs by apply rtc_once, step_actor_props.
  destruct e as [e|].
  - destruct (expect_actor_props g a e) as [[]|]; [|by intros [= <- _]|done].
    intros [= E]. by rewrite E in Hs.
  - intros [= E]. by rewrite E in Hs.
Qed.

Lemma safe_apply_props j t ps e : safe j always (apply_props settings info t ps e) any.
Proof.
  unfold apply_props. destruct (negb _).
  - apply safe_the_room_bind. intros w0 _ _.
    destruct (apply_actor_props _ _ _ _) as [[g ok]|] eqn:E; [|safe_tac].
    eapply safe_seq; [|intros; by apply safe_ret].
    apply safe_on_room. intros w _ ->. by eapply apply_actor_props_step.
  - apply safe_op_step. intros. apply apply_game_props_step.
Qed.
#[local] Hint Resolve safe_apply_props : safe.

Lemma safe_set_properties j req : safe j always (set_properties env settings info req) any.
Proof. unfold set_properties. safe_tac. apply safe_hook, set_ok. Qed.
#[local] Hint Resolve safe_set_properties : safe.

Lemma safe_change_groups j req : safe j always (change_interest_groups env req) any.
Proof.
  unfold change_interest_groups. safe_tac. apply safe_op_step. intros.
  apply rtc_once, step_groups.
Qed.
#[local] Hint Resolve safe_change_groups : safe.

Lemma safe_room_request req now : safe None always (room_request env settings info req now) any.
Proof. unfold room_request. safe_tac. Qed.

Lemma safe_disconnect : safe None always (handle_disconnect env info) any.
Proof.
  unfold handle_disconnect, drop_creation, depart. safe_tac.
  - apply safe_op_step. intros. apply rtc_once. constructor.
  - apply safe_room_step. intros. apply step_cache.
  - apply safe_hook, leave_ok.
  - apply safe_op_step. intros. apply rtc_once. constructor.
Qed.

Lemma safe_poll_join now : safe None always (poll_join now) any.
Proof. unfold poll_join. safe_tac. Qed.

Lemma safe_slow_update known now : safe None always (handle_slow_update known now) any.
Proof. unfold handle_slow_update, poll_authentication, poll_join. safe_tac. Qed.

(** What a connection does: handle a request, notice its end, or look at its
    pending requests. *)
Inductive Activity :=
  | ARequest (req : Request) (now : Z)
  | ADisconnect
  | ASlowUpdate (known : string → bool) (now : Z).

Definition act (a : Activity) w : World :=
  match a with
  | ARequest req now => (room_request env settings info req now w).1.1
  | ADisconnect => (handle_disconnect env info w).1.1
  | ASlowUpdate known now => (handle_slow_update known now w).1.1
  end.

(** What any sequence of activities does to the room. *)
Lemma activities_ok (w : World) (l : list Activity) :
  game_ok (room w) → lease_ok (room w) →
  let w' := foldl (λ w a, act a w) w l in
  rtc step (room w) (room w') ∧ game_ok (room w') ∧
  (is_created (room w) = true → is_created (room w') = true).
Proof.
  intros Hok Hl. cbn zeta.
  assert (sound None w) as Hs by done. clear Hok Hl.
  assert (∀ a w, sound None w → rtc step (room w) (room (act a w)) ∧ sound None (act a w))
    as Hact.
  { intros a v Hv. destruct a as [req now| |known now]; cbn [act].
    - destruct (safe_room_request req now v Hv I) as (? & ? & _). done.
    - destruct (safe_disconnect v Hv I) as (? & ? & _). done.
    - destruct (safe_slow_update known now v Hv I) as (? & ? & _). done. }
  assert (rtc step (room w) (room (foldl (λ w a, act a w) w l))) as Hr.
  { revert w Hs. induction l as [|a l IH]; intros w Hs; [done|]. cbn [foldl].
    destruct (Hact a w Hs) as [Hst Hs']. etransitivity; [exact Hst|]. by apply IH. }
  destruct Hs as (Hok & Hl & _). split; [done|]. split; [by eapply steps_ok|].
  by apply (steps_lease_ok _ _ Hok Hl Hr).
Qed.
(** C11: Whatever requests a connection sends, in whatever order, and whenever
    it goes away, it changes its room through the room's own operations only,
    so the room keeps its invariant and a created room stays created; this
    holds on every path through the handler, the rollback of a failed join
    included, and with any plugins that keep to the room's operations. *)
Theorem connection_uses_room_operations (w : World) (l : list Activity) :
  game_ok (room w) → lease_ok (room w) →
  let w' := foldl (λ w a, act a w) w l in
  rtc step (room w) (room w') ∧ game_ok (room w') ∧
  (is_created (room w) = true → is_created (room w') = true).
Proof. apply activities_ok. Qed.
End programs.

#[export] Instance no_plugins_laws `{Ser, Codes, !Wire} : PluginsLaws (H2 := no_plugins).
Proof. by split. Qed.
