(* ===== verification/HandlerGameJoin.v ===== *)
(** * Joining an existing room

    What a join does to a room that is already created, in a build without
    plugins: it is refused exactly for the reasons [validate_join] gives, and
    otherwise always succeeds. *)

From S2P Require Import Prelude Program Values Types GameState GameMembers GameCreation GameProps GameEvents GameSteps GameAdmission DataModel HandlerGame.
Open Scope Z_scope.

Section join.
Context `{Ser, Codes, !Wire}.
#[local] Existing Instance no_plugins.
Context (env : PeerEnv) (settings : AppSettings) (info : LobbyInfo).
Implicit Types (w : World) (g : Game) (req : Request).

(** Run a sequence. *)
Lemma run_bind {A B} (m : M A) (f : A → M B) w w1 out1 x w2 out2 r :
  m w = (w1, out1, Some x) → f x w1 = (w2, out2, r) →
  bind m f w = (w2, out1 ++ out2, r).
Proof. intros E1 E2. unfold bind. by rewrite E1, E2. Qed.

Lemma run_stop {A B} (m : M A) (f : A → M B) w w1 out1 :
  m w = (w1, out1, None) → bind m f w = (w1, out1, None).
Proof. intros E1. unfold bind. by rewrite E1. Qed.

Lemma run_get {A} (f : World → M A) w r : f w w = r → bind get f w = r.
Proof. intros <-. unfold bind, get. by destruct (f w w) as [[??]?]. Qed.

Lemma run_room {A} (f : Game → M A) w r : f (room w) w = r → bind the_room f w = r.
Proof. intros <-. unfold bind, the_room. by destruct (f (room w) w) as [[??]?]. Qed.

(** A step that says nothing. *)
Lemma run_quiet {A B} (m : M A) (f : A → M B) w w1 x r :
  m w = (w1, [], Some x) → f x w1 = r → bind m f w = r.
Proof. intros E1 <-. unfold bind. rewrite E1. by destruct (f x w1) as [[??]?]. Qed.

(** The reservations of a join, when its peer is not a member. *)
Lemma reserve_run users u w :
  find_peer env (room w) (Some (this_peer (handler w))) = None →
  ∃ added eff, reserve_expected env users u w =
    (w <| room := reserve_users (filter (λ e, e ≠ EmptyString ∧ e ≠ u) users) 30000 (room w) |>
       <| locals ::= λ l, l <| added_expected_users ::= λ a, a ++ added |> |>,
     Emit <$> eff, Some ()).
Proof.
  revert w. induction users as [|e users IH]; intros w Hf; cbn [reserve_expected].
  { exists [], []. destruct w as [h r [m n a c l]]. cbn. unfold ret. by rewrite app_nil_r. }
  rewrite filter_cons. unfold bind at 1, get. cbn [fst snd].
  rewrite Hf, (bool_decide_eq_false_2 (is_Some None)) by (by intros []).
  rewrite orb_false_r. unfold empty_str.
  destruct (decide (e ≠ EmptyString ∧ e ≠ u)) as [[He Hu]|Hn].
  - rewrite (bool_decide_eq_false_2 (e = EmptyString)), (bool_decide_eq_false_2 (e = u)) by done.
    cbn [orb].
    set (g1 := (reserve_expected_user_with_generation (room w) e 30000).1.1).
    assert (∃ added eff, (r ⇐ room_op (λ g, reserve_expected_user_with_generation g e 30000);
         match r with
         | Some n => on_locals (λ l, l <| added_expected_users ::= λ a, a ++ [(e, n)] |>)
         | None => ret ()
         end) w =
      (w <| room := g1 |> <| locals ::= λ l, l <| added_expected_users ::= λ a, a ++ added |> |>,
       Emit <$> eff, Some ())) as (added & eff & E).
    { subst g1. unfold bind, room_op.
      destruct (reserve_expected_user_with_generation (room w) e 30000) as [[g' [n|]] eff].
      - exists [(e, n)], eff. cbn. by rewrite app_nil_r.
      - exists [], eff. cbn. unfold ret. destruct w as [h r [m n a c l]]. cbn.
        by rewrite !app_nil_r. }
    destruct (IH (w <| room := g1 |>
      <| locals ::= λ l, l <| added_expected_users ::= λ a, a ++ added |> |>))
      as (added' & eff' & E').
    { upd. unfold find_peer in *. subst g1.
      pose proof (f_equal peers (reserve_same_room (room w) e 30000)) as Ep. cbn in Ep.
      change (peers (GameCreation.room ?x)) with (peers x) in Ep. by rewrite Ep. }
    exists (added ++ added'), (eff ++ eff').
    rewrite (run_bind _ _ _ _ _ _ _ _ _ E E'). cbn [app]. rewrite fmap_app.
    destruct w as [h r [m n a c l]]. cbn. by rewrite app_assoc.
  - assert (bool_decide (e = EmptyString) || bool_decide (e = u) = true) as ->.
    { apply orb_true_iff. rewrite !bool_decide_eq_true.
      destruct (decide (e = EmptyString)); [by left|right].
      destruct (decide (e = u)); [done|]. by destruct Hn. }
    destruct (IH w Hf) as (added & eff & E). exists added, eff.
    by rewrite (run_bind _ _ _ _ _ _ _ _ _ (eq_refl : ret () w = (w, [], Some ())) E).
Qed.

(** Where an admitted peer ends up. *)
Definition admitted g users u n gp : Game :=
  (emplace_peer (reserve_users (filter (λ e, e ≠ EmptyString ∧ e ≠ u) users) 30000 g
                   <| last_actor_id := n |>) gp u).1.

Lemma admitted_peers g users u n gp :
  peers (admitted g users u n gp) = peers g ++ [gp <| owner_game := Some (self g) |>].
Proof.
  unfold admitted, emplace_peer. cbn [fst].
  set (L := filter _ users).
  destruct (reserve_users_spec L 30000 g) as (Ep & _).
  match goal with |- peers (remove_expected_user ?x ?v) = _ =>
    destruct (remove_expected_size x v) as (_ & -> & _) end.
  upd. rewrite Ep. do 3 f_equal.
  assert (self (reserve_users L 30000 g) = self g) as ->; [|done].
  clear Ep. generalize L. intros l. revert g. induction l as [|e l IH]; intros g; [done|].
  change (self (reserve_users l 30000 (reserve_expected_user_with_generation g e 30000).1.1)
          = self g).
  rewrite IH. exact (f_equal self (reserve_same_room g e 30000)).
Qed.

(** Who is expected once [u] got in and asked for [users]. *)
Definition expected_with (old : gset string) (users : list string) (u : string) : gset string :=
  (old ∪ list_to_set (filter (λ e, e ≠ EmptyString) users)) ∖ {[u]}.

Lemma admitted_fits g users u n gp :
  validate_join settings env g u users false = Ok →
  within_capacity settings (admitted g users u n gp) ∧
  expected_users (admitted g users u n gp) = expected_with (expected_users g) users u.
Proof.
  intros Hv. pose proof (admitted_peers g users u n gp) as Ep.
  assert (dummy_peer_count (admitted g users u n gp) = dummy_peer_count g ∧
    max_peers (admitted g users u n gp) = max_peers g ∧
    expected_users (admitted g users u n gp) =
      (expected_users g ∖ {[u]}) ∪ unique_expected g u users) as (Ed & Em & Ee).
  { unfold admitted, emplace_peer. cbn [fst]. set (L := filter _ users).
    destruct (reserve_users_spec L 30000 g) as (_ & E1 & E2 & E3).
    match goal with |- context [remove_expected_user ?x ?v] =>
      destruct (remove_expected_size x v) as (-> & _ & -> & ->) end.
    upd. rewrite E1, E2, E3. split; [done|]. split; [done|].
    unfold unique_expected. apply set_eq. intros e.
    rewrite !elem_of_difference, !elem_of_union, elem_of_difference, !elem_of_list_to_set,
      !list_elem_of_filter, !elem_of_singleton. subst L. rewrite list_elem_of_filter.
    destruct (decide (e ∈ expected_users g)); tauto. }
  split.
  - apply (join_fits settings env g _ u users false Hv); [|done..].
    rewrite Ep, length_app. cbn. lia.
  - rewrite Ee. unfold unique_expected, expected_with. apply set_eq. intros e.
    rewrite elem_of_difference, !elem_of_union, elem_of_difference, !elem_of_list_to_set,
      !list_elem_of_filter, elem_of_singleton.
    destruct (decide (e ∈ expected_users g)); tauto.
Qed.

(** What [validate_join] accepts. *)
Lemma validate_ok g u users :
  0 ≤ dummy_peer_count g → validate_join settings env g u users false = Ok →
  is_created g = true ∧ len (peers g) < 254 ∧
  (has_flag (flags g) CheckUserOnJoin = true → user_joined env g u = false).
Proof.
  intros Hd. unfold validate_join, validate_join_count.
  destruct (is_created g); [|done]. cbn [negb andb]. destruct (negb (is_open g)); [done|].
  set (n := Z.of_nat (size (unique_expected g u users))).
  assert (0 ≤ n) by lia.
  destruct (_ && _); [done|]. destruct (negb _ && _); [done|].
  destruct (Z.ltb_spec 0xfe (len (peers g) + dummy_peer_count g +
    Z.of_nat (size (expected_users g)) +
    ((if bool_decide (u ∈ expected_users g) then 0 else 1) + n))) as [|Hle]; [done|].
  destruct (has_flag _ _ && _) eqn:Hu; [done|]. intros _. split; [done|]. split.
  - destruct (bool_decide _) eqn:Hb; bools; [|lia].
    assert (size (expected_users g) ≠ 0)%nat; [|lia].
    intros E. apply size_empty_inv in E. set_solver.
  - intros Hf. rewrite Hf in Hu. by destruct (user_joined env g u).
Qed.

(** Fields that neither reservations nor the actor search touch. *)
Lemma reserve_users_room l g : same_room g (reserve_users l 30000 g).
Proof.
  revert g. induction l as [|e l IH]; intros g; [apply same_room_refl|].
  eapply same_room_trans; [apply (reserve_same_room g e 30000)|apply IH].
Qed.

Lemma reserve_users_ok l g : game_ok g → game_ok (reserve_users l 30000 g).
Proof.
  revert g. induction l as [|e l IH]; intros g Hok; [done|]. apply IH.
  apply (steps_ok g); [done|]. apply rtc_once. constructor.
Qed.

(** The user is a member as long as the same nodes are in the room. *)
Lemma user_joined_peers g g' u :
  peers g' = peers g → user_joined env g' u = user_joined env g u.
Proof. unfold user_joined. by intros ->. Qed.

Lemma find_actor_peers g g' a : peers g' = peers g → find_actor g' a = find_actor g a.
Proof. unfold find_actor. by intros ->. Qed.

Lemma admission_run req fs w u :
  let g := room w in
  let p := this_peer (handler w) in
  let users := got TStrings KeyExpectedUsers fs in
  game_ok g → 0 ≤ dummy_peer_count g → is_creating g = false →
  disconnected_ (handler w) = false → is_master (locals w) = false →
  peer_user env p = Some u → find_peer env g (Some p) = None →
  validate_join settings env g u users false = Ok →
  ∃ gp n added eff,
    admission env settings info req fs w =
      (w <| room := admitted g users u n gp |>
         <| handler ::= λ h, h <| game_peer_ := true |> |>
         <| locals ::= λ l, l <| added_expected_users ::= λ a, a ++ added |> |>,
       Emit <$> eff, Some ()) ∧
    peer gp = Some p ∧ node_ok gp ∧ find_actor g (actor_id gp) = None.
Proof.
  cbn zeta. intros Hok Hd Hc Hdis Hm Hu Hf Hv.
  destruct (validate_ok _ _ _ Hd Hv) as (Hcr & Hlen & Huj).
  destruct (reserve_run (got TStrings KeyExpectedUsers fs) u w Hf) as (added & eff & Er).
  set (L := filter _ _) in Er. set (g1 := reserve_users L 30000 (room w)) in *.
  assert (game_ok g1) as Hok1 by by apply reserve_users_ok.
  assert (peers g1 = peers (room w)) as Ep1 by apply (reserve_users_spec L 30000 (room w)).
  pose proof (reserve_users_room L (room w)) as Hsr.
  assert (is_created g1 = true) as Hcr1 by (rewrite <-Hcr; exact (f_equal is_created Hsr)).
  assert (flags g1 = flags (room w)) as Hfl1 by exact (f_equal flags Hsr).
  destruct (create_peer_effect env g1 (this_peer (handler w)) u Hok1 Hu)
    as (_ & Hvalid & Hgp & n & En).
  rewrite Ep1 in Hvalid. specialize (Hvalid Hlen). specialize (Hgp Hvalid).
  destruct Hgp as (Hpeer & Hnode & Hfree).
  destruct (create_peer env g1 (Some (this_peer (handler w)))) as [g2 gp] eqn:Ecp.
  cbn [fst snd] in *. subst g2.
  exists gp, n, added, (eff ++ []). split; [|split; [done|split; [done|]]].
  2: { by rewrite <-(find_actor_peers _ _ _ Ep1). }
  unfold admission. apply run_get. cbv zeta. rewrite Hm. cbn [andb].
  assert (user_of env w = u) as -> by by unfold user_of; rewrite Hu.
  rewrite Hv.
  set (w1 := w <| room := g1 |>
    <| locals ::= λ l, l <| added_expected_users ::= λ a, a ++ added |> |>) in *.
  assert (Ecreate : room_op (λ g, (create_peer env g (Some (this_peer (handler w))), [])) w1 =
    (w1 <| room := g1 <| last_actor_id := n |> |>, [], Some gp)).
  { unfold room_op. change (room w1) with g1. by rewrite Ecp. }
  rewrite fmap_app. cbn [fmap list_fmap].
  apply (run_bind _ _ _ _ _ _ _ _ _ Er).
  apply (run_quiet _ _ _ _ _ _ Ecreate).
  rewrite Hvalid. cbn [negb].
  set (w2 := w1 <| room := g1 <| last_actor_id := n |> |>).
  assert (still_joining env info w2 = (w2, [], Some ())) as Es.
  { unfold still_joining. apply run_get. change (disconnected_ (handler w2)) with
      (disconnected_ (handler w)). change (is_master (locals w2)) with (is_master (locals w)).
    by rewrite Hdis, Hm. }
  apply (run_quiet _ _ _ _ _ _ Es).
  assert (add_peer env (g1 <| last_actor_id := n |>) gp =
    emplace_peer (g1 <| last_actor_id := n |>) gp u) as Eadd.
  { unfold add_peer. upd. rewrite Hcr1. cbn [negb]. rewrite andb_false_r.
    rewrite Hpeer. unfold peer_user in Hu. unfold lock. cbn [mbind option_bind].
    destruct (env !! this_peer (handler w)) as [pr|] eqn:He; [|done].
    rewrite decide_True by done. cbn [mbind option_bind]. unfold peer_user.
    rewrite He. cbn [mbind option_bind] in *. rewrite Hu.
    rewrite Hfree.
    rewrite (bool_decide_eq_false_2 (is_Some None)) by (by intros []).
    rewrite Hfl1. destruct (has_flag _ _) eqn:Hfl; [|done]. cbn [andb].
    rewrite (user_joined_peers (room w) g1) by done. by rewrite Huj. }
  unfold bind, room_op. change (room w2) with (g1 <| last_actor_id := n |>).
  rewrite Eadd. unfold emplace_peer. unfold on_handler, modify. cbn [fst snd].
  reflexivity.
Qed.

(** ** After the admission *)

(** The part of the output that is not an effect of the room. *)
Definition is_effect (o : Out) : bool := match o with Emit _ => true | _ => false end.
Definition spoken (out : list Out) : list Out := remove_if is_effect out.

Lemma spoken_app l1 l2 : spoken (l1 ++ l2) = spoken l1 ++ spoken l2.
Proof. apply remove_if_app. Qed.

Lemma spoken_emit l : spoken (Emit <$> l) = [].
Proof. apply remove_if_true. by intros x (e & -> & _)%list_elem_of_fmap. Qed.

(** A node at the end of the room is found by its peer if no other is. *)
Lemma find_peer_snoc g g' gp p :
  peers g' = peers g ++ [gp] → find_peer env g (Some p) = None →
  active gp = true → lock env (peer gp) = Some p →
  find_peer env g' (Some p) = Some gp.
Proof.
  unfold find_peer. intros -> Hn Ha Hl. rewrite find_first_app, Hn. cbn.
  by rewrite Ha, Hl, bool_decide_eq_true_2.
Qed.

Lemma find_actor_snoc g g' gp :
  peers g' = peers g ++ [gp] → find_actor g (actor_id gp) = None →
  active gp = true → find_actor g' (actor_id gp) = Some gp.
Proof.
  unfold find_actor. intros -> Hn Ha. rewrite find_first_app, Hn. cbn.
  by rewrite Ha, Z.eqb_refl.
Qed.

(** Nodes whose properties were edited keep their peers and numbers. *)
Definition same_members g g' : Prop :=
  actor_id <$> peers g' = actor_id <$> peers g ∧
  (∀ p, actor_id_for_peer env g' p = actor_id_for_peer env g p) ∧
  (∀ a, actor_id <$> find_actor g' a = actor_id <$> find_actor g a).

Lemma find_first_update {A B} (h : A → B) (sel q : A → bool) (f : A → A) (l : list A) :
  (∀ x, q (f x) = q x) → (∀ x, h (f x) = h x) →
  h <$> find_first q (update_first sel f l) = h <$> find_first q l.
Proof.
  intros Hq Hh. induction l as [|x l IH]; [done|]. cbn.
  destruct (sel x); cbn; rewrite ?Hq; destruct (q x); cbn; rewrite ?Hh; done.
Qed.

Lemma same_members_update g sel f :
  (∀ gp, actor_id (f gp) = actor_id gp) → (∀ gp, active (f gp) = active gp) →
  (∀ gp, peer (f gp) = peer gp) →
  same_members g (g <| peers ::= update_first sel f |>).
Proof.
  intros Hid Hac Hpe. split; [|split].
  - upd. by apply update_first_fmap.
  - intros [p|]; [|done]. unfold actor_id_for_peer, find_peer. upd.
    apply find_first_update; [|done]. intros x. by rewrite Hac, Hpe.
  - intros a. unfold find_actor. upd. apply find_first_update; [|done].
    intros x. by rewrite Hac, Hid.
Qed.

(** Sequences, output by output. *)
Lemma run_said {A B} (m : M A) (f : A → M B) w w1 out1 x (Q : World → list Out → Prop) :
  m w = (w1, out1, Some x) →
  (∃ w2 out2 r, f x w1 = (w2, out2, r) ∧ Q w2 (out1 ++ out2)) →
  ∃ w2 out2 r, bind m f w = (w2, out2, r) ∧ Q w2 out2.
Proof.
  intros E1 (w2 & out2 & r & E2 & Hq). exists w2, (out1 ++ out2), r.
  split; [|done]. by apply (run_bind _ _ _ _ _ _ _ _ _ E1).
Qed.

(** Everything the capacity depends on. *)
Definition room_size g :=
  (len (peers g), dummy_peer_count g, max_peers g, expected_users g).

Lemma flood_members g a :
  let g' := (flood_peer_by_actor env g a).1.1 in
  same_members g g' ∧ room_size g' = room_size g.
Proof.
  cbn zeta. unfold flood_peer_by_actor, flood_peer.
  destruct (find_actor g a) as [gp|]; [|done]. destruct (negb _); [done|].
  destruct (lock env (peer gp)) as [p|]; [|done]. by destruct (env !! p).
Qed.

Lemma insert_props_members g a props :
  let g' := (insert_actor_props g a props).1 in
  same_members g g' ∧ room_size g' = room_size g.
Proof.
  cbn zeta. unfold insert_actor_props. destruct (find_actor g a); [|done]. cbn [fst].
  split; [by apply same_members_update|]. unfold room_size. upd. do 3 f_equal.
  rewrite <-(length_fmap actor_id (update_first _ _ _)).
  by rewrite update_first_fmap, length_fmap.
Qed.

Lemma same_members_trans g1 g2 g3 :
  same_members g1 g2 → same_members g2 g3 → same_members g1 g3.
Proof.
  intros (H1' & H2' & H3') (H4 & H5 & H6). split; [congruence|].
  split; intros; by rewrite ?H5, ?H6, ?H2', ?H3'.
Qed.

Lemma when_emit b l w :
  when b (emit l) w = (w, Emit <$> (if b then l else []), Some ()).
Proof. by destruct b. Qed.

(** A room operation whose answer is ignored. *)
Lemma run_op {A} (f : Game → Game * A * list Effect) w :
  (room_op f ;;; ret ()) w =
  (w <| room := (f (room w)).1.1 |>, Emit <$> (f (room w)).2, Some ()).
Proof.
  unfold bind, room_op. destruct (f (room w)) as [[g x] eff]. cbn. by rewrite app_nil_r.
Qed.

Lemma welcome_run req w a (t : Hashtable) (b : bool) gp :
  disconnected_ (handler w) = false → game_peer_ (handler w) = true →
  find_actor (room w) a = Some gp → a ≠ 0 →
  ∃ w' out ps, welcome env info req a t b w = (w', out, Some ()) ∧
    spoken out = [Reply (operation_code req) Ok ps (channel_id req)] ∧
    same_members (room w) (room w') ∧ room_size (room w') = room_size (room w) ∧
    handler w' = handler w ∧ locals w' = locals w.
Proof.
  intros Hd Hg Hf Ha. pose proof (find_actor_Some _ _ _ Hf) as (_ & _ & Eid).
  destruct (flood_members (room w) a) as [Hm Hs].
  eexists _, _, _. split.
  - unfold welcome. apply run_get. rewrite Hd, Hg. cbn [negb orb]. cbv zeta.
    rewrite Hf, Eid, (proj2 (Z.eqb_neq a 0) Ha). cbn [negb].
    eapply run_bind; [reflexivity|]. eapply run_bind; [apply when_emit|].
    unfold when. apply run_op.
  - rewrite !spoken_app, !spoken_emit. cbn [app]. upd. done.
Qed.

Lemma still_run w :
  disconnected_ (handler w) = false → is_master (locals w) = false →
  still_joining env info w = (w, [], Some ()).
Proof. intros Hd Hm. unfold still_joining. apply run_get. by rewrite Hd, Hm. Qed.

Lemma insert_join_props_run fs w gp :
  is_master (locals w) = false → 1 ≤ actor_id gp →
  find_peer env (room w) (Some (this_peer (handler w))) = Some gp →
  ∃ g', insert_join_props env settings info fs w =
      (w <| room := g' |>, [], Some (actor_id gp)) ∧
    same_members (room w) g' ∧ room_size g' = room_size (room w).
Proof.
  intros Hm Ha Hf. unfold insert_join_props.
  set (g' := match got THashtable KeyActorProperties fs with
             | Some props => (insert_actor_props (room w) (actor_id gp) props).1
             | None => room w
             end).
  exists g'. split.
  - apply run_get. cbv zeta. rewrite Hf, Hm.
    rewrite (proj2 (Z.eqb_neq (actor_id gp) 0)) by lia.
    subst g'. destruct (got THashtable KeyActorProperties fs); [done|]. by destruct w.
  - subst g'. destruct (got THashtable KeyActorProperties fs); [|done].
    apply insert_props_members.
Qed.

Lemma finish_join_run req fs w gp :
  disconnected_ (handler w) = false → game_peer_ (handler w) = true →
  is_master (locals w) = false → 1 ≤ actor_id gp →
  find_peer env (room w) (Some (this_peer (handler w))) = Some gp →
  find_actor (room w) (actor_id gp) = Some gp →
  ∃ w' out ps, finish_join env settings info req fs w = (w', out, Some ()) ∧
    spoken out = [Reply (operation_code req) Ok ps (channel_id req)] ∧
    same_members (room w) (room w') ∧ room_size (room w') = room_size (room w) ∧
    handler w' = handler w ∧ creation_committed (locals w') = true.
Proof.
  intros Hd Hg Hm Ha Hf Hfa.
  destruct (insert_join_props_run fs w gp Hm Ha Hf) as (g' & Ei & Hmem & Hsz).
  set (w1 := w <| room := g' |>) in *.
  set (w2 := w1 <| locals ::= λ l, l <| creation_committed := true |> |>).
  destruct (find_actor (room w2) (actor_id gp)) as [gp'|] eqn:Hfa'.
  2: { destruct Hmem as (_ & _ & Hmem). specialize (Hmem (actor_id gp)).
       change (room w2) with g' in Hfa'. by rewrite Hfa, Hfa' in Hmem. }
  destruct (welcome_run req w2 (actor_id gp) (get_actor_props g') true gp')
    as (w' & out & ps & Ew & Hsp & Hmem' & Hsz' & Eh & El); [done..|lia|].
  eexists w', _, ps. split; [|split; [|split; [|split; [|split]]]].
  - unfold finish_join. eapply run_bind; [reflexivity|].
    assert (∀ v, (v <| room := room v |>) = v) as -> by by intros [].
    eapply run_bind; [reflexivity|].
    eapply run_bind; [by apply still_run|]. eapply run_bind; [exact Ei|].
    eapply run_bind; [by apply still_run|]. apply run_room. cbv zeta.
    eapply run_bind; [|exact Ew]. unfold commit_join. apply run_get. cbv zeta.
    change (is_master (locals w1)) with (is_master (locals w)). rewrite Hm. reflexivity.
  - rewrite !spoken_app, spoken_emit. done.
  - by eapply same_members_trans.
  - change (room_size (room w2)) with (room_size g') in Hsz'. congruence.
  - done.
  - by rewrite El.
Qed.

(** ** The whole join *)

(** A rollback before anything was admitted or reserved changes nothing. *)
Lemma rollback_nothing w :
  is_master (locals w) = false → game_peer_ (handler w) = false →
  added_expected_users (locals w) = [] →
  ∃ w', rollback_join env info w = (w', [], Some ()) ∧ room w' = room w ∧
    (creation_committed (locals w') || creation_aborted (locals w') = true).
Proof.
  intros Hm Hg Ha. unfold rollback_join.
  destruct (creation_committed (locals w) || creation_aborted (locals w)) eqn:Hc.
  { exists w. split; [|done]. apply run_get. cbv zeta. by rewrite Hc. }
  eexists. split.
  - apply run_get. cbv zeta. rewrite Hc, Hm, Hg. cbn [when].
    eapply run_quiet; [reflexivity|]. eapply run_quiet; [reflexivity|].
    eapply run_quiet; [reflexivity|]. unfold rollback_expected_users. apply run_get.
    upd. rewrite Ha. cbn [release_all foldl]. eapply run_quiet; reflexivity.
  - upd. split; [done|]. apply orb_true_r.
Qed.

Lemma ensure_reset_nothing w :
  is_master (locals w) = false → game_peer_ (handler w) = false →
  added_expected_users (locals w) = [] →
  ∃ w', ensure_reset env info w = (w', [], Some ()) ∧ room w' = room w.
Proof.
  intros Hm Hg Ha. unfold ensure_reset.
  destruct (rollback_nothing w Hm Hg Ha) as (w' & E & Er & _).
  destruct (negb (creation_committed (locals w)) && negb (creation_aborted (locals w)))
    eqn:Hc.
  - exists w'. split; [|done]. apply run_get. by rewrite Hc.
  - exists w. split; [|done]. apply run_get. by rewrite Hc.
Qed.

(** The guarded part of the join, for a room that is already created. *)
Lemma guarded_join req fs w u :
  let g := room w in
  let p := this_peer (handler w) in
  let users := got TStrings KeyExpectedUsers fs in
  let r := scope (join_body env settings info req fs) (ensure_reset env info) w in
  game_ok g → 0 ≤ dummy_peer_count g → is_creating g = false →
  disconnected_ (handler w) = false → game_peer_ (handler w) = false →
  is_master (locals w) = false → creation_committed (locals w) = false →
  creation_aborted (locals w) = false → added_expected_users (locals w) = [] →
  peer_user env p = Some u → find_peer env g (Some p) = None →
  match validate_join_count settings env g u 0 false with
  | Ok =>
      match validate_join settings env g u users false with
      | Ok =>
          ∃ a ps,
            spoken r.1.2 = [Reply (operation_code req) Ok ps (channel_id req)] ∧
            find_actor g a = None ∧
            actor_id <$> peers (room r.1.1) = (actor_id <$> peers g) ++ [a] ∧
            actor_id_for_peer env (room r.1.1) (Some p) = Some a ∧
            within_capacity settings (room r.1.1) ∧
            expected_users (room r.1.1) = expected_with (expected_users g) users u
      | rc => r.1.2 = [Disconnect; Reply (operation_code req) rc ∅ (channel_id req)] ∧
              room r.1.1 = g
      end
  | rc => r.1.2 = [Reply OpJoinGame rc ∅ (channel_id req)] ∧ room r.1.1 = g
  end.
Proof.
  cbn zeta. intros Hok Hd Hc Hdis Hgp Hm Hcom Hab Hadd Hu Hf.
  set (users := got TStrings KeyExpectedUsers fs).
  assert (user_of env w = u) as Euser by by unfold user_of; rewrite Hu.
  (* The body up to the admission. *)
  assert (∀ r, (match validate_join_count settings env (room w) u 0 false with
      | Ok => admission env settings info req fs ;;; finish_join env settings info req fs
      | rc => say [Reply OpJoinGame rc ∅ (channel_id req)] ;;; stop
      end) w = r → join_body env settings info req fs w = r) as Hbody.
  { intros r Hr. unfold join_body. apply (run_quiet _ _ _ w false); [by rewrite <-Hdis|].
    apply run_get. rewrite Hm, Euser.
    destruct (validate_join_count settings env (room w) u 0 false); try exact Hr.
    apply (run_quiet _ _ _ w ()); [done|]. apply (run_quiet _ _ _ w ()); [done|].
    apply (run_quiet _ _ _ w ()); [done|].
    apply (run_quiet _ _ _ w ()); [by apply still_run|exact Hr]. }
  destruct (ensure_reset_nothing w Hm Hgp Hadd) as (w0 & E0 & Er0).
  assert (∀ rc, rc ≠ Ok → validate_join_count settings env (room w) u 0 false = rc →
    let r := scope (join_body env settings info req fs) (ensure_reset env info) w in
    r.1.2 = [Reply OpJoinGame rc ∅ (channel_id req)] ∧ room r.1.1 = room w) as Hrefused.
  { intros rc Hne E. cbn zeta. unfold scope.
    rewrite (Hbody (w, [Reply OpJoinGame rc ∅ (channel_id req)], None)).
    - by rewrite E0.
    - rewrite E. by destruct rc. }
  destruct (validate_join_count settings env (room w) u 0 false) eqn:Ev1;
    try (by apply Hrefused). clear Hrefused.
  destruct (rollback_nothing w Hm Hgp Hadd) as (wr & Er & Err & Hdone).
  assert (∀ rc, rc ≠ Ok → validate_join settings env (room w) u users false = rc →
    let r := scope (join_body env settings info req fs) (ensure_reset env info) w in
    r.1.2 = [Disconnect; Reply (operation_code req) rc ∅ (channel_id req)] ∧
    room r.1.1 = room w) as Hrefused.
  { intros rc Hne E. cbn zeta. unfold scope.
    rewrite (Hbody (wr, [Disconnect; Reply (operation_code req) rc ∅ (channel_id req)], None)).
    - unfold ensure_reset at 1 2. unfold bind, get.
      assert (negb (creation_committed (locals wr)) && negb (creation_aborted (locals wr)) = false)
        as -> by (by rewrite <-negb_orb, Hdone). done.
    - apply run_stop. unfold admission. apply run_get. cbv zeta. rewrite Hm. cbn [andb].
      rewrite Euser. fold users. rewrite E.
      assert (refuse env info req rc w =
        (wr, [Disconnect; Reply (operation_code req) rc ∅ (channel_id req)], None)) as Eref.
      { unfold refuse. eapply run_quiet; [exact Er|]. reflexivity. }
      by destruct rc. }
  destruct (validate_join settings env (room w) u users false) eqn:Ev2;
    try (by apply Hrefused). clear Hrefused.
  destruct (admission_run req fs w u Hok Hd Hc Hdis Hm Hu Hf Ev2)
    as (gp & n & added & eff & Ea & Hpeer & [Hact Hid] & Hfree).
  fold users in Ea.
  set (w1 := w <| room := admitted (room w) users u n gp |>
    <| handler ::= λ h, h <| game_peer_ := true |> |>
    <| locals ::= λ l, l <| added_expected_users ::= λ a, a ++ added |> |>) in *.
  pose proof (admitted_peers (room w) users u n gp) as Ep.
  destruct (admitted_fits (room w) users u n gp Ev2) as [Hcap Hexp].
  set (node := gp <| owner_game := Some (self (room w)) |>) in *.
  assert (lock env (peer node) = Some (this_peer (handler w))) as Hlock.
  { unfold node. upd. rewrite Hpeer. apply lock_Some. split; [done|].
    unfold peer_user in Hu. by destruct (env !! this_peer (handler w)). }
  destruct (finish_join_run req fs w1 node) as (w' & out & ps & Ef & Hsp & Hmem & Hsz & _ & Hcm);
    [done..|unfold node; upd; lia| | |].
  { by apply (find_peer_snoc (room w)). }
  { by apply (find_actor_snoc (room w)). }
  exists (actor_id gp), ps. unfold scope.
  rewrite (Hbody (w', (Emit <$> eff) ++ out, Some ())) by by eapply run_bind.
  assert (ensure_reset env info w' = (w', [], Some ())) as ->.
  { unfold ensure_reset. apply run_get. by rewrite Hcm. }
  cbn [fst snd]. rewrite app_nil_r, spoken_app, spoken_emit.
  destruct Hmem as (Hm1 & Hm2 & _). change (room w1) with (admitted (room w) users u n gp) in *.
  split; [done|]. split; [done|]. split.
  { by rewrite Hm1, Ep, fmap_app. }
  split.
  { rewrite Hm2. unfold actor_id_for_peer.
    rewrite (find_peer_snoc (room w) _ node) by done. done. }
  unfold room_size in Hsz. injection Hsz as S1 S2 S3 S4.
  unfold within_capacity, occupancy in *. rewrite S1, S2, S3, S4. done.
Qed.

(** C12: A peer that was sent to a created room and asks to join it is refused
    exactly with the verdict of the join validation, in which case the room is
    as before; otherwise it always gets in, whatever else the room contains:
    it is answered Ok, becomes a member under a free actor number appended to
    the others, and the room is within its capacity; expected are those that
    were, with those it asked for, an empty name aside, and without itself. *)
Theorem join_existing_room req now w u fs :
  let g := room w in
  let p := this_peer (handler w) in
  let users := got TStrings KeyExpectedUsers fs in
  let r := join_game env settings info req now w in
  game_ok g → 0 ≤ dummy_peer_count g → is_created g = true → is_creating g = false →
  current_game_ (handler w) = true → disconnected_ (handler w) = false →
  game_peer_ (handler w) = false →
  peer_user env p = Some u → find_peer env g (Some p) = None →
  decode join_model (r_parameters req) = inr fs → got TString KeyGameId fs = id g →
  match validate_join_count settings env g u 0 false with
  | Ok =>
      match validate_join settings env g u users false with
      | Ok =>
          ∃ a ps,
            spoken r.1.2 = [Reply (operation_code req) Ok ps (channel_id req)] ∧
            find_actor g a = None ∧
            actor_id <$> peers (room r.1.1) = (actor_id <$> peers g) ++ [a] ∧
            actor_id_for_peer env (room r.1.1) (Some p) = Some a ∧
            within_capacity settings (room r.1.1) ∧
            expected_users (room r.1.1) = expected_with (expected_users g) users u
      | rc => r.1.2 = [Disconnect; Reply (operation_code req) rc ∅ (channel_id req)] ∧
              room r.1.1 = g
      end
  | rc => r.1.2 = [Reply OpJoinGame rc ∅ (channel_id req)] ∧ room r.1.1 = g
  end.
Proof.
  cbn zeta. intros Hok Hd Hcr Hc Hcur Hdis Hgp Hu Hf Hdec Hid.
  set (w1 := w <| room := room w |> <| locals ::= λ _, mkJoinLocals false 0 false false [] |>).
  assert (join_game env settings info req now w =
    scope (join_body env settings info req fs) (ensure_reset env info) w1) as ->.
  { unfold join_game. apply (run_quiet _ _ _ w ()).
    { unfold ensure_joined_state. apply run_get. cbv zeta. unfold actor_id_for_peer.
      by rewrite Hf, andb_false_r. }
    apply (run_quiet _ _ _ w fs). { unfold decode_or_reply. by rewrite Hdec. }
    apply run_room. cbv zeta. rewrite Hid, bool_decide_eq_true_2 by done. cbn [negb].
    rewrite Hc, Hcr. cbn [negb andb]. apply (run_quiet _ _ _ w (Some (this_peer (handler w)))).
    { done. }
    apply (run_quiet _ _ _ (w <| room := room w |>) 0).
    { unfold room_op, try_begin_creation. by rewrite Hcr, orb_true_r. }
    rewrite Z.eqb_refl. cbn [negb when]. apply (run_quiet _ _ _ (w <| room := room w |>) ()).
    { done. }
    apply run_room. upd. rewrite Hcr. cbn [negb andb]. by apply (run_quiet _ _ _ w1 ()). }
  apply (guarded_join req fs w1 u); done.
Qed.
End join.
