(* ===== verification/HandlerGameEffects.v ===== *)
(** * Events, departures and waiting

    What raising an event does to the room's cache, that a connection that
    ends leaves no member behind, and that a join put aside is not forgotten;
    in a build without plugins. *)

From S2P Require Import Prelude Program Values Types GameState GameMembers GameCreation GameProps GameEvents GameSteps GameAdmission DataModel HandlerGame HandlerGameSafety HandlerGameJoin.
Open Scope Z_scope.

Section effects.
Context `{Ser, Codes, !Wire}.
#[local] Existing Instance no_plugins.
Context (env : PeerEnv) (settings : AppSettings) (info : LobbyInfo).
Implicit Types (w : World) (g : Game) (req : Request) (ev : Event).

(** ** The event cache *)

(** The cached events a removal request designates: code 0 stands for every
    code, no senders for every sender, no data for every content. *)
Definition designated (c : Z) (senders : list Z) (flt : Hashtable) ev : Prop :=
  (c = 0 ∨ code ev = c) ∧
  (senders = [] ∨ sender_actor_id ev ∈ senders) ∧
  (flt = ∅ ∨ ∃ tbl, get_table (data ev) = Some tbl ∧ flt ⊆ tbl).

Lemma removed_from_cache_spec ev senders cached :
  removed_from_cache ev senders cached = true ↔
  designated (code ev) senders (default ∅ (get_table (data ev))) cached.
Proof.
  unfold removed_from_cache, designated. rewrite <-matches_filter_iff.
  set (flt := default ∅ (get_table (data ev))).
  destruct (Z.eqb_spec (code ev) 0) as [->|Hc]; cbn [negb andb].
  2: destruct (Z.eqb_spec (code cached) (code ev)); cbn [negb]; [|intuition congruence].
  all: destruct (decide (senders = [])) as [->|Hs];
    [rewrite (bool_decide_eq_true_2 ([] = [])) by done; cbn [negb andb]
    |rewrite (bool_decide_eq_false_2 (senders = [])) by done; cbn [negb andb];
     destruct (decide (sender_actor_id cached ∈ senders));
       [rewrite bool_decide_eq_true_2 by done; cbn [negb]
       |rewrite bool_decide_eq_false_2 by done; cbn [negb]; intuition congruence]].
  all: destruct (decide (flt = ∅)) as [E|He];
    [rewrite (bool_decide_eq_true_2 (flt = ∅)) by done; cbn [negb andb]; rewrite E;
     unfold matches_filter; rewrite decide_True by done; tauto
    |rewrite (bool_decide_eq_false_2 (flt = ∅)) by done; cbn [negb andb];
     destruct (matches_filter (data cached) flt); cbn; intuition congruence].
Qed.

(** Whether an event joins the cache. *)
Definition cacheable (fs : list ViewField) : bool :=
  let op := got TByte KeyCache fs in
  ((op =? AddToRoomCache) || (op =? AddToRoomCacheGlobal))
  && bool_decide (get_field TInts KeyActorList fs = None)
  && negb (got TByte KeyReceiverGroup fs =? RgMasterClient)
  && (got TByte KeyInterestGroup fs =? 0).

(** The request up to the point where the cache is touched. *)
Lemma raise_event_run req w a fs r :
  current_game_ (handler w) = true →
  actor_id_for_peer env (room w) (Some (this_peer (handler w))) = Some a → a ≠ 0 →
  decode raise_event_model (r_parameters req) = inr fs →
  got TByte KeyCode fs ≤ 220 →
  let ev := build_event req fs a in
  let op := got TByte KeyCache fs in
  (if op =? RemoveFromRoomCache then
     on_room (λ g, g <| event_cache ::= remove_if
       (removed_from_cache ev (default [] (get_field TInts KeyActorList fs))) |>)
   else if op =? RemoveFromCacheForActorsLeft then
     on_room (λ g, g <| event_cache ::= remove_if (from_left_actor g) |>)
   else
     when (cacheable fs)
       (on_room (λ g, g <| event_cache ::= λ l, l ++
          [if op =? AddToRoomCacheGlobal then ev <| sender_actor_id := 0 |> else ev] |>)) ;;;
     g ⇐ the_room;
     emit (broadcast_event env g ev).2) w = r →
  raise_event env req w = r.
Proof.
  cbn zeta. intros Hc Ha Hne Hdec Hcode E. unfold raise_event.
  apply (run_quiet _ _ _ w ()).
  { unfold ensure_joined_state. apply run_get. cbv zeta. by rewrite Hc, Ha. }
  apply (run_quiet _ _ _ w fs). { unfold decode_or_reply. by rewrite Hdec. }
  cbv zeta. apply (run_quiet _ _ _ w a).
  { unfold sender. apply run_get. cbv zeta. rewrite Ha. change (default 0 (Some a)) with a.
    by rewrite (proj2 (Z.eqb_neq a 0) Hne). }
  apply (run_quiet _ _ _ w (build_event req fs a)); [done|].
  change (code (build_event req fs a)) with (got TByte KeyCode fs).
  rewrite (proj2 (Z.ltb_ge 220 _)) by done. exact E.
Qed.

(** What a member's event request does to the event cache, and that it
    does nothing else to the room.  A removal takes out exactly the events of
    the given code (0 for any), senders and content, and nobody is told; a
    purge takes out exactly the events of actors that are gone; any other
    event joins the cache, in last place and without its sender if global,
    exactly when caching was asked for, it is meant for everybody or for the
    others, and it belongs to no interest group, and is then broadcast. *)
Theorem raise_event_cache req w a fs :
  current_game_ (handler w) = true →
  actor_id_for_peer env (room w) (Some (this_peer (handler w))) = Some a → a ≠ 0 →
  decode raise_event_model (r_parameters req) = inr fs →
  got TByte KeyCode fs ≤ 220 →
  let ev := build_event req fs a in
  let op := got TByte KeyCache fs in
  let r := raise_event env req w in
  let g' := room r.1.1 in
  g' <| event_cache := [] |> = room w <| event_cache := [] |> ∧
  handler r.1.1 = handler w ∧
  (op = RemoveFromRoomCache →
     r.1.2 = [] ∧
     ∀ cached, cached ∈ event_cache g' ↔ cached ∈ event_cache (room w) ∧
       ¬ designated (code ev) (default [] (get_field TInts KeyActorList fs))
           (default ∅ (get_table (data ev))) cached) ∧
  (op ≠ RemoveFromRoomCache → op = RemoveFromCacheForActorsLeft →
     r.1.2 = [] ∧
     ∀ cached, cached ∈ event_cache g' ↔ cached ∈ event_cache (room w) ∧
       (sender_actor_id cached = 0 ∨
        is_Some (find_actor (room w) (sender_actor_id cached)))) ∧
  (op ≠ RemoveFromRoomCache → op ≠ RemoveFromCacheForActorsLeft →
     event_cache g' = event_cache (room w) ++
       (if cacheable fs
        then [if op =? AddToRoomCacheGlobal then ev <| sender_actor_id := 0 |> else ev]
        else []) ∧
     r.1.2 = Emit <$> (broadcast_event env (room w) ev).2).
Proof.
  cbn zeta. intros Hc Ha Hne Hdec Hcode.
  erewrite (raise_event_run req w a fs) by (reflexivity || done).
  set (ev := build_event req fs a).
  destruct (Z.eqb_spec (got TByte KeyCache fs) RemoveFromRoomCache) as [Eop|Hop].
  { split; [done|]. split; [done|]. split; [|done]. intros _. split; [done|].
    intros cached. cbn [on_room modify fst]. upd. rewrite elem_of_remove_if.
    rewrite <-removed_from_cache_spec. by rewrite not_true_iff_false. }
  destruct (Z.eqb_spec (got TByte KeyCache fs) RemoveFromCacheForActorsLeft) as [Eop|Hop'].
  { split; [done|]. split; [done|]. split; [done|]. split; [|done]. intros _ _.
    split; [done|]. intros cached. cbn [on_room modify fst]. upd.
    rewrite elem_of_remove_if. unfold from_left_actor.
    rewrite andb_false_iff, !negb_false_iff, bool_decide_eq_true, Z.eqb_eq. tauto. }
  destruct (cacheable fs); cbn; upd; rewrite ?app_nil_r; done.
Qed.

(** ** Departure *)

Lemma remove_peer_gone g p :
  game_ok g → find_peer env (remove_peer env g (Some p)).1.1 (Some p) = None.
Proof.
  intros Hok. destruct (remove_peer_effect env g p Hok) as (Ep & _).
  unfold find_peer. rewrite Ep. apply find_first_None. intros gp Hgp.
  unfold kept in Hgp. apply elem_of_remove_if in Hgp as [_ Hg].
  unfold gone, leaves in Hg. bools. apply andb_false_iff. right.
  apply bool_decide_eq_false. congruence.
Qed.

(** What of the handler outlives its membership. *)
Definition connection (h : Handler) :=
  (this_peer h, current_game_ h, disconnected_ h, pending_join_ h).

Lemma depart_run w :
  game_ok (room w) →
  ∃ w' out, depart env info w = (w', out, Some ()) ∧
    find_peer env (room w') (Some (this_peer (handler w))) = None ∧
    connection (handler w') = connection (handler w).
Proof.
  intros Hok. set (p := this_peer (handler w)).
  destruct (find_peer env (room w) (Some p)) as [gp|] eqn:Hf.
  2: { exists w, []. split; [|done]. unfold depart. apply run_get. cbv zeta.
       fold p. unfold actor_id_for_peer. rewrite Hf. cbn. by rewrite andb_false_r. }
  destruct (find_peer_Some _ _ _ _ Hf) as (Hin & Hact & _).
  assert (1 ≤ actor_id gp) as Hid.
  { pose proof (ok_nodes _ Hok) as Hn. rewrite Forall_forall in Hn. by apply (Hn gp). }
  assert (has_peer_actor (room w) (actor_id gp) = true) as Hha.
  { apply has_peer_actor_spec. destruct (find_actor (room w) (actor_id gp)) eqn:E; [done|].
    rewrite find_actor_None in E. by destruct (E gp Hin Hact). }
  assert (cs_peer_count (get_config_snapshot (room w)) ≠ 0) as Hcount.
  { cbn. destruct (peers (room w)); [by apply not_elem_of_nil in Hin|]. cbn. lia. }
  set (g1 := if has_flag (flags (room w)) KeyCleanupCacheOnLeave
             then room w <| event_cache ::= remove_if (λ ev, sender_actor_id ev =? actor_id gp) |>
             else room w).
  assert (game_ok g1) as Hok1.
  { subst g1. destruct (has_flag _ _); [|done]. by apply (game_ok_view (room w)). }
  eexists _, _. split.
  - unfold depart. apply run_get. cbv zeta. fold p. unfold actor_id_for_peer. rewrite Hf.
    change (default 0 (actor_id <$> Some gp)) with (actor_id gp).
    rewrite Hha, (proj2 (Z.eqb_neq _ _) Hcount), (proj2 (Z.eqb_neq (actor_id gp) 0)) by lia.
    cbn [negb andb when].
    apply (run_quiet _ _ _ (w <| room := g1 |>) ()).
    { subst g1. cbn [get_config_snapshot cs_flags]. destruct (has_flag _ _); [done|].
      by destruct w. }
    apply (run_quiet _ _ _ (w <| room := g1 |>) ()); [done|].
    assert (∀ v, room_op (λ g, remove_peer env g (Some p)) v =
      (v <| room := (remove_peer env (room v) (Some p)).1.1 |>,
       Emit <$> (remove_peer env (room v) (Some p)).2,
       Some (remove_peer env (room v) (Some p)).1.2)) as Erm.
    { intros v. unfold room_op. by destruct (remove_peer env (room v) (Some p)) as [[??]?]. }
    eapply run_bind; [apply Erm|]. eapply run_quiet; [reflexivity|].
    eapply run_bind; [reflexivity|]. apply run_room. apply when_emit.
  - split; [|done]. upd. by apply remove_peer_gone.
Qed.

Lemma drop_creation_run w :
  game_ok (room w) → pending_join_ (handler w) = None →
  ∃ w' out, drop_creation env info w = (w', out, Some ()) ∧ game_ok (room w') ∧
    connection (handler w') = connection (handler w).
Proof.
  intros Hok Hp. unfold drop_creation.
  destruct (creation_game_ (handler w) && negb (creation_generation_ (handler w) =? 0)) eqn:Hc.
  2: { exists w, []. split; [|done]. apply run_get. cbv zeta. by rewrite Hc. }
  set (r := abort_creation_transaction env (room w) (Some (this_peer (handler w)))
              (creation_generation_ (handler w))).
  assert (game_ok r.1.1) as Hok' by by apply abort_ok.
  eexists _, _. split.
  - apply run_get. cbv zeta. rewrite Hc. cbn [when].
    eapply run_bind.
    { unfold room_op. fold r. instantiate (1 := r.1.2). instantiate (1 := Emit <$> r.2).
      instantiate (1 := w <| room := r.1.1 |>). by destruct r as [[??]?]. }
    eapply run_quiet; [reflexivity|].
    instantiate (1 := Emit <$> (if r.1.2 then trigger_lobby_update info r.1.1 else [])).
    instantiate (1 := w <| room := r.1.1 |> <| handler ::= λ h, h <| creation_game_ := false |>
      <| creation_generation_ := 0 |> <| pending_join_ := None |> <| game_peer_ := false |> |>).
    by destruct r.1.2.
  - upd. split; [done|]. unfold connection. upd. by rewrite Hp.
Qed.

(** C13: When a connection ends, its peer is not a member of the room any more,
    whether it had joined, was waiting to join, or was in the middle of
    creating the room; the handler holds nothing of the room, and the base
    handler gets its turn last. *)
Theorem disconnect_leaves_no_member w :
  game_ok (room w) → current_game_ (handler w) = true →
  let r := handle_disconnect env info w in
  find_peer env (room r.1.1) (Some (this_peer (handler w))) = None ∧
  current_game_ (handler r.1.1) = false ∧ disconnected_ (handler r.1.1) = true ∧
  pending_join_ (handler r.1.1) = None ∧ creation_generation_ (handler r.1.1) = 0 ∧
  last r.1.2 = Some BaseDisconnect.
Proof.
  intros Hok Hc. cbn zeta.
  set (w1 := w <| handler ::= λ h, h <| disconnected_ := true |> <| pending_join_ := None |>
                     <| pending_authentication_ := None |> |>
               <| handler ::= λ h, h <| current_game_ := false |> |>).
  destruct (drop_creation_run w1 Hok eq_refl) as (w2 & out1 & E1 & Hok2 & Ep2).
  destruct (depart_run w2 Hok2) as (w3 & out2 & E2 & Hf & Ep3).
  assert (handle_disconnect env info w =
    (w3 <| handler ::= λ h, h <| creation_game_ := false |> <| creation_generation_ := 0 |>
             <| game_peer_ := false |> |>, (out1 ++ out2 ++ []) ++ [BaseDisconnect], Some ()))
    as ->.
  { unfold handle_disconnect. eapply run_quiet; [reflexivity|]. apply run_get.
    eapply run_bind; [|reflexivity]. upd. rewrite Hc. cbn [when].
    eapply run_quiet; [reflexivity|]. eapply run_bind; [exact E1|].
    eapply run_bind; [exact E2|]. reflexivity. }
  cbn [fst snd]. upd. rewrite <-Ep3 in Ep2. injection Ep2 as E3 E4 E5 E6.
  assert (this_peer (handler w2) = this_peer (handler w)) as E7.
  { injection Ep3 as E7 _ _ _. rewrite <-E7, E3. done. }
  split; [by rewrite <-E7|]. split; [by rewrite E4|]. split; [by rewrite E5|].
  split; [by rewrite E6|]. split; [done|]. by rewrite last_snoc.
Qed.

(** ** Waiting *)

(** A join put aside while its room is being created does not wait for
    ever: at the first update after five seconds, or as soon as that creation
    is over, it is taken off the list, and either handled again, only when the
    very creation it waited for has published the room, or answered that the
    game does not exist. *)
Theorem pending_join_resolves w known now pj :
  pending_authentication_ (handler w) = None → pending_join_ (handler w) = Some pj →
  let g := room w in
  let r := handle_slow_update known now w in
  5000 ≤ now - pj_wait_started pj ∨ is_creating g = false →
  pending_join_ (handler r.1.1) = None ∧ room r.1.1 = g ∧
  ((r.2 = Some (Some (pj_request pj)) ∧ r.1.2 = [] ∧
      current_game_ (handler r.1.1) = true ∧ is_created g = true ∧ is_creating g = false ∧
      (pj_generation pj = 0 ∨ pj_generation pj = active_creation_generation g)) ∨
   (r.2 = Some None ∧
      r.1.2 = [Reply (operation_code (pj_request pj)) GameIdNotExists ∅
                 (channel_id (pj_request pj))])).
Proof.
  intros Ha Hp. cbn zeta. intros Hdue.
  assert (handle_slow_update known now w = poll_join now w) as ->.
  { unfold handle_slow_update. apply (run_quiet _ _ _ w None); [|done].
    unfold poll_authentication. apply run_get. by rewrite Ha. }
  unfold poll_join, bind, get. cbn [fst snd]. rewrite Hp. cbv zeta.
  set (changed := negb (pj_generation pj =? 0)
    && negb (active_creation_generation (room w) =? pj_generation pj)).
  destruct (is_created (room w) && negb (is_creating (room w)) && negb changed) eqn:Hfin.
  - cbn. split; [done|]. split; [done|]. left. bools. do 5 (split; [done|]).
    subst changed. match goal with H : _ && _ = false |- _ => apply andb_false_iff in H as [|] end;
      bools; auto.
  - assert (negb (is_created (room w)) && negb (is_creating (room w)) || changed
      || (5000 <=? now - pj_wait_started pj) = true) as Hdue'.
    { destruct Hdue as [Hd|Hd].
      - rewrite (proj2 (Z.leb_le _ _) Hd). apply orb_true_r.
      - rewrite Hd in *. destruct (is_created (room w)), changed; cbn in *; done. }
    rewrite Hdue'. cbn. split; [done|]. split; [done|]. by right.
Qed.
End effects.
