(* ===== verification/HandlerBase.v ===== *)
(** * What every handler does

    Models [handler_base.cpp]: telling a payload's messages apart, the
    handshake (also in the form of an HTTP request), the internal requests,
    the answers to requests no server supports, and the parking of the
    identity when the connection ends.  Deserialization, the HTTP parser, the
    protocol implementations and the encryption are the network library's. *)

From S2P Require Import Prelude Values Types GameState PeerPersistence ServerManager Directory HandlerGame Program.
From Stdlib Require Import Ascii.
From Stdlib Require String.
Open Scope Z_scope.

(** ** Reading numbers *)

Definition digit (c : ascii) : option Z :=
  let n := Z.of_nat (nat_of_ascii c) in
  if (48 <=? n) && (n <=? 57) then Some (n - 48) else None.

(** The number a text starts with, and what follows it. *)
Fixpoint digits (acc : Z) (s : list ascii) : Z * list ascii :=
  match s with
  | [] => (acc, [])
  | c :: rest =>
      match digit c with
      | Some d => digits (10 * acc + d) rest
      | None => (acc, s)
      end
  end.

Definition int_ok (z : Z) : bool := (- 2 ^ 31 <=? z) && (z <? 2 ^ 31).

(** <src/handler_base.cpp:24-44 fast_stoi>
    [std::from_chars] reads an optional minus sign and digits, base ten. *)
Definition fast_stoi (sv : string) : option Z :=
  let s := String.list_ascii_of_string sv in
  let '(negative, s) :=
    match s with
    | c :: rest => if bool_decide (c = "-"%char) then (true, rest) else (false, s)
    | [] => (false, s)
    end in
  match s with
  | [] => None
  | c :: _ =>
      match digit c with
      | None => None
      | Some _ =>
          let '(n, rest) := digits 0 s in
          let value := if negative : bool then - n else n in
          if negb (int_ok value) then None
          else match rest with [] => Some value | _ => None end
      end
  end.

(** ** Messages *)

(** [ser::InitMessage] *)
Record InitMessage := mkInit {
  init_app_id : string;
  version_major : Z; version_minor : Z; version_revision : Z; version_patch : Z;
  protocol_major : Z; protocol_minor : Z;
}.
#[export] Instance eta_InitMessage : Eta InitMessage := λ m,
  mkInit (init_app_id m) (version_major m) (version_minor m) (version_revision m)
    (version_patch m) (protocol_major m) (protocol_minor m).

(** [luxon::HttpRequest] *)
Record HttpRequest := mkHttp {
  path : string;
  method : string;
  query_params : gmap string string;
  body : string;
}.

(** The internal requests, outside the application's operations. *)
Inductive InternalOp := IOpInitEncryption | IOpPing | IOpTransportProtocol | IOpOther (n : Z).

Section base.
Context `{Ser, Codes, Transports}.

Record InternalRequest := mkInternal {
  internal_op : InternalOp;
  internal_parameters : ParameterList;
  internal_channel : Z;
}.

Inductive Message :=
  | MInit (m : InitMessage)
  | MOperation (req : Request)
  | MInternal (req : InternalRequest)
  | MOther.

(** The part of a peer the base handler works on; protocol implementations
    are numbered. *)
Record Link := mkLink {
  proto_ : nat;
  transport_protocol : ServerProtocol;
}.
End base.

#[export] Instance eta_Link `{Transports} : Eta Link := λ l,
  mkLink (proto_ l) (transport_protocol l).

(** What the base handler sends, or passes to the server's own handler. *)
Inductive BaseOut `{Ser} :=
  | InitResponse (ch : Z)
  | Encrypted (response : ParameterList)
  | Pong (client_time : option Value) (server_time : Z)
  | Unsupported (op : InternalOp)
  | Operation (req : Request)
  | CloseLink.

Section handlers.
Context `{Ser, Codes, Transports}.
(** [IProtocol::make], [IProtocol::Deserialize], [parse_raw_http], [str_split],
    the answer to an encryption handshake, and the byte a transport protocol
    is told by; the keys of the internal messages. *)
Context (make : Z → Z → option nat).
Context (deserialize : nat → ByteArray → option Message).
Context (parse_raw_http : ByteArray → option HttpRequest).
Context (str_split : string → ascii → list string).
Context (init_encryption : nat → ParameterList → option ParameterList).
Context (protocol_of_byte : Z → ServerProtocol).
Context (KeyClientTimestamp KeyTransportProtocol : Z).

Abbreviation B := (Prog Link BaseOut).

(** <src/handler_base.cpp:194-211 HandlerBase::HandleInitRequest> *)
Definition HandleInitRequest (m : InitMessage) (ch : Z) : B () :=
  match make (protocol_major m) (protocol_minor m) with
  | Some p => modify (λ l, l <| proto_ := p |>) ;;; say [InitResponse ch]
  | None => say [CloseLink]
  end.

(** <src/handler_base.cpp:148-157 HandlerBase::HandleHTTPRequest> *)
Definition client_version (text : string) (m : InitMessage) : InitMessage :=
  match str_split text "." with
  | [a; b; c; d] =>
      m <| version_major := default 0 (fast_stoi a) |>
        <| version_minor := default 0 (fast_stoi b) |>
        <| version_revision := default 0 (fast_stoi c) |>
        <| version_patch := default 0 (fast_stoi d) |>
  | _ => m
  end.

(** [s.starts_with(prefix)] and the rest. *)
Fixpoint after_prefix (prefix s : list ascii) : option (list ascii) :=
  match prefix, s with
  | [], _ => Some s
  | p :: prefix, c :: s => if bool_decide (p = c) then after_prefix prefix s else None
  | _ :: _, [] => None
  end.

(** <src/handler_base.cpp:158-170 HandlerBase::HandleHTTPRequest> *)
Definition protocol_version (text : string) (m : InitMessage) : InitMessage :=
  match after_prefix (String.list_ascii_of_string "GpBinaryV") (String.list_ascii_of_string text) with
  | Some [a; b] =>
      m <| protocol_major := Z.of_nat (nat_of_ascii a) - 48 |>
        <| protocol_minor := Z.of_nat (nat_of_ascii b) - 48 |>
  | _ => m
  end.

(** <src/handler_base.cpp:145-170 HandlerBase::HandleHTTPRequest>
    The init message an HTTP request stands for. *)
Definition http_init (request : HttpRequest) : InitMessage :=
  let m := mkInit EmptyString 0 0 0 0 0 0 in
  let m := match query_params request !! "app"%string with
           | Some a => m <| init_app_id := a |> | None => m end in
  let m := match query_params request !! "clientversion"%string with
           | Some v => client_version v m | None => m end in
  match query_params request !! "protocol"%string with
  | Some p => protocol_version p m
  | None => m
  end.

(** <src/handler_base.cpp:177-184 HandlerBase::HandleHTTPRequest> *)
Definition http_token (request : HttpRequest) : option string :=
  let body := body request in
  if (4 <? String.length body)%nat
  then Some (String.substring 2 (String.length body - 2) body)
  else None.

(** <src/handler_base.cpp:137-192 HandlerBase::HandleHTTPRequest> *)
Definition HandleHTTPRequest (request : HttpRequest) (ch deliver : Z) : B () :=
  when (bool_decide (path request = "/"%string) && bool_decide (method request = "POST"%string)
        && bool_decide (is_Some (query_params request !! "init"%string)))
    (HandleInitRequest (http_init request) ch ;;;
     match http_token request with
     | Some token =>
         say [Operation (mkRequest OpAuthenticateOnce
                (<[KeyToken := of_string token]> ∅) false ch deliver)]
     | None => ret ()
     end).

(** <src/handler_base.cpp:235-280 HandlerBase::HandleInternalOperationRequest>
    [now] is the server's time in milliseconds. *)
Definition HandleInternalOperationRequest (req : InternalRequest) (now : Z) : B () :=
  if negb (internal_channel req =? 0) then ret ()
  else match internal_op req with
  | IOpInitEncryption =>
      l ⇐ get;
      match init_encryption (proto_ l) (internal_parameters req) with
      | Some response => say [Encrypted response]
      | None => ret ()
      end
  | IOpPing =>
      say [Pong (internal_parameters req !! KeyClientTimestamp) (s32 now)]
  | IOpTransportProtocol =>
      match internal_parameters req !! KeyTransportProtocol ≫= get_byte with
      | Some b => modify (λ l, l <| transport_protocol := protocol_of_byte b |>)
      | None => ret ()
      end
  | op => say [Unsupported op]
  end.

(** <src/handler_base.cpp:92-135 HandlerBase::HandleENetCommand> *)
Definition HandleENetCommand (payload : ByteArray) (ch deliver now : Z) : B () :=
  l ⇐ get;
  match deserialize (proto_ l) payload with
  | None =>
      match parse_raw_http payload with
      | Some request => HandleHTTPRequest request ch deliver
      | None => ret ()
      end
  | Some (MInit m) => HandleInitRequest m ch
  | Some (MOperation req) => say [Operation req]
  | Some (MInternal req) => HandleInternalOperationRequest req now
  | Some MOther => ret ()
  end.
End handlers.

(** ** The servers' handlers *)

(** What the handlers of the servers send. *)
Inductive ServerOut `{Ser} :=
  | Respond (op : OpCode) (return_code : ErrorCode) (params : ParameterList) (ch : Z)
  | Event_ (event_code : Z) (params : ParameterList)
  | RoomEffect (gm : game_ptr) (e : Effect)
  | Notify (n : Notice)
  | Ipc_ (msg : EventMessage)
  | ScheduleExpiry (t : ExpireStored)
  | HangUp
  | Crash (f : Fault).

Section base_answers.
Context `{Ser, Codes}.

(** <src/handler_base.cpp:213-233 HandlerBase::HandleOperationRequest> *)
Definition base_request (req : Request) (authenticated : bool) : list ServerOut :=
  if negb (channel_id req =? 0) then []
  else if bool_decide (operation_code req = OpAuthenticate) && authenticated
  then [Respond (operation_code req) OperationNotAllowedInCurrentState ∅ 0]
  else [Respond (operation_code req) OperationInvalid ∅ 0].

(** <src/handler_base.cpp:47-52 HandlerBase::~HandlerBase> *)
Definition release_identity (game_state : game_ptr → bool * bool) (app_info : app_ptr → AppInfo)
    (r : Registry) (own : option PeerPersistent) :
    Registry * list EventMessage * list ExpireStored :=
  match own with
  | None => (r, [], [])
  | Some pp => let '(r, msg, tasks) := park game_state app_info r pp in (r, [msg], tasks)
  end.
End base_answers.

(** ** Reading numbers, specified *)

Section numbers.
Definition digit_char (d : Z) : ascii := ascii_of_nat (Z.to_nat (48 + d)).
Definition is_digit (d : Z) : Prop := 0 ≤ d ≤ 9.
(** The number a sequence of decimal digits stands for. *)
Definition decimal (ds : list Z) : Z := foldl (λ n d, 10 * n + d) 0 ds.

Lemma digit_spec c d : digit c = Some d ↔ is_digit d ∧ c = digit_char d.
Proof.
  unfold digit, is_digit, digit_char. split.
  - destruct (_ && _) eqn:E; [|done]. intros [= <-]. bools. split; [lia|].
    rewrite <-(ascii_nat_embedding c) at 1. f_equal. lia.
  - intros [Hd ->]. rewrite nat_ascii_embedding by lia.
    rewrite Z2Nat.id by lia. rewrite (proj2 (Z.leb_le _ _)), (proj2 (Z.leb_le _ _)) by lia.
    cbn [andb]. f_equal. lia.
Qed.

Lemma digit_digit_char d : is_digit d → digit (digit_char d) = Some d.
Proof. intros. by apply digit_spec. Qed.

Lemma digits_exact ds acc :
  Forall is_digit ds →
  digits acc (digit_char <$> ds) = (foldl (λ n d, 10 * n + d) acc ds, []).
Proof.
  intros Hds. revert acc. induction Hds as [|d ds Hd _ IH]; intros acc; [done|].
  cbn [fmap list_fmap digits foldl]. by rewrite digit_digit_char, IH.
Qed.

Lemma digits_inv s acc n :
  digits acc s = (n, []) →
  ∃ ds, s = digit_char <$> ds ∧ Forall is_digit ds ∧ n = foldl (λ n d, 10 * n + d) acc ds.
Proof.
  revert acc. induction s as [|c s IH]; intros acc; cbn [digits].
  { intros [= <-]. by exists []. }
  destruct (digit c) as [d|] eqn:Hd; [|done]. apply digit_spec in Hd as [Hd ->].
  intros (ds & -> & Hds & ->)%IH. exists (d :: ds). split; [done|]. split; [by constructor|done].
Qed.

Lemma int_ok_spec z : int_ok z = true ↔ - 2 ^ 31 ≤ z < 2 ^ 31.
Proof. unfold int_ok. rewrite andb_true_iff, Z.leb_le, Z.ltb_lt. done. Qed.

(** A text is read as a number exactly when it is an optional minus sign
    followed by at least one decimal digit and nothing else, and the number
    it stands for fits an [int]; the result is that number. *)
Theorem fast_stoi_spec sv z :
  fast_stoi sv = Some z ↔
  ∃ (negative : bool) ds,
    String.list_ascii_of_string sv =
      (if negative then ["-"%char] else []) ++ (digit_char <$> ds) ∧
    ds ≠ [] ∧ Forall is_digit ds ∧
    z = (if negative then - decimal ds else decimal ds) ∧ - 2 ^ 31 ≤ z < 2 ^ 31.
Proof.
  unfold fast_stoi, decimal. set (s := String.list_ascii_of_string sv). clearbody s.
  set (sign := match s with [] => _ | _ => _ end).
  assert (∃ (neg : bool) rest, sign = (neg, rest) ∧
    s = (if neg then ["-"%char] else []) ++ rest ∧
    (neg = false → ∀ r, s ≠ "-"%char :: r)) as (neg & rest & -> & -> & Hneg).
  { subst sign. destruct s as [|c r]; [by exists false, []|].
    case_bool_decide as Hc; [exists true, r; by subst|].
    exists false, (c :: r). split; [done|]. split; [done|]. intros _ r' [= E _]. done. }
  split.
  - destruct rest as [|c r] eqn:Er; [done|]. destruct (digit c) eqn:Hc; [|done].
    rewrite <-Er. destruct (digits 0 rest) as [n r'] eqn:Hd.
    destruct (int_ok _) eqn:Hi; cbn [negb]; [|done]. destruct r'; [|done]. intros [= <-].
    apply digits_inv in Hd as (ds & -> & Hds & ->). exists neg, ds.
    split; [done|]. split; [by intros ->|]. split; [done|]. split; [done|].
    by apply int_ok_spec.
  - intros (neg' & ds & E & Hne & Hds & -> & Hz).
    destruct ds as [|d ds]; [done|]. clear Hne.
    assert (neg' = neg ∧ rest = digit_char <$> d :: ds) as [-> ->].
    { apply Forall_cons in Hds as [Hd _].
      assert (digit_char d ≠ "-"%char) as Hch.
      { intros Ec. pose proof (digit_digit_char d Hd) as Hdc. by rewrite Ec in Hdc. }
      destruct neg', neg; cbn in E.
      - by injection E as ->.
      - by apply Hneg in E.
      - injection E as E _. by destruct Hch.
      - done. }
    pose proof (digits_exact _ 0 Hds) as ->.
    change (digit_char <$> d :: ds) with (digit_char d :: (digit_char <$> ds)). cbv beta iota.
    rewrite digit_digit_char by by apply Forall_cons in Hds as [? _].
    by rewrite (proj2 (int_ok_spec _) Hz).
Qed.
End numbers.
