(* ===== verification/LobbyTable.v ===== *)
(** * The table of an SQL lobby's rooms

    Models [lobby_vt.cpp], the virtual table through which the database sees
    the rooms of a lobby, and the authorizer of [lobby.cpp] that keeps a
    client's conditions from doing anything but reading it.  The table tells
    the database which constraints it takes over, and how ([vtBestIndex]);
    the database then calls it back with their values ([vtFilter]) and walks
    over the rows.  The database's values are a parameter; the comparisons of
    [sqlite3.c] the table uses are those of [SqlText]. *)

From S2P Require Import Prelude Values Types GameState GameProps Directory HandlerBase SqlText.
From stdpp Require Import pretty.
From Stdlib Require Import Ascii.
From Stdlib Require String.
Open Scope Z_scope.

(** ** The database's interface *)

(** <include/luxon/server/sqlite3.h:7799-7799 SQLITE_INDEX_CONSTRAINT_EQ> *)
Definition SQLITE_INDEX_CONSTRAINT_EQ : Z := 2.
(** <include/luxon/server/sqlite3.h:7800-7800 SQLITE_INDEX_CONSTRAINT_GT> *)
Definition SQLITE_INDEX_CONSTRAINT_GT : Z := 4.
(** <include/luxon/server/sqlite3.h:7801-7801 SQLITE_INDEX_CONSTRAINT_LE> *)
Definition SQLITE_INDEX_CONSTRAINT_LE : Z := 8.
(** <include/luxon/server/sqlite3.h:7802-7802 SQLITE_INDEX_CONSTRAINT_LT> *)
Definition SQLITE_INDEX_CONSTRAINT_LT : Z := 16.
(** <include/luxon/server/sqlite3.h:7803-7803 SQLITE_INDEX_CONSTRAINT_GE> *)
Definition SQLITE_INDEX_CONSTRAINT_GE : Z := 32.
(** <include/luxon/server/sqlite3.h:7805-7805 SQLITE_INDEX_CONSTRAINT_LIKE> *)
Definition SQLITE_INDEX_CONSTRAINT_LIKE : Z := 65.
(** <include/luxon/server/sqlite3.h:7806-7806 SQLITE_INDEX_CONSTRAINT_GLOB> *)
Definition SQLITE_INDEX_CONSTRAINT_GLOB : Z := 66.

(** <include/luxon/server/sqlite3.h:449-449 SQLITE_OK> *)
Definition SQLITE_OK : Z := 0.
(** <include/luxon/server/sqlite3.h:451-451 SQLITE_ERROR> *)
Definition SQLITE_ERROR : Z := 1.
(** <include/luxon/server/sqlite3.h:3450-3450 SQLITE_DENY> *)
Definition SQLITE_DENY : Z := 1.
(** <include/luxon/server/sqlite3.h:5294-5294 SQLITE_INTEGER> *)
Definition SQLITE_INTEGER : Z := 1.
(** <include/luxon/server/sqlite3.h:5295-5295 SQLITE_FLOAT> *)
Definition SQLITE_FLOAT : Z := 2.
(** <include/luxon/server/sqlite3.h:5297-5297 SQLITE_NULL> *)
Definition SQLITE_NULL : Z := 5.
(** <include/luxon/server/sqlite3.h:5301-5301 SQLITE_TEXT> *)
Definition SQLITE_TEXT : Z := 3.
(** <include/luxon/server/sqlite3.h:3492-3492 SQLITE_READ> *)
Definition SQLITE_READ : Z := 20.
(** <include/luxon/server/sqlite3.h:3493-3493 SQLITE_SELECT> *)
Definition SQLITE_SELECT : Z := 21.
(** <include/luxon/server/sqlite3.h:3503-3503 SQLITE_FUNCTION> *)
Definition SQLITE_FUNCTION : Z := 31.

(** [sqlite3_value] with its type and conversions; the text of a null is a
    null pointer. *)
Class SqliteValues := {
  sql_value : Type;
  sqlite3_value_type : sql_value → Z;
  sqlite3_value_int64 : sql_value → Z;
  sqlite3_value_text : sql_value → option string;
}.

(** The text of an integer is its decimal notation. *)
Class SqliteValuesLaws `{SqliteValues} : Prop := {
  integer_text v : sqlite3_value_type v = SQLITE_INTEGER →
    sqlite3_value_text v = Some (pretty (sqlite3_value_int64 v));
}.

(** [sqlite3_index_constraint] *)
Record IndexConstraint := mkConstraint { iColumn : Z; op : Z; usable : bool }.

(** [sqlite3_index_constraint_usage]; an index of zero passes nothing. *)
Record ConstraintUsage := mkUsage { argvIndex : Z; omit : bool }.

(** The outputs of [sqlite3_index_info] that are assigned; the cost is a
    whole number. *)
Record IndexPlan := mkIndexPlan {
  aConstraintUsage : list ConstraintUsage;
  idxNum : Z;
  idxStr : option string;
  estimatedCost : Z;
}.

(** What a column is set to ([sqlite3_result_...]). *)
Inductive SqlResult :=
  | ResultNull
  | ResultText (z : list Z)
  | ResultInt (n : Z).
#[export] Instance SqlResult_eq_dec : EqDecision SqlResult.
Proof. solve_decision. Defined.

(** The database does not run a statement that asks for anything else. *)
Definition allowed_functions : list string :=
  ["like"; "glob"; "lower"; "upper"; "ifnull"; "coalesce"; "abs"; "length"; "count";
   "min"; "max"]%string.

(** <src/lobby.cpp:61-81 Lobby::Lobby>
    The authorizer. *)
Definition authorize (action : Z) (arg2 : option string) : Z :=
  match arg2 with
  | Some func =>
      if action =? SQLITE_FUNCTION then
        if bool_decide (func ∈ allowed_functions) then SQLITE_OK else SQLITE_DENY
      else if (action =? SQLITE_SELECT) || (action =? SQLITE_READ) then SQLITE_OK
      else SQLITE_DENY
  | None =>
      if (action =? SQLITE_SELECT) || (action =? SQLITE_READ) then SQLITE_OK
      else SQLITE_DENY
  end.

(** ** C strings and numbers *)

Fixpoint until_nul (s : list ascii) : list ascii :=
  match s with
  | c :: s => if code_of c =? 0 then [] else c :: until_nul s
  | [] => []
  end.

(** [std::string(p)] of a character pointer. *)
Definition string_of_ptr (s : string) : string :=
  String.string_of_list_ascii (until_nul (String.list_ascii_of_string s)).

(** [s.c_str()], as the bytes up to the terminator. *)
Definition c_str (s : string) : list Z :=
  code_of <$> until_nul (String.list_ascii_of_string s).

Definition is_space (c : ascii) : bool :=
  let n := code_of c in (n =? 32) || ((9 <=? n) && (n <=? 13)).

Fixpoint skip_spaces (s : list ascii) : list ascii :=
  match s with c :: s' => if is_space c then skip_spaces s' else s | [] => [] end.

(** [std::stoi]; [None] is its exception. *)
Definition stoi (s : list ascii) : option Z :=
  let s := skip_spaces s in
  let '(negative, s) :=
    match s with
    | "-"%char :: s => (true, s)
    | "+"%char :: s => (false, s)
    | _ => (false, s)
    end in
  match s with
  | c :: _ =>
      match digit c with
      | Some _ =>
          let value := (digits 0 s).1 in
          let value := if negative : bool then - value else value in
          if int_ok value then Some value else None
      | None => None
      end
  | [] => None
  end.

(** ** Planning *)

(** <src/lobby_vt.cpp:115-140 vtBestIndex> *)
Definition op_char (o : Z) : option ascii :=
  if o =? SQLITE_INDEX_CONSTRAINT_EQ then Some "="%char
  else if o =? SQLITE_INDEX_CONSTRAINT_LIKE then Some "L"%char
  else if o =? SQLITE_INDEX_CONSTRAINT_GLOB then Some "G"%char
  else if o =? SQLITE_INDEX_CONSTRAINT_GT then Some ">"%char
  else if o =? SQLITE_INDEX_CONSTRAINT_LT then Some "<"%char
  else if o =? SQLITE_INDEX_CONSTRAINT_GE then Some "]"%char
  else if o =? SQLITE_INDEX_CONSTRAINT_LE then Some "["%char
  else None.

(** <src/lobby_vt.cpp:108-154 vtBestIndex> *)
Fixpoint best_index_loop (cs : list IndexConstraint) (argv_index idx_num : Z)
    (idx_str : list ascii) : list ConstraintUsage * Z * list ascii :=
  match cs with
  | [] => ([], idx_num, idx_str)
  | constraint :: cs =>
      let col := iColumn constraint in
      let skip :=
        let '(usages, n, s) := best_index_loop cs argv_index idx_num idx_str in
        (mkUsage 0 false :: usages, n, s) in
      if negb (usable constraint) then skip
      else match op_char (op constraint) with
      | None => skip
      | Some opChar =>
          if (col <? 0) || (10 <? col) then skip
          else
            let '(usages, n, s) :=
              best_index_loop cs (argv_index + 1)
                (if (col =? 0) && bool_decide (opChar = "="%char)
                 then Z.lor idx_num 1 else idx_num)
                (idx_str ++ String.list_ascii_of_string (pretty col) ++ [opChar; ";"%char]) in
            (mkUsage argv_index true :: usages, n, s)
      end
  end.

(** <src/lobby_vt.cpp:95-171 vtBestIndex>
    Nothing it calls fails short of memory. *)
Definition vtBestIndex (aConstraint : list IndexConstraint) : IndexPlan :=
  let '(usages, n, s) := best_index_loop aConstraint 1 0 [] in
  mkIndexPlan usages n
    (match s with [] => None | _ => Some (String.string_of_list_ascii s) end)
    (if has_flag n 1 then 1 else 1000).

(** ** Filtering *)

(** <src/lobby_vt.cpp:216-223 FilterProp> *)
Record FilterProp := mkFilterProp {
  col : Z;
  fp_op : ascii;
  fp_is_null : bool;
  is_numeric : bool;
  str_val : string;
  int_val : Z;
}.

(** The local variables of [vtFilter] its plan is read into. *)
Record Filters := mkFilters {
  filter_props : list FilterProp;
  filter_id : string;
  filter_id_is_null : bool;
}.
#[export] Instance eta_Filters : Eta Filters := λ f,
  mkFilters (filter_props f) (filter_id f) (filter_id_is_null f).
Definition no_filters : Filters := mkFilters [] EmptyString false.

(** <src/lobby_vt.cpp:35-39 LobbyCursor>
    The snapshot shares the rooms. *)
Record LobbyCursor := mkCursor { games_snapshot : list game_ptr; current_index : Z }.
#[export] Instance eta_LobbyCursor : Eta LobbyCursor := λ c,
  mkCursor (games_snapshot c) (current_index c).

Section table.
Context `{Ser, SqliteValues}.
Implicit Types (d : Directory) (l : lobby_ptr) (g : Game).

(** <src/lobby_vt.cpp:251-266 vtFilter> *)
Definition read_constraint (c : Z) (o : ascii) (sql_val : sql_value) (f : Filters) : Filters :=
  let val_type := sqlite3_value_type sql_val in
  let is_null := val_type =? SQLITE_NULL in
  let is_numeric := (val_type =? SQLITE_INTEGER) || (val_type =? SQLITE_FLOAT) in
  let int_val := if is_numeric then sqlite3_value_int64 sql_val else 0 in
  let str_val := match sqlite3_value_text sql_val with
                 | Some text_ptr => string_of_ptr text_ptr
                 | None => EmptyString
                 end in
  if (c =? 0) && bool_decide (o = "="%char) then
    f <| filter_id := str_val |> <| filter_id_is_null := is_null |>
  else
    f <| filter_props ::= λ ps, ps ++ [mkFilterProp c o is_null is_numeric str_val int_val] |>.

(** <src/lobby_vt.cpp:229-268 vtFilter>
    [s] is what is left of the plan and [argv] what is left of the values;
    [None] is an exception. *)
Fixpoint read_plan (n : nat) (s : list ascii) (argv : list sql_value) (f : Filters) :
    option Filters :=
  match n with
  | O => None
  | S n =>
      match s with
      | [] => Some f
      | _ =>
          match split_first (λ c, bool_decide (c = ";"%char)) s with
          | None => Some f
          | Some (token, _, s) =>
              match last token with
              | None => read_plan n s argv f
              | Some o =>
                  match argv with
                  | [] => None
                  | sql_val :: argv =>
                      c ← stoi (removelast token);
                      read_plan n s argv (read_constraint c o sql_val f)
                  end
              end
          end
      end
  end.

(** <src/lobby_vt.cpp:19-28 get_prop_key> [None] is out of range. *)
Definition get_prop_key (index : Z) : option Value :=
  if (index <? 0) || (10 <=? index) then None
  else Some (of_string ("C" +:+ pretty index)).

(** <src/lobby_vt.cpp:297-309 vtFilter> *)
Definition int_of (v : Value) : option Z :=
  match get_int32 v with
  | Some n => Some n
  | None =>
  match get_int64 v with
  | Some n => Some n
  | None =>
  match get_int16 v with
  | Some n => Some n
  | None =>
  match get_byte v with
  | Some n => Some n
  | None =>
  match get_bool v with
  | Some b => Some (if b then 1 else 0)
  | None => None
  end end end end end.

(** <src/lobby_vt.cpp:280-315 vtFilter>
    The text of the cell, with its number when it is one; [None] where the
    room is refused. *)
Definition actual (g : Game) (c : Z) : option (string * option Z) :=
  if c =? 0 then Some (id g, None)
  else if (1 <=? c) && (c <=? 10) then
    key ← get_prop_key (c - 1);
    val ← custom_props g !! key;
    match get_string val with
    | Some s => Some (s, None)
    | None => n ← int_of val; Some (pretty n, Some n)
    end
  else None.

(** [!(a > b)] and so on, on a difference; an operator that is none of the
    four accepts. *)
Definition in_order (o : ascii) (diff : Z) : bool :=
  if bool_decide (o = ">"%char) then 0 <? diff
  else if bool_decide (o = "<"%char) then diff <? 0
  else if bool_decide (o = "]"%char) then 0 <=? diff
  else if bool_decide (o = "["%char) then diff <=? 0
  else true.

(** <src/lobby_vt.cpp:277-351 vtFilter> *)
Definition matches_prop (g : Game) (prop : FilterProp) : bool :=
  if fp_is_null prop then false
  else match actual g (col prop) with
  | None => false
  | Some (actual_str, actual_int) =>
      let o := fp_op prop in
      if bool_decide (o = "="%char) then
        sqlite3_stricmp (c_str actual_str) (c_str (str_val prop)) =? 0
      else if bool_decide (o = "L"%char) then
        sqlite3_strlike (c_str (str_val prop)) (c_str actual_str) 0 =? 0
      else if bool_decide (o = "G"%char) then
        sqlite3_strglob (c_str (str_val prop)) (c_str actual_str) =? 0
      else match is_numeric prop, actual_int with
      | true, Some n => in_order o (n - int_val prop)
      | _, _ => in_order o (sqlite3_stricmp (c_str actual_str) (c_str (str_val prop)))
      end
  end.

(** <src/lobby_vt.cpp:275-354 vtFilter> *)
Definition matches_props (f : Filters) (g : Game) : bool :=
  forallb (matches_prop g) (filter_props f).

(** A live room, by its weak pointer. *)
Definition live_match d (f : Filters) (p : Game → bool) (gm : game_ptr) : bool :=
  match game_heap d !! gm with
  | Some g => p g && matches_props f g
  | None => false
  end.

(** <src/lobby_vt.cpp:356-375 vtFilter> *)
Definition search_games d l (app : App) (lobby : Lobby) (n : Z) (f : Filters) : list game_ptr :=
  if has_flag n 1 then
    match games_ app !! filter_id f with
    | Some gm =>
        if live_match d f (λ g, bool_decide (game_lobby g = l)) gm then [gm] else []
    | None => []
    end
  else filter (λ gm, live_match d f (λ _, true) gm = true) (games lobby).

(** <src/lobby_vt.cpp:206-384 vtFilter>
    A null lobby or application is used without a test. *)
Definition vtFilter d l (n : Z) (s : option string) (argv : list sql_value) :
    LobbyCursor * Z + Fault :=
  let plan :=
    match s with
    | Some s =>
        let s := String.list_ascii_of_string s in read_plan (S (length s)) s argv no_filters
    | None => Some no_filters
    end in
  match plan with
  | None => inl (mkCursor [] 0, SQLITE_ERROR)
  | Some f =>
      if has_flag n 1 && filter_id_is_null f then inl (mkCursor [] 0, SQLITE_OK)
      else match lobby_heap d !! l with
      | None => inr NullDereference
      | Some lobby =>
          match room_app d lobby with
          | None => inr NullDereference
          | Some (_, app) => inl (mkCursor (search_games d l app lobby n f) 0, SQLITE_OK)
          end
      end
  end.

(** ** Connecting *)

(** <src/lobby_vt.cpp:30-33 LobbyVTab> *)
Record LobbyVTab := mkVTab { vt_lobby : lobby_ptr }.

(** <src/lobby_vt.cpp:49-81 vtConnect>
    [rc] is what declaring the table's columns gave. *)
Definition vtConnect (rc : Z) (pAux : lobby_ptr) : LobbyVTab + Z :=
  if negb (rc =? SQLITE_OK) then inr rc else inl (mkVTab pAux).

(** <src/lobby_vt.cpp:173-192 vtOpen> *)
Definition vtOpen : LobbyCursor := mkCursor [] 0.

(** ** Walking over the rows *)

(** <src/lobby_vt.cpp:386-389 vtNext> *)
Definition vtNext (cur : LobbyCursor) : LobbyCursor := cur <| current_index ::= Z.succ |>.

(** <src/lobby_vt.cpp:391-394 vtEof> *)
Definition vtEof (cur : LobbyCursor) : bool := len (games_snapshot cur) <=? current_index cur.

(** <src/lobby_vt.cpp:408-450 vtColumn> *)
Definition game_column (g : Game) (i : Z) : SqlResult :=
  if i =? 0 then ResultText (c_str (id g))
  else if (1 <=? i) && (i <=? 10) then
    match (key ← get_prop_key (i - 1); custom_props g !! key) with
    | Some val =>
        match get_string val with
        | Some s => ResultText (c_str s)
        | None =>
        match get_bool val with
        | Some b => ResultInt (if b then 1 else 0)
        | None =>
        match get_int32 val with
        | Some n => ResultInt n
        | None =>
        match get_int64 val with
        | Some n => ResultInt n
        | None =>
        match get_int16 val with
        | Some n => ResultInt n
        | None =>
        match get_byte val with
        | Some n => ResultInt n
        | None => ResultNull
        end end end end end end
    | None => ResultNull
    end
  else ResultNull.

(** <src/lobby_vt.cpp:396-455 vtColumn>
    A room of the snapshot is alive: the snapshot owns it. *)
Definition vtColumn d (cur : LobbyCursor) (i : Z) : SqlResult :=
  match games_snapshot cur !! Z.to_nat (current_index cur) with
  | Some gm =>
      match game_heap d !! gm with Some g => game_column g i | None => ResultNull end
  | None => ResultNull
  end.

(** <src/lobby_vt.cpp:457-475 vtRowid> *)
Definition vtRowid (cur : LobbyCursor) : Z :=
  if current_index cur <? len (games_snapshot cur) then s64 (current_index cur + 1) else 0.

(** How the database walks over the rows of a cursor, reading the column of
    ids with the row's number. *)
Fixpoint scan (n : nat) d (cur : LobbyCursor) : list (Z * SqlResult) :=
  match n with
  | O => []
  | S n =>
      if vtEof cur then [] else (vtRowid cur, vtColumn d cur 0) :: scan n d (vtNext cur)
  end.
End table.

(** ** Strings, specified *)

Lemma until_nul_app_idemp s : until_nul (until_nul s) = until_nul s.
Proof.
  induction s as [|c s IH]; [done|]. cbn [until_nul]. destruct (_ =? 0) eqn:E; [done|].
  cbn [until_nul]. by rewrite E, IH.
Qed.

Lemma c_str_ptr s : c_str (string_of_ptr s) = c_str s.
Proof.
  unfold c_str, string_of_ptr.
  by rewrite String.list_ascii_of_string_of_list_ascii, until_nul_app_idemp.
Qed.

Lemma c_str_ok s : text_ok (c_str s).
Proof.
  unfold c_str, text_ok. induction (String.list_ascii_of_string s) as [|c cs IH]; [constructor|].
  cbn [until_nul]. destruct (_ =? 0) eqn:E; [constructor|]. bools.
  rewrite fmap_cons. constructor; [|done]. pose proof (code_range c). lia.
Qed.

Lemma c_str_inj s t : c_str s = c_str t ↔ string_of_ptr s = string_of_ptr t.
Proof.
  unfold c_str, string_of_ptr. split.
  - intros E. f_equal. revert E. generalize (until_nul (String.list_ascii_of_string t)).
    induction (until_nul _) as [|c cs IH]; intros [|c' cs']; try done.
    rewrite !fmap_cons. intros [= E ?]. f_equal; [|auto].
    by rewrite <-(char_code c), <-(char_code c'), E.
  - intros E. f_equal. apply (f_equal String.list_ascii_of_string) in E.
    by rewrite !String.list_ascii_of_string_of_list_ascii in E.
Qed.

(** The characters of a number are neither terminators nor letters. *)
Definition figure (c : ascii) : Prop := 0 < code_of c < 65.

Lemma pretty_N_figures x s :
  Forall figure (String.list_ascii_of_string s) →
  Forall figure (String.list_ascii_of_string (pretty_N_go x s)).
Proof.
  revert s. induction (N.lt_wf_0 x) as [x _ IH]. intros s Hs.
  destruct (decide (x = 0)%N) as [->|]; [done|].
  rewrite pretty_N_go_step by lia. apply IH; [apply N.div_lt; lia|].
  cbn. constructor; [|done]. clear. unfold figure, pretty_N_char.
  repeat case_match; vm_compute; by split.
Qed.

Lemma pretty_figures (z : Z) : Forall figure (String.list_ascii_of_string (pretty z)).
Proof.
  assert (∀ n : N, Forall figure (String.list_ascii_of_string (pretty n))) as Hn.
  { intros n. unfold pretty, pretty_N. case_decide; [by repeat constructor|].
    apply pretty_N_figures. constructor. }
  destruct z as [|p|p]; [by repeat constructor|apply (Hn (Npos p))|].
  change (pretty (Z.neg p)) with (String "-" (pretty (Npos p))). cbn.
  constructor; [by split|]. apply Hn.
Qed.

Lemma figures_until_nul s : Forall figure s → until_nul s = s.
Proof.
  induction 1 as [|c s Hc _ IH]; [done|]. cbn [until_nul]. unfold figure in Hc.
  rewrite (proj2 (Z.eqb_neq _ _)) by lia. by rewrite IH.
Qed.

Lemma stricmp_refl a : sqlite3_stricmp a a = 0.
Proof. induction a as [|c a IH]; [done|]. cbn [sqlite3_stricmp]. by rewrite Z.eqb_refl. Qed.

Lemma tolower_small x : 0 ≤ x < 65 → sqlite3Tolower x = x.
Proof.
  intros Hx.
  assert (forallb (λ n, sqlite3Tolower (Z.of_nat n) =? Z.of_nat n) (seq 0 65) = true) as Hall
    by (vm_compute; reflexivity).
  rewrite forallb_forall in Hall. specialize (Hall (Z.to_nat x)).
  rewrite Z2Nat.id in Hall by lia. apply Z.eqb_eq, Hall, in_seq. lia.
Qed.

(** Texts without letters compare equal without case only if they are equal. *)
Lemma stricmp_plain a b :
  Forall (λ c, 0 < c < 65) a → Forall (λ c, 0 < c < 65) b → sqlite3_stricmp a b = 0 → a = b.
Proof.
  intros Ha. revert b. induction Ha as [|c a Hc _ IH]; intros [|x b] Hb; cbn [sqlite3_stricmp].
  - done.
  - apply Forall_cons in Hb as [? _]. rewrite !tolower_small by lia. lia.
  - rewrite !tolower_small by lia. lia.
  - apply Forall_cons in Hb as [? Hb]. rewrite !tolower_small by lia.
    destruct (c =? x) eqn:E; bools; [intros ?; subst; f_equal; auto|].
    cbv zeta. rewrite (proj2 (Z.eqb_neq _ _)) by lia. lia.
Qed.

Lemma stricmp_pretty (n m : Z) :
  (sqlite3_stricmp (c_str (pretty n)) (c_str (pretty m)) =? 0) = (n - m =? 0).
Proof.
  assert (∀ z : Z, c_str (pretty z) = code_of <$> String.list_ascii_of_string (pretty z)) as Hc.
  { intros z. unfold c_str. by rewrite (figures_until_nul _ (pretty_figures z)). }
  assert (∀ z : Z, Forall (λ c, 0 < c < 65) (c_str (pretty z))) as Hf.
  { intros z. rewrite Hc. apply Forall_fmap. apply pretty_figures. }
  destruct (n - m =? 0) eqn:E; bools.
  - assert (n = m) as -> by lia. by rewrite stricmp_refl.
  - apply Z.eqb_neq. intros Es%stricmp_plain; [|apply Hf..].
    apply c_str_inj in Es. unfold string_of_ptr in Es.
    rewrite !(figures_until_nul _ (pretty_figures _)), !String.string_of_list_ascii_of_string in Es.
    apply (inj pretty) in Es. lia.
Qed.

(** ** The plan, specified *)

(** The operator under which the table takes a constraint over, if it does. *)
Definition takes (c : IndexConstraint) : option ascii :=
  if usable c && (0 <=? iColumn c) && (iColumn c <=? 10) then op_char (op c) else None.

Definition id_equals (c : IndexConstraint) : bool :=
  (iColumn c =? 0) && bool_decide (takes c = Some "="%char).

Section planned.
Context `{Ser, SqliteValues}.

(** What the database passes to [vtFilter]: the value of each constraint that
    was given an index, at that index. *)
Definition passes (usages : list ConstraintUsage) (values argv : list sql_value) : Prop :=
  length argv = length (filter (λ u, argvIndex u ≠ 0) usages) ∧
  ∀ i u v, usages !! i = Some u → values !! i = Some v → argvIndex u ≠ 0 →
    argv !! Z.to_nat (argvIndex u - 1) = Some v.

(** The constraints taken over, with their values. *)
Definition taken (cs : list IndexConstraint) (values : list sql_value) :
    list (IndexConstraint * sql_value) :=
  filter (λ cv, is_Some (takes cv.1)) (zip cs values).

Definition token (cv : IndexConstraint * sql_value) : list ascii :=
  match takes cv.1 with
  | Some o => String.list_ascii_of_string (pretty (iColumn cv.1)) ++ [o; ";"%char]
  | None => []
  end.

Definition add_taken (f : Filters) (cv : IndexConstraint * sql_value) : Filters :=
  match takes cv.1 with
  | Some o => read_constraint (iColumn cv.1) o cv.2 f
  | None => f
  end.

(** One constraint of the loop. *)
Lemma best_index_loop_cons c cs k n s :
  best_index_loop (c :: cs) k n s =
  match takes c with
  | None =>
      let '(usages, n, s) := best_index_loop cs k n s in (mkUsage 0 false :: usages, n, s)
  | Some o =>
      let '(usages, n, s) :=
        best_index_loop cs (k + 1) (if id_equals c then Z.lor n 1 else n)
          (s ++ String.list_ascii_of_string (pretty (iColumn c)) ++ [o; ";"%char]) in
      (mkUsage k true :: usages, n, s)
  end.
Proof.
  cbn [best_index_loop]. unfold id_equals, takes.
  destruct (usable c); cbn [negb andb]; [|done].
  rewrite !Z.ltb_antisym.
  destruct (0 <=? iColumn c), (iColumn c <=? 10); cbn [negb orb andb];
    destruct (op_char (op c)) as [o|] eqn:Eo; try done.
  rewrite (bool_decide_ext (Some o = Some "="%char) (o = "="%char)) by naive_solver. done.
Qed.

(** The loop writes the tokens of the constraints it takes over, numbers
    them and notes whether an id was asked for. *)
Lemma best_index_loop_spec cs values (argv : list sql_value) k n s usages n' s' :
  length values = length cs → 1 ≤ k →
  best_index_loop cs k n s = (usages, n', s') →
  s' = s ++ mjoin (token <$> taken cs values) ∧
  n' = (if existsb id_equals cs then Z.lor n 1 else n) ∧
  length (filter (λ u, argvIndex u ≠ 0) usages) = length (taken cs values) ∧
  ((∀ i u v, usages !! i = Some u → values !! i = Some v → argvIndex u ≠ 0 →
      argv !! Z.to_nat (argvIndex u - 1) = Some v) →
   ∀ j cv, taken cs values !! j = Some cv → argv !! (Z.to_nat (k - 1) + j)%nat = Some cv.2).
Proof.
  revert values k n s usages n' s'.
  induction cs as [|c cs IH]; intros [|v values] k n s usages n' s' Hlen Hk; try done.
  { cbn. intros [= <- <- <-]. rewrite app_nil_r. done. }
  injection Hlen as Hlen. rewrite best_index_loop_cons. unfold taken. cbn [zip zip_with].
  change (zip_with pair cs values) with (zip cs values).
  destruct (takes c) as [o|] eqn:Et.
  - destruct (best_index_loop _ _ _ _) as [[us m] t] eqn:E. intros [= <- <- <-].
    apply (IH _ _ _ _ _ _ _ Hlen) in E as (-> & -> & El & Ha); [|lia].
    rewrite filter_cons_True by (cbn; rewrite Et; eauto). fold (taken cs values).
    split; [|split; [|split]].
    + rewrite fmap_cons. cbn [mjoin list_join]. unfold token at 2. cbn [fst]. rewrite Et.
      by rewrite <-!app_assoc.
    + cbn [existsb]. destruct (id_equals c), (existsb id_equals cs); cbn [orb]; try done.
      rewrite <-Z.lor_assoc. done.
    + rewrite filter_cons_True by (cbn; lia). cbn [length]. by rewrite El.
    + intros Hpass [|j] cv.
      * intros [= <-]. cbn [snd]. rewrite Nat.add_0_r. apply (Hpass 0%nat (mkUsage k true)); [done..|cbn; lia].
      * cbn. intros Hj. replace (Z.to_nat (k - 1) + S j)%nat with (Z.to_nat (k + 1 - 1) + j)%nat by lia.
        apply Ha; [|done]. intros i. apply (Hpass (S i)).
  - destruct (best_index_loop _ _ _ _) as [[us m] t] eqn:E. intros [= <- <- <-].
    apply (IH _ _ _ _ _ _ _ Hlen) in E as (-> & -> & El & Ha); [|lia].
    rewrite filter_cons_False by (cbn; rewrite Et; by intros [? ?]). fold (taken cs values).
    assert (id_equals c = false) as Hid.
    { unfold id_equals. rewrite Et. by rewrite andb_false_r. }
    split; [done|]. split; [cbn [existsb]; by rewrite Hid|].
    split; [rewrite filter_cons_False by (cbn; lia); done|].
    intros Hpass. apply Ha. intros i. apply (Hpass (S i)).
Qed.

(** A token is read back as its constraint. *)
Lemma read_token cv rest n argv f :
  is_Some (takes cv.1) →
  read_plan (S n) (token cv ++ rest) (cv.2 :: argv) f = read_plan n rest argv (add_taken f cv).
Proof.
  destruct cv as [[c o u] v]. unfold token, add_taken. cbn [fst snd iColumn].
  destruct (takes _) as [oc|] eqn:Et; [|by intros [? ?]]. intros _.
  unfold takes in Et. cbn [usable iColumn op] in Et. destruct (_ && _) eqn:Ec; [|done]. bools.
  assert (oc ∈ ["="; "L"; "G"; ">"; "<"; "]"; "["]%char) as Hoc.
  { unfold op_char in Et. repeat case_match; simplify_eq; set_solver. }
  clear Et. assert (c ∈ [0; 1; 2; 3; 4; 5; 6; 7; 8; 9; 10]) as Hc.
  { repeat setoid_rewrite elem_of_cons. lia. }
  repeat (apply elem_of_cons in Hc as [->|Hc]); [..|by apply elem_of_nil in Hc];
    repeat (apply elem_of_cons in Hoc as [->|Hoc]); try (by apply elem_of_nil in Hoc); reflexivity.
Qed.

Lemma read_taken l n f :
  Forall (λ cv : IndexConstraint * sql_value, is_Some (takes cv.1)) l → (length l < n)%nat →
  read_plan n (mjoin (token <$> l)) l.*2 f = Some (foldl add_taken f l).
Proof.
  intros Hl. revert n f. induction Hl as [|cv l Hcv _ IH]; intros [|n] f Hn; cbn in Hn; try lia; [done|].
  rewrite !fmap_cons. cbn [mjoin list_join foldl].
  rewrite read_token by done. apply IH. lia.
Qed.

(** What [vtBestIndex] writes [vtFilter] reads: the constraints taken over,
    in their order, each with its own value. *)
Lemma plan_read_back cs values argv :
  length values = length cs → passes (aConstraintUsage (vtBestIndex cs)) values argv →
  match idxStr (vtBestIndex cs) with
  | Some s =>
      let s := String.list_ascii_of_string s in read_plan (S (length s)) s argv no_filters
  | None => Some no_filters
  end = Some (foldl add_taken no_filters (taken cs values)) ∧
  idxNum (vtBestIndex cs) = (if existsb id_equals cs then 1 else 0).
Proof.
  intros Hlen [Hargc Hpass]. unfold vtBestIndex in *.
  destruct (best_index_loop cs 1 0 []) as [[us n] s] eqn:E. cbn [aConstraintUsage idxStr idxNum] in *.
  destruct (best_index_loop_spec cs values argv 1 0 [] us n s Hlen ltac:(lia) E) as (-> & -> & El & Ha).
  specialize (Ha Hpass). cbn [app] in *. split; [|done].
  assert (argv = (taken cs values).*2) as ->.
  { apply list_eq_same_length with (n := length argv); [by rewrite length_fmap, Hargc, El|done|].
    intros i x y Hi Hx. rewrite list_lookup_fmap. intros (cv & Hcv & ->)%fmap_Some.
    specialize (Ha i cv Hcv). change (Z.to_nat (1 - 1) + i)%nat with i in Ha. rewrite Hx in Ha. by injection Ha. }
  assert (Forall (λ cv, is_Some (takes cv.1)) (taken cs values)) as Hl.
  { apply Forall_forall. intros cv Hcv%list_elem_of_filter. apply Hcv. }
  assert (length (taken cs values) ≤ length (mjoin (token <$> taken cs values)))%nat as Hs.
  { clear -Hl. induction Hl as [|cv l Hcv _ IH]; [done|]. rewrite fmap_cons.
    change (mjoin (token cv :: (token <$> l))) with (token cv ++ mjoin (token <$> l)).
    rewrite length_app. cbn [length]. unfold token at 1. destruct Hcv as [o ->].
    rewrite length_app. cbn [length]. lia. }
  destruct (mjoin (token <$> taken cs values)) as [|c s] eqn:Es.
  - destruct (taken cs values); [done|cbn in Hs; lia].
  - rewrite <-Es, String.list_ascii_of_string_of_list_ascii. apply read_taken; [done|].
    rewrite Es. lia.
Qed.
End planned.

(** ** What a condition means *)

(** The sign of a difference under an operator. *)
Definition sql_order (o diff : Z) : bool :=
  if o =? SQLITE_INDEX_CONSTRAINT_EQ then diff =? 0
  else if o =? SQLITE_INDEX_CONSTRAINT_GT then 0 <? diff
  else if o =? SQLITE_INDEX_CONSTRAINT_LT then diff <? 0
  else if o =? SQLITE_INDEX_CONSTRAINT_GE then 0 <=? diff
  else if o =? SQLITE_INDEX_CONSTRAINT_LE then diff <=? 0
  else false.

(** The [BINARY] collation, of the column of ids. *)
Fixpoint binary_order (a b : list Z) : Z :=
  match a, b with
  | [], [] => 0
  | [], _ => -1
  | _, [] => 1
  | x :: a, y :: b => if x =? y then binary_order a b else x - y
  end.

Lemma binary_order_eq a b : binary_order a b = 0 ↔ a = b.
Proof.
  revert b. induction a as [|x a IH]; intros [|y b]; cbn [binary_order]; try done.
  destruct (x =? y) eqn:E; bools.
  - rewrite IH. naive_solver.
  - split; [lia|]. intros [= ? _]. done.
Qed.

Section meaning.
Context `{SerLaws, SqliteValues}.
Implicit Types (d : Directory) (l : lobby_ptr) (g : Game) (gm : game_ptr).

Definition text_of (v : sql_value) : list Z :=
  match sqlite3_value_text v with Some s => c_str s | None => [] end.
Definition result_text (r : SqlResult) : list Z :=
  match r with ResultText t => t | ResultInt n => c_str (pretty n) | ResultNull => [] end.

(** Whether a condition holds of what a column shows, as the database itself
    would decide for values of one type: nothing holds of a null, numbers
    compare as numbers, texts under the collation the table declares for the
    column, and patterns match the text of the cell. *)
Definition sql_true (column o : Z) (shown : SqlResult) (v : sql_value) : bool :=
  if sqlite3_value_type v =? SQLITE_NULL then false
  else if bool_decide (shown = ResultNull) then false
  else if o =? SQLITE_INDEX_CONSTRAINT_LIKE then
    sqlite3_strlike (text_of v) (result_text shown) 0 =? SQLITE_MATCH
  else if o =? SQLITE_INDEX_CONSTRAINT_GLOB then
    sqlite3_strglob (text_of v) (result_text shown) =? SQLITE_MATCH
  else match shown with
  | ResultInt n => sql_order o (n - sqlite3_value_int64 v)
  | _ =>
      sql_order o
        (if column =? 0 then binary_order (result_text shown) (text_of v)
         else sqlite3_stricmp (result_text shown) (text_of v))
  end.

(** A cell and the value it is compared with have one type; ids are asked for,
    or matched against patterns. *)
Definition comparable (column o : Z) (shown : SqlResult) (v : sql_value) : Prop :=
  shown = ResultNull ∨ sqlite3_value_type v = SQLITE_NULL ∨
  o = SQLITE_INDEX_CONSTRAINT_LIKE ∨ o = SQLITE_INDEX_CONSTRAINT_GLOB ∨
  (∃ n, shown = ResultInt n ∧ sqlite3_value_type v = SQLITE_INTEGER) ∨
  (∃ t, shown = ResultText t ∧ sqlite3_value_type v = SQLITE_TEXT ∧
        (column = 0 → o = SQLITE_INDEX_CONSTRAINT_EQ)).

(** The order in which the kinds of numbers are tried does not matter. *)
Lemma int_of_column v :
  get_string v = None →
  match get_bool v with
  | Some b => ResultInt (if b then 1 else 0)
  | None =>
  match get_int32 v with
  | Some n => ResultInt n
  | None =>
  match get_int64 v with
  | Some n => ResultInt n
  | None =>
  match get_int16 v with
  | Some n => ResultInt n
  | None =>
  match get_byte v with Some n => ResultInt n | None => ResultNull end end end end end
  = match int_of v with Some n => ResultInt n | None => ResultNull end.
Proof.
  intros _. unfold int_of. destruct (get_bool v) as [b|] eqn:Eb.
  - apply acc_inv in Eb as ->.
    rewrite (acc_other of_bool get_bool of_int32 get_int32) by done.
    rewrite (acc_other of_bool get_bool of_int64 get_int64) by done.
    rewrite (acc_other of_bool get_bool of_int16 get_int16) by done.
    rewrite (acc_other of_bool get_bool of_byte get_byte) by done. done.
  - destruct (get_int32 v), (get_int64 v), (get_int16 v), (get_byte v); done.
Qed.

(** What the filter compares is what the column shows. *)
Lemma actual_shown g c :
  0 ≤ c ≤ 10 →
  match actual g c with
  | Some (s, None) => game_column g c = ResultText (c_str s)
  | Some (s, Some n) => game_column g c = ResultInt n ∧ s = pretty n
  | None => game_column g c = ResultNull
  end.
Proof.
  intros Hc. unfold actual, game_column. destruct (c =? 0); [done|].
  destruct (_ && _); [|done]. unfold get_prop_key. destruct (_ || _); [done|].
  cbn [mbind option_bind]. destruct (custom_props g !! _) as [val|]; [|done].
  cbn [mbind option_bind]. destruct (get_string val) eqn:Es; [done|].
  rewrite int_of_column by done. destruct (int_of val); cbn; done.
Qed.

Lemma string_of_ptr_idemp s : string_of_ptr (string_of_ptr s) = string_of_ptr s.
Proof. apply c_str_inj, c_str_ptr. Qed.

(** The value of a constraint as the filter keeps it. *)
Definition prop_of (c : Z) (o : ascii) (v : sql_value) : FilterProp :=
  mkFilterProp c o (sqlite3_value_type v =? SQLITE_NULL)
    ((sqlite3_value_type v =? SQLITE_INTEGER) || (sqlite3_value_type v =? SQLITE_FLOAT))
    (match sqlite3_value_text v with Some s => string_of_ptr s | None => EmptyString end)
    (if (sqlite3_value_type v =? SQLITE_INTEGER) || (sqlite3_value_type v =? SQLITE_FLOAT)
     then sqlite3_value_int64 v else 0).

Lemma prop_text c o v : c_str (str_val (prop_of c o v)) = text_of v.
Proof. cbn. unfold text_of. destruct (sqlite3_value_text v); [apply c_str_ptr|done]. Qed.

Lemma actual_text g c s n :
  0 ≤ c ≤ 10 → actual g c = Some (s, n) → c_str s = result_text (game_column g c).
Proof.
  intros Hc E. pose proof (actual_shown g c Hc) as Hs. rewrite E in Hs.
  destruct n; [|by rewrite Hs]. by destruct Hs as [-> ->].
Qed.

(** The operators by their letters. *)
Lemma op_char_cases o oc :
  op_char o = Some oc →
  (o = SQLITE_INDEX_CONSTRAINT_EQ ∧ oc = "="%char ∧ ∀ x, sql_order o x = (x =? 0)) ∨
  (o = SQLITE_INDEX_CONSTRAINT_LIKE ∧ oc = "L"%char ∧ ∀ x, sql_order o x = false) ∨
  (o = SQLITE_INDEX_CONSTRAINT_GLOB ∧ oc = "G"%char ∧ ∀ x, sql_order o x = false) ∨
  (o ≠ SQLITE_INDEX_CONSTRAINT_LIKE ∧ o ≠ SQLITE_INDEX_CONSTRAINT_GLOB ∧
   (oc ≠ "=" ∧ oc ≠ "L" ∧ oc ≠ "G")%char ∧ o ≠ SQLITE_INDEX_CONSTRAINT_EQ ∧
   ∀ x, in_order oc x = sql_order o x).
Proof.
  unfold op_char. repeat (destruct (_ =? _) eqn:?; bools; [intros [= <-]; subst o|]); [..|done].
  - by left.
  - by right; left.
  - by right; right; left.
  - by right; right; right.
  - by right; right; right.
  - by right; right; right.
  - by right; right; right.
Qed.

(** A constraint on a property, or a pattern for the id. *)
Lemma matches_prop_sql g c o oc v :
  SqliteValuesLaws → 0 ≤ c ≤ 10 → op_char o = Some oc → (c = 0 → oc ≠ "="%char) →
  comparable c o (game_column g c) v →
  matches_prop g (prop_of c oc v) = sql_true c o (game_column g c) v.
Proof.
  intros Hlaws Hc Ho Hid Hcmp. unfold matches_prop, sql_true. cbn [fp_is_null fp_op col is_numeric int_val].
  change (fp_is_null (prop_of c oc v)) with (sqlite3_value_type v =? SQLITE_NULL).
  destruct (sqlite3_value_type v =? SQLITE_NULL) eqn:En; [done|].
  change (col (prop_of c oc v)) with c. change (fp_op (prop_of c oc v)) with oc.
  pose proof (actual_shown g c Hc) as Hs. pose proof (actual_text g c) as Ht.
  destruct (actual g c) as [[s n]|]; [|by rewrite Hs, bool_decide_eq_true_2].
  specialize (Ht s n Hc eq_refl). rewrite (prop_text c oc v), Ht.
  assert (game_column g c ≠ ResultNull) as Hnn
    by (destruct n; [destruct Hs as [-> _]|rewrite Hs]; done).
  rewrite (bool_decide_eq_false_2 (game_column g c = ResultNull)) by done. bools.
  destruct (op_char_cases o oc Ho) as [(-> & -> & Hord)|[(-> & -> & _)|[(-> & -> & _)|(Hl & Hg & Hne & He & Hord)]]].
  - rewrite bool_decide_eq_true_2 by done. cbn [Z.eqb Pos.eqb SQLITE_INDEX_CONSTRAINT_EQ
      SQLITE_INDEX_CONSTRAINT_LIKE SQLITE_INDEX_CONSTRAINT_GLOB].
    destruct Hcmp as [?|[?|[?|[?|[(m & Em & Hv)|(t & Et & Hv & Hbin)]]]]]; try done.
    + rewrite Em in *. unfold text_of. rewrite (integer_text v Hv). cbn [result_text].
      apply stricmp_pretty.
    + rewrite Et. rewrite (proj2 (Z.eqb_neq c 0)) by (by intros ?%Hid). done.
  - done.
  - done.
  - rewrite !bool_decide_eq_false_2 by tauto.
    rewrite (proj2 (Z.eqb_neq o _) Hl), (proj2 (Z.eqb_neq o _) Hg).
    destruct Hcmp as [?|[?|[?|[?|[(m & Em & Hv)|(t & Et & Hv & Hbin)]]]]]; try done.
    + rewrite Em in *. destruct n as [n|]; [|done]. destruct Hs as [[= ->] _].
      unfold prop_of. cbn [is_numeric int_val]. rewrite Hv. cbn. apply Hord.
    + rewrite Et in *. destruct n as [n|]; [by destruct Hs|]. unfold prop_of. cbn [is_numeric].
      rewrite Hv. cbn [Z.eqb Pos.eqb orb SQLITE_TEXT SQLITE_INTEGER SQLITE_FLOAT].
      rewrite (proj2 (Z.eqb_neq c 0)); [apply Hord|]. intros Hc0. specialize (Hbin Hc0).
      done.
Qed.

(** ** The query *)

(** The conditions on a room, by its name. *)
Definition conditions_hold d (l : list (IndexConstraint * sql_value)) gm : bool :=
  match game_heap d !! gm with
  | Some g => forallb (λ cv : IndexConstraint * sql_value, sql_true (iColumn cv.1) (op cv.1) (game_column g (iColumn cv.1)) cv.2) l
  | None => false
  end.

(** What the plan's constraints become, the ids apart. *)
Lemma read_props (l : list (IndexConstraint * sql_value)) f :
  Forall (λ cv : IndexConstraint * sql_value, is_Some (takes cv.1)) l →
  filter_props (foldl add_taken f l) = filter_props f ++
    omap (λ cv : IndexConstraint * sql_value, if id_equals cv.1 then None
               else o ← takes cv.1; Some (prop_of (iColumn cv.1) o cv.2)) l.
Proof.
  intros Hl. revert f. induction Hl as [|[c v] l [o Ho] _ IH]; intros f; [by rewrite app_nil_r|].
  cbn [foldl omap list_omap]. rewrite IH. clear IH. cbn [fst snd] in *.
  unfold add_taken at 1, id_equals. cbn [fst snd]. rewrite Ho.
  rewrite (bool_decide_ext (Some o = Some "="%char) (o = "="%char)) by naive_solver.
  unfold read_constraint. destruct (_ && _); upd; cbn [mbind option_bind]; [done|].
  by rewrite <-app_assoc.
Qed.

Lemma read_other (l : list (IndexConstraint * sql_value)) f :
  Forall (λ cv : IndexConstraint * sql_value, id_equals cv.1 = false) l →
  filter_id (foldl add_taken f l) = filter_id f ∧
  filter_id_is_null (foldl add_taken f l) = filter_id_is_null f.
Proof.
  intros Hl. revert f. induction Hl as [|[c v] l Hc _ IH]; intros f; [done|].
  cbn [foldl]. destruct (IH (add_taken f (c, v))) as [-> ->]. cbn [fst snd] in *.
  unfold add_taken. cbn [fst snd]. unfold id_equals in Hc. destruct (takes c) as [o|]; [|done].
  rewrite (bool_decide_ext (Some o = Some "="%char) (o = "="%char)) in Hc by naive_solver.
  unfold read_constraint. by rewrite Hc.
Qed.

Lemma read_id cv (l : list (IndexConstraint * sql_value)) f :
  id_equals cv.1 = true → Forall (λ cv : IndexConstraint * sql_value, id_equals cv.1 = false) l →
  filter_id (foldl add_taken f (cv :: l)) =
    match sqlite3_value_text cv.2 with Some s => string_of_ptr s | None => EmptyString end ∧
  filter_id_is_null (foldl add_taken f (cv :: l)) = (sqlite3_value_type cv.2 =? SQLITE_NULL).
Proof.
  intros Hc Hl. destruct cv as [c v]. cbn [foldl fst snd] in *.
  destruct (read_other l (add_taken f (c, v)) Hl) as [-> ->].
  unfold add_taken. cbn [fst snd]. unfold id_equals in Hc. apply andb_prop in Hc as [Hc Ho]. bools.
  rewrite Ho, Hc. done.
Qed.

(** The constraints the filter evaluates itself. *)
Lemma matches_props_sql g (l : list (IndexConstraint * sql_value)) f :
  SqliteValuesLaws → Forall (λ cv : IndexConstraint * sql_value, is_Some (takes cv.1)) l →
  (∀ c v, (c, v) ∈ l → comparable (iColumn c) (op c) (game_column g (iColumn c)) v) →
  filter_props f = [] →
  matches_props (foldl add_taken f l) g =
  forallb (λ cv : IndexConstraint * sql_value, id_equals cv.1
             || sql_true (iColumn cv.1) (op cv.1) (game_column g (iColumn cv.1)) cv.2) l.
Proof.
  intros Hlaws Hl Hcmp Hf. unfold matches_props. rewrite read_props, Hf by done. clear Hf f.
  cbn [app]. induction Hl as [|[c v] l [o Ho] _ IH]; [done|].
  cbn [omap list_omap forallb fst snd] in *. rewrite <-IH by (intros ???; apply Hcmp; by right).
  destruct (id_equals c) eqn:Hid; [done|]. rewrite Ho. cbn [mbind option_bind forallb orb]. f_equal.
  unfold id_equals in Hid. rewrite Ho in Hid. unfold takes in Ho. destruct (_ && _) eqn:Hr; [|done].
  apply matches_prop_sql; [done|lia|done| |apply Hcmp; by left].
  intros Hc0 ->. rewrite Hc0 in Hid. by rewrite bool_decide_eq_true_2 in Hid.
Qed.

(** A condition on the id. *)
Lemma sql_id_equals g c v :
  id_equals c = true → string_of_ptr (id g) = id g →
  sql_true (iColumn c) (op c) (game_column g (iColumn c)) v =
  negb (sqlite3_value_type v =? SQLITE_NULL)
  && bool_decide (id g = match sqlite3_value_text v with Some s => string_of_ptr s | None => EmptyString end).
Proof.
  intros Hid Hnul. unfold id_equals in Hid. apply andb_prop in Hid as [Hc Ho]. bools. rewrite Hc.
  unfold takes in Ho. destruct (_ && _); [|done].
  assert (op c = SQLITE_INDEX_CONSTRAINT_EQ) as ->.
  { destruct (op_char_cases _ _ Ho) as [[? _]|[(_ & ? & _)|[(_ & ? & _)|(_ & _ & [? _] & _)]]]; done. }
  unfold sql_true. destruct (_ =? SQLITE_NULL); [done|]. cbn [negb andb game_column Z.eqb].
  rewrite bool_decide_eq_false_2 by done. cbn [Z.eqb Pos.eqb result_text SQLITE_INDEX_CONSTRAINT_EQ
    SQLITE_INDEX_CONSTRAINT_LIKE SQLITE_INDEX_CONSTRAINT_GLOB sql_order].
  set (t := match sqlite3_value_text v with Some s => string_of_ptr s | None => EmptyString end).
  assert (text_of v = c_str t ∧ string_of_ptr t = t) as [-> Ht].
  { subst t. unfold text_of. destruct (sqlite3_value_text v); [|done].
    by rewrite c_str_ptr, string_of_ptr_idemp. }
  unfold sql_order. cbn [Z.eqb Pos.eqb SQLITE_INDEX_CONSTRAINT_EQ].
  apply eq_true_iff_eq. rewrite Z.eqb_eq, bool_decide_eq_true, binary_order_eq, c_str_inj.
  by rewrite Hnul, Ht.
Qed.

Lemma filter_agree (Q R : game_ptr → bool) (gs : list game_ptr) :
  (∀ x, x ∈ gs → Q x = R x) →
  filter (λ x, Q x = true) gs = filter (λ x, R x = true) gs.
Proof.
  induction gs as [|x gs IH]; [done|]. intros HQ. rewrite !filter_cons, IH by (intros; apply HQ; by right).
  rewrite (HQ x) by (by left). done.
Qed.

(** A list with one element of interest. *)
Lemma filter_one (Q : game_ptr → bool) gs gm :
  NoDup gs → gm ∈ gs → Q gm = true → (∀ x, x ∈ gs → Q x = true → x = gm) →
  filter (λ x, Q x = true) gs = [gm].
Proof.
  induction gs as [|x gs IH]; [by intros _ ?%elem_of_nil|].
  intros [Hx Hn]%NoDup_cons Hin HQ Huniq. rewrite filter_cons. destruct (decide (Q x = true)) as [HQx|HQx].
  - pose proof (Huniq x ltac:(by left) HQx) as ->. f_equal.
    apply filter_none. intros y Hy HQy.
    apply Hx. by rewrite <-(Huniq y ltac:(by right) HQy).
  - apply elem_of_cons in Hin as [->|Hin]; [done|]. apply IH; [done..|].
    intros y Hy. apply Huniq. by right.
Qed.

Lemma ids_taken cs values :
  length values = length cs →
  filter (λ c, id_equals c = true) cs =
  (filter (λ cv : IndexConstraint * sql_value, id_equals cv.1 = true) (taken cs values)).*1.
Proof.
  revert values. induction cs as [|c cs IH]; intros [|v values] Hlen; try done.
  injection Hlen as Hlen. unfold taken. cbn [zip zip_with].
  change (zip_with pair cs values) with (zip cs values).
  rewrite (filter_cons _ c cs). destruct (takes c) as [o|] eqn:Ho.
  - rewrite filter_cons_True by (cbn; rewrite Ho; eauto). rewrite filter_cons. cbn [fst].
    rewrite (IH values Hlen). by destruct (decide (id_equals c = true)).
  - rewrite (filter_cons_False _ (c, v)) by (cbn; rewrite Ho; by intros [? ?]).
    rewrite decide_False; [by apply IH|]. unfold id_equals. by rewrite Ho, andb_false_r.
Qed.

Lemma existsb_filter {A} (Q : A → bool) xs :
  existsb Q xs = negb (bool_decide (length (filter (λ x, Q x = true) xs) = 0%nat)).
Proof.
  induction xs as [|x xs IH]; [done|]. cbn [existsb]. rewrite filter_cons, IH.
  destruct (Q x); [by rewrite decide_True|by rewrite decide_False].
Qed.

(** The id asked for, if any, among the constraints taken over. *)
Lemma split_id (tk : list (IndexConstraint * sql_value)) :
  (length (filter (λ cv : IndexConstraint * sql_value, id_equals cv.1 = true) tk) ≤ 1)%nat →
  Forall (λ cv : IndexConstraint * sql_value, id_equals cv.1 = false) tk ∨
  ∃ before cv after, tk = before ++ cv :: after ∧ id_equals cv.1 = true ∧
    Forall (λ cv : IndexConstraint * sql_value, id_equals cv.1 = false) before ∧
    Forall (λ cv : IndexConstraint * sql_value, id_equals cv.1 = false) after.
Proof.
  intros Hone. destruct (split_first (λ cv : IndexConstraint * sql_value, id_equals cv.1) tk)
    as [[[before cv] after]|] eqn:E.
  - apply split_first_Some in E as (-> & Hpre & Hcv). right. exists before, cv, after.
    do 2 (split; [done|]). split; [by apply Forall_forall|].
    rewrite filter_app, length_app, filter_cons_True in Hone by done. cbn [length] in Hone.
    apply Forall_forall. intros x Hx. apply not_true_iff_false. intros Hid.
    assert (x ∈ filter (λ cv : IndexConstraint * sql_value, id_equals cv.1 = true) after) as Hin
      by (by apply list_elem_of_filter).
    destruct (filter _ after); [by apply elem_of_nil in Hin|cbn in Hone; lia].
  - left. apply Forall_forall. by eapply split_first_None.
Qed.

Lemma forallb_or_false {A} (I P : A → bool) xs :
  Forall (λ x, I x = false) xs → forallb (λ x, I x || P x) xs = forallb P xs.
Proof. induction 1 as [|x xs Hx _ IH]; [done|]. cbn. by rewrite Hx, IH. Qed.

(** What the database passes and expects: see [passes] and [comparable]. *)
Record well_asked d (lobby : Lobby) (cs : list IndexConstraint) (values argv : list sql_value) :
    Prop := {
  asked_values : length values = length cs;
  asked_argv : passes (aConstraintUsage (vtBestIndex cs)) values argv;
  asked_id : (length (filter (λ c, id_equals c = true) cs) ≤ 1)%nat;
  asked_comparable c v gm g :
    (c, v) ∈ taken cs values → gm ∈ games lobby → game_heap d !! gm = Some g →
    comparable (iColumn c) (op c) (game_column g (iColumn c)) v;
  asked_ids gm g :
    gm ∈ games lobby → game_heap d !! gm = Some g → string_of_ptr (id g) = id g;
}.

(** A room satisfies the conditions exactly when the table of the application
    has it under the id asked for and the rest of the plan accepts it. *)
Lemma id_condition d l lobby app cs values argv before cv after gm :
  SqliteValuesLaws → dir_ok d → lobby_heap d !! l = Some lobby →
  app_heap d !! lobby_home lobby = Some app → well_asked d lobby cs values argv →
  taken cs values = before ++ cv :: after → id_equals cv.1 = true →
  Forall (λ cv : IndexConstraint * sql_value, id_equals cv.1 = false) before →
  Forall (λ cv : IndexConstraint * sql_value, id_equals cv.1 = false) after →
  let f := foldl add_taken no_filters (taken cs values) in
  (gm ∈ games lobby ∧ conditions_hold d (taken cs values) gm = true) ↔
  filter_id_is_null f = false ∧ games_ app !! filter_id f = Some gm ∧
  live_match d f (λ g, bool_decide (game_lobby g = l)) gm = true.
Proof.
  intros Hlaws Hok Hl Happ [Hlen Hargv Hone Hcmp Hids] Htk Hcv Hpre Hpost f.
  destruct (dir_listed _ Hok _ _ Hl) as (_ & _ & Hlob).
  assert (filter_id f = match sqlite3_value_text cv.2 with Some s => string_of_ptr s | None => EmptyString end ∧
    filter_id_is_null f = (sqlite3_value_type cv.2 =? SQLITE_NULL)) as [Hfid Hfnull].
  { subst f. rewrite Htk, foldl_app. by apply read_id. }
  assert (Forall (λ cv, is_Some (takes cv.1)) (taken cs values)) as Htakes.
  { apply Forall_forall. intros x Hx%list_elem_of_filter. apply Hx. }
  pose proof (dir_games _ Hok (lobby_home lobby) (games_ app)) as Hgames.
  unfold games_of in Hgames. rewrite Happ in Hgames. specialize (Hgames eq_refl (filter_id f) gm).
  rewrite Hgames, room_key_Some. unfold conditions_hold, live_match.
  destruct (game_heap d !! gm) as [g|] eqn:Hg; [|naive_solver].
  assert (gm ∈ games lobby → forallb (λ cv : IndexConstraint * sql_value,
      sql_true (iColumn cv.1) (op cv.1) (game_column g (iColumn cv.1)) cv.2) (taken cs values)
    = matches_props f g && (negb (filter_id_is_null f) && bool_decide (id g = filter_id f))) as Hc.
  { intros Hgm. subst f.
    rewrite matches_props_sql by (done || (intros; by eapply Hcmp)).
    rewrite Hfnull, Hfid, <-(sql_id_equals g cv.1 cv.2) by (done || by eapply Hids).
    rewrite Htk, !forallb_app. cbn [forallb]. rewrite Hcv, !forallb_or_false by done. cbn [orb andb].
    rewrite <-andb_assoc. f_equal. apply andb_comm. }
  rewrite andb_true_iff, bool_decide_eq_true. split.
  - intros [Hgm HQ]. rewrite (Hc Hgm) in HQ. bools. pose proof (Hlob gm g Hgm Hg) as Hgl.
    split; [done|]. split; [|done]. exists g, lobby. by rewrite Hgl.
  - intros (Hnull & (g' & lobby' & [= <-] & _ & _ & Hid) & Hgl & Hm).
    destruct (dir_room _ Hok _ _ Hg) as (_ & _ & lobby2 & Hl2 & Hgm). rewrite Hgl in Hl2.
    assert (lobby2 = lobby) as -> by congruence. split; [done|].
    rewrite (Hc Hgm), Hm, Hnull. by apply bool_decide_eq_true.
Qed.

(** Looking an id up in the application's table finds what a scan of the
    lobby would. *)
Lemma search_by_id d l lobby app cs values argv before cv after :
  SqliteValuesLaws → dir_ok d → lobby_heap d !! l = Some lobby →
  app_heap d !! lobby_home lobby = Some app → well_asked d lobby cs values argv →
  taken cs values = before ++ cv :: after → id_equals cv.1 = true →
  Forall (λ cv : IndexConstraint * sql_value, id_equals cv.1 = false) before →
  Forall (λ cv : IndexConstraint * sql_value, id_equals cv.1 = false) after →
  let f := foldl add_taken no_filters (taken cs values) in
  (if filter_id_is_null f then [] else search_games d l app lobby 1 f)
  = filter (λ gm, conditions_hold d (taken cs values) gm = true) (games lobby).
Proof.
  intros Hlaws Hok Hl Happ Hask Htk Hcv Hpre Hpost f.
  pose proof (λ gm, id_condition d l lobby app cs values argv before cv after gm
    Hlaws Hok Hl Happ Hask Htk Hcv Hpre Hpost) as Hiff.
  cbv zeta in Hiff. fold f in Hiff.
  assert (∀ gs, (∀ x, x ∈ gs → conditions_hold d (taken cs values) x = false) →
    [] = filter (λ gm, conditions_hold d (taken cs values) gm = true) gs) as Hnone.
  { intros gs Hgs. symmetry. apply filter_none. intros x Hx. by rewrite (Hgs x Hx). }
  unfold search_games. change (has_flag 1 1) with true. cbv iota.
  destruct (filter_id_is_null f).
  { apply Hnone. intros x Hx. apply not_true_iff_false. naive_solver. }
  destruct (games_ app !! filter_id f) as [gm|].
  2:{ apply Hnone. intros x Hx. apply not_true_iff_false. naive_solver. }
  destruct (live_match _ _ _ gm) eqn:Em.
  - destruct (proj2 (Hiff gm)) as [Hgm HQ]; [done|]. symmetry. apply filter_one; [|done..|].
    + by destruct (dir_listed _ Hok _ _ Hl).
    + intros x Hx HQx. destruct (proj1 (Hiff x)) as (_ & [= ->] & _); done.
  - apply Hnone. intros x Hx. apply not_true_iff_false. intros HQx.
    destruct (proj1 (Hiff x)) as (_ & [= <-] & ?); [done|]. congruence.
Qed.

(** What the column of ids shows of a room. *)
Definition shown_id d gm : SqlResult :=
  match game_heap d !! gm with Some g => ResultText (c_str (id g)) | None => ResultNull end.

(** Every row is visited once, under its own number. *)
Lemma scan_rows d rooms :
  len rooms < 2 ^ 63 →
  scan (S (length rooms)) d (mkCursor rooms 0)
  = imap (λ i gm, (Z.of_nat i + 1, shown_id d gm)) rooms.
Proof.
  intros Hlen.
  assert (∀ rest n before, rooms = before ++ rest → (length rest < n)%nat →
    scan n d (mkCursor rooms (len before))
    = imap (λ i gm, (Z.of_nat (length before + i) + 1, shown_id d gm)) rest) as Hall;
    [|exact (Hall rooms _ [] eq_refl (Nat.lt_succ_diag_r _))].
  induction rest as [|gm rest IH]; intros [|n] before Hrooms Hn; try (cbn in Hn; lia);
    cbn [scan].
  - unfold vtEof. cbn [games_snapshot current_index]. rewrite Hrooms, app_nil_r.
    by rewrite Z.leb_refl.
  - assert (len rooms = len before + 1 + len rest) as Hl
      by (rewrite Hrooms, length_app; cbn; lia).
    unfold vtEof at 1, vtRowid. cbn [games_snapshot current_index].
    rewrite (proj2 (Z.leb_gt _ _)), (proj2 (Z.ltb_lt _ _)) by lia.
    rewrite imap_cons. f_equal.
    + f_equal.
      * rewrite Nat.add_0_r. unfold swrap. rewrite wrap_small by lia. by rewrite decide_True by lia.
      * unfold vtColumn. cbn [games_snapshot current_index].
        rewrite Nat2Z.id, Hrooms, list_lookup_middle by done.
        unfold shown_id, game_column. done.
    + specialize (IH n (before ++ [gm])). rewrite <-app_assoc in IH.
      specialize (IH Hrooms). specialize (IH ltac:(cbn in Hn; lia)).
      unfold vtNext. cbn. rewrite length_app in IH. cbn [length] in IH.
      replace (Z.succ (len before)) with (Z.of_nat (length before + 1)) by lia.
      rewrite IH. apply imap_ext. intros i x _. cbn. f_equal. lia.
Qed.

(** C15: Querying the rooms of a lobby through the database.  Whatever
    conditions the database offers, when it calls back with the plan it was
    given, the table shows exactly the live rooms of the lobby of which every
    condition it took over holds, in the order of the lobby's list, each
    once, as a scan of the whole list would; looking an id up in the
    application's table instead makes no difference.  This supposes that a
    cell and the value it is compared with have one type, that ids are only
    asked for or matched against patterns, one at most, and have no zero
    bytes. *)
Theorem query_shows_matching_rooms d l lobby cs values argv :
  SqliteValuesLaws → dir_ok d → lobby_heap d !! l = Some lobby →
  well_asked d lobby cs values argv → len (games lobby) < 2 ^ 63 →
  let plan := vtBestIndex cs in
  let rooms := filter (λ gm, conditions_hold d (taken cs values) gm = true) (games lobby) in
  vtFilter d l (idxNum plan) (idxStr plan) argv = inl (mkCursor rooms 0, SQLITE_OK) ∧
  scan (S (length rooms)) d (mkCursor rooms 0)
    = imap (λ i gm, (Z.of_nat i + 1, shown_id d gm)) rooms.
Proof.
  intros Hlaws Hok Hl Hask Hlen plan rooms. split.
  2:{ apply scan_rows. subst rooms. pose proof (length_filter (λ gm,
      conditions_hold d (taken cs values) gm = true) (games lobby)). lia. }
  destruct (room_app_ok _ _ _ Hok Hl) as (app & Hroom & Happ).
  pose proof Hask as [Hvals Hargv Hone Hcmp Hids].
  destruct (plan_read_back cs values argv Hvals Hargv) as [Hread Hnum].
  cbv zeta in Hread. unfold vtFilter. cbv zeta. subst plan. rewrite Hread, Hnum, Hl, Hroom. subst rooms.
  rewrite existsb_filter, ids_taken with (values := values), length_fmap by done.
  rewrite (ids_taken cs values), length_fmap in Hone by done.
  assert (Forall (λ cv, is_Some (takes cv.1)) (taken cs values)) as Htakes.
  { apply Forall_forall. intros x Hx%list_elem_of_filter. apply Hx. }
  destruct (split_id _ Hone) as [Hno|(before & cv & after & Htk & Hcv & Hpre & Hpost)].
  - assert (filter (λ cv : IndexConstraint * sql_value, id_equals cv.1 = true) (taken cs values) = []) as ->.
    { clear -Hno. induction Hno as [|x xs Hx _ IH]; [done|].
      rewrite filter_cons_False; [done|]. by rewrite Hx. }
    cbn [length]. rewrite bool_decide_eq_true_2 by done. cbn [negb]. change (has_flag 0 1) with false.
    cbn [andb]. unfold search_games. change (has_flag 0 1) with false. cbv iota.
    rewrite (filter_agree _ (conditions_hold d (taken cs values)) (games lobby)); [done|].
    intros gm Hgm. unfold live_match, conditions_hold.
    destruct (game_heap d !! gm) as [g|] eqn:Hg; [|done]. cbn [andb].
    rewrite matches_props_sql by (done || (intros; by eapply Hcmp)).
    by apply forallb_or_false.
  - pose proof (search_by_id d l lobby app cs values argv before cv after Hlaws Hok Hl Happ Hask
      Htk Hcv Hpre Hpost) as Hs. cbv zeta in Hs. rewrite <-Hs.
    rewrite bool_decide_eq_false_2; cbn [negb].
    2:{ rewrite Htk, filter_app, filter_cons_True, length_app by done. cbn. lia. }
    change (has_flag 1 1) with true. cbn [andb].
    by destruct (filter_id_is_null _).
Qed.
End meaning.
