(* ===== verification/Authentication.v ===== *)
(** * Authentication

    Models [authentication.cpp] and the plugin registry behind it: a client
    proves who it is with a token another server gave it, or under the policy
    of its application.  The plugins, the provider table of the settings
    database and the random draws are parameters. *)

From S2P Require Import Prelude Values Types GameState PeerPersistence ServerManager Directory Release DataModel HandlerGame Program.
Open Scope Z_scope.

(** ** Plugins *)

(** <include/luxon/server/authentication.hpp:17-22 AuthProviderSettings> *)
Record AuthProviderSettings := mkProvider {
  is_allowed : bool;
  secret : option string;
  auth_url : option string;
}.

Section plugins.
Context `{Ser}.

(** <include/luxon/server/auth_plugin_registry.hpp:19-21 AuthCallback>
    A plugin maps the requested user id, the client's parameters, the
    context, the secret and the URL to a user id or a refusal. *)
Definition AuthCallback : Type :=
  string → string → string → option string → option string →
  string + ErrorCode * ParameterList.

(** <src/auth_plugin_registry.cpp:15-19 register_>
    The first plugin of a type stays. *)
Definition register_ (plugins : option (gmap Z AuthCallback)) (type : Z)
    (callback : AuthCallback) : option (gmap Z AuthCallback) * bool :=
  let plugins := default ∅ plugins in
  match plugins !! type with
  | Some _ => (Some plugins, false)
  | None => (Some (<[type := callback]> plugins), true)
  end.

(** <src/auth_plugin_registry.cpp:21-31 call> *)
Definition call (plugins : option (gmap Z AuthCallback)) (type : Z)
    (requested_user_id params data : string) (secret auth_url : option string) :
    option (string + ErrorCode * ParameterList) :=
  match plugins with
  | None => None
  | Some plugins =>
      match plugins !! type with
      | None => None
      | Some callback => Some (callback requested_user_id params data secret auth_url)
      end
  end.
End plugins.

(** The registered plugins, when the build has them, and the provider table,
    when a settings database is configured. *)
Class Authenticators `{Ser} := {
  get_auth_provider : option (string → Z → option AuthProviderSettings);
  auth_plugins : option (option (gmap Z AuthCallback));
}.

(** The keys only authentication uses. *)
Class AuthCodes := {
  KeyClientAuthenticationType : Z;
  KeyClientAuthenticationParameters : Z;
  KeyRegion : Z;
}.

(** ** The world of a connection *)

(** The directory, the parked identities and the connection's own. *)
Record AuthWorld `{Ser} := mkAuthWorld {
  directory : Directory;
  registry : Registry;
  own : option PeerPersistent;
}.
#[export] Instance eta_AuthWorld `{Ser} : Eta AuthWorld := λ w,
  mkAuthWorld _ (directory w) (registry w) (own w).
Arguments mkAuthWorld {_} _ _ _.

Section auth.
Context `{Ser, Codes, AuthCodes, SettingsSource, SqlLobbies, Transports, !Authenticators}.
Implicit Types (req : Request) (w : AuthWorld).

(** *** User ids *)

Definition Weak : Z := 0.
Definition Anonymous : Z := 1.
Definition AllowWithPrefix : Z := 1.
Definition ForceRandom : Z := 2.

(** <src/authentication.cpp:45-56 get_anonymous_user_id>
    [drawn] is what [generate_user_id] draws. *)
Definition get_anonymous_user_id (custom_anonymous_uid_mode : Z)
    (prefix requested_uid drawn : string) : string :=
  if custom_anonymous_uid_mode =? ForceRandom then prefix +:+ drawn
  else
    let requested_uid := if empty_str requested_uid then drawn else requested_uid in
    if custom_anonymous_uid_mode =? AllowWithPrefix then prefix +:+ requested_uid
    else requested_uid.

(** *** [authenticate] *)

(** <src/authentication.cpp:26-26 models::TokenAuth> *)
Definition token_model : list ParameterSpec :=
  [mkParameter TString KeyToken false None None].

(** <src/authentication.cpp:28-31 models::StandardAuth> *)
Definition standard_model : list ParameterSpec :=
  [mkParameter TString KeyApplicationId false None None;
   mkParameter TByte KeyClientAuthenticationType false (Some 0) None;
   mkParameter TString KeyClientAuthenticationParameters false (Some EmptyString) None;
   mkParameter TString KeyAppVersion true None None;
   mkParameter TString KeyUserId true None None].

Definition null_version : string := "(poor attempt at emulating null app version)".

(** <src/authentication.cpp:113-170 authenticate>
    Who the client is, under the application's policy; a refusal carries the
    parameters of a plugin's response. *)
Definition identify (s : AppSettings) (fs : list ViewField) (drawn : string) :
    string + ErrorCode * ParameterList :=
  let uid := get_field TString KeyUserId fs in
  let auth_type := got TByte KeyClientAuthenticationType fs in
  if (auth_mode s =? Weak) || ((auth_mode s =? Anonymous) && (auth_type =? 0)) then
    inl (get_anonymous_user_id (custom_anonymous_uid_mode s) (anonymous_uid_prefix s)
           (default EmptyString uid) drawn)
  else if auth_type =? 0 then inr (CustomAuthenticationFailed, ∅)
  else match uid with
  | None => inr (InvalidAuthentication, ∅)
  | Some uid =>
      if empty_str uid then inr (InvalidAuthentication, ∅)
      else match f ← get_auth_provider; f (set_appid s) auth_type with
      | None => inr (CustomAuthenticationFailed, ∅)
      | Some provider =>
          if negb (is_allowed provider) then inr (CustomAuthenticationFailed, ∅)
          else match auth_plugins with
          | None => inr (CustomAuthenticationFailed, ∅)
          | Some plugins =>
              match call plugins auth_type uid
                      (got TString KeyClientAuthenticationParameters fs)
                      (default EmptyString (auth_url provider))
                      (secret provider) (auth_url provider) with
              | Some res => res
              | None => inr (CustomAuthenticationFailed, ∅)
              end
          end
      end
  end.

(** <src/authentication.cpp:86-172 authenticate> The regular mechanism.
    [tok] is the token [create_persistent_peer] draws; a value is a response
    that is returned at once.  A refused client's identity lets go of its
    application, which [held] tells whether other identities hold. *)
Definition regular_auth (held : app_ptr → bool) req (drawn tok : string) w : AuthWorld * option (ErrorCode * ParameterList) :=
  match decode standard_model (r_parameters req) with
  | inl _ => (w, Some (OperationInvalid, ∅))
  | inr fs =>
      let version := default null_version (get_field TString KeyAppVersion fs) in
      let '(d, found) := Directory.get (directory w) (got TString KeyApplicationId fs, version) in
      let w := w <| directory := d |> in
      match (a ← found; app ← app_heap d !! a; Some (a, settings_ app)) with
      | None => (w, Some (InvalidAuthentication, ∅))
      | Some (a, s) =>
          if negb (max_peers_ s =? 0)
             && (max_peers_ s <=? get_peer_count d (peer_persistent_data (registry w)) a)
          then (w <| directory := release_app held d a |>, Some (MaxCcuReached, ∅))
          else match identify s fs drawn with
          | inr refusal => (w <| directory := release_app held d a |>, Some refusal)
          | inl u =>
              (w <| own := Some (create_persistent_peer tok
                                   <| pp_app := Some a |> <| user_id := u |>) |>, None)
          end
      end
  end.

(** <src/authentication.cpp:75-84 authenticate> The token mechanism. *)
Definition token_auth req (refresh_token : bool) (tok : string) w :
    AuthWorld * option (ErrorCode * ParameterList) * list EventMessage :=
  match decode token_model (r_parameters req) with
  | inl _ => (w, Some (OperationInvalid, ∅), [])
  | inr fs =>
      let '(r, pp, msgs) :=
        load_persistent_peer (registry w) (got TString KeyToken fs) refresh_token tok in
      (w <| registry := r |> <| own := pp |>, None, msgs)
  end.

(** <src/authentication.cpp:59-189 authenticate>
    The response's code and parameters, and the messages to the other
    processes. *)
Definition authenticate (held : app_ptr → bool) (max_connections connection_count : Z)
    (drawn tok : string) req (refresh_token : bool) w :
    AuthWorld * (ErrorCode * ParameterList) * list EventMessage :=
  if negb (max_connections =? 0) && (max_connections <=? connection_count)
  then (w, (MaxCcuReached, ∅), [])
  else
    let by_token := bool_decide (is_Some (r_parameters req !! KeyToken)) in
    let '(w, returned, msgs) :=
      if by_token then token_auth req refresh_token tok w
      else let '(w, returned) := regular_auth held req drawn tok w in (w, returned, []) in
    match returned, own w with
    | Some resp, _ => (w, resp, msgs)
    | None, None =>
        (w, (if by_token then AuthenticationTokenExpired else InvalidAuthentication, ∅), msgs)
    | None, Some pp =>
        (w, (Ok, if refresh_token then <[KeyToken := of_string (token pp)]> ∅ else ∅), msgs)
    end.
End auth.

(** ** What authentication promises *)

Section facts.
Context `{SerLaws, Codes, AuthCodes, SettingsSource, SqlLobbies, Transports, !Authenticators}.
Implicit Types (req : Request) (w : AuthWorld).

(** The identity the application's policy gives a client: its own choice,
    under the policy on anonymous names, or what an allowed provider's plugin
    answers. *)
Definition lenient (s : AppSettings) (fs : list ViewField) : Prop :=
  auth_mode s = Weak ∨ auth_mode s = Anonymous ∧ got TByte KeyClientAuthenticationType fs = 0.

Definition vouched (s : AppSettings) (fs : list ViewField) (u : string) : Prop :=
  ∃ (requested : string) providers provider plugins (callback : AuthCallback),
    let type : Z := got TByte KeyClientAuthenticationType fs in
    type ≠ 0 ∧ get_field TString KeyUserId fs = Some requested ∧ requested ≠ EmptyString ∧
    get_auth_provider = Some providers ∧ providers (set_appid s) type = Some provider ∧
    is_allowed provider = true ∧
    auth_plugins = Some (Some plugins) ∧ plugins !! type = Some callback ∧
    callback requested (got TString KeyClientAuthenticationParameters fs)
      (default EmptyString (auth_url provider)) (secret provider) (auth_url provider) = inl u.

(** The name of a client that need not prove who it is: the one it asks for,
    or a drawn one when it asks for none, behind the application's prefix when
    its policy says so; under the policy of random names always a drawn one. *)
Definition goes_by (s : AppSettings) (fs : list ViewField) (drawn u : string) : Prop :=
  let asked := default EmptyString (get_field TString KeyUserId fs) in
  ∃ name, (asked ≠ EmptyString → name = asked) ∧ (asked = EmptyString → name = drawn) ∧
    (custom_anonymous_uid_mode s = ForceRandom → u = anonymous_uid_prefix s +:+ drawn) ∧
    (custom_anonymous_uid_mode s = AllowWithPrefix → u = anonymous_uid_prefix s +:+ name) ∧
    (custom_anonymous_uid_mode s ≠ ForceRandom → custom_anonymous_uid_mode s ≠ AllowWithPrefix →
       u = name).

(** The user id the application's policy gives a client, if any. *)
Definition policy_gives (s : AppSettings) (fs : list ViewField) (drawn u : string) : Prop :=
  lenient s fs ∧ goes_by s fs drawn u ∨ ¬ lenient s fs ∧ vouched s fs u.

Lemma goes_by_spec s fs drawn u :
  goes_by s fs drawn u ↔
  get_anonymous_user_id (custom_anonymous_uid_mode s) (anonymous_uid_prefix s)
    (default EmptyString (get_field TString KeyUserId fs)) drawn = u.
Proof.
  unfold goes_by, get_anonymous_user_id, empty_str.
  set (asked := default EmptyString _). set (mode := custom_anonymous_uid_mode s).
  split.
  - intros (name & A1 & A2 & A3 & A4 & A5). case_bool_decide as E;
      [rewrite (A2 E) in *|rewrite (A1 E) in *];
      (destruct (Z.eqb_spec mode ForceRandom); [symmetry; auto|]);
      (destruct (Z.eqb_spec mode AllowWithPrefix); symmetry; auto).
  - intros <-. exists (if bool_decide (asked = EmptyString) then drawn else asked).
    unfold ForceRandom, AllowWithPrefix.
    case_bool_decide; (do 2 (split; [done|])); (split; [by intros ->|]);
      (split; [by intros ->|]); intros ??;
      by rewrite !(proj2 (Z.eqb_neq _ _)).
Qed.

Lemma identify_lenient s fs drawn :
  lenient s fs →
  identify s fs drawn =
    inl (get_anonymous_user_id (custom_anonymous_uid_mode s) (anonymous_uid_prefix s)
           (default EmptyString (get_field TString KeyUserId fs)) drawn).
Proof.
  unfold identify. by intros [->|[-> ->]].
Qed.

Lemma call_spec plugins type u params data secret url res :
  call plugins type u params data secret url = Some res ↔
  ∃ pl callback, plugins = Some pl ∧ pl !! type = Some callback ∧
    callback u params data secret url = res.
Proof.
  unfold call. destruct plugins as [pl|]; [|naive_solver].
  destruct (pl !! type) as [cb|] eqn:E; [|naive_solver]. split; [|naive_solver].
  intros [= <-]. by exists pl, cb.
Qed.

Lemma identify_strict s fs drawn u :
  ¬ lenient s fs → identify s fs drawn = inl u ↔ vouched s fs u.
Proof.
  unfold identify, lenient, vouched. change (carrier TByte) with Z. intros Hl.
  set (t := got TByte KeyClientAuthenticationType fs) in *.
  destruct (Z.eqb_spec (auth_mode s) Weak); [tauto|]. cbn [orb].
  destruct (Z.eqb_spec (auth_mode s) Anonymous), (Z.eqb_spec t 0); cbn [andb]; [tauto| | |].
  2: by split; [|intros (? & ? & ? & ? & ? & ? & _)].
  all: split; [|intros (uid & f & p & pl & cb & _ & -> & Hne & -> & Hp & Hal & -> & Hcb & E);
    unfold empty_str; rewrite bool_decide_eq_false_2 by done; cbn [mbind option_bind];
    rewrite Hp, Hal; cbn [negb];
    by rewrite (proj2 (call_spec _ _ _ _ _ _ _ (inl u)) ltac:(eauto))].
  all: destruct (get_field TString KeyUserId fs) as [uid|]; [|done].
  all: unfold empty_str; case_bool_decide; [done|].
  all: destruct get_auth_provider as [f|]; cbn [mbind option_bind]; [|done].
  all: destruct (f (set_appid s) t) as [p|] eqn:Hp; [|done].
  all: destruct (is_allowed p) eqn:Hal; cbn [negb]; [|done].
  all: destruct auth_plugins as [plugins|]; [|done].
  all: destruct (call _ _ _ _ _ _ _) as [res|] eqn:E; [|done].
  all: apply call_spec in E as (pl & cb & -> & Hcb & E); intros ->.
  all: exists uid, f, p, pl, cb; by repeat split.
Qed.

Lemma identify_spec s fs drawn u : identify s fs drawn = inl u ↔ policy_gives s fs drawn u.
Proof.
  unfold policy_gives. assert (Decision (lenient s fs)) as [Hl|Hl] by (unfold lenient; apply _).
  - rewrite identify_lenient, goes_by_spec by done. intuition congruence.
  - rewrite identify_strict by done. tauto.
Qed.

Lemma decode_eq ps params :
  NoDup (wire_key <$> ps) → decode ps params = decode_fields ps params.
Proof. intros. by apply decode_in_fields. Qed.

Lemma decode_token params fs :
  decode token_model params = inr fs →
  ∃ v, params !! KeyToken = Some v ∧ get_string v = Some (got TString KeyToken fs).
Proof.
  rewrite decode_eq by apply NoDup_singleton. cbn.
  destruct (params !! KeyToken) as [v|]; cbn; [|done].
  destruct (is_null v) eqn:Hn; unfold decode_one_into; rewrite Hn; cbn; [done|].
  destruct (get_string v) as [t|] eqn:Ht; cbn; [|done]. intros [= <-].
  exists v. split; [done|]. rewrite Ht. unfold got, get_field. cbn.
  by rewrite Z.eqb_refl.
Qed.

Lemma decode_token_string params t :
  params !! KeyToken = Some (of_string t) →
  ∃ fs, decode token_model params = inr fs ∧ got TString KeyToken fs = t.
Proof.
  intros Hp. rewrite decode_eq by apply NoDup_singleton. cbn. rewrite Hp. cbn.
  unfold decode_one_into. cbn [view init_slot spec ty enum_contains].
  change (of_string t) with (put_value TString t).
  rewrite (proj1 (get_put TString t)). cbn.
  rewrite acc_get. cbn. eexists. split; [done|]. unfold got, get_field. cbn.
  by rewrite Z.eqb_refl.
Qed.

(** The limits let one more in. *)
Definition below (limit count : Z) : Prop := limit = 0 ∨ count < limit.

Lemma below_spec limit count :
  negb (limit =? 0) && (limit <=? count) = false ↔ below limit count.
Proof.
  unfold below. rewrite andb_false_iff, negb_false_iff, Z.eqb_eq, Z.leb_gt. done.
Qed.

(** What a client without a token comes to hold: a fresh identity in the
    application it names, below that application's limit, under the user id
    the application's policy gives. *)
Definition admitted_regularly req (drawn tok : string) w pp : Prop :=
  ∃ fs d a app,
    decode standard_model (r_parameters req) = inr fs ∧
    Directory.get (directory w) (got TString KeyApplicationId fs,
      default null_version (get_field TString KeyAppVersion fs)) = (d, Some a) ∧
    app_heap d !! a = Some app ∧
    below (max_peers_ (settings_ app)) (get_peer_count d (peer_persistent_data (registry w)) a) ∧
    policy_gives (settings_ app) fs drawn (user_id pp) ∧
    pp = create_persistent_peer tok <| pp_app := Some a |> <| user_id := user_id pp |>.

(** What a client with a token comes to hold: the identity parked under it. *)
Definition admitted_by_token (v : Value) (refresh : bool) (tok : string) w pp : Prop :=
  ∃ t pp0, v = of_string t ∧ parked (registry w) t = Some pp0 ∧
    pp = (if refresh then pp0 <| token := tok |> else pp0).

Lemma regular_auth_spec held req drawn tok w w' :
  own w = None → ∀ returned, regular_auth held req drawn tok w = (w', returned) →
  registry w' = registry w ∧
  match own w' with
  | Some pp => returned = None ∧ admitted_regularly req drawn tok w pp
  | None => is_Some returned
  end.
Proof.
  intros Hw returned. unfold regular_auth.
  destruct (decode standard_model _) as [e|fs] eqn:Hd.
  { intros [= <- <-]. rewrite Hw. eauto. }
  destruct (Directory.get _ _) as [d found] eqn:Hg.
  destruct (_ ← found; _) as [[a s]|] eqn:Hf; upd; cbn [own registry].
  2: { intros [= <- <-]. cbn. rewrite Hw. eauto. }
  destruct (_ && _) eqn:Hlim. { intros [= <- <-]. cbn. rewrite Hw. eauto. }
  destruct (identify s fs drawn) as [u|refusal] eqn:Hi.
  2: { intros [= <- <-]. cbn. rewrite Hw. eauto. }
  intros [= <- <-]. cbn. split; [done|]. split; [done|].
  destruct found as [a'|]; [|done]. cbn in Hf.
  destruct (app_heap d !! a') as [app|] eqn:Ha; [|done]. injection Hf as -> <-.
  exists fs, d, a, app. do 3 (split; [done|]). split; [by apply below_spec|].
  split; [by apply identify_spec|done].
Qed.

Lemma regular_admits held req drawn tok w pp :
  admitted_regularly req drawn tok w pp →
  ∃ w', regular_auth held req drawn tok w = (w', None) ∧ own w' = Some pp.
Proof.
  intros (fs & d & a & app & Hd & Hg & Ha & Hlim & Hu & Hpp).
  apply identify_spec in Hu. apply below_spec in Hlim.
  unfold regular_auth. rewrite Hd, Hg. cbn [mbind option_bind]. rewrite Ha. cbn [mbind option_bind].
  upd. cbn [registry]. rewrite Hlim, Hu. eexists. split; [done|].
  cbn. by rewrite Hpp.
Qed.

Lemma token_auth_spec req refresh tok w w' :
  registry_ok (registry w) → own w = None → ∀ returned msgs,
  token_auth req refresh tok w = (w', returned, msgs) →
  directory w' = directory w ∧
  match own w' with
  | Some pp => returned = None ∧
      ∃ v t pp0, r_parameters req !! KeyToken = Some v ∧ get_string v = Some t ∧
        parked (registry w) t = Some pp0 ∧
        pp = (if refresh then pp0 <| token := tok |> else pp0) ∧
        parked (registry w') t = None ∧ msgs = [consume_message pp0]
  | None => registry w' = registry w ∧ msgs = [] ∧
      (returned = None → ∃ v t, r_parameters req !! KeyToken = Some v ∧
         get_string v = Some t ∧ parked (registry w) t = None)
  end.
Proof.
  intros Hr Hw returned msgs. unfold token_auth.
  destruct (decode token_model _) as [e|fs] eqn:Hd.
  { intros [= <- <- <-]. rewrite Hw. by repeat split. }
  apply decode_token in Hd as (v & Hv & Ht).
  pose proof (load_once (registry w) (got TString KeyToken fs) refresh tok Hr) as Hl.
  destruct (load_persistent_peer _ _ _ _) as [[r pp] ms]. cbn [fst snd] in Hl.
  intros [= <- <- <-]. cbn. split; [done|].
  destruct (parked (registry w) _) as [pp0|] eqn:Hp.
  - destruct Hl as (-> & Hnone & _ & _ & ->). split; [done|].
    exists v, (got TString KeyToken fs), pp0. by repeat split.
  - injection Hl as -> -> ->. repeat split. eauto.
Qed.

(** Authentication only ever makes or releases applications. *)
Lemma authenticate_directory held mc cc drawn tok req refresh w :
  dir_ok (directory w) →
  let d := directory (authenticate held mc cc drawn tok req refresh w).1.1 in
  dir_ok d ∧ game_heap d = game_heap (directory w) ∧ lobby_heap d = lobby_heap (directory w).
Proof.
  intros Hok. cbn zeta. unfold authenticate. destruct (_ && _); [done|]. case_bool_decide.
  - unfold token_auth. destruct (decode _ _); [by destruct (own w)|].
    destruct (load_persistent_peer _ _ _ _) as [[r pp] ms]. by destruct pp.
  - unfold regular_auth. destruct (decode _ _) as [|fs]; [by destruct (own w)|].
    set (key := (got TString KeyApplicationId fs, _)).
    pose proof (get_ok (directory w) key Hok) as Hok'.
    pose proof (get_heap (directory w) key) as Hh.
    pose proof (get_lobbies (directory w) key) as Hl.
    destruct (Directory.get _ key) as [d found]. cbn [fst] in *.
    destruct (_ ← found; _) as [[a s]|]; [|by destruct (own w)].
    destruct (_ && _); [|destruct (identify s fs drawn)];
      upd; cbn [own directory]; try destruct (own w); cbn;
      rewrite ?release_app_heap, ?release_app_lobbies; auto using release_app_ok.
Qed.

(** A plugin that refuses a client and reports success. *)
Definition careless_plugin : Prop :=
  ∃ pl type (callback : AuthCallback) u params data secret url ps,
    auth_plugins = Some (Some pl) ∧ pl !! type = Some callback ∧
    callback u params data secret url = inr (Ok, ps).

Lemma identify_refusal s fs drawn ps : identify s fs drawn = inr (Ok, ps) → careless_plugin.
Proof.
  unfold identify. repeat (case_match; try done). intros ->.
  match goal with E : call _ _ _ _ _ _ _ = _ |- _ => apply call_spec in E as (pl & cb & -> & ? & ?) end.
  unfold careless_plugin. eauto 12.
Qed.

Lemma regular_refusal held req drawn tok w w' ps :
  regular_auth held req drawn tok w = (w', Some (Ok, ps)) → careless_plugin.
Proof.
  unfold regular_auth. destruct (decode _ _); [done|]. destruct (Directory.get _ _) as [d found].
  destruct (_ ← found; _) as [[a s]|]; [|done]. destruct (_ && _); [done|].
  destruct (identify s _ drawn) as [u|refusal] eqn:Hi; [done|]. intros [= _ ->].
  by apply identify_refusal in Hi.
Qed.

Lemma authentication_outcome held mc cc drawn tok req refresh w w' rc ps msgs :
  registry_ok (registry w) → own w = None →
  authenticate held mc cc drawn tok req refresh w = (w', (rc, ps), msgs) →
  match own w' with
  | Some pp =>
      rc = Ok ∧ ps = (if refresh then <[KeyToken := of_string (token pp)]> ∅ else ∅) ∧
      below mc cc ∧
      match r_parameters req !! KeyToken with
      | Some v => ∃ t pp0, get_string v = Some t ∧ parked (registry w) t = Some pp0 ∧
          pp = (if refresh then pp0 <| token := tok |> else pp0) ∧
          parked (registry w') t = None ∧ msgs = [consume_message pp0]
      | None => registry w' = registry w ∧ msgs = [] ∧ admitted_regularly req drawn tok w pp
      end
  | None => registry w' = registry w ∧ msgs = [] ∧ (rc = Ok → careless_plugin)
  end.
Proof.
  intros Hr Hw. unfold authenticate. destruct (_ && _) eqn:Hlim.
  { intros [= <- <- <- <-]. by rewrite Hw. }
  apply below_spec in Hlim. case_bool_decide as Htok.
  - destruct (token_auth req refresh tok w) as [[w1 returned] ms] eqn:E.
    pose proof (token_auth_spec _ _ _ _ _ Hr Hw _ _ E) as [_ Hs].
    destruct (own w1) as [pp|] eqn:Ho.
    + destruct Hs as (-> & v & t & pp0 & Hv & Hs). intros [= <- <- <- <-]. rewrite Ho, Hv.
      do 3 (split; [done|]). by exists t, pp0.
    + destruct Hs as (Hreg & -> & Hret). destruct returned as [[rc0 ps0]|];
        intros [= <- <- <- <-]; rewrite Ho; (do 2 (split; [done|])); [|done].
      intros ->. revert E. unfold token_auth. destruct (decode _ _); [done|].
      by destruct (load_persistent_peer _ _ _ _) as [[??]?].
  - destruct (regular_auth held req drawn tok w) as [w1 returned] eqn:E.
    pose proof (regular_auth_spec _ _ _ _ _ _ Hw _ E) as [Hreg Hs].
    assert (r_parameters req !! KeyToken = None) as Hno by (by apply eq_None_not_Some).
    destruct (own w1) as [pp|] eqn:Ho.
    + destruct Hs as [-> Hs]. intros [= <- <- <- <-]. by rewrite Ho, Hno.
    + destruct Hs as [[rc0 ps0] ->]. intros [= <- <- <- <-]. rewrite Ho.
      do 2 (split; [done|]). intros ->. by eapply regular_refusal.
Qed.

(** Presenting the token of a parked identity. *)
Lemma authenticate_parked held mc cc drawn tok req refresh w t pp :
  registry_ok (registry w) → below mc cc →
  r_parameters req !! KeyToken = Some (of_string t) → parked (registry w) t = Some pp →
  ∃ r', registry_ok r' ∧ parked r' t = None ∧
    let pp' := if refresh : bool then pp <| token := tok |> else pp in
    authenticate held mc cc drawn tok req refresh w =
    (w <| registry := r' |> <| own := Some pp' |>,
     (Ok, if refresh then <[KeyToken := of_string (token pp')]> ∅ else ∅),
     [consume_message pp]).
Proof.
  intros Hr Hlim Htok Hp. apply below_spec in Hlim.
  destruct (decode_token_string _ _ Htok) as (fs & Hd & Hg).
  pose proof (load_once (registry w) t refresh tok Hr) as Hl. rewrite Hp in Hl.
  unfold authenticate, token_auth. rewrite Hlim, bool_decide_eq_true_2 by (rewrite Htok; eauto).
  rewrite Hd, Hg. destruct (load_persistent_peer _ _ _ _) as [[r2 got] ms]. cbn [fst snd] in Hl.
  destruct Hl as (-> & Hnone & Hr2 & _ & ->). exists r2. split; [done|]. by split.
Qed.

(** What a request lets its connection come to hold, if anything. *)
Definition entitled req (refresh : bool) (drawn tok : string) w pp : Prop :=
  match r_parameters req !! KeyToken with
  | Some v => admitted_by_token v refresh tok w pp
  | None => admitted_regularly req drawn tok w pp
  end.

Lemma authentication_exact held mc cc drawn tok req refresh w pp :
  registry_ok (registry w) → own w = None →
  own (authenticate held mc cc drawn tok req refresh w).1.1 = Some pp ↔
  below mc cc ∧ entitled req refresh drawn tok w pp.
Proof.
  intros Hr Hw. split.
  - destruct (authenticate _ _ _ _ _ _ _ w) as [[w' [rc ps]] msgs] eqn:E. cbn. intros Ho.
    pose proof (authentication_outcome _ _ _ _ _ _ _ _ _ _ _ _ Hr Hw E) as H'.
    rewrite Ho in H'. destruct H' as (_ & _ & Hlim & H'). split; [done|]. unfold entitled.
    destruct (r_parameters req !! KeyToken) as [v|]; [|by destruct H' as (_ & _ & ?)].
    destruct H' as (t & pp0 & Ht & Hp & Hpp & _). exists t, pp0. split; [|done].
    by apply acc_inv in Ht.
  - intros [Hlim He]. unfold entitled in He.
    destruct (r_parameters req !! KeyToken) as [v|] eqn:Hv.
    + destruct He as (t & pp0 & -> & Hp & ->).
      destruct (authenticate_parked held mc cc drawn tok req refresh w t pp0 Hr Hlim Hv Hp)
        as (r & _ & _ & E). cbn zeta in E. by rewrite E.
    + destruct (regular_admits held _ _ _ _ _ He) as (w' & E & Ho). unfold authenticate.
      apply below_spec in Hlim. rewrite Hlim, bool_decide_eq_false_2 by (rewrite Hv; by intros [? [=]]).
      by rewrite E, Ho.
Qed.

(** C19: Who gets in.  An unauthenticated connection leaves authentication
    with an identity exactly when the connection limit admits it and it is
    entitled to that identity: with a token in its request, to the one parked
    under the token; without one, to a fresh identity in the application it
    names, as long as that application's peer limit admits it, under the user
    id the application's policy gives it: a client that need not prove who it
    is goes by the name it asks for, one drawn for it or one behind the
    application's prefix, as the policy on anonymous names says; any other
    must name itself and a type of authentication that the application's
    provider table allows and whose plugin vouches for it.  A parked identity
    that was claimed is parked no more, and the other processes are told;
    otherwise nothing is taken out of the registry.  Who is not admitted is
    refused, unless a plugin refuses while reporting success. *)
Theorem authentication_admits held mc cc drawn tok req refresh w w' rc ps msgs :
  registry_ok (registry w) → own w = None →
  authenticate held mc cc drawn tok req refresh w = (w', (rc, ps), msgs) →
  (∀ pp, own w' = Some pp ↔ below mc cc ∧ entitled req refresh drawn tok w pp) ∧
  match own w' with
  | Some pp =>
      rc = Ok ∧ ps = (if refresh then <[KeyToken := of_string (token pp)]> ∅ else ∅) ∧
      match r_parameters req !! KeyToken with
      | Some v => ∃ t pp0, get_string v = Some t ∧ parked (registry w) t = Some pp0 ∧
          parked (registry w') t = None ∧ msgs = [consume_message pp0]
      | None => registry w' = registry w ∧ msgs = []
      end
  | None => registry w' = registry w ∧ msgs = [] ∧ (rc = Ok → careless_plugin)
  end.
Proof.
  intros Hr Hw E. split.
  - intros pp. by rewrite <-(authentication_exact held _ _ _ _ _ _ _ _ Hr Hw), E.
  - pose proof (authentication_outcome _ _ _ _ _ _ _ _ _ _ _ _ Hr Hw E) as H'.
    destruct (own w') as [pp|]; [|done]. destruct (r_parameters req !! KeyToken); naive_solver.
Qed.

(** Presenting a token under which nothing is parked. *)
Lemma authenticate_unknown held mc cc drawn tok req refresh w t :
  registry_ok (registry w) → below mc cc →
  r_parameters req !! KeyToken = Some (of_string t) → parked (registry w) t = None →
  (authenticate held mc cc drawn tok req refresh w).1.2 = (AuthenticationTokenExpired, ∅).
Proof.
  intros Hr Hlim Htok Hp. apply below_spec in Hlim.
  destruct (decode_token_string _ _ Htok) as (fs & Hd & Hg).
  pose proof (load_once (registry w) t refresh tok Hr) as Hl. rewrite Hp in Hl.
  unfold authenticate, token_auth. rewrite Hlim, bool_decide_eq_true_2 by (rewrite Htok; eauto).
  by rewrite Hd, Hg, Hl.
Qed.

(** C20: The way from one server to the next: an identity parked when its
    connection ends is handed to the connection that presents its token, with
    the same user, application and invitation; presenting the token again is
    answered with "token expired". *)
Theorem handoff_keeps_identity game_state app_info held mc cc drawn tok req refresh d r pp :
  registry_ok r → pp_app pp ≠ None → next_store_generation r < 2 ^ 64 - 1 → below mc cc →
  r_parameters req !! KeyToken = Some (of_string (token pp)) →
  let r' := (park game_state app_info r pp).1.1 in
  let '(w1, (rc, ps), msgs) :=
    authenticate held mc cc drawn tok req refresh (mkAuthWorld d r' None) in
  rc = Ok ∧ ps = (if refresh then <[KeyToken := of_string tok]> ∅ else ∅) ∧
  (∃ pp', own w1 = Some pp' ∧ user_id pp' = user_id pp ∧ pp_app pp' = pp_app pp ∧
     invitation pp' = invitation pp ∧ token pp' = (if refresh then tok else token pp)) ∧
  (authenticate held mc cc drawn tok req refresh (w1 <| own := None |>)).1.2
    = (AuthenticationTokenExpired, ∅).
Proof.
  intros Hr Ha Hmax Hlim Htok. cbn zeta. unfold park.
  pose proof (store_found game_state r pp Hr Ha Hmax) as (Hr' & Hp & _ & _).
  destruct (store_persistent_peer game_state r pp) as [r' tasks]. cbn [fst] in *.
  destruct (authenticate_parked held mc cc drawn tok req refresh (mkAuthWorld d r' None) _ _
    Hr' Hlim Htok Hp) as (r2 & Hr2 & Hnone & E). rewrite E. cbn zeta.
  assert (user_id (stored_form game_state r pp) = user_id pp ∧
    pp_app (stored_form game_state r pp) = pp_app pp ∧
    invitation (stored_form game_state r pp) = invitation pp ∧
    token (stored_form game_state r pp) = token pp) as (Eu & Eapp & Ei & Et).
  { unfold stored_form. upd. pose proof (reset_owned_same game_state pp). tauto. }
  split; [done|]. split; [by destruct refresh|]. split.
  - eexists. split; [done|]. destruct refresh; upd; by rewrite ?Eu, ?Eapp, ?Ei, ?Et.
  - by apply (authenticate_unknown _ _ _ _ _ _ _ _ (token pp)).
Qed.
End facts.
