(* ===== verification/PluginHost.v ===== *)
(** * Foreign plugins

    Models how a plugin written in another language is registered and called:
    the registry of [game_plugin_registry.cpp], the registrations and the
    plugin class of [ffi.cpp], and the chain of [game.hpp] that asks the
    plugins of a room in turn.  A foreign function is what it answers with
    the calls it makes back ([PluginCalls]); with that, foreign plugins are
    one of the [Plugins] the handler of the game server is proved against. *)

From S2P Require Import Prelude Values Types GameState GameProps GameEvents GameSteps Program DataModel HandlerGame HandlerGameSafety Authentication ForeignBuffers PluginEvents PluginCalls.
Open Scope Z_scope.

(** ** The registry of game plugins *)

Section registry.
(** What a factory makes of the room it is given. *)
Context {Plugin : Type}.
Abbreviation PluginFactory := (game_ptr → Plugin).

(** The table, which is made with its first entry. *)
Abbreviation PluginTable := (option (gmap string PluginFactory)).

(** <src/game_plugin_registry.cpp:15-19 register_> *)
Definition register_game (plugins : PluginTable) (name : string) (f : PluginFactory) :
    PluginTable * bool :=
  let plugins := default ∅ plugins in
  match plugins !! name with
  | Some _ => (Some plugins, false)
  | None => (Some (<[name := f]> plugins), true)
  end.

(** <src/game_plugin_registry.cpp:21-30 instantiate> *)
Definition instantiate (plugins : PluginTable) (game : game_ptr) (name : string) : option Plugin :=
  plugins ← plugins; f ← plugins !! name; Some (f game).

(** The table, and [g_next_plugin_id], an atomic [uint32_t]. *)
Record Registered := mkRegistered {
  game_plugins : PluginTable;
  g_next_plugin_id : Z;
}.

(** <src/ffi.cpp:1951-1965 registerGamePlugin>
    [make] is the constructor of [FfiGamePlugin]. *)
Definition registerGamePlugin (make : string → Z → PluginFactory) (r : Registered)
    (plugin_name : option string) : Registered * Z :=
  match plugin_name with
  | None => (r, 0)
  | Some name_str =>
      let id := g_next_plugin_id r in
      let '(plugins, ok) := register_game (game_plugins r) name_str (make name_str id) in
      (mkRegistered plugins (wrap 32 (id + 1)), if ok : bool then id else 0)
  end.

(** Registering one name after the other. *)
Definition register_all make (r : Registered) (names : list string) : Registered * list Z :=
  foldl (λ st name, let '(r, id) := registerGamePlugin make st.1 (Some name) in (r, st.2 ++ [id]))
    (r, []) names.

(** The position of the first registration of a name. *)
Fixpoint first_at (names : list string) (name : string) : option nat :=
  match names with
  | [] => None
  | n :: names => if decide (n = name) then Some 0%nat else S <$> first_at names name
  end.

Lemma first_at_app names name n :
  first_at (names ++ [name]) n =
  match first_at names n with
  | Some i => Some i
  | None => if decide (n = name) then Some (length names) else None
  end.
Proof.
  induction names as [|m names IH]; cbn.
  - by destruct (decide (name = n)), (decide (n = name)).
  - destruct (decide (m = n)); [done|]. rewrite IH. destruct (first_at names n); [done|].
    by destruct (decide (n = name)).
Qed.

Lemma first_at_None names name : first_at names name = None ↔ name ∉ names.
Proof.
  induction names as [|m names IH]; cbn; [split; [intros _; apply not_elem_of_nil|done]|].
  rewrite not_elem_of_cons, <-IH. destruct (decide (m = name)) as [->|]; [naive_solver|].
  destruct (first_at names name); naive_solver.
Qed.

(** What a run of registrations leaves. *)
Lemma register_all_spec make r names :
  0 ≤ g_next_plugin_id r → g_next_plugin_id r + len names < 2 ^ 32 →
  let st := register_all make r names in
  let old := default ∅ (game_plugins r) in
  g_next_plugin_id st.1 = g_next_plugin_id r + len names ∧
  (∀ name, default ∅ (game_plugins st.1) !! name =
    match old !! name with
    | Some f => Some f
    | None => (λ i : nat, make name (g_next_plugin_id r + Z.of_nat i)) <$> first_at names name
    end) ∧
  length st.2 = length names ∧
  (∀ i name, names !! i = Some name → st.2 !! i =
    Some (if decide (is_Some (old !! name) ∨ name ∈ take i names) then 0
          else g_next_plugin_id r + Z.of_nat i)).
Proof.
  cbn zeta. intros Hn. induction names as [|name names IH] using rev_ind; intros Hl.
  { cbn. split; [lia|]. split; [intros n; by destruct (_ !! n)|]. split; [done|].
    intros i name. by rewrite lookup_nil. }
  rewrite length_app in *. cbn [length] in *. destruct IH as (Hnext & Ht & Hlen & Hids); [lia|].
  unfold register_all in *. rewrite foldl_app. cbn [foldl].
  destruct (foldl _ _ names) as [r' ids]. cbn [fst snd] in *. unfold registerGamePlugin, register_game.
  set (old := default ∅ (game_plugins r)) in *.
  assert (∀ i n, (i < length names)%nat → (names ++ [name]) !! i = Some n →
    names !! i = Some n ∧ take i (names ++ [name]) = take i names) as Hold.
  { intros i n Hi. rewrite lookup_app_l, take_app_le by lia. done. }
  destruct (default ∅ (game_plugins r') !! name) as [f|] eqn:Ef; cbn [fst snd game_plugins g_next_plugin_id];
    rewrite Hnext, wrap_small by lia; (split; [lia|]); cbn [from_option]; unfold Datatypes.id.
  all: assert (∀ id, length (ids ++ [id]) = (length names + 1)%nat) as Hlen'
    by (intros id; rewrite length_app; cbn; lia).
  - split; [|split; [apply Hlen'|]].
    + intros n. rewrite Ht, first_at_app. destruct (old !! n) eqn:E; [done|].
      destruct (first_at names n) eqn:Ei; [done|]. destruct (decide (n = name)) as [->|]; [|done].
      by rewrite Ht, E, Ei in Ef.
    + intros i n Hi. destruct (decide (i < length names)%nat) as [Hlt|Hge].
      * destruct (Hold i n Hlt Hi) as [Hi' ->]. rewrite lookup_app_l by lia. by apply Hids.
      * pose proof (lookup_lt_Some _ _ _ Hi) as Hb. rewrite length_app in Hb. cbn in Hb.
        assert (i = length ids) as -> by lia. rewrite Hlen in Hi. rewrite list_lookup_middle in Hi by done.
        injection Hi as <-. rewrite list_lookup_middle by done. rewrite Hlen, take_app_length.
        rewrite decide_True; [done|]. rewrite Ht in Ef. destruct (old !! name) eqn:E; [left; eauto|right].
        destruct (first_at names name) eqn:Ei; [|done].
        apply dec_stable. intros Hn'. apply first_at_None in Hn'. congruence.
  - assert (is_Some (old !! name) ∨ name ∈ names → False) as Hno.
    { rewrite Ht in Ef. destruct (old !! name) eqn:E; [done|].
      destruct (first_at names name) eqn:Ei; [done|]. apply first_at_None in Ei.
      intros [[? [=]]|?]; done. }
    split; [|split; [apply Hlen'|]].
    + intros n. rewrite first_at_app. destruct (decide (n = name)) as [->|Hne].
      * rewrite lookup_insert_eq. destruct (old !! name) eqn:E; [destruct Hno; left; eauto|].
        rewrite (proj2 (first_at_None names name)) by (intros ?; apply Hno; by right). done.
      * rewrite lookup_insert_ne, Ht by done. destruct (old !! n); [done|].
        by destruct (first_at names n).
    + intros i n Hi. destruct (decide (i < length names)%nat) as [Hlt|Hge].
      * destruct (Hold i n Hlt Hi) as [Hi' ->]. rewrite lookup_app_l by lia. by apply Hids.
      * pose proof (lookup_lt_Some _ _ _ Hi) as Hb. rewrite length_app in Hb. cbn in Hb.
        assert (i = length ids) as -> by lia. rewrite Hlen in Hi. rewrite list_lookup_middle in Hi by done.
        injection Hi as <-. rewrite list_lookup_middle by done. rewrite Hlen, take_app_length.
        rewrite decide_False; [done|]. exact Hno.
Qed.

(** Plugins registered by name get ids that no other has, 0 for a name that is
    taken; a room finds a plugin by its name, that of the first registration,
    with the id this registration was given, and no plugin under a name
    nobody registered. *)
Theorem registered_plugins_found make r names :
  0 < g_next_plugin_id r → g_next_plugin_id r + len names < 2 ^ 32 →
  let st := register_all make r names in
  (∀ game name, instantiate (game_plugins st.1) game name =
    match instantiate (game_plugins r) game name with
    | Some p => Some p
    | None => (λ i : nat, make name (g_next_plugin_id r + Z.of_nat i) game) <$> first_at names name
    end) ∧
  (∀ i name, names !! i = Some name → ∃ id, st.2 !! i = Some id ∧
    (id = 0 ↔ (∃ f, default ∅ (game_plugins r) !! name = Some f) ∨ name ∈ take i names) ∧
    ∀ j, st.2 !! j = Some id → id ≠ 0 → j = i).
Proof.
  intros Hn Hl. cbn zeta. destruct (register_all_spec make r names) as (_ & Ht & Hlen & Hids); [lia..|].
  destruct (register_all make r names) as [r' ids]. cbn [fst snd] in *.
  assert (∀ (t : PluginTable) game name,
    instantiate t game name = (λ f, f game) <$> (default ∅ t !! name)) as Hi.
  { intros [t|] game name; cbn; [|by rewrite lookup_empty]. by destruct (t !! name). }
  split.
  - intros game name. rewrite !Hi, Ht. destruct (default ∅ (game_plugins r) !! name); [done|].
    cbn. by destruct (first_at names name).
  - assert (∀ i name, names !! i = Some name → ∃ id, ids !! i = Some id ∧
      (id = 0 ↔ is_Some (default ∅ (game_plugins r) !! name) ∨ name ∈ take i names) ∧
      (id ≠ 0 → id = g_next_plugin_id r + Z.of_nat i)) as Hid.
    { intros i name Hname. rewrite (Hids i name Hname). eexists. split; [done|].
      destruct (decide _); [split; [tauto|done]|]. split; [split; [lia|tauto]|done]. }
    intros i name Hname. destruct (Hid i name Hname) as (id & Eid & H0 & Hne).
    exists id. split; [done|]. split; [done|]. intros j Hj Hz.
    pose proof (lookup_lt_Some _ _ _ Hj) as Hb. rewrite Hlen in Hb.
    apply lookup_lt_is_Some in Hb as [name' Hname'].
    destruct (Hid j name' Hname') as (id' & Eid' & _ & Hne'). simplify_eq.
    specialize (Hne Hz). specialize (Hne' Hz). lia.
Qed.
End registry.

Lemma registered_plugins_found_witness :
  let make name id (g : game_ptr) := (name, id, g) in
  let st := register_all make (mkRegistered None 1) ["dice"; "chess"; "dice"] in
  st.2 = [1; 2; 0] ∧ instantiate (game_plugins st.1) 7 "chess" = Some ("chess", 2, 7%nat).
Proof.
  split; [vm_compute; reflexivity|].
  rewrite (proj1 (registered_plugins_found (λ name id (g : game_ptr), (name, id, g))
    (mkRegistered None 1) ["dice"; "chess"; "dice"] ltac:(cbn; lia) ltac:(cbn; lia))).
  vm_compute. reflexivity.
Defined.

(** ** Asking the plugins of a room *)

(** <include/luxon/server/game.hpp:420-431 Game::execute_plugin_chain> (also
    lines 434-442)
    In order, until one does not answer [Continue]. *)
Fixpoint execute_plugin_chain {S} (plugins : list (S → S * PluginResult)) (s : S) :
    S * PluginResult :=
  match plugins with
  | [] => (s, Continue)
  | plugin :: plugins =>
      let '(s, result) := plugin s in
      match result with
      | Continue => execute_plugin_chain plugins s
      | _ => (s, result)
      end
  end.

Section foreign.
Context `{Ser, Codes, !Wire}.
Context (settings : AppSettings) (info : LobbyInfo) (alive : game_ptr → bool).
Context (get_dictionary : Value → option ParameterList).
Implicit Types (w : World) (env : PeerEnv).

(** <ffi_include/luxon_server_ffi.h:73-78 LuxonGamePluginResult> *)
Definition PLUGIN_RESULT_CONTINUE : Z := 0.
Definition PLUGIN_RESULT_FAIL : Z := 1.
Definition PLUGIN_RESULT_CANCEL : Z := 2.
Definition PLUGIN_RESULT_ASYNC : Z := 3.

(** <src/ffi.cpp:208-208 FfiGamePlugin::OnCreateGame>
    The cast of the byte [res] to [game_plugins::Result]. *)
Definition cast_result (res : Z) : PluginResult :=
  if res =? PLUGIN_RESULT_CONTINUE then Continue
  else if res =? PLUGIN_RESULT_FAIL then Fail
  else if res =? PLUGIN_RESULT_CANCEL then Cancel
  else Unnamed res.

(** What a foreign function answers: a byte and, for when the byte asks for
    it, the calls it makes until it resumes the coroutine, with the byte it
    resumes it with. *)
Record Reply := mkReply {
  res : Z;
  later : World → list PluginCall * Z;
}.
Definition Result_ (b : Z) : Reply := mkReply b (λ _, ([], b)).
Definition Async (l : World → list PluginCall * Z) : Reply := mkReply PLUGIN_RESULT_ASYNC l.

(** A foreign function makes calls and replies; one that is not provided is
    [None]. *)
Abbreviation Import := (option (World → list PluginCall * Reply)).

(** <src/ffi.cpp:56-56 g_imports>
    The hooks of a game plugin among the imports, for the plugin's id. *)
Record LuxonServerImports := mkImports {
  gamePluginOnAttach : option (Z → World → list PluginCall);
  gamePluginOnCreateGame : Z → bool → bool → Import;
  gamePluginBeforeJoin : Z → Import;
  gamePluginOnJoinGame : Z → GamePeer → Import;
  gamePluginOnLeave : Z → option GamePeer → Import;
  gamePluginOnRaiseEvent : Z → GamePeer → Event → Z → Import;
  gamePluginEditEvent : Z → Event → list Edit;
  gamePluginBeforeSetProperties : Z → GamePeer → bool → Z → option Hashtable → option Hashtable → Import;
  gamePluginOnSetProperties : Z → GamePeer → bool → Z → option Hashtable → option Hashtable → Import;
}.

(** The peers at the time, the nodes the plugin owns, and what other
    connections do to the world while a coroutine is suspended. *)
Context (env : PeerEnv) (own : gmap nat GamePeer) (others : World → World).
Context (g_imports : LuxonServerImports).

(** The calls of one answer; after a call through a freed handle there is
    nothing to say of the rest. *)
Fixpoint play (calls : list PluginCall) (r : Reach) : Reach :=
  match calls with
  | [] => r
  | c :: calls =>
      match run_call settings info alive env r c with
      | Some (r, _) => play calls r
      | None => r
      end
  end.

Definition play_in (calls : list PluginCall) w : World :=
  w <| room := the_game (play calls (mkReach (room w) own)) |>.

(** <src/ffi.cpp:190-209 FfiGamePlugin::OnCreateGame>
    The body all hooks share: the foreign function is called, awaited once if
    it answers [LUXON_PLUGIN_RESULT_ASYNC], and one that is missing continues.
    The byte that is left is the result, whatever it is. *)
Definition foreign_hook (f : Import) w : World * PluginResult :=
  match f with
  | None => (w, Continue)
  | Some f =>
      let '(calls, reply) := f w in
      let w := play_in calls w in
      if res reply =? PLUGIN_RESULT_ASYNC then
        let w := others w in
        let '(calls, b) := later reply w in
        (play_in calls w, cast_result b)
      else (w, cast_result (res reply))
  end.

(** <src/ffi.cpp:173-182 FfiGamePlugin::OnAttach> *)
Definition OnAttach (plugin_id_ : Z) w : World :=
  match gamePluginOnAttach g_imports with
  | Some f => play_in (f plugin_id_ w) w
  | None => w
  end.

(** <src/ffi.cpp:184-210 FfiGamePlugin::OnCreateGame> *)
Definition OnCreateGame (plugin_id_ : Z) (is_join create_if_not_exist : bool) :
    World → World * PluginResult :=
  foreign_hook (gamePluginOnCreateGame g_imports plugin_id_ is_join create_if_not_exist).

(** <src/ffi.cpp:212-237 FfiGamePlugin::BeforeJoin> *)
Definition BeforeJoin (plugin_id_ : Z) : World → World * PluginResult :=
  foreign_hook (gamePluginBeforeJoin g_imports plugin_id_).

(** <src/ffi.cpp:238-263 FfiGamePlugin::OnJoinGame> *)
Definition OnJoinGame (plugin_id_ : Z) (joiner : GamePeer) : World → World * PluginResult :=
  foreign_hook (gamePluginOnJoinGame g_imports plugin_id_ joiner).

(** <src/ffi.cpp:264-289 FfiGamePlugin::OnLeave> *)
Definition OnLeave (plugin_id_ : Z) (leaver : option GamePeer) : World → World * PluginResult :=
  foreign_hook (gamePluginOnLeave g_imports plugin_id_ leaver).

(** <src/ffi.cpp:318-347 FfiGamePlugin::BeforeSetProperties> *)
Definition BeforeSetProperties (plugin_id_ : Z) (setter : GamePeer) (broadcast : bool) (target : Z)
    (update expected : option Hashtable) : World → World * PluginResult :=
  foreign_hook (gamePluginBeforeSetProperties g_imports plugin_id_ setter broadcast target update expected).

(** <src/ffi.cpp:349-377 FfiGamePlugin::OnSetProperties> *)
Definition OnSetProperties (plugin_id_ : Z) (setter : GamePeer) (broadcast : bool) (target : Z)
    (update expected : option Hashtable) : World → World * PluginResult :=
  foreign_hook (gamePluginOnSetProperties g_imports plugin_id_ setter broadcast target update expected).

(** <src/ffi.cpp:290-316 FfiGamePlugin::OnRaiseEvent>
    The plugin edits the event through its handle. *)
Definition OnRaiseEvent (plugin_id_ : Z) (raiser : GamePeer) (cache_op : Z)
    (s : World * Event) : (World * Event) * PluginResult :=
  let '(w, ev) := s in
  let '(w, r) := foreign_hook (gamePluginOnRaiseEvent g_imports plugin_id_ raiser ev cache_op) w in
  ((w, foldl (edit get_dictionary) ev (gamePluginEditEvent g_imports plugin_id_ ev)), r).

(** The plugins of the room, as their ids, and the registered factories. *)
Context (loaded : World → list Z) (plugins : option (gmap string (game_ptr → Z))).

Definition ask (hook_of : Z → World → World * PluginResult) w : World * PluginResult :=
  execute_plugin_chain (hook_of <$> loaded w) w.

(** Foreign plugins behind the handler's interface.  They cannot change the
    options of a join, nor the flag and the target of a property update. *)
Definition ffi_plugins : Plugins := {|
  plugins_enabled := true;
  plugins_loaded w := negb (bool_decide (loaded w = []));
  on_attach name w :=
    match instantiate plugins (self (room w)) name with
    | Some id => OnAttach id w
    | None => w
    end;
  on_create_game b c := ask (λ id, OnCreateGame id b c);
  before_join := ask BeforeJoin;
  on_join_game joiner w :=
    let '(w, r) := ask (λ id, OnJoinGame id joiner) w in (w, r, None, None);
  on_leave leaver := ask (λ id, OnLeave id leaver);
  on_raise_event raiser ev c w :=
    let '((w, ev), r) :=
      execute_plugin_chain ((λ id, OnRaiseEvent id raiser c) <$> loaded w) (w, ev) in
    (w, r, ev);
  before_set_properties gp b t u e w :=
    let '(w, r) := ask (λ id, BeforeSetProperties id gp b t u e) w in
    (w, r, b, t);
  on_set_properties gp b t u e :=
    ask (λ id, OnSetProperties id gp b t u e);
|}.

(** ** Foreign plugins keep to the room's operations *)

(** The nodes a plugin owns never have a peer ([PluginCalls.run_call_ok]),
    and other connections keep to the room's operations and away from this
    connection's join. *)
Hypothesis (Hown : map_Forall (λ _ gp, peer gp = None) own).
Hypothesis (Hothers : ∀ w, game_ok (room w) →
  rtc step (room w) (room (others w)) ∧ locals (others w) = locals w).

Lemma play_steps calls r : reach_ok r → rtc step (the_game r) (the_game (play calls r)).
Proof.
  revert r. induction calls as [|c calls IH]; intros r Hok; [done|]. cbn [play].
  destruct (run_call _ _ _ _ _ _) as [[r' eff]|] eqn:E; [|done].
  pose proof (run_call_ok settings info alive env r c r' eff Hok E) as Hc.
  etransitivity; [exact (proj1 (proj1 Hc))|]. apply IH. by eapply call_reach_ok.
Qed.

(** What a hook may do to the world. *)
Definition keeps w w' : Prop := rtc step (room w) (room w') ∧ locals w' = locals w.

Lemma keeps_refl w : keeps w w.
Proof. by split. Qed.

Lemma keeps_trans w1 w2 w3 : keeps w1 w2 → keeps w2 w3 → keeps w1 w3.
Proof. intros [S1 L1] [S2 L2]. split; [by etransitivity|congruence]. Qed.

Lemma keeps_ok w w' : game_ok (room w) → keeps w w' → game_ok (room w').
Proof. intros Hok [Hs _]. by eapply steps_ok. Qed.

Lemma play_in_keeps calls w : game_ok (room w) → keeps w (play_in calls w).
Proof. intros Hok. split; [|done]. by apply (play_steps calls (mkReach (room w) own)). Qed.

Lemma foreign_hook_keeps f w : game_ok (room w) → keeps w (foreign_hook f w).1.
Proof.
  intros Hok. destruct f as [f|]; cbn [foreign_hook]; [|apply keeps_refl].
  destruct (f w) as [calls reply]. pose proof (play_in_keeps calls w Hok) as Ha.
  destruct (_ =? _); [|done].
  pose proof (Hothers _ (keeps_ok _ _ Hok Ha)) as Hb.
  pose proof (keeps_trans _ _ _ Ha Hb) as Hab.
  destruct (later _ _) as [calls' b]. eapply keeps_trans; [exact Hab|].
  apply play_in_keeps. by eapply keeps_ok.
Qed.

Lemma chain_keeps {A} (l : list (A → A * PluginResult)) (view : A → World) s :
  (∀ p s, p ∈ l → game_ok (room (view s)) → keeps (view s) (view (p s).1)) →
  game_ok (room (view s)) → keeps (view s) (view (execute_plugin_chain l s).1).
Proof.
  revert s. induction l as [|p l IH]; intros s Hl Hok; [apply keeps_refl|].
  cbn [execute_plugin_chain]. pose proof (Hl p s ltac:(left) Hok) as Ha.
  destruct (p s) as [s1 r]. cbn [fst] in *. destruct r; [|done..].
  eapply keeps_trans; [exact Ha|]. apply IH; [intros q s' Hq; apply Hl; by right|].
  by eapply keeps_ok.
Qed.

Lemma ask_keeps hook_of w :
  (∀ id w, game_ok (room w) → keeps w (hook_of id w).1) →
  game_ok (room w) → keeps w (ask hook_of w).1.
Proof.
  intros Hh Hok. apply (chain_keeps _ (λ w, w)); [|done].
  intros p s (id & -> & _)%list_elem_of_fmap. apply Hh.
Qed.

(** Foreign plugins are plugins the handler may have. *)
Lemma ffi_plugins_laws : PluginsLaws (H2 := ffi_plugins).
Proof.
  split.
  - intros name w Hok. cbn. destruct (instantiate _ _ _) as [id|]; [|apply keeps_refl].
    unfold OnAttach. destruct (gamePluginOnAttach g_imports); [by apply play_in_keeps|apply keeps_refl].
  - intros b c w Hok. apply ask_keeps; [intros; by apply foreign_hook_keeps|done].
  - intros w Hok. apply ask_keeps; [intros; by apply foreign_hook_keeps|done].
  - intros gp w Hok. pose proof (ask_keeps (λ id, OnJoinGame id gp) w (λ id, foreign_hook_keeps _) Hok) as Hk.
    cbn. by destruct (ask _ w).
  - intros gp w Hok. apply ask_keeps; [intros; by apply foreign_hook_keeps|done].
  - intros gp ev c w Hok. cbn.
    pose proof (chain_keeps ((λ id, OnRaiseEvent id gp c) <$> loaded w) fst (w, ev)) as Hk.
    destruct (execute_plugin_chain _ _) as [[w' ev'] r]. cbn in *. apply Hk; [|done].
    intros p [s e] (id & -> & _)%list_elem_of_fmap Hs. unfold OnRaiseEvent.
    pose proof (foreign_hook_keeps (gamePluginOnRaiseEvent g_imports id gp e c) s Hs) as Hf.
    by destruct (foreign_hook _ s).
  - intros gp b t u e w Hok.
    pose proof (ask_keeps (λ id, BeforeSetProperties id gp b t u e) w
      (λ id, foreign_hook_keeps _) Hok) as Hk.
    cbn. by destruct (ask _ w).
  - intros gp b t u e w Hok. apply ask_keeps; [intros; by apply foreign_hook_keeps|done].
Qed.

(** C37: Whatever foreign plugins a room has, and whatever they call back in their
    hooks, at once or when they are resumed, a connection takes its room
    through the room's own operations only: the room keeps its invariant and
    a created room stays created, on every path through the handler. *)
Theorem connection_with_foreign_plugins (w : World) (l : list Activity) :
  game_ok (room w) → lease_ok (room w) →
  let w' := foldl (λ w a, act (H2 := ffi_plugins) env settings info a w) w l in
  rtc step (room w) (room w') ∧ game_ok (room w') ∧
  (is_created (room w) = true → is_created (room w') = true).
Proof. apply (activities_ok (H2 := ffi_plugins) (H3 := ffi_plugins_laws)). Qed.
End foreign.

(** ** The active coroutine *)

Section contexts.
(** The contexts of a thread's hooks, the innermost first, by address. *)
Implicit Types (st : list nat) (ctx : nat).

(** <src/ffi.cpp:137-137 FfiCoroContext::FfiCoroContext> *)
Definition push_context ctx st : list nat := ctx :: st.

(** <src/ffi.cpp:146-151 FfiCoroContext::pop> *)
Definition pop_context ctx st : list nat :=
  match st with
  | [] => []
  | top :: rest => if decide (top = ctx) then rest else st
  end.

(** <src/ffi.cpp:493-502 luxonGetActiveCoroutine> *)
Definition luxonGetActiveCoroutine st : option nat := head st.

(** <src/ffi.cpp:187-202 FfiGamePlugin::OnCreateGame>
    A hook's context around its foreign function, whatever hooks this runs. *)
Definition in_context ctx (foreign : list nat → list nat) st : list nat :=
  pop_context ctx (foreign (push_context ctx st)).

(** Hooks within hooks leave the stack as they found it, each foreign
    function finds its own context, and the destructor, which pops once more
    when the coroutine ends, takes nothing of anyone else. *)
Lemma contexts_balanced ctx foreign st :
  (∀ s, foreign s = s) →
  luxonGetActiveCoroutine (push_context ctx st) = Some ctx ∧
  in_context ctx foreign st = st ∧
  (ctx ∉ st → pop_context ctx (in_context ctx foreign st) = st).
Proof.
  intros Hf. unfold in_context. rewrite Hf. cbn. rewrite decide_True by done.
  split; [done|]. split; [done|]. intros Hn. destruct st as [|t s]; [done|]. cbn.
  rewrite decide_False; [done|]. intros ->. apply Hn. left.
Qed.
End contexts.

(** ** Foreign authentication *)

Section auth.
Context `{Ser}.

(** [s.c_str()] as the other side reads it. *)
Fixpoint c_string (s : string) : string :=
  match s with
  | EmptyString => EmptyString
  | String c s => if code_of c =? 0 then EmptyString else String c (c_string s)
  end.

(** What a foreign authenticator leaves: its verdict, after an [ASYNC] one has
    been awaited, the buffer for the user id, and what is in the message for
    the error if it is an operation response. *)
Record AuthAnswer := mkAuthAnswer {
  answer_res : Z;
  out_user_id : Bytes;
  err_msg : option (ErrorCode * ParameterList);
}.

Abbreviation AuthImport :=
  (Z → string → string → string → option string → option string → AuthAnswer).

(** <ffi_include/luxon_server_ffi.h:82-82 LuxonAuthPluginResult> *)
Definition LUXON_AUTH_RESULT_SUCCESS : Z := 1.

(** <src/ffi.cpp:420-464 auth_callback_thunk>
    [None]: the user id is not terminated, and is read past its buffer. *)
Definition auth_callback_thunk (import : option AuthImport) (type : Z)
    (requested_user_id params data : string) (secret auth_url : option string) :
    option (string + ErrorCode * ParameterList) :=
  match import with
  | None => Some (inr (InternalServerError, ∅))
  | Some f =>
      let a := f type (c_string requested_user_id) (c_string params) (c_string data)
                 (c_string <$> secret) (c_string <$> auth_url) in
      if answer_res a =? LUXON_AUTH_RESULT_SUCCESS then
        (λ b, inl (String.string_of_list_ascii (char_of <$> b))) <$> c_text (out_user_id a)
      else match err_msg a with
      | Some resp => Some (inr resp)
      | None => Some (inr (InternalServerError, ∅))
      end
  end.

(** <src/ffi.cpp:466-472 get_auth_thunk> *)
Definition get_auth_thunk {T} (thunk : Z → T) (type : Z) : option T :=
  if type <? 64 then Some (thunk type) else None.

(** <src/ffi.cpp:1967-1981 registerAuthPlugin> *)
Definition registerAuthPlugin (thunk : Z → AuthCallback)
    (plugins : option (gmap Z AuthCallback)) (type : Z) :
    option (gmap Z AuthCallback) * bool :=
  match get_auth_thunk thunk type with
  | None => (plugins, false)
  | Some callback => register_ plugins type callback
  end.

(** A foreign authenticator is asked about exactly the types below 64 that
    were free when it registered, with its own type. *)
Lemma registered_auth_called thunk plugins type plugins' uid params data secret url :
  registerAuthPlugin thunk plugins type = (plugins', true) →
  0 ≤ type →
  type < 64 ∧ plugins ≫= lookup type = None ∧
  call plugins' type uid params data secret url = Some (thunk type uid params data secret url) ∧
  ∀ other, other ≠ type →
    call plugins' other uid params data secret url = call plugins other uid params data secret url.
Proof.
  unfold registerAuthPlugin, get_auth_thunk, register_. destruct (Z.ltb_spec type 64) as [Hl|]; [|done].
  destruct (default ∅ plugins !! type) eqn:E; [done|]. intros [= <-] Ht.
  split; [done|]. split; [destruct plugins; done|].
  unfold call. rewrite lookup_insert_eq. split; [done|]. intros other Hne.
  rewrite lookup_insert_ne by done. destruct plugins as [pl|]; [done|].
  cbn. by rewrite lookup_empty.
Qed.

(** A user id that fills the buffer without a terminator is read past it. *)
Lemma unterminated_user_id (import : AuthImport) type uid params data secret url :
  let a := import type (c_string uid) (c_string params) (c_string data)
             (c_string <$> secret) (c_string <$> url) in
  answer_res a = LUXON_AUTH_RESULT_SUCCESS → 0 ∉ out_user_id a →
  auth_callback_thunk (Some import) type uid params data secret url = None.
Proof.
  cbn zeta. cbn [auth_callback_thunk]. intros -> Hn. rewrite Z.eqb_refl.
  set (b := out_user_id _) in *. clearbody b.
  assert (c_text b = None) as ->; [|done].
  induction b as [|x b IH]; [done|]. rewrite not_elem_of_cons in Hn. destruct Hn as [Hx Hn]. cbn.
  destruct (Z.eqb_spec x 0) as [->|]; [done|]. by rewrite IH.
Qed.
End auth.
