(* ===== verification/SettingsDb.v ===== *)
(** * The settings database

    Models [settings_manager.cpp]: the options a database path ends in and
    the flags they open it with, the migrations, and the tables the policy of
    an application and its authentication providers are read from.  The SQL
    engine and the file system are parameters. *)

From S2P Require Import Prelude Values Types GameState PeerPersistence ServerManager Directory Release LobbyTable DataModel HandlerGame Authentication.
Open Scope Z_scope.

(** ** What the code relies on *)

(** A bound parameter of a statement. *)
Inductive Bound :=
  | BoundText (s : string)
  | BoundInt (z : Z).

(** A connection of the engine.  [sqlite3_select] prepares a query, binds its
    parameters and takes the first step: nothing when either step fails, no
    row when the query has none.  [sqlite3_run] does the same for a command. *)
Class Sqlite `{SqliteValues} := {
  Db : Type;
  sqlite3_open_v2 : string → Z → option Db;
  sqlite3_exec : string → Db → Db * Z;
  sqlite3_select : string → list Bound → Db → option (option (list sql_value));
  sqlite3_run : string → list Bound → Db → option (Db * Z);
}.

(** [std::filesystem]: whether a path exists, its permissions (none when its
    status cannot be read), its parent and the current directory. *)
Class Filesystem := {
  exists_ : string → bool;
  permissions : string → option Z;
  parent_path : string → string;
  current_path : string;
}.

(** ** The options of a path *)

(** <include/luxon/server/sqlite3.h:603-603 SQLITE_OPEN_READONLY> *)
Definition SQLITE_OPEN_READONLY : Z := 0x1.
(** <include/luxon/server/sqlite3.h:604-604 SQLITE_OPEN_READWRITE> *)
Definition SQLITE_OPEN_READWRITE : Z := 0x2.
(** <include/luxon/server/sqlite3.h:605-605 SQLITE_OPEN_CREATE> *)
Definition SQLITE_OPEN_CREATE : Z := 0x4.
(** <include/luxon/server/sqlite3.h:610-610 SQLITE_OPEN_MEMORY> *)
Definition SQLITE_OPEN_MEMORY : Z := 0x80.
(** <include/luxon/server/sqlite3.h:618-618 SQLITE_OPEN_NOMUTEX> *)
Definition SQLITE_OPEN_NOMUTEX : Z := 0x8000.
(** <include/luxon/server/sqlite3.h:619-619 SQLITE_OPEN_FULLMUTEX> *)
Definition SQLITE_OPEN_FULLMUTEX : Z := 0x10000.
(** <include/luxon/server/sqlite3.h:620-620 SQLITE_OPEN_SHAREDCACHE> *)
Definition SQLITE_OPEN_SHAREDCACHE : Z := 0x20000.
(** <include/luxon/server/sqlite3.h:621-621 SQLITE_OPEN_PRIVATECACHE> *)
Definition SQLITE_OPEN_PRIVATECACHE : Z := 0x40000.

(** [flags |= x] and [flags &= ~x]. *)
Definition set_flags (x flags : Z) : Z := Z.lor flags x.
Definition clear_flags (x flags : Z) : Z := Z.land flags (Z.lnot x).

(** <src/settings_manager.cpp:57-59 SettingsManager::SettingsManager>
    The locals the handlers capture: [flags] and [is_read_only_]. *)
Definition Opening : Type := Z * bool.

(** <src/settings_manager.cpp:62-95 SettingsManager::SettingsManager>
    The table of suffix handlers. *)
Definition suffix_handlers : list (string * (Opening → Opening)) :=
  [("ro", λ '(flags, _),
      (set_flags SQLITE_OPEN_READONLY
         (clear_flags (Z.lor SQLITE_OPEN_READWRITE SQLITE_OPEN_CREATE) flags), true));
   ("rw", λ '(flags, _),
      (set_flags (Z.lor SQLITE_OPEN_READWRITE SQLITE_OPEN_CREATE)
         (clear_flags SQLITE_OPEN_READONLY flags), false));
   ("nocreate", λ '(flags, ro), (clear_flags SQLITE_OPEN_CREATE flags, ro));
   ("nomutex", λ '(flags, ro),
      (set_flags SQLITE_OPEN_NOMUTEX (clear_flags SQLITE_OPEN_FULLMUTEX flags), ro));
   ("fullmutex", λ '(flags, ro),
      (set_flags SQLITE_OPEN_FULLMUTEX (clear_flags SQLITE_OPEN_NOMUTEX flags), ro));
   ("sharedcache", λ '(flags, ro),
      (set_flags SQLITE_OPEN_SHAREDCACHE (clear_flags SQLITE_OPEN_PRIVATECACHE flags), ro));
   ("privatecache", λ '(flags, ro),
      (set_flags SQLITE_OPEN_PRIVATECACHE (clear_flags SQLITE_OPEN_SHAREDCACHE flags), ro));
   ("memory", λ '(flags, ro), (set_flags SQLITE_OPEN_MEMORY flags, ro))]%stdpp.

(** [suffix_handlers.find] *)
Definition find_handler (suffix : string) : option (Opening → Opening) :=
  snd <$> find_first (λ h, bool_decide (h.1 = suffix)) suffix_handlers.

(** The text before and after the last colon. *)
Fixpoint split_last_colon (s : string) : option (string * string) :=
  match s with
  | EmptyString => None
  | String c s =>
      match split_last_colon s with
      | Some (a, b) => Some (String c a, b)
      | None => if code_of c =? 58 then Some (EmptyString, s) else None
      end
  end.

(** <src/settings_manager.cpp:97-116 SettingsManager::SettingsManager>
    The loop over the suffixes, from the last one on: the path that remains,
    and the handlers in the order they were pushed. *)
Fixpoint strip_suffixes (fuel : nat) (path_str : string)
    (actions_to_apply : list (Opening → Opening)) :
    option (string * list (Opening → Opening)) :=
  match fuel with
  | O => None
  | S fuel =>
      match split_last_colon path_str with
      | None => Some (path_str, actions_to_apply)
      | Some (rest, suffix) =>
          match find_handler suffix with
          | Some h => strip_suffixes fuel rest (actions_to_apply ++ [h])
          | None => Some (path_str, actions_to_apply)
          end
      end
  end.

(** <src/settings_manager.cpp:58-60 SettingsManager::SettingsManager> *)
Definition initial_opening (writable : bool) : Opening :=
  if writable then (Z.lor SQLITE_OPEN_READWRITE SQLITE_OPEN_CREATE, false)
  else (SQLITE_OPEN_READONLY, true).

(** <src/settings_manager.cpp:97-123 SettingsManager::SettingsManager>
    What the database is opened with: the cleaned path, the flags, and
    whether the manager takes itself to be read-only. *)
Definition open_arguments (writable : bool) (path : string) :
    option (string * Opening) :=
  '(clean, actions_to_apply) ← strip_suffixes (S (String.length path)) path [];
  Some (clean, foldl (λ o h, h o) (initial_opening writable) (reverse actions_to_apply)).

(** ** Opening and migrating *)

(** <src/settings_manager.cpp:13-16 Migration> *)
Record Migration := mkMigration { version : Z; sql : string }.

(** <src/settings_manager.cpp:19-51 MIGRATIONS> *)
Definition MIGRATIONS : list Migration :=
  [mkMigration 1 "
        CREATE TABLE app_settings (
            appid TEXT PRIMARY KEY,
            auth_mode INTEGER NOT NULL DEFAULT 1, -- 0=Weak, 1=Anonymous, 2=Strict
            allow_find_friends INTEGER NOT NULL DEFAULT 1,
            custom_anonymous_uid_mode INTEGER NOT NULL DEFAULT 2, -- 0=Allow 1=AllowWithPrefix 2=ForceRandom
            anonymous_uid_prefix TEXT NOT NULL DEFAULT 'anon-',
            max_peers INTEGER NOT NULL DEFAULT 0,
            max_peers_per_game INTEGER NOT NULL DEFAULT 0,
            max_game_count INTEGER NOT NULL DEFAULT 0
        );

        CREATE TABLE auth_providers (
            appid TEXT NOT NULL,
            auth_type INTEGER NOT NULL,
            is_allowed INTEGER NOT NULL DEFAULT 1,
            secret TEXT,
            auth_url TEXT,
            PRIMARY KEY (appid, auth_type),
            FOREIGN KEY (appid) REFERENCES app_settings(appid) ON DELETE CASCADE
        );

        CREATE INDEX idx_app_settings_appid ON app_settings(appid);
        CREATE INDEX idx_auth_providers_appid_type ON auth_providers(appid, auth_type);
        "%stdpp;
   mkMigration 2 "
        ALTER TABLE app_settings ADD COLUMN allow_change_master INTEGER NOT NULL DEFAULT 1;
    "%stdpp].

Section manager.
Context `{Sqlite, Filesystem}.

(** The connection, with the statements given to the engine so far. *)
Record Conn := mkConn { db : Db; issued : list (string * list Bound) }.
#[export] Instance eta_Conn : Eta Conn := λ c, mkConn (db c) (issued c).
Implicit Types (c : Conn) (d : Db).

(** <src/sqlite3pp.cpp:208-208 database::execute> *)
Definition execute (sql : string) c : Conn * Z :=
  let '(d, rc) := sqlite3_exec sql (db c) in (mkConn d (issued c ++ [(sql, [])]), rc).

(** <src/sqlite3pp.cpp:413-417 query::query_iterator>
    A [query] constructed, bound and begun; nothing when that throws. *)
Definition begin_query (sql : string) (bs : list Bound) c :
    Conn * option (option (list sql_value)) :=
  (c <| issued ::= λ l, l ++ [(sql, bs)] |>, sqlite3_select sql bs (db c)).

(** <src/sqlite3pp.cpp:344-350 command::execute>
    A [command] constructed, bound and executed, its code ignored; false
    when that throws. *)
Definition run_command (sql : string) (bs : list Bound) c : Conn * bool :=
  let c := c <| issued ::= λ l, l ++ [(sql, bs)] |> in
  match sqlite3_run sql bs (db c) with
  | Some (d, _) => (c <| db := d |>, true)
  | None => (c, false)
  end.

(** A column of the current row; there is nothing past the last. *)
Definition column (row : list sql_value) (i : nat) : option sql_value := row !! i.

(** <src/sqlite3pp.cpp:390-390 query::rows::get> *)
Definition get_int (row : list sql_value) (i : nat) : Z :=
  match column row i with
  | Some v => s32 (sqlite3_value_int64 v)
  | None => 0
  end.

(** <src/sqlite3pp.cpp:396-396 query::rows::get> The bytes up to the
    terminator are what the callers read. *)
Definition get_ptr (row : list sql_value) (i : nat) : option string :=
  string_of_ptr <$> (column row i ≫= sqlite3_value_text).

(** <src/sqlite3pp.cpp:400-403 query::rows::get> *)
Definition get_string (row : list sql_value) (i : nat) : string :=
  default EmptyString (get_ptr row i).

(** <src/sqlite3pp.cpp:445-445 transaction::transaction> *)
Definition sql_begin : string := "BEGIN"%stdpp.
(** <src/sqlite3pp.cpp:462-462 transaction::commit> *)
Definition sql_commit : string := "COMMIT"%stdpp.
(** <src/settings_manager.cpp:156-156 SettingsManager::apply_migrations> *)
Definition sql_tracking : string :=
  "CREATE TABLE IF NOT EXISTS schema_migrations (version INTEGER PRIMARY KEY);"%stdpp.
(** <src/settings_manager.cpp:159-159 SettingsManager::apply_migrations> *)
Definition sql_max_version : string := "SELECT MAX(version) FROM schema_migrations"%stdpp.
(** <src/settings_manager.cpp:167-167 SettingsManager::apply_migrations> *)
Definition sql_record : string := "INSERT INTO schema_migrations (version) VALUES (?)"%stdpp.
(** <src/settings_manager.cpp:130-130 SettingsManager::SettingsManager> *)
Definition sql_foreign_keys : string := "PRAGMA foreign_keys = ON;"%stdpp.

(** <src/settings_manager.cpp:163-171 SettingsManager::apply_migrations>
    The loop; false when a statement throws. *)
Fixpoint migrate (current_version : Z) (ms : list Migration) c : Conn * bool :=
  match ms with
  | [] => (c, true)
  | m :: ms =>
      if current_version <? version m then
        let '(c, _) := execute (sql m) c in
        match run_command sql_record [BoundInt (version m)] c with
        | (c, true) => migrate current_version ms c
        | (c, false) => (c, false)
        end
      else migrate current_version ms c
  end.

(** <src/settings_manager.cpp:152-174 SettingsManager::apply_migrations>
    The transaction commits when it is destroyed, an exception or not; false
    when one leaves. *)
Definition apply_migrations c : Conn * bool :=
  match execute sql_begin c with
  | (c, rc) =>
      if negb (rc =? SQLITE_OK) then (c, false)
      else
        let '(c, _) := execute sql_tracking c in
        let '(c, ok) :=
          match begin_query sql_max_version [] c with
          | (c, None) => (c, false)
          | (c, Some row) =>
              let current_version := from_option (λ r, get_int r 0) 0 row in
              migrate current_version MIGRATIONS c
          end in
        ((execute sql_commit c).1, ok)
  end.

(** [std::filesystem::perms]: the bits of an unknown status, and the
    owner's. *)
Definition perms_unknown : Z := 0xFFFF.
Definition owner_write : Z := 0x80.

Definition permissions_of (p : string) : Z := default perms_unknown (permissions p).

(** <src/settings_manager.cpp:135-150 SettingsManager::check_is_writable> *)
Definition check_is_writable (db_path : string) : bool :=
  if exists_ db_path then has_flag (permissions_of db_path) owner_write
  else
    let parent := parent_path db_path in
    let parent := if empty_str parent then current_path else parent in
    has_flag (permissions_of parent) owner_write.

(** <include/luxon/server/settings_manager.hpp:17-39 SettingsManager> *)
Record SettingsManager := mkSettingsManager { db_ : Db; is_read_only_ : bool }.

(** <src/settings_manager.cpp:54-133 SettingsManager::SettingsManager>
    Nothing when it throws. *)
Definition construct (db_path : string) : option SettingsManager :=
  '(clean, (flags, ro)) ← open_arguments (check_is_writable db_path) db_path;
  d ← sqlite3_open_v2 (string_of_ptr clean) flags;
  if negb ro then
    let '(c, _) := execute sql_foreign_keys (mkConn d []) in
    let '(c, ok) := apply_migrations c in
    if ok : bool then Some (mkSettingsManager (db c) ro) else None
  else Some (mkSettingsManager d ro).

(** ** The settings of an application *)

(** <src/settings_manager.cpp:177-182 SettingsManager::get_app_settings> *)
Definition sql_app_settings : string :=
  ("SELECT auth_mode, allow_find_friends, custom_anonymous_uid_mode, " +:+
   "anonymous_uid_prefix, max_peers, max_peers_per_game, max_game_count," +:+
   "allow_change_master FROM app_settings WHERE appid = ?")%stdpp.
(** <src/settings_manager.cpp:208-209 SettingsManager::get_auth_provider> *)
Definition sql_auth_provider : string :=
  ("SELECT is_allowed, secret, auth_url " +:+
   "FROM auth_providers WHERE appid = ? AND auth_type = ?")%stdpp.
Definition unknown : string := "unknown"%stdpp.

(** [std::clamp] *)
Definition clamp (z lo hi : Z) : Z := if z <? lo then lo else if hi <? z then hi else z.

(** <src/settings_manager.cpp:192-204 SettingsManager::get_app_settings>
    A row read into the settings; the members are unsigned. *)
Definition read_settings (appid : string) (row : list sql_value) : AppSettings :=
  mkAppSettings appid
    (u32 (get_int row 0)) (u32 (clamp (get_int row 2) 0 2)) (get_string row 3)
    (u32 (get_int row 4)) (u32 (get_int row 5)) (u32 (get_int row 6))
    (negb (get_int row 1 =? 0)) (negb (get_int row 7 =? 0)).

(** <src/settings_manager.cpp:220-231 SettingsManager::get_auth_provider> *)
Definition read_provider (row : list sql_value) : AuthProviderSettings :=
  mkProvider (negb (get_int row 0 =? 0)) (get_ptr row 1) (get_ptr row 2).

(** <src/settings_manager.cpp:177-185 SettingsManager::get_app_settings> *)
Definition app_row d (appid : string) : option (option (list sql_value)) :=
  sqlite3_select sql_app_settings [BoundText (string_of_ptr appid)] d.
(** <src/settings_manager.cpp:208-213 SettingsManager::get_auth_provider> *)
Definition provider_row d (appid : string) (auth_type : Z) : option (option (list sql_value)) :=
  sqlite3_select sql_auth_provider [BoundText (string_of_ptr appid); BoundInt auth_type] d.

(** <src/settings_manager.cpp:176-205 SettingsManager::get_app_settings>
    The fuel bounds the recursion; an exception is [Thrown]. *)
Fixpoint get_app_settings (fuel : nat) d (appid : string) :
    option (fallible Fault (option AppSettings)) :=
  match fuel with
  | O => None
  | S fuel =>
      match app_row d appid with
      | None => Some (inr Thrown)
      | Some None =>
          if bool_decide (appid = unknown) then Some (inl None)
          else get_app_settings fuel d unknown
      | Some (Some row) => Some (inl (Some (read_settings appid row)))
      end
  end.

(** <src/settings_manager.cpp:207-232 SettingsManager::get_auth_provider> *)
Fixpoint get_auth_provider (fuel : nat) d (appid : string) (auth_type : Z) :
    option (fallible Fault (option AuthProviderSettings)) :=
  match fuel with
  | O => None
  | S fuel =>
      match provider_row d appid auth_type with
      | None => Some (inr Thrown)
      | Some None =>
          if bool_decide (appid = unknown) then Some (inl None)
          else get_auth_provider fuel d unknown auth_type
      | Some (Some row) => Some (inl (Some (read_provider row)))
      end
  end.
End manager.

(** ** What the options mean *)

(** How a database is opened; the mutex and the cache may be left to the
    engine. *)
Record Access := mkAccess {
  read_only : bool;
  creates : bool;
  full_mutex : option bool;
  shared_cache : option bool;
  in_memory : bool;
}.
#[export] Instance eta_Access : Eta Access := λ a,
  mkAccess (read_only a) (creates a) (full_mutex a) (shared_cache a) (in_memory a).

(** A read-only database is never created. *)
Definition sensible (a : Access) : Prop := read_only a = true → creates a = false.

Definition flags_of (a : Access) : Z :=
  (if read_only a then SQLITE_OPEN_READONLY else SQLITE_OPEN_READWRITE)
  + (if creates a then SQLITE_OPEN_CREATE else 0)
  + match full_mutex a with
    | Some true => SQLITE_OPEN_FULLMUTEX
    | Some false => SQLITE_OPEN_NOMUTEX
    | None => 0
    end
  + match shared_cache a with
    | Some true => SQLITE_OPEN_SHAREDCACHE
    | Some false => SQLITE_OPEN_PRIVATECACHE
    | None => 0
    end
  + (if in_memory a then SQLITE_OPEN_MEMORY else 0).

(** What one option asks for. *)
Inductive Option_ := Ro | Rw | NoCreate | NoMutex | FullMutex | SharedCache | PrivateCache | Memory.

Definition name_of (o : Option_) : string :=
  match o with
  | Ro => "ro" | Rw => "rw" | NoCreate => "nocreate" | NoMutex => "nomutex"
  | FullMutex => "fullmutex" | SharedCache => "sharedcache"
  | PrivateCache => "privatecache" | Memory => "memory"
  end%stdpp.

Definition choose_option (a : Access) (o : Option_) : Access :=
  match o with
  | Ro => a <| read_only := true |> <| creates := false |>
  | Rw => a <| read_only := false |> <| creates := true |>
  | NoCreate => a <| creates := false |>
  | NoMutex => a <| full_mutex := Some false |>
  | FullMutex => a <| full_mutex := Some true |>
  | SharedCache => a <| shared_cache := Some true |>
  | PrivateCache => a <| shared_cache := Some false |>
  | Memory => a <| in_memory := true |>
  end.

Definition default_access (writable : bool) : Access :=
  mkAccess (negb writable) writable None None false.

(** The access a path with these options is opened for, read left to
    right. *)
Definition access (writable : bool) (os : list Option_) : Access :=
  foldl choose_option (default_access writable) os.

Definition with_options (clean : string) (os : list Option_) : string :=
  foldl (λ p o, p +:+ String (char_of 58) (name_of o)) clean os.

(** A path that ends in no option. *)
Definition plain (clean : string) : Prop :=
  ∀ p o, clean ≠ p +:+ String (char_of 58) (name_of o).

(** *** The table and the loop *)

Definition handler_of (o : Option_) : Opening → Opening :=
  default (λ o, o) (find_handler (name_of o)).

Lemma find_name o : find_handler (name_of o) = Some (handler_of o).
Proof. by destruct o. Qed.

Lemma handler_names : (suffix_handlers).*1 =
  name_of <$> [Ro; Rw; NoCreate; NoMutex; FullMutex; SharedCache; PrivateCache; Memory].
Proof. reflexivity. Qed.

Lemma find_handler_name s h : find_handler s = Some h → ∃ o, s = name_of o.
Proof.
  unfold find_handler. intros ([n h'] & [Hin Hn]%find_first_Some & _)%fmap_Some.
  apply bool_decide_eq_true in Hn. cbn in Hn. subst n.
  pose proof (list_elem_of_fmap_2 fst _ _ Hin) as Hs. rewrite handler_names in Hs.
  apply list_elem_of_fmap in Hs as (o & Hs & _). by exists o.
Qed.

(** A handler does to the flags what the option asks for. *)
Lemma handler_choose o a :
  handler_of o (flags_of a, read_only a) =
  (flags_of (choose_option a o), read_only (choose_option a o)).
Proof. destruct o, a as [[] [] [[]|] [[]|] []]; reflexivity. Qed.

Lemma split_last_colon_Some s a b :
  split_last_colon s = Some (a, b) →
  s = a +:+ String (char_of 58) b ∧ split_last_colon b = None.
Proof.
  revert a b. induction s as [|c s IH]; intros a b; [done|]. cbn.
  destruct (split_last_colon s) as [[a' b']|] eqn:E.
  - intros [= <- <-]. destruct (IH _ _ eq_refl) as [-> ?]. done.
  - destruct (Z.eqb_spec (code_of c) 58) as [Hc|]; [|done].
    intros [= <- <-]. split; [|done]. by rewrite <-Hc, char_code.
Qed.

Lemma split_last_colon_app a b :
  split_last_colon b = None → split_last_colon (a +:+ String (char_of 58) b) = Some (a, b).
Proof.
  intros Hb. induction a as [|c a IH].
  - change (split_last_colon (String (char_of 58) b) = Some (EmptyString, b)).
    cbn [split_last_colon]. by rewrite Hb.
  - change (split_last_colon (String c (a +:+ String (char_of 58) b)) = Some (String c a, b)).
    cbn [split_last_colon]. by rewrite IH.
Qed.

Lemma name_no_colon o : split_last_colon (name_of o) = None.
Proof. by destruct o. Qed.

Lemma with_options_snoc clean os o :
  with_options clean (os ++ [o]) = with_options clean os +:+ String (char_of 58) (name_of o).
Proof. unfold with_options. by rewrite foldl_app. Qed.

Lemma with_options_length clean os :
  (length os ≤ String.length (with_options clean os))%nat.
Proof.
  induction os as [|o os IH] using rev_ind; [cbn; lia|].
  rewrite with_options_snoc, string_length_app, length_app. cbn. lia.
Qed.

(** Stripping the options of a path leaves the plain path. *)
Lemma strip_with_options clean os fuel acts :
  plain clean → (length os < fuel)%nat →
  strip_suffixes fuel (with_options clean os) acts =
  Some (clean, acts ++ reverse (handler_of <$> os)).
Proof.
  intros Hp. revert fuel acts.
  induction os as [|o os IH] using rev_ind; intros [|fuel] acts Hf; [cbn in Hf; lia| |lia|].
  - cbn [with_options foldl strip_suffixes fmap list_fmap]. rewrite reverse_nil.
    destruct (split_last_colon clean) as [[a b]|] eqn:E; [|by rewrite app_nil_r].
    apply split_last_colon_Some in E as [E _].
    destruct (find_handler b) as [h|] eqn:Hh; [|by rewrite app_nil_r].
    apply find_handler_name in Hh as [o ->]. by destruct (Hp a o).
  - rewrite length_app in Hf. cbn in Hf. cbn [strip_suffixes].
    rewrite with_options_snoc, (split_last_colon_app _ _ (name_no_colon o)), find_name, IH by lia.
    by rewrite fmap_app, reverse_app, <-app_assoc.
Qed.

(** A path decomposes into a plain path and options. *)
Lemma decompose path : ∃ clean os, path = with_options clean os ∧ plain clean.
Proof.
  remember (String.length path) as n eqn:Hn. revert path Hn.
  induction (lt_wf n) as [n _ IH]. intros path ->.
  destruct (split_last_colon path) as [[a b]|] eqn:E.
  2:{ exists path, []. split; [done|]. intros p o ->.
      by rewrite (split_last_colon_app _ _ (name_no_colon o)) in E. }
  destruct (find_handler b) as [h|] eqn:Hb.
  2:{ exists path, []. split; [done|]. intros p o ->.
      rewrite (split_last_colon_app _ _ (name_no_colon o)) in E. injection E as <- <-.
      by rewrite find_name in Hb. }
  apply find_handler_name in Hb as [o ->].
  apply split_last_colon_Some in E as [-> _].
  destruct (IH (String.length a)) with (path := a) as (clean & os & -> & Hp); [|done|].
  { rewrite string_length_app. cbn. lia. }
  exists clean, (os ++ [o]). by rewrite with_options_snoc.
Qed.

Lemma initial_access writable :
  initial_opening writable = (flags_of (default_access writable), read_only (default_access writable)).
Proof. by destruct writable. Qed.

Lemma apply_options os a :
  foldl (λ o h, h o) (flags_of a, read_only a) (handler_of <$> os) =
  (flags_of (foldl choose_option a os), read_only (foldl choose_option a os)).
Proof.
  revert a. induction os as [|o os IH]; intros a; [done|]. cbn [fmap list_fmap foldl].
  by rewrite handler_choose, IH.
Qed.

Lemma open_with_options writable clean os :
  plain clean →
  open_arguments writable (with_options clean os) =
  Some (clean, (flags_of (access writable os), read_only (access writable os))).
Proof.
  intros Hp. unfold open_arguments, access.
  rewrite strip_with_options by (done || pose proof (with_options_length clean os); lia).
  cbn [mbind option_bind]. rewrite app_nil_l, reverse_involutive, initial_access.
  by rewrite apply_options.
Qed.

Lemma access_creates writable os :
  read_only (access writable os) = true → creates (access writable os) = false.
Proof.
  unfold access. induction os as [|o os IH] using rev_ind; [by destruct writable|].
  rewrite foldl_app. destruct o; cbn; done || exact IH.
Qed.

(** Every path is a plain path followed by options, and
    the database is opened at the plain path for the access the options ask
    for, read from left to right after the default the file's permissions
    give: the manager takes itself to be read-only exactly when the flags
    open the database read-only, and then they never create it. *)
Theorem open_arguments_spec writable path :
  (∃ clean os, path = with_options clean os ∧ plain clean) ∧
  ∀ clean os, path = with_options clean os → plain clean →
    let a := access writable os in
    open_arguments writable path = Some (clean, (flags_of a, read_only a)) ∧
    has_flag (flags_of a) SQLITE_OPEN_READONLY = read_only a ∧
    has_flag (flags_of a) SQLITE_OPEN_READWRITE = negb (read_only a) ∧
    has_flag (flags_of a) SQLITE_OPEN_CREATE = creates a ∧
    (read_only a = true → creates a = false) ∧
    has_flag (flags_of a) SQLITE_OPEN_FULLMUTEX && has_flag (flags_of a) SQLITE_OPEN_NOMUTEX = false ∧
    has_flag (flags_of a) SQLITE_OPEN_SHAREDCACHE && has_flag (flags_of a) SQLITE_OPEN_PRIVATECACHE = false.
Proof.
  split; [apply decompose|]. intros clean os -> Hp a.
  split; [by apply open_with_options|].
  assert (read_only a = true → creates a = false) as Hs by apply access_creates.
  clearbody a. destruct a as [[] [] [[]|] [[]|] []]; try (by specialize (Hs eq_refl)); by repeat split.
Qed.

(** ** Migrations run once *)

(** The newest recorded version; a table without rows has none. *)
Definition newest (vs : list Z) : Z := foldr Z.max 0 vs.

Lemma newest_elem vs v : v ∈ vs → v ≤ newest vs.
Proof. unfold newest. induction 1; cbn in *; lia. Qed.

Definition due (vs : list Z) (ms : list Migration) : list Migration :=
  filter (λ m, newest vs < version m) ms.

Lemma due_cons vs m ms :
  due vs (m :: ms) = if newest vs <? version m then m :: due vs ms else due vs ms.
Proof.
  unfold due. destruct (Z.ltb_spec (newest vs) (version m)).
  - by rewrite filter_cons_True.
  - rewrite filter_cons_False; [done|lia].
Qed.

Section migrations.
Context `{Sqlite}.
Implicit Types (c : Conn) (d : Db).

Lemma due_new vs ms m : m ∈ due vs ms → version m ∉ vs.
Proof. intros [Hm _]%list_elem_of_filter Hin%newest_elem. lia. Qed.

(** What applying a list of migrations issues. *)
Definition script (ms : list Migration) : list (string * list Bound) :=
  m ← ms; [(sql m, []); (sql_record, [BoundInt (version m)])].

(** The rows of [schema_migrations], none without the table: what the engine
    does to them for a connection nobody else writes besides. *)
Class TracksMigrations (versions : Db → option (list Z)) : Prop := {
  tracking_creates d :
    versions (sqlite3_exec sql_tracking d).1 = versions d ∨
    versions (sqlite3_exec sql_tracking d).1 = Some (default [] (versions d));
  max_selected d vs r :
    versions d = Some vs → Forall (λ v, 0 < v < 2 ^ 31) vs →
    sqlite3_select sql_max_version [] d = Some r →
    ∃ v, r = Some [v] ∧ sqlite3_value_int64 v = newest vs;
  max_needs_table d : versions d = None → sqlite3_select sql_max_version [] d = None;
  record_inserts d d' v vs rc :
    versions d = Some vs → sqlite3_run sql_record [BoundInt v] d = Some (d', rc) →
    versions d' = Some (if rc =? SQLITE_OK then v :: vs else vs);
  others_keep s d :
    s ∈ [sql_begin; sql_commit] ++ (sql <$> MIGRATIONS) →
    versions (sqlite3_exec s d).1 = versions d;
}.

Context (versions : Db → option (list Z)) `{!TracksMigrations versions}.

(** A version that is not recorded yet can be. *)
Definition inserts_succeed : Prop := ∀ d v vs d' rc,
  versions d = Some vs → v ∉ vs →
  sqlite3_run sql_record [BoundInt v] d = Some (d', rc) → rc = SQLITE_OK.

Lemma execute_db s c : db (execute s c).1 = (sqlite3_exec s (db c)).1.
Proof. unfold execute. by destruct (sqlite3_exec s (db c)). Qed.
Lemma execute_issued s c : issued (execute s c).1 = issued c ++ [(s, [])].
Proof. unfold execute. by destruct (sqlite3_exec s (db c)). Qed.

Lemma migrate_spec vs0 ms c c' vs :
  (∀ m, m ∈ ms → m ∈ MIGRATIONS) → NoDup (version <$> ms) →
  (∀ m, m ∈ due vs0 ms → version m ∉ vs) → versions (db c) = Some vs →
  migrate (newest vs0) ms c = (c', true) →
  issued c' = issued c ++ script (due vs0 ms) ∧
  ∃ vs', versions (db c') = Some vs' ∧
    (inserts_succeed → vs' = reverse (version <$> due vs0 ms) ++ vs).
Proof.
  revert c vs. induction ms as [|m ms IH]; intros c vs Hms Hnd Hnew Hv; cbn [migrate].
  { intros [= <-]. cbn. rewrite app_nil_r. eauto. }
  assert (∀ m', m' ∈ ms → m' ∈ MIGRATIONS) as Hms' by (intros ??; apply Hms; by right).
  rewrite fmap_cons in Hnd. apply NoDup_cons in Hnd as [Hm Hnd].
  rewrite due_cons in *. destruct (newest vs0 <? version m).
  2:{ intros Hc. by eapply IH in Hc. }
  pose proof (execute_db (sql m) c) as Ed. pose proof (execute_issued (sql m) c) as Ei.
  destruct (execute (sql m) c) as [c1 rc1]. cbn in Ed, Ei. unfold run_command.
  assert (versions (db c1) = Some vs) as Hv1.
  { rewrite Ed, others_keep; [done|]. apply elem_of_app. right. apply list_elem_of_fmap_2, Hms. left. }
  destruct (sqlite3_run sql_record [BoundInt (version m)] (db _)) as [[d' rc]|] eqn:Er; [|done].
  upd_in Er. pose proof (record_inserts _ _ _ _ _ Hv1 Er) as Hv2.
  intros Hc. eapply IH in Hc as (Hi & vs' & Hv' & Hn); [|done|done| |exact Hv2].
  2:{ intros m' Hm' Hin. assert (version m' ∈ m.(version) :: vs) as [E|E]%elem_of_cons.
      { destruct (rc =? SQLITE_OK); [done|by right]. }
      - apply Hm. rewrite <-E. apply list_elem_of_fmap_2. by apply list_elem_of_filter in Hm' as [_ ?].
      - by apply (Hnew m'); [right|]. }
  split.
  - rewrite Hi. upd. cbn. rewrite Ei. unfold script. cbn. by rewrite <-!app_assoc.
  - exists vs'. split; [done|]. intros Hok. rewrite (Hok _ _ _ _ _ Hv1 (Hnew m ltac:(left)) Er) in Hn. cbn in Hn.
    rewrite (Hn Hok). rewrite fmap_cons, reverse_cons, <-app_assoc. done.
Qed.
(** The statements around the loop. *)
Definition preamble : list (string * list Bound) :=
  [(sql_begin, []); (sql_tracking, []); (sql_max_version, [])].

Lemma newest_bound vs : Forall (λ v, 0 < v < 2 ^ 31) vs → 0 ≤ newest vs < 2 ^ 31.
Proof. unfold newest. induction 1; cbn in *; lia. Qed.

Lemma newest_get_int v vs :
  Forall (λ v, 0 < v < 2 ^ 31) vs → sqlite3_value_int64 v = newest vs →
  get_int [v] 0 = newest vs.
Proof.
  intros Hvs%newest_bound Hv. unfold get_int, column. cbn. rewrite Hv.
  unfold swrap. cbv zeta. rewrite wrap_small by lia.
  destruct (decide (newest vs < 2 ^ (32 - 1))); lia.
Qed.

Lemma apply_migrations_spec c c' :
  let vs := default [] (versions (db c)) in
  Forall (λ v, 0 < v < 2 ^ 31) vs → apply_migrations c = (c', true) →
  issued c' = issued c ++ preamble ++ script (due vs MIGRATIONS) ++ [(sql_commit, [])] ∧
  ∃ vs', versions (db c') = Some vs' ∧
    (inserts_succeed → vs' = reverse (version <$> due vs MIGRATIONS) ++ vs).
Proof.
  intros vs Hvs. unfold apply_migrations.
  pose proof (execute_db sql_begin c) as Ed0. pose proof (execute_issued sql_begin c) as Ei0.
  destruct (execute sql_begin c) as [c0 rc0]. cbn in Ed0, Ei0.
  destruct (negb (rc0 =? SQLITE_OK)); [done|].
  pose proof (execute_db sql_tracking c0) as Ed1. pose proof (execute_issued sql_tracking c0) as Ei1.
  destruct (execute sql_tracking c0) as [c1 rc1]. cbn in Ed1, Ei1.
  unfold begin_query. destruct (sqlite3_select sql_max_version [] (db c1)) as [r|] eqn:Er; [|done].
  assert (versions (db c0) = versions (db c)) as Hv0 by (rewrite Ed0; apply others_keep; left).
  assert (versions (db c1) = Some vs) as Hv1.
  { destruct (versions (db c1)) as [vs1|] eqn:E1; [|by rewrite (max_needs_table _ E1) in Er].
    f_equal. unfold vs. rewrite <-Hv0. rewrite Ed1 in E1.
    destruct (tracking_creates (db c0)) as [E|E]; rewrite E in E1; [by rewrite E1|by injection E1]. }
  destruct (max_selected _ _ _ Hv1 Hvs Er) as (v & -> & Hv). cbn [from_option].
  rewrite (newest_get_int _ _ Hvs Hv).
  destruct (migrate _ _ _) as [c2 []] eqn:Em; intros [= <-].
  eapply migrate_spec in Em as (Hi & vs' & Hv' & Hn); [|done| |apply due_new|by upd].
  2:{ by apply (bool_decide_unpack (NoDup [1; 2])). }
  rewrite execute_db, execute_issued, Hi. upd. rewrite Ei1, Ei0. split; [by rewrite <-!app_assoc|].
  exists vs'. split; [|done]. rewrite others_keep; [done|right; left].
Qed.

(** Opening a database applies, in order, exactly the migrations newer
    than every recorded one, each followed by its record, within one
    transaction; and once that is done no later opening applies any of them
    again, whatever codes the migrations themselves returned. *)
Theorem migrations_run_once c c' :
  let vs := default [] (versions (db c)) in
  Forall (λ v, 0 < v < 2 ^ 31) vs → inserts_succeed → apply_migrations c = (c', true) →
  issued c' = issued c ++ preamble ++ script (due vs MIGRATIONS) ++ [(sql_commit, [])] ∧
  ∀ c1 c1', db c1 = db c' → apply_migrations c1 = (c1', true) →
    issued c1' = issued c1 ++ preamble ++ [(sql_commit, [])].
Proof.
  intros vs Hvs Hok Hc. apply apply_migrations_spec in Hc as (Hi & vs' & Hv' & Hn); [|done].
  split; [done|]. intros c1 c1' Hdb Hc1. specialize (Hn Hok). fold vs in Hn.
  assert (Forall (λ v, 0 < v < 2 ^ 31) vs') as Hvs'.
  { subst vs'. apply Forall_app. split; [|done]. apply Forall_reverse, Forall_fmap, Forall_forall.
    intros m [_ Hm]%list_elem_of_filter. unfold MIGRATIONS in Hm.
    repeat (apply elem_of_cons in Hm as [->|Hm]; [cbn; lia|]). by apply not_elem_of_nil in Hm. }
  apply apply_migrations_spec in Hc1 as [-> _]; rewrite Hdb, Hv'; [|done]. change (default [] (Some vs')) with vs'.
  assert (due vs' MIGRATIONS = []) as ->; [|done].
  unfold due. apply filter_none. intros m Hm Hlt.
  destruct (decide (newest vs < version m)) as [Hd|Hd].
  - assert (version m ∈ vs') as Hin%newest_elem; [|lia]. subst vs'. apply elem_of_app. left.
    apply elem_of_reverse, list_elem_of_fmap_2, list_elem_of_filter. done.
  - assert (newest vs ≤ newest vs'); [|lia]. subst vs'. clear.
    unfold newest. induction (reverse _) as [|w l IH]; cbn in *; lia.
Qed.
End migrations.

(** ** Policies read from the tables *)

Section policies.
Context `{Sqlite}.
Implicit Types (d : Db) (appid : string).

(** The row that speaks for a name: its own, or that of [unknown]; an outer
    nothing when a query throws. *)
Definition speaking {R} (row : string → option (option R)) appid : option (option (string * R)) :=
  match row appid with
  | None => None
  | Some (Some r) => Some (Some (appid, r))
  | Some None =>
      match row unknown with
      | None => None
      | Some (Some r) => Some (Some (unknown, r))
      | Some None => Some None
      end
  end.

Lemma get_app_settings_speaking n d appid :
  (2 ≤ n)%nat →
  get_app_settings n d appid = Some
    (match speaking (app_row d) appid with
     | None => inr Thrown
     | Some r => inl ((λ '(name, row), read_settings name row) <$> r)
     end).
Proof.
  intros Hn. destruct n as [|[|n]]; [lia|lia|]. unfold speaking. cbn [get_app_settings].
  destruct (app_row d appid) as [[row|]|] eqn:E; [done| |done].
  rewrite (bool_decide_eq_true_2 (unknown = unknown)) by done.
  destruct (bool_decide_reflect (appid = unknown)) as [->|]; [by rewrite E|].
  by destruct (app_row d unknown) as [[row|]|].
Qed.

Lemma get_auth_provider_speaking n d appid t :
  (2 ≤ n)%nat →
  get_auth_provider n d appid t = Some
    (match speaking (λ a, provider_row d a t) appid with
     | None => inr Thrown
     | Some r => inl ((λ '(_, row), read_provider row) <$> r)
     end).
Proof.
  intros Hn. destruct n as [|[|n]]; [lia|lia|]. unfold speaking. cbn [get_auth_provider].
  destruct (provider_row d appid t) as [[row|]|] eqn:E; [done| |done].
  rewrite (bool_decide_eq_true_2 (unknown = unknown)) by done.
  destruct (bool_decide_reflect (appid = unknown)) as [->|]; [by rewrite E|].
  by destruct (provider_row d unknown t) as [[row|]|].
Qed.

(** The words of a query, which spaces and commas separate. *)
Fixpoint words_from (word s : string) : list string :=
  let close := if empty_str word then [] else [word] in
  match s with
  | EmptyString => close
  | String c s =>
      if (code_of c =? 32) || (code_of c =? 44) then close ++ words_from EmptyString s
      else words_from (word +:+ String c EmptyString) s
  end.

Fixpoint until (stop : string) (l : list string) : list string :=
  match l with
  | [] => []
  | x :: l => if bool_decide (x = stop) then [] else x :: until stop l
  end.

(** The names of the columns a query selects: its words from the second on
    until [FROM]. *)
Definition selected (query : string) : list string :=
  until "FROM" (tail (words_from EmptyString query)).

(** The cell of a row in the column of a name, as a number and as a text: a
    missing or null cell is 0 and empty. *)
Definition cell_named (query : string) (row : list sql_value) (name : string) : option sql_value :=
  '(i, _) ← list_find (λ n, n = name) (selected query); row !! i.
Definition number_named query row name : Z :=
  from_option (λ v, s32 (sqlite3_value_int64 v)) 0 (cell_named query row name).
Definition text_named query row name : string :=
  from_option string_of_ptr EmptyString (cell_named query row name ≫= sqlite3_value_text).

(** The settings the row of an application describes, column by column,
    under a process-wide limit on the peers of a room (0 for none). *)
Record described_settings (limit : Z) (appid : string) (row : list sql_value) (s : AppSettings) : Prop := {
  described_appid : set_appid s = appid;
  described_auth : auth_mode s = u32 (number_named sql_app_settings row "auth_mode");
  described_friends : allow_find_friends s = true ↔
    number_named sql_app_settings row "allow_find_friends" ≠ 0;
  described_mode : let z := number_named sql_app_settings row "custom_anonymous_uid_mode" in
    0 ≤ custom_anonymous_uid_mode s ≤ ForceRandom ∧
    (0 ≤ z ≤ ForceRandom → custom_anonymous_uid_mode s = z) ∧
    (z < 0 → custom_anonymous_uid_mode s = 0) ∧
    (ForceRandom < z → custom_anonymous_uid_mode s = ForceRandom);
  described_prefix : anonymous_uid_prefix s = text_named sql_app_settings row "anonymous_uid_prefix";
  described_peers : max_peers_ s = u32 (number_named sql_app_settings row "max_peers");
  described_room : let z := u32 (number_named sql_app_settings row "max_peers_per_game") in
    max_peers_per_game s =
      if bool_decide (limit = 0) then z
      else if bool_decide (z = 0) then limit else Z.min z limit;
  described_games : max_game_count s = u32 (number_named sql_app_settings row "max_game_count");
  described_master : allow_change_master s = true ↔
    number_named sql_app_settings row "allow_change_master" ≠ 0;
}.

Lemma selected_settings : selected sql_app_settings =
  ["auth_mode"; "allow_find_friends"; "custom_anonymous_uid_mode"; "anonymous_uid_prefix";
   "max_peers"; "max_peers_per_game"; "max_game_count"; "allow_change_master"]%stdpp.
Proof. by vm_compute. Qed.

Lemma number_at (i : nat) (name : string) row :
  list_find (λ n, n = name) (selected sql_app_settings) = Some (i, name) →
  number_named sql_app_settings row name = get_int row i.
Proof.
  unfold number_named, cell_named, get_int, column. intros ->. cbn. by destruct (row !! i).
Qed.

Lemma text_at (i : nat) (name : string) row :
  list_find (λ n, n = name) (selected sql_app_settings) = Some (i, name) →
  text_named sql_app_settings row name = get_string row i.
Proof.
  unfold text_named, cell_named, get_string, get_ptr, column. intros ->. cbn.
  destruct (row !! i) as [v|]; [|done]. cbn. by destruct (sqlite3_value_text v).
Qed.

(** Settings the members can hold. *)
Definition settings_ok (s : AppSettings) : Prop :=
  0 ≤ auth_mode s < 2 ^ 32 ∧ 0 ≤ custom_anonymous_uid_mode s ≤ ForceRandom ∧
  0 ≤ max_peers_ s < 2 ^ 32 ∧ 0 ≤ max_peers_per_game s < 2 ^ 32 ∧
  0 ≤ max_game_count s < 2 ^ 32.

Lemma clamp_range z lo hi : lo ≤ hi → lo ≤ clamp z lo hi ≤ hi.
Proof. unfold clamp. destruct (Z.ltb_spec z lo), (Z.ltb_spec hi z); lia. Qed.

Lemma read_settings_ok appid row : settings_ok (read_settings appid row).
Proof.
  unfold settings_ok, read_settings, ForceRandom. cbn.
  pose proof (clamp_range (get_int row 2) 0 2 ltac:(lia)).
  rewrite (wrap_small 32 (clamp _ _ _)) by lia.
  repeat split; apply wrap_range || lia; lia.
Qed.

(** Names that agree up to their first NUL are spoken for by one row. *)
Lemma speaking_c_string d appid appid' :
  string_of_ptr appid = string_of_ptr appid' →
  app_row d appid = app_row d appid'.
Proof. unfold app_row. by intros ->. Qed.
End policies.

Section admission.
Context `{Ser, Codes, AuthCodes, SettingsSource, SqlLobbies, Transports, Sqlite, !Authenticators}.
Implicit Types (d : Db).

(** The directory and the authentication read this database, without a hook
    in front of it. *)
Definition reads_settings d : Prop :=
  (∀ info s, load_hook info s = (s, false, false)) ∧
  ∃ f, settings_manager = Some f ∧
    ∀ appid, get_app_settings 2 d appid = Some (inl (f appid)).
Definition reads_providers d : Prop :=
  ∃ f, Authentication.get_auth_provider = Some f ∧
    ∀ appid t, get_auth_provider 2 d appid t = Some (inl (f appid t)).

Lemma load_from_database d info :
  reads_settings d →
  load_app_settings info default_settings =
  match speaking (app_row d) (app_id info) with
  | Some (Some (name, row)) => (enforce_global_config (read_settings name row), true)
  | _ => (default_settings, false)
  end.
Proof.
  intros (Hhook & f & Hf & Hd). unfold load_app_settings. rewrite Hhook, Hf.
  specialize (Hd (app_id info)). rewrite get_app_settings_speaking in Hd by lia.
  destruct (speaking (app_row d) (app_id info)) as [[[name row]|]|]; [| |discriminate Hd];
    injection Hd as <-; reflexivity.
Qed.

Lemma read_described appid row :
  described_settings max_game_peers_ appid row (enforce_global_config (read_settings appid row)).
Proof.
  pose proof (number_at 0 "auth_mode" row ltac:(by vm_compute)) as N0.
  pose proof (number_at 1 "allow_find_friends" row ltac:(by vm_compute)) as N1.
  pose proof (number_at 2 "custom_anonymous_uid_mode" row ltac:(by vm_compute)) as N2.
  pose proof (text_at 3 "anonymous_uid_prefix" row ltac:(by vm_compute)) as N3.
  pose proof (number_at 4 "max_peers" row ltac:(by vm_compute)) as N4.
  pose proof (number_at 5 "max_peers_per_game" row ltac:(by vm_compute)) as N5.
  pose proof (number_at 6 "max_game_count" row ltac:(by vm_compute)) as N6.
  pose proof (number_at 7 "allow_change_master" row ltac:(by vm_compute)) as N7.
  assert (∃ n, enforce_global_config (read_settings appid row) =
    read_settings appid row <| max_peers_per_game := n |> ∧
    n = (if bool_decide (max_game_peers_ = 0) then u32 (get_int row 5)
         else if bool_decide (u32 (get_int row 5) = 0) then max_game_peers_
         else Z.min (u32 (get_int row 5)) max_game_peers_)) as (n & -> & Hn).
  { unfold enforce_global_config. destruct (Z.eqb_spec max_game_peers_ 0) as [E|E]; cbn [negb].
    - rewrite bool_decide_eq_true_2 by done. by eexists.
    - rewrite bool_decide_eq_false_2 by done. eexists. split; [done|].
      change (max_peers_per_game (read_settings appid row)) with (u32 (get_int row 5)).
      destruct (Z.eqb_spec (u32 (get_int row 5)) 0); case_bool_decide; done. }
  split; rewrite ?N0, ?N1, ?N2, ?N3, ?N4, ?N5, ?N6, ?N7; cbn zeta; try done; cbn.
  - rewrite negb_true_iff, Z.eqb_neq. done.
  - pose proof (clamp_range (get_int row 2) 0 2 ltac:(lia)). unfold ForceRandom.
    rewrite wrap_small by lia. unfold clamp in *.
    destruct (Z.ltb_spec (get_int row 2) 0), (Z.ltb_spec 2 (get_int row 2)); lia.
  - rewrite negb_true_iff, Z.eqb_neq. done.
Qed.

(** C32: With a settings database, looking up an application nobody has open
    opens it exactly when the database lists it or lists [unknown], and with
    the settings that row describes: each column selected by name goes to the
    setting of that name, numbers wrapped to 32 bits, flags set when not 0,
    the mode of anonymous names the closest one the server knows, and the
    peers of a room within the process-wide limit, which also stands in for
    no limit. *)
Theorem database_admits_application d (D : Directory) info :
  dir_ok D → reads_settings d → (∀ a, app_key D a ≠ Some (key_of info)) →
  match get D (key_of info), speaking (app_row d) (app_id info) with
  | (D', Some a), Some (Some (name, row)) =>
      ∃ app, app_heap D' !! a = Some app ∧ app_ident app = info ∧
        described_settings max_game_peers_ name row (settings_ app)
  | (_, None), Some None => True
  | _, _ => False
  end.
Proof.
  intros Hok Hd Hno. unfold get.
  destruct (try_get_ok D (key_of info) Hok) as [-> Hk].
  destruct (x ← apps D !! key_of info; x) as [a|].
  { by destruct (Hno a); apply Hk. }
  replace (mkAppInfo (key_of info).1 (key_of info).2) with info by (by destruct info).
  rewrite (load_from_database d info Hd).
  destruct Hd as (_ & f & _ & Hf). specialize (Hf (app_id info)).
  rewrite get_app_settings_speaking in Hf by lia.
  destruct (speaking (app_row d) (app_id info)) as [[[name row]|]|]; cbn; [|done|discriminate Hf].
  upd. rewrite lookup_insert_eq. eexists. split; [done|]. cbn.
  split; [done|]. apply read_described.
Qed.

(** With a settings database, a client of an application that demands a
    proven identity is identified exactly when it names a user and a plugin
    vouches for it: one registered for the requested mechanism, which the row
    of the application, or that of [unknown] when it has none, allows; the
    plugin is given that row's secret and URL. *)
Theorem strict_login_needs_provider d (s : AppSettings) (fs : list ViewField) drawn uid' :
  reads_providers d →
  auth_mode s ≠ Weak → auth_mode s ≠ Anonymous ∨ got TByte KeyClientAuthenticationType fs ≠ 0 →
  let t : Z := got TByte KeyClientAuthenticationType fs in
  identify s fs drawn = inl uid' ↔
  t ≠ 0 ∧ ∃ uid name row (plugins : gmap Z AuthCallback) (callback : AuthCallback),
    get_field TString KeyUserId fs = Some uid ∧ uid ≠ EmptyString ∧
    speaking (λ a, provider_row d a t) (set_appid s) = Some (Some (name, row)) ∧
    get_int row 0 ≠ 0 ∧
    auth_plugins = Some (Some plugins) ∧ plugins !! t = Some callback ∧
    callback uid (got TString KeyClientAuthenticationParameters fs)
      (default EmptyString (get_ptr row 2)) (get_ptr row 1) (get_ptr row 2) = inl uid'.
Proof.
  intros (f & Hf & Hd) Hweak Hanon t. unfold identify. fold t.
  rewrite (proj2 (Z.eqb_neq _ _) Hweak). cbn [orb].
  assert ((auth_mode s =? Anonymous) && (t =? 0) = false) as ->.
  { apply andb_false_iff. destruct Hanon as [?|?]; [left|right]; by apply Z.eqb_neq. }
  specialize (Hd (set_appid s) t). rewrite get_auth_provider_speaking in Hd by lia.
  rewrite Hf. change ((f ← Some f; f (set_appid s) t)) with (f (set_appid s) t).
  destruct (Z.eqb_spec t 0) as [Ht|Ht]; [naive_solver|].
  destruct (get_field TString KeyUserId fs) as [uid|]; [|naive_solver].
  destruct (empty_str uid) eqn:Eu.
  { destruct uid; [naive_solver|done]. }
  assert (uid ≠ EmptyString) as Hu by (by intros ->).
  destruct (speaking _ _) as [[[name row]|]|]; [| |discriminate Hd]; injection Hd as <-; [|naive_solver].
  cbn [is_allowed read_provider secret auth_url]. rewrite negb_involutive.
  destruct (Z.eqb_spec (get_int row 0) 0) as [Ha|Ha]; [naive_solver|].
  unfold call. destruct auth_plugins as [[plugins|]|]; [|naive_solver..].
  destruct (plugins !! t) as [callback|] eqn:Ec.
  - split.
    + intros Hc. split; [done|]. exists uid, name, row, plugins, callback. repeat split; done.
    + intros (_ & ? & ? & ? & ? & cb & [= <-] & _ & [= <- <-] & _ & [= <-] & Hc & Hi).
      pose proof (eq_trans (eq_sym Ec) Hc) as [= ->]. exact Hi.
  - split; [done|].
    intros (_ & ? & ? & ? & ? & cb & _ & _ & _ & _ & [= <-] & Hc & _).
    by pose proof (eq_trans (eq_sym Ec) Hc).
Qed.
End admission.
