(* ===== verification/HandlerEntry.v ===== *)
(** * From the door to the room

    Models [handler_nameserver.cpp] and the part of [handler_gameserver.cpp]
    around the room's own requests: authentication, the room the client was
    sent to, and joining without having been sent. *)

From S2P Require Import Prelude Values Types GameState GameMembers GameProps GameEvents GameSteps PeerPersistence ServerManager Directory Release DataModel HandlerGame HandlerGameSafety HandlerBase Authentication Program.
Open Scope Z_scope.

(** ** The surroundings of a request *)

(** What a handler reads from the server while it runs: the configuration,
    the choices drawn, the connections, the rooms mirrored from other
    processes and the clock. *)
Record Surroundings `{Ser, Transports} := mkSurroundings {
  listeners : list ServerConfig;
  draw_server : nat → nat;
  client_transport : ServerProtocol;
  max_connections : Z;
  connection_count : Z;
  drawn_user_id : string;
  drawn_token : string;
  live_peers : PeerEnv;
  external_games_ : list game_ptr;
  clock : Z;
}.

Section name_server.
Context `{Ser, Codes, AuthCodes, SettingsSource, SqlLobbies, Transports, !Authenticators}.
Context (S : Surroundings).
Implicit Types (req : Request).

Abbreviation N := (Prog AuthWorld ServerOut).

(** The applications that identities hold, other than the one on its way. *)
Definition held_by_identities (w : AuthWorld) (a : app_ptr) : bool :=
  existsb (λ pp, bool_decide (pp_app pp = Some a)) (peer_persistent_data (registry w))
  || existsb (λ kv : peer_ptr * Peer, bool_decide (persistent kv.2 ≫= pp_app = Some a))
       (map_to_list (live_peers S))
  || bool_decide (own w ≫= pp_app = Some a).

(** [authenticate] as a program. *)
Definition authenticating req (refresh_token : bool) : N (ErrorCode * ParameterList) := λ w,
  let '(w, resp, msgs) :=
    authenticate (held_by_identities w) (max_connections S) (connection_count S)
      (drawn_user_id S) (drawn_token S) req refresh_token w in
  (w, Ipc_ <$> msgs, Some resp).

Definition master_address (draw : nat → nat) : option string :=
  get_random_server_address (listeners S) draw MasterServer (client_transport S).

(** <src/handler_nameserver.cpp:22-43 HandleOperationRequest> *)
Definition name_authenticate req : N () :=
  resp ⇐ authenticating req true;
  w ⇐ get;
  params ⇐ (if bool_decide (resp.1 = Ok) then
              match own w, master_address (draw_server S) with
              | None, _ => say [Crash NullDereference] ;;; stop
              | Some _, None => say [Crash Thrown] ;;; stop
              | Some pp, Some address =>
                  ret (<[KeyAddress := of_string address]>
                         (<[KeyUserId := of_string (user_id pp)]> resp.2))
              end
            else ret resp.2);
  say [Respond (operation_code req) resp.1 params 0] ;;;
  when (bool_decide (own w = None)) (say [HangUp]).

Definition region_names : list string :=
  ["asia"; "au"; "cae"; "cn"; "eu"; "hk"; "in"; "jp"; "za"; "sa"; "kr"; "tr"; "uae"; "us";
   "usw"; "ussc"]%string.

(** <src/handler_nameserver.cpp:45-63 HandleOperationRequest>
    [draws i] are the choices of the [i]-th address. *)
Definition get_regions (draws : nat → nat → nat) : N () :=
  match mapM master_address (draws <$> seq 0 (length region_names)) with
  | None => say [Crash Thrown]
  | Some addresses =>
      say [Respond OpGetRegions Ok
             (<[KeyAddress := of_strings addresses]> (<[KeyRegion := of_strings region_names]> ∅)) 0]
  end.

(** <src/handler_nameserver.cpp:15-69 NameServerHandler::HandleOperationRequest> *)
Definition name_request (draws : nat → nat → nat) req : N () :=
  w ⇐ get;
  let authenticated := bool_decide (is_Some (own w)) in
  if negb (channel_id req =? 0) || authenticated then say (base_request req authenticated)
  else match operation_code req with
  | OpAuthenticate | OpAuthenticateOnce => name_authenticate req
  | OpGetRegions => get_regions draws
  | _ => say (base_request req authenticated)
  end.
End name_server.

(** ** The game server *)

Record EntryWorld `{Ser} := mkEntry {
  auth : AuthWorld;
  front : Handler;
  current_game : option game_ptr;
  allow_unsolicited_ : bool;
}.
#[export] Instance eta_EntryWorld `{Ser} : Eta EntryWorld := λ w,
  mkEntry _ (auth w) (front w) (current_game w) (allow_unsolicited_ w).

Section game_server.
Context `{Ser, Codes, AuthCodes, SettingsSource, SqlLobbies, Transports, !Authenticators}.
Context `{!Wire, !Plugins}.
Context (S : Surroundings).
(** What [req.parameters[Token]] leaves of the parameters: the library's
    [operator[]] may insert a null value. *)
Context (touch : ParameterList → ParameterList).
Implicit Types (req : Request) (w : EntryWorld).

Abbreviation G := (Prog EntryWorld ServerOut).

Definition on_auth (f : AuthWorld → AuthWorld) : G () := modify (λ w, w <| auth ::= f |>).
Definition on_own (f : PeerPersistent → PeerPersistent) : G () :=
  on_auth (λ a, a <| own ::= fmap f |>).
Definition answer req (rc : ErrorCode) (ch : Z) : G () :=
  say [Respond (operation_code req) rc ∅ ch].

(** [is_created] and [is_creating] of a room. *)
Definition room_state (d : Directory) (gm : game_ptr) : bool * bool :=
  match game_heap d !! gm with Some g => (is_created g, is_creating g) | None => (false, false) end.

(** <include/luxon/server/server_manager.hpp:369-376 ServerManager::is_game_external> *)
Definition is_game_external (gm : game_ptr) : bool := bool_decide (gm ∈ external_games_ S).

(** <src/handler_gameserver.cpp:262-289 HandleOperationRequest>
    The room the identity was invited to becomes the connection's. *)
Definition enter_room req : G () :=
  w ⇐ get;
  match own (auth w) with
  | None => say [HangUp]
  | Some pp =>
      match find_room (listeners S) (held_by_identities S (auth w)) (directory (auth w))
              (invitation pp) with
      | inr f => say [Crash f] ;;; stop
      | inl (d, found, ns) =>
          on_auth (λ a, a <| directory := d |>) ;;; say (Notify <$> ns) ;;;
          match found with
          | inl None =>
              on_own (reset_owned_game_if_created (room_state d)) ;;; say [Crash NullDereference]
          | inl (Some gm) =>
              on_own (reset_owned_game_if_created (room_state d)) ;;;
              if is_game_external gm then
                answer req ServerForbidden (channel_id req) ;;; say [HangUp]
              else
                modify (λ w, w <| current_game := Some gm |>
                               <| front ::= λ h, h <| current_game_ := true |> |>)
          | inr _ =>
              on_own reset_game ;;;
              answer req ServerForbidden (channel_id req) ;;; say [HangUp]
          end
      end
  end.

(** <src/handler_gameserver.cpp:228-290 HandleOperationRequest> *)
Definition entry_authenticate req : G () :=
  w ⇐ get;
  let params := r_parameters req in
  let req := mkRequest (operation_code req) (touch params) (is_encrypted req)
               (channel_id req) (delivery req) in
  if match params !! KeyToken ≫= get_string with
     | Some t => negb (has_persistent_peer (registry (auth w)) t)
     | None => false
     end
  then match pending_authentication_ (front w) with
       | Some _ => answer req OperationNotAllowedInCurrentState (channel_id req)
       | None => modify (λ w, w <| front ::= λ h, h <| pending_authentication_ :=
                                 Some (mkPendingAuth req (clock S)) |> |>)
       end
  else
    resp ⇐ (λ w, let '(a, out, r) := authenticating S req false (auth w) in
                 (w <| auth := a |>, out, r));
    say [Respond (operation_code req) resp.1
           (if bool_decide (resp.1 = Ok) then <[KeyPosition := of_int32 0]> resp.2 else resp.2)
           0] ;;;
    enter_room req.

(** The room with its application's settings and its lobby's identification. *)
Definition room_context (d : Directory) (gm : game_ptr) :
    option (Game * AppSettings * LobbyInfo) :=
  g ← game_heap d !! gm; lobby ← lobby_heap d !! game_lobby g;
  place ← room_app d lobby; Some (g, settings_ place.2, get_lobby_info place.2 lobby).

Definition translate (gm : game_ptr) (o : Out) : list ServerOut :=
  match o with
  | Reply op rc params ch => [Respond op rc params ch]
  | Emit e => [RoomEffect gm e]
  | Disconnect => [HangUp]
  | BaseRequest req => base_request req true
  | BaseDisconnect => []
  | Throw => [Crash Thrown]
  end.

(** The live peers, this one carrying its own identity. *)
Definition peers_with_me w : PeerEnv :=
  let p := this_peer (front w) in
  <[p := mkPeer (from_option protocol 0%nat (live_peers S !! p)) (own (auth w))]> (live_peers S).

(** A program of [HandlerGame] on the room in the heap. *)
Definition in_room {A} gm (m : PeerEnv → AppSettings → LobbyInfo → M A) : G A := λ w,
  match room_context (directory (auth w)) gm with
  | None => (w, [Crash NullDereference], None)
  | Some (g, settings, info) =>
      let '(w', out, r) :=
        m (peers_with_me w) settings info
          (mkWorld (front w) g (mkJoinLocals false 0 false false [])) in
      (w <| front := handler w' |>
         <| auth ::= λ a, a <| directory ::= λ d, d <| game_heap ::= <[gm := room w']> |> |> |>,
       mjoin (translate gm <$> out), r)
  end.

(** [app.get_lobby()->create_game(id, "", true)]; the lobby is let go. *)
Definition unsolicited_room (held : app_ptr → bool) d a (game_id : string) :
    Directory * (option game_ptr + ErrorCode) * list Notice + Fault :=
  match get_lobby d a (EmptyString, 0) with
  | inr f => inr f
  | inl (d, l) =>
      match create_game (listeners S) d l game_id EmptyString true with
      | inr f => inr f
      | inl (d, r, ns) => inl (release_lobby held d l, r, ns)
      end
  end.

(** <src/handler_gameserver.cpp:1110-1151 HandleOperationRequest>
    A room made only to be named in the invitation is destroyed with the
    pointer, unless the invitation owns it. *)
Definition unsolicited req (again : Request → G ()) : G () :=
  match decode join_model (r_parameters req) with
  | inl _ => answer req OperationInvalid 0
  | inr fs =>
      w ⇐ get;
      match (pp ← own (auth w); a ← pp_app pp; app ← app_heap (directory (auth w)) !! a; Some (a, app)) with
      | None => say [Crash NullDereference]
      | Some (a, app) =>
          let game_id := got TString KeyGameId fs in
          let creating := bool_decide (operation_code req = OpCreateGame) in
          let known := bool_decide (is_Some (games_ app !! game_id)) in
          target ⇐ (match games_ app !! game_id with
                    | Some gm => ret (alive (game_heap (directory (auth w))) (Some gm))
                    | None =>
                        if creating || negb (got TByte KeyCreateIfNotExists fs =? 0) then
                          match unsolicited_room (held_by_identities S (auth w))
                                  (directory (auth w)) a game_id with
                          | inr f => say [Crash f] ;;; stop
                          | inl (d, r, ns) =>
                              on_auth (λ a, a <| directory := d |>) ;;; say (Notify <$> ns) ;;;
                              match r with
                              | inr rc => answer req rc 0 ;;; stop
                              | inl gm => ret gm
                              end
                          end
                        else answer req GameIdNotExists (channel_id req) ;;; stop
                    end);
          w ⇐ get;
          match target ≫= room_context (directory (auth w)), target with
          | Some (g, _, info), Some gm =>
              on_own (invite_game gm (get_game_info info g) creating) ;;;
              modify (λ w, w <| allow_unsolicited_ := false |>) ;;;
              (if known || creating then ret ()
               else match release_room (held_by_identities S (auth w)) (directory (auth w)) gm with
                    | inr f => say [Crash f] ;;; stop
                    | inl (d, ns, msgs) =>
                        on_auth (λ a, a <| directory := d |>) ;;;
                        say ((Notify <$> ns) ++ (Ipc_ <$> msgs))
                    end) ;;;
              again req
          | _, _ => say [Crash NullDereference]
          end
      end
  end.

(** <src/handler_gameserver.cpp:204-228 GameServerHandler::HandleOperationRequest>
    With the conditions that follow the first switch (1110-1112, 1154).
    The handler calls itself at most once, for it clears
    [allow_unsolicited_] before: two levels are enough. *)
Definition game_request_once req (again : Request → G ()) : G () :=
  w ⇐ get;
  match own (auth w) with
  | None =>
      if negb (channel_id req =? 0) then say (base_request req false)
      else match operation_code req with
      | OpAuthenticate | OpAuthenticateOnce => entry_authenticate req
      | _ => say (base_request req false)
      end
  | Some _ =>
      match current_game w with
      | Some gm => in_room gm (λ env s i, room_request env s i req (clock S))
      | None =>
          if allow_unsolicited_ w
             && bool_decide (operation_code req = OpJoinGame ∨ operation_code req = OpCreateGame)
          then unsolicited req again
          else say (base_request req true)
      end
  end.

(** <src/handler_gameserver.cpp:1149-1150 GameServerHandler::HandleOperationRequest>
    The recursive call. *)
Fixpoint game_request (depth : nat) req : G () :=
  match depth with
  | O => stop
  | Datatypes.S depth => game_request_once req (game_request depth)
  end.

(** <src/handler_gameserver.cpp:52-72 GameServerHandler::HandleSlowUpdate>
    Before the connection has a room; [HandlerGame.poll_authentication] is the
    same in one.  The value is a request to handle now. *)
Definition poll_arrival : G (option Request) :=
  w ⇐ get;
  match pending_authentication_ (front w) with
  | None => ret None
  | Some pa =>
      let clear := modify (λ w, w <| front ::= λ h, h <| pending_authentication_ := None |> |>) in
      if match r_parameters (pa_request pa) !! KeyToken ≫= get_string with
         | Some tok => has_persistent_peer (registry (auth w)) tok
         | None => false
         end
      then clear ;;; ret (Some (pa_request pa))
      else if 2000 <=? clock S - pa_wait_started pa then
        say [Respond (operation_code (pa_request pa)) AuthenticationTokenExpired ∅ 0; HangUp] ;;;
        clear ;;; stop
      else ret None
  end.

(** <src/handler_gameserver.cpp:50-110 GameServerHandler::HandleSlowUpdate>
    A join waits in a room only. *)
Definition game_slow_update : G () :=
  arrived ⇐ poll_arrival;
  match arrived with
  | Some req => game_request 2 req
  | None =>
      w ⇐ get;
      match current_game w with
      | None => ret ()
      | Some gm =>
          r ⇐ in_room gm (λ _ _ _, poll_join (clock S));
          match r with Some req => game_request 2 req | None => ret () end
      end
  end.
End game_server.

(** What reaches a game server's connection, when. *)
Inductive Input `{Ser} := Ask (req : Request) | Tick.

Definition at_time `{Ser, Transports} (S : Surroundings) (now : Z) : Surroundings :=
  mkSurroundings _ _ (listeners S) (draw_server S) (client_transport S) (max_connections S)
    (connection_count S) (drawn_user_id S) (drawn_token S) (live_peers S) (external_games_ S) now.

Definition game_input `{Ser, Codes, AuthCodes, SettingsSource, SqlLobbies, Transports, !Authenticators,
    !Wire, !Plugins} (S : Surroundings) (touch : ParameterList → ParameterList) (w : EntryWorld)
    (i : Z * Input) : EntryWorld * list ServerOut :=
  (match i.2 with
   | Ask req => game_request (at_time S i.1) touch 2 req
   | Tick => game_slow_update (at_time S i.1) touch
   end w).1.

(** ** What the entry promises *)

Create HintDb entry.

Section facts.
Context `{SerLaws, CodesLaws, AuthCodes, SettingsSource, SqlLobbies, Transports, !Authenticators}.
Context `{!Wire, !Plugins, !PluginsLaws}.
Context (S : Surroundings) (touch : ParameterList → ParameterList).
Implicit Types (req : Request) (w : EntryWorld).

(** The directory is sound and the connection's room is one of its live
    rooms, not a mirrored one. *)
Definition entry_ok w : Prop :=
  dir_ok (directory (auth w)) ∧
  ∀ gm, current_game w = Some gm →
    is_Some (game_heap (directory (auth w)) !! gm) ∧ gm ∉ external_games_ S.

Abbreviation G := (Prog EntryWorld ServerOut).
Abbreviation keeps := (λ m : G (), holds entry_ok (λ _, True) m (λ _ _, True)).


Lemma entry_on_auth f :
  (∀ w, entry_ok w → dir_ok (directory (f (auth w))) ∧
     keeps_rooms (directory (auth w)) (directory (f (auth w)))) →
  keeps (on_auth f).
Proof.
  intros Hf. apply holds_modify. intros w Hw _. split; [|done].
  destruct (Hf w Hw) as [Hd Hk]. destruct Hw as [_ Hg]. split; [done|].
  intros gm Hgm. destruct (Hg gm Hgm). split; [by apply Hk|done].
Qed.

Lemma entry_on_own f : keeps (on_own f).
Proof. apply entry_on_auth. intros w [Hd _]. split; [done|]. by intros gm. Qed.

(** The directory replaced by one computed from the current world. *)
Lemma entry_set_directory w d :
  dir_ok d → keeps_rooms (directory (auth w)) d →
  holds entry_ok (λ w', w' = w) (on_auth (λ a, a <| directory := d |>))
    (λ _ w', directory (auth w') = d ∧ current_game w' = current_game w).
Proof.
  intros Hd Hk. apply holds_modify. intros w' [_ Hg] ->. split; [|done].
  split; [done|]. intros gm Hgm. destruct (Hg gm Hgm). split; [by apply Hk|done].
Qed.

Lemma entry_answer P req rc ch : holds entry_ok P (answer req rc ch) (λ _ _, True).
Proof. apply holds_say_any. Qed.
#[local] Hint Resolve holds_say_any holds_any holds_stop entry_on_own entry_answer : entry.

Lemma keeps_enter_room req : keeps (enter_room S req).
Proof.
  unfold enter_room. apply holds_get_bind. intros w [Hd Hg] _.
  destruct (own (auth w)) as [pp|]; [|auto with entry].
  destruct (find_room _ _ _ _) as [[[d found] ns]|f] eqn:Hf.
  2: { apply holds_seq; auto with entry. }
  destruct (find_room_keeps _ _ _ _ _ _ _ Hd Hf) as [Hk Hfound].
  eapply holds_bind; [by apply entry_set_directory; [by eapply find_room_ok|]|]. intros [].
  eapply holds_bind; [apply holds_say|]. intros [].
  destruct found as [[gm|]|rc].
  - eapply (holds_bind _ _ (λ _ w', directory (auth w') = d)).
    { apply holds_modify. intros w' [Hd' Hg'] [Ew _]. split; [by split|done]. }
    intros []. destruct (is_game_external S gm) eqn:Hext.
    { apply holds_seq; auto with entry. }
    apply holds_modify. intros w' [Hd' Hg'] Ew. split; [|done]. split; [done|].
    intros gm' [= <-]. split; [|by apply bool_decide_eq_false in Hext].
    change (is_Some (game_heap (directory (auth w')) !! gm)). rewrite Ew. auto.
  - apply holds_seq; auto with entry.
  - do 2 (apply holds_seq; auto with entry).
Qed.

(** Authenticating touches the directory only by applications coming and
    going. *)
Lemma keeps_authenticating req refresh :
  holds entry_ok (λ _, True)
    (λ w, let '(a, out, r) := authenticating S req refresh (auth w) in
          (w <| auth := a |>, out, r) : EntryWorld * list ServerOut * option _)
    (λ _ _, True).
Proof.
  intros w [Hd Hg] _. unfold authenticating.
  pose proof (authenticate_directory (held_by_identities S (auth w)) (max_connections S)
    (connection_count S) (drawn_user_id S) (drawn_token S) req refresh (auth w) Hd) as (Hd' & Eh & _).
  destruct (authenticate _ _ _ _ _ _ _ _) as [[a resp] msgs]. cbn [fst snd] in *.
  split; [|done]. split; [done|]. intros gm Hgm.
  change (is_Some (game_heap (directory a) !! gm) ∧ gm ∉ external_games_ S).
  rewrite Eh. by apply Hg.
Qed.

Lemma keeps_front f : keeps (modify (λ w, w <| front ::= f |>)).
Proof. by apply holds_modify. Qed.
#[local] Hint Resolve keeps_front keeps_enter_room : entry.

Lemma keeps_entry_authenticate req : keeps (entry_authenticate S touch req).
Proof.
  unfold entry_authenticate. apply holds_get_bind. intros w _ _.
  destruct (match _ ≫= get_string with Some t => _ | None => false end).
  { destruct (pending_authentication_ (front w)); auto with entry. }
  apply holds_any. eapply holds_bind; [apply keeps_authenticating|]. intros resp.
  apply holds_seq; auto with entry.
Qed.

Lemma room_context_live d gm :
  dir_ok d → is_Some (game_heap d !! gm) → is_Some (room_context d gm).
Proof.
  intros Hd [g Hg]. destruct (dir_room _ Hd _ _ Hg) as (_ & _ & lobby & Hl & _).
  destruct (room_app_ok _ _ _ Hd Hl) as (app & Ha & _).
  unfold room_context. rewrite Hg. cbn. rewrite Hl. cbn. rewrite Ha. by eexists.
Qed.

(** What the handler does in the room changes it through its own operations. *)
Lemma keeps_in_room {A} P gm (m : PeerEnv → AppSettings → LobbyInfo → M A) :
  (∀ env s i, safe None (λ _, True) (m env s i) (λ _ _, True)) →
  holds entry_ok P (in_room S gm m) (λ _ _, True).
Proof.
  intros Hm.
  intros w [Hd Hg] _. unfold in_room.
  destruct (room_context _ gm) as [[[g s] i]|] eqn:Hr; [|by split].
  assert (game_heap (directory (auth w)) !! gm = Some g) as Hgm.
  { unfold room_context in Hr. destruct (game_heap _ !! gm) as [g'|]; [|done]. cbn in Hr.
    destruct (lobby_heap _ !! _) as [lobby|]; [|done]. cbn in Hr.
    destruct (room_app _ _) as [[a app]|]; [|done]. cbn in Hr. by injection Hr as ->. }
  set (w0 := mkWorld _ _ _). pose proof (dir_sound _ Hd _ _ Hgm) as [Hok Hl].
  destruct (Hm (peers_with_me S w) s i w0 ltac:(done) ltac:(done)) as (Hsteps & _ & _).
  destruct (m _ _ _ w0) as [[w1 out] r]. cbn [fst snd] in *.
  split; [|done]. split.
  - exact (room_changes_ok (listeners S) _ _ _ _ Hd Hgm Hsteps).
  - intros gm' Hgm'. destruct (Hg gm' Hgm'). split; [|done].
    apply lookup_insert_is_Some'. by right.
Qed.

Lemma keeps_base req b : keeps (say (base_request req b)).
Proof. apply holds_say_any. Qed.

(** Outside a room nothing has to stay alive. *)
Definition roomless w : Prop := current_game w = None.

Lemma roomless_set_directory (w0 : EntryWorld) d :
  dir_ok d →
  holds entry_ok roomless (on_auth (λ a, a <| directory := d |>)) (λ _, roomless).
Proof.
  intros Hd. apply holds_modify. intros w Hw Hn. split; [|done]. split; [done|].
  intros gm Hgm. unfold roomless in Hn. change (current_game w = Some gm) in Hgm. congruence.
Qed.

Lemma unsolicited_room_ok held d a game_id d' r ns :
  dir_ok d → unsolicited_room S held d a game_id = inl (d', r, ns) → dir_ok d'.
Proof.
  intros Hok. unfold unsolicited_room.
  destruct (get_lobby d a _) as [[d1 l]|f] eqn:El; [|done].
  destruct (create_game _ _ _ _ _ _) as [[[d2 r2] ns2]|f] eqn:Ec; [|done].
  intros [= <- _ _]. eapply release_lobby_ok, create_game_ok; [|done].
  by eapply get_lobby_ok.
Qed.

Lemma roomless_say out : holds entry_ok roomless (say out : G ()) (λ _, roomless).
Proof. apply holds_say. Qed.

(** A step that leaves the directory and the room pointer alone. *)
Lemma roomless_modify f :
  (∀ w, directory (auth (f w)) = directory (auth w) ∧ current_game (f w) = current_game w) →
  holds entry_ok roomless (modify f : G ()) (λ _, roomless).
Proof.
  intros Hf. apply holds_modify. intros w [Hd Hg] Hn. destruct (Hf w) as [Ed Eg].
  unfold entry_ok, roomless. rewrite Ed, Eg. split; [by split|exact Hn].
Qed.

Lemma keeps_unsolicited req again :
  holds entry_ok roomless (again req) (λ _ _, True) →
  holds entry_ok roomless (unsolicited S req again) (λ _ _, True).
Proof.
  intros Hagain. unfold unsolicited. destruct (decode _ _) as [e|fs]; [apply entry_answer|].
  apply holds_get_bind. intros w [Hd _] Hn.
  destruct (pp ← own (auth w); _) as [[a app]|]; [|auto with entry].
  eapply (holds_bind _ _ (λ _, roomless)).
  { apply (holds_weaken _ roomless _ _ (λ _, roomless)); [|by intros ? ->|done].
    destruct (games_ app !! _); [by apply holds_ret|].
    destruct (_ || _); [|by eapply holds_bind; [apply roomless_say|intros; apply holds_stop]].
    destruct (unsolicited_room _ _ _ _ _) as [[[d r] ns]|f] eqn:Eu.
    2: { by eapply holds_bind; [apply roomless_say|intros; apply holds_stop]. }
    eapply holds_bind; [by eapply roomless_set_directory, unsolicited_room_ok|]. intros [].
    eapply holds_bind; [apply roomless_say|]. intros [].
    destruct r as [gm|rc]; [by apply holds_ret|].
    by eapply holds_bind; [apply roomless_say|intros; apply holds_stop]. }
  intros target. apply holds_get_bind. intros w1 [Hd1 _] Hn1.
  destruct (target ≫= _) as [[[g s] i]|]; [|auto with entry].
  destruct target as [gm|]; [|auto with entry].
  apply (holds_weaken _ roomless _ _ (λ _ _, True)); [|by intros ? ->|done].
  eapply holds_bind; [by apply roomless_modify|]. intros [].
  eapply holds_bind; [by apply roomless_modify|]. intros [].
  eapply (holds_bind _ _ (λ _, roomless)); [|by intros []].
  destruct (_ || _); [by apply holds_ret|].
  destruct (release_room _ _ _) as [[[d ns] msgs]|f] eqn:Er.
  2: { by eapply holds_bind; [apply roomless_say|intros; apply holds_stop]. }
  eapply holds_bind; [by eapply roomless_set_directory, release_room_ok|]. intros [].
  apply roomless_say.
Qed.

Lemma keeps_request_once req again :
  holds entry_ok roomless (again req) (λ _ _, True) →
  keeps (game_request_once S touch req again).
Proof.
  intros Hagain. unfold game_request_once. apply holds_get_bind. intros w _ _.
  destruct (own (auth w)).
  - destruct (current_game w) as [gm|] eqn:Hc.
    { apply keeps_in_room. intros. apply safe_room_request. }
    destruct (_ && _); [|apply holds_any, keeps_base].
    eapply holds_weaken; [by apply keeps_unsolicited|by intros ? ->|done].
  - destruct (negb _); [apply holds_any, keeps_base|]. apply holds_any.
    destruct (operation_code req); auto using keeps_base, keeps_entry_authenticate.
Qed.

Lemma keeps_game_request depth req : keeps (game_request S touch depth req).
Proof.
  revert req. induction depth as [|depth IH]; intros req; [apply holds_stop|].
  by apply keeps_request_once, holds_any.
Qed.

Lemma keeps_game_slow_update : keeps (game_slow_update S touch).
Proof.
  unfold game_slow_update. eapply (holds_bind _ _ (λ _ _, True)).
  { unfold poll_arrival. apply holds_get_bind. intros w _ _.
    destruct (pending_authentication_ (front w)) as [pa|]; [|by apply holds_ret].
    destruct (match _ with Some tok => _ | None => _ end).
    { apply holds_seq; [apply holds_any, keeps_front|by apply holds_ret]. }
    destruct (_ <=? _); [|by apply holds_ret].
    apply holds_seq; [auto with entry|]. apply holds_seq; [auto with entry|apply holds_stop]. }
  intros [req|]; [apply keeps_game_request|]. apply holds_get_bind. intros w _ _.
  destruct (current_game w) as [gm|]; [|by apply holds_ret].
  eapply holds_bind; [apply keeps_in_room; intros; apply safe_poll_join|].
  intros [req|]; [apply keeps_game_request|by apply holds_ret].
Qed.
End facts.

Section connection.
Context `{SerLaws, CodesLaws, AuthCodes, SettingsSource, SqlLobbies, Transports, !Authenticators}.
Context `{!Wire, !Plugins, !PluginsLaws}.
Context (S : Surroundings) (touch : ParameterList → ParameterList).
Implicit Types (req : Request) (w : EntryWorld).

(** C22: Whatever a client of the game server sends, authenticated or not, in
    a room or not, and whenever the server looks at what is pending, the
    directory stays sound: names stay unique, every live room keeps its
    invariant, and a connection's room is a live one that no other process
    owns. *)
Theorem game_server_keeps_directory (inputs : list (Z * Input)) w :
  entry_ok S w →
  entry_ok S (foldl (λ w i, (game_input S touch w i).1) w inputs).
Proof.
  revert w. induction inputs as [|[now [req|]] inputs IH]; intros w Hw; [done| |];
    cbn [foldl]; apply IH.
  - exact (proj1 (keeps_game_request (at_time S now) touch 2 req w Hw Logic.I)).
  - exact (proj1 (keeps_game_slow_update (at_time S now) touch w Hw Logic.I)).
Qed.

Lemma poll_arrival_spec (S' : Surroundings) w pa tok :
  pending_authentication_ (front w) = Some pa →
  r_parameters (pa_request pa) !! KeyToken = Some (of_string tok) →
  let gone := w <| front ::= λ h, h <| pending_authentication_ := None |> |> in
  poll_arrival S' w =
  if has_persistent_peer (registry (auth w)) tok then (gone, [], Some (Some (pa_request pa)))
  else if 2000 <=? clock S' - pa_wait_started pa
  then (gone, [Respond (operation_code (pa_request pa)) AuthenticationTokenExpired ∅ 0; HangUp], None)
  else (w, [], Some None).
Proof.
  intros Hp Ht. unfold poll_arrival, bind, get. rewrite Hp, Ht. cbn [mbind option_bind].
  rewrite acc_get. destruct (has_persistent_peer _ _); [done|]. by destruct (_ <=? _).
Qed.

(** A client that presents a token before the identity has arrived waits.  At
    each look at what is pending: when the identity has arrived, the request
    is handled as if it came only then; after two seconds the client is told
    that its token has expired, and sent off; and until then nothing happens. *)
Theorem early_client_waits req tok w t0 :
  own (auth w) = None → pending_authentication_ (front w) = None → current_game w = None →
  channel_id req = 0 → operation_code req = OpAuthenticate ∨ operation_code req = OpAuthenticateOnce →
  r_parameters req !! KeyToken = Some (of_string tok) → touch (r_parameters req) = r_parameters req →
  has_persistent_peer (registry (auth w)) tok = false →
  let '(w1, out) := game_input S touch w (t0, Ask req) in
  out = [] ∧ auth w1 = auth w ∧
  ∀ a t,
    let w2 := w1 <| auth := a |> in
    game_input S touch w2 (t, Tick) =
    if has_persistent_peer (registry a) tok then game_input S touch (w <| auth := a |>) (t, Ask req)
    else if decide (2000 ≤ t - t0)
    then (w <| auth := a |>,
          [Respond (operation_code req) AuthenticationTokenExpired ∅ 0; HangUp])
    else (w2, []).
Proof.
  intros Hown Hpend Hcur Hch Hop Htok Htouch Hunknown.
  assert (game_input S touch w (t0, Ask req) =
    (w <| front ::= λ h, h <| pending_authentication_ := Some (mkPendingAuth req t0) |> |>, [])) as E.
  { unfold game_input. cbn [snd fst game_request]. unfold game_request_once, bind, get at 1.
    rewrite Hown, Hch. change (negb (0 =? 0)) with false. cbv iota.
    assert (entry_authenticate (at_time S t0) touch req w =
      (w <| front ::= λ h, h <| pending_authentication_ := Some (mkPendingAuth req t0) |> |>, [], Some ())) as Ea.
    { unfold entry_authenticate, bind, get. rewrite Htok. cbn [mbind option_bind].
      rewrite acc_get, Hunknown. cbn [negb]. rewrite Hpend, Htouch. by destruct req. }
    destruct Hop as [-> | ->]; by rewrite Ea. }
  rewrite E. split; [done|]. split; [done|]. intros a t. cbn zeta.
  set (w2 := _ <| auth := a |>). unfold game_input at 1. cbn [snd fst]. unfold game_slow_update, bind at 1.
  rewrite (poll_arrival_spec (at_time S t) w2 (mkPendingAuth req t0) tok eq_refl Htok).
  change (registry (auth w2)) with (registry a). cbn [clock at_time pa_wait_started pa_request].
  assert (w2 <| front ::= λ h, h <| pending_authentication_ := None |> |> = w <| auth := a |>) as ->.
  { destruct w as [aw f c al]. destruct f. cbn in Hpend. by subst. }
  destruct (has_persistent_peer (registry a) tok) eqn:Hk.
  - unfold game_input. cbn [snd fst]. by destruct (game_request _ _ _ _ _) as [[??]?].
  - destruct (decide _) as [Hd|Hd].
    + by rewrite (proj2 (Z.leb_le _ _)).
    + rewrite (proj2 (Z.leb_gt _ _)) by lia. unfold bind, get.
      change (current_game w2) with (current_game w). by rewrite Hcur.
Qed.
End connection.

Section facts.
Context `{SerLaws, CodesLaws, AuthCodes, SettingsSource, SqlLobbies, Transports, !Authenticators}.
Context `{!Wire, !Plugins, !PluginsLaws}.
Context (S : Surroundings) (touch : ParameterList → ParameterList).
Implicit Types (req : Request) (w : EntryWorld).
Abbreviation G := (Prog EntryWorld ServerOut).

(** *** Joining without having been sent *)

(** An authenticated connection that is in no room. *)
Definition outside w : Prop := current_game w = None ∧ is_Some (own (auth w)).

Definition no_success (out : list ServerOut) : Prop :=
  ∀ op ps ch, Respond op Ok ps ch ∉ out.

(** The program leaves the connection outside and reports no success. *)
Definition stays_outside {A} (m : G A) : Prop :=
  ∀ w, outside w → outside (m w).1.1 ∧ no_success (m w).1.2.

Lemma no_success_app l1 l2 : no_success l1 → no_success l2 → no_success (l1 ++ l2).
Proof. intros H1' H2' op ps ch [?|?]%elem_of_app; [by eapply H1'|by eapply H2']. Qed.

Lemma stays_bind {A B} (m : G A) (f : A → G B) :
  stays_outside m → (∀ x, stays_outside (f x)) → stays_outside (bind m f).
Proof.
  intros Hm Hf w Hw. unfold bind. destruct (Hm w Hw) as [Hw1 Ho].
  destruct (m w) as [[w1 out] [x|]]; [|done]. cbn in *.
  destruct (Hf x w1 Hw1) as [Hw2 Ho2]. destruct (f x w1) as [[w2 out2] r].
  split; [done|by apply no_success_app].
Qed.

Lemma stays_say out : no_success out → stays_outside (say out).
Proof. by intros Ho w Hw. Qed.

Lemma stays_quiet {A} (r : option A) : stays_outside (λ w, (w, [], r)).
Proof. intros w Hw. split; [done|]. intros op ps ch Hin. by apply elem_of_nil in Hin. Qed.

Lemma stays_modify f :
  (∀ w, outside w → outside (f w)) → stays_outside (modify f).
Proof.
  intros Hf w Hw. split; [by apply Hf|]. intros op ps ch Hin. by apply elem_of_nil in Hin.
Qed.

Lemma stays_get {A} (f : EntryWorld → G A) :
  (∀ w, stays_outside (f w)) → stays_outside (bind get f).
Proof.
  intros Hf. apply stays_bind; [|done]. intros w Hw. split; [done|].
  intros op ps ch Hin. by apply elem_of_nil in Hin.
Qed.

Lemma no_success_base req b : no_success (base_request req b).
Proof.
  unfold base_request, no_success. intros op ps ch.
  destruct (negb _); [|destruct (_ && _)]; set_solver.
Qed.

Lemma no_success_answer req rc ch : rc ≠ Ok → no_success [Respond (operation_code req) rc ∅ ch].
Proof. intros Hrc op ps c [= _ E _ _]%list_elem_of_singleton. by subst. Qed.

Lemma create_game_refusal configs d l i address or_get d' rc ns :
  create_game configs d l i address or_get = inl (d', inr rc, ns) → rc ≠ Ok.
Proof.
  unfold create_game. intros E. repeat case_match; simplify_eq; done.
Qed.

Lemma no_success_notify ns msgs :
  no_success ((Notify <$> ns) ++ (Ipc_ <$> msgs)).
Proof.
  intros op ps ch [Hin|Hin]%elem_of_app; by apply list_elem_of_fmap in Hin as (? & ? & _).
Qed.

Lemma stays_unsolicited req again :
  stays_outside (again req) → stays_outside (unsolicited S req again).
Proof.
  intros Hagain. unfold unsolicited.
  assert (∀ f, stays_outside (say [Crash f])) as Hcrash.
  { intros f. apply stays_say. intros op ps ch. set_solver. }
  assert (∀ d, stays_outside (on_auth (λ a, a <| directory := d |>))) as Hdir.
  { intros d. by apply stays_modify. }
  assert (∀ ns, stays_outside (say (Notify <$> ns))) as Hns.
  { intros ns. apply stays_say. intros op ps ch Hin. by apply list_elem_of_fmap in Hin as (? & ? & _). }
  destruct (decode _ _); [by apply stays_say, no_success_answer|].
  apply stays_get. intros w. destruct (pp ← own (auth w); _) as [[a app]|]; [|done].
  apply stays_bind.
  - destruct (games_ app !! _); [apply stays_quiet|].
    destruct (_ || _);
      [|apply stays_bind; [by apply stays_say, no_success_answer|intros; apply stays_quiet]].
    destruct (unsolicited_room _ _ _ _ _) as [[[d r] ns]|f] eqn:Eu;
      [|apply stays_bind; [done|intros; apply stays_quiet]].
    apply stays_bind; [done|intros _]. apply stays_bind; [done|intros _].
    destruct r as [gm|rc]; [apply stays_quiet|].
    apply stays_bind; [|intros; apply stays_quiet]. apply stays_say, no_success_answer.
    unfold unsolicited_room in Eu. destruct (get_lobby _ _ _) as [[d1 lb]|]; [|done].
    destruct (create_game _ _ _ _ _ _) as [[[d2 r2] ns2]|] eqn:Ec; [|done].
    injection Eu as _ -> _. by eapply create_game_refusal.
  - intros target. apply stays_get. intros w1.
    destruct (target ≫= _) as [[[g s] i]|]; [|done]. destruct target as [gm|]; [|done].
    apply stays_bind; [|intros _; apply stays_bind; [by apply stays_modify|intros _]].
    { apply stays_modify. intros w2 [Hc [pp Hpp]]. split; [done|].
      change (is_Some (invite_game gm (get_game_info i g)
        (bool_decide (operation_code req = OpCreateGame)) <$> own (auth w2))). by rewrite Hpp. }
    apply stays_bind; [|done]. destruct (_ || _); [apply stays_quiet|].
    destruct (release_room _ _ _) as [[[d ns] msgs]|f];
      [|apply stays_bind; [done|intros; apply stays_quiet]].
    apply stays_bind; [done|intros _]. apply stays_say, no_success_notify.
Qed.

(** C23: Joining or creating a room without having been sent to it never works:
    an authenticated connection that is in no room stays in none, whatever it
    requests, and is never answered with success, for the handler sets the
    invitation but not the connection's room before it calls itself. *)
Theorem unsolicited_never_joins req w :
  outside w →
  let r := game_request S touch 2 req w in
  outside r.1.1 ∧ no_success r.1.2.
Proof.
  assert (∀ again, stays_outside (again req) →
    stays_outside (game_request_once S touch req again)) as Hone.
  { intros again Hagain v Hv. unfold game_request_once, bind, get.
    pose proof Hv as [Hc [pp Hpp]]. rewrite Hpp, Hc. destruct (_ && _).
    - pose proof (stays_unsolicited req again Hagain v Hv) as Hs.
      by destruct (unsolicited S req again v) as [[??]?].
    - split; [done|]. apply no_success_base. }
  apply (Hone (game_request S touch 1)), (Hone (game_request S touch 0)), stays_quiet.
Qed.

Lemma bind_cong {A B} (m : G A) (f g : A → G B) w :
  (∀ x, (m w).2 = Some x → f x (m w).1.1 = g x (m w).1.1) → bind m f w = bind m g w.
Proof.
  intros Hx. unfold bind. destruct (m w) as [[w1 out] [x|]]; [|done].
  cbn in Hx. by rewrite (Hx x eq_refl).
Qed.

(** The handler's second level never calls itself. *)
Lemma unsolicited_again req a1 a2 w :
  (∀ v, allow_unsolicited_ v = false → a1 req v = a2 req v) →
  unsolicited S req a1 w = unsolicited S req a2 w.
Proof.
  intros Ha. unfold unsolicited. destruct (decode _ _); [done|].
  apply bind_cong. intros w0 _. destruct (pp ← own (auth w0); _) as [[a app]|]; [|done].
  apply bind_cong. intros target _. apply bind_cong. intros w1 _.
  destruct (target ≫= _) as [[[g s] i]|]; [|done]. destruct target as [gm|]; [|done].
  apply bind_cong. intros [] _. apply bind_cong. intros [] _. apply bind_cong. intros [] E.
  apply Ha. revert E. destruct (_ || _); [done|].
  by destruct (release_room _ _ _) as [[[d ns] msgs]|f].
Qed.

Lemma two_levels_enough n req w :
  game_request S touch (2 + n) req w = game_request S touch 2 req w.
Proof.
  cbn [game_request Nat.add]. apply bind_cong. intros w0 _.
  destruct (own (auth w0)); [|done]. destruct (current_game w0); [done|].
  destruct (_ && _); [|done]. apply unsolicited_again. intros v Hv.
  apply bind_cong. intros v0 [= <-]. cbn.
  destruct (own (auth v)); [|done]. destruct (current_game v); [done|]. by rewrite Hv.
Qed.

(** *** Arriving without an invitation *)

Lemma parked_known r t pp : parked r t = Some pp → has_persistent_peer r t = true.
Proof.
  intros [Hin Ht]%find_first_Some. apply existsb_exists. exists pp.
  by rewrite <-list_elem_of_In.
Qed.

(** A client that holds a parked identity without an invitation, one that
    goes from the name server straight to a game server, makes the game
    server dereference a null pointer when its settings database does not
    know an application with an empty id. *)
Theorem uninvited_client_crashes req w tok pp :
  let nobody := mkAppInfo EmptyString EmptyString in
  own (auth w) = None → registry_ok (registry (auth w)) →
  dir_ok (directory (auth w)) → sqlite_ready = true →
  below (max_connections S) (connection_count S) →
  channel_id req = 0 → operation_code req = OpAuthenticate ∨ operation_code req = OpAuthenticateOnce →
  r_parameters req !! KeyToken = Some (of_string tok) →
  touch (r_parameters req) = r_parameters req →
  parked (registry (auth w)) tok = Some pp → invitation pp = no_game_info →
  (∀ a, app_key (directory (auth w)) a ≠ Some (key_of nobody)) →
  (load_app_settings nobody default_settings).2 = false →
  Crash NullDereference ∈ (game_request S touch 2 req w).1.2.
Proof.
  intros nobody Hown Hr Hd Hsql Hlim Hch Hop Htok Htouch Hp Hinv Hno Hload.
  cbn [game_request]. unfold game_request_once at 1. unfold bind at 1, get at 1. rewrite Hown, Hch.
  change (negb (0 =? 0)) with false. cbv iota.
  enough (Crash NullDereference ∈ (entry_authenticate S touch req w).1.2) as Hin
    by (destruct Hop as [-> | ->]; by destruct (entry_authenticate S touch req w) as [[??]?]).
  clear Hop. unfold entry_authenticate. unfold bind at 1, get at 1. rewrite Htok. cbn [mbind option_bind].
  rewrite acc_get, (parked_known _ _ _ Hp). cbn [negb].
  set (req' := mkRequest _ _ _ _ _).
  assert (r_parameters req' !! KeyToken = Some (of_string tok)) as Htok'
    by (subst req'; cbn [r_parameters]; by rewrite Htouch).
  destruct (authenticate_parked (held_by_identities S (auth w)) _ _ (drawn_user_id S)
    (drawn_token S) req' false (auth w) _ _ Hr Hlim Htok' Hp) as (r2 & _ & _ & E).
  unfold bind at 1, authenticating. rewrite E. cbn zeta.
  set (a := auth w <| registry := r2 |> <| own := Some pp |>).
  unfold bind at 1, say at 1. unfold enter_room, bind at 1, get at 1.
  change (own (auth (w <| auth := a |>))) with (Some pp). cbv iota.
  assert (find_room (listeners S) (held_by_identities S a) (directory (auth w)) (invitation pp)
    = inr NullDereference) as Hf.
  { unfold find_room, get_lobby_by_info. rewrite Hinv. cbn [gi_lobby no_game_info li_app no_lobby_info].
    destruct (get_spec (directory (auth w)) nobody Hd) as [_ Hg].
    change no_app_info with nobody.
    destruct (Directory.get _ (key_of nobody)) as [d' [x|]]; [|done].
    exfalso. by discriminate (proj2 Hg (conj Hno Hload)). }
  change (find_room (listeners S) (held_by_identities S (auth (w <| auth := a |>)))
    (directory (auth (w <| auth := a |>)))) with
    (find_room (listeners S) (held_by_identities S a) (directory (auth w))).
  rewrite Hf. unfold bind, say, stop. cbn. in_list. tauto.
Qed.

(** *** The name server *)

(** What the name server answers an unauthenticated client that
    authenticates on channel 0, while no plugin refuses with success.  Let in,
    the client is told its user id, its token and the address of a configured
    master server or of its proxy for the client's transport (without one the
    lookup throws and nothing is answered); turned away, it is told why and
    disconnected. *)
Theorem name_server_sends_on draws req (w : AuthWorld) :
  own w = None → registry_ok (registry w) → ¬ careless_plugin →
  channel_id req = 0 → operation_code req = OpAuthenticate ∨ operation_code req = OpAuthenticateOnce →
  let '(w', out, _) := name_request S draws req w in
  ∃ msgs, match own w' with
  | Some pp =>
      match master_address S (draw_server S) with
      | Some address =>
          out = (Ipc_ <$> msgs) ++ [Respond (operation_code req) Ok
            (<[KeyAddress := of_string address]> (<[KeyUserId := of_string (user_id pp)]>
               (<[KeyToken := of_string (token pp)]> ∅))) 0] ∧
          ∃ c, c ∈ listeners S ∧ config_type c = MasterServer ∧
            (address = external_address c ∨ ∃ p, p ∈ proxies c ∧
               proxy_protocol p = client_transport S ∧ proxy_address p = address)
      | None => out = (Ipc_ <$> msgs) ++ [Crash Thrown]
      end
  | None => ∃ rc ps, rc ≠ Ok ∧
      out = (Ipc_ <$> msgs) ++ [Respond (operation_code req) rc ps 0; HangUp]
  end.
Proof.
  intros Hown Hr Hplug Hch Hop.
  assert (name_request S draws req w = name_authenticate S req w) as ->.
  { unfold name_request, bind, get. rewrite Hown, Hch. cbn.
    destruct Hop as [-> | ->]; by destruct (name_authenticate S req w) as [[??]?]. }
  unfold name_authenticate, authenticating, bind at 1.
  destruct (authenticate _ _ _ _ _ _ _ w) as [[w' [rc ps]] msgs] eqn:E.
  pose proof (authentication_outcome _ _ _ _ _ _ _ _ _ _ _ _ Hr Hown E) as Hspec.
  unfold bind, get. cbn [fst snd].
  destruct (own w') as [pp|] eqn:Ho.
  - destruct Hspec as (-> & -> & _). rewrite bool_decide_eq_true_2 by done.
    destruct (master_address S (draw_server S)) as [address|] eqn:Ea; cbn; rewrite ?Ho; cbn;
      exists msgs; rewrite ?app_nil_r; [|done]. split; [done|].
    destruct (random_address_listed _ _ _ _ _ Ea) as (c & ? & ? & _ & Hc).
    exists c. do 2 (split; [done|]). destruct Hc as [?|(_ & p & ? & ? & ?)]; eauto.
  - destruct Hspec as (_ & -> & Hok).
    assert (rc ≠ Ok) as Hrc by (intros ->; auto). rewrite bool_decide_eq_false_2 by done.
    cbn. rewrite Ho. exists []. by exists rc, ps.
Qed.
End facts.
