(* ===== verification/MasterLists.v ===== *)
(** * What the master server tells about rooms

    Models the reading half of [handler_masterserver.cpp]: the list of rooms
    of a lobby, the statistics of lobbies and applications, the batched
    updates of a subscribed client and the choice of a room for matchmaking.
    Sorting, random draws and the lobby's database are parameters. *)

From S2P Require Import Prelude Values Types GameState GameProps GameMembers GameSteps ServerManager Directory DataModel HandlerGame.
From Stdlib Require String OrdersEx.
Open Scope Z_scope.

(** The codes only the master server uses. *)
Class MasterCodes := {
  KeyLobbyStats : Z;
  KeyGameList : Z;
  KeyGameCount : Z;
  KeyPeerCount : Z;
  KeyMasterPeerCount : Z;
  KeyMatchmakingType : Z;
  KeyFindFriendsRequestList : Z;
  KeyFindFriendsOptions : Z;
  KeyFindFriendsResponseOnlineList : Z;
  KeyFindFriendsResponseRoomIdList : Z;
  EvGameList : Z;
  EvAppStats : Z;
  EvLobbyStats : Z;
  DefaultLobby : Z;
  lobby_types : list Z;
  RandomMatching : Z;
  SerialMatching : Z;
  FillRoom : Z;
  FindFriendsDefault : Z;
  FriendsCreatedOnGS : Z;
  FriendsVisible : Z;
  FriendsOpen : Z;
}.

(** They are the enumerators of one type. *)
Class MasterCodesLaws `{MasterCodes} : Prop :=
  matchmaking_nodup : NoDup [SerialMatching; FillRoom; RandomMatching].

(** [std::ranges::sort] with a comparator: a sorted permutation, whatever it
    does with equivalent elements. *)
Class Sorting := { sort {A} : (A → A → bool) → list A → list A }.

(** What its documentation promises for a strict weak order. *)
Class SortingLaws `{Sorting} : Prop := {
  sort_perm {A} (less : A → A → bool) l : sort less l ≡ₚ l;
  sort_sorted {A} (less : A → A → bool) l :
    (∀ x y z, less y x = false → less z y = false → less z x = false) →
    (∀ x y, less x y = true → less y x = false) →
    StronglySorted (λ x y, less y x = false) (sort less l);
}.

(** <include/luxon/server/handler_masterserver.hpp:40-43 MasterServerHandler::GameListUpdate> *)
Inductive QueuedChange :=
  | QueuedUpdate (gm : game_ptr)
  | QueuedDelete (game_id : string).

Section lists.
Context `{Ser, Codes, MasterCodes, SqlLobbies, !Sorting}.
Implicit Types (d : Directory) (g : Game) (lobby : Lobby).

Abbreviation room_ref := (game_ptr * Game)%type.

(** The rooms of a lobby that are still alive, in the list's order. *)
Definition live_games d lobby : list room_ref :=
  omap (λ gm, g ← game_heap d !! gm; Some (gm, g)) (games lobby).

(** *** The list of rooms *)

(** <src/handler_masterserver.cpp:931-941 MasterServerHandler::get_game_list>
    Open and not full, then full, then closed. *)
Definition get_group g : Z :=
  let state := get_config_snapshot g in
  if cs_is_open state && ((cs_max_peers state =? 0) || (cs_peer_count state <? cs_max_peers state))
  then 0
  else if negb (cs_is_open state) then 2
  else 1.

(** [operator<] of strings. *)
Definition string_less (a b : string) : bool :=
  match OrdersEx.String_as_OT.compare a b with Lt => true | _ => false end.

(** <src/handler_masterserver.cpp:930-950 MasterServerHandler::get_game_list> *)
Definition listed_before (a b : room_ref) : bool :=
  let group_a := get_group a.2 in
  let group_b := get_group b.2 in
  if negb (group_a =? group_b) then group_a <? group_b
  else string_less (id a.2) (id b.2).

(** [emplace] of a room's properties under its id. *)
Definition add_to_list (fres : Hashtable) (r : room_ref) : Hashtable :=
  match fres !! of_string (id r.2) with
  | Some _ => fres
  | None => <[of_string (id r.2) := of_table (get_lobby_game_props r.2)]> fres
  end.

Definition max_entries : nat := 500.

(** <src/handler_masterserver.cpp:904-917 MasterServerHandler::get_game_list> *)
Definition listable d lobby (game_filter : Game → bool) : list room_ref :=
  filter (λ r, is_joinable r.2 && game_filter r.2 = true) (live_games d lobby).

(** <src/handler_masterserver.cpp:893-957 MasterServerHandler::get_game_list> *)
Definition get_game_list d lobby (joined : bool) (game_filter : Game → bool) : Hashtable :=
  if negb joined then ∅
  else match listable d lobby game_filter with
  | [] => ∅
  | [r] => add_to_list ∅ r
  | rs => foldl add_to_list ∅ (take max_entries (sort listed_before rs))
  end.

(** *** Statistics *)

(** <src/handler_masterserver.cpp:840-869 MasterServerHandler::get_lobby_stats>
    The application's lobbies are visited in the table's order. *)
Definition get_lobby_stats d (app : App) (lobby_filter : Lobby → bool) : ParameterList :=
  let ls := filter (λ lobby, lobby_filter lobby = true)
              (omap (λ kv : (string * Z) * lobby_ptr, lobby_heap d !! kv.2)
                 (map_to_list (lobbies_ app))) in
  <[KeyLobbyName := of_strings (lobby_name <$> ls)]>
    (<[KeyLobbyType := of_bytes (lobby_type <$> ls)]>
       (<[KeyGameCount := of_ints ((λ lobby, s32 (len (games lobby))) <$> ls)]>
          (<[KeyPeerCount := of_ints ((λ lobby, s32 (lobby_peer_count d lobby)) <$> ls)]> ∅))).

(** <src/handler_masterserver.cpp:268-274 HandleOperationRequest> *)
Definition stats_filter (name : option string) (type : option Z) (lobby : Lobby) : bool :=
  match name with Some n => bool_decide (lobby_name lobby = n) | None => true end
  && match type with Some t => lobby_type lobby =? t | None => true end.

(** Whether clients may hear of a room. *)
Definition announced g : bool := is_created g && is_visible g.

(** <src/handler_masterserver.cpp:818-837 MasterServerHandler::send_app_stats>
    [game_peers] and [master_peers] are the connections to game and master
    servers. *)
Definition app_stats d (game_peers master_peers : Z) : ParameterList :=
  let rooms :=
    a ← get_all d;
    match app_heap d !! a with
    | None => []
    | Some app =>
        kv ← map_to_list (lobbies_ app);
        match lobby_heap d !! kv.2 with
        | None => []
        | Some lobby => filter (λ r, announced r.2 = true) (live_games d lobby)
        end
    end in
  <[KeyMasterPeerCount := of_int32 (s32 master_peers)]>
    (<[KeyPeerCount := of_int32 (s32 game_peers)]>
       (<[KeyGameCount := of_int32 (s32 (len rooms))]> ∅)).

(** *** Batched updates *)

Definition removed_props : Hashtable := <[of_byte Removed := of_bool true]> ∅.

(** <src/handler_masterserver.cpp:116-136 MasterServerHandler::HandleSlowUpdate>
    A room that died meanwhile is left to its deletion notice. *)
Definition batch_one d (game_list : Hashtable) (c : QueuedChange) : Hashtable :=
  match c with
  | QueuedUpdate gm =>
      match game_heap d !! gm with
      | None => game_list
      | Some g =>
          <[of_string (id g) :=
              of_table (if announced g then get_lobby_game_props g else removed_props)]> game_list
      end
  | QueuedDelete game_id => <[of_string game_id := of_table removed_props]> game_list
  end.

Definition batched d (pending : list QueuedChange) : Hashtable := foldl (batch_one d) ∅ pending.

(** <src/handler_masterserver.cpp:798-813 MasterServerHandler::join_lobby>
    What a notice from the lobby adds to the queue; only lobbies of the
    default type are followed. *)
Definition on_notice (type : Z) (changed : game_ptr + string) (pending : list QueuedChange) :
    list QueuedChange :=
  if negb (type =? DefaultLobby) then pending
  else match changed with
  | inl gm => if len pending <? 500 then pending ++ [QueuedUpdate gm] else pending
  | inr game_id => pending ++ [QueuedDelete game_id]
  end.

(** *** Matchmaking *)

Section matchmaking.
Context (settings : AppSettings) (env : PeerEnv) (user : string).

(** <src/handler_masterserver.cpp:585-588 HandleOperationRequest> *)
Definition can_join g : bool :=
  is_joinable g && bool_decide (validate_join_count settings env g user 0 false = Ok).

(** <src/handler_masterserver.cpp:577-594 HandleOperationRequest>
    The first room of the query's answer that can be joined. *)
Definition select_sql d (app : App) (game_ids : list string) : option game_ptr :=
  fst <$> find_first (λ r : room_ref, can_join r.2)
    (omap (λ i, gm ← games_ app !! i; g ← game_heap d !! gm; Some (gm, g)) game_ids).

(** <src/handler_masterserver.cpp:606-628 HandleOperationRequest> *)
Definition candidates d lobby (expected_props : Hashtable) : list room_ref :=
  filter (λ r, can_join r.2 && expect_game_props r.2 expected_props = true) (live_games d lobby).

Definition fewer_peers (a b : room_ref) : bool :=
  cs_peer_count (get_config_snapshot a.2) <? cs_peer_count (get_config_snapshot b.2).

(** <src/handler_masterserver.cpp:633-658 HandleOperationRequest>
    [pick n] draws an index below [n]. *)
Definition choose (pick : nat → nat) (matchmaking : Z) (cs : list room_ref) : option game_ptr :=
  fst <$> match cs with
  | [] => None
  | _ =>
      if matchmaking =? SerialMatching then head (sort fewer_peers cs)
      else if matchmaking =? FillRoom then head (sort (λ a b, fewer_peers b a) cs)
      else if matchmaking =? RandomMatching then cs !! pick (length cs)
      else None
  end.
End matchmaking.
End lists.

(** ** What is listed and chosen *)

Section facts.
Context `{SerLaws, Codes, MasterCodesLaws, SqlLobbies, !Sorting, !SortingLaws}.
Implicit Types (d : Directory) (g : Game) (lobby : Lobby).

Abbreviation room_ref := (game_ptr * Game)%type.

Lemma live_games_spec d lobby gm g :
  (gm, g) ∈ live_games d lobby ↔ gm ∈ games lobby ∧ game_heap d !! gm = Some g.
Proof.
  unfold live_games. rewrite list_elem_of_omap. split.
  - intros (x & Hx & E). destruct (game_heap d !! x) as [g'|] eqn:Hg; [|done].
    cbn in E. by injection E as -> ->.
  - intros [Hin Hg]. exists gm. by rewrite Hg.
Qed.

Lemma string_less_spec a b : string_less a b = true ↔ OrdersEx.String_as_OT.lt a b.
Proof. unfold string_less, OrdersEx.String_as_OT.lt. by destruct (OrdersEx.String_as_OT.compare a b). Qed.

Lemma string_less_false a b : string_less a b = false ↔ a = b ∨ OrdersEx.String_as_OT.lt b a.
Proof.
  unfold string_less. destruct (OrdersEx.String_as_OT.compare_spec a b) as [E|E|E]; split; auto.
  - done.
  - intros [->|E']; exfalso; eapply (irreflexivity OrdersEx.String_as_OT.lt); [exact E|].
    by etransitivity.
Qed.

(** The comparator of the list is a strict weak order. *)
Lemma listed_before_weak x y z :
  listed_before y x = false → listed_before z y = false → listed_before z x = false.
Proof.
  unfold listed_before.
  destruct (Z.eqb_spec (get_group y.2) (get_group x.2)) as [E1|N1],
    (Z.eqb_spec (get_group z.2) (get_group y.2)) as [E2|N2],
    (Z.eqb_spec (get_group z.2) (get_group x.2)) as [E3|N3]; cbn [negb];
    rewrite ?string_less_false, ?Z.ltb_ge; try lia.
  intros [->|H1'] [->|H2']; auto. right. by etransitivity.
Qed.

Lemma listed_before_asym x y : listed_before x y = true → listed_before y x = false.
Proof.
  unfold listed_before.
  destruct (Z.eqb_spec (get_group x.2) (get_group y.2)), (Z.eqb_spec (get_group y.2) (get_group x.2));
    cbn [negb]; rewrite ?string_less_spec, ?string_less_false, ?Z.ltb_lt, ?Z.ltb_ge; auto with lia.
Qed.

Lemma add_to_list_spec (rs : list room_ref) (t : Hashtable) :
  NoDup (id ∘ snd <$> rs) → (∀ r, r ∈ rs → t !! of_string (id r.2) = None) →
  ∀ k v, foldl add_to_list t rs !! k = Some v ↔
    t !! k = Some v ∨ ∃ r, r ∈ rs ∧ k = of_string (id r.2) ∧ v = of_table (get_lobby_game_props r.2).
Proof.
  revert t. induction rs as [|r rs IH]; intros t Hn Ht k v.
  { cbn. split; [by left|]. intros [?|(r & Hr & _)]; [done|]. by apply elem_of_nil in Hr. }
  cbn [foldl]. rewrite fmap_cons, NoDup_cons in Hn. destruct Hn as [Hr Hn].
  assert (add_to_list t r = <[of_string (id r.2) := of_table (get_lobby_game_props r.2)]> t) as ->.
  { unfold add_to_list. by rewrite Ht by left. }
  rewrite IH; [|done|].
  - rewrite lookup_insert_Some. split.
    + intros [[[<- <-]|[_ ?]]|(r' & ? & ? & ?)]; [|by left|]; right; eexists; (split; [|done]);
        [by left|by right].
    + intros [Hk|(r' & [->|Hr']%elem_of_cons & -> & ->)].
      * left. right. split; [|done]. intros <-. by rewrite Ht in Hk by left.
      * left. by left.
      * right. eauto.
  - intros r' Hr'. rewrite lookup_insert_ne; [apply Ht; by right|].
    intros E%(acc_inj of_string get_string). apply Hr, list_elem_of_fmap. by exists r'.
Qed.

(** The live rooms of a lobby have ids of their own. *)
Lemma live_ids_distinct d l lobby :
  dir_ok d → lobby_heap d !! l = Some lobby → NoDup (id ∘ snd <$> live_games d lobby).
Proof.
  intros Hok Hl. destruct (dir_listed _ Hok _ _ Hl) as (Hnd & _ & Hin).
  assert (∀ gm g, gm ∈ games lobby → game_heap d !! gm = Some g →
    room_key d gm = Some (lobby_home lobby, id g)) as Hk.
  { intros gm g Hgm Hg. apply room_key_Some. exists g, lobby.
    by rewrite (Hin _ _ Hgm Hg). }
  destruct (dir_home _ Hok _ _ Hl) as [_ [app Ha]%fmap_is_Some].
  unfold live_games. clear Hin. induction (games lobby) as [|gm gs IH]; [apply NoDup_nil_2|].
  apply NoDup_cons in Hnd as [Hgm Hnd].
  assert (∀ x g, x ∈ gs → game_heap d !! x = Some g →
    room_key d x = Some (lobby_home lobby, id g)) as Hk' by (intros; apply Hk; [by right|done]).
  specialize (IH Hnd Hk'). cbn [omap list_omap].
  destruct (game_heap d !! gm) as [g|] eqn:Hg; [|exact IH]. cbn.
  apply NoDup_cons. split; [|exact IH].
  intros ([x h] & E & Hx)%list_elem_of_fmap. cbn in E.
  apply list_elem_of_omap in Hx as (y & Hy & Ey).
  destruct (game_heap d !! y) as [h'|] eqn:Hh; [|done]. cbn in Ey. injection Ey as -> ->.
  pose proof (Hk gm g ltac:(by left) Hg) as K1. pose proof (Hk' x h Hy Hh) as K2.
  assert (games_of d (lobby_home lobby) = Some (games_ app)) as Ht by (unfold games_of; by rewrite Ha).
  rewrite <-(dir_games _ Hok _ _ Ht) in K1, K2. rewrite <-E, K1 in K2. injection K2 as ->. done.
Qed.

Lemma sorted_split {A} (R : A → A → Prop) (l1 l2 : list A) :
  StronglySorted R (l1 ++ l2) → ∀ a b, a ∈ l1 → b ∈ l2 → R a b.
Proof.
  induction l1 as [|x l1 IH]; cbn; intros Hs a b Ha Hb; [by apply elem_of_nil in Ha|].
  apply StronglySorted_inv in Hs as [Hs Hx].
  apply elem_of_cons in Ha as [->|Ha]; [|by eapply IH].
  rewrite Forall_forall in Hx. apply Hx. apply elem_of_app. by right.
Qed.

(** The list of rooms a client is sent: of the live, joinable rooms of
    the lobby it shows all, or five hundred when there are more, each under
    its id with its lobby properties; and no room is left out that should
    come before one shown, open rooms with space coming before full ones and
    these before closed ones, and equals by id. *)
Theorem room_list_shows_best d l lobby game_filter :
  dir_ok d → lobby_heap d !! l = Some lobby →
  let rs := listable d lobby game_filter in
  ∃ shown rest, rs ≡ₚ shown ++ rest ∧ length shown = (max_entries `min` length rs)%nat ∧
    (∀ a b, a ∈ shown → b ∈ rest → listed_before b a = false) ∧
    ∀ k v, get_game_list d lobby true game_filter !! k = Some v ↔
      ∃ r, r ∈ shown ∧ k = of_string (id r.2) ∧ v = of_table (get_lobby_game_props r.2).
Proof.
  intros Hok Hl rs.
  assert (NoDup (id ∘ snd <$> rs)) as Hnd
    by (by apply NoDup_fmap_filter; eapply live_ids_distinct).
  set (sorted := sort listed_before rs).
  assert (sorted ≡ₚ rs) as Hp by apply sort_perm.
  assert (StronglySorted (λ x y, listed_before y x = false) sorted) as Hs.
  { apply sort_sorted; [apply listed_before_weak|apply listed_before_asym]. }
  exists (take max_entries sorted), (drop max_entries sorted).
  split; [by rewrite take_drop|]. split; [by rewrite length_take, Hp|].
  split; [apply sorted_split; by rewrite take_drop|].
  assert (∀ shown, NoDup (id ∘ snd <$> shown) → ∀ k v, foldl add_to_list ∅ shown !! k = Some v ↔
    ∃ r, r ∈ shown ∧ k = of_string (id r.2) ∧ v = of_table (get_lobby_game_props r.2)) as Hspec.
  { intros shown Hn k v. rewrite add_to_list_spec by (done || intros; apply lookup_empty).
    rewrite lookup_empty. split; [by intros [?|?]|by right]. }
  assert (NoDup (id ∘ snd <$> take max_entries sorted)) as Hnt.
  { rewrite <-Hp in Hnd. rewrite <-(take_drop max_entries sorted), fmap_app in Hnd.
    by apply NoDup_app in Hnd as [? _]. }
  unfold get_game_list. cbn [negb]. fold rs. subst sorted.
  destruct rs as [|r [|r' rs']] eqn:Ers.
  - assert (sort listed_before ([] : list room_ref) = []) as -> by (by apply Permutation_nil_r).
    rewrite take_nil. intros k v. rewrite lookup_empty. split; [done|].
    intros (r & Hr & _). by apply elem_of_nil in Hr.
  - assert (sort listed_before [r] = [r]) as E by (by apply Permutation_singleton_r).
    rewrite E in *. exact (Hspec [r] Hnt).
  - apply Hspec, Hnt.
Qed.

(** *** Matchmaking *)

Section matchmaking.
Context (settings : AppSettings) (env : PeerEnv) (user : string).

Lemma head_best (less : room_ref → room_ref → bool) cs r :
  (∀ x y z, less y x = false → less z y = false → less z x = false) →
  (∀ x y, less x y = true → less y x = false) →
  head (sort less cs) = Some r → r ∈ cs ∧ ∀ c, c ∈ cs → less c r = false.
Proof.
  intros Hw Ha Hh. pose proof (sort_perm less cs) as Hp.
  pose proof (sort_sorted less cs Hw Ha) as Hs. destruct (sort less cs) as [|x xs]; [done|].
  injection Hh as ->. split; [rewrite <-Hp; by left|].
  intros c Hc. rewrite <-Hp in Hc. apply elem_of_cons in Hc as [->|Hc].
  - destruct (less r r) eqn:E; [|done]. by rewrite (Ha _ _ E) in E.
  - apply StronglySorted_inv in Hs as [_ Hx]. rewrite Forall_forall in Hx. by apply Hx.
Qed.

Lemma fewer_weak (x y z : room_ref) :
  fewer_peers y x = false → fewer_peers z y = false → fewer_peers z x = false.
Proof. unfold fewer_peers. rewrite !Z.ltb_ge. lia. Qed.

Lemma fewer_asym (x y : room_ref) : fewer_peers x y = true → fewer_peers y x = false.
Proof. unfold fewer_peers. rewrite Z.ltb_lt, Z.ltb_ge. lia. Qed.

(** C24: The room matchmaking chooses in a lobby without a database: a live
    room of the lobby that is joinable, would let the user in and has the
    expected properties, with the fewest peers of all such rooms under serial
    matching and the most under filling; and one is found whenever there is
    such a room. *)
Theorem matchmaking_chooses_eligible pick matchmaking d lobby expected :
  (∀ n, (0 < n)%nat → (pick n < n)%nat) →
  matchmaking = SerialMatching ∨ matchmaking = FillRoom ∨ matchmaking = RandomMatching →
  let eligible gm g := gm ∈ games lobby ∧ game_heap d !! gm = Some g ∧ is_joinable g = true ∧
    validate_join_count settings env g user 0 false = Ok ∧ expect_game_props g expected = true in
  match choose pick matchmaking (candidates settings env user d lobby expected) with
  | Some gm => ∃ g, eligible gm g ∧ ∀ gm' g', eligible gm' g' →
      (matchmaking = SerialMatching → len (peers g) ≤ len (peers g')) ∧
      (matchmaking = FillRoom → len (peers g') ≤ len (peers g))
  | None => ∀ gm g, ¬ eligible gm g
  end.
Proof.
  intros Hpick Hm eligible. pose proof matchmaking_nodup as Hcodes.
  assert (∀ gm g, (gm, g) ∈ candidates settings env user d lobby expected ↔ eligible gm g) as Hc.
  { intros gm g. unfold candidates, can_join, eligible. rewrite list_elem_of_filter, live_games_spec.
    cbn. rewrite !andb_true_iff, bool_decide_eq_true. tauto. }
  set (cs := candidates _ _ _ _ _ _) in *. clearbody cs.
  assert (∀ gm g, (∀ c, c ∈ cs → (matchmaking = SerialMatching → fewer_peers c (gm, g) = false) ∧
      (matchmaking = FillRoom → fewer_peers (gm, g) c = false)) → (gm, g) ∈ cs →
    ∃ g', eligible gm g' ∧ ∀ gm' g'', eligible gm' g'' →
      (matchmaking = SerialMatching → len (peers g') ≤ len (peers g'')) ∧
      (matchmaking = FillRoom → len (peers g'') ≤ len (peers g'))) as Hbest.
  { intros gm g Hb Hin. exists g. split; [by apply Hc|]. intros gm' g' He%Hc.
    destruct (Hb _ He) as [B1 B2]. unfold fewer_peers in *. cbn in *.
    rewrite Z.ltb_ge in B1, B2. done. }
  unfold choose. destruct cs as [|c0 cs0] eqn:Ecs.
  { intros gm g He%Hc. by apply elem_of_nil in He. }
  assert (cs ≠ []) as Hne by (by rewrite Ecs). rewrite <-Ecs in *. clear Ecs.
  apply NoDup_cons in Hcodes as [N1 Hcodes]. apply NoDup_cons in Hcodes as [N2 _].
  rewrite !not_elem_of_cons in N1. rewrite not_elem_of_cons in N2.
  assert (∀ less, ∃ r, head (sort less cs) = Some r) as Hhead.
  { intros less. pose proof (sort_perm less cs) as Hp. destruct (sort less cs) as [|r rs]; [|by exists r].
    by apply Permutation_nil_l in Hp. }
  destruct Hm as [-> |[-> | ->]].
  - rewrite Z.eqb_refl. destruct (Hhead fewer_peers) as [[gm g] E]. rewrite E. cbn.
    apply (head_best _ _ _ fewer_weak fewer_asym) in E as [Hin Hb].
    apply (Hbest gm g); [|done]. intros c Hc'. split; [auto|]. intros; intuition congruence.
  - rewrite (proj2 (Z.eqb_neq _ _)) by intuition congruence. rewrite Z.eqb_refl.
    destruct (Hhead (λ a b, fewer_peers b a)) as [[gm g] E]. rewrite E. cbn.
    apply head_best in E as [Hin Hb]; [|intros x y z ? ?; by eapply fewer_weak|intros x y; apply fewer_asym].
    apply (Hbest gm g); [|done]. intros c Hc'. split; [intros; intuition congruence|auto].
  - rewrite !(proj2 (Z.eqb_neq _ _)) by intuition congruence. rewrite Z.eqb_refl.
    assert (pick (length cs) < length cs)%nat as Hlt by (apply Hpick; by destruct cs; [|cbn; lia]).
    apply lookup_lt_is_Some in Hlt as [[gm g] E]. rewrite E. cbn.
    apply (Hbest gm g); [|by eapply list_elem_of_lookup_2].
    intros c Hc'. split; intros; intuition congruence.
Qed.
End matchmaking.
End facts.
