(* ===== verification/HandlerMaster.v ===== *)
(** * The master server's handler

    Models [handler_masterserver.cpp]: joining lobbies, listing rooms, and
    creating, joining and matching rooms, after which the client is sent to a
    game server with its identity parked and its reservation made.  The
    handler is a program over the connection's state, the directory and the
    registry of identities; temporary pointers are scopes.  The build without
    hook points is modelled. *)

From S2P Require Import Prelude Values Types GameState GameMembers GameProps GameEvents GameSteps PeerPersistence ServerManager Directory Release LobbyQuery DataModel HandlerGame HandlerBase Authentication HandlerEntry MasterLists Program.
From Stdlib Require Import Ascii.
Open Scope Z_scope.

Section data.
Context `{Ser}.

(** <include/luxon/server/handler_masterserver.hpp:60-67 MasterServerHandler::PendingJoin> *)
Record MasterPending := mkMasterPending {
  mp_game : game_ptr;
  mp_generation : Z;
  mp_request : Request;
  mp_wait_started : Z;
}.

(** <include/luxon/server/handler_masterserver.hpp:40-75 MasterServerHandler>
    The connection's state, with the directory and the registry.
    [last_batched_update_] is the time of the last batch. *)
Record MasterWorld := mkMaster {
  m_auth : AuthWorld;
  joined_lobby_ : option lobby_ptr;
  m_pending : option MasterPending;
  owned_reservations_ : list (game_ptr * (string * Z));
  pending_game_list_updates_ : list QueuedChange;
  last_batched_update_ : Z;
}.
End data.

#[export] Instance eta_MasterWorld `{Ser} : Eta MasterWorld := λ w,
  mkMaster (m_auth w) (joined_lobby_ w) (m_pending w) (owned_reservations_ w)
    (pending_game_list_updates_ w) (last_batched_update_ w).

(** ** Request models *)

Section models.
Context `{Ser, Codes, MasterCodes}.

(** <src/handler_masterserver.cpp:39-39 models::ClientSettings> *)
Definition client_settings_model : list ParameterSpec :=
  [mkParameter TBool KeyLobbyStats true None None].
(** <src/handler_masterserver.cpp:41-42 models::LobbyId> *)
Definition lobby_id_model : list ParameterSpec :=
  [mkParameter TString KeyLobbyName false (Some EmptyString) None;
   mkParameter TByte KeyLobbyType false (Some DefaultLobby) (Some (enumerator lobby_types))].
(** <src/handler_masterserver.cpp:44-45 models::CreateGame> *)
Definition create_model : list ParameterSpec :=
  [mkParameter TString KeyGameId false (Some EmptyString) None;
   mkParameter TStrings KeyExpectedUsers false (Some []) None].
(** <src/handler_masterserver.cpp:46-46 models::JoinGame> *)
Definition join_game_model : list ParameterSpec :=
  create_model ++ [mkParameter TByte KeyCreateIfNotExists false (Some 0) None].
(** <src/handler_masterserver.cpp:48-48 models::SqlQuery> *)
Definition sql_query_model : list ParameterSpec :=
  [mkParameter TString KeyData false (Some EmptyString) None].
(** <src/handler_masterserver.cpp:50-53 models::JoinRandomGame> *)
Definition join_random_model : list ParameterSpec :=
  sql_query_model ++
  [mkParameter TByte KeyMatchmakingType false (Some 0)
     (Some (enumerator [RandomMatching; SerialMatching; FillRoom]));
   mkParameter THashtable KeyGameProperties false (Some None) None;
   mkParameter TByte KeyCreateIfNotExists false (Some 0) None;
   mkParameter TString KeyGameId false (Some EmptyString) None].
(** <src/handler_masterserver.cpp:55-56 models::FindFriends> *)
Definition find_friends_model : list ParameterSpec :=
  [mkParameter TStrings KeyFindFriendsRequestList false None None;
   mkParameter TInt32 KeyFindFriendsOptions false (Some FindFriendsDefault) None].
(** <src/handler_masterserver.cpp:58-58 models::LobbyStats> *)
Definition lobby_stats_model : list ParameterSpec :=
  [mkParameter TString KeyLobbyName true None None;
   mkParameter TByte KeyLobbyType true None None].
End models.

Section master.
Context `{Ser, Codes, AuthCodes, MasterCodes, SettingsSource, SqlLobbies, Transports}.
Context `{!Authenticators, !Sorting}.
Context (S : Surroundings).
(** The name of this connection's subscription; the four digits drawn for a
    room id and the index drawn among candidates; the string splitter and the
    database of each lobby; the connections in the server's order, and how
    many lead to game and master servers. *)
Context (me : nat) (suffix : string) (pick : nat → nat).
Context (str_split : string → ascii → nat → list string).
Context (select : lobby_ptr → string → option (list string)).
Context (connections : list peer_ptr) (game_connections master_connections : Z).
Implicit Types (req : Request) (w : MasterWorld) (d : Directory).

Abbreviation P := (Prog MasterWorld ServerOut).

(** ** Pieces *)

Definition on_dir (f : Directory → Directory) : P () :=
  modify (λ w, w <| m_auth ::= λ a, a <| directory ::= f |> |>).
Definition on_identity (f : PeerPersistent → PeerPersistent) : P () :=
  modify (λ w, w <| m_auth ::= λ a, a <| own ::= fmap f |> |>).
Definition the_dir w : Directory := directory (m_auth w).
Definition response req (rc : ErrorCode) (params : ParameterList) : P () :=
  say [Respond (operation_code req) rc params 0].
Definition refuse {A} req (rc : ErrorCode) : P A := response req rc ∅ ;;; stop.
Definition crash {A} (f : Fault) : P A := say [Crash f] ;;; stop.

(** Decode the request or answer with the decoding error. *)
Definition decoded (ps : list ParameterSpec) req : P (list ViewField) :=
  match decode ps (r_parameters req) with
  | inr fs => ret fs
  | inl _ => refuse req OperationInvalid
  end.

(** [*peer_->persistent] and [*peer_->persistent->app] *)
Definition identity : P PeerPersistent :=
  w ⇐ get;
  match own (m_auth w) with Some pp => ret pp | None => crash NullDereference end.
Definition my_app : P (app_ptr * App) :=
  pp ⇐ identity; w ⇐ get;
  match (a ← pp_app pp; app ← app_heap (the_dir w) !! a; Some (a, app)) with
  | Some r => ret r
  | None => crash NullDereference
  end.

(** An operation of a room in the heap. *)
Definition at_room {A} (gm : game_ptr) (f : Game → Game * A * list Effect) : P A := λ w,
  match game_heap (the_dir w) !! gm with
  | None => (w, [Crash NullDereference], None)
  | Some g =>
      let '(g, x, eff) := f g in
      (w <| m_auth ::= λ a, a <| directory ::= λ d, d <| game_heap ::= <[gm := g]> |> |> |>,
       RoomEffect gm <$> eff, Some x)
  end.
Definition the_game (gm : game_ptr) : P Game := at_room gm (λ g, (g, g, [])).

(** The lobby's temporary pointer goes out of scope. *)
Definition let_lobby_go (l : lobby_ptr) : P () :=
  w ⇐ get;
  on_dir (λ d, release_lobby (held_by_identities S (m_auth w)) d l).

(** <src/handler_masterserver.cpp:795-795 MasterServerHandler::get_requested_lobby> *)
Definition named_lobby (fs : list ViewField) : P lobby_ptr :=
  a ⇐ my_app; w ⇐ get;
  match get_lobby (the_dir w) a.1 (got TString KeyLobbyName fs, got TByte KeyLobbyType fs) with
  | inr f => crash f
  | inl (d, l) => on_dir (λ _, d) ;;; ret l
  end.

(** <src/handler_masterserver.cpp:784-796 MasterServerHandler::get_requested_lobby> *)
Definition get_requested_lobby req : P lobby_ptr :=
  fs ⇐ decoded lobby_id_model req;
  w ⇐ get;
  match joined_lobby_ w with
  | Some l => if empty_str (got TString KeyLobbyName fs) then ret l else named_lobby fs
  | None => named_lobby fs
  end.

(** The rest of a request, during which the requested lobby is held. *)
Definition with_lobby req (body : lobby_ptr → P ()) : P () :=
  l ⇐ get_requested_lobby req; scope (body l) (let_lobby_go l).

(** ** Lobbies *)

(** <src/handler_masterserver.cpp:978-978 MasterServerHandler::JoinedLobby::~JoinedLobby>
    The subscription ends and the lobby is let go. *)
Definition leave_lobby : P () :=
  w ⇐ get;
  match joined_lobby_ w with
  | None => ret ()
  | Some l =>
      on_dir (λ d, d <| lobby_heap ::= alter (λ lobby,
                          lobby <| game_list_update_handlers ::= λ hs,
                                     filter (λ h, h ≠ me) hs |>) l |>) ;;;
      modify (λ w, w <| joined_lobby_ := None |>) ;;;
      let_lobby_go l
  end.

(** <src/handler_masterserver.cpp:798-813 MasterServerHandler::join_lobby>
    With the constructor of [JoinedLobby] (973-976).  The old subscription
    ends first; the new lobby is held meanwhile, even if it is the old one. *)
Definition join_lobby (l : lobby_ptr) : P () :=
  w ⇐ get;
  (if bool_decide (joined_lobby_ w = Some l) then ret () else leave_lobby) ;;;
  on_dir (λ d, d <| lobby_heap ::= alter (λ lobby,
                      lobby <| game_list_update_handlers ::= λ hs,
                                 me :: filter (λ h, h ≠ me) hs |>) l |>) ;;;
  modify (λ w, w <| joined_lobby_ := Some l |>).

(** A lobby's record; the pointer is held. *)
Definition lobby_at (l : lobby_ptr) : P Lobby :=
  w ⇐ get;
  match lobby_heap (the_dir w) !! l with Some lobby => ret lobby | None => crash NullDereference end.

(** <src/handler_masterserver.cpp:959-971 MasterServerHandler::send_game_list> *)
Definition send_game_list : P () :=
  w ⇐ get;
  match joined_lobby_ w with
  | None => ret ()
  | Some l =>
      lobby ⇐ lobby_at l;
      say [Event_ EvGameList
             (<[KeyGameList := of_table (get_game_list (the_dir w) lobby true (λ _, true))]> ∅)]
  end.

(** <src/handler_masterserver.cpp:212-231 HandleOperationRequest, JoinLobby> *)
Definition op_join_lobby req : P () :=
  with_lobby req (λ l,
    join_lobby l ;;; response req Ok ∅ ;;; send_game_list).

(** <src/handler_masterserver.cpp:233-251 HandleOperationRequest, LeaveLobby> *)
Definition op_leave_lobby req : P () := leave_lobby ;;; response req Ok ∅.

(** <src/handler_masterserver.cpp:253-279 HandleOperationRequest, LobbyStats> *)
Definition op_lobby_stats req : P () :=
  fs ⇐ decoded lobby_stats_model req;
  a ⇐ my_app; w ⇐ get;
  response req Ok
    (get_lobby_stats (the_dir w) a.2
       (stats_filter (get_field TString KeyLobbyName fs) (get_field TByte KeyLobbyType fs))).

(** <src/handler_masterserver.cpp:311-320 HandleOperationRequest, GetGameList> *)
Definition queried_list d (app : App) (game_ids : list string) : Hashtable :=
  foldl add_to_list ∅
    (filter (λ r, announced r.2 = true)
       (omap (λ i, gm ← games_ app !! i; g ← game_heap d !! gm; Some (gm, g)) game_ids)).

(** <src/handler_masterserver.cpp:281-332 HandleOperationRequest, GetGameList> *)
Definition op_get_game_list req : P () :=
  fs ⇐ decoded sql_query_model req;
  with_lobby req (λ l,
    lobby ⇐ lobby_at l;
    if negb (lobby_type lobby =? SqlLobby) then refuse req OperationInvalid
    else
      a ⇐ my_app; w ⇐ get;
      match query_lobbies str_split (select l) (got TString KeyData fs) with
      | None => response req OperationInvalid ∅
      | Some game_ids =>
          response req Ok
            (<[KeyGameList := of_table (queried_list (the_dir w) a.2 game_ids)]> ∅)
      end).

(** ** Sending a client to a room *)

(** <src/handler_masterserver.cpp:25-33 generate_game_id> *)
Definition generate_game_id (prefix : string) : string := prefix +:+ "#" +:+ suffix.

(** The id asked for, or a generated one. *)
Definition id_or_generated (pp : PeerPersistent) (game_id : string) : string :=
  if empty_str game_id then generate_game_id (user_id pp) else game_id.

(** [lobby->create_game(id, get_random_gameserver_base_addr())]; choosing an
    address throws when there is no game server. *)
Definition create_room req (l : lobby_ptr) (game_id : string) : P game_ptr :=
  match get_random_server_base_address (listeners S) (draw_server S) GameServer with
  | None => crash Thrown
  | Some address =>
      w ⇐ get;
      match create_game (listeners S) (the_dir w) l game_id address false with
      | inr f => crash f
      | inl (d, r, ns) =>
          on_dir (λ _, d) ;;; say (Notify <$> ns) ;;;
          match r with
          | inr rc => refuse req rc
          | inl None => crash NullDereference
          | inl (Some gm) => ret gm
          end
      end
  end.

(** <src/handler_masterserver.cpp:524-525 HandleOperationRequest>
    A reservation made is remembered until the client is sent away. *)
Definition reserve_for (gm : game_ptr) (user : string) : P () :=
  r ⇐ at_room gm (λ g, reserve_expected_user_with_generation g user 30000);
  match r with
  | Some generation =>
      modify (λ w, w <| owned_reservations_ ::= λ l, l ++ [(gm, (user, generation))] |>)
  | None => ret ()
  end.

(** <src/handler_masterserver.cpp:526-531 HandleOperationRequest> (also 384-389) *)
Definition reserve_expected (gm : game_ptr) (user : string) (users : list string) : P () :=
  each (λ u, if empty_str u || bool_decide (u = user) then ret () else reserve_for gm u) users.

Definition app_info_in d (a : app_ptr) : AppInfo :=
  match app_heap d !! a with Some app => app_ident app | None => no_app_info end.

(** <src/handler_masterserver.cpp:541-552 HandleOperationRequest>
    The identity is invited, replicated and parked; the client is told where
    to go (also 391-402 and 702-712). *)
Definition route req (gm : game_ptr) (is_new : bool) (params : ParameterList) : P () :=
  w ⇐ get;
  match room_context (the_dir w) gm, own (m_auth w) with
  | Some (g, _, info), Some pp =>
      let pp := invite_game gm (get_game_info info g) is_new pp in
      let '(r, msg, tasks) :=
        park (room_state (the_dir w)) (app_info_in (the_dir w)) (registry (m_auth w)) pp in
      modify (λ w, w <| m_auth ::= λ a, a <| registry := r |> <| own := None |> |>) ;;;
      say (Ipc_ msg :: (ScheduleExpiry <$> tasks)) ;;;
      response req Ok params ;;;
      modify (λ w, w <| owned_reservations_ := [] |>)
  | _, _ => crash NullDereference
  end.

(** The address and token of the answer. *)
Definition way_to (g : Game) (pp : PeerPersistent) : ParameterList :=
  <[KeyToken := of_string (token pp)]>
    (<[KeyAddress := of_string
         (resolve_server_address (listeners S) GameServer (client_transport S) (server_address g))]> ∅).

(** <src/handler_masterserver.cpp:334-405 HandleOperationRequest, CreateGame> *)
Definition op_create_game req : P () :=
  fs ⇐ decoded create_model req;
  with_lobby req (λ l,
    pp ⇐ identity;
    let game_id := id_or_generated pp (got TString KeyGameId fs) in
    a ⇐ my_app;
    if bool_decide (is_Some (games_ a.2 !! game_id)) then refuse req GameIdAlreadyExists
    else
      gm ⇐ create_room req l game_id;
      g ⇐ the_game gm;
      reserve_expected gm (user_id pp) (got TStrings KeyExpectedUsers fs) ;;;
      route req gm true (<[KeyGameId := of_string (id g)]> (way_to g pp))).

(** <src/handler_masterserver.cpp:431-468 HandleOperationRequest, JoinGame>
    The room, and whether the request made it. *)
Definition find_or_create req (l : lobby_ptr) (pp : PeerPersistent) (game_id : string)
    (join_mode : Z) : P (game_ptr * bool) :=
  a ⇐ my_app;
  match games_ a.2 !! game_id with
  | None =>
      if join_mode =? 0 then refuse req GameIdNotExists
      else
        gm ⇐ create_room req l (id_or_generated pp game_id);
        ret (gm, true)
  | Some gm =>
      w ⇐ get;
      match alive (game_heap (the_dir w)) (Some gm) with
      | Some gm => ret (gm, false)
      | None => refuse req InternalServerError
      end
  end.

(** The room's temporary pointer goes out of scope; a room this request made
    and did not hand to an identity dies. *)
Definition let_room_go (gm : game_ptr) (is_new : bool) : P () :=
  w ⇐ get;
  when (is_new && bool_decide (is_Some (own (m_auth w))))
    match release_room (held_by_identities S (m_auth w)) (the_dir w) gm with
    | inr f => say [Crash f]
    | inl (d, ns, msgs) => on_dir (λ _, d) ;;; say ((Notify <$> ns) ++ (Ipc_ <$> msgs))
    end.

(** <src/handler_masterserver.cpp:486-508 HandleOperationRequest, JoinGame>
    A join of a room in creation is put aside. *)
Definition wait_for_creation req (gm : game_ptr) (g : Game) : P () :=
  if negb (is_creating g) then refuse req GameIdNotExists
  else
    w ⇐ get;
    match m_pending w with
    | Some _ => refuse req OperationNotAllowedInCurrentState
    | None =>
        modify (λ w, w <| m_pending :=
          Some (mkMasterPending gm (active_creation_generation g) req (clock S)) |>) ;;; stop
    end.

(** <src/handler_masterserver.cpp:470-554 HandleOperationRequest, JoinGame> *)
Definition join_found req (fs : list ViewField) (pp : PeerPersistent) (gm : game_ptr)
    (is_new : bool) : P () :=
  let game_id := got TString KeyGameId fs in
  let join_mode := got TByte KeyCreateIfNotExists fs in
  let expected := got TStrings KeyExpectedUsers fs in
  g ⇐ the_game gm;
  if (join_mode =? 3) && (negb (is_created g) || negb (has_expected_user g (user_id pp)))
  then refuse req GameIdNotExists
  else if negb is_new && negb (is_created g) && negb (join_mode =? 1)
  then wait_for_creation req gm g
  else
    a ⇐ my_app;
    (if negb is_new && is_created g then
       match validate_join (settings_ a.2) (live_peers S) g (user_id pp) expected false with
       | Ok => ret ()
       | rc => refuse req rc
       end
     else ret ()) ;;;
    reserve_for gm (user_id pp) ;;;
    reserve_expected gm (user_id pp) expected ;;;
    route req gm is_new
      (if bool_decide (id g = game_id) then way_to g pp
       else <[KeyGameId := of_string (id g)]> (way_to g pp)).

(** <src/handler_masterserver.cpp:407-555 HandleOperationRequest, JoinGame> *)
Definition op_join_game req : P () :=
  fs ⇐ decoded join_game_model req;
  with_lobby req (λ l,
    pp ⇐ identity;
    found ⇐ find_or_create req l pp (got TString KeyGameId fs) (got TByte KeyCreateIfNotExists fs);
    scope (join_found req fs pp found.1 found.2) (let_room_go found.1 found.2)).

(** <src/handler_masterserver.cpp:573-659 HandleOperationRequest, JoinRandomGame> *)
Definition select_room req (fs : list ViewField) (l : lobby_ptr) (pp : PeerPersistent) :
    P (option game_ptr) :=
  lobby ⇐ lobby_at l; a ⇐ my_app; w ⇐ get;
  if lobby_type lobby =? SqlLobby then
    match query_lobbies str_split (select l) (got TString KeyData fs) with
    | None => refuse req OperationInvalid
    | Some game_ids =>
        ret (select_sql (settings_ a.2) (live_peers S) (user_id pp) (the_dir w) a.2 game_ids)
    end
  else
    ret (choose pick (got TByte KeyMatchmakingType fs)
           (candidates (settings_ a.2) (live_peers S) (user_id pp) (the_dir w) lobby
              (default ∅ (got THashtable KeyGameProperties fs)))).

(** <src/handler_masterserver.cpp:661-714 HandleOperationRequest, JoinRandomGame>
    With the decoding and the lobby before the selection (557-571). *)
Definition op_join_random req : P () :=
  fs ⇐ decoded join_random_model req;
  with_lobby req (λ l,
    pp ⇐ identity;
    selected ⇐ select_room req fs l pp;
    target ⇐ (match selected with
              | Some gm => ret (gm, false)
              | None =>
                  if got TByte KeyCreateIfNotExists fs =? 0 then refuse req NoRandomMatchFound
                  else
                    gm ⇐ create_room req l (id_or_generated pp (got TString KeyGameId fs));
                    ret (gm, true)
              end);
    let '(gm, is_new) := target in
    g ⇐ the_game gm;
    reserve_for gm (user_id pp) ;;;
    route req gm is_new (<[KeyGameId := of_string (id g)]> (way_to g pp))).

(** ** Friends *)

(** <src/handler_masterserver.cpp:747-750 HandleOperationRequest, FindFriends>
    The first connection of the friend. *)
Definition friend_connection (friend_id : string) : option (peer_ptr * PeerPersistent) :=
  find_first (λ c, bool_decide (user_id c.2 = friend_id))
    (omap (λ p, peer ← live_peers S !! p; pp ← persistent peer; Some (p, pp)) connections).

(** <src/server_manager.cpp:749-754 ServerManager::get_game>
    With its overload of server_manager.hpp:353: the friend's room, made when
    there is none, and whether it was made. *)
Definition friend_room (pp : PeerPersistent) : P (option (game_ptr * bool)) :=
  w ⇐ get;
  let info := invitation pp in
  match pp_app pp with
  | None => crash NullDereference
  | Some a =>
      match get_lobby (the_dir w) a (li_name (gi_lobby info), li_type (gi_lobby info)) with
      | inr f => crash f
      | inl (d, l) =>
          match create_game (listeners S) d l (gi_id info) (gi_server_address info) true with
          | inr f => crash f
          | inl (d', r, ns) =>
              on_dir (λ _, release_lobby (held_by_identities S (m_auth w)) d' l) ;;;
              say (Notify <$> ns) ;;;
              ret match r with
                  | inl (Some gm) => Some (gm, negb (bool_decide (is_Some (game_heap d !! gm))))
                  | _ => None
                  end
          end
      end
  end.

(** <src/handler_masterserver.cpp:753-760 HandleOperationRequest, FindFriends>
    Whether the options let the room's id be told. *)
Definition room_told (options : Z) (friend : peer_ptr) (g : Game) : bool :=
  let state := get_config_snapshot g in
  negb (has_flag options FriendsCreatedOnGS
        && negb (has_peer_actor g (default 0 (actor_id_for_peer (live_peers S) g (Some friend)))))
  && negb (has_flag options FriendsVisible && negb (cs_is_visible state))
  && negb (has_flag options FriendsOpen && negb (cs_is_open state)).

(** <src/handler_masterserver.cpp:743-768 HandleOperationRequest, FindFriends> *)
Definition find_friend (options : Z) (friend_id : string) : P (bool * string) :=
  match friend_connection friend_id with
  | None => ret (false, EmptyString)
  | Some (p, pp) =>
      r ⇐ friend_room pp;
      match r with
      | None => ret (true, EmptyString)
      | Some (gm, made) =>
          g ⇐ the_game gm;
          let_room_go gm made ;;;
          ret (true, if room_told options p g then id g else EmptyString)
      end
  end.

(** A loop that collects its results. *)
Fixpoint collect {A B} (f : A → P B) (l : list A) : P (list B) :=
  match l with
  | [] => ret []
  | x :: l => y ⇐ f x; ys ⇐ collect f l; ret (y :: ys)
  end.

(** <src/handler_masterserver.cpp:716-777 HandleOperationRequest, FindFriends> *)
Definition op_find_friends req : P () :=
  a ⇐ my_app;
  if negb (allow_find_friends (settings_ a.2)) then refuse req OperationNotAllowedInCurrentState
  else
    fs ⇐ decoded find_friends_model req;
    rs ⇐ collect (find_friend (got TInt32 KeyFindFriendsOptions fs))
           (got TStrings KeyFindFriendsRequestList fs);
    response req Ok
      (<[KeyFindFriendsResponseRoomIdList := of_strings rs.*2]>
         (<[KeyFindFriendsResponseOnlineList := of_bools rs.*1]> ∅)).

(** ** The handler *)

(** <src/handler_masterserver.cpp:871-880 MasterServerHandler::send_lobby_stats> *)
Definition send_lobby_stats : P () :=
  a ⇐ my_app; w ⇐ get;
  say [Event_ EvLobbyStats (get_lobby_stats (the_dir w) a.2 (λ _, true))].

(** <src/handler_masterserver.cpp:161-201 HandleOperationRequest, Authenticate> *)
Definition master_authenticate req : P () :=
  fs ⇐ decoded client_settings_model req;
  resp ⇐ (λ w, let '(a, out, r) := authenticating S req true (m_auth w) in
               (w <| m_auth := a |>, out, r));
  response req resp.1
    (if bool_decide (resp.1 = Ok) then <[KeyPosition := of_int32 0]> resp.2 else resp.2) ;;;
  w ⇐ get;
  match own (m_auth w) with
  | None => say [HangUp]
  | Some _ =>
      on_identity reset_game ;;;
      when (default true (get_field TBool KeyLobbyStats fs)) send_lobby_stats
  end.

(** <src/handler_masterserver.cpp:152-162 MasterServerHandler::HandleOperationRequest>
    With the labels and defaults of the two switches (201-212, 778-782). *)
Definition master_request req : P () :=
  w ⇐ get;
  let authenticated := bool_decide (is_Some (own (m_auth w))) in
  if negb (channel_id req =? 0) then say (base_request req authenticated)
  else if authenticated then
    match operation_code req with
    | OpJoinLobby => op_join_lobby req
    | OpLeaveLobby => op_leave_lobby req
    | OpLobbyStats => op_lobby_stats req
    | OpGetGameList => op_get_game_list req
    | OpCreateGame => op_create_game req
    | OpJoinGame => op_join_game req
    | OpJoinRandomGame => op_join_random req
    | OpFindFriends => op_find_friends req
    | _ => say (base_request req true)
    end
  else match operation_code req with
  | OpAuthenticate | OpAuthenticateOnce => master_authenticate req
  | _ => say (base_request req false)
  end.

(** <src/handler_masterserver.cpp:78-105 MasterServerHandler::HandleSlowUpdate>
    The value is a request to handle again. *)
Definition poll_pending : P (option Request) :=
  w ⇐ get;
  match m_pending w with
  | None => ret None
  | Some pj =>
      g ⇐ the_game (mp_game pj);
      let clear := modify (λ w, w <| m_pending := None |>) in
      let generation_changed :=
        negb (mp_generation pj =? 0)
        && negb (active_creation_generation g =? mp_generation pj) in
      let creation_aborted_ := negb (is_created g) && negb (is_creating g) in
      if is_created g && negb (is_creating g) && negb generation_changed then
        clear ;;; ret (Some (mp_request pj))
      else
        when (creation_aborted_ || generation_changed || (5000 <=? clock S - mp_wait_started pj))
          (say [Respond (operation_code (mp_request pj)) GameIdNotExists ∅
                  (channel_id (mp_request pj))] ;;; clear) ;;;
        ret None
  end.

(** <src/handler_masterserver.cpp:107-147 MasterServerHandler::HandleSlowUpdate> *)
Definition send_batch : P () :=
  w ⇐ get;
  when (5000 <? clock S - last_batched_update_ w)
    (say [Event_ EvAppStats (app_stats (the_dir w) game_connections master_connections)] ;;;
     when (negb (bool_decide (pending_game_list_updates_ w = [])))
       (modify (λ w, w <| pending_game_list_updates_ := [] |>) ;;;
        say [Event_ EvGameList
               (<[KeyGameList := of_table (batched (the_dir w) (pending_game_list_updates_ w))]> ∅)]) ;;;
     modify (λ w, w <| last_batched_update_ := clock S |>)).

(** <src/handler_masterserver.cpp:75-150 MasterServerHandler::HandleSlowUpdate> *)
Definition master_slow_update : P () :=
  r ⇐ poll_pending;
  match r with
  | Some req => master_request req
  | None => send_batch
  end.

(** <src/handler_masterserver.cpp:61-73 MasterServerHandler::HandleDisconnect> *)
Definition master_disconnect : P () :=
  w ⇐ get;
  modify (λ w, w <| m_pending := None |>) ;;;
  each (λ o : game_ptr * (string * Z),
          w ⇐ get;
          match alive (game_heap (the_dir w)) (Some o.1) with
          | Some gm =>
              at_room gm (λ g, let '(g, r) := remove_expected_user_if_generation g o.2.1 o.2.2 in
                               (g, (), []))
          | None => ret ()
          end) (owned_reservations_ w) ;;;
  modify (λ w, w <| owned_reservations_ := [] |>).

(** <src/handler_base.cpp:47-52 HandlerBase::~HandlerBase>
    With the members of [MasterServerHandler], destroyed first. *)
Definition master_destroyed : P () :=
  leave_lobby ;;;
  w ⇐ get;
  let '(r, msgs, tasks) :=
    release_identity (room_state (the_dir w)) (app_info_in (the_dir w)) (registry (m_auth w))
      (own (m_auth w)) in
  modify (λ w, w <| m_auth ::= λ a, a <| registry := r |> <| own := None |> |>) ;;;
  say ((Ipc_ <$> msgs) ++ (ScheduleExpiry <$> tasks)).

(** A notice of the joined lobby; the id is that of a room that dies. *)
Definition notified (type : Z) (changed : game_ptr + string) : P () :=
  modify (λ w, w <| pending_game_list_updates_ ::= on_notice type changed |>).
End master.
