(* ===== verification/HandlerMasterSafety.v ===== *)
(** * What a master server keeps

    Every request, update and farewell of a master server's connection keeps
    the directory sound and every subscription, this client's and the others',
    alive; and a connection never owns a reservation between two events.  The
    system of several connections over one directory is at the end. *)

From S2P Require Import Prelude Values Types GameState GameMembers GameProps GameEvents GameSteps PeerPersistence ServerManager Directory Release LobbyQuery DataModel HandlerGame HandlerBase Authentication HandlerEntry MasterLists HandlerMaster Program.
From Stdlib Require Import Ascii.
Open Scope Z_scope.

(** ** What the master server keeps *)

Create HintDb master.

(** The client is among the lobby's subscribers. *)
Definition subscribed `{Ser} (d : Directory) (h : nat) (l : lobby_ptr) : Prop :=
  ∃ lobby, lobby_heap d !! l = Some lobby ∧ h ∈ game_list_update_handlers lobby.

Section facts.
Context `{SerLaws, CodesLaws, AuthCodes, MasterCodes, SettingsSource, SqlLobbies, Transports}.
Context `{!Authenticators, !Sorting}.
Context (S : Surroundings).
Context (me : nat) (suffix : string) (pick : nat → nat).
Context (str_split : string → ascii → nat → list string).
Context (select : lobby_ptr → string → option (list string)).
Context (connections : list peer_ptr) (game_connections master_connections : Z).
(** The subscriptions of the other connections. *)
Context (others : list (nat * lobby_ptr)) (apart : ∀ h l, (h, l) ∈ others → h ≠ me).
Implicit Types (req : Request) (w : MasterWorld) (d : Directory).

Abbreviation P := (Prog MasterWorld ServerOut).

(** Whose lobby is whose: this connection's and the other connections'. *)
Definition membership w h (l : lobby_ptr) : Prop :=
  (h = me ∧ joined_lobby_ w = Some l) ∨ (h, l) ∈ others.

(** The directory is sound and every joined lobby is live, with its client
    subscribed. *)
Definition master_sound w : Prop :=
  dir_ok (the_dir w) ∧ ∀ h l, membership w h l → subscribed (the_dir w) h l.

(** Between requests the handler owns no reservation. *)
Definition master_ok w : Prop := master_sound w ∧ owned_reservations_ w = [].

Abbreviation always := (λ _ : MasterWorld, True).
Abbreviation any := (λ _ _, True).

(** A change of the directory that keeps subscribed lobbies. *)
Lemma sound_set_dir w (d : Directory) :
  dir_ok d → keeps_lobbies (the_dir w) d → master_sound w →
  master_sound (w <| m_auth ::= λ a, a <| directory := d |> |>).
Proof.
  intros Hd Hk [_ Hj]. split; [done|]. intros h l Hl.
  destruct (Hj h l Hl) as (lobby & Hlb & Hme).
  destruct (Hk _ _ Hlb) as (lobby' & Hlb' & E).
  { intros E. rewrite E in Hme. by apply elem_of_nil in Hme. }
  exists lobby'. by rewrite E.
Qed.

Lemma keeps_on_dir (Q : MasterWorld → Prop) f :
  (∀ w, master_ok w → Q w → dir_ok (f (the_dir w)) ∧ keeps_lobbies (the_dir w) (f (the_dir w))) →
  holds master_ok Q (on_dir f) any.
Proof.
  intros Hf. apply holds_modify. intros w Hw Hq. destruct (Hf w Hw Hq) as [Hd Hk].
  split; [|done]. destruct Hw as [Hs Ho]. split; [|done].
  exact (sound_set_dir w (f (the_dir w)) Hd Hk Hs).
Qed.

Lemma keeps_refuse {A} (Q : MasterWorld → Prop) req rc (R : A → MasterWorld → Prop) :
  holds master_ok Q (refuse req rc) R.
Proof. apply holds_seq; [apply holds_say_any|apply holds_stop]. Qed.

Lemma keeps_crash {A} (Q : MasterWorld → Prop) f (R : A → MasterWorld → Prop) :
  holds master_ok Q (crash f) R.
Proof. apply holds_seq; [apply holds_say_any|apply holds_stop]. Qed.

Lemma keeps_response Q req rc ps : holds master_ok Q (response req rc ps) any.
Proof. apply holds_say_any. Qed.

Lemma keeps_decoded Q ps req : holds master_ok Q (decoded ps req) (λ _, Q).
Proof. unfold decoded. destruct (decode _ _); [apply keeps_refuse|by apply holds_ret]. Qed.

(** The identity, when the program goes on, is the connection's. *)
Definition known w : Prop := is_Some (own (m_auth w)).

Lemma keeps_identity Q : holds master_ok Q identity (λ pp w, Q w ∧ own (m_auth w) = Some pp).
Proof.
  unfold identity. apply holds_get_bind. intros w _ Hq.
  destruct (own (m_auth w)) as [pp|] eqn:E; [|apply keeps_crash].
  apply holds_ret. by intros w' _ ->.
Qed.

Lemma keeps_my_app Q : holds master_ok Q my_app (λ _, Q).
Proof.
  unfold my_app. eapply holds_bind; [apply keeps_identity|]. intros pp.
  apply holds_get_bind. intros w _ [Hq _].
  destruct (a ← pp_app pp; _); [|apply keeps_crash]. apply holds_ret. by intros w' _ ->.
Qed.

Lemma keeps_the_game Q gm :
  holds master_ok Q (the_game gm) (λ _ w, Q w ∧ is_Some (game_heap (the_dir w) !! gm)).
Proof.
  intros w Hw Hq. unfold the_game, at_room.
  destruct (game_heap (the_dir w) !! gm) as [g|] eqn:Hg; [|by split].
  assert (w <| m_auth ::= λ a, a <| directory ::= λ d, d <| game_heap ::= <[gm := g]> |> |> |> = w) as E.
  { destruct w as [[[] ? ?] ? ? ? ? ?]. unfold the_dir in Hg. cbn in *. by rewrite insert_id. }
  cbn [fst snd]. rewrite E. split; [done|]. intros _ _. by rewrite Hg.
Qed.

Lemma keeps_let_lobby_go l : holds master_ok always (let_lobby_go S l) any.
Proof.
  unfold let_lobby_go. apply holds_get_bind. intros w _ _. apply keeps_on_dir.
  intros w' [[Hd _] _] _. split; [by apply release_lobby_ok|apply release_lobby_lobbies].
Qed.

Lemma keeps_lobby_at Q l : holds master_ok Q (lobby_at l) (λ _, Q).
Proof.
  unfold lobby_at. apply holds_get_bind. intros w _ Hq.
  destruct (lobby_heap _ !! l); [|apply keeps_crash]. apply holds_ret. by intros w' _ ->.
Qed.

Definition lobby_lives l w : Prop := is_Some (lobby_heap (the_dir w) !! l).
Definition game_lives gm w : Prop := is_Some (game_heap (the_dir w) !! gm).

Lemma keeps_named_lobby fs : holds master_ok always (named_lobby fs) lobby_lives.
Proof.
  unfold named_lobby. eapply holds_bind; [apply keeps_my_app|]. intros a.
  apply holds_get_bind. intros w [[Hd _] _] _.
  destruct (get_lobby _ _ _) as [[d l]|f] eqn:E; [|apply keeps_crash].
  destruct (get_lobby_lobbies _ _ _ _ _ Hd E) as [Hk Hl].
  eapply (holds_bind _ _ (λ _ w, the_dir w = d)).
  - apply holds_modify. intros w' [Hs Ho] ->. split; [|done]. split; [|done].
    apply sound_set_dir; [by eapply get_lobby_ok|done|done].
  - intros []. apply holds_ret. intros w' _ Ew. unfold lobby_lives. by rewrite Ew.
Qed.

Lemma keeps_requested req : holds master_ok always (get_requested_lobby req) lobby_lives.
Proof.
  unfold get_requested_lobby. eapply holds_bind; [apply keeps_decoded|]. intros fs.
  apply holds_get_bind. intros w [[_ Hj] _] _.
  destruct (joined_lobby_ w) as [l|] eqn:El; [|apply holds_any, keeps_named_lobby].
  destruct (empty_str _); [|apply holds_any, keeps_named_lobby].
  apply holds_ret. intros w' _ ->. destruct (Hj me l) as (lobby & E & _); [by left|]. by exists lobby.
Qed.

Lemma keeps_with_lobby req body :
  (∀ l, holds master_ok (lobby_lives l) (body l) any) →
  holds master_ok always (with_lobby S req body) any.
Proof.
  intros Hbody. unfold with_lobby. eapply holds_bind; [apply keeps_requested|]. intros l.
  eapply holds_scope; [apply Hbody|apply keeps_let_lobby_go|done].
Qed.

(** Leaving ends the subscription; the other lobbies stay. *)
Definition without_me l d : Directory :=
  d <| lobby_heap ::= alter (λ lobby,
    lobby <| game_list_update_handlers ::= λ hs, filter (λ h, h ≠ me) hs |>) l |>.

Lemma leave_lobby_world w l :
  joined_lobby_ w = Some l →
  (leave_lobby S me w).1.1 =
    w <| joined_lobby_ := None |>
      <| m_auth ::= λ a, a <| directory ::= λ d,
           release_lobby (held_by_identities S (a <| directory ::= without_me l |>))
             (without_me l d) l |> |>.
Proof. intros El. unfold leave_lobby, bind at 1, get at 1. by rewrite El. Qed.

Lemma leave_lobby_nothing w : joined_lobby_ w = None → (leave_lobby S me w).1.1 = w.
Proof. intros El. unfold leave_lobby, bind at 1, get at 1. by rewrite El. Qed.

Lemma without_me_others d l h k : h ≠ me → subscribed d h k → subscribed (without_me l d) h k.
Proof.
  intros Hne (lobby & Hk & Hh). unfold subscribed, without_me. cbn. rewrite lookup_alter.
  case_decide; [subst|by exists lobby]. rewrite Hk. eexists. split; [done|]. cbn.
  by apply list_elem_of_filter.
Qed.

Lemma released_others held d l h k :
  subscribed d h k → subscribed (release_lobby held d l) h k.
Proof.
  intros (lobby & Hk & Hh). destruct (release_lobby_lobbies held d l k lobby Hk) as (lb & E & Eh).
  { intros E. rewrite E in Hh. by apply elem_of_nil in Hh. }
  exists lb. by rewrite Eh.
Qed.

Lemma leave_keeps w : master_ok w → master_ok (leave_lobby S me w).1.1.
Proof.
  intros [[Hd Hj] Ho]. destruct (joined_lobby_ w) as [l|] eqn:El.
  - rewrite (leave_lobby_world w l El). split; [|done]. split.
    { by apply release_lobby_ok, subscribe_ok. }
    intros h k [[_ Hk]|Hk]; [done|]. apply released_others, without_me_others; [by eapply apart|].
    apply Hj. by right.
  - by rewrite leave_lobby_nothing.
Qed.

Lemma keeps_leave l' :
  holds master_ok (λ w, joined_lobby_ w ≠ Some l' ∧ lobby_lives l' w) (leave_lobby S me)
    (λ _, lobby_lives l').
Proof.
  intros w Hw [Hne Hl]. split; [by apply leave_keeps|]. intros _ _.
  destruct (joined_lobby_ w) as [l|] eqn:El.
  - rewrite (leave_lobby_world w l El). unfold lobby_lives, the_dir. cbn.
    rewrite release_lobby_other by congruence. unfold without_me. cbn.
    by rewrite lookup_alter_ne by congruence.
  - by rewrite leave_lobby_nothing.
Qed.

Lemma keeps_leave_any Q : holds master_ok Q (leave_lobby S me) any.
Proof. intros w Hw _. split; [by apply leave_keeps|done]. Qed.

(** Joining adds a subscription and ends none. *)
Definition with_me l d : Directory :=
  d <| lobby_heap ::= alter (λ lobby,
    lobby <| game_list_update_handlers ::= λ hs, me :: filter (λ h, h ≠ me) hs |>) l |>.

Lemma with_me_keeps d l h k : subscribed d h k → subscribed (with_me l d) h k.
Proof.
  intros (lobby & Hk & Hh). unfold subscribed, with_me. cbn. rewrite lookup_alter.
  case_decide; [subst|by exists lobby]. rewrite Hk. eexists. split; [done|]. cbn.
  destruct (decide (h = me)) as [->|Hne]; [by left|right]. by apply list_elem_of_filter.
Qed.

Lemma keeps_join l : holds master_ok (lobby_lives l) (join_lobby S me l) any.
Proof.
  unfold join_lobby. apply holds_get_bind. intros w Hw Hl.
  eapply (holds_bind _ _ (λ _, lobby_lives l)).
  { case_bool_decide as Hj.
    - apply holds_ret. by intros w' _ ->.
    - eapply holds_weaken; [apply (keeps_leave l)| |done]. by intros w' ->. }
  intros []. eapply (holds_bind _ _ (λ _ w, subscribed (the_dir w) me l)).
  - apply holds_modify. intros w' [[Hd Hj] Ho] [lobby Hlb].
    assert (subscribed (with_me l (the_dir w')) me l) as Hs.
    { eexists. split; [cbn; by rewrite lookup_alter_eq, Hlb|]. cbn. by left. }
    split; [|exact Hs]. split; [|done]. split; [by apply subscribe_ok|].
    intros h k Hk. by apply with_me_keeps, Hj.
  - intros []. apply holds_modify. intros w' [[Hd Hj] Ho] Hs. split; [|done]. split; [|done].
    split; [done|]. intros h k [[-> [= <-]]|Hk]; [done|]. apply Hj. by right.
Qed.

(** ** Sending a client to a room *)

(** The room lives and the connection has its identity. *)
Definition ready gm w : Prop := game_lives gm w ∧ known w.

(** The directory replaced by one computed from the current world. *)
Lemma keeps_set_dir w d :
  dir_ok d → keeps_lobbies (the_dir w) d →
  holds master_ok (λ w', w' = w) (on_dir (λ _, d))
    (λ _ w', the_dir w' = d ∧ own (m_auth w') = own (m_auth w)).
Proof.
  intros Hd Hk. apply holds_modify. intros w' [Hs Ho] ->. split; [|done]. split; [|done].
  by apply sound_set_dir.
Qed.

Lemma keeps_create_room req l i :
  holds master_ok known (create_room S req l i) (λ gm, ready gm).
Proof.
  unfold create_room. destruct (get_random_server_base_address _ _ _) as [address|];
    [|apply keeps_crash].
  apply holds_get_bind. intros w [[Hd _] _] Hk.
  destruct (create_game _ _ _ _ _ _) as [[[d r] ns]|f] eqn:E; [|apply keeps_crash].
  destruct (create_game_keeps _ _ _ _ _ _ _ _ _ Hd E) as [_ Hgm].
  eapply holds_bind.
  { apply keeps_set_dir; [by eapply create_game_ok|by eapply create_game_lobbies]. }
  intros []. eapply holds_bind; [apply holds_say|]. intros [].
  destruct r as [[gm|]|rc]; [|apply keeps_crash|apply keeps_refuse].
  apply holds_ret. intros w' _ [Ed Eo]. unfold ready, game_lives, known. rewrite Ed, Eo. auto.
Qed.

Lemma ready_at_room {A} gm (f : Game → Game * A * list Effect) :
  (∀ g, rtc step g (f g).1.1) → returns master_sound (ready gm) (at_room gm f) (λ _, ready gm).
Proof.
  intros Hf w Hw [[g Hg] Hk]. pose proof (Hf g) as Hs. unfold at_room. rewrite Hg.
  destruct (f g) as [[g' x] eff]. cbn [fst snd] in *. split; [|exists x; split; [done|]].
  - apply (sound_set_dir w (the_dir w <| game_heap ::= <[gm := g']> |>)); [|by apply same_lobbies_keep|done].
    destruct Hw as [Hd _]. by eapply (room_changes_ok (listeners S)).
  - split; [|done]. unfold game_lives, the_dir. cbn. by rewrite lookup_insert_eq.
Qed.

Lemma ready_reserve gm u : returns master_sound (ready gm) (reserve_for gm u) (λ _, ready gm).
Proof.
  unfold reserve_for. eapply returns_bind.
  { apply ready_at_room. intros g. apply rtc_once, step_reserve. }
  intros [n|]; [apply returns_modify; by intros w Hw Hr|apply returns_ret].
Qed.

Lemma ready_reserve_expected gm u us :
  returns master_sound (ready gm) (reserve_expected gm u us) (λ _, ready gm).
Proof.
  apply returns_each. intros x _. destruct (_ || _); [apply returns_ret|apply ready_reserve].
Qed.

Lemma ready_route req gm is_new ps :
  returns master_sound (ready gm) (route req gm is_new ps)
    (λ _ w, owned_reservations_ w = []).
Proof.
  intros w [Hd Hj] [Hg [pp Hp]]. unfold route. rewrite get_bind.
  destruct (room_context_live _ _ Hd Hg) as [[[g s] info] ->]. rewrite Hp.
  destruct (park _ _ _ _) as [[r msg] tasks]. by split; [|eexists].
Qed.

(** However the request reserves, the identity is handed over. *)
Lemma keeps_sending gm (m : P ()) :
  returns master_sound (ready gm) m (λ _ w, owned_reservations_ w = []) →
  holds master_ok (ready gm) m any.
Proof.
  intros Hm w [Hs Ho] Hr. destruct (Hm w Hs Hr) as (Hs' & x & _ & Ho'). by split.
Qed.

Lemma keeps_reserved_route gm u us req is_new ps :
  returns master_sound (ready gm)
    (reserve_for gm u ;;; reserve_expected gm u us ;;; route req gm is_new ps)
    (λ _ w, owned_reservations_ w = []).
Proof.
  eapply returns_bind; [apply ready_reserve|]. intros [].
  eapply returns_bind; [apply ready_reserve_expected|]. intros []. apply ready_route.
Qed.

(** A request that found its room and is allowed in, or is told why not. *)
Ltac keep_on := eapply holds_bind; [eauto with master|].
#[local] Hint Resolve keeps_identity keeps_my_app keeps_decoded keeps_the_game keeps_refuse
  keeps_crash keeps_response keeps_create_room holds_stop holds_any holds_say_any : master.

Lemma ready_weaken {A} gm (Q : MasterWorld → Prop) (m : P A) R :
  (∀ w, Q w → ready gm w) → holds master_ok (ready gm) m R → holds master_ok Q m R.
Proof. intros HQ Hm. eapply holds_weaken; [exact Hm|done|done]. Qed.

Lemma keeps_op_create req : holds master_ok always (op_create_game S suffix req) any.
Proof.
  unfold op_create_game. keep_on. intros fs. apply keeps_with_lobby. intros l.
  keep_on. intros pp. keep_on. intros a. case_bool_decide; [apply keeps_refuse|].
  eapply (holds_bind _ _ (λ gm, ready gm)).
  { eapply holds_weaken; [apply keeps_create_room| |done]. intros w [_ E]. by eexists. }
  intros gm. keep_on. intros g. eapply (ready_weaken gm); [by intros w [? _]|].
  apply keeps_sending. eapply returns_bind; [apply ready_reserve_expected|]. intros [].
  apply ready_route.
Qed.

Lemma keeps_find_or_create req l pp i mode :
  holds master_ok known (find_or_create S suffix req l pp i mode) (λ r, ready r.1).
Proof.
  unfold find_or_create. keep_on. intros a. destruct (games_ a.2 !! i) as [gm|].
  - apply holds_get_bind. intros w _ Hk. destruct (alive _ _) as [gm'|] eqn:E; [|apply keeps_refuse].
    apply holds_ret. intros w' _ ->. split; [|done].
    unfold alive in E. cbn in E. case_decide as Hl; [|done]. by injection E as <-.
  - destruct (mode =? 0); [apply keeps_refuse|]. keep_on. intros gm. apply holds_ret. by intros w _ Hr.
Qed.

Lemma keeps_let_room_go gm is_new : holds master_ok always (let_room_go S gm is_new) any.
Proof.
  unfold let_room_go. apply holds_get_bind. intros w [[Hd _] _] _. apply holds_when. intros _.
  destruct (release_room _ _ _) as [[[d ns] ms]|f] eqn:E; [|apply holds_say_any].
  eapply holds_bind; [|intros []; apply holds_say_any].
  apply keeps_set_dir; [by eapply release_room_ok|by eapply release_room_lobbies].
Qed.

Lemma keeps_wait req gm g Q : holds master_ok Q (wait_for_creation S req gm g) any.
Proof.
  unfold wait_for_creation. destruct (negb _); [apply keeps_refuse|].
  apply holds_get_bind. intros w _ _. destruct (m_pending w); [apply keeps_refuse|].
  apply holds_seq; [|apply holds_stop]. by apply holds_modify.
Qed.

Lemma keeps_join_found req fs pp gm is_new :
  holds master_ok (ready gm) (join_found S req fs pp gm is_new) any.
Proof.
  unfold join_found. keep_on. intros g. eapply (ready_weaken gm); [by intros w [? _]|].
  destruct (_ && _); [apply keeps_refuse|]. destruct (_ && _); [apply keeps_wait|].
  keep_on. intros a. eapply (holds_bind _ _ (λ _, ready gm)).
  - destruct (_ && _); [|by apply holds_ret].
    destruct (validate_join _ _ _ _ _ _); first [by apply holds_ret|apply keeps_refuse].
  - intros []. apply keeps_sending, keeps_reserved_route.
Qed.

Lemma keeps_op_join req : holds master_ok always (op_join_game S suffix req) any.
Proof.
  unfold op_join_game. keep_on. intros fs. apply keeps_with_lobby. intros l. keep_on. intros pp.
  eapply (holds_bind _ _ (λ r, ready r.1)).
  { eapply holds_weaken; [apply keeps_find_or_create| |done]. intros w [_ E]. by eexists. }
  intros [gm is_new]. eapply holds_scope; [apply keeps_join_found|apply keeps_let_room_go|done].
Qed.

Lemma keeps_select Q req fs l pp :
  holds master_ok Q (select_room S pick str_split select req fs l pp) (λ _, Q).
Proof.
  unfold select_room. eapply holds_bind; [apply keeps_lobby_at|]. intros lobby. keep_on.
  intros a. apply holds_get_bind. intros w _ Hq. destruct (_ =? _).
  - destruct (query_lobbies _ _ _); [|apply keeps_refuse]. apply holds_ret. by intros w' _ ->.
  - apply holds_ret. by intros w' _ ->.
Qed.

Lemma keeps_op_random req :
  holds master_ok always (op_join_random S suffix pick str_split select req) any.
Proof.
  unfold op_join_random. keep_on. intros fs. apply keeps_with_lobby. intros l. keep_on. intros pp.
  eapply (holds_bind _ _ (λ _, known)).
  { eapply holds_weaken; [apply (keeps_select known)| |done]. intros w [_ E]. by eexists. }
  intros selected. eapply (holds_bind _ _ (λ _, known)).
  - destruct selected as [gm|]; [by apply holds_ret|]. destruct (_ =? _); [apply keeps_refuse|].
    keep_on. intros gm. apply holds_ret. by intros w _ [_ Hk].
  - intros [gm is_new]. keep_on. intros g. eapply (ready_weaken gm); [by intros w [? ?]|].
    apply keeps_sending. eapply returns_bind; [apply ready_reserve|]. intros [].
    apply ready_route.
Qed.

(** ** Friends and lists *)

Lemma keeps_friend_room Q pp : holds master_ok Q (friend_room S pp) any.
Proof.
  unfold friend_room. apply holds_get_bind. intros w [[Hd _] _] _.
  destruct (pp_app pp) as [a|]; [|apply keeps_crash].
  destruct (get_lobby _ _ _) as [[d l]|f] eqn:El; [|apply keeps_crash].
  pose proof (get_lobby_ok _ _ _ _ _ Hd El) as Hd'.
  destruct (get_lobby_lobbies _ _ _ _ _ Hd El) as [Hk _].
  destruct (create_game _ _ _ _ _ _) as [[[d' r] ns]|f] eqn:Ec; [|apply keeps_crash].
  pose proof (create_game_ok _ _ _ _ _ _ _ _ _ Hd' Ec) as Hd2.
  eapply holds_bind.
  { apply keeps_set_dir; [by apply release_lobby_ok|].
    etrans; [exact Hk|]. etrans; [by eapply create_game_lobbies|apply release_lobby_lobbies]. }
  intros []. apply holds_seq; [apply holds_say_any|]. by apply holds_ret.
Qed.

Lemma keeps_find_friend options i : holds master_ok always (find_friend S connections options i) any.
Proof.
  unfold find_friend. destruct (friend_connection _ _ i) as [[p pp]|]; [|by apply holds_ret].
  eapply holds_bind; [apply keeps_friend_room|]. intros [[gm made]|]; [|by apply holds_ret].
  keep_on. intros g. apply holds_any, holds_seq; [apply keeps_let_room_go|]. by apply holds_ret.
Qed.

Lemma keeps_collect {A B} (f : A → P B) l :
  (∀ x, holds master_ok always (f x) any) → holds master_ok always (collect f l) any.
Proof.
  intros Hf. induction l as [|x l IH]; cbn [collect]; [by apply holds_ret|].
  eapply holds_bind; [apply Hf|]. intros y. eapply holds_bind; [apply IH|]. intros ys.
  by apply holds_ret.
Qed.

Lemma keeps_op_friends req : holds master_ok always (op_find_friends S connections req) any.
Proof.
  unfold op_find_friends. keep_on. intros a. destruct (negb _); [apply keeps_refuse|].
  keep_on. intros fs. eapply holds_bind; [|intros rs; apply keeps_response].
  apply keeps_collect. intros i. apply keeps_find_friend.
Qed.

Lemma keeps_send_list : holds master_ok always send_game_list any.
Proof.
  unfold send_game_list. apply holds_get_bind. intros w _ _.
  destruct (joined_lobby_ w) as [l|]; [|by apply holds_ret].
  eapply holds_bind; [apply keeps_lobby_at|]. intros lobby. apply holds_say_any.
Qed.

Lemma keeps_op_lobby req : holds master_ok always (op_join_lobby S me req) any.
Proof.
  apply keeps_with_lobby. intros l. apply holds_seq; [apply keeps_join|].
  apply holds_seq; [apply keeps_response|apply keeps_send_list].
Qed.

Lemma keeps_op_stats req : holds master_ok always (op_lobby_stats req) any.
Proof.
  unfold op_lobby_stats. keep_on. intros fs. keep_on. intros a. apply holds_get_bind.
  intros w _ _. apply keeps_response.
Qed.

Lemma keeps_op_list req :
  holds master_ok always (op_get_game_list S str_split select req) any.
Proof.
  unfold op_get_game_list. keep_on. intros fs. apply keeps_with_lobby. intros l.
  eapply holds_bind; [apply keeps_lobby_at|]. intros lobby.
  destruct (negb _); [apply keeps_refuse|]. keep_on. intros a. apply holds_get_bind. intros w _ _.
  destruct (query_lobbies _ _ _); apply keeps_response.
Qed.

(** ** Every event *)

Lemma keeps_authentication req refresh :
  holds master_ok always
    (λ w, let '(a, out, r) := authenticating S req refresh (m_auth w) in
          (w <| m_auth := a |>, out, r) : MasterWorld * list ServerOut * option _) any.
Proof.
  intros w [[Hd Hj] Ho] _. unfold authenticating.
  pose proof (authenticate_directory (held_by_identities S (m_auth w)) (max_connections S)
    (connection_count S) (drawn_user_id S) (drawn_token S) req refresh (m_auth w) Hd)
    as (Hd' & _ & El).
  destruct (authenticate _ _ _ _ _ _ _ _) as [[a resp] msgs]. cbn [fst snd] in *.
  split; [|done]. split; [|done]. split; [done|]. intros h l Hl. unfold subscribed, the_dir. cbn.
  rewrite El. by apply Hj.
Qed.

Lemma keeps_authenticate req : holds master_ok always (master_authenticate S req) any.
Proof.
  unfold master_authenticate. keep_on. intros fs.
  eapply holds_bind; [apply keeps_authentication|]. intros resp.
  apply holds_any, holds_seq; [apply keeps_response|]. apply holds_get_bind. intros w _ _.
  destruct (own _); [|apply holds_say_any].
  apply holds_any, holds_seq; [by apply holds_modify|]. apply holds_when. intros _.
  unfold send_lobby_stats. keep_on. intros a. apply holds_get_bind. intros w' _ _.
  apply holds_say_any.
Qed.
#[local] Hint Resolve keeps_op_create keeps_op_join keeps_op_random keeps_op_friends keeps_op_lobby
  keeps_op_stats keeps_op_list keeps_authenticate : master.

Lemma keeps_request req :
  holds master_ok always
    (master_request S me suffix pick str_split select connections req) any.
Proof.
  unfold master_request. apply holds_get_bind. intros w _ _. apply holds_any.
  destruct (negb _); [auto with master|].
  case_bool_decide; cycle 1.
  { destruct (operation_code req); auto with master. }
  destruct (operation_code req); auto with master.
  apply holds_seq; [apply keeps_leave_any|auto with master].
Qed.

Lemma keeps_poll : holds master_ok always (poll_pending S) any.
Proof.
  unfold poll_pending. apply holds_get_bind. intros w _ _. apply holds_any.
  destruct (m_pending w) as [pj|]; [|by apply holds_ret]. keep_on. intros g. apply holds_any.
  destruct (_ && _).
  - apply holds_seq; [by apply holds_modify|by apply holds_ret].
  - apply holds_seq; [|by apply holds_ret]. apply holds_when. intros _.
    apply holds_seq; [apply holds_say_any|by apply holds_modify].
Qed.

Lemma keeps_batch : holds master_ok always (send_batch S game_connections master_connections) any.
Proof.
  unfold send_batch. apply holds_get_bind. intros w _ _. apply holds_any, holds_when. intros _.
  apply holds_seq; [apply holds_say_any|]. apply holds_seq; [|by apply holds_modify].
  apply holds_when. intros _. apply holds_seq; [by apply holds_modify|apply holds_say_any].
Qed.

Lemma keeps_slow_update :
  holds master_ok always
    (master_slow_update S me suffix pick str_split select connections game_connections
       master_connections) any.
Proof.
  unfold master_slow_update. eapply holds_bind; [apply keeps_poll|].
  intros [req|]; [apply keeps_request|apply keeps_batch].
Qed.

(** Nothing is owned when the connection ends: nothing is given back. *)
Lemma disconnect_world w :
  master_ok w → (master_disconnect w).1.1 = w <| m_pending := None |>.
Proof.
  intros [_ Ho]. unfold master_disconnect. rewrite get_bind, Ho. destruct w. cbn in *. by subst.
Qed.
End facts.

(** ** Several connections over one directory *)

Section system.
Context `{SerLaws, CodesLaws, AuthCodes, MasterCodes, SettingsSource, SqlLobbies, Transports}.
Context `{!Authenticators, !Sorting}.
Implicit Types (w : MasterWorld).

(** What the server does for connection [me]. *)
Inductive master_event (me : nat) w : MasterWorld → Prop :=
  | requested S suffix pick str_split select connections req :
      master_event me w
        (master_request S me suffix pick str_split select connections req w).1.1
  | updated S suffix pick str_split select connections game_connections master_connections :
      master_event me w
        (master_slow_update S me suffix pick str_split select connections game_connections
           master_connections w).1.1
  | told type changed : master_event me w (notified type changed w).1.1
  | hung_up : master_event me w (master_disconnect w).1.1
  | gone S : master_event me w (master_destroyed S me w).1.1.

(** The directory and the registry are the server's; the rest is each
    connection's own. *)
Record Masters := mkMasters {
  shared_directory : Directory;
  shared_registry : Registry;
  clients : gmap nat MasterWorld;
}.

(** The connection as its handler sees it. *)
Definition seen m w : MasterWorld :=
  w <| m_auth ::= λ a, a <| directory := shared_directory m |> <| registry := shared_registry m |> |>.

Inductive masters_step m : Masters → Prop :=
  | connects i now :
      clients m !! i = None →
      masters_step m (mkMasters (shared_directory m) (shared_registry m)
        (<[i := mkMaster (mkAuthWorld (shared_directory m) (shared_registry m) None)
                  None None [] [] now]> (clients m)))
  | acts i w w' :
      clients m !! i = Some w → master_event i (seen m w) w' →
      masters_step m (mkMasters (the_dir w') (registry (m_auth w')) (<[i := w']> (clients m)))
  | departs i w S :
      clients m !! i = Some w →
      let w' := (master_destroyed S i (seen m w)).1.1 in
      masters_step m (mkMasters (the_dir w') (registry (m_auth w')) (delete i (clients m)))
  | plays gm g g' :
      game_heap (shared_directory m) !! gm = Some g → step g g' →
      masters_step m (mkMasters (shared_directory m <| game_heap ::= <[gm := g']> |>)
                        (shared_registry m) (clients m)).

Record masters_ok m : Prop := {
  masters_dir : dir_ok (shared_directory m);
  masters_client i w : clients m !! i = Some w →
    owned_reservations_ w = [] ∧
    ∀ l, joined_lobby_ w = Some l → subscribed (shared_directory m) i l;
}.

(** The subscriptions of everyone but [i]. *)
Definition others_of i m : list (nat * lobby_ptr) :=
  omap (λ c : nat * MasterWorld, l ← joined_lobby_ c.2; Some (c.1, l))
    (map_to_list (delete i (clients m))).

Lemma elem_of_others i m h l :
  (h, l) ∈ others_of i m ↔ h ≠ i ∧ ∃ w, clients m !! h = Some w ∧ joined_lobby_ w = Some l.
Proof.
  unfold others_of. rewrite list_elem_of_omap. split.
  - intros ([k w] & Hk & E). apply elem_of_map_to_list, lookup_delete_Some in Hk as [Hne Hk].
    cbn in E. destruct (joined_lobby_ w) eqn:El; simplify_eq/=. eauto.
  - intros (Hne & w & Hw & El). exists (h, w). cbn. rewrite El. split; [|done].
    apply elem_of_map_to_list, lookup_delete_Some. by split.
Qed.

Lemma seen_ok i m w :
  masters_ok m → clients m !! i = Some w → master_ok i (others_of i m) (seen m w).
Proof.
  intros Hm Hw. destruct (masters_client _ Hm i w Hw) as [Ho Hj]. split; [|done].
  split; [exact (masters_dir _ Hm)|]. intros h l [[-> Hl]|Hl].
  - by apply Hj.
  - apply elem_of_others in Hl as (_ & w2 & Hw2 & El). by eapply masters_client.
Qed.

Lemma master_event_ok me others w w' :
  (∀ h l, (h, l) ∈ others → h ≠ me) → master_event me w w' →
  master_ok me others w → master_ok me others w'.
Proof.
  intros Hap He Hw. destruct He.
  - by apply keeps_request.
  - by apply keeps_slow_update.
  - done.
  - by rewrite (disconnect_world me others).
  - unfold master_destroyed. pose proof (leave_keeps S me others Hap w Hw) as Hl.
    unfold bind at 1. destruct (leave_lobby S me w) as [[w1 out] [[]|]]; [|done].
    rewrite get_bind. destruct (release_identity _ _ _ _) as [[r msgs] tasks]. exact Hl.
Qed.

(** The others' subscriptions survive whatever connection [i] does. *)
Lemma others_survive i m w' k w l :
  master_ok i (others_of i m) w' → k ≠ i → clients m !! k = Some w → joined_lobby_ w = Some l →
  subscribed (the_dir w') k l.
Proof.
  intros [[_ Hj] _] Hne Hk Hl. apply Hj. right. apply elem_of_others. eauto.
Qed.

Lemma masters_step_ok m m' : masters_step m m' → masters_ok m → masters_ok m'.
Proof.
  assert (∀ i h l, (h, l) ∈ others_of i m → h ≠ i) as Hap.
  { by intros i h l [Hne _]%elem_of_others. }
  intros Hs Hm. destruct Hs as [i now Hi|i w w' Hi He|i w S Hi w'|gm g g' Hg Hs].
  - split; [exact (masters_dir _ Hm)|]. cbn. intros k w [[<- <-]|[Hne Hk]]%lookup_insert_Some; [done|].
    by apply (masters_client _ Hm).
  - pose proof (master_event_ok i _ _ _ (Hap i) He (seen_ok i m w Hm Hi)) as Hw'.
    split; [by destruct Hw' as [[? _] _]|]. cbn.
    intros k x [[<- <-]|[Hne Hk]]%lookup_insert_Some.
    + destruct Hw' as [[_ Hj] Ho]. split; [done|]. intros l Hl. apply Hj. by left.
    + split; [by eapply masters_client|]. intros l Hl. by eapply others_survive.
  - pose proof (master_event_ok i _ _ _ (Hap i) (gone i _ S) (seen_ok i m w Hm Hi)) as Hw'.
    split; [by destruct Hw' as [[? _] _]|]. cbn. intros k x [Hne Hk]%lookup_delete_Some.
    split; [by eapply masters_client|]. intros l Hl. by eapply others_survive.
  - split; [|exact (masters_client _ Hm)]. cbn.
    eapply (room_changes_ok []); [exact (masters_dir _ Hm)|done|by apply rtc_once].
Qed.

(** C25: however many connections a master server has, whatever requests they
    make in whatever order (creating, joining and matching rooms, coming and
    going), and whatever the rooms do meanwhile, the directory stays sound,
    every lobby a client joined is live and lists the client among its
    subscribers, and no connection is left owning a reservation. *)
Theorem master_servers_sound m m' : rtc masters_step m m' → masters_ok m → masters_ok m'.
Proof. induction 1; eauto using masters_step_ok. Qed.
End system.
