(* ===== verification/HandlerMasterRoutes.v ===== *)
(** * From the master server to the room

    What a request to join a created room does, and that the client sent away
    arrives in the room it was sent to. *)

From S2P Require Import Prelude Values Types GameState GameMembers GameProps GameEvents GameCreation GameSteps GameAdmission PeerPersistence ServerManager Directory Release LobbyQuery DataModel HandlerGame HandlerBase Authentication HandlerEntry MasterLists HandlerMaster Program.
From Stdlib Require Import Ascii.
Open Scope Z_scope.

Section routes.
Context `{SerLaws, CodesLaws, !RegistryKeys, AuthCodes, MasterCodes, SettingsSource, SqlLobbies, Transports}.
Context `{!Authenticators, !Sorting}.
Context (S : Surroundings).
Implicit Types (req : Request) (w : MasterWorld) (d : Directory).

Abbreviation P := (Prog MasterWorld ServerOut).

(** ** Reading the world *)

Lemma the_game_quiet w gm g :
  game_heap (the_dir w) !! gm = Some g → the_game gm w = (w, [], Some g).
Proof.
  intros Hg. unfold the_game, at_room. rewrite Hg. do 2 f_equal.
  destruct w as [[[] ? ?] ? ? ? ? ?]. unfold the_dir in Hg. cbn in *. by rewrite insert_id.
Qed.

Lemma my_app_quiet w pp a app :
  own (m_auth w) = Some pp → pp_app pp = Some a → app_heap (the_dir w) !! a = Some app →
  my_app w = (w, [], Some (a, app)).
Proof.
  intros Ho Ea Hap. unfold my_app, identity. rewrite (quiet_bind _ _ w pp).
  - rewrite get_bind, Ea. cbn. by rewrite Hap.
  - by rewrite get_bind, Ho.
Qed.

Lemma refuse_run {A} req rc w :
  refuse (A := A) req rc w = (w, [Respond (operation_code req) rc ∅ 0], None).
Proof. done. Qed.

(** ** Reservations *)

(** The room [gm] is [g], but for users among [us] expected besides. *)
Definition expecting gm g (us : list string) w : Prop :=
  ∃ g', game_heap (the_dir w) !! gm = Some g' ∧
    peers g' = peers g ∧ dummy_peer_count g' = dummy_peer_count g ∧ max_peers g' = max_peers g ∧
    is_created g' = is_created g ∧ server_address g' = server_address g ∧ id g' = id g ∧
    game_lobby g' = game_lobby g ∧
    expected_users g' = expected_users g ∪ list_to_set (filter (λ u, u ≠ EmptyString) us).

Definition anything := λ _ : MasterWorld, True.

(** Only rooms and reservations may have changed. *)
Definition same_client w0 w : Prop :=
  own (m_auth w) = own (m_auth w0) ∧ registry (m_auth w) = registry (m_auth w0) ∧
  lobby_heap (the_dir w) = lobby_heap (the_dir w0) ∧ app_heap (the_dir w) = app_heap (the_dir w0).

Lemma expecting_start gm g w :
  game_heap (the_dir w) !! gm = Some g → expecting gm g [] w ∧ same_client w w.
Proof. intros Hg. split; [|done]. exists g. repeat split; [done|]. set_solver. Qed.

Lemma reserve_for_expects gm g us u w0 :
  returns anything (λ w, expecting gm g us w ∧ same_client w0 w) (reserve_for gm u)
    (λ _ w, expecting gm g (us ++ [u]) w ∧ same_client w0 w).
Proof.
  unfold reserve_for.
  apply (returns_bind _ _ (λ _ w, expecting gm g (us ++ [u]) w ∧ same_client w0 w)).
  2: { intros [n|]; [by apply returns_modify|apply returns_ret]. }
  intros w _ [(g' & Hg & Ep & Ed & Em & Ec & Ea & Ei & El & Eu) Hsame].
  unfold at_room. rewrite Hg.
  pose proof (reserve_users_spec [u] 30000 g') as (Ep' & Ed' & Em' & Eu'). cbn [reserve_users foldl] in *.
  pose proof (reserve_same_room g' u 30000) as Hs.
  destruct (reserve_expected_user_with_generation g' u 30000) as [[g2 r] eff]. cbn [fst] in *.
  split; [done|]. exists r. split; [done|]. split; [|done].
  exists g2. unfold the_dir. cbn. rewrite lookup_insert_eq.
  split; [done|]. rewrite Ep', Ed', Em', Eu', Eu, filter_app, list_to_set_app_L.
  pose proof (f_equal is_created Hs). pose proof (f_equal server_address Hs).
  pose proof (f_equal id Hs). pose proof (f_equal game_lobby Hs). cbn in *.
  repeat split; try congruence. by rewrite union_assoc_L.
Qed.

Lemma reserve_expected_expects gm g us u news w0 :
  returns anything (λ w, expecting gm g us w ∧ same_client w0 w) (reserve_expected gm u news)
    (λ _ w, expecting gm g (us ++ filter (λ x, x ≠ EmptyString ∧ x ≠ u) news) w ∧ same_client w0 w).
Proof.
  unfold reserve_expected. revert us. induction news as [|x news IH]; intros us; cbn [each].
  - cbn. rewrite app_nil_r. apply returns_ret.
  - rewrite filter_cons. destruct (_ || _) eqn:Eb.
    + rewrite decide_False.
      2: { unfold empty_str in Eb. apply orb_true_iff in Eb as [Eb|Eb]; bools; tauto. }
      eapply returns_bind; [apply returns_ret|]. intros []. apply IH.
    + apply orb_false_iff in Eb as [E1 E2]. unfold empty_str in E1. bools.
      rewrite decide_True by done. rewrite cons_middle, app_assoc.
      eapply returns_bind; [apply reserve_for_expects|]. intros []. apply IH.
Qed.

(** ** Handing the identity over *)

(** The identity is parked with this invitation. *)
Definition handed_over (pp : PeerPersistent) (info : GameInfo) w : Prop :=
  own (m_auth w) = None ∧ owned_reservations_ w = [] ∧ registry_ok (registry (m_auth w)) ∧
  ∃ pp', parked (registry (m_auth w)) (token pp) = Some pp' ∧
    user_id pp' = user_id pp ∧ pp_app pp' = pp_app pp ∧ invitation pp' = info.

Lemma route_hands_over req gm is_new ps w g s info pp :
  room_context (the_dir w) gm = Some (g, s, info) → own (m_auth w) = Some pp →
  registry_ok (registry (m_auth w)) → pp_app pp ≠ None →
  next_store_generation (registry (m_auth w)) < 2 ^ 64 - 1 →
  ∃ w' msg tasks,
    route req gm is_new ps w =
      (w', Ipc_ msg :: (ScheduleExpiry <$> tasks) ++ [Respond (operation_code req) Ok ps 0], Some ()) ∧
    the_dir w' = the_dir w ∧ handed_over pp (get_game_info info g) w'.
Proof.
  intros Hc Ho Hr Ha Hmax. unfold route. rewrite get_bind, Hc, Ho. unfold park.
  set (pp1 := invite_game gm (get_game_info info g) is_new pp).
  assert (token pp1 = token pp ∧ user_id pp1 = user_id pp ∧ pp_app pp1 = pp_app pp ∧
    invitation pp1 = get_game_info info g) as (Et & Eu & Eapp & Ei) by by destruct is_new.
  assert (pp_app pp1 ≠ None) as Ha1 by by rewrite Eapp.
  destruct (store_found (room_state (the_dir w)) (registry (m_auth w)) pp1 Hr Ha1 Hmax) as (Hr' & Hp & _ & _).
  pose proof (reset_owned_same (room_state (the_dir w)) pp1) as (_ & Eu' & Eapp' & Ei' & _).
  destruct (store_persistent_peer _ _ pp1) as [r tasks]. cbn [fst] in *.
  eexists _, _, tasks. split; [done|]. split; [done|]. split; [done|]. split; [done|].
  split; [done|]. rewrite <-Et. eexists. split; [exact Hp|].
  unfold stored_form. upd. rewrite Eu', Eapp', Ei', Eu, Eapp, Ei. by repeat split.
Qed.

Lemma room_context_lobby d gm g s info :
  room_context d gm = Some (g, s, info) ↔
  game_heap d !! gm = Some g ∧ ∃ lobby a app, lobby_heap d !! game_lobby g = Some lobby ∧
    lobby_app lobby = Some a ∧ app_heap d !! a = Some app ∧ s = settings_ app ∧
    info = get_lobby_info app lobby.
Proof.
  unfold room_context, room_app. split.
  - destruct (game_heap d !! gm) as [g'|]; [|done]. cbn.
    destruct (lobby_heap d !! game_lobby g') as [lobby|] eqn:El; [|done]. cbn.
    destruct (lobby_app lobby) as [a|] eqn:Ea; [|done]. cbn.
    destruct (app_heap d !! a) as [app|] eqn:Eapp; [|done]. cbn. intros [= <- <- <-].
    split; [done|]. exists lobby, a, app. by repeat split.
  - intros (-> & lobby & a & app & El & Ea & Eapp & -> & ->). cbn. rewrite El. cbn.
    rewrite Ea. cbn. by rewrite Eapp.
Qed.

(** Expecting users does not change where a room is. *)
Lemma expecting_context w0 w gm g s info us :
  room_context (the_dir w0) gm = Some (g, s, info) → expecting gm g us w → same_client w0 w →
  ∃ g', room_context (the_dir w) gm = Some (g', s, info) ∧
    get_game_info info g' = get_game_info info g.
Proof.
  intros (_ & lobby & a & app & Hl)%room_context_lobby (g' & Hg & ?) (_ & _ & El & Ea).
  exists g'. split.
  - apply room_context_lobby. split; [done|]. exists lobby, a, app. rewrite El, Ea.
    destruct_and!. repeat split; congruence.
  - unfold get_game_info. destruct_and!. congruence.
Qed.

(** ** Joining a created room *)

Lemma token_not_id : KeyGameId ≠ KeyToken.
Proof.
  pose proof registry_keys_nodup as Hn. cbn in Hn. apply NoDup_cons in Hn as [Hn _].
  intros E. apply Hn. rewrite <-E. set_solver.
Qed.

(** The users a join names: itself, and others once each. *)
Lemma named_once (X : gset string) u news :
  X ∪ list_to_set (filter (λ x, x ≠ EmptyString) (([] ++ [u]) ++
        filter (λ x, x ≠ EmptyString ∧ x ≠ u) news))
  = X ∪ list_to_set (filter (λ x, x ≠ EmptyString) (u :: news)).
Proof.
  f_equal. apply set_eq. intros x. cbn [Datatypes.app].
  rewrite !elem_of_list_to_set, !list_elem_of_filter, !elem_of_cons, list_elem_of_filter.
  destruct (decide (x = u)); naive_solver.
Qed.

Lemma named_bound g u news :
  expected_users g ∪ list_to_set (filter (λ x, x ≠ EmptyString) (u :: news))
  ⊆ {[u]} ∪ expected_users g ∪ unique_expected g u news.
Proof.
  intros x. unfold unique_expected.
  rewrite !elem_of_union, !elem_of_list_to_set, !list_elem_of_filter, elem_of_cons, elem_of_singleton.
  destruct (decide (x ∈ expected_users g)), (decide (x = u)); tauto.
Qed.

(** What asking to join a created room does.  A rejoin needs a
    reservation; then the room's own check decides.  Refused, the client is
    told why and nothing changes; let in, its identity is parked with the
    room as its invitation, the client is told where to go, the room expects
    exactly the client and the users it brings in addition and stays within
    its capacity, and the connection owns no reservation any more. *)
Theorem join_existing_game req fs pp gm w g s info a app :
  room_context (the_dir w) gm = Some (g, s, info) → is_created g = true →
  own (m_auth w) = Some pp → registry_ok (registry (m_auth w)) →
  next_store_generation (registry (m_auth w)) < 2 ^ 64 - 1 →
  pp_app pp = Some a → app_heap (the_dir w) !! a = Some app →
  let user := user_id pp in
  let news := got TStrings KeyExpectedUsers fs in
  let verdict :=
    if (got TByte KeyCreateIfNotExists fs =? 3) && negb (has_expected_user g user)
    then GameIdNotExists
    else validate_join (settings_ app) (live_peers S) g user news false in
  let '(w', out, _) := join_found S req fs pp gm false w in
  if decide (verdict = Ok) then
    handed_over pp (get_game_info info g) w' ∧
    (∃ ps, Respond (operation_code req) Ok ps 0 ∈ out ∧
       ps !! KeyToken = Some (of_string (token pp))) ∧
    ∃ g', game_heap (the_dir w') !! gm = Some g' ∧ peers g' = peers g ∧
      expected_users g' = expected_users g ∪
        list_to_set (filter (λ u, u ≠ EmptyString) (user :: news)) ∧
      within_capacity (settings_ app) g'
  else w' = w ∧ out = [Respond (operation_code req) verdict ∅ 0].
Proof.
  intros Hc Hcr Ho Hr Hmax Ha Happ user news verdict.
  pose proof (proj1 (room_context_lobby _ _ _ _ _) Hc) as [Hg _].
  unfold join_found. rewrite (quiet_bind _ _ w g) by by apply the_game_quiet.
  fold user. subst verdict. rewrite Hcr. cbn [negb andb orb].
  destruct (_ && negb _) eqn:E3.
  { rewrite refuse_run. case_decide; [done|by split]. }
  rewrite (quiet_bind _ _ w (a, app)) by by eapply my_app_quiet.
  cbn [fst snd]. destruct (validate_join _ _ _ _ _ _) eqn:Hv.
  all: try (rewrite (surjective_pairing (bind _ _ w)); unfold bind at 1; rewrite refuse_run;
            case_decide; [done|by split]).
  rewrite (quiet_bind _ _ w ()) by done.
  destruct (returns_run anything _ _ _ w (reserve_for_expects gm g [] user w)) as
    (w1 & o1 & [] & E1 & _ & Hx1); [done|by apply expecting_start|].
  destruct (returns_run anything _ _ _ w1 (reserve_expected_expects gm g ([] ++ [user]) user news w))
    as (w2 & o2 & [] & E2 & _ & [Hx Hs]); [done|done|].
  destruct (expecting_context w w2 gm g s info _ Hc Hx Hs) as (g2 & Hc2 & Egi).
  destruct Hx as (g2' & Hg2 & Ep & Ed & Em & _ & _ & _ & _ & Eu). destruct Hs as (So & Sr & _ & _).
  assert (g2' = g2) as -> by (apply room_context_lobby in Hc2 as [? _]; congruence).
  rewrite (ran_bind _ _ _ _ _ _ E1), (ran_bind _ _ _ _ _ _ E2).
  set (ps := if bool_decide _ then _ else _).
  destruct (route_hands_over req gm false ps w2 g2 s info pp Hc2) as (w3 & msg & tasks & E3' & Ed3 & Hh);
    [congruence..|].
  rewrite E3', <-Egi, decide_True by done. split; [done|]. split.
  { exists ps. split; [rewrite app_assoc, app_comm_cons, app_assoc; apply elem_of_app; right; by left|].
    subst ps. unfold way_to.
    case_bool_decide; by rewrite ?lookup_insert_ne, lookup_insert_eq by apply token_not_id. }
  exists g2. rewrite Ed3. split; [done|]. split; [done|].
  rewrite named_once in Eu. split; [exact Eu|].
  eapply (reservation_fits _ (live_peers S) g g2 user news false Hv); [done..|].
  rewrite Eu. by apply named_bound.
Qed.
End routes.

(** ** Arriving at the room *)

Section arrival.
Context `{SerLaws, CodesLaws, AuthCodes, MasterCodes, SettingsSource, SqlLobbies, Transports}.
Context `{!Authenticators, !Sorting}.
Implicit Types (req : Request) (w : MasterWorld) (d : Directory).

(** A live room is found by the identification the master server put into the
    invitation, and finding it changes nothing. *)
Lemma find_invited configs held d gm g s info :
  dir_ok d → room_context d gm = Some (g, s, info) →
  find_room configs held d (get_game_info info g) = inl (d, inl (Some gm), []).
Proof.
  intros Hok (Hg & lobby & a & app & Hl & Ea & Happ & -> & ->)%room_context_lobby.
  destruct (dir_room _ Hok _ _ Hg) as (_ & Hid & _).
  destruct (dir_home _ Hok _ _ Hl) as [Eh _]. rewrite Ea in Eh. injection Eh as Eh.
  unfold find_room, get_lobby_by_info, Directory.get. cbn [gi_lobby get_game_info get_lobby_info li_app].
  destruct (find_lobby_ok d a app (lobby_name lobby, lobby_type lobby) Hok Happ) as [Hal ->].
  unfold get_lobby. rewrite Happ. cbn [li_name li_type get_lobby_info gi_id gi_server_address get_game_info].
  rewrite Hal.
  assert (lobbies_ app !! (lobby_name lobby, lobby_type lobby) = Some (game_lobby g)) as ->.
  { apply (dir_lobbies _ Hok a); [unfold lobbies_of; by rewrite Happ|].
    apply lobby_key_Some. by exists lobby. }
  unfold create_game. rewrite Hl. unfold empty_str at 1. rewrite bool_decide_eq_false_2 by done.
  assert (room_app d lobby = Some (a, app)) as -> by (unfold room_app; rewrite Ea; cbn; by rewrite Happ).
  assert (games_ app !! id g = Some gm) as ->.
  { apply (dir_games _ Hok a); [unfold games_of; by rewrite Happ|].
    apply room_key_Some. by exists g, lobby. }
  rewrite (alive_Some _ _ _ Hg). do 3 f_equal.
  unfold release_lobby. rewrite Hl.
  assert (existsb (λ kv : game_ptr * Game, bool_decide (game_lobby kv.2 = game_lobby g))
    (map_to_list (game_heap d)) = true) as ->; [|done].
  apply existsb_exists. exists (gm, g). split; [|by apply bool_decide_eq_true].
  by apply list_elem_of_In, elem_of_map_to_list.
Qed.

(** Entering the room of an invitation that is found. *)
Lemma enter_found S req (w : EntryWorld) pp d gm :
  own (auth w) = Some pp → directory (auth w) = d → gm ∉ external_games_ S →
  find_room (listeners S) (held_by_identities S (auth w)) d (invitation pp)
    = inl (d, inl (Some gm), []) →
  let '(w', out, _) := enter_room S req w in
  current_game w' = Some gm ∧ current_game_ (front w') = true ∧ directory (auth w') = d ∧
  own (auth w') = Some (reset_owned_game_if_created (room_state d) pp) ∧ out = [].
Proof.
  intros Ho <- Hext Hf. unfold enter_room. rewrite get_bind, Ho, Hf.
  unfold on_auth, on_own, is_game_external. rewrite bool_decide_eq_false_2 by done.
  cbn. rewrite Ho. by destruct w as [[] [] ? ?].
Qed.

(** C26: The way from the master server to a room: a client the master server
    sends to a room, and that presents its token to the game server that
    holds the room, is let in with its identity and its connection is given
    exactly that room; nothing about the rooms changes on the way. *)
Theorem routed_client_enters S touch req gm is_new ps w g s info pp areq we :
  dir_ok (the_dir w) → room_context (the_dir w) gm = Some (g, s, info) →
  own (m_auth w) = Some pp → registry_ok (registry (m_auth w)) → pp_app pp ≠ None →
  next_store_generation (registry (m_auth w)) < 2 ^ 64 - 1 →
  let w' := (route req gm is_new ps w).1.1 in
  directory (auth we) = the_dir w' → registry (auth we) = registry (m_auth w') →
  own (auth we) = None → below (max_connections S) (connection_count S) →
  gm ∉ external_games_ S →
  r_parameters areq !! KeyToken = Some (of_string (token pp)) →
  touch (r_parameters areq) = r_parameters areq →
  let '(we', out, _) := entry_authenticate S touch areq we in
  current_game we' = Some gm ∧ current_game_ (front we') = true ∧
  directory (auth we') = the_dir w ∧
  (∃ pp', own (auth we') = Some pp' ∧ user_id pp' = user_id pp ∧ pp_app pp' = pp_app pp) ∧
  ∃ msg, out = [Ipc_ msg; Respond (operation_code areq) Ok (<[KeyPosition := of_int32 0]> ∅) 0].
Proof.
  intros Hd Hc Ho Hr Ha Hmax w' Edir Ereg Eown Hlim Hext Htok Htouch.
  destruct (route_hands_over req gm is_new ps w g s info pp Hc Ho Hr Ha Hmax)
    as (w1 & msg & tasks & E & Ed & _ & _ & Hr1 & pp1 & Hp1 & Eu & Eapp & Ei).
  subst w'. rewrite E in Edir, Ereg. cbn [fst] in Edir, Ereg. rewrite Ed in Edir. rewrite <-Ereg in Hr1, Hp1.
  unfold entry_authenticate. rewrite get_bind, Htok. cbn [mbind option_bind].
  rewrite acc_get, (parked_known _ _ _ Hp1). cbn [negb].
  set (req' := mkRequest _ _ _ _ _).
  assert (r_parameters req' !! KeyToken = Some (of_string (token pp))) as Htok'
    by (subst req'; cbn [r_parameters]; by rewrite Htouch).
  destruct (authenticate_parked (held_by_identities S (auth we)) _ _ (drawn_user_id S)
    (drawn_token S) req' false (auth we) _ _ Hr1 Hlim Htok' Hp1) as (r2 & _ & _ & Eau).
  cbn zeta in Eau. unfold bind at 1, authenticating. rewrite Eau.
  set (a := auth we <| registry := r2 |> <| own := Some pp1 |>).
  rewrite (ran_bind (say _) _ _ _ _ ()) by done.
  assert (own (auth (we <| auth := a |>)) = Some pp1) as Ho1 by done.
  pose proof (enter_found S req' _ pp1 (the_dir w) gm Ho1 Edir Hext) as He.
  rewrite Ei in He. specialize (He (find_invited _ _ _ _ _ _ _ Hd Hc)).
  destruct (enter_room S req' _) as [[we' out] r]. destruct He as (-> & -> & -> & -> & ->).
  do 3 (split; [done|]). split; [|by eexists].
  eexists. split; [done|].
  pose proof (reset_owned_same (room_state (the_dir w)) pp1) as (_ & -> & -> & _). by split.
Qed.
End arrival.
