(* ===== verification/Mirror.v ===== *)
(** * Rooms mirrored from other processes

    Models the events of [ServerManager::process_ipc_event] in
    [server_manager.cpp]: a room of another process appears here as an
    external game, which the server manager keeps alive, follows the updates
    its owner broadcasts and forgets the room when the owner deletes it.
    Parked identities travel by the same events. *)

From S2P Require Import Prelude Values Types GameState GameMembers GameProps GameEvents GameCreation GameSteps GameAdmission PeerPersistence ServerManager Directory Release HandlerEntry.
Open Scope Z_scope.

(** The shared state the events change. *)
Record MirrorWorld `{Ser} := mkMirror {
  mirrored : Directory;
  mirrored_identities : Registry;
  external_games : list game_ptr;
}.
#[export] Instance eta_MirrorWorld `{Ser} : Eta MirrorWorld := λ w,
  mkMirror _ (mirrored w) (mirrored_identities w) (external_games w).
Arguments mkMirror {_} _ _ _.

(** What an event does besides: to the room, to the lobby's subscribers, to
    the other processes. *)
Inductive MirrorOut `{Ser} :=
  | MirrorEffect (gm : game_ptr) (e : Effect)
  | MirrorNotice (n : Notice)
  | MirrorMessage (m : EventMessage).

Section mirror.
Context `{Ser, Codes, SettingsSource, SqlLobbies, Transports}.
Context (configs : list ServerConfig).
(** Who else holds an application or a room. *)
Context (held : app_ptr → bool) (held_room : game_ptr → bool).
Implicit Types (w : MirrorWorld) (d : Directory) (g : Game) (params : ParameterList).

(** [params[key].get_ptr<T>()] *)
Definition param {A} params key (acc : Value → option A) : option A :=
  v ← params !! key; acc v.

(** ** An update of a room *)

(** <src/server_manager.cpp:919-924 ServerManager::process_ipc_event> *)
Definition update_state params g : Game :=
  let g := match param params KeyBroadcast get_bool with
           | Some b => g <| is_created := b |> | None => g end in
  let g := match param params IpcIsCreating get_bool with
           | Some b => g <| is_creating := b |> | None => g end in
  match param params IpcIsVisible get_bool with
  | Some b => g <| is_visible := b |> | None => g
  end.

(** <src/server_manager.cpp:928-932 ServerManager::process_ipc_event>
    The reservations are replaced. *)
Definition replace_expected (users : list string) g : Game * list Effect :=
  foldl (λ st u, let '(g, _, eff) := reserve_expected_user st.1 u 30000 in (g, st.2 ++ eff))
    (foldl remove_expected_user g (elements (expected_users g)), []) users.

(** <src/server_manager.cpp:937-945 ServerManager::process_ipc_event> *)
Definition update_props (settings : AppSettings) (info : LobbyInfo) params g :
    Game * list Effect :=
  match param params KeyGameProperties get_table with
  | None => (g, [])
  | Some props =>
      let g := match (v ← props !! of_byte PlayerCount; get_byte v) with
               | Some n => g <| dummy_peer_count := n |> | None => g end in
      insert_game_props settings info g props
  end.

(** <src/server_manager.cpp:901-945 ServerManager::process_ipc_event>
    [None] drops an update that is older than what this process knows. *)
Definition update_mirror (settings : AppSettings) (info : LobbyInfo) params
    (is_new : bool) g : option (Game * list Effect) :=
  let revision := revision_param params in
  if negb is_new && match revision with Some rev => rev <? state_revision_ g | None => false end
  then None
  else
    let g := update_state params g in
    let g := match revision with Some rev => g <| state_revision_ := rev |> | None => g end in
    let '(g, eff) := match param params IpcExpectedUsers get_strings with
                     | Some users => replace_expected users g
                     | None => (g, [])
                     end in
    let '(g, eff') := update_props settings info params g in
    Some (g, eff ++ eff').

(** ** The events *)

(** <src/server_manager.cpp:836-838 ServerManager::process_ipc_event> *)
Definition find_external w (info : GameInfo) : option game_ptr :=
  find_first (λ gm, match room_context (mirrored w) gm with
                    | Some (g, _, lobby) => matches_game_info lobby g info
                    | None => false
                    end) (external_games w).

(** <src/server_manager.cpp:840-852 ServerManager::process_ipc_event>
    The room dies unless somebody else holds it. *)
Definition process_delete w params : option (MirrorWorld * list MirrorOut) :=
  info ← decode_game_info params;
  match find_external w info with
  | None => Some (w, [])
  | Some gm =>
      let d := mirrored w <| game_heap ::= alter (λ g, g <| empty_game_ttl := 0 |>) gm |> in
      let w := w <| external_games ::= filter (λ x, x ≠ gm) |> in
      if held_room gm then Some (w <| mirrored := d |>, [])
      else match release_room held d gm with
           | inr _ => None
           | inl (d, ns, msgs) =>
               Some (w <| mirrored := d |>, (MirrorNotice <$> ns) ++ (MirrorMessage <$> msgs))
           end
  end.

(** <src/server_manager.cpp:854-899 ServerManager::process_ipc_event>
    The room the update is about, made when it is not known; [None] in the
    value ends the handling with a line in the log.  Temporary pointers are
    let go; a lookup that throws is [None]. *)
Definition locate w params (info : GameInfo) :
    option (MirrorWorld * list Notice * option (game_ptr * bool)) :=
  match find_external w info with
  | Some gm => Some (w, [], Some (gm, false))
  | None =>
      match Directory.get (mirrored w) (key_of (li_app (gi_lobby info))) with
      | (d, None) => Some (w <| mirrored := d |>, [], None)
      | (d, Some a) =>
          match get_lobby d a (li_name (gi_lobby info), li_type (gi_lobby info)) with
          | inr _ => None
          | inl (d, l) =>
              let address := default EmptyString (param params KeyAddress get_string) in
              if empty_str address
              then Some (w <| mirrored := release_lobby held d l |>, [], None)
              else match create_game configs d l (gi_id info) address true with
                   | inr _ => None
                   | inl (d, r, ns) =>
                       let w := w <| mirrored := release_lobby held d l |> in
                       match r with
                       | inl (Some gm) =>
                           Some (w <| external_games ::= λ l, l ++ [gm] |>, ns, Some (gm, true))
                       | _ => Some (w, ns, None)
                       end
                   end
          end
      end
  end.

(** <src/server_manager.cpp:835-951 ServerManager::process_ipc_event> *)
Definition process_update w params : option (MirrorWorld * list MirrorOut) :=
  info ← decode_game_info params;
  '(w, ns, found) ← locate w params info;
  let out := MirrorNotice <$> ns in
  match found with
  | None => Some (w, out)
  | Some (gm, is_new) =>
      '(g, settings, lobby) ← room_context (mirrored w) gm;
      match update_mirror settings lobby params is_new g with
      | None => Some (w, out)
      | Some (g, eff) =>
          let w := w <| mirrored ::= λ d, d <| game_heap ::= <[gm := g]> |> |> in
          let w := if is_new
                   then w <| mirrored_identities ::= λ r,
                              reset_persistent_peer_game_ownership r gm |>
                   else w in
          Some (w, out ++ (MirrorEffect gm <$> eff))
      end
  end.
End mirror.

(** ** What a mirror shows *)

(** The parameters of an update are distinct. *)
Class UpdateKeys `{Codes} : Prop := {
  update_keys_nodup :
    NoDup ([KeyBroadcast; IpcRevision; IpcIsCreating; IpcExpectedUsers; IpcIsVisible;
            KeyGameProperties] ++ info_keys);
}.
#[export] Instance photon_update_keys : UpdateKeys (H := PhotonCodes.photon_codes).
Proof. split. by apply (bool_decide_unpack _). Qed.

Section facts.
Context `{SerLaws, CodesLaws, !UpdateKeys}.
Implicit Types (g m : Game) (s : AppSettings) (info : LobbyInfo).

(** What the room's owner broadcasts. *)
Definition update_of info g : ParameterList := parameters (game_update_message info g).

Ltac distinct_keys :=
  pose proof update_keys_nodup as Hkeys; unfold info_keys in Hkeys; cbn [Datatypes.app] in Hkeys;
  repeat match type of Hkeys with NoDup (_ :: _) =>
    let Hk := fresh "Hk" in
    apply NoDup_cons in Hkeys as [Hk Hkeys]; rewrite ?not_elem_of_cons in Hk
  end; destruct_and?.

Lemma update_lookup info g :
  let ps := update_of info g in
  ps !! KeyBroadcast = Some (of_bool (is_created g)) ∧
  ps !! IpcIsCreating = Some (of_bool (is_creating g)) ∧
  ps !! IpcIsVisible = Some (of_bool (is_visible g)) ∧
  ps !! IpcExpectedUsers = Some (of_strings (elements (expected_users g))) ∧
  ps !! KeyGameProperties = Some (of_table (get_lobby_game_props g)) ∧
  ps !! IpcRevision = Some (of_int64 (s64 (state_revision_ g))).
Proof.
  distinct_keys. cbn zeta. unfold update_of, game_update_message. cbn zeta.
  destruct (empty_str _); cbn [parameters]; split_and!;
    repeat first [rewrite lookup_insert_eq; reflexivity
                 | rewrite lookup_insert_ne by first [assumption|apply not_eq_sym; assumption]].
Qed.

Lemma update_revision info g :
  0 ≤ state_revision_ g < 2 ^ 63 → revision_param (update_of info g) = Some (state_revision_ g).
Proof.
  intros Hr. destruct (update_lookup info g) as (_ & _ & _ & _ & _ & E).
  unfold revision_param. rewrite E. cbn [mbind option_bind]. rewrite acc_get.
  cbn [mbind option_bind]. rewrite s64_small by done. by rewrite (proj2 (Z.leb_le 0 _)) by lia.
Qed.

Lemma param_of {A} {a : Alt} params key (mk : A → Value) (acc : Value → option A) x `{!Accessor a mk acc} :
  params !! key = Some (mk x) → param params key acc = Some x.
Proof. intros E. unfold param. rewrite E. cbn. apply acc_get. Qed.

(** Replacing the reservations touches nothing else. *)
Lemma remove_all_spec l m :
  let m' := foldl remove_expected_user m l in
  same_room m m' ∧ expected_users m' = expected_users m ∖ list_to_set l.
Proof.
  revert m. induction l as [|u l IH]; intros m; cbn [foldl]; [split; [done|set_solver]|].
  destruct (IH (remove_expected_user m u)) as [Hs E]. split.
  - eapply same_room_trans; [apply remove_expected_same_room|exact Hs].
  - rewrite E. destruct (remove_expected_size m u) as (-> & _). set_solver.
Qed.

Lemma replace_loop users m eff :
  (foldl (λ st u, let '(g, _, e) := reserve_expected_user st.1 u 30000 in (g, st.2 ++ e))
     (m, eff) users).1 = reserve_users users 30000 m.
Proof.
  revert m eff. induction users as [|u users IH]; intros m eff; [done|]. cbn [foldl fst snd].
  unfold reserve_expected_user. unfold reserve_users. cbn [foldl].
  destruct (reserve_expected_user_with_generation m u 30000) as [[m1 r] e]. apply IH.
Qed.

Lemma reserve_users_same users ttl m : same_room m (reserve_users users ttl m).
Proof.
  revert m. induction users as [|u users IH]; intros m; [done|].
  eapply same_room_trans; [apply (reserve_same_room m u ttl)|apply IH].
Qed.

Lemma replace_expected_spec users m :
  let m' := (replace_expected users m).1 in
  same_room m m' ∧ expected_users m' = list_to_set (filter (λ u, u ≠ EmptyString) users).
Proof.
  cbn zeta. unfold replace_expected. rewrite replace_loop.
  destruct (remove_all_spec (elements (expected_users m)) m) as [Hs E]. split.
  - eapply same_room_trans; [exact Hs|apply reserve_users_same].
  - destruct (reserve_users_spec users 30000 (foldl remove_expected_user m (elements (expected_users m))))
      as (_ & _ & _ & ->). rewrite E. set_solver.
Qed.

(** *** The lobby's view of a room *)

Lemma byte_not_string b x : of_byte b ≠ of_string x.
Proof. intros E. apply (f_equal kind) in E. by rewrite !acc_kind in E. Qed.

Lemma lobby_fold_lookup g (names : list string) (acc : Hashtable) (k : Value) :
  foldl (λ (fres : Hashtable) (name : string),
           match custom_props g !! of_string name, fres !! of_string name with
           | Some v, None => <[of_string name := v]> fres
           | _, _ => fres
           end) acc names !! k =
  match acc !! k with
  | Some x => Some x
  | None => if decide (k ∈ of_string <$> names) then custom_props g !! k else None
  end.
Proof.
  revert acc. induction names as [|n names IH]; intros acc; cbn [foldl].
  { rewrite decide_False by apply not_elem_of_nil. by destruct (acc !! k). }
  rewrite IH, fmap_cons. destruct (decide (k = of_string n)) as [->|Hne].
  - rewrite (decide_True (P := _ ∈ _ :: _)) by by left.
    destruct (custom_props g !! of_string n) as [v|] eqn:Ec.
    + destruct (acc !! of_string n) as [x|] eqn:Ea; [by rewrite Ea|]. by rewrite lookup_insert_eq.
    + destruct (acc !! of_string n); [done|]. by destruct (decide _).
  - replace (match custom_props g !! of_string n, acc !! of_string n with
      | Some v, None => <[of_string n := v]> acc | _, _ => acc end !! k) with (acc !! k).
    + destruct (acc !! k); [done|].
      destruct (decide (k ∈ of_string <$> names)), (decide (k ∈ of_string n :: (of_string <$> names)));
        set_solver.
    + destruct (custom_props g !! of_string n), (acc !! of_string n); try done.
      by rewrite lookup_insert_ne.
Qed.

Lemma lobby_view g :
  let ps := get_lobby_game_props g in
  ps !! of_byte MaxPlayers = Some (of_byte (max_peers g)) ∧
  ps !! of_byte IsOpen = Some (of_bool (is_open g)) ∧
  ps !! of_byte PlayerCount = Some (of_byte (player_count g)) ∧
  ps !! of_byte IsVisible = None ∧ ps !! of_byte LobbyProperties = None ∧
  (∀ name v, name ∈ lobby_props g → custom_props g !! of_string name = Some v →
     ps !! of_string name = Some v).
Proof.
  pose proof game_prop_keys_nodup as Hk. unfold game_prop_keys in Hk.
  repeat match type of Hk with NoDup (_ :: _) =>
    let H := fresh "Hn" in apply NoDup_cons in Hk as [H Hk]; rewrite ?not_elem_of_cons in H
  end. destruct_and?.
  assert (∀ b c, b ≠ c → of_byte b ≠ of_byte c) as Hb 
    by (intros b c Hne E; exact (Hne (acc_inj of_byte get_byte _ _ E))).
  cbn zeta. unfold get_lobby_game_props. split_and!; [| | | | |intros name v Hin Hv];
    rewrite lobby_fold_lookup;
    repeat first [rewrite lookup_insert_eq; reflexivity
                 | rewrite lookup_insert_ne by first [apply Hb; first [assumption|apply not_eq_sym; assumption]
                                                      | apply byte_not_string]];
    rewrite lookup_empty.
  1-2: rewrite decide_False; [done|]; intros (x & E & _)%list_elem_of_fmap;
    by apply byte_not_string in E.
  - by rewrite decide_True by by apply list_elem_of_fmap_2.
Qed.

(** The custom properties the room shows in the lobby. *)
Definition listed g : Hashtable :=
  filter (λ kv, kv.1 ∈ of_string <$> lobby_props g) (custom_props g).

Lemma listed_lookup g k :
  get_byte k = None → get_lobby_game_props g !! k = listed g !! k.
Proof.
  intros Hk. assert (∀ b, of_byte b ≠ k) as Hb by (intros b <-; by rewrite acc_get in Hk).
  unfold get_lobby_game_props. rewrite lobby_fold_lookup.
  rewrite !lookup_insert_ne, lookup_empty by apply Hb.
  symmetry. unfold listed. destruct (decide _) as [Hin|Hin].
  - destruct (custom_props g !! k) as [x|] eqn:E.
    + by apply map_lookup_filter_Some_2.
    + apply map_lookup_filter_None_2. by left.
  - apply map_lookup_filter_None_2. right. by intros x _.
Qed.

(** The properties of a room are listed under texts. *)
Lemma listed_text g k x : listed g !! k = Some x → ∃ name, k = of_string name.
Proof.
  intros (_ & Hk)%map_lookup_filter_Some. apply list_elem_of_fmap in Hk as (name & Hk & _). eauto.
Qed.

Lemma listed_no_code g k x : listed g !! k = Some x → get_byte k = None.
Proof.
  intros (name & ->)%listed_text. by apply (acc_other of_string get_string of_byte get_byte).
Qed.

Lemma unlisted_code g b :
  b ≠ MaxPlayers → b ≠ IsOpen → b ≠ PlayerCount →
  get_lobby_game_props g !! of_byte b = None.
Proof.
  intros H1' H2' H3'. assert (∀ b', b ≠ b' → of_byte b' ≠ of_byte b) as Hb
    by (intros b' Hne E; by apply (acc_inj of_byte get_byte) in E).
  unfold get_lobby_game_props. rewrite lobby_fold_lookup.
  rewrite !lookup_insert_ne, lookup_empty by (by apply Hb).
  rewrite decide_False; [done|]. intros (x & E & _)%list_elem_of_fmap. by apply byte_not_string in E.
Qed.

(** The mirror already has the openness, the capacity and the listed
    properties that the room announces. *)
Definition known (opened : bool) (capacity : Z) (props : Hashtable) g : Prop :=
  opened = is_open g ∧ capacity = max_peers g ∧ map_Forall (λ k x, props !! k = Some x) (listed g).

#[export] Instance known_dec opened capacity props g : Decision (known opened capacity props g).
Proof. unfold known. apply _. Defined.

(** *** Accepted updates *)

(** The mirror [m] shows the room [g]. *)
Record reflects g m : Prop := {
  same_created : is_created m = is_created g;
  same_creating : is_creating m = is_creating g;
  same_visible : is_visible m = is_visible g;
  same_expected : expected_users m = expected_users g;
  same_count : player_count m = player_count g;
  same_open : is_open m = is_open g;
  same_max : max_peers m = max_peers g;
  same_listed : map_Forall (λ k x, custom_props m !! k = Some x) (listed g);
}.

(** A room as its owner announces it. *)
Record announced g : Prop := {
  announced_revision : 0 ≤ state_revision_ g < 2 ^ 63 - 1;
  announced_named : EmptyString ∉ expected_users g;
}.

(** The revision of a mirror that takes an update of [g]: the owner's, or one
    more when the mirror learns something of the room's properties. *)
Definition taken opened capacity props g : Z :=
  state_revision_ g + if decide (known opened capacity props g) then 0 else 1.

(** The mirror [m] has become [m'] by an update of [g]; properties once
    learnt stay. *)
Record follows g m m' : Prop := {
  follows_revision :
    state_revision_ m' = taken (is_open m) (max_peers m) (custom_props m) g;
  follows_props k : get_byte k = None →
    custom_props m' !! k = (listed g ∪ custom_props m) !! k;
}.

Lemma named_elements (X : gset string) :
  EmptyString ∉ X → list_to_set (filter (λ u, u ≠ EmptyString) (elements X)) = X.
Proof.
  intros He. apply set_eq. intros x.
  rewrite elem_of_list_to_set, list_elem_of_filter, elem_of_elements.
  split; [by intros [_ ?]|]. intros Hx. split; [by intros ->|done].
Qed.

Lemma prop_of_player_count : prop_of PlayerCount = None.
Proof.
  destruct (prop_of PlayerCount) as [p|] eqn:E; [|done]. apply prop_of_Some in E.
  pose proof game_prop_keys_nodup as Hn. unfold game_prop_keys in Hn.
  repeat setoid_rewrite NoDup_cons in Hn. repeat setoid_rewrite not_elem_of_cons in Hn.
  destruct p; cbn in E; exfalso; intuition congruence.
Qed.

(** Which cells of a mirror an update of the properties changes: none when
    they are known. *)
Lemma known_cells s g m m' :
  (∀ key, cell m' key = match get_lobby_game_props g !! key with
                        | Some value => written s (flags m) (cell m key) key value
                        | None => cell m key end) →
  known (is_open m) (max_peers m) (custom_props m) g → ∀ key, cell m' key = cell m key.
Proof.
  intros Hc (Ho & Hm & Hl) key. destruct (lobby_view g) as (Hmax & Hopen & Hcount & _).
  destruct (get_byte key) as [b|] eqn:Hb.
  - apply acc_inv in Hb as ->.
    destruct (decide (b = MaxPlayers)) as [->|]; [|destruct (decide (b = IsOpen)) as [->|];
      [|destruct (decide (b = PlayerCount)) as [->|]; [|by rewrite Hc, unlisted_code]]].
    + rewrite Hc, Hmax. change MaxPlayers with (prop_code PMaxPlayers). rewrite cell_prop.
      unfold written. rewrite acc_get, prop_of_code. cbn [typed prop_read]. rewrite acc_get.
      cbn. by rewrite Hm.
    + rewrite Hc, Hopen. change IsOpen with (prop_code PIsOpen). rewrite cell_prop.
      unfold written. rewrite acc_get, prop_of_code. cbn [typed prop_read]. rewrite acc_get.
      cbn. by rewrite Ho.
    + rewrite Hc, Hcount. unfold written. rewrite acc_get. by rewrite prop_of_player_count.
  - rewrite Hc, (listed_lookup _ _ Hb). destruct (listed g !! key) as [x|] eqn:E; [|done].
    unfold written. rewrite Hb, cell_non_byte by done. rewrite (Hl _ _ E).
    destruct (listed_text _ _ _ E) as [name ->].
    by rewrite (acc_not_null of_string get_string).
Qed.

Lemma update_props_reflects s info params g m :
  param params KeyGameProperties get_table = Some (get_lobby_game_props g) →
  peers m = [] → 0 ≤ state_revision_ m < 2 ^ 63 - 1 →
  let m' := (update_props s info params m).1 in
  is_created m' = is_created m ∧ is_creating m' = is_creating m ∧
  is_visible m' = is_visible m ∧ expected_users m' = expected_users m ∧
  peers m' = [] ∧ player_count m' = player_count g ∧ is_open m' = is_open g ∧
  max_peers m' = max_peers g ∧
  (∀ k, get_byte k = None → custom_props m' !! k = (listed g ∪ custom_props m) !! k) ∧
  state_revision_ m' = state_revision_ m +
    if decide (known (is_open m) (max_peers m) (custom_props m) g) then 0 else 1.
Proof.
  intros Ep Hp Hm. cbn zeta. unfold update_props. rewrite Ep.
  destruct (lobby_view g) as (Hmax & Hopen & Hcount & Hvis & _ & _).
  rewrite Hcount. cbn [mbind option_bind]. rewrite acc_get.
  set (m1 := m <| dummy_peer_count := player_count g |>).
  destruct (insert_props_cells s info m1 (get_lobby_game_props g) _ (reflexivity _)) as (Hc & Hn & Hrev).
  fold (insert_game_props s info m1 (get_lobby_game_props g)) in Hc, Hn, Hrev.
  set (m' := (insert_game_props s info m1 (get_lobby_game_props g)).1) in *.
  assert (peers m' = []) as Hp' by (by rewrite <-Hp; exact (f_equal peers Hn)).
  split; [exact (f_equal is_created Hn)|]. split; [exact (f_equal is_creating Hn)|].
  split; [|split; [exact (f_equal expected_users Hn)|]].
  { specialize (Hc (of_byte IsVisible)). rewrite Hvis in Hc.
    change IsVisible with (prop_code PIsVisible) in Hc. rewrite !cell_prop in Hc. cbn [prop_read] in Hc.
    injection Hc as Hc. exact (acc_inj of_bool get_bool _ _ Hc). }
  split; [done|]. split.
  { unfold player_count at 1. rewrite Hp'. pose proof (f_equal dummy_peer_count Hn) as Ed.
    cbn in Ed. rewrite Ed. unfold player_count. cbn [length]. apply wrap_small, wrap_range. lia. }
  assert (is_open m' = is_open g) as Eo.
  { pose proof (Hc (of_byte IsOpen)) as Hk. rewrite Hopen in Hk.
    change IsOpen with (prop_code PIsOpen) in Hk. rewrite !cell_prop in Hk.
    unfold written in Hk. rewrite acc_get, prop_of_code in Hk. cbn [typed prop_read] in Hk.
    rewrite acc_get in Hk. cbn in Hk. injection Hk as Hk. exact (acc_inj of_bool get_bool _ _ Hk). }
  assert (max_peers m' = max_peers g) as Em.
  { pose proof (Hc (of_byte MaxPlayers)) as Hk. rewrite Hmax in Hk.
    change MaxPlayers with (prop_code PMaxPlayers) in Hk. rewrite !cell_prop in Hk.
    unfold written in Hk. rewrite acc_get, prop_of_code in Hk. cbn [typed prop_read] in Hk.
    rewrite acc_get in Hk. cbn in Hk. injection Hk as Hk. exact (acc_inj of_byte get_byte _ _ Hk). }
  assert (∀ k, get_byte k = None → custom_props m' !! k = (listed g ∪ custom_props m) !! k) as El.
  { intros k Hb. pose proof (Hc k) as Hk. rewrite (listed_lookup _ _ Hb), !cell_non_byte in Hk by done.
    rewrite Hk, lookup_union. destruct (listed g !! k) as [x|] eqn:E.
    - unfold written. rewrite Hb. change (custom_props m1) with (custom_props m).
      destruct (listed_text _ _ _ E) as [name ->].
      by destruct (custom_props m !! _); rewrite (acc_not_null of_string get_string).
    - change (custom_props m1) with (custom_props m). by destruct (custom_props m !! k). }
  do 3 (split; [done|]). change (state_revision_ m) with (state_revision_ m1).
  destruct (decide (known _ _ _ g)) as [Hk|Hk], Hrev as [[Er Eid]|[Er [key Hne]]].
  - by rewrite Er, Z.add_0_r.
  - destruct Hne. by apply (known_cells s g m1 m' Hc Hk).
  - destruct Hk. rewrite Eid in Eo, Em, El. split_and!; [exact Eo|exact Em|].
    intros k x Hx. change (custom_props m1) with (custom_props m) in El.
    rewrite (El _ (listed_no_code _ _ _ Hx)). by apply lookup_union_Some_l.
  - rewrite Er. apply wrap_small. cbn. lia.
Qed.

Lemma update_reflects s info info' g is_new m m' eff :
  announced g → peers m = [] →
  update_mirror s info (update_of info' g) is_new m = Some (m', eff) →
  reflects g m' ∧ peers m' = [] ∧ follows g m m'.
Proof.
  intros [Hr He] Hp. unfold update_mirror. rewrite update_revision by lia.
  destruct (_ && _); [done|].
  destruct (update_lookup info' g) as (Kb & Kc & Kv & Ku & Kp & _).
  pose proof (param_of _ _ of_bool get_bool _ Kb) as Pb.
  pose proof (param_of _ _ of_bool get_bool _ Kc) as Pc.
  pose proof (param_of _ _ of_bool get_bool _ Kv) as Pv.
  pose proof (param_of _ _ of_strings get_strings _ Ku) as Pu.
  pose proof (param_of _ _ of_table get_table _ Kp) as Pp.
  unfold update_state. rewrite Pb, Pc, Pv, Pu.
  set (m0 := _ <| state_revision_ := state_revision_ g |>).
  destruct (replace_expected_spec (elements (expected_users g)) m0) as [Hs Hx].
  rewrite named_elements in Hx by done.
  destruct (replace_expected (elements (expected_users g)) m0) as [m1 eff1]. cbn [fst] in *.
  assert (peers m1 = []) as Hp1 by (rewrite <-Hp; exact (f_equal peers Hs)).
  assert (state_revision_ m1 = state_revision_ g) as Er by exact (f_equal state_revision_ Hs).
  destruct (update_props_reflects s info (update_of info' g) g m1 Pp Hp1 ltac:(by rewrite Er))
    as (U1 & U2 & U3 & U4 & U5 & U6 & U7 & U8 & U9 & U10).
  assert (custom_props m1 = custom_props m) as Ec by exact (f_equal custom_props Hs).
  assert (is_open m1 = is_open m) as Eo by exact (f_equal is_open Hs).
  assert (max_peers m1 = max_peers m) as Em by exact (f_equal max_peers Hs).
  rewrite Er, Eo, Em in U10. rewrite Ec in U9, U10.
  destruct (update_props s info (update_of info' g) m1) as [m2 eff2]. cbn [fst] in *.
  intros [= <- <-]. split; [|split; [done|by split]].
  split; try done.
  - rewrite U1. exact (f_equal is_created Hs).
  - rewrite U2. exact (f_equal is_creating Hs).
  - rewrite U3. exact (f_equal is_visible Hs).
  - by rewrite U4.
  - intros k x Hk. rewrite (U9 _ (listed_no_code _ _ _ Hk)). by apply lookup_union_Some_l.
Qed.

(** The first update of a room is always taken. *)
Lemma new_accepted s info ps m : ∃ m' eff, update_mirror s info ps true m = Some (m', eff).
Proof.
  unfold update_mirror. cbn [negb andb].
  destruct (match param ps IpcExpectedUsers get_strings with Some _ => _ | None => _ end) as [m1 e1].
  destruct (update_props s info ps m1) as [m2 e2]. eauto.
Qed.

(** *** Many updates *)

(** An update of a known room arrives. *)
Definition receive s info m g : Game :=
  match update_mirror s info (update_of info g) false m with Some (m', _) => m' | None => m end.

(** What a process that follows a room knows of it: the update it took last,
    the properties it has learnt so far, and the revision from which on it
    takes another update. *)
Record View := mkView {
  shown : Game;
  learnt : Hashtable;
  from_revision : Z;
}.

(** It takes an update unless that is older than what it knows. *)
Definition observe (v : View) g : View :=
  if state_revision_ g <? from_revision v then v
  else mkView g (listed g ∪ learnt v)
         (taken (is_open (shown v)) (max_peers (shown v)) (learnt v) g).

(** The view of a mirror that is made for the update of [g]. *)
Definition first_view m g : View :=
  mkView g (listed g ∪ custom_props m) (taken (is_open m) (max_peers m) (custom_props m) g).

(** The mirror [m] is that view. *)
Record shows m (v : View) : Prop := {
  shows_nobody : peers m = [];
  shows_state : reflects (shown v) m;
  shows_props k : get_byte k = None → custom_props m !! k = learnt v !! k;
  shows_revision : state_revision_ m = from_revision v;
}.

Lemma taken_props opened capacity props props' g :
  (∀ k, get_byte k = None → props !! k = props' !! k) →
  taken opened capacity props g = taken opened capacity props' g.
Proof.
  intros E. unfold taken. f_equal. apply decide_ext. unfold known.
  split; intros (-> & -> & Hl); (split; [done|]); (split; [done|]); intros k x Hk;
    pose proof (listed_no_code _ _ _ Hk); specialize (Hl k x Hk); cbn in *; by rewrite <-Hl, E.
Qed.

Lemma first_shows s info m m' eff g :
  announced g → peers m = [] →
  update_mirror s info (update_of info g) true m = Some (m', eff) → shows m' (first_view m g).
Proof.
  intros Hg Hp E. destruct (update_reflects _ _ _ _ _ _ _ _ Hg Hp E) as (Hr & Hp' & [Hrev Hl]).
  by split.
Qed.

Lemma receive_shows s info m v h :
  announced h → shows m v → shows (receive s info m h) (observe v h).
Proof.
  intros Hh [Hp Hs Hl Hr]. unfold receive, observe.
  destruct (update_mirror _ _ _ _ _) as [[m' eff]|] eqn:E.
  - destruct (update_reflects _ _ _ _ _ _ _ _ Hh Hp E) as (Hr' & Hp' & [Hrev Hl']).
    unfold update_mirror in E. rewrite update_revision in E by (destruct Hh; lia).
    rewrite Hr in E. destruct (Z.ltb_spec (state_revision_ h) (from_revision v)); [done|]. clear E.
    split; [done|done| |].
    + intros k Hk. cbn. rewrite Hl', !lookup_union by done. by rewrite Hl.
    + cbn. rewrite Hrev, (same_open _ _ Hs), (same_max _ _ Hs). by apply taken_props.
  - unfold update_mirror in E. rewrite update_revision, Hr in E by (destruct Hh; lia).
    destruct (Z.ltb_spec (state_revision_ h) (from_revision v)); [by split|].
    cbn in E. by repeat case_match.
Qed.

Lemma receive_all_shows s info m v gs :
  Forall announced gs → shows m v → shows (foldl (receive s info) m gs) (foldl observe v gs).
Proof.
  intros Hg. revert m v. induction Hg as [|h gs Hh Hgs IH]; intros m v Hs; [done|].
  cbn [foldl]. by apply IH, receive_shows.
Qed.

(** The view is of the newest update so far. *)
Definition newest (seen : list Game) (v : View) : Prop :=
  shown v ∈ seen ∧ (∀ h, h ∈ seen → state_revision_ h ≤ state_revision_ (shown v)) ∧
  state_revision_ (shown v) ≤ from_revision v ≤ state_revision_ (shown v) + 1.

Lemma taken_range opened capacity props g :
  state_revision_ g ≤ taken opened capacity props g ≤ state_revision_ g + 1.
Proof. unfold taken. destruct (decide _); lia. Qed.

Lemma observe_newest seen v h : newest seen v → newest (h :: seen) (observe v h).
Proof.
  intros (Hin & Hmax & Hrev). unfold observe.
  destruct (Z.ltb_spec (state_revision_ h) (from_revision v)).
  - split; [by right|]. split; [|done].
    intros x [-> |Hx]%elem_of_cons; [lia|by apply Hmax].
  - split; [by left|]. split; [|apply taken_range].
    intros x [-> |Hx]%elem_of_cons; [done|]. specialize (Hmax x Hx). cbn. lia.
Qed.

Lemma observe_all_newest seen v gs :
  newest seen v → newest (rev gs ++ seen) (foldl observe v gs).
Proof.
  revert seen v. induction gs as [|h gs IH]; intros seen v Hn; [done|].
  cbn [foldl rev]. rewrite <-app_assoc. by apply IH, observe_newest.
Qed.

(** C29: However the updates of a room are delayed, reordered or repeated on
    their way, what the mirror of the room shows after them is the update it
    took last (creation state, visibility, reservations, number of players,
    openness and capacity), with the custom properties learnt from that one
    and those before.  It takes the update that made it, and after that
    exactly those whose revision is not below the one it stands at: that of
    the update taken last, or one more when that taught it another openness,
    capacity or custom property.  The update taken last is one of the newest;
    so when a single update is the newest of all, the mirror shows it. *)
Theorem mirror_converges s info m0 m1 eff first gs :
  announced first → Forall announced gs → peers m0 = [] →
  update_mirror s info (update_of info first) true m0 = Some (m1, eff) →
  let v := foldl observe (first_view m0 first) gs in
  let m := foldl (receive s info) m1 gs in
  shows m v ∧
  shown v ∈ first :: gs ∧
  (∀ h, h ∈ first :: gs → state_revision_ h ≤ state_revision_ (shown v)) ∧
  (∀ g, g ∈ first :: gs →
     (∀ h, h ∈ first :: gs → h = g ∨ state_revision_ h < state_revision_ g) → reflects g m).
Proof.
  intros Hf Hgs Hp E v m.
  assert (shows m v) as Hs by (by eapply receive_all_shows, first_shows).
  destruct (observe_all_newest [first] (first_view m0 first) gs) as (Hin & Hmax & _).
  { split; [by left|]. split; [|apply taken_range]. by intros h ->%list_elem_of_singleton. }
  assert (∀ x, x ∈ rev gs ++ [first] ↔ x ∈ first :: gs) as Hsame.
  { intros x. rewrite elem_of_app, list_elem_of_In, <-in_rev, <-list_elem_of_In. set_solver. }
  fold v in Hin, Hmax. split; [done|]. split; [by apply Hsame|].
  split; [intros h Hh; by apply Hmax, Hsame|]. intros g Hg Hnew.
  destruct (Hnew (shown v)) as [<-|Hlt]; [by apply Hsame|apply Hs|].
  specialize (Hmax g ltac:(by apply Hsame)). lia.
Qed.

(** A departure does not move the revision. *)
Lemma remove_peer_revision env g p :
  state_revision_ (remove_peer env g (Some p)).1.1 = state_revision_ g.
Proof.
  unfold remove_peer. rewrite remove_loop_spec by lia. by repeat case_match.
Qed.

Lemma kept_shorter env p l : own_nodes env p l ≠ [] → (length (kept env p l) < length l)%nat.
Proof.
  destruct (own_nodes env p l) as [|gp own] eqn:E; [done|]. intros _.
  assert (gp ∈ own_nodes env p l) as Hin by (rewrite E; by left).
  apply list_elem_of_filter in Hin as [Hg Hin].
  unfold kept, remove_if. eapply length_filter_lt; [exact Hin|].
  unfold gone. by rewrite Hg.
Qed.

(** When a room is announced with an openness or capacity that the
    mirror does not have yet, the mirror counts the change as one of its own:
    its revision runs one ahead.  The next departure of a player, which does
    not move the room's revision, is then taken for an old update and
    dropped, and the mirror goes on showing the player. *)
Theorem mirror_misses_departure s info m0 m1 eff env g p :
  game_ok g → announced g → peers m0 = [] →
  update_mirror s info (update_of info g) true m0 = Some (m1, eff) →
  is_open m0 ≠ is_open g ∨ max_peers m0 ≠ max_peers g →
  0 ≤ dummy_peer_count g → len (peers g) + dummy_peer_count g < 256 →
  let '(g', removed, _) := remove_peer env g (Some p) in
  removed = true →
  receive s info m1 g' = m1 ∧ player_count g' < player_count m1.
Proof.
  intros Hok Hg Hp E Hch Hd Hlen.
  destruct (update_reflects _ _ _ _ _ _ _ _ Hg Hp E) as (Hr & Hp1 & Hf).
  assert (state_revision_ m1 = state_revision_ g + 1) as Hrev.
  { destruct Hf as [-> _]. unfold taken. rewrite decide_False; [done|].
    intros (Eo & Em & _). by destruct Hch as [[]|[]]. }
  pose proof (remove_peer_revision env g p) as Er.
  destruct (remove_peer_effect env g p Hok) as (Ep & _ & _ & Eb & _).
  assert (dummy_peer_count (remove_peer env g (Some p)).1.1 = dummy_peer_count g) as Ed.
  { unfold remove_peer. rewrite remove_loop_spec by lia. by repeat case_match. }
  destruct (remove_peer env g (Some p)) as [[g' removed] eff']. cbn [fst snd] in *.
  intros ->. symmetry in Eb. apply bool_decide_eq_true in Eb.
  pose proof (kept_shorter _ _ _ Eb) as Hk. destruct Hg as [Hg _]. split.
  - unfold receive, update_mirror. rewrite update_revision by lia.
    by rewrite (proj2 (Z.ltb_lt (state_revision_ g') (state_revision_ m1))) by lia.
  - rewrite (same_count _ _ Hr). unfold player_count. rewrite Ep, Ed.
    rewrite !wrap_small by lia. lia.
Qed.

(** The names of the properties a lobby shows do not travel: a mirror made for
    an update lists none of them, though it stores their values. *)
Theorem mirror_lists_no_properties s info info' g m m' eff name :
  lobby_props m = [] → update_mirror s info (update_of info' g) true m = Some (m', eff) →
  get_lobby_game_props m' !! of_string name = None.
Proof.
  intros Hl. unfold update_mirror. cbn [negb andb].
  destruct (update_lookup info' g) as (_ & _ & _ & Ku & Kp & _).
  rewrite (param_of _ _ of_strings get_strings _ Ku).
  set (m0 := match revision_param _ with Some rev => _ | None => _ end).
  destruct (replace_expected_spec (elements (expected_users g)) m0) as [Hs _].
  destruct (replace_expected _ m0) as [m1 eff1]. cbn [fst] in Hs.
  assert (lobby_props m1 = []) as Hl1.
  { rewrite <-Hl. rewrite (f_equal lobby_props Hs : lobby_props m1 = lobby_props m0).
    subst m0. unfold update_state. by repeat case_match. }
  unfold update_props. rewrite (param_of _ _ of_table get_table _ Kp).
  set (m2 := match _ with Some n => _ | None => m1 end).
  assert (lobby_props m2 = []) as Hl2 by (subst m2; by case_match).
  pose proof (proj1 (insert_props_cells s info m2 (get_lobby_game_props g) _ (reflexivity _))
    (of_byte LobbyProperties)) as Hc.
  fold (insert_game_props s info m2 (get_lobby_game_props g)) in Hc.
  destruct (lobby_view g) as (_ & _ & _ & _ & Hno & _). rewrite Hno in Hc.
  destruct (insert_game_props s info m2 _) as [m3 eff3]. cbn [fst] in Hc. intros [= <- _].
  change LobbyProperties with (prop_code PLobbyProperties) in Hc. rewrite !cell_prop in Hc.
  cbn [prop_read] in Hc. injection Hc as Hc. apply (acc_inj of_strings get_strings) in Hc.
  rewrite Hl2 in Hc. unfold get_lobby_game_props. rewrite Hc. cbn [foldl].
  by rewrite !lookup_insert_ne by apply byte_not_string.
Qed.
End facts.
