(* ===== verification/PfrCodec.v ===== *)
(** * The reflection codec

    Models [pfr_codec.hpp], which carries a C++ structure as a serialized
    value.  The C++ templates recurse over the structure's type; here the type
    is a datum, [Ty], with the Rocq type of its objects, [carrier].  Aggregates
    are the tuples of their fields, as Boost.PFR presents them.

    Left out: floating-point fields, the message types of the protocol library
    as fields, and [options.zero_copy], which only decides whether a value
    borrows a string or a vector or copies it.  A map is the list of its
    entries: what decides their order is the C++ container. *)

From stdpp Require Import pretty.
From S2P Require Import Prelude Values.
Open Scope Z_scope.

(** ** Types *)

(** <include/luxon/server/pfr_codec.hpp:101-136 is_exact_native>
    The integers that are alternatives of [ser::Value]. *)
Inductive NativeInt := U8 | I16 | I32 | I64.

(** The other integers. *)
Inductive OtherInt := I8 | U16 | U32 | U64.

Inductive Ty :=
  | TyNull | TyValue | TyBool | TyByte
  | TyNative (n : NativeInt) | TyOther (w : OtherInt) | TyEnum (n : NativeInt)
  | TyString
  | TyOptional (t : Ty)
  | TyVector (t : Ty) | TyArray (n : nat) (t : Ty)
  | TyPair (a b : Ty) | TyTuple (ts : Tys) | TyStruct (ts : Tys)
  | TyVariant (ts : Tys)
  | TyMap (k m : Ty)
with Tys := TNil | TCons (t : Ty) (ts : Tys).

Scheme Ty_mut := Induction for Ty Sort Prop
  with Tys_mut := Induction for Tys Sort Prop.
Combined Scheme Ty_Tys_ind from Ty_mut, Tys_mut.

(** [std::tuple_size_v] *)
Fixpoint size (ts : Tys) : nat :=
  match ts with TNil => O | TCons _ ts => S (size ts) end.

(** The values of each integer type. *)
Definition fits (w : OtherInt) (z : Z) : Prop :=
  match w with
  | I8 => -128 ≤ z < 128
  | U16 => 0 ≤ z < 2 ^ 16
  | U32 => 0 ≤ z < 2 ^ 32
  | U64 => 0 ≤ z < 2 ^ 64
  end.

(** [static_cast<U>] of an integer *)
Definition cast (w : OtherInt) (z : Z) : Z :=
  match w with I8 => swrap 8 z | U16 => wrap 16 z | U32 => u32 z | U64 => u64 z end.

Lemma cast_fits w z : fits w (cast w z).
Proof.
  destruct w; cbn [cast fits]; [|apply wrap_range; lia..].
  unfold swrap. pose proof (wrap_range 8 z ltac:(lia)).
  change (2 ^ 8) with 256 in *. change (2 ^ (8 - 1)) with 128. case_decide; lia.
Qed.

Lemma cast_id w z : fits w z → cast w z = z.
Proof.
  destruct w; cbn [cast fits]; intros Hz; [|by apply wrap_small..].
  unfold swrap, wrap. change (2 ^ 8) with 256. change (2 ^ (8 - 1)) with 128.
  destruct (decide (0 ≤ z)) as [H0|H0].
  - rewrite Z.mod_small by lia. case_decide; lia.
  - rewrite <-(Z.mod_add z 1), Z.mod_small by lia. case_decide; lia.
Qed.

(** ** Results *)

(** <include/luxon/server/pfr_codec.hpp:38-41 error> *)
Record error := mkError { path : string; message : string }.

(** [pfr_codec::result] *)
Abbreviation result := (fallible error).

(** <include/luxon/server/pfr_codec.hpp:186-188 fail> *)
Definition fail {A} (p : string) (m : string) : result A := inr (mkError p m).

(** <include/luxon/server/pfr_codec.hpp:141-147 child_path> *)
Definition child_path (base : string) (index : nat) : string :=
  base +:+ "[" +:+ pretty index +:+ "]".

(** <include/luxon/server/pfr_codec.hpp:149-184 value_kind> *)
Definition value_kind (a : Alt) : string :=
  match a with
  | ANull => "null" | ABool => "bool" | AByte => "byte" | AInt16 => "int16"
  | AInt32 => "int32" | AInt64 => "int64" | AFloat => "float"
  | ADouble => "double" | AString => "string" | ABytes => "bytes"
  | ABools => "bool[]" | AInt16s => "int16[]" | AInt32s => "int32[]"
  | AInt64s => "int64[]" | AFloats => "float[]" | ADoubles => "double[]"
  | AStrings => "string[]" | AObjects => "object[]" | AJagged => "jagged[]"
  | ADictionary => "dictionary" | AGenericDictionary => "generic_dictionary"
  | AHashtable => "hashtable" | ACustom => "custom" | AEvent => "event"
  | ARequest => "operation_request" | AResponse => "operation_response"
  | ADictionaries => "dictionary[]"
  | AGenericDictionaries => "generic_dictionary[]"
  | AHashtables => "hashtable[]" | ACustoms => "custom[]"
  | APreSerialized => "pre_serialized"
  end.

Section codec.
Context `{SerArrays}.

(** <include/luxon/server/pfr_codec.hpp:190-192 type_error> *)
Definition type_error {A} (p expected : string) (v : Value) : result A :=
  fail p ("expected " +:+ expected +:+ ", got " +:+ value_kind (kind v)).

(** ** Objects *)

(** The objects of a type; an enumerator is its underlying value. *)
Fixpoint carrier (t : Ty) : Type :=
  match t with
  | TyNull => unit
  | TyValue => Value
  | TyBool => bool
  | TyByte | TyNative _ | TyOther _ | TyEnum _ => Z
  | TyString => string
  | TyOptional t => option (carrier t)
  | TyVector t | TyArray _ t => list (carrier t)
  | TyPair a b => carrier a * carrier b
  | TyTuple ts | TyStruct ts => fields ts
  | TyVariant ts => choice ts
  | TyMap k m => list (carrier k * carrier m)
  end
with fields (ts : Tys) : Type :=
  match ts with TNil => unit | TCons t ts => carrier t * fields ts end
with choice (ts : Tys) : Type :=
  match ts with TNil => Empty_set | TCons t ts => carrier t + choice ts end.

(** Keys of maps can be compared. *)
Fixpoint carrier_eq_dec (t : Ty) : EqDecision (carrier t)
with fields_eq_dec (ts : Tys) : EqDecision (fields ts)
with choice_eq_dec (ts : Tys) : EqDecision (choice ts).
Proof.
  - destruct t; cbn; apply _.
  - destruct ts; cbn; apply _.
  - destruct ts; cbn; apply _.
Defined.
#[local] Existing Instance carrier_eq_dec.

(** ** Leaves *)

Definition of_native (n : NativeInt) : Z → Value :=
  match n with U8 => of_byte | I16 => of_int16 | I32 => of_int32 | I64 => of_int64 end.

Definition get_native (n : NativeInt) : Value → option Z :=
  match n with U8 => get_byte | I16 => get_int16 | I32 => get_int32 | I64 => get_int64 end.

(** <include/luxon/server/pfr_codec.hpp:488-494 encode>
    An integer that is no alternative travels as the next wider one that is. *)
Definition of_other (w : OtherInt) (z : Z) : Value :=
  match w with
  | I8 | U16 => of_int32 z
  | U32 | U64 => of_int64 (s64 z)
  end.

(** <include/luxon/server/pfr_codec.hpp:646-653 decode>
    The visitor that keeps a numeric payload, [bool] aside, before its cast. *)
Definition numeric (v : Value) : option Z :=
  match get_byte v with
  | Some z => Some z
  | None => match get_int16 v with
  | Some z => Some z
  | None => match get_int32 v with
  | Some z => Some z
  | None => match get_int64 v with
  | Some z => Some z
  | None => truncated v
  end end end end.

(** <include/luxon/server/pfr_codec.hpp:194-200 as_list_ptr> *)
Definition as_list_ptr (v : Value) : option (list Value) :=
  match get_list v with
  | Some l => Some l
  | None => get_jagged v
  end.

(** <include/luxon/server/pfr_codec.hpp:210-247 encode_range>
    The element types whose sequences are an alternative of their own. *)
Definition direct (t : Ty) : option (list (carrier t) → Value) :=
  match t return option (list (carrier t) → Value) with
  | TyByte | TyNative U8 => Some of_bytes
  | TyBool => Some of_bools
  | TyNative I16 => Some of_int16s
  | TyNative I32 => Some of_ints
  | TyNative I64 => Some of_int64s
  | TyString => Some of_strings
  | TyValue => Some of_list
  | _ => None
  end.

(** <include/luxon/server/pfr_codec.hpp:262-325 try_direct_vector> *)
Definition try_direct_vector (t : Ty) (v : Value) : option (list (carrier t)) :=
  match t return option (list (carrier t)) with
  | TyByte | TyNative U8 => get_bytes v
  | TyBool => get_bools v
  | TyNative I16 => get_int16s v
  | TyNative I32 => get_ints v
  | TyNative I64 => get_int64s v
  | TyString => get_strings v
  | TyValue => as_list_ptr v
  | _ => None
  end.

(** [insert_or_assign] *)
Fixpoint assign {K M} `{EqDecision K} (k : K) (x : M) (l : list (K * M)) : list (K * M) :=
  match l with
  | [] => [(k, x)]
  | (k', x') :: l => if decide (k' = k) then (k, x) :: l else (k', x') :: assign k x l
  end.

(** ** Encoding and decoding *)

Section depth.
(** [options.max_depth] *)
Variable max_depth : nat.
Implicit Types (p : string) (depth : nat).

(** <include/luxon/server/pfr_codec.hpp:459-461 encode> *)
Definition within {A} p depth (r : result A) : result A :=
  if (max_depth <? depth)%nat then fail p "maximum nesting depth exceeded" else r.

(** <include/luxon/server/pfr_codec.hpp:206-260 encode_range> *)
Definition encode_range (t : Ty) (enc : carrier t → string → nat → result Value)
    (l : list (carrier t)) p depth : result Value :=
  match direct t with
  | Some mk => inl (mk l)
  | None =>
      out ← traverse (λ i x, enc x (child_path p i) (S depth)) 0 l;
      inl (of_list out)
  end.

(** <include/luxon/server/pfr_codec.hpp:456-583 encode> *)
Fixpoint encode (t : Ty) : carrier t → string → nat → result Value :=
  match t return carrier t → string → nat → result Value with
  | TyNull => λ _ p depth, within p depth (inl null)
  | TyValue => λ x p depth, within p depth (inl x)
  | TyBool => λ x p depth, within p depth (inl (of_bool x))
  | TyByte => λ x p depth, within p depth (inl (of_byte x))
  | TyNative n => λ x p depth, within p depth (inl (of_native n x))
  | TyOther w => λ x p depth, within p depth (inl (of_other w x))
  | TyEnum n => λ x p depth,
      within p depth (within p (S depth) (inl (of_native n x)))
  | TyString => λ x p depth, within p depth (inl (of_string x))
  | TyOptional t => λ x p depth, within p depth
      match x with
      | None => inl null
      | Some x => encode t x p (S depth)
      end
  | TyVector t | TyArray _ t => λ l p depth,
      within p depth (encode_range t (encode t) l p depth)
  | TyPair a b => λ x p depth, within p depth (
      first ← encode a x.1 (child_path p 0) (S depth);
      second ← encode b x.2 (child_path p 1) (S depth);
      inl (of_list [first; second]))
  | TyTuple ts | TyStruct ts => λ x p depth, within p depth (
      out ← encode_fields ts x 0 p depth;
      inl (of_list out))
  | TyVariant ts => λ x p depth, within p depth (encode_choice ts x 0 p depth)
  | TyMap k m => λ l p depth, within p depth (
      out ← traverse (λ i entry,
        kr ← encode k entry.1 (child_path (child_path p i) 0) (S depth);
        vr ← encode m entry.2 (child_path (child_path p i) 1) (S depth);
        inl (of_list [kr; vr])) 0 l;
      inl (of_list out))
  end
(** [encode_pfr_impl] *)
with encode_fields (ts : Tys) : fields ts → nat → string → nat → result (list Value) :=
  match ts return fields ts → nat → string → nat → result (list Value) with
  | TNil => λ _ _ _ _, inl []
  | TCons t ts => λ x i p depth,
      r ← encode t x.1 (child_path p i) (S depth);
      rs ← encode_fields ts x.2 (S i) p depth;
      inl (r :: rs)
  end
(** [encode] *)
with encode_choice (ts : Tys) : choice ts → Z → string → nat → result Value :=
  match ts return choice ts → Z → string → nat → result Value with
  | TNil => λ x _ _ _, match x with end
  | TCons t ts => λ x index p depth,
      match x with
      | inl alt =>
          r ← encode t alt (child_path p 1) (S depth);
          inl (of_list [of_int32 index; r])
      | inr x => encode_choice ts x (index + 1) p depth
      end
  end.

(** <include/luxon/server/pfr_codec.hpp:659-678 decode> *)
Definition decode_vector (t : Ty) (dec : Value → string → nat → result (carrier t))
    (v : Value) p depth : result (list (carrier t)) :=
  within p depth
    match try_direct_vector t v with
    | Some l => inl l
    | None =>
        match as_list_ptr v with
        | Some l => traverse (λ i v, dec v (child_path p i) (S depth)) 0 l
        | None => type_error p "vector/list" v
        end
    end.

(** The payload of a leaf. *)
Definition leaf {A} p (expected : string) (v : Value) (x : option A) : result A :=
  match x with Some x => inl x | None => type_error p expected v end.

(** A list of [n] elements; [short] is the complaint about another length. *)
Definition list_of p (expected : string) (n : nat) (short : list Value → string)
    (v : Value) : result (list Value) :=
  match as_list_ptr v with
  | None => type_error p expected v
  | Some l => if decide (length l = n) then inl l else fail p (short l)
  end.

Definition wrong_size (what : string) (n : nat) {A} (l : list A) : string :=
  "expected " +:+ what +:+ " " +:+ pretty n +:+ ", got " +:+ pretty (length l).

Definition decode_other (w : OtherInt) p (v : Value) : result Z :=
  leaf p "numeric type" v (cast w <$> numeric v).

(** <include/luxon/server/pfr_codec.hpp:585-782 decode> *)
Fixpoint decode (t : Ty) : Value → string → nat → result (carrier t) :=
  match t return Value → string → nat → result (carrier t) with
  | TyNull => λ v p depth, within p depth
      (leaf p "null" v (if is_null v then Some tt else None))
  | TyValue => λ v p depth, within p depth (inl v)
  | TyBool => λ v p depth, within p depth (leaf p "bool" v (get_bool v))
  | TyByte => λ v p depth, within p depth
      (leaf p "uint8_t (for std::byte)" v (get_byte v))
  | TyNative n => λ v p depth, within p depth
      (leaf p "numeric type" v (get_native n v))
  | TyOther w => λ v p depth, within p depth (decode_other w p v)
  | TyEnum n => λ v p depth, within p depth
      (leaf p "exact underlying enum type" v (get_native n v))
  | TyString => λ v p depth, within p depth (leaf p "string" v (get_string v))
  | TyOptional t => λ v p depth, within p depth
      (if is_null v then inl None
       else r ← decode t v p (S depth); inl (Some r))
  | TyVector t => decode_vector t (decode t)
  | TyArray n t => λ v p depth, within p depth (
      l ← decode_vector t (decode t) v p (S depth);
      if decide (length l = n) then inl l else fail p (wrong_size "array of size" n l))
  | TyPair a b => λ v p depth, within p depth (
      l ← list_of p "list[2]" 2 (λ _, "expected pair encoded as list of size 2") v;
      first ← decode a (nth 0 l null) (child_path p 0) (S depth);
      second ← decode b (nth 1 l null) (child_path p 1) (S depth);
      inl (first, second))
  | TyTuple ts => λ v p depth, within p depth (
      l ← list_of p "list/tuple" (size ts) (wrong_size "tuple of size" (size ts)) v;
      decode_fields ts l 0 p depth)
  | TyStruct ts => λ v p depth, within p depth (
      l ← list_of p "struct/list" (size ts) (wrong_size "struct field-count" (size ts)) v;
      decode_fields ts l 0 p depth)
  | TyVariant ts => λ v p depth, within p depth (
      l ← list_of p "variant list[2]" 2 (λ _, "expected variant encoded as list of size 2") v;
      index ← within (child_path p 0) (S depth)
                (decode_other U64 (child_path p 0) (nth 0 l null));
      decode_choice ts index (nth 1 l null) (child_path p 1) (S depth))
  | TyMap k m => λ v p depth, within p depth
      match as_list_ptr v with
      | None => type_error p "map/list" v
      | Some l =>
          entries ← traverse (λ i v,
            match as_list_ptr v with
            | Some [kv; mv] =>
                kr ← decode k kv (child_path (child_path p i) 0) (S depth);
                mr ← decode m mv (child_path (child_path p i) 1) (S depth);
                inl (kr, mr)
            | _ => fail (child_path p i) "expected map entry as list of size 2"
            end) 0 l;
          inl (foldl (λ out entry, assign entry.1 entry.2 out) [] entries)
      end
  end
(** [decode_pfr_impl] *)
with decode_fields (ts : Tys) : list Value → nat → string → nat → result (fields ts) :=
  match ts return list Value → nat → string → nat → result (fields ts) with
  | TNil => λ _ _ _ _, inl tt
  | TCons t ts => λ arr i p depth,
      r ← decode t (hd null arr) (child_path p i) (S depth);
      rs ← decode_fields ts (tl arr) (S i) p depth;
      inl (r, rs)
  end
(** [decode_variant_alt] *)
with decode_choice (ts : Tys) : Z → Value → string → nat → result (choice ts) :=
  match ts return Z → Value → string → nat → result (choice ts) with
  | TNil => λ _ _ p _, fail p "variant index out of range"
  | TCons t ts => λ index v p depth,
      if index =? 0 then r ← decode t v p depth; inl (inl r)
      else r ← decode_choice ts (index - 1) v p depth; inl (inr r)
  end.

(** <include/luxon/server/pfr_codec.hpp:786-786 to_value> *)
Definition to_value (t : Ty) (x : carrier t) : result Value := encode t x "$" 0.

(** <include/luxon/server/pfr_codec.hpp:788-788 from_value> *)
Definition from_value (t : Ty) (v : Value) : result (carrier t) := decode t v "$" 0.

(** ** What can be carried *)

(** A type whose objects may travel as null. *)
Definition nullable (t : Ty) : bool :=
  match t with TyNull | TyValue | TyOptional _ => true | _ => false end.

(** An optional of a nullable type does not tell its empty object from a null
    one; a variant travels with its index as an [int32]. *)
Fixpoint codable (t : Ty) : bool :=
  match t with
  | TyOptional t => negb (nullable t) && codable t
  | TyVector t | TyArray _ t => codable t
  | TyPair a b | TyMap a b => codable a && codable b
  | TyTuple ts | TyStruct ts => all_codable ts
  | TyVariant ts => (Z.of_nat (size ts) <? 2 ^ 31) && all_codable ts
  | _ => true
  end
with all_codable (ts : Tys) : bool :=
  match ts with TNil => true | TCons t ts => codable t && all_codable ts end.

(** How many levels below its own depth a type takes the codec. *)
Fixpoint height (t : Ty) : nat :=
  match t with
  | TyEnum _ => 1
  | TyOptional t | TyVector t => S (height t)
  | TyArray _ t => S (S (height t))
  | TyPair a b | TyMap a b => S (Nat.max (height a) (height b))
  | TyTuple ts | TyStruct ts | TyVariant ts => S (heights ts)
  | _ => O
  end
with heights (ts : Tys) : nat :=
  match ts with TNil => O | TCons t ts => Nat.max (height t) (heights ts) end.

(** Objects of a type: integers in range, arrays of their length, maps
    without repeated keys.  An integer that is an alternative of
    [ser::Value] is as wide as the payload it comes from or goes to. *)
Fixpoint well_formed (t : Ty) : carrier t → Prop :=
  match t return carrier t → Prop with
  | TyOther w => fits w
  | TyOptional t => λ x, match x with Some x => well_formed t x | None => True end
  | TyVector t => Forall (well_formed t)
  | TyArray n t => λ l, length l = n ∧ Forall (well_formed t) l
  | TyPair a b => λ x, well_formed a x.1 ∧ well_formed b x.2
  | TyTuple ts | TyStruct ts => well_formed_fields ts
  | TyVariant ts => well_formed_choice ts
  | TyMap k m => λ l, NoDup l.*1 ∧ Forall (λ e, well_formed k e.1 ∧ well_formed m e.2) l
  | _ => λ _, True
  end
with well_formed_fields (ts : Tys) : fields ts → Prop :=
  match ts return fields ts → Prop with
  | TNil => λ _, True
  | TCons t ts => λ x, well_formed t x.1 ∧ well_formed_fields ts x.2
  end
with well_formed_choice (ts : Tys) : choice ts → Prop :=
  match ts return choice ts → Prop with
  | TNil => λ _, False
  | TCons t ts => λ x,
      match x with inl x => well_formed t x | inr x => well_formed_choice ts x end
  end.

(** ** Lemmas *)

Lemma within_ok {A} p depth (r : result A) :
  (depth ≤ max_depth)%nat → within p depth r = r.
Proof. intros Hd. unfold within. by destruct (Nat.ltb_spec max_depth depth); [lia|]. Qed.

Lemma traverse_fmap {A B} (f : nat → A → result B) (g : nat → B → result A) l :
  (∀ x, x ∈ l → ∀ i, ∃ y, f i x = inl y ∧ ∀ j, g j y = inl x) →
  ∀ i, ∃ ys, traverse f i l = inl ys ∧ ∀ j, traverse g j ys = inl l.
Proof.
  induction l as [|x l IH]; intros Hl i; [by exists []|].
  destruct (Hl x ltac:(left) i) as (y & Hy & Hx).
  destruct (IH (λ x Hx, Hl x ltac:(by right)) (S i)) as (ys & Hys & Hback).
  exists (y :: ys). cbn. unfold mbind, fallible_bind. rewrite Hy, Hys. split; [done|].
  intros j. by rewrite Hx, Hback.
Qed.

Lemma assign_fresh {K M} `{EqDecision K} (k : K) (x : M) l :
  k ∉ l.*1 → assign k x l = l ++ [(k, x)].
Proof.
  induction l as [|[k' x'] l IH]; [done|]. cbn. intros [Hne Hk]%not_elem_of_cons.
  rewrite decide_False by done. by rewrite IH.
Qed.

Lemma assign_all {K M} `{EqDecision K} (l acc : list (K * M)) :
  NoDup (acc ++ l).*1 →
  foldl (λ out entry, assign entry.1 entry.2 out) acc l = acc ++ l.
Proof.
  revert acc. induction l as [|[k x] l IH]; intros acc Hn; [by rewrite app_nil_r|].
  cbn. rewrite assign_fresh.
  - rewrite IH; by rewrite <-(assoc_L (++)).
  - rewrite fmap_app, NoDup_app in Hn. destruct Hn as (_ & Hd & _). cbn in Hd.
    intros Hk. apply (Hd _ Hk). left.
Qed.

Lemma assign_keys {K M} `{EqDecision K} (k : K) (x : M) l k' :
  k' ∈ (assign k x l).*1 ↔ k' = k ∨ k' ∈ l.*1.
Proof.
  induction l as [|[k0 x0] l IH]; cbn; [set_solver|].
  case_decide; subst; cbn; rewrite ?elem_of_cons, ?IH; naive_solver.
Qed.

Lemma assign_NoDup {K M} `{EqDecision K} (k : K) (x : M) l :
  NoDup l.*1 → NoDup (assign k x l).*1.
Proof.
  induction l as [|[k0 x0] l IH]; cbn; [intros _; apply NoDup_singleton|].
  intros [Hk0 Hl]%NoDup_cons. case_decide; subst; cbn; [by apply NoDup_cons|].
  apply NoDup_cons. split; [|by apply IH]. rewrite assign_keys. naive_solver.
Qed.

Lemma assign_Forall {K M} `{EqDecision K} (P : K * M → Prop) (k : K) (x : M) l :
  P (k, x) → Forall P l → Forall P (assign k x l).
Proof.
  induction 2 as [|[k0 x0] l Hx0 Hl IH]; cbn; [by constructor|].
  case_decide; by constructor.
Qed.

Lemma assign_all_ok {K M} `{EqDecision K} (P : K * M → Prop) (l acc : list (K * M)) :
  NoDup acc.*1 → Forall P acc → Forall P l →
  let m := foldl (λ out entry, assign entry.1 entry.2 out) acc l in
  NoDup m.*1 ∧ Forall P m.
Proof.
  intros Hn Ha Hl. revert acc Hn Ha. induction Hl as [|[k x] l Hx Hl IH];
    intros acc Hn Ha; cbn; [done|].
  apply IH; [by apply assign_NoDup|by apply assign_Forall].
Qed.

(** ** What decoding yields *)

(** A result that satisfies [P], or an error at [p] or below it. *)
Definition located {A} p (r : result A) (P : A → Prop) : Prop :=
  match r with inl x => P x | inr e => ∃ s, path e = p +:+ s end.

Lemma fail_located {A} p m (P : A → Prop) : located p (fail p m) P.
Proof. exists EmptyString. by rewrite string_app_nil. Qed.

Lemma type_error_located {A} p expected v (P : A → Prop) :
  located p (type_error p expected v) P.
Proof. apply fail_located. Qed.

Lemma within_located {A} p depth r (P : A → Prop) :
  located p r P → located p (within p depth r) P.
Proof. unfold within. case_match; [intros _; apply fail_located|done]. Qed.

Lemma child_located {A} p i r (P : A → Prop) :
  located (child_path p i) r P → located p r P.
Proof.
  destruct r as [|e]; [done|]. intros [s Hs]. unfold child_path in Hs. cbn in Hs.
  eexists. rewrite Hs. by rewrite !string_app_assoc.
Qed.

Lemma bind_located {A B} p (r : result A) (f : A → result B) P Q :
  located p r P → (∀ x, P x → located p (f x) Q) → located p (r ≫= f) Q.
Proof. destruct r as [x|e]; cbn; [|done]. intros Hx Hf. by apply Hf. Qed.

Lemma leaf_located {A} p expected v (x : option A) (P : A → Prop) :
  (∀ y, x = Some y → P y) → located p (leaf p expected v x) P.
Proof.
  destruct x as [y|]; [intros Hx; by apply Hx|]. intros _.
  apply (type_error_located p expected v P).
Qed.

Lemma list_of_located p expected n short v :
  located p (list_of p expected n short v) (λ l, length l = n).
Proof.
  unfold list_of. destruct (as_list_ptr v); [|apply type_error_located].
  case_decide; [done|apply fail_located].
Qed.

Lemma decode_other_located w p v : located p (decode_other w p v) (fits w).
Proof.
  apply leaf_located. intros y. destruct (numeric v); [|done].
  intros [= <-]. apply cast_fits.
Qed.

Lemma traverse_located {A B} p (f : nat → A → result B) P l :
  (∀ i x, located p (f i x) P) → ∀ i, located p (traverse f i l) (Forall P).
Proof.
  intros Hf. induction l as [|x l IH]; intros i; [by constructor|].
  cbn [traverse]. eapply bind_located; [apply Hf|]. intros y Hy.
  eapply bind_located; [apply IH|]. intros ys Hys. by constructor.
Qed.

Lemma vector_located t dec v p depth :
  (∀ v p depth, located p (dec v p depth) (well_formed t)) →
  located p (decode_vector t dec v p depth) (Forall (well_formed t)).
Proof.
  intros Hdec. apply within_located. destruct (try_direct_vector t v) as [l|] eqn:Hl.
  - apply Forall_true. intros x. by destruct t.
  - destruct (as_list_ptr v); [|apply type_error_located].
    apply traverse_located. intros i x. eapply child_located, Hdec.
Qed.

(** What decoding gives is well formed; what it complains about is located in
    what it was given. *)
Lemma decode_located :
  (∀ t v p depth, located p (decode t v p depth) (well_formed t)) ∧
  (∀ ts, (∀ l i p depth, located p (decode_fields ts l i p depth) (well_formed_fields ts)) ∧
         (∀ k v p depth, located p (decode_choice ts k v p depth) (well_formed_choice ts))).
Proof.
  apply Ty_Tys_ind; try solve
    [intros; cbn [decode]; apply within_located;
     first [done | by apply leaf_located | apply decode_other_located]].
  - intros t IH v p depth. cbn [decode]. apply within_located. case_match; [done|].
    eapply bind_located; [apply IH|done].
  - intros t IH v p depth. cbn [decode]. by apply vector_located.
  - intros n t IH v p depth. cbn [decode]. apply within_located.
    eapply bind_located; [by apply vector_located|]. intros l Hl.
    case_decide; [done|apply fail_located].
  - intros a IHa b IHb v p depth. cbn [decode]. apply within_located.
    eapply bind_located; [apply list_of_located|]. intros l _.
    eapply bind_located; [eapply child_located, IHa|]. intros x Hx.
    eapply bind_located; [eapply child_located, IHb|done].
  - intros ts [IH _] v p depth. cbn [decode]. apply within_located.
    eapply bind_located; [apply list_of_located|]. intros l _. apply IH.
  - intros ts [IH _] v p depth. cbn [decode]. apply within_located.
    eapply bind_located; [apply list_of_located|]. intros l _. apply IH.
  - intros ts [_ IH] v p depth. cbn [decode]. apply within_located.
    eapply bind_located; [apply list_of_located|]. intros l _.
    eapply bind_located; [eapply child_located, within_located, decode_other_located|].
    intros k _. eapply child_located, IH.
  - intros k IHk m IHm v p depth. cbn [decode]. apply within_located.
    destruct (as_list_ptr v); [|apply type_error_located].
    eapply bind_located.
    { apply (traverse_located p _ (λ e, well_formed k e.1 ∧ well_formed m e.2)). intros i x.
      destruct (as_list_ptr x) as [[|kv [|mv []]]|];
        try (eapply child_located, fail_located).
      eapply bind_located; [eapply child_located, child_located, IHk|]. intros a Ha.
      eapply bind_located; [eapply child_located, child_located, IHm|done]. }
    intros entries He. apply assign_all_ok; [apply NoDup_nil_2|constructor|done].
  - split; [done|]. intros k v p depth. apply fail_located.
  - intros t IHt ts [IHf IHc]. split.
    + intros l i p depth. cbn [decode_fields].
      eapply bind_located; [eapply child_located, IHt|]. intros x Hx.
      eapply bind_located; [apply IHf|done].
    + intros k v p depth. cbn [decode_choice]. destruct (k =? 0).
      * eapply bind_located; [apply IHt|done].
      * eapply bind_located; [apply IHc|done].
Qed.

(** Whatever value it is given, the decoder produces an object of the type
    asked for (integers in range, arrays of their length, maps without
    repeated keys) or an error whose path extends the path of the value. *)
Theorem decode_sound t v p depth :
  match decode t v p depth with
  | inl x => well_formed t x
  | inr e => ∃ s, path e = p +:+ s
  end.
Proof. apply (proj1 decode_located). Qed.

(** ** Round trips *)

Section laws.
Context `{!SerLaws, !SerArraysLaws}.

Lemma native_get n z : get_native n (of_native n z) = Some z.
Proof. destruct n; cbn; apply acc_get. Qed.

Lemma native_not_null n z : is_null (of_native n z) = false.
Proof.
  destruct n; cbn;
    first [by eapply (acc_not_null of_byte get_byte)|by eapply (acc_not_null of_int16 get_int16)
          |by eapply (acc_not_null of_int32 get_int32)|by eapply (acc_not_null of_int64 get_int64)].
Qed.

Lemma numeric_int32 z : numeric (of_int32 z) = Some z.
Proof.
  unfold numeric. rewrite (acc_other of_int32 get_int32 of_byte get_byte) by done.
  rewrite (acc_other of_int32 get_int32 of_int16 get_int16) by done. by rewrite acc_get.
Qed.

Lemma numeric_int64 z : numeric (of_int64 z) = Some z.
Proof.
  unfold numeric. rewrite (acc_other of_int64 get_int64 of_byte get_byte) by done.
  rewrite (acc_other of_int64 get_int64 of_int16 get_int16) by done.
  rewrite (acc_other of_int64 get_int64 of_int32 get_int32) by done. by rewrite acc_get.
Qed.

Lemma u64_s64 z : u64 (s64 z) = u64 z.
Proof.
  unfold swrap. case_decide; [apply wrap_wrap|]. unfold wrap.
  rewrite Zminus_mod, Z_mod_same_full, Z.sub_0_r, !Zmod_mod. done.
Qed.

Lemma u32_s64 z : u32 (s64 z) = u32 z.
Proof.
  assert (∀ x, u32 (u64 x) = u32 x) as E.
  { intros x. apply Z.mod_mod_divide. by exists (2 ^ 32). }
  rewrite <-(E (s64 z)), u64_s64. apply E.
Qed.

Lemma other_roundtrip w z : fits w z → cast w <$> numeric (of_other w z) = Some z.
Proof.
  intros Hz. destruct w; cbn [of_other];
    rewrite ?numeric_int32, ?numeric_int64; cbn [fmap option_fmap option_map];
    f_equal; [by apply (cast_id I8)|by apply (cast_id U16)| |].
  - cbn [cast]. rewrite u32_s64. by apply (cast_id U32).
  - cbn [cast]. rewrite u64_s64. by apply (cast_id U64).
Qed.

Lemma other_not_null w z : is_null (of_other w z) = false.
Proof.
  destruct w; cbn;
    first [by eapply (acc_not_null of_int32 get_int32)|by eapply (acc_not_null of_int64 get_int64)].
Qed.

Lemma list_back l : as_list_ptr (of_list l) = Some l.
Proof. unfold as_list_ptr. by rewrite acc_get. Qed.

Lemma list_not_null l : is_null (of_list l) = false.
Proof. by eapply (acc_not_null of_list get_list). Qed.

Lemma list_of_back p expected short l n :
  length l = n → list_of p expected n short (of_list l) = inl l.
Proof. intros <-. unfold list_of. rewrite list_back. by rewrite decide_True. Qed.

Lemma direct_back t mk l :
  direct t = Some mk → try_direct_vector t (mk l) = Some l ∧ is_null (mk l) = false.
Proof.
  destruct t as [| | | |[]| | | | | | | | | | |]; intros [= <-]; cbn [try_direct_vector];
    rewrite ?acc_get, ?list_back; (split; [done|]);
    first [by eapply (acc_not_null of_bytes get_bytes) | by eapply (acc_not_null of_bools get_bools)
          |by eapply (acc_not_null of_int16s get_int16s)|by eapply (acc_not_null of_ints get_ints)
          |by eapply (acc_not_null of_int64s get_int64s)|by eapply (acc_not_null of_strings get_strings)
          |apply list_not_null].
Qed.

Lemma not_direct t v : direct t = None → try_direct_vector t v = None.
Proof. by destruct t as [| | | |[]| | | | | | | | | | |]. Qed.

(** What is encoded within the depth decodes to the same object, at any
    place, and is null only if the type may be. *)
Definition carried (t : Ty) : Prop :=
  ∀ x p depth, well_formed t x → (depth + height t ≤ max_depth)%nat →
  ∃ v, encode t x p depth = inl v ∧ (nullable t = false → is_null v = false) ∧
    ∀ q depth', (depth' + height t ≤ max_depth)%nat → decode t v q depth' = inl x.

Definition carried_fields (ts : Tys) : Prop :=
  ∀ x i p depth, well_formed_fields ts x → (S depth + heights ts ≤ max_depth)%nat →
  ∃ vs, encode_fields ts x i p depth = inl vs ∧ length vs = size ts ∧
    ∀ j q depth', (S depth' + heights ts ≤ max_depth)%nat →
      decode_fields ts vs j q depth' = inl x.

Definition carried_choice (ts : Tys) : Prop :=
  ∀ x index p depth, well_formed_choice ts x → (S depth + heights ts ≤ max_depth)%nat →
  ∃ k v, encode_choice ts x index p depth = inl (of_list [of_int32 (index + k); v]) ∧
    0 ≤ k < Z.of_nat (size ts) ∧
    ∀ q depth', (depth' + heights ts ≤ max_depth)%nat →
      decode_choice ts k v q depth' = inl x.

(** Sequences: what a vector's elements become, read back as a vector. *)
Lemma range_carried t l p depth :
  carried t → Forall (well_formed t) l → (S depth + height t ≤ max_depth)%nat →
  ∃ v, encode_range t (encode t) l p depth = inl v ∧ is_null v = false ∧
    ∀ q depth', (S depth' + height t ≤ max_depth)%nat →
      decode_vector t (decode t) v q depth' = inl l.
Proof.
  intros Ht Hl Hd. unfold encode_range, decode_vector. destruct (direct t) as [mk|] eqn:Hmk.
  - exists (mk l). destruct (direct_back t mk l Hmk) as [Hback Hnull].
    split_and!; [done|done|]. intros q depth' Hd'. rewrite within_ok by lia. by rewrite Hback.
  - rewrite Forall_forall in Hl.
    enough (∃ vs, traverse (λ i x, encode t x (child_path p i) (S depth)) 0 l = inl vs ∧
      ∀ q depth', (S depth' + height t ≤ max_depth)%nat →
        ∀ j, traverse (λ i v, decode t v (child_path q i) (S depth')) j vs = inl l)
      as (vs & Hvs & Hback).
    { exists (of_list vs). unfold mbind, fallible_bind. rewrite Hvs.
      split_and!; [done|apply list_not_null|]. intros q depth' Hd'.
      rewrite within_ok by lia. rewrite not_direct, list_back by done. by apply Hback. }
    clear Hmk. generalize O. induction l as [|x l IH]; intros i; [by exists []|].
    destruct (Ht x (child_path p i) (S depth)) as (v & Hv & _ & Hx);
      [apply Hl; left|lia|].
    destruct (IH (λ y Hy, Hl y ltac:(by right)) (S i)) as (vs & Hvs & Hback).
    exists (v :: vs). cbn. unfold mbind, fallible_bind. rewrite Hv, Hvs. split; [done|].
    intros q depth' Hd' j. rewrite Hx by lia. by rewrite Hback.
Qed.

Lemma entries_carried k m l p depth :
  carried k → carried m → Forall (λ e, well_formed k e.1 ∧ well_formed m e.2) l →
  (S depth + Nat.max (height k) (height m) ≤ max_depth)%nat → ∀ i,
  ∃ vs, traverse (λ i entry,
      kr ← encode k entry.1 (child_path (child_path p i) 0) (S depth);
      vr ← encode m entry.2 (child_path (child_path p i) 1) (S depth);
      inl (of_list [kr; vr])) i l = inl vs ∧
    ∀ q depth', (S depth' + Nat.max (height k) (height m) ≤ max_depth)%nat → ∀ j,
    traverse (λ i v,
      match as_list_ptr v with
      | Some [kv; mv] =>
          kr ← decode k kv (child_path (child_path q i) 0) (S depth');
          mr ← decode m mv (child_path (child_path q i) 1) (S depth');
          inl (kr, mr)
      | _ => fail (child_path q i) "expected map entry as list of size 2"
      end) j vs = inl l.
Proof.
  intros Hk Hm Hl Hd. induction Hl as [|[a b] l [Ha Hb] Hl IH]; intros i; [by exists []|].
  destruct (Hk a (child_path (child_path p i) 0) (S depth)) as (av & Hav & _ & Hka); [done|lia|].
  destruct (Hm b (child_path (child_path p i) 1) (S depth)) as (bv & Hbv & _ & Hmb); [done|lia|].
  destruct (IH (S i)) as (vs & Hvs & Hback).
  exists (of_list [av; bv] :: vs). cbn. unfold mbind, fallible_bind in *. cbn in Hav, Hbv.
  rewrite Hav, Hbv, Hvs. split; [done|]. intros q depth' Hd' j.
  rewrite list_back, Hka, Hmb by lia. by rewrite Hback.
Qed.

Local Ltac leaf_case :=
  intros x p depth Hx Hd; cbn in *; rewrite !within_ok by lia;
  eexists; split; [reflexivity|]; split;
  [|intros q depth' Hd'; rewrite !within_ok by lia].

Lemma leaf_carried t :
  match t with
  | TyNull | TyValue | TyBool | TyByte | TyNative _ | TyOther _ | TyEnum _ | TyString => True
  | _ => False
  end → carried t.
Proof.
  destruct t; intros []; leaf_case; rewrite ?native_get, ?acc_get;
    unfold decode_other; rewrite ?other_roundtrip by done; try done.
  - by rewrite is_null_null; destruct x.
  - intros _. by eapply (acc_not_null of_bool get_bool).
  - intros _. by eapply (acc_not_null of_byte get_byte).
  - intros _. apply native_not_null.
  - intros _. apply other_not_null.
  - intros _. apply native_not_null.
  - intros _. by eapply (acc_not_null of_string get_string).
Qed.

Lemma optional_carried t : nullable t = false → carried t → carried (TyOptional t).
Proof.
  intros Hn Ht [x|] p depth Hx Hd; cbn [height encode decode] in *;
    rewrite within_ok by lia.
  - destruct (Ht x p (S depth) Hx) as (v & Hv & Hnull & Hback); [lia|].
    exists v. split; [done|]. split; [done|].
    intros q depth' Hd'. rewrite within_ok by lia. rewrite Hnull by done.
    unfold mbind, fallible_bind. by rewrite Hback by lia.
  - exists null. split; [done|]. split; [done|].
    intros q depth' Hd'. rewrite within_ok by lia. by rewrite is_null_null.
Qed.

Lemma vector_carried t : carried t → carried (TyVector t).
Proof.
  intros Ht l p depth Hl Hd. cbn [height encode decode] in *.
  destruct (range_carried t l p depth Ht Hl) as (v & Hv & Hnull & Hback); [lia|].
  rewrite within_ok by lia. exists v. split; [done|]. split; [done|].
  intros q depth' Hd'. apply Hback. lia.
Qed.

Lemma array_carried n t : carried t → carried (TyArray n t).
Proof.
  intros Ht l p depth [Hn Hl] Hd. cbn [height encode decode] in *.
  destruct (range_carried t l p depth Ht Hl) as (v & Hv & Hnull & Hback); [lia|].
  rewrite within_ok by lia. exists v. split; [done|]. split; [done|].
  intros q depth' Hd'. rewrite within_ok by lia. unfold mbind, fallible_bind.
  rewrite Hback by lia. by rewrite decide_True.
Qed.

Lemma pair_carried a b : carried a → carried b → carried (TyPair a b).
Proof.
  intros Ha Hb [x y] p depth [Hx Hy] Hd.
  cbn [height encode decode fst snd] in *. rewrite within_ok by lia.
  destruct (Ha x (child_path p 0) (S depth) Hx) as (xv & Hxv & _ & Hxb); [lia|].
  destruct (Hb y (child_path p 1) (S depth) Hy) as (yv & Hyv & _ & Hyb); [lia|].
  unfold mbind, fallible_bind. rewrite Hxv, Hyv. eexists. split; [done|].
  split; [intros _; apply list_not_null|]. intros q depth' Hd'. rewrite within_ok by lia.
  rewrite list_of_back by done. cbn [nth]. by rewrite Hxb, Hyb by lia.
Qed.

Lemma struct_carried ts : carried_fields ts → carried (TyTuple ts) ∧ carried (TyStruct ts).
Proof.
  intros Hts. split; intros x p depth Hx Hd; cbn [height encode decode] in *;
    rewrite within_ok by lia;
    (destruct (Hts x O p depth Hx) as (vs & Hvs & Hlen & Hback); [lia|]);
    unfold mbind, fallible_bind; rewrite Hvs; (eexists; split; [done|]);
    (split; [intros _; apply list_not_null|]); intros q depth' Hd';
    rewrite within_ok by lia; rewrite list_of_back by done; apply Hback; lia.
Qed.

Lemma variant_carried ts :
  Z.of_nat (size ts) < 2 ^ 31 → carried_choice ts → carried (TyVariant ts).
Proof.
  intros Hsize Hts x p depth Hx Hd. cbn [height encode decode] in *.
  rewrite within_ok by lia.
  destruct (Hts x 0 p depth Hx) as (k & v & Hv & Hk & Hback); [lia|].
  rewrite Hv. eexists. split; [done|]. split; [intros _; apply list_not_null|].
  intros q depth' Hd'. rewrite !within_ok by lia. unfold mbind, fallible_bind.
  rewrite list_of_back by done. cbn [nth]. unfold decode_other.
  rewrite numeric_int32. cbn [fmap option_fmap option_map leaf].
  rewrite (cast_id U64 (0 + k)) by (cbn; lia). rewrite Z.add_0_l, within_ok by lia.
  by rewrite Hback by lia.
Qed.

Lemma map_carried k m : carried k → carried m → carried (TyMap k m).
Proof.
  intros Hk Hm l p depth [Hn Hl] Hd. cbn [height encode decode] in *.
  rewrite within_ok by lia.
  destruct (entries_carried k m l p depth Hk Hm Hl ltac:(lia) 0) as (vs & Hvs & Hback).
  unfold mbind, fallible_bind in *. rewrite Hvs. eexists. split; [done|].
  split; [intros _; apply list_not_null|]. intros q depth' Hd'. rewrite within_ok by lia.
  rewrite list_back, Hback by lia. by rewrite assign_all.
Qed.

Lemma fields_carried t ts : carried t → carried_fields ts → carried_fields (TCons t ts).
Proof.
  intros Ht Hts [x xs] i p depth [Hx Hxs] Hd.
  cbn [heights encode_fields decode_fields fst snd] in *.
  destruct (Ht x (child_path p i) (S depth) Hx) as (v & Hv & _ & Hb); [lia|].
  destruct (Hts xs (S i) p depth Hxs) as (vs & Hvs & Hlen & Hbs); [lia|].
  unfold mbind, fallible_bind. rewrite Hv, Hvs. eexists. split; [done|].
  split; [cbn; by rewrite Hlen|]. intros j q depth' Hd'. cbn [hd tl].
  rewrite Hb by lia. by rewrite Hbs by lia.
Qed.

Lemma choice_carried t ts : carried t → carried_choice ts → carried_choice (TCons t ts).
Proof.
  intros Ht Hts [x|x] index p depth Hx Hd;
    cbn [heights encode_choice decode_choice size] in *.
  - destruct (Ht x (child_path p 1) (S depth) Hx) as (v & Hv & _ & Hb); [lia|].
    exists 0, v. unfold mbind, fallible_bind. rewrite Hv, Z.add_0_r. split; [done|].
    split; [lia|]. intros q depth' Hd'. cbn. by rewrite Hb by lia.
  - destruct (Hts x (index + 1) p depth Hx) as (k & v & Hv & Hk & Hb); [lia|].
    exists (k + 1), v. rewrite Hv. split; [do 4 f_equal; lia|]. split; [lia|].
    intros q depth' Hd'. destruct (Z.eqb_spec (k + 1) 0); [lia|].
    rewrite Z.add_simpl_r. unfold mbind, fallible_bind. by rewrite Hb by lia.
Qed.

Create HintDb carried.
#[local] Hint Resolve leaf_carried vector_carried array_carried pair_carried map_carried
  fields_carried choice_carried : carried.

(** Every codable type is carried: the induction behind the round trip. *)
Lemma codable_carried :
  (∀ t, codable t = true → carried t) ∧
  (∀ ts, all_codable ts = true → carried_fields ts ∧ carried_choice ts).
Proof.
  apply Ty_Tys_ind; cbn [codable all_codable]; intros;
    repeat match goal with E : _ && _ = true |- _ => apply andb_true_iff in E as [] end;
    try solve [by apply leaf_carried | eauto with carried].
  - apply optional_carried; [by apply negb_true_iff|auto].
  - apply struct_carried. naive_solver.
  - apply struct_carried. naive_solver.
  - apply variant_carried; [by apply Z.ltb_lt|naive_solver].
  - split; [by intros [] i p depth _ Hd; exists []|by intros []].
  - split; [apply fields_carried|apply choice_carried]; naive_solver.
Qed.

(** C28: An object of a codable type, when the type nests no deeper than the
    codec allows, is encoded without an error and decoded to the same object,
    whatever places the two ends report errors at. *)
Theorem codec_roundtrip t x p q :
  codable t = true → well_formed t x → (height t ≤ max_depth)%nat →
  ∃ v, encode t x p 0 = inl v ∧ decode t v q 0 = inl x.
Proof.
  intros Ht Hx Hd. destruct (proj1 codable_carried t Ht x p 0%nat Hx) as (v & Hv & _ & Hb); [lia|].
  exists v. split; [done|]. apply Hb. lia.
Qed.
End laws.
End depth.
End codec.
