(* ===== verification/Yaml.v ===== *)
(** * Configuration trees

    The nodes of [yaml.cpp] as the configuration reads them: kinds, iteration,
    [operator[]] (which inserts what it does not find) and the conversions of
    [Node::As], which leave a variable as it is when there is nothing to read.
    The parser that builds the tree is not modelled. *)

From S2P Require Import Prelude.
From Stdlib Require Import Ascii.
From Stdlib Require String.
Open Scope Z_scope.

#[local] Unset Elimination Schemes.

(** <src/yaml.cpp:472-473 NodeImp>
    A map keeps its entries in the order of their keys ([std::map]). *)
Inductive Node :=
  | NoneNode
  | ScalarNode (data : string)
  | SequenceNode (items : list Node)
  | MapNode (entries : list (string * Node)).

(** <src/yaml.cpp:984-1002 Node::IsNone> *)
Definition IsNone (n : Node) : bool :=
  match n with NoneNode => true | _ => false end.
Definition IsSequence (n : Node) : bool :=
  match n with SequenceNode _ => true | _ => false end.
Definition IsMap (n : Node) : bool :=
  match n with MapNode _ => true | _ => false end.
Definition IsScalar (n : Node) : bool :=
  match n with ScalarNode _ => true | _ => false end.

(** [std::map::find], the first half of [MapImp::GetNode] *)
Fixpoint map_find (key : string) (m : list (string * Node)) : option Node :=
  match m with
  | [] => None
  | (k, n) :: m => if bool_decide (k = key) then Some n else map_find key m
  end.

(** [std::map::insert] of a key that is not there. *)
Fixpoint map_insert (key : string) (n : Node) (m : list (string * Node)) :
    list (string * Node) :=
  match m with
  | [] => [(key, n)]
  | (k, n') :: m =>
      match String.compare key k with
      | Lt => (key, n) :: (k, n') :: m
      | _ => (k, n') :: map_insert key n m
      end
  end.

(** <src/yaml.cpp:1048-1052 Node::operator[]>
    The child, and what becomes of the node: it is turned into a map and the
    missing key is inserted. *)
Definition index_key (node : Node) (key : string) : Node * Node :=
  let m := match node with MapNode m => m | _ => [] end in
  match map_find key m with
  | Some child => (child, MapNode m)
  | None => (NoneNode, MapNode (map_insert key NoneNode m))
  end.

(** The child alone, where what becomes of the node is not looked at again. *)
Definition child (node : Node) (key : string) : Node := (index_key node key).1.

(** [Begin] to [End]: keys and children of a map, empty keys and items of a
    sequence. *)
Definition entries_of (node : Node) : list (string * Node) :=
  match node with
  | SequenceNode l => (λ n, (EmptyString, n)) <$> l
  | MapNode m => m
  | _ => []
  end.

(** ** Scalars *)

(** <src/yaml.cpp:1215-1223 Node::AsString> *)
Definition AsString (node : Node) : string :=
  match node with ScalarNode s => s | _ => EmptyString end.

Definition to_lower (c : ascii) : ascii :=
  let n := code_of c in
  if (65 <=? n) && (n <=? 90) then char_of (n + 32) else c.

Fixpoint lowercase (s : string) : string :=
  match s with EmptyString => EmptyString | String c s => String (to_lower c) (lowercase s) end.

(** <src/yaml.hpp:113-123 StringConverter> *)
Definition AsBool (node : Node) : bool :=
  let data := lowercase (AsString node) in
  bool_decide (data = "true") || bool_decide (data = "yes") || bool_decide (data = "1").

Definition is_space (c : ascii) : bool :=
  let n := code_of c in (n =? 32) || ((9 <=? n) && (n <=? 13)).

Fixpoint skip_space (s : string) : string :=
  match s with
  | String c rest => if is_space c then skip_space rest else s
  | EmptyString => EmptyString
  end.

(** The digits a string starts with, added to [acc]; [None] without one. *)
Fixpoint digits (s : string) (acc : option Z) : option Z :=
  match s with
  | String c rest =>
      let n := code_of c in
      if (48 <=? n) && (n <=? 57) then digits rest (Some (10 * default 0 acc + (n - 48)))
      else acc
  | EmptyString => acc
  end.

(** [std::stringstream >> type] for an unsigned type of [w] bits that held
    [before]: nothing to read leaves it alone, no digits give 0, too large a
    number the largest value, a minus sign the negation modulo [2^w]. *)
Definition read_unsigned (w before : Z) (s : string) : Z :=
  match skip_space s with
  | EmptyString => before
  | String c rest =>
      let minus := bool_decide (c = "-"%char) in
      let body := if minus || bool_decide (c = "+"%char) then rest else String c rest in
      match digits body None with
      | None => 0
      | Some n =>
          if 2 ^ w <=? n then 2 ^ w - 1 else if minus then wrap w (- n) else n
      end
  end.

(** <src/yaml.hpp:68-76 StringConverter>
    The variable the number is read into is not initialized: [before] is
    what its memory held. *)
Definition AsUnsigned (w before : Z) (node : Node) : Z :=
  read_unsigned w before (AsString node).

(** ** Lemmas *)

Lemma digits_nonneg s acc n :
  0 ≤ default 0 acc → digits s acc = Some n → 0 ≤ n.
Proof.
  revert acc. induction s as [|c s IH]; intros acc Ha; cbn [digits].
  - intros ->. done.
  - destruct (_ && _) eqn:E; [|by intros ->].
    apply andb_true_iff in E as [?%Z.leb_le ?%Z.leb_le]. apply IH. cbn. lia.
Qed.

Lemma read_unsigned_range w before s :
  0 ≤ w → 0 ≤ before < 2 ^ w → 0 ≤ read_unsigned w before s < 2 ^ w.
Proof.
  intros Hw Hb. unfold read_unsigned. pose proof (Z.pow_pos_nonneg 2 w ltac:(lia) Hw).
  destruct (skip_space s) as [|c rest]; [done|].
  destruct (digits _ None) as [n|] eqn:Hn; [|lia]. apply digits_nonneg in Hn; [|done].
  destruct (Z.leb_spec (2 ^ w) n); [lia|]. case_match; [by apply wrap_range|lia].
Qed.

Lemma map_find_insert key n m :
  map_find key (map_insert key n m) = Some n ∨ is_Some (map_find key m).
Proof.
  induction m as [|[k n'] m IH]; cbn; [left; by rewrite bool_decide_true|].
  case_bool_decide as Hk; [right; by eexists|]. destruct (String.compare key k); cbn;
    rewrite ?(bool_decide_eq_true_2 (key = key)), ?(bool_decide_eq_false_2 (k = key)) by done;
    [exact IH|by left|exact IH].
Qed.

Lemma elem_of_map_insert key n m e : e ∈ map_insert key n m ↔ e = (key, n) ∨ e ∈ m.
Proof.
  induction m as [|[k n'] m IH]; cbn; [set_solver|].
  destruct (String.compare key k); rewrite ?elem_of_cons, ?IH; naive_solver.
Qed.

Lemma map_find_elem key m n : map_find key m = Some n → (key, n) ∈ m.
Proof.
  induction m as [|[k n'] m IH]; cbn; [done|].
  case_bool_decide as Hk; [|by right; apply IH]. intros [= ->]. subst. left.
Qed.

Lemma map_find_none key m : map_find key m = None ↔ key ∉ m.*1.
Proof.
  induction m as [|[k n'] m IH]; cbn; [set_solver|].
  case_bool_decide as Hk; [set_solver|]. rewrite IH. set_solver.
Qed.
