(* ===== verification/Configuration.v ===== *)
(** * The configuration file

    Models the configuration parser of [server_manager.cpp], in the build with
    the HTTP server and the settings database: from the tree of [Yaml] to a
    [ServerManagerConfig], or the message of the exception thrown.  Warnings
    about deprecated keys are left out. *)

From stdpp Require Import pretty.
From S2P Require Import Prelude Yaml ServerManager.
From Stdlib Require String OrderedTypeEx.
Open Scope Z_scope.

Section configuration.
Context `{Transports}.

(** <include/luxon/server/server_manager.hpp:76-80 HttpServerConfig> *)
Record HttpServerConfig := mkHttpConfig {
  http_enabled : bool;
  http_address : string;
  http_port : Z;
}.

(** <include/luxon/server/server_manager.hpp:87-115 ServerManagerConfig> *)
Record ServerManagerConfig := mkManagerConfig {
  servers : list ServerConfig;
  enable_ipv6 : bool;
  no_banner : bool;
  cfg_max_connections : Z;
  cfg_max_game_peers : Z;
  tick_time_budget : Z;
  settings_database_path : string;
  http : option HttpServerConfig;
}.
End configuration.

#[export] Instance eta_ServerConfig `{Transports} : Eta ServerConfig := λ c,
  mkServerConfig (config_type c) (config_port c) (config_allow_unsolicited c)
    (config_subprocess c) (is_routing_only c) (stun_server_host c) (stun_server_port c)
    (external_address c) (proxies c).
#[export] Instance eta_HttpServerConfig : Eta HttpServerConfig := λ c,
  mkHttpConfig (http_enabled c) (http_address c) (http_port c).
#[export] Instance eta_ServerManagerConfig `{Transports} : Eta ServerManagerConfig := λ c,
  mkManagerConfig (servers c) (enable_ipv6 c) (no_banner c) (cfg_max_connections c)
    (cfg_max_game_peers c) (tick_time_budget c) (settings_database_path c) (http c).

(** The default member initializers. *)
Definition default_server `{Transports} : ServerConfig :=
  mkServerConfig NoServer 0 false false false EmptyString 19302 EmptyString [].
Definition default_http : HttpServerConfig := mkHttpConfig false "0.0.0.0" 5088.
Definition default_config `{Transports} : ServerManagerConfig :=
  mkManagerConfig [] true false 0 0 2000 EmptyString None.

(** ** Reading *)

(** A value, or the message of the [std::runtime_error] thrown. *)
Abbreviation parsed := (fallible string).

(** <src/server_manager.cpp:144-147 ThrowConfigError> *)
Definition ThrowConfigError {A} (path message : string) : parsed A :=
  inr ("Config error at " +:+ path +:+ ": " +:+ message).

(** <src/server_manager.cpp:149-152 ExpectMap> *)
Definition ExpectMap (node : Node) (path : string) : parsed unit :=
  if IsMap node then inl tt else ThrowConfigError path "expected a map".

(** <src/server_manager.cpp:154-157 ExpectSequence> *)
Definition ExpectSequence (node : Node) (path : string) : parsed unit :=
  if IsSequence node then inl tt else ThrowConfigError path "expected a sequence".

(** <src/server_manager.cpp:159-167 ValidateAllowedKeys> *)
Definition ValidateAllowedKeys (map : Node) (path : string) (allowed : list string) :
    parsed unit :=
  _ ← ExpectMap map path;
  match find_first (λ e, negb (bool_decide (e.1 ∈ allowed))) (entries_of map) with
  | Some (key, _) => ThrowConfigError path ("unknown key '" +:+ key +:+ "'")
  | None => inl tt
  end.

Section parser.
Context `{Transports}.

(** What the memory of an uninitialized variable of a width held when the
    value at a path was read into it. *)
Variable memory : Z → string → Z.

(** <src/server_manager.cpp:169-175 ReadNodeScalar>
    [As] never throws for the types that are read. *)
Definition ReadUnsigned (w : Z) (node : Node) (path : string) : Z :=
  AsUnsigned w (memory w path) node.

(** <src/server_manager.cpp:177-183 ReadOptionalScalar> *)
Definition ReadOptionalScalar {T} (read : Node → string → T) (map : Node)
    (key path : string) : option T :=
  let child := child map key in
  if IsNone child then None else Some (read child (path +:+ "." +:+ key)).

(** <src/server_manager.cpp:185-190 ReadRequiredScalar> *)
Definition ReadRequiredScalar {T} (read : Node → string → T) (map : Node)
    (key path : string) : parsed T :=
  match ReadOptionalScalar read map key path with
  | Some value => inl value
  | None => ThrowConfigError path ("missing required key '" +:+ key +:+ "'")
  end.

(** [As<std::string>] and [As<bool>] leave nothing to chance. *)
Definition ReadString (node : Node) (path : string) : string := AsString node.
Definition ReadBool (node : Node) (path : string) : bool := AsBool node.

(** <src/server_manager.cpp:80-89 StringToServerType> *)
Definition StringToServerType (str : string) : parsed ServerType :=
  if bool_decide (str = "NameServer") then inl NameServer
  else if bool_decide (str = "MasterServer") then inl MasterServer
  else if bool_decide (str = "GameServer") then inl GameServer
  else inr ("Unknown ServerType: " +:+ str).

(** <src/server_manager.cpp:91-100 StringToEndpointProtocol> *)
Definition StringToEndpointProtocol (str : string) : parsed ServerProtocol :=
  if bool_decide (str = "UDP") then inl UDP
  else if bool_decide (str = "TCP") then inl TCP
  else if bool_decide (str = "WebSocket") then inl WebSocket
  else inr ("Unknown protocol: " +:+ str).

(** [catch (const std::exception& e) { ThrowConfigError(path, e.what()); }] *)
Definition rethrow {A} (path : string) (r : parsed A) : parsed A :=
  match r with inl x => inl x | inr e => ThrowConfigError path e end.

(** <src/server_manager.cpp:201-211 ReadOptionalProtocol> *)
Definition ReadOptionalProtocol (map : Node) (key path : string)
    (fallback : ServerProtocol) : parsed ServerProtocol :=
  match ReadOptionalScalar ReadString map key path with
  | None => inl fallback
  | Some value => rethrow (path +:+ "." +:+ key) (StringToEndpointProtocol value)
  end.

(** <src/server_manager.cpp:213-228 ReadOptionalExternalAddress> *)
Definition ReadOptionalExternalAddress (map : Node) (path : string) : parsed (option string) :=
  let external_address := ReadOptionalScalar ReadString map "external_address" path in
  let legacy_address := ReadOptionalScalar ReadString map "address" path in
  match external_address, legacy_address with
  | Some _, Some _ => ThrowConfigError path "use only one of 'external_address' or 'address'"
  | Some a, None | None, Some a => inl (Some a)
  | None, None => inl None
  end.

(** <src/server_manager.cpp:230-245 ParseStunServer> *)
Definition ParseStunServer (server : ServerConfig) (stun_node : Node) (path : string) :
    parsed ServerConfig :=
  if IsScalar stun_node then
    inl (server <| stun_server_host := ReadString stun_node path |>
                <| stun_server_port := 19302 |>)
  else if negb (IsMap stun_node) then ThrowConfigError path "expected a string or a map"
  else
    _ ← ValidateAllowedKeys stun_node path ["host"; "port"];
    host ← ReadRequiredScalar ReadString stun_node "host" path;
    let server := server <| stun_server_host := host |> in
    inl (match ReadOptionalScalar (ReadUnsigned 16) stun_node "port" path with
         | Some port => server <| stun_server_port := port |>
         | None => server
         end).

(** <src/server_manager.cpp:291-301 ParseServersSection> *)
Definition parse_proxy (item_path : string) (p_index : nat) (pNode : Node) :
    parsed ProxyConfig :=
  let p_path := item_path +:+ ".proxies[" +:+ pretty p_index +:+ "]" in
  _ ← ValidateAllowedKeys pNode p_path ["protocol"; "address"];
  protocol ← ReadOptionalProtocol pNode "protocol" p_path TCP;
  address ← ReadRequiredScalar ReadString pNode "address" p_path;
  inl (mkProxyConfig protocol address).

(** A field that keeps its value when the key is missing. *)
Definition set_if {R T} (o : option T) (set : T → R → R) (r : R) : R :=
  match o with Some x => set x r | None => r end.

(** <src/server_manager.cpp:265-305 ParseServersSection> *)
Definition parse_server (type : ServerType) (type_path : string) (index : nat) (item : Node) :
    parsed ServerConfig :=
  let item_path := type_path +:+ "[" +:+ pretty index +:+ "]" in
  _ ← ValidateAllowedKeys item item_path
        ["port"; "external_address"; "address"; "allow_unsolicited"; "subprocess";
         "stun_server"; "proxies"];
  port ← ReadRequiredScalar (ReadUnsigned 16) item "port" item_path;
  let server := default_server <| config_type := type |> <| config_port := port |> in
  let server := set_if (ReadOptionalScalar ReadBool item "allow_unsolicited" item_path)
                  (λ b s, s <| config_allow_unsolicited := b |>) server in
  let server := set_if (ReadOptionalScalar ReadBool item "subprocess" item_path)
                  (λ b s, s <| config_subprocess := b |>) server in
  let stun_node := child item "stun_server" in
  server ← (if IsNone stun_node then inl server
            else ParseStunServer server stun_node (item_path +:+ ".stun_server"));
  external ← ReadOptionalExternalAddress item item_path;
  let server := set_if external (λ a s, s <| external_address := a |>) server in
  if IsNone (child item "proxies") then inl server
  else
    _ ← ExpectSequence (child item "proxies") (item_path +:+ ".proxies");
    ps ← traverse (parse_proxy item_path) 0 (entries_of (child item "proxies")).*2;
    inl (server <| proxies := ps |>).

(** <src/server_manager.cpp:250-306 ParseServersSection>
    The servers of one type. *)
Definition parse_server_list (entry : string * Node) : parsed (list ServerConfig) :=
  let '(type_name, list) := entry in
  let type_path := "Servers." +:+ type_name in
  type ← rethrow type_path (StringToServerType type_name);
  _ ← ExpectSequence list type_path;
  traverse (parse_server type type_path) 0 (entries_of list).*2.

(** <src/server_manager.cpp:247-307 ParseServersSection> *)
Definition ParseServersSection (config : ServerManagerConfig) (section : Node) :
    parsed ServerManagerConfig :=
  _ ← ExpectMap section "Servers";
  lists ← traverse (λ _, parse_server_list) 0 (entries_of section);
  inl (config <| servers ::= λ l, l ++ mjoin lists |>).

(** <src/server_manager.cpp:310-332 ParseHttpSection> *)
Definition ParseHttpSection (config : ServerManagerConfig) (section : Node) :
    parsed ServerManagerConfig :=
  _ ← ValidateAllowedKeys section "HTTP" ["enabled"; "active"; "address"; "port"];
  let has_enabled := negb (IsNone (child section "enabled")) in
  let has_active := negb (IsNone (child section "active")) in
  if has_enabled && has_active
  then ThrowConfigError "HTTP" "use only one of 'enabled' or 'active'"
  else
    enabled ← (if has_enabled then ReadRequiredScalar ReadBool section "enabled" "HTTP"
               else if has_active then ReadRequiredScalar ReadBool section "active" "HTTP"
               else inl (http_enabled default_http));
    let cfg := default_http <| http_enabled := enabled |> in
    let cfg := set_if (ReadOptionalScalar ReadString section "address" "HTTP")
                 (λ a c, c <| http_address := a |>) cfg in
    let cfg := set_if (ReadOptionalScalar (ReadUnsigned 16) section "port" "HTTP")
                 (λ p c, c <| http_port := p |>) cfg in
    inl (config <| http := Some cfg |>).

(** <src/server_manager.cpp:380-414 ServerManager::parse_config>
    One top-level key. *)
Definition parse_section (config : ServerManagerConfig) (key : string) (section : Node) :
    parsed ServerManagerConfig :=
  if bool_decide (key = "Servers") then ParseServersSection config section
  else if bool_decide (key = "External") then inl config
  else if bool_decide (key = "EnableIPv6") then
    inl (config <| enable_ipv6 := ReadBool section "EnableIPv6" |>)
  else if bool_decide (key = "NoBanner") then
    inl (config <| no_banner := ReadBool section "NoBanner" |>)
  else if bool_decide (key = "MaxConnections") || bool_decide (key = "CCU") then
    inl (config <| cfg_max_connections := ReadUnsigned 32 section key |>)
  else if bool_decide (key = "MaxGamePeers") then
    inl (config <| cfg_max_game_peers := ReadUnsigned 32 section "MaxGamePeers" |>)
  else if bool_decide (key = "TickTimeBudget") then
    inl (config <| tick_time_budget := ReadUnsigned 32 section "TickTimeBudget" |>)
  else if bool_decide (key = "SettingsDatabase") then
    inl (config <| settings_database_path := ReadString section "SettingsDatabase" |>)
  else if bool_decide (key = "HTTP") then ParseHttpSection config section
  else ThrowConfigError key ("unknown top-level key: " +:+ key).

(** <src/server_manager.cpp:379-415 ServerManager::parse_config> *)
Fixpoint parse_sections (config : ServerManagerConfig) (l : list (string * Node)) :
    parsed ServerManagerConfig :=
  match l with
  | [] => inl config
  | (key, section) :: l =>
      config ← parse_section config key section;
      parse_sections config l
  end.

(** <src/server_manager.cpp:371-418 ServerManager::parse_config>
    From the tree on; [root[key]] inserts the key it looks for. *)
Definition parse_config (root : Node) : parsed ServerManagerConfig :=
  if negb (IsMap root) then inr "Root of config must be a map"
  else
    let '(max_connections, root) := index_key root "MaxConnections" in
    if IsNone max_connections then parse_sections default_config (entries_of root)
    else
      let '(ccu, root) := index_key root "CCU" in
      if negb (IsNone ccu)
      then ThrowConfigError "root" "use only one of 'MaxConnections' or 'CCU'"
      else parse_sections default_config (entries_of root).
End parser.

(** ** What a configuration read from a file looks like *)

Section properties.
Context `{Transports}.
Context (memory : Z → string → Z).

(** Ports are 16 bits wide, limits 32; the file does not say what a process
    only routes to. *)
Definition server_ok (c : ServerConfig) : Prop :=
  0 ≤ config_port c < 2 ^ 16 ∧ 0 ≤ stun_server_port c < 2 ^ 16 ∧
  config_type c ≠ NoServer ∧ is_routing_only c = false.

Definition http_ok (c : HttpServerConfig) : Prop := 0 ≤ http_port c < 2 ^ 16.

Definition config_ok (c : ServerManagerConfig) : Prop :=
  Forall server_ok (servers c) ∧
  0 ≤ cfg_max_connections c < 2 ^ 32 ∧ 0 ≤ cfg_max_game_peers c < 2 ^ 32 ∧
  0 ≤ tick_time_budget c < 2 ^ 32 ∧
  match http c with Some h => http_ok h | None => True end.

(** A variable of [w] bits holds a number of [w] bits. *)
Hypothesis memory_range : ∀ w p, 0 ≤ w → 0 ≤ memory w p < 2 ^ w.

Lemma read_unsigned_ok w n p : 0 ≤ w → 0 ≤ ReadUnsigned memory w n p < 2 ^ w.
Proof. intros Hw. unfold ReadUnsigned. apply read_unsigned_range; auto. Qed.

Lemma optional_unsigned_ok w map key p z :
  0 ≤ w → ReadOptionalScalar (ReadUnsigned memory w) map key p = Some z → 0 ≤ z < 2 ^ w.
Proof.
  unfold ReadOptionalScalar. intros Hw. case_match; [done|]. intros [= <-].
  by apply read_unsigned_ok.
Qed.

Lemma required_unsigned_ok w map key p z :
  0 ≤ w → ReadRequiredScalar (ReadUnsigned memory w) map key p = inl z → 0 ≤ z < 2 ^ w.
Proof.
  unfold ReadRequiredScalar. intros Hw. case_match eqn:E; [|done]. intros [= <-].
  by eapply optional_unsigned_ok.
Qed.

Lemma set_if_ok {R T} (P : R → Prop) (o : option T) set r :
  P r → (∀ x r, o = Some x → P r → P (set x r)) → P (set_if o set r).
Proof. intros Hr Hs. destruct o; [exact (Hs _ _ eq_refl Hr)|done]. Qed.

Lemma server_type_named s t : StringToServerType s = inl t → t ≠ NoServer.
Proof. unfold StringToServerType. by repeat case_bool_decide; intros [= <-]. Qed.

#[local] Ltac fields_ok :=
  unfold config_ok, server_ok, http_ok in *; cbn in *; split_and!; first [done | lia].

Lemma stun_ok server node p server' :
  server_ok server → ParseStunServer memory server node p = inl server' → server_ok server'.
Proof.
  intros (Hp & Hs & Ht & Hr). unfold ParseStunServer. case_match; [|case_match; [done|]].
  - intros [= <-]. fields_ok.
  - intros (_ & _ & (host & _ & Hx)%fallible_bind_inl)%fallible_bind_inl.
    injection Hx as <-. case_match eqn:E; [|done].
    apply optional_unsigned_ok in E; [|lia]. fields_ok.
Qed.

Lemma parsed_server_ok t type_path i item server :
  t ≠ NoServer → parse_server memory t type_path i item = inl server → server_ok server.
Proof.
  intros Ht. unfold parse_server.
  intros (_ & _ & (port & Hport & Hrest)%fallible_bind_inl)%fallible_bind_inl.
  apply required_unsigned_ok in Hport; [|lia]. cbv zeta in Hrest.
  apply fallible_bind_inl in Hrest as (s1 & Hs1 & Hrest).
  assert (server_ok s1) as Hok.
  { revert Hs1.
    assert (server_ok (set_if (ReadOptionalScalar ReadBool item "subprocess"
        (type_path +:+ "[" +:+ pretty i +:+ "]"))
        (λ b s, s <| config_subprocess := b |>)
        (set_if (ReadOptionalScalar ReadBool item "allow_unsolicited"
          (type_path +:+ "[" +:+ pretty i +:+ "]"))
          (λ b s, s <| config_allow_unsolicited := b |>)
          (default_server <| config_type := t |> <| config_port := port |>)))) as H0.
    { repeat apply set_if_ok; done. }
    destruct (IsNone (child item "stun_server")); [by intros [= <-]|]. by apply stun_ok. }
  apply fallible_bind_inl in Hrest as (ext & _ & Hrest).
  assert (server_ok (set_if ext (λ a s, s <| external_address := a |>) s1)) as Hok2
    by by apply set_if_ok.
  revert Hrest. destruct (IsNone (child item "proxies")); [by intros [= <-]|].
  intros (_ & _ & (ps & _ & Hx)%fallible_bind_inl)%fallible_bind_inl.
  injection Hx as <-. exact Hok2.
Qed.

Lemma parsed_list_ok e l : parse_server_list memory e = inl l → Forall server_ok l.
Proof.
  destruct e as [type_name node]. unfold parse_server_list.
  intros (t & Ht & (_ & _ & Hl)%fallible_bind_inl)%fallible_bind_inl.
  assert (t ≠ NoServer).
  { unfold rethrow in Ht. case_match eqn:E; [|done]. injection Ht as <-.
    by eapply server_type_named. }
  eapply traverse_Forall; [|done]. intros i x y _. by apply parsed_server_ok.
Qed.

Lemma parsed_section_ok config key node config' :
  config_ok config → parse_section memory config key node = inl config' → config_ok config'.
Proof.
  intros Hok. destruct Hok as (Hs & Hc & Hg & Ht & Hh). unfold parse_section.
  repeat case_bool_decide; cbn [orb];
    try (intros [= <-]; split_and!; cbn; try done; try lia; by apply read_unsigned_ok).
  - intros (_ & _ & (lists & Hl & Hx)%fallible_bind_inl)%fallible_bind_inl.
    injection Hx as <-. split_and!; cbn; try lia; try done. apply Forall_app_2; [done|].
    apply Forall_join. eapply traverse_Forall; [|done]. intros i x y _. by apply parsed_list_ok.
  - intros (_ & _ & Hrest)%fallible_bind_inl. cbv zeta in Hrest. revert Hrest.
    destruct (_ && _); [done|]. intros (b & _ & Hx)%fallible_bind_inl. injection Hx as <-.
    split_and!; cbn; try lia; try done. apply set_if_ok.
    + apply set_if_ok; [done|]. by intros.
    + intros x r E _. by apply optional_unsigned_ok in E; [|lia].
Qed.

Lemma parsed_sections_ok l config config' :
  config_ok config → parse_sections memory config l = inl config' → config_ok config'.
Proof.
  revert config. induction l as [|[key node] l IH]; intros config Hok; cbn [parse_sections].
  - by intros [= <-].
  - intros (c & Hc & Hl)%fallible_bind_inl. eapply IH; [|done]. by eapply parsed_section_ok.
Qed.

(** Every configuration the parser accepts is well formed: each server is of a
    known kind, ports have 16 bits and limits 32, whatever the file says and
    whatever uninitialized variables held. *)
Lemma accepted_config_ok root config :
  parse_config memory root = inl config → config_ok config.
Proof.
  assert (config_ok default_config) as H0 by (split_and!; cbn; [constructor|lia..|done]).
  unfold parse_config. case_match; [done|].
  destruct (index_key root "MaxConnections") as [n1 root1]. case_match.
  - by apply parsed_sections_ok.
  - destruct (index_key root1 "CCU") as [n2 root2]. case_match; [done|].
    by apply parsed_sections_ok.
Qed.
End properties.

(** ** The connection limit *)

Section max_connections.
Context `{Transports}.
Context (memory : Z → string → Z).
Implicit Types (m : list (string * Node)).

(** The keys that set the limit. *)
Definition sets_limit (key : string) : Prop := key = "MaxConnections" ∨ key = "CCU".

Lemma section_keeps_limit config key node config' :
  ¬ sets_limit key → parse_section memory config key node = inl config' →
  cfg_max_connections config' = cfg_max_connections config.
Proof.
  unfold sets_limit, parse_section. intros [H1 H2]%Decidable.not_or.
  rewrite !(bool_decide_eq_false_2 _ H1), !(bool_decide_eq_false_2 _ H2). cbn [orb].
  repeat case_bool_decide; try (by intros [= <-]).
  - by intros (_ & _ & (lists & _ & [= <-])%fallible_bind_inl)%fallible_bind_inl.
  - intros (_ & _ & Hrest)%fallible_bind_inl. cbv zeta in Hrest. revert Hrest.
    destruct (_ && _); [done|]. by intros (b & _ & [= <-])%fallible_bind_inl.
Qed.

Lemma sections_keep_limit l config config' :
  (∀ key, sets_limit key → key ∉ l.*1) →
  parse_sections memory config l = inl config' →
  cfg_max_connections config' = cfg_max_connections config.
Proof.
  revert config. induction l as [|[key node] l IH]; intros config Hl; cbn [parse_sections].
  - by intros [= <-].
  - intros (c & Hc & Hrest)%fallible_bind_inl. rewrite (IH c).
    + eapply section_keeps_limit; [|done]. intros Hk. apply (Hl key Hk). left.
    + intros k Hk Hin. apply (Hl k Hk). by right.
    + done.
Qed.

Lemma section_sets_limit config key node config' :
  sets_limit key → parse_section memory config key node = inl config' →
  cfg_max_connections config' = ReadUnsigned memory 32 node key.
Proof. intros [->| ->]; by intros [= <-]. Qed.

(** The last of the keys that set the limit decides. *)
Lemma sections_last_limit l1 key node l2 config config' :
  sets_limit key → (∀ k, sets_limit k → k ∉ l2.*1) →
  parse_sections memory config (l1 ++ (key, node) :: l2) = inl config' →
  cfg_max_connections config' = ReadUnsigned memory 32 node key.
Proof.
  intros Hk Hl2. revert config.
  induction l1 as [|[k n] l1 IH]; intros config; cbn [app parse_sections].
  - intros (c & Hc & Hrest)%fallible_bind_inl.
    rewrite (sections_keep_limit _ _ _ Hl2 Hrest). by eapply section_sets_limit.
  - by intros (c & _ & Hrest%IH)%fallible_bind_inl.
Qed.

(** [std::map] orders its keys. *)
Definition key_lt (a b : string) : Prop := String.compare a b = Lt.
Definition ordered m : Prop := StronglySorted key_lt m.*1.

Lemma key_lt_spec a b : key_lt a b ↔ OrderedTypeEx.String_as_OT.lt a b.
Proof. apply OrderedTypeEx.String_as_OT.cmp_lt. Qed.

#[global] Instance key_lt_transitive : Transitive key_lt.
Proof.
  intros a b c. rewrite !key_lt_spec. apply OrderedTypeEx.String_as_OT.lt_trans.
Qed.

Lemma key_lt_irrefl a : ¬ key_lt a a.
Proof.
  rewrite key_lt_spec. intros Ha. by apply (OrderedTypeEx.String_as_OT.lt_not_eq a a).
Qed.

(** What comes after an entry of a map has a larger key. *)
Lemma ordered_split m key node :
  ordered m → map_find key m = Some node →
  ∃ m1 m2, m = m1 ++ (key, node) :: m2 ∧ ∀ k, k ∈ m2.*1 → key_lt key k.
Proof.
  unfold ordered. induction m as [|[k n] m IH]; cbn; [done|]. intros [Hs Hk]%StronglySorted_inv.
  case_bool_decide as E.
  - intros [= ->]. subst. exists [], m. split; [done|]. intros k Hin.
    rewrite Forall_forall in Hk. by apply Hk.
  - intros Hf. destruct (IH Hs Hf) as (m1 & m2 & -> & H2). by exists ((k, n) :: m1), m2.
Qed.

Lemma insert_ordered m key node :
  ordered m → map_find key m = None → ordered (map_insert key node m).
Proof.
  unfold ordered. induction m as [|[k n] m IH]; cbn; intros Hs Hf.
  { repeat constructor. }
  apply StronglySorted_inv in Hs as [Hs Hk]. revert Hf. case_bool_decide as E; [done|].
  intros Hf. rewrite Forall_forall in Hk. destruct (String.compare key k) eqn:Hc; cbn.
  2: { constructor; [by constructor; [|apply Forall_forall]|]. constructor; [done|].
       apply Forall_forall. intros k' Hin. by transitivity k; [|apply Hk]. }
  all: constructor; [by apply IH|]; apply Forall_forall; intros k' Hin;
    apply list_elem_of_fmap in Hin as ([k1 n1] & -> & [[= -> ->]|Hin]%elem_of_map_insert);
    [|apply Hk, (list_elem_of_fmap_2 fst _ _ Hin)].
  - by apply OrderedTypeEx.String_as_OT.cmp_eq in Hc.
  - unfold key_lt. cbn. rewrite OrderedTypeEx.String_as_OT.cmp_antisym.
    unfold OrderedTypeEx.String_as_OT.cmp. by rewrite Hc.
Qed.

Lemma insert_find m key node k :
  map_find key m = None →
  map_find k (map_insert key node m) = if bool_decide (k = key) then Some node else map_find k m.
Proof.
  induction m as [|[k0 n] m IH]; cbn.
  - intros _. repeat case_bool_decide; congruence.
  - destruct (decide (k0 = key)) as [E|E]; [by rewrite bool_decide_true|].
    rewrite (bool_decide_false _ E). intros Hf.
    destruct (String.compare key k0); cbn; rewrite ?IH by done;
      repeat case_bool_decide; congruence.
Qed.

(** Larger keys are not keys of the limit. *)
Lemma ordered_limit m node config config' :
  ordered m → map_find "MaxConnections" m = Some node →
  parse_sections memory config m = inl config' →
  cfg_max_connections config' = ReadUnsigned memory 32 node "MaxConnections".
Proof.
  intros Hm Hf. destruct (ordered_split m _ _ Hm Hf) as (m1 & m2 & -> & H2).
  apply sections_last_limit; [by left|]. intros k [->| ->] Hin%H2; [|done].
  by apply key_lt_irrefl in Hin.
Qed.

(** The connection limit of an accepted configuration is what stands under
    [MaxConnections].  When the file has no such key, looking for it inserts
    it with nothing to read, so the limit is what the uninitialized variable
    held: neither the default of zero nor what stands under [CCU]. *)
Theorem connection_limit_read m config :
  ordered m → parse_config memory (MapNode m) = inl config →
  cfg_max_connections config =
    match map_find "MaxConnections" m with
    | Some node => ReadUnsigned memory 32 node "MaxConnections"
    | None => memory 32 "MaxConnections"
    end.
Proof.
  intros Hm. unfold parse_config, index_key. cbn [IsMap negb].
  destruct (map_find "MaxConnections" m) as [node|] eqn:Hf.
  - case_match; [by apply ordered_limit|].
    destruct (map_find "CCU" m) as [ccu|] eqn:Hccu; cbn [IsNone negb entries_of].
    + case_match; [done|]. by apply ordered_limit.
    + apply ordered_limit; [by apply insert_ordered|]. by rewrite insert_find.
  - cbn [IsNone entries_of].
    change (memory 32 "MaxConnections")
      with (ReadUnsigned memory 32 NoneNode "MaxConnections").
    apply ordered_limit; [by apply insert_ordered|]. by rewrite insert_find.
Qed.
End max_connections.
