(* ===== verification/ConfigSpec.v ===== *)
(** * What a configuration file means

    The grammar of the configuration file and what each key sets, stated on
    the tree key by key, and the proof that the parser of [Configuration]
    accepts exactly the files of that grammar and gives exactly that meaning. *)

From stdpp Require Import pretty.
From S2P Require Import Prelude Yaml ServerManager Configuration.
Open Scope Z_scope.

Section meaning.
Context `{Transports}.
(** What the memory of an uninitialized variable held. *)
Context (memory : Z → string → Z).
Implicit Types (m : list (string * Node)).

(** ** The grammar *)

(** The entry of a key that says something. *)
Definition given m (key : string) : option Node :=
  n ← map_find key m; if IsNone n then None else Some n.

Definition only_keys m (allowed : list string) : Prop := ∀ key, key ∈ m.*1 → key ∈ allowed.

(** The number of [w] bits a scalar holds. *)
Definition number (w : Z) (path : string) (n : Node) : Z :=
  read_unsigned w (memory w path) (AsString n).

(** Two keys for one thing, of which the file uses one at most. *)
Definition either (a b : option Node) (o : option Node) : Prop :=
  match a, b with Some _, Some _ => False | Some n, None | None, Some n => o = Some n | None, None => o = None end.

(** A list of the tree, element by element, with their places. *)
Definition describes_list {A} (P : nat → Node → A → Prop) (l : list Node) (xs : list A) : Prop :=
  length l = length xs ∧ ∀ i n x, l !! i = Some n → xs !! i = Some x → P i n x.

Definition named_type (name : string) (t : ServerType) : Prop :=
  name = "NameServer" ∧ t = NameServer ∨ name = "MasterServer" ∧ t = MasterServer ∨
  name = "GameServer" ∧ t = GameServer.

Definition named_protocol (name : string) (p : ServerProtocol) : Prop :=
  name = "UDP" ∧ p = UDP ∨ name = "TCP" ∧ p = TCP ∨ name = "WebSocket" ∧ p = WebSocket.

Definition describes_proxy (n : Node) (p : ProxyConfig) : Prop :=
  ∃ m, n = MapNode m ∧ only_keys m ["protocol"; "address"] ∧
    (∃ a, given m "address" = Some a ∧ proxy_address p = AsString a) ∧
    match given m "protocol" with
    | Some v => named_protocol (AsString v) (proxy_protocol p)
    | None => proxy_protocol p = TCP
    end.

(** A text is the host; a map has a host and may have a port. *)
Definition describes_stun (o : option Node) (path : string) (host : string) (port : Z) : Prop :=
  match o with
  | None => host = EmptyString ∧ port = 19302
  | Some (ScalarNode s) => host = s ∧ port = 19302
  | Some (MapNode m) =>
      only_keys m ["host"; "port"] ∧
      (∃ h, given m "host" = Some h ∧ host = AsString h) ∧
      port = from_option (number 16 (path +:+ ".port")) 19302 (given m "port")
  | Some _ => False
  end.

Record describes_server (t : ServerType) (path : string) m (c : ServerConfig) : Prop := {
  server_keys : only_keys m ["port"; "external_address"; "address"; "allow_unsolicited";
                             "subprocess"; "stun_server"; "proxies"];
  server_type : config_type c = t;
  server_port : ∃ n, given m "port" = Some n ∧ config_port c = number 16 (path +:+ ".port") n;
  server_unsolicited :
    config_allow_unsolicited c = from_option AsBool false (given m "allow_unsolicited");
  server_subprocess : config_subprocess c = from_option AsBool false (given m "subprocess");
  server_stun : describes_stun (given m "stun_server") (path +:+ ".stun_server")
                  (stun_server_host c) (stun_server_port c);
  server_external : ∃ o, either (given m "external_address") (given m "address") o ∧
    external_address c = from_option AsString EmptyString o;
  server_proxies : match given m "proxies" with
    | None => proxies c = []
    | Some n => ∃ l, n = SequenceNode l ∧ describes_list (λ _, describes_proxy) l (proxies c)
    end;
  server_not_routing : is_routing_only c = false;
}.

(** The servers of one type, under the name of that type. *)
Definition describes_servers_of (e : string * Node) (l : list ServerConfig) : Prop :=
  ∃ t items, named_type e.1 t ∧ e.2 = SequenceNode items ∧
    describes_list (λ i n c, ∃ m, n = MapNode m ∧
      describes_server t ("Servers." +:+ e.1 +:+ "[" +:+ pretty i +:+ "]") m c) items l.

Definition describes_servers (o : option Node) (l : list ServerConfig) : Prop :=
  match o with
  | None => l = []
  | Some n => ∃ m lists, n = MapNode m ∧ Forall2 describes_servers_of m lists ∧ l = mjoin lists
  end.

Definition describes_http (o : option Node) (h : option HttpServerConfig) : Prop :=
  match o with
  | None => h = None
  | Some n => ∃ m c on, n = MapNode m ∧ h = Some c ∧
      only_keys m ["enabled"; "active"; "address"; "port"] ∧
      either (given m "enabled") (given m "active") on ∧
      http_enabled c = from_option AsBool false on ∧
      http_address c = from_option AsString "0.0.0.0"%string (given m "address") ∧
      http_port c = from_option (number 16 "HTTP.port") 5088 (given m "port")
  end.

Record describes m (c : ServerManagerConfig) : Prop := {
  root_keys : only_keys m ["Servers"; "External"; "EnableIPv6"; "NoBanner"; "MaxConnections"; "CCU";
                           "MaxGamePeers"; "TickTimeBudget"; "SettingsDatabase"; "HTTP"];
  root_limit : given m "MaxConnections" = None ∨ given m "CCU" = None;
  root_servers : describes_servers (map_find "Servers" m) (servers c);
  root_ipv6 : enable_ipv6 c = from_option AsBool true (map_find "EnableIPv6" m);
  root_banner : no_banner c = from_option AsBool false (map_find "NoBanner" m);
  root_game_peers : cfg_max_game_peers c =
    from_option (number 32 "MaxGamePeers") 0 (map_find "MaxGamePeers" m);
  root_budget : tick_time_budget c =
    from_option (number 32 "TickTimeBudget") 2000 (map_find "TickTimeBudget" m);
  root_settings : settings_database_path c =
    from_option AsString EmptyString (map_find "SettingsDatabase" m);
  root_http : describes_http (map_find "HTTP" m) (http c);
  root_connections : cfg_max_connections c =
    number 32 "MaxConnections" (default NoneNode (map_find "MaxConnections" m));
}.

(** ** The readers *)

Lemma optional_spec {T} (read : Node → string → T) m key path :
  ReadOptionalScalar read (MapNode m) key path =
  (λ n, read n (path +:+ "." +:+ key)) <$> given m key.
Proof.
  unfold ReadOptionalScalar, given, child, index_key.
  destruct (map_find key m) as [n|]; [|done]. cbn. by destruct (IsNone n).
Qed.

Lemma required_spec {T} (read : Node → string → T) m key path x :
  ReadRequiredScalar read (MapNode m) key path = inl x ↔
  ∃ n, given m key = Some n ∧ x = read n (path +:+ "." +:+ key).
Proof.
  unfold ReadRequiredScalar. rewrite optional_spec.
  destruct (given m key) as [n|]; cbn; [|by split; [|intros (? & ? & _)]].
  split; [intros [= <-]; eauto|]. by intros (? & [= ->] & ->).
Qed.

Lemma child_given m key :
  child (MapNode m) key = default NoneNode (map_find key m) ∧
  given m key = if IsNone (child (MapNode m) key) then None else Some (child (MapNode m) key).
Proof. unfold child, index_key, given. by destruct (map_find key m). Qed.

Lemma allowed_spec n path allowed u :
  ValidateAllowedKeys n path allowed = inl u ↔ ∃ m, n = MapNode m ∧ only_keys m allowed.
Proof.
  unfold ValidateAllowedKeys, ExpectMap. destruct n as [| | |m]; cbn;
    try (split; [done|by intros (? & ? & _)]).
  assert (find_first (λ e : string * Node, negb (bool_decide (e.1 ∈ allowed))) m = None ↔
    only_keys m allowed) as Hk.
  { rewrite find_first_None. unfold only_keys. split.
    - intros Hf key ([k n] & -> & Hin)%list_elem_of_fmap. specialize (Hf _ Hin). cbn in *.
      by apply negb_false_iff, bool_decide_eq_true in Hf.
    - intros Ho [k n] Hin. apply negb_false_iff, bool_decide_eq_true, Ho.
      by apply (list_elem_of_fmap_2 fst) in Hin. }
  destruct (find_first _ m) as [[k n]|]; destruct u.
  - split; [done|]. intros (m' & [= <-] & Ho). by apply Hk in Ho.
  - split; [|done]. intros _. exists m. split; [done|]. by apply Hk.
Qed.

Lemma traverse_spec {A} (f : nat → Node → parsed A) P l xs :
  (∀ i n x, f i n = inl x ↔ P i n x) → traverse f 0 l = inl xs ↔ describes_list P l xs.
Proof.
  intros Hf. assert (∀ k, traverse f k l = inl xs ↔ length l = length xs ∧
    ∀ i n x, l !! i = Some n → xs !! i = Some x → P (k + i)%nat n x) as Hall.
  2: { exact (Hall 0%nat). }
  revert xs. induction l as [|n l IH]; intros xs k; cbn [traverse].
  - destruct xs; split; try done. by intros [? _].
  - rewrite fallible_bind_inl. split.
    + intros (y & Hy & (ys & Hys & [= <-])%fallible_bind_inl). apply IH in Hys as [Hlen Hys].
      split; [cbn; by rewrite Hlen|]. intros [|i] n' x; cbn.
      * intros [= <-] [= <-]. apply Hf. by rewrite Nat.add_0_r.
      * rewrite Nat.add_succ_r. apply Hys.
    + destruct xs as [|x xs]; [by intros [? _]|]. intros [[= Hlen] Hx].
      exists x. split; [apply Hf; rewrite <-(Nat.add_0_r k); by apply (Hx 0%nat)|].
      rewrite fallible_bind_inl. exists xs. split; [|done]. apply IH. split; [done|].
      intros i n' x' Hn' Hx'. rewrite Nat.add_succ_l, <-Nat.add_succ_r. by apply (Hx (S i)).
Qed.

Lemma type_spec name path t :
  rethrow path (StringToServerType name) = inl t ↔ named_type name t.
Proof.
  unfold rethrow, StringToServerType, named_type. repeat case_bool_decide; subst;
    (split; [intros [= <-]; tauto|]); intros [[E ->]|[[E ->]|[E ->]]]; done.
Qed.

Lemma protocol_spec name path p :
  rethrow path (StringToEndpointProtocol name) = inl p ↔ named_protocol name p.
Proof.
  unfold rethrow, StringToEndpointProtocol, named_protocol. repeat case_bool_decide; subst;
    (split; [intros [= <-]; tauto|]); intros [[E ->]|[[E ->]|[E ->]]]; done.
Qed.

Lemma proxy_spec path i n p : parse_proxy path i n = inl p ↔ describes_proxy n p.
Proof.
  unfold parse_proxy, describes_proxy, ReadOptionalProtocol. rewrite fallible_bind_inl. split.
  - intros ([] & (m & -> & Hk)%allowed_spec & (pr & Hpr & (a & Ha & [= <-])%fallible_bind_inl)%fallible_bind_inl).
    exists m. split; [done|]. split; [done|]. apply required_spec in Ha as (na & Hna & ->).
    split; [by eauto|]. rewrite optional_spec in Hpr. destruct (given m "protocol"); cbn in Hpr.
    + by apply protocol_spec in Hpr.
    + by injection Hpr as <-.
  - intros (m & -> & Hk & (na & Hna & Ea) & Hp). exists tt. split; [apply allowed_spec; eauto|].
    rewrite fallible_bind_inl. exists (proxy_protocol p). split.
    + rewrite optional_spec. destruct (given m "protocol"); cbn.
      * by apply protocol_spec.
      * by rewrite Hp.
    + rewrite fallible_bind_inl. exists (proxy_address p). split; [|by destruct p].
      apply required_spec. eauto.
Qed.

(** A server with the STUN server a file may give it. *)
Definition with_stun (c : ServerConfig) (host : string) (port : Z) : ServerConfig :=
  c <| stun_server_host := host |> <| stun_server_port := port |>.

Lemma stun_spec c n path c' :
  stun_server_host c = EmptyString → stun_server_port c = 19302 →
  ((if IsNone n then inl c else ParseStunServer memory c n path) : parsed ServerConfig) = inl c' ↔
  ∃ host port, describes_stun (if IsNone n then None else Some n) path host port ∧
    c' = with_stun c host port.
Proof.
  intros Hh Hp. destruct n as [|s|l|m]; cbn [IsNone].
  - cbn. split; [intros [= <-]|intros (? & ? & [-> ->] & ->)].
    + exists EmptyString, 19302. split; [done|]. destruct c; cbn in *; by subst.
    + destruct c; cbn in *; by subst.
  - cbn. split; [intros [= <-]; eauto|]. by intros (? & ? & [-> ->] & ->).
  - cbn. split; [done|]. by intros (? & ? & [] & _).
  - unfold ParseStunServer. cbn [IsScalar IsMap negb describes_stun]. rewrite fallible_bind_inl. split.
    + intros ([] & (m' & [= <-] & Hk)%allowed_spec & (host & Hr & Hc)%fallible_bind_inl).
      apply required_spec in Hr as (h & Hh' & ->). rewrite optional_spec in Hc.
      injection Hc as <-.
      exists (AsString h), (from_option (number 16 (path +:+ ".port")) 19302 (given m "port")).
      split; [split_and!; eauto|]. destruct (given m "port"); [done|]. cbn.
      unfold with_stun. by destruct c; cbn in *; subst.
    + intros (host & port & (Hk & (h & Hh' & ->) & ->) & ->). exists tt.
      split; [apply allowed_spec; eauto|]. rewrite fallible_bind_inl. exists (AsString h).
      split; [apply required_spec; eauto|]. rewrite optional_spec.
      destruct (given m "port"); [done|]. unfold with_stun. by destruct c; cbn in *; subst.
Qed.

Lemma external_spec m path o :
  ReadOptionalExternalAddress (MapNode m) path = inl o ↔
  ∃ n, either (given m "external_address") (given m "address") n ∧ o = AsString <$> n.
Proof.
  unfold ReadOptionalExternalAddress. rewrite !optional_spec. unfold either.
  destruct (given m "external_address"), (given m "address"); cbn;
    (split; [try done; intros [= <-]; eexists; by split|]);
    intros (? & ? & ->); by subst.
Qed.

(** The proxies of a server. *)
Lemma proxies_spec c m path c' :
  proxies c = [] →
  ((if IsNone (child (MapNode m) "proxies") then inl c
   else _ ← ExpectSequence (child (MapNode m) "proxies") (path +:+ ".proxies");
        ps ← traverse (parse_proxy path) 0 (entries_of (child (MapNode m) "proxies")).*2;
        inl (c <| proxies := ps |>)) : parsed ServerConfig) = inl c' ↔
  ∃ ps, c' = c <| proxies := ps |> ∧
    match given m "proxies" with
    | None => ps = []
    | Some n => ∃ l, n = SequenceNode l ∧ describes_list (λ _, describes_proxy) l ps
    end.
Proof.
  intros Hc. destruct (child_given m "proxies") as [_ ->].
  destruct (child (MapNode m) "proxies") as [|s|l|m']; cbn [IsNone].
  - split; [intros [= <-]; exists []; by destruct c; cbn in *; subst|].
    intros (ps & -> & ->). by destruct c; cbn in *; subst.
  - split; [done|]. by intros (ps & _ & l & ? & _).
  - unfold ExpectSequence. cbn [IsSequence entries_of]. rewrite fallible_bind_inl. split.
    + intros (_ & _ & (ps & Hps & [= <-])%fallible_bind_inl). exists ps. split; [done|].
      exists l. split; [done|]. eapply traverse_spec in Hps; [|apply proxy_spec].
      rewrite <-list_fmap_compose in Hps. unfold compose in Hps. cbn in Hps.
      by rewrite list_fmap_id in Hps.
    + intros (ps & -> & l' & [= <-] & Hps). exists tt. split; [done|].
      rewrite fallible_bind_inl. exists ps. split; [|done].
      eapply traverse_spec; [apply proxy_spec|].
      rewrite <-list_fmap_compose. unfold compose. cbn. by rewrite list_fmap_id.
  - split; [done|]. by intros (ps & _ & l & ? & _).
Qed.

Lemma server_spec t type_path i n c :
  parse_server memory t type_path i n = inl c ↔
  ∃ m, n = MapNode m ∧ describes_server t (type_path +:+ "[" +:+ pretty i +:+ "]") m c.
Proof.
  unfold parse_server. set (path := type_path +:+ "[" +:+ pretty i +:+ "]").
  rewrite fallible_bind_inl. split.
  - intros ([] & (m & -> & Hk)%allowed_spec & (port & Hport & Hrest)%fallible_bind_inl).
    exists m. split; [done|]. apply required_spec in Hport as (np & Hnp & ->). cbv zeta in Hrest.
    rewrite !optional_spec in Hrest.
    apply fallible_bind_inl in Hrest as (s1 & Hs1 & (ext & Hext & Hrest)%fallible_bind_inl).
    apply stun_spec in Hs1 as (host & sport & Hstun & ->);
      [|by destruct (given m "allow_unsolicited"), (given m "subprocess")..].
    apply external_spec in Hext as (ne & Hne & ->).
    apply proxies_spec in Hrest as (ps & -> & Hps);
      [|by destruct ne, (given m "allow_unsolicited"), (given m "subprocess")].
    destruct (child_given m "stun_server") as [_ Hst]. rewrite <-Hst in Hstun.
    split; [done|..];
      destruct ne, (given m "allow_unsolicited") eqn:?, (given m "subprocess") eqn:?; cbn;
      eauto.
  - intros (m & -> & Hd). exists tt. split; [apply allowed_spec; exists m; split; [done|apply Hd]|].
    destruct Hd as [_ Ht (np & Hnp & Hp) Hu Hs Hstun (ne & Hne & He) Hps Hr].
    rewrite fallible_bind_inl. eexists. split; [apply required_spec; eauto|]. cbv zeta.
    rewrite !optional_spec, fallible_bind_inl.
    destruct (child_given m "stun_server") as [_ Hst]. rewrite Hst in Hstun.
    eexists. split; [apply stun_spec;
      [by destruct (given m "allow_unsolicited"), (given m "subprocess")..|by do 2 eexists]|].
    rewrite fallible_bind_inl. eexists. split; [apply external_spec; eauto|].
    apply proxies_spec; [by destruct ne, (given m "allow_unsolicited"), (given m "subprocess")|].
    exists (proxies c). split; [|done].
    unfold number in Hp. destruct c; cbn in *.
    destruct ne, (given m "allow_unsolicited"), (given m "subprocess"); cbn in *; by subst.
Qed.

Lemma server_list_spec e l : parse_server_list memory e = inl l ↔ describes_servers_of e l.
Proof.
  destruct e as [name n]. unfold parse_server_list, describes_servers_of. cbn [fst snd].
  rewrite fallible_bind_inl. split.
  - intros (t & Ht%type_spec & ([] & Hs & Hl)%fallible_bind_inl).
    unfold ExpectSequence in Hs. destruct n as [| |items|]; try done.
    exists t, items. split; [done|]. split; [done|]. cbn [entries_of] in Hl.
    rewrite <-list_fmap_compose in Hl. unfold compose in Hl. cbn in Hl. rewrite list_fmap_id in Hl.
    revert Hl. apply traverse_spec. intros. rewrite server_spec. done.
  - intros (t & items & Ht%(type_spec _ ("Servers." +:+ name)) & -> & Hl). exists t. split; [done|].
    rewrite fallible_bind_inl. exists tt. split; [done|]. cbn [entries_of].
    rewrite <-list_fmap_compose. unfold compose. cbn. rewrite list_fmap_id.
    revert Hl. apply traverse_spec. intros. rewrite server_spec. done.
Qed.

(** ** The sections *)

Lemma traverse_Forall2 (f : string * Node → parsed (list ServerConfig)) P i l xs :
  (∀ e x, f e = inl x ↔ P e x) → traverse (λ _, f) i l = inl xs ↔ Forall2 P l xs.
Proof.
  intros Hf. revert i xs. induction l as [|e l IH]; intros i xs; cbn [traverse].
  - split; [intros [= <-]; constructor|]. by intros ->%Forall2_nil_inv_l.
  - rewrite fallible_bind_inl. split.
    + intros (x & Hx & (ys & Hys & [= <-])%fallible_bind_inl).
      constructor; [by apply Hf|by eapply IH].
    + intros (x & ys & Hx & Hys & ->)%Forall2_cons_inv_l. exists x. split; [by apply Hf|].
      rewrite fallible_bind_inl. exists ys. split; [by apply IH|done].
Qed.

Lemma servers_section_spec c n c' :
  ParseServersSection memory c n = inl c' ↔
  ∃ l, describes_servers (Some n) l ∧ c' = c <| servers := servers c ++ l |>.
Proof.
  unfold ParseServersSection, ExpectMap, describes_servers. rewrite fallible_bind_inl. split.
  - destruct n as [| | |m]; intros ([] & Hm & (lists & Hl & [= <-])%fallible_bind_inl); try done.
    exists (mjoin lists). split; [|done]. exists m, lists. split; [done|]. split; [|done].
    revert Hl. apply traverse_Forall2. apply server_list_spec.
  - intros (l & (m & lists & -> & Hl & ->) & ->). exists tt. split; [done|].
    rewrite fallible_bind_inl. exists lists. split; [|done]. revert Hl.
    apply traverse_Forall2. apply server_list_spec.
Qed.

Lemma http_section_spec c n c' :
  ParseHttpSection memory c n = inl c' ↔
  ∃ h, describes_http (Some n) h ∧ c' = c <| http := h |>.
Proof.
  unfold ParseHttpSection, describes_http. rewrite fallible_bind_inl. split.
  - intros ([] & (m & -> & Hk)%allowed_spec & Hrest). cbv zeta in Hrest.
    rewrite !optional_spec in Hrest.
    destruct (child_given m "enabled") as [_ He], (child_given m "active") as [_ Ha].
    destruct (IsNone (child (MapNode m) "enabled")), (IsNone (child (MapNode m) "active"));
      cbn [negb andb] in Hrest; [| | |done];
      apply fallible_bind_inl in Hrest as (b & Hb & [= <-]);
      try apply required_spec in Hb as (nb & Hnb & ->); try injection Hb as <-;
      eexists; (split; [|reflexivity]);
      exists m; eexists; eexists; (split; [done|]); (split; [reflexivity|]);
      (split; [done|]); rewrite ?He, ?Ha in *;
      (split; [reflexivity|]); try injection Hnb as <-;
      destruct (given m "address"), (given m "port"); by repeat split.
  - intros (h & (m & hc & on & -> & -> & Hk & Ho & He & Had & Hp) & ->).
    exists tt. split; [apply allowed_spec; eauto|]. cbv zeta. rewrite !optional_spec.
    assert (∀ key, negb (IsNone (child (MapNode m) key)) = bool_decide (is_Some (given m key))) as Hn.
    { intros key. rewrite (proj2 (child_given m key)).
      by destruct (child (MapNode m) key). }
    rewrite !Hn. unfold either in Ho.
    destruct (given m "enabled") as [ne|] eqn:Ee, (given m "active") as [na|] eqn:Ea; [done|..];
      subst on; cbn [bool_decide decide andb]; rewrite ?bool_decide_eq_true_2 by eauto;
      rewrite ?bool_decide_eq_false_2 by (by intros [? ?]); cbn [andb];
      rewrite fallible_bind_inl; eexists;
      (split; [first [apply required_spec; eauto|reflexivity]|]);
      unfold number, ReadUnsigned, AsUnsigned in *;
      destruct hc, (given m "address"), (given m "port"); cbn in *; by subst.
Qed.

(** What a tree says about servers and HTTP it says once. *)
Lemma describes_servers_once o l l' : describes_servers o l → describes_servers o l' → l = l'.
Proof.
  destruct o as [n|]; [|by intros -> ->]. intros Hl Hl'.
  pose proof (proj2 (servers_section_spec default_config n _) (ex_intro _ l (conj Hl eq_refl))) as E.
  rewrite (proj2 (servers_section_spec default_config n _) (ex_intro _ l' (conj Hl' eq_refl))) in E.
  by injection E as ->.
Qed.

Lemma describes_http_once o h h' : describes_http o h → describes_http o h' → h = h'.
Proof.
  destruct o as [n|]; [|by intros -> ->]. intros Hh Hh'.
  pose proof (proj2 (http_section_spec default_config n _) (ex_intro _ h (conj Hh eq_refl))) as E.
  rewrite (proj2 (http_section_spec default_config n _) (ex_intro _ h' (conj Hh' eq_refl))) in E.
  by injection E as ->.
Qed.

(** ** The root *)

Definition root_key_list : list string :=
  ["Servers"; "External"; "EnableIPv6"; "NoBanner"; "MaxConnections"; "CCU";
   "MaxGamePeers"; "TickTimeBudget"; "SettingsDatabase"; "HTTP"].

(** The entries the parser takes. *)
Definition entry_ok (e : string * Node) : Prop :=
  e.1 ∈ root_key_list ∧
  (e.1 = "Servers"%string → ∃ l, describes_servers (Some e.2) l) ∧
  (e.1 = "HTTP"%string → ∃ h, describes_http (Some e.2) h).

Lemma section_taken c key n :
  entry_ok (key, n) ↔ ∃ c', parse_section memory c key n = inl c'.
Proof.
  unfold entry_ok, root_key_list. cbn [fst snd]. unfold parse_section. split.
  - intros (Hk & Hs & Hh).
    repeat (case_bool_decide; subst; cbn [orb]; [try by eexists|]).
    + destruct Hs as [l Hl]; [done|]. eexists. apply servers_section_spec. eauto.
    + destruct Hh as [h Hh']; [done|]. eexists. apply http_section_spec. eauto.
    + exfalso. set_solver.
  - intros [c' E]. revert E.
    repeat (case_bool_decide; subst; cbn [orb]; [try by (intros _; split; [set_solver|])|]); [..|done].
    + intros (l & Hl & _)%servers_section_spec. split; [set_solver|]. split; [eauto|done].
    + intros (h & Hh & _)%http_section_spec. split; [set_solver|]. split; [done|eauto].
Qed.

Lemma sections_taken l c :
  (∀ e, e ∈ l → entry_ok e) ↔ ∃ c', parse_sections memory c l = inl c'.
Proof.
  revert c. induction l as [|[key n] l IH]; intros c; cbn [parse_sections].
  - split; [by eexists|]. intros _ e Hin. by apply not_elem_of_nil in Hin.
  - split.
    + intros Hl. destruct (proj1 (section_taken c key n)) as [c1 E1]; [apply Hl; left|].
      destruct (proj1 (IH c1)) as [c' E']; [intros e He; apply Hl; by right|].
      exists c'. rewrite E1. exact E'.
    + intros [c' (c1 & E1 & E')%fallible_bind_inl] e [->|He]%elem_of_cons.
      * apply (section_taken c). eauto.
      * apply (proj2 (IH c1)); eauto.
Qed.

(** A field that the section of one key sets, and no other. *)
Lemma sections_field {T} (F : ServerManagerConfig → T) (K : string) (Q : Node → T → T → Prop) l c c' :
  (∀ c key n c', parse_section memory c key n = inl c' →
     (key = K → Q n (F c) (F c')) ∧ (key ≠ K → F c' = F c)) →
  NoDup l.*1 → parse_sections memory c l = inl c' →
  match map_find K l with Some n => Q n (F c) (F c') | None => F c' = F c end.
Proof.
  intros HF. revert c. induction l as [|[key n] l IH]; intros c; cbn [parse_sections map_find].
  - by intros _ [= <-].
  - cbn [fmap list_fmap fst]. intros [Hn Hl]%NoDup_cons (c1 & E1 & E')%fallible_bind_inl.
    destruct (HF _ _ _ _ E1) as [Hyes Hno]. specialize (IH c1 Hl E').
    case_bool_decide as Hk.
    + subst. rewrite (proj2 (map_find_none K l) Hn) in IH. rewrite IH. by apply Hyes.
    + specialize (Hno Hk). by destruct (map_find K l); rewrite <-Hno.
Qed.

(** What one section sets. *)
Lemma section_sets c key n c' :
  parse_section memory c key n = inl c' →
  (if bool_decide (key = "Servers"%string)
   then ∃ l, describes_servers (Some n) l ∧ servers c' = servers c ++ l
   else servers c' = servers c) ∧
  enable_ipv6 c' = (if bool_decide (key = "EnableIPv6"%string) then AsBool n else enable_ipv6 c) ∧
  no_banner c' = (if bool_decide (key = "NoBanner"%string) then AsBool n else no_banner c) ∧
  cfg_max_game_peers c' = (if bool_decide (key = "MaxGamePeers"%string)
    then number 32 "MaxGamePeers" n else cfg_max_game_peers c) ∧
  tick_time_budget c' = (if bool_decide (key = "TickTimeBudget"%string)
    then number 32 "TickTimeBudget" n else tick_time_budget c) ∧
  settings_database_path c' = (if bool_decide (key = "SettingsDatabase"%string)
    then AsString n else settings_database_path c) ∧
  (if bool_decide (key = "HTTP"%string) then describes_http (Some n) (http c') else http c' = http c).
Proof.
  unfold parse_section.
  destruct (bool_decide (key = "Servers"%string)) eqn:E; [apply bool_decide_eq_true in E as ->|].
  { intros (l & Hl & ->)%servers_section_spec. split; [by exists l|]. by repeat split. }
  destruct (bool_decide (key = "HTTP"%string)) eqn:Eh; [apply bool_decide_eq_true in Eh as ->|].
  { intros (h & Hh & ->)%http_section_spec. by repeat split. }
  repeat (case_bool_decide; subst; cbn [orb]; try done; try by intros [= <-]).
Qed.

Lemma ordered_NoDup m : ordered m → NoDup m.*1.
Proof.
  unfold ordered. induction m as [|[k n] m IH]; [constructor|].
  intros [Hs Hk]%StronglySorted_inv. constructor; [|by apply IH].
  rewrite Forall_forall in Hk. intros Hin. by apply (key_lt_irrefl k), Hk.
Qed.

(** The entries the parser goes through: looking for the limit leaves empty
    entries of its keys behind. *)
Lemma parse_config_sections m :
  ordered m → (given m "MaxConnections" = None ∨ given m "CCU" = None) →
  ∃ l, ordered l ∧ parse_config memory (MapNode m) = parse_sections memory default_config l ∧
    (∀ k, ¬ sets_limit k → map_find k l = map_find k m) ∧
    (∀ e, e ∈ l ↔ e ∈ m ∨ e ∈ l ∧ e.2 = NoneNode ∧ sets_limit e.1).
Proof.
  intros Hm Hg. unfold parse_config, index_key. cbn [IsMap negb].
  assert (∀ m key, ordered m → sets_limit key → map_find key m = None →
    let l := map_insert key NoneNode m in
    ordered l ∧ (∀ k, ¬ sets_limit k → map_find k l = map_find k m) ∧
    ∀ e, e ∈ l ↔ e ∈ m ∨ e ∈ l ∧ e.2 = NoneNode ∧ sets_limit e.1) as Hins.
  { intros m' key Hm' Hs Hf l. split; [by apply insert_ordered|]. split.
    - intros k Hk. unfold l. rewrite insert_find by done. rewrite bool_decide_eq_false_2; [done|].
      by intros ->.
    - intros e. split; [|intros [He|[He _]]; [by apply elem_of_map_insert; right|done]].
      intros He. pose proof He as [->|Hin]%elem_of_map_insert; [|by left]. by right. }
  destruct (map_find "MaxConnections" m) as [node|] eqn:Hf.
  - destruct (IsNone node) eqn:Hnode.
    { exists m. split; [done|]. split; [done|]. split; [done|]. intros e. tauto. }
    destruct Hg as [Hg|Hg]; [by unfold given in Hg; rewrite Hf in Hg; cbn in Hg; rewrite Hnode in Hg|].
    destruct (map_find "CCU" m) as [ccu|] eqn:Hccu.
    + unfold given in Hg. rewrite Hccu in Hg. cbn in Hg. destruct (IsNone ccu); [|done]. cbn [negb].
      exists m. split; [done|]. split; [done|]. split; [done|]. intros e. tauto.
    + cbn [IsNone negb entries_of]. destruct (Hins m "CCU"%string) as (? & ? & ?); [done|by right|done|].
      eexists. split; [|split; [reflexivity|]]; [done|]. by split.
  - cbn [IsNone entries_of]. destruct (Hins m "MaxConnections"%string) as (? & ? & ?); [done|by left|done|].
    eexists. split; [|split; [reflexivity|]]; [done|]. by split.
Qed.

Lemma parsed_limit m c :
  parse_config memory (MapNode m) = inl c →
  given m "MaxConnections" = None ∨ given m "CCU" = None.
Proof.
  unfold parse_config, index_key, given. cbn [IsMap negb].
  destruct (map_find "MaxConnections" m) as [node|]; [|by left]. cbn.
  destruct (IsNone node); [by left|].
  destruct (map_find "CCU" m) as [ccu|]; cbn; [|by right]. by destruct (IsNone ccu); [right|].
Qed.

(** What the parser gives is what the file says. *)
Lemma parsed_describes m c :
  ordered m → parse_config memory (MapNode m) = inl c → describes m c.
Proof.
  intros Hm E. pose proof (parsed_limit _ _ E) as Hg.
  pose proof (connection_limit_read memory m c Hm E) as Hlim.
  destruct (parse_config_sections m Hm Hg) as (l & Hl & El & Hfind & Hin). rewrite El in E.
  pose proof (ordered_NoDup l Hl) as Hnd.
  assert (∀ e, e ∈ l → entry_ok e) as Hok by (apply (sections_taken l default_config); eauto).
  assert (∀ K, bool_decide (K ∈ ["MaxConnections"; "CCU"]%string) = false →
    map_find K m = map_find K l) as Hsame.
  { intros K HK%bool_decide_eq_false. symmetry. apply Hfind. intros [-> | ->]; set_solver. }
  split.
  - intros key ([k n] & -> & He)%list_elem_of_fmap. apply (Hok (k, n)), Hin. by left.
  - done.
  - rewrite Hsame by done.
    pose proof (sections_field servers "Servers"
      (λ n a b, ∃ ss, describes_servers (Some n) ss ∧ b = a ++ ss) l default_config c) as HF.
    specialize (HF ltac:(intros ???? (Hs & _)%section_sets; case_bool_decide; by split) Hnd E).
    destruct (map_find "Servers" l) as [n|]; [|done].
    destruct HF as (ss & Hss & ->). exact Hss.
  - rewrite Hsame by done.
    pose proof (sections_field enable_ipv6 "EnableIPv6" (λ n _ b, b = AsBool n) l default_config c) as HF.
    specialize (HF ltac:(intros ???? (_ & Hs & _)%section_sets; case_bool_decide; by split) Hnd E).
    by destruct (map_find "EnableIPv6" l).
  - rewrite Hsame by done.
    pose proof (sections_field no_banner "NoBanner" (λ n _ b, b = AsBool n) l default_config c) as HF.
    specialize (HF ltac:(intros ???? (_ & _ & Hs & _)%section_sets; case_bool_decide; by split) Hnd E).
    by destruct (map_find "NoBanner" l).
  - rewrite Hsame by done.
    pose proof (sections_field cfg_max_game_peers "MaxGamePeers"
      (λ n _ b, b = number 32 "MaxGamePeers" n) l default_config c) as HF.
    specialize (HF ltac:(intros ???? (_ & _ & _ & Hs & _)%section_sets; case_bool_decide; by split) Hnd E).
    by destruct (map_find "MaxGamePeers" l).
  - rewrite Hsame by done.
    pose proof (sections_field tick_time_budget "TickTimeBudget"
      (λ n _ b, b = number 32 "TickTimeBudget" n) l default_config c) as HF.
    specialize (HF ltac:(intros ???? (_ & _ & _ & _ & Hs & _)%section_sets; case_bool_decide; by split) Hnd E).
    by destruct (map_find "TickTimeBudget" l).
  - rewrite Hsame by done.
    pose proof (sections_field settings_database_path "SettingsDatabase" (λ n _ b, b = AsString n) l default_config c) as HF.
    specialize (HF ltac:(intros ???? (_ & _ & _ & _ & _ & Hs & _)%section_sets; case_bool_decide; by split) Hnd E).
    by destruct (map_find "SettingsDatabase" l).
  - rewrite Hsame by done.
    pose proof (sections_field http "HTTP" (λ n _ b, describes_http (Some n) b) l default_config c) as HF.
    specialize (HF ltac:(intros ???? (_ & _ & _ & _ & _ & _ & Hs)%section_sets; case_bool_decide; by split) Hnd E).
    by destruct (map_find "HTTP" l).
  - rewrite Hlim. by destruct (map_find "MaxConnections" m).
Qed.

Lemma described_taken m c :
  ordered m → describes m c → ∃ c', parse_config memory (MapNode m) = inl c'.
Proof.
  intros Hm Hd. destruct (parse_config_sections m Hm (root_limit _ _ Hd)) as (l & Hl & El & _ & Hin).
  rewrite El. apply sections_taken. intros [k n] He. unfold entry_ok. cbn [fst snd].
  apply Hin in He as [He|(_ & _ & Hs)].
  2: { destruct Hs as [Hs|Hs]; cbn in Hs; subst; (split; [unfold root_key_list; set_solver|done]). }
  split; [exact (root_keys _ _ Hd _ (list_elem_of_fmap_2 fst _ _ He))|].
  assert (map_find k m = Some n) as Hf.
  { clear -Hm He. apply ordered_NoDup in Hm. induction m as [|[k' n'] m IH]; cbn in *.
    - by apply not_elem_of_nil in He.
    - apply NoDup_cons in Hm as [Hk Hm]. apply elem_of_cons in He as [[= <- <-]|He].
      + by rewrite bool_decide_eq_true_2.
      + rewrite bool_decide_eq_false_2; [by apply IH|]. intros <-. exact (Hk (list_elem_of_fmap_2 fst _ _ He)). }
  split; intros ->; [exists (servers c)|exists (http c)]; rewrite <-Hf; apply Hd.
Qed.

(** C30: The parser accepts exactly the files that keep to the grammar, and
    gives the configuration such a file describes: each server is of the type
    it is listed under, has the port it must name, and what else its keys say
    or the default where they say nothing; nothing but known keys is allowed,
    and of two keys for one thing at most one; every key at the root sets its
    own field.  An accepted configuration is well formed, whatever the file
    says: servers are of a known kind, ports have 16 bits and limits 32. *)
Theorem parse_config_ok root c :
  (∀ m, root = MapNode m → ordered m) →
  (parse_config memory root = inl c ↔ ∃ m, root = MapNode m ∧ describes m c) ∧
  ((∀ w p, 0 ≤ w → 0 ≤ memory w p < 2 ^ w) → parse_config memory root = inl c → config_ok c).
Proof.
  intros Hm. split; [|intros Hr; by apply accepted_config_ok]. split.
  - intros E. destruct root as [| | |m]; try done. exists m. split; [done|].
    apply parsed_describes; auto.
  - intros (m & -> & Hd). specialize (Hm m eq_refl).
    destruct (described_taken m c Hm Hd) as [c' E]. rewrite E.
    pose proof (parsed_describes m c' Hm E) as Hd'. f_equal.
    pose proof (describes_servers_once _ _ _ (root_servers _ _ Hd) (root_servers _ _ Hd')).
    pose proof (describes_http_once _ _ _ (root_http _ _ Hd) (root_http _ _ Hd')).
    destruct Hd, Hd', c, c'; cbn in *. by subst.
Qed.
End meaning.
