(* ===== verification/Subprocess.v ===== *)
(** * The server manager's start and its subprocesses

    Models how [server_manager.cpp] takes over a configuration, which servers
    it binds, and how it hands a server to a process of its own: the
    configuration it synthesizes for the child, its way through the
    reflection codec, and what the child makes of it.  The build is the one
    with subprocesses, the settings database and the HTTP server. *)

From S2P Require Import Prelude Values Ipc ServerManager PfrCodec Yaml Configuration.
Open Scope Z_scope.

(** [ServerProtocol] as the codec sees it: its underlying type, and the casts
    to and from it. *)
Class ProtocolCode `{Transports} := {
  protocol_int : NativeInt;
  protocol_code : ServerProtocol → Z;
  protocol_of : Z → ServerProtocol;
}.
Class ProtocolCodeLaw `{ProtocolCode} : Prop := {
  protocol_cast p : protocol_of (protocol_code p) = p;
}.

(** ** The manager *)

Section manager.
Context `{Transports}.

(** <include/luxon/server/server_manager.hpp:159-240 ServerManager>
    The members set from the configuration; [settings_manager] is the path
    of the settings database it opened. *)
Record Manager := mkManager {
  configs_ : list ServerConfig;
  enable_ipv6_ : bool;
  max_connections_ : Z;
  max_game_peers_ : Z;
  tick_time_budget_ : Z;
  settings_manager : option string;
  settings_path_member : string;
  http_config_ : option HttpServerConfig;
  parent_ipc_ : IPC;
  is_subprocess_ : bool;
}.

(** <src/server_manager.cpp:487-507 ServerManager::ServerManager>
    [ipc] is moved into [parent_ipc_] before it is asked whether it is open. *)
Definition construct (config : ServerManagerConfig) (ipc : IPC) : Manager :=
  let '(parent_ipc, ipc) := move_ipc ipc in
  {| configs_ := servers config;
     enable_ipv6_ := enable_ipv6 config;
     max_connections_ := cfg_max_connections config;
     max_game_peers_ := NormalizeMaxGamePeers (cfg_max_game_peers config);
     tick_time_budget_ := effective_budget (tick_time_budget config);
     settings_manager :=
       if bool_decide (settings_database_path config = EmptyString) then None
       else Some (settings_database_path config);
     settings_path_member := EmptyString;
     http_config_ := http config;
     parent_ipc_ := parent_ipc;
     is_subprocess_ := is_open_ipc ipc |}.

(** What becomes of a configured server. *)
Inductive SetupStep :=
  | Listen (config : ServerConfig)
  | Fork (config : ServerConfig).

(** <src/server_manager.cpp:1024-1035 ServerManager::setup> *)
Fixpoint setup (configs : list ServerConfig) : list SetupStep :=
  match configs with
  | [] => []
  | config :: configs =>
      if is_routing_only config then setup configs
      else if config_subprocess config then Fork config :: setup configs
      else Listen config :: setup configs
  end.

(** <src/server_manager.cpp:722-727 ServerManager::run_once>
    Whether the round ends the process. *)
Definition parent_has_died (m : Manager) : bool :=
  is_subprocess_ m && negb (is_open_ipc (parent_ipc_ m)).

(** ** The child's configuration *)

(** <src/server_manager.cpp:1226-1235 ServerManager::setup_subprocess> *)
Definition child_server (config cfg : ServerConfig) : ServerConfig :=
  cfg <| config_subprocess := false |>
      <| is_routing_only :=
           negb ((config_port cfg =? config_port config)
                 && bool_decide (config_type cfg = config_type config)) |>.

(** <src/server_manager.cpp:1214-1243 ServerManager::setup_subprocess>
    [fd] is the parent's end of the connection to the child. *)
Definition child_config (m : Manager) (config : ServerConfig) (fd : Z) : ServerManagerConfig :=
  {| servers := child_server config <$> configs_ m;
     enable_ipv6 := enable_ipv6_ m;
     no_banner := no_banner default_config;
     cfg_max_connections := max_connections_ m;
     cfg_max_game_peers := max_game_peers_ m;
     tick_time_budget := tick_time_budget_ m;
     settings_database_path :=
       if bool_decide (settings_path_member m = EmptyString) then EmptyString
       else (settings_path_member m ++ ":ro")%string;
     http := (λ h, h <| http_port ::= λ p, wrap 16 (p + fd) |>) <$> http_config_ m |}.
End manager.

(** ** The configuration as a structure *)

Section structure.
Context `{SerArrays, ProtocolCode}.

(** <include/luxon/server/server_manager.hpp:57-60 ProxyConfig> *)
Definition proxy_ty : Ty := TyStruct (TCons (TyEnum protocol_int) (TCons TyString TNil)).

(** <include/luxon/server/server_manager.hpp:62-73 ServerConfig> *)
Definition server_ty : Ty := TyStruct (
  TCons (TyEnum I32) (TCons (TyOther U16)
  (TCons TyBool (TCons TyBool (TCons TyBool
  (TCons TyString (TCons (TyOther U16)
  (TCons TyString (TCons (TyVector proxy_ty) TNil))))))))).

(** <include/luxon/server/server_manager.hpp:76-80 HttpServerConfig> *)
Definition http_ty : Ty :=
  TyStruct (TCons TyBool (TCons TyString (TCons (TyOther U16) TNil))).

(** <include/luxon/server/server_manager.hpp:87-115 ServerManagerConfig> *)
Definition config_ty : Ty := TyStruct (
  TCons (TyVector server_ty) (TCons TyBool (TCons TyBool
  (TCons (TyOther U32) (TCons (TyOther U32) (TCons (TyOther U32)
  (TCons TyString (TCons (TyOptional http_ty) TNil)))))))).

(** The enumerators of [ServerType], from 0.  A number that is none of them is
    treated like [None] by every [switch] over the type. *)
Definition type_code (t : ServerType) : Z :=
  match t with NoServer => 0 | NameServer => 1 | MasterServer => 2 | GameServer => 3 end.
Definition type_of (z : Z) : ServerType :=
  if z =? 1 then NameServer else if z =? 2 then MasterServer
  else if z =? 3 then GameServer else NoServer.

Definition proxy_fields (p : ProxyConfig) : carrier proxy_ty :=
  (protocol_code (proxy_protocol p), (proxy_address p, tt)).
Definition proxy_of (x : carrier proxy_ty) : ProxyConfig :=
  let '(protocol, (address, _)) := x in mkProxyConfig (protocol_of protocol) address.

Definition server_fields (s : ServerConfig) : carrier server_ty :=
  (type_code (config_type s), (config_port s, (config_allow_unsolicited s,
   (config_subprocess s, (is_routing_only s, (stun_server_host s, (stun_server_port s,
   (external_address s, (proxy_fields <$> proxies s, tt))))))))).
Definition server_of (x : carrier server_ty) : ServerConfig :=
  let '(t, (port, (unsolicited, (subprocess, (routing, (host, (stun_port,
        (address, (ps, _))))))))) := x in
  mkServerConfig (type_of t) port unsolicited subprocess routing host stun_port address
    (proxy_of <$> ps).

Definition http_fields (h : HttpServerConfig) : carrier http_ty :=
  (http_enabled h, (http_address h, (http_port h, tt))).
Definition http_of (x : carrier http_ty) : HttpServerConfig :=
  let '(enabled, (address, (port, _))) := x in mkHttpConfig enabled address port.

Definition config_fields (c : ServerManagerConfig) : carrier config_ty :=
  (server_fields <$> servers c, (enable_ipv6 c, (no_banner c, (cfg_max_connections c,
   (cfg_max_game_peers c, (tick_time_budget c, (settings_database_path c,
   (http_fields <$> http c, tt)))))))).
Definition config_of (x : carrier config_ty) : ServerManagerConfig :=
  let '(ss, (ipv6, (banner, (connections, (peers, (budget, (path, (h, _)))))))) := x in
  mkManagerConfig (server_of <$> ss) ipv6 banner connections peers budget path (http_of <$> h).

(** [options.max_depth] *)
Definition default_max_depth : nat := 64.

(** ** The two ends *)

(** <src/server_manager.cpp:1202-1202 ServerManager::setup_subprocess>
    The connections to subprocesses, by port.  Where a port has one it stays,
    and the new one is closed at the end of the call. *)
Definition try_emplace (subprocesses_ : gmap Z IPC) (port : Z) (ipc : IPC) : IPC :=
  default ipc (subprocesses_ !! port).

(** <src/server_manager.cpp:1186-1251 ServerManager::setup_subprocess>
    The table of connections, the descriptor the process is started with and
    the value sent to it, if any: [can_start] tells whether
    [handle_start_subprocess] is set, [ipc_opt] is what [IPC::create] gives. *)
Definition setup_subprocess (m : Manager) (subprocesses_ : gmap Z IPC) (config : ServerConfig)
    (can_start : bool) (ipc_opt : option IPC) : gmap Z IPC * option Z * option Value :=
  if negb can_start then (subprocesses_, None, None)
  else match ipc_opt with
  | None => (subprocesses_, None, None)
  | Some ipc =>
      let ipc := try_emplace subprocesses_ (config_port config) ipc in
      (<[config_port config := close_child_fd ipc]> subprocesses_, Some (child_fd_ ipc),
       match to_value default_max_depth config_ty
               (config_fields (child_config m config (fd_ ipc))) with
       | inl v => Some v
       | inr _ => None
       end)
  end.

(** <src/server_manager.cpp:341-357 ServerManager::receive_config_from_ipc>
    From the value of the message received. *)
Definition receive_config (v : Value) : fallible string ServerManagerConfig :=
  match from_value default_max_depth config_ty v with
  | inl x => inl (config_of x)
  | inr e => inr ("Failed to decode ServerManagerConfig from IPC: " ++ message e)%string
  end.
End structure.

(** ** The configuration travels intact *)

Section carried.
Context `{SerLaws, !SerArrays, !SerArraysLaws, Transports, !ProtocolCode, !ProtocolCodeLaw}.

Lemma type_of_code t : type_of (type_code t) = t.
Proof. by destruct t. Qed.

Lemma proxy_of_fields p : proxy_of (proxy_fields p) = p.
Proof. destruct p. cbn. by rewrite protocol_cast. Qed.

Lemma server_of_fields s : server_of (server_fields s) = s.
Proof.
  destruct s. cbn. rewrite type_of_code. f_equal. apply fmap_inv, proxy_of_fields.
Qed.

Lemma config_of_fields c : config_of (config_fields c) = c.
Proof.
  destruct c as [ss ? ? ? ? ? ? h]. unfold config_fields, config_of. cbn.
  f_equal; [apply fmap_inv, server_of_fields|]. by destruct h as [[]|].
Qed.

(** Numbers within their C++ types; a subprocess's configuration may also mark
    servers as routing only. *)
Definition in_width (c : ServerManagerConfig) : Prop :=
  Forall (λ s, 0 ≤ config_port s < 2 ^ 16 ∧ 0 ≤ stun_server_port s < 2 ^ 16) (servers c) ∧
  0 ≤ cfg_max_connections c < 2 ^ 32 ∧ 0 ≤ cfg_max_game_peers c < 2 ^ 32 ∧
  0 ≤ tick_time_budget c < 2 ^ 32 ∧
  match http c with Some h => http_ok h | None => True end.

Lemma config_in_width c : config_ok c → in_width c.
Proof.
  intros (Hs & ? & ? & ? & ?). split_and!; try done; try lia.
  eapply Forall_impl; [exact Hs|]. by intros s (? & ? & _).
Qed.

Lemma fields_well_formed c : in_width c → well_formed config_ty (config_fields c).
Proof.
  intros (Hs & ? & ? & ? & Hh). unfold config_ty, config_fields, well_formed. cbn -[server_ty].
  split_and!; try done; try lia.
  - apply Forall_fmap. eapply Forall_impl; [exact Hs|]. intros s [Hp Hst]. cbn.
    split_and!; try done; try lia. apply Forall_fmap, Forall_true. by intros p.
  - destruct (http c); [|done]. cbn. unfold http_ok in Hh. split_and!; try done; lia.
Qed.

Lemma config_codable : codable config_ty = true ∧ (height config_ty ≤ default_max_depth)%nat.
Proof. split; [by vm_compute|]. unfold default_max_depth. cbn. lia. Qed.

(** A configuration within its types is sent and received as it is. *)
Lemma config_sent_received c :
  in_width c →
  ∃ v, to_value default_max_depth config_ty (config_fields c) = inl v ∧
       receive_config v = inl c.
Proof.
  intros Hc. destruct config_codable as [Hcod Hh]. unfold to_value, receive_config, from_value.
  destruct (proj1 (codable_carried default_max_depth) config_ty Hcod (config_fields c) "$" O)
    as (v & Hv & _ & Hback); [by apply fields_well_formed|done|].
  exists v. rewrite Hv. split; [done|]. rewrite Hback by done. by rewrite config_of_fields.
Qed.
End carried.

(** ** What the child makes of it *)

Section child.
Context `{Transports}.
Implicit Types (configs : list ServerConfig) (cfg : ServerConfig).

Lemma normalize_range z : 0 ≤ NormalizeMaxGamePeers z < 255.
Proof.
  unfold NormalizeMaxGamePeers, wrap. pose proof (Z.mod_pos_bound (Z.min z 255) (2 ^ 8) ltac:(lia)).
  change (2 ^ 8) with 256 in *. case_match; lia.
Qed.

Lemma normalize_idempotent z :
  NormalizeMaxGamePeers (NormalizeMaxGamePeers z) = NormalizeMaxGamePeers z.
Proof.
  pose proof (normalize_range z) as Hz. generalize dependent (NormalizeMaxGamePeers z).
  intros y Hy. unfold NormalizeMaxGamePeers. rewrite Z.min_l by lia.
  rewrite wrap_small by lia. case_match; lia.
Qed.

Lemma budget_range z : 0 ≤ z < 2 ^ 32 → 0 < effective_budget z < 2 ^ 32.
Proof. intros. unfold effective_budget. case_match; lia. Qed.

Lemma budget_idempotent z :
  0 ≤ z < 2 ^ 32 → effective_budget (effective_budget z) = effective_budget z.
Proof.
  intros Hz. pose proof (budget_range z Hz). generalize dependent (effective_budget z).
  intros y Hy. unfold effective_budget. case_match; lia.
Qed.

(** Addresses do not depend on who binds a server. *)
Lemma child_static_address config configs a :
  get_static_endpoint_address_str (child_server config <$> configs) a
  = get_static_endpoint_address_str configs a.
Proof.
  induction configs as [|c configs IH]; [done|]. cbn [fmap list_fmap].
  cbn [get_static_endpoint_address_str]. cbn [child_server set_field]. by rewrite IH.
Qed.

Lemma child_resolved_address config configs t proto a :
  resolve_server_address (child_server config <$> configs) t proto a
  = resolve_server_address configs t proto a.
Proof.
  induction configs as [|c configs IH]; [done|]. cbn [fmap list_fmap].
  cbn [resolve_server_address]. cbn [child_server set_field]. by rewrite IH.
Qed.

Lemma child_candidates config configs t :
  filter (λ cfg, config_type cfg = t ∧ external_address cfg ≠ EmptyString)
    (child_server config <$> configs)
  = child_server config <$>
    filter (λ cfg, config_type cfg = t ∧ external_address cfg ≠ EmptyString) configs.
Proof.
  induction configs as [|c configs IH]; [done|]. cbn [fmap list_fmap] in *.
  rewrite !filter_cons. cbn [child_server set_field config_type external_address].
  case_decide; cbn [fmap list_fmap]; by rewrite IH.
Qed.

Lemma child_random_address config configs pick t proto :
  get_random_server_address (child_server config <$> configs) pick t proto
  = get_random_server_address configs pick t proto.
Proof.
  unfold get_random_server_address, get_random_server_base_address.
  rewrite child_candidates, length_fmap, list_lookup_fmap.
  destruct (_ !! _) as [c|]; [|done]. cbn [fmap option_fmap option_map]. f_equal.
  by rewrite child_resolved_address.
Qed.

(** Ports and kinds tell the configured servers apart. *)
Definition distinct configs : Prop :=
  NoDup ((λ cfg, (config_port cfg, config_type cfg)) <$> configs).

Lemma child_of_other config cfg :
  (config_port cfg, config_type cfg) ≠ (config_port config, config_type config) →
  is_routing_only (child_server config cfg) = true.
Proof.
  intros Hne. cbn. apply negb_true_iff, andb_false_iff.
  destruct (Z.eqb_spec (config_port cfg) (config_port config)); [right|by left].
  apply bool_decide_eq_false. congruence.
Qed.

Lemma child_setup_others config configs :
  (config_port config, config_type config)
    ∉ (λ cfg, (config_port cfg, config_type cfg)) <$> configs →
  setup (child_server config <$> configs) = [].
Proof.
  induction configs as [|c configs IH]; [done|]. cbn [fmap list_fmap setup].
  intros [Hne Hin]%not_elem_of_cons. rewrite child_of_other by done. by apply IH.
Qed.

(** The child binds the one server it was started for and starts no process. *)
Lemma child_setup config configs :
  distinct configs → config ∈ configs →
  setup (child_server config <$> configs) = [Listen (child_server config config)].
Proof.
  unfold distinct. induction configs as [|c configs IH]; [set_solver|].
  cbn [fmap list_fmap setup]. intros [Hc Hn]%NoDup_cons [->|Hin]%elem_of_cons.
  - cbn [is_routing_only child_server set_field]. rewrite Z.eqb_refl, bool_decide_eq_true_2 by done.
    cbn. f_equal. by apply child_setup_others.
  - rewrite child_of_other; [by apply IH|]. intros E. apply Hc. rewrite E.
    by apply (list_elem_of_fmap_2 (λ cfg, (config_port cfg, config_type cfg))).
Qed.
End child.

(** ** A server in a process of its own *)

Section handover.
Context `{SerLaws, !SerArrays, !SerArraysLaws, Transports, !ProtocolCode, !ProtocolCodeLaw}.

Lemma child_in_width c ipc config fd :
  in_width c → in_width (child_config (construct c ipc) config fd).
Proof.
  intros (Hs & Hc & Hg & Ht & Hh). unfold in_width, child_config, construct. cbn.
  pose proof (normalize_range (cfg_max_game_peers c)). pose proof (budget_range _ Ht).
  split_and!; try lia.
  - apply Forall_fmap. by eapply Forall_impl; [exact Hs|].
  - destruct (http c) as [h|]; [|done]. cbn. unfold http_ok. cbn. apply wrap_range. lia.
Qed.

(** C27: A manager started from a well-formed configuration whose servers differ
    in port or kind hands one of them to a subprocess: the configuration it
    synthesizes is sent and received unchanged, and a child started from it
    binds that server and nothing else, starts no process of its own, keeps
    the parent's limits and resolves every address as the parent does.  The
    first subprocess on a port gets a connection of its own, of which the
    parent keeps its end alone. *)
Theorem subprocess_inherits c ipc0 subs config ipc ipc' :
  config_ok c → distinct (servers c) → config ∈ servers c →
  let m := construct c ipc0 in
  let started := setup_subprocess m subs config true (Some ipc) in
  ∃ v child,
    started.2 = Some v ∧
    (subs !! config_port config = None →
     started.1 = (<[config_port config := close_child_fd ipc]> subs, Some (child_fd_ ipc))) ∧
    receive_config v = inl child ∧
    let m' := construct child ipc' in
    setup (configs_ m') = [Listen (child_server config config)] ∧
    (enable_ipv6_ m', max_connections_ m', max_game_peers_ m', tick_time_budget_ m')
    = (enable_ipv6_ m, max_connections_ m, max_game_peers_ m, tick_time_budget_ m) ∧
    (∀ a, get_static_endpoint_address_str (configs_ m') a
          = get_static_endpoint_address_str (configs_ m) a) ∧
    (∀ pick t proto, get_random_server_address (configs_ m') pick t proto
                     = get_random_server_address (configs_ m) pick t proto).
Proof.
  intros Hc Hd Hin m started. apply config_in_width in Hc.
  set (fd := fd_ (try_emplace subs (config_port config) ipc)).
  destruct (config_sent_received (child_config m config fd)) as (v & Hv & Hr);
    [by apply child_in_width|].
  exists v, (child_config m config fd). split; [|split; [|split; [exact Hr|]]].
  { subst started. unfold setup_subprocess. cbn [negb snd]. subst fd. by rewrite Hv. }
  { intros Hs. subst started. unfold setup_subprocess, try_emplace. by rewrite Hs. }
  cbn. split_and!.
  - by apply child_setup.
  - rewrite normalize_idempotent, budget_idempotent; [done|]. by destruct Hc as (_ & _ & _ & Ht & _).
  - intros a. apply child_static_address.
  - intros pick t proto. apply child_random_address.
Qed.

(** A second server on the port of one that runs in a subprocess gets the
    connection of the first, whose end for the child is closed by then: the
    process is started with no descriptor and its configuration is sent to the
    first one. *)
Theorem second_on_port c ipc0 subs config1 config2 ipc1 ipc2 :
  config_port config2 = config_port config1 → subs !! config_port config1 = None →
  let m := construct c ipc0 in
  let r1 := setup_subprocess m subs config1 true (Some ipc1) in
  let r2 := setup_subprocess m r1.1.1 config2 true (Some ipc2) in
  r2.1 = (r1.1.1, Some INVALID_OS_SOCKET).
Proof.
  intros Hp Hs. unfold setup_subprocess, try_emplace. cbn. rewrite Hp, Hs, lookup_insert_eq. cbn.
  assert (child_fd_ (close_child_fd ipc1) = INVALID_OS_SOCKET) as Hc.
  { unfold close_child_fd. destruct (child_fd_ ipc1 =? INVALID_OS_SOCKET) eqn:E; [|done].
    by apply Z.eqb_eq in E. }
  rewrite Hc, insert_insert_eq. do 2 f_equal.
  unfold close_child_fd at 1. by rewrite Hc.
Qed.

(** The member that holds the path of the settings database for subprocesses
    is never set and the connection to the parent is asked about after it was
    moved: a subprocess has no settings database, whatever its parent's, and
    no process ever ends because its parent died. *)
Theorem subprocess_cut_off c ipc0 config fd ipc :
  let m := construct c ipc0 in
  let m' := construct (child_config m config fd) ipc in
  settings_manager m' = None ∧ parent_has_died m = false ∧ parent_has_died m' = false.
Proof. done. Qed.
End handover.
