(* ===== verification/ServerLoop.v ===== *)
(** * The main loop of a process

    Models [ServerManager::run] and [ServerManager::run_once]: the order of
    what a round does, the messages of the other processes it takes in, the
    timer of the slow updates, what ends the loop, and which exceptions end
    the process with it.  What the round calls (handlers, network servers,
    tasks) are steps on the whole state, which may stop the loop or throw.
    The build is the one with subprocesses and the HTTP server. *)

From S2P Require Import Prelude Ipc ServerManager Metrics Configuration Subprocess.
Open Scope Z_scope.

Section loop.
Context `{Transports}.

(** Whatever else the process holds. *)
Context {W : Type}.

#[export] Instance eta_Manager : Eta Manager := λ m,
  mkManager (configs_ m) (enable_ipv6_ m) (max_connections_ m) (max_game_peers_ m)
    (tick_time_budget_ m) (settings_manager m) (settings_path_member m) (http_config_ m)
    (parent_ipc_ m) (is_subprocess_ m).

(** A connection to another process: the parent, or the child started for a
    port. *)
Inductive Channel := Parent | ChildOn (port : Z).

(** <include/luxon/server/server_manager.hpp:159-240 ServerManager>
    The members the loop uses: the timer is the clock's reading when it was
    reset, the iterator over the servers a position. *)
Record Server := mkServer {
  manager : Manager;
  subprocesses_ : gmap Z IPC;
  running_ : bool;
  last_slow_update_ : Z;
  next_server_it_ : nat;
  ipc_broadcast_skip_ : option Channel;
  idle_time : Metric;
  busy_time : Metric;
  world : W;
}.
#[export] Instance eta_Server : Eta Server := λ s,
  mkServer (manager s) (subprocesses_ s) (running_ s) (last_slow_update_ s) (next_server_it_ s)
    (ipc_broadcast_skip_ s) (idle_time s) (busy_time s) (world s).
Implicit Types (s : Server) (ch : Channel).

(** A call comes with whether an exception left it; the next one is made
    only if none did. *)
Abbreviation Step := (Server → Server * bool).
Definition and_then (r : Server * bool) (k : Step) : Server * bool :=
  if r.2 then r else k r.1.

Definition channel s ch : option IPC :=
  match ch with Parent => Some (parent_ipc_ (manager s)) | ChildOn p => subprocesses_ s !! p end.
Definition set_channel ch (i : IPC) s : Server :=
  match ch with
  | Parent => s <| manager ::= λ m, m <| parent_ipc_ := i |> |>
  | ChildOn p => s <| subprocesses_ ::= <[p := i]> |>
  end.

(** A registered callback: that of a child's socket, or one of the network
    servers and the HTTP server. *)
Inductive Callback := ChildSocket (port : Z) | OtherSocket (cb : nat).

(** What a round asks of the system and of the process's other parts.
    [incoming] is what the socket of another process answers to one call
    after the other, until it has nothing more; [service_peers] comes with
    what is left of the budget and whether it threw; [disconnect] tells the
    peer of a handler to disconnect. *)
Class Calls := {
  Message : Type;
  Event : Type;
  message_codec :: IpcCodec Message;
  event_of : Message → option Event;
  now : W → Z;
  timer_get : Z → Z → Z;
  cooperate : W → bool;
  incoming : Channel → W → list (list RecvRes);
  ready : W → list Callback;
  process_ipc_event : Event → Step;
  socket_callback : nat → Step;
  n_servers : nat;
  service_peers : nat → Z → Server → Server * Z * bool;
  connections : W → list nat;
  HandleSlowUpdate : nat → Step;
  disconnect : nat → Server → Server;
  run_scheduled_task : Step;
  http_service_now : Step;
}.
End loop.

Abbreviation StepOf W := (Server (W := W) → Server (W := W) * bool).

Section rounds.
Context `{Transports} {W : Type} `{!Calls (W := W)}.
Implicit Types (s : Server (W := W)) (ch : Channel).
Abbreviation Step := (StepOf W).

(** <include/luxon/server/server_manager.hpp:292-292 ServerManager::stop> *)
Definition stop s : Server := s <| running_ := false |>.

(** ** Messages of other processes *)

(** <src/server_manager.cpp:792-801 ServerManager::process_child_ipc_message> (also
    lines 803-812) *)
Definition process_ipc_message ch (msg : Message) : Step := λ s,
  let s := s <| ipc_broadcast_skip_ := Some ch |> in
  match event_of msg with Some ev => process_ipc_event ev s | None => (s, false) end.

(** <src/server_manager.cpp:1205-1206 ServerManager::setup_subprocess> (also lines
    646-647)
    While a message is complete; one round of fuel for each. *)
Fixpoint receive_loop (fuel : nat) ch (os : list (list RecvRes)) s : Server * bool :=
  match fuel, channel s ch with
  | S fuel, Some i =>
      match receive_message i (default [] (head os)) with
      | (i, inr _) => (set_channel ch i s, true)
      | (i, inl None) => (set_channel ch i s, false)
      | (i, inl (Some msg)) =>
          and_then (process_ipc_message ch msg (set_channel ch i s))
            (receive_loop fuel ch (tail os))
      end
  | _, _ => (s, false)
  end.

(** A message takes four bytes at least. *)
Definition pending s ch (os : list (list RecvRes)) : nat :=
  match channel s ch with
  | Some i => length (recv_buffer_ i) + length (mjoin (delivered_data <$> os))
  | None => 0
  end.

(** <src/server_manager.cpp:1204-1208 ServerManager::setup_subprocess>
    The callback on a child's socket. *)
Definition on_child_readable (port : Z) : Step := λ s,
  let ch := ChildOn port in
  let os := incoming ch (world s) in
  and_then (receive_loop (S (pending s ch os)) ch os s) (λ s,
  (s <| ipc_broadcast_skip_ := None |>, false)).

(** <src/server_manager.cpp:643-649 ServerManager::run_once> *)
Definition receive_from_parent : Step := λ s,
  let os := incoming Parent (world s) in
  and_then
    (if is_open_ipc (parent_ipc_ (manager s))
     then receive_loop (S (pending s Parent os)) Parent os s else (s, false)) (λ s,
  (s <| ipc_broadcast_skip_ := None |>, false)).

(** ** A round *)

Definition call_back (cb : Callback) : Step :=
  match cb with ChildSocket p => on_child_readable p | OtherSocket n => socket_callback n end.

(** <src/sock_selector.cpp:45-63 SockSelector::run>
    The ready callbacks in order; nothing catches what they throw. *)
Definition run_selector : Step := λ s,
  foldl (λ r cb, and_then r (call_back cb)) (s, false) (ready (world s)).

(** <src/server_manager.cpp:657-684 ServerManager::run_once>
    Exceptions of a server are caught. *)
Fixpoint service_all (servers_to_process : nat) (remaining_timeout : Z) s : Server :=
  match servers_to_process with
  | O => s
  | S servers_to_process =>
      if 0 <? remaining_timeout then
        let it := if (next_server_it_ s =? n_servers)%nat then O else next_server_it_ s in
        let '(s, remaining_timeout, _) := service_peers it remaining_timeout s in
        service_all servers_to_process remaining_timeout (s <| next_server_it_ := S it |>)
      else s
  end.

(** <src/server_manager.cpp:701-710 ServerManager::run_once>
    Exceptions of a handler disconnect its peer. *)
Definition slow_updates s : Server :=
  foldl (λ s c, let '(s, threw) := HandleSlowUpdate c s in
                if threw : bool then disconnect c s else s) s (connections (world s)).

(** [duration_cast<microseconds>], as [unsigned]. *)
Definition micros (ns : Z) : Z := u32 (Z.quot ns 1000).

(** <src/server_manager.cpp:652-655 ServerManager::run_once> *)
Definition slow_update_due s : bool := 250 <? timer_get (last_slow_update_ s) (now (world s)).

(** <src/server_manager.cpp:652-736 ServerManager::run_once>
    The rest of a round that began to be busy at [start_time]. *)
Definition run_updates (start_time : Z) : Step := λ s,
  let slow_update := slow_update_due s in
  let s := if slow_update then s <| last_slow_update_ := now (world s) |> else s in
  let s := service_all n_servers (tick_time_budget_ (manager s)) s in
  let s := if slow_update then slow_updates s else s in
  and_then (run_scheduled_task s) (λ s,
  and_then (http_service_now s) (λ s,
  let s := if parent_has_died (manager s) then stop s else s in
  (s <| busy_time ::= add (now (world s)) (micros (now (world s) - start_time)) |>, false))).

(** <src/server_manager.cpp:640-649 ServerManager::run_once>
    The second half of a round, in which it is busy. *)
Definition run_busy : Step := λ s,
  and_then (receive_from_parent s) (run_updates (now (world s))).

(** Every round, and the loop, starts out running. *)
Definition started s : Server := s <| running_ := true |>.

(** <src/server_manager.cpp:614-637 ServerManager::run_once>
    It returns [running_] of the state after. *)
Definition run_once : Step := λ s,
  let s := started s in
  let start_time := now (world s) in
  and_then (run_selector s) (λ s,
  run_busy (s <| idle_time ::= add (now (world s)) (micros (now (world s) - start_time)) |>)).

(** How the loop ends: it returns, or an exception leaves it. *)
Inductive Ended := Returned | Thrown.

(** <src/server_manager.cpp:605-612 ServerManager::run>
    [None] while it still runs after [fuel] rounds. *)
Fixpoint run_rounds (fuel : nat) s : option (Server * Ended) :=
  match fuel with
  | O => None
  | S fuel =>
      let '(s, threw) := run_once s in
      if threw : bool then Some (s, Thrown)
      else if running_ s && cooperate (world s) then run_rounds fuel s
      else Some (s <| running_ := true |>, Returned)
  end.
Definition run_server (fuel : nat) s : option (Server * Ended) :=
  run_rounds fuel (started s).

(** ** What a round keeps *)

(** What the calls of a round may do to the loop's own members: they may
    stop the loop, and time passes. *)
Record follows s s' : Prop := {
  follows_running : running_ s' = true → running_ s = true;
  follows_timer : last_slow_update_ s' = last_slow_update_ s;
  follows_kind : is_subprocess_ (manager s') = is_subprocess_ (manager s);
  follows_clock : now (world s) ≤ now (world s');
}.

Ltac quiet := split; cbn; [done|done|done|lia].

#[export] Instance follows_preorder : PreOrder follows.
Proof.
  split; [intros s; quiet|]. intros s1 s2 s3 [R1 T1 K1 C1] [R2 T2 K2 C2].
  split; [auto|congruence|congruence|lia].
Qed.

Definition within_step (R : relation Server) (c : Step) : Prop := ∀ s, R s (c s).1.
Abbreviation steady := (within_step follows).

Lemma and_then_within (R : relation Server) `{!Transitive R} s r k :
  R s r.1 → within_step R k → R s (and_then r k).1.
Proof. intros Hr Hk. unfold and_then. destruct r.2; [done|]. by etransitivity. Qed.

Lemma and_then_inv r (k : Step) : (and_then r k).2 = false → r.2 = false ∧ and_then r k = k r.1.
Proof. unfold and_then. destruct r.2 eqn:E; [congruence|done]. Qed.

Lemma and_then_thrown r (k : Step) : r.2 = true → (and_then r k).2 = true.
Proof. unfold and_then. intros E. by rewrite E. Qed.

(** The calls of a round are steady; events are handled without reading from
    the sockets, and a timer counts whole milliseconds. *)
Class CallsLaws : Prop := {
  event_steady ev : steady (process_ipc_event ev);
  event_buffers ev s ch i : channel (process_ipc_event ev s).1 ch = Some i →
    ∃ i0, channel s ch = Some i0 ∧ recv_buffer_ i = recv_buffer_ i0;
  socket_steady cb : steady (socket_callback cb);
  peers_follow i t s : follows s (service_peers i t s).1.1;
  slow_steady c : steady (HandleSlowUpdate c);
  disconnect_follows c s : follows s (disconnect c s);
  task_steady : steady run_scheduled_task;
  http_steady : steady http_service_now;
  timer_millis r n : r ≤ n → timer_get r n = (n - r) / 1000000;
}.
Context `{!CallsLaws}.

(** What all calls on the way to the slow updates keep: a relation they stay
    in, which does not look at sockets, metrics and the order of servers. *)
Class Kept (R : relation Server) : Prop := {
  kept_preorder :: PreOrder R;
  kept_quiet s s' : running_ s' = running_ s → last_slow_update_ s' = last_slow_update_ s →
    is_subprocess_ (manager s') = is_subprocess_ (manager s) → world s' = world s → R s s';
  kept_event ev : within_step R (process_ipc_event ev);
  kept_socket cb : within_step R (socket_callback cb);
  kept_peers i t s : R s (service_peers i t s).1.1;
}.

#[export] Instance follows_kept : Kept follows.
Proof.
  split; [apply _| |apply event_steady|apply socket_steady|apply peers_follow].
  intros s s' Er Et Ek Ew. split; [congruence|done|done|by rewrite Ew].
Qed.

Section kept.
Context (R : relation Server) `{!Kept R}.

Lemma set_channel_kept ch i s : R s (set_channel ch i s).
Proof. apply kept_quiet; by destruct ch. Qed.

Lemma process_kept ch msg : within_step R (process_ipc_message ch msg).
Proof.
  intros s. unfold process_ipc_message. destruct (event_of msg) as [ev|]; [|by apply kept_quiet].
  etransitivity; [|apply kept_event]. by apply kept_quiet.
Qed.

Lemma receive_loop_kept fuel ch os : within_step R (receive_loop fuel ch os).
Proof.
  revert os. induction fuel as [|fuel IH]; intros os s; [done|]. cbn [receive_loop].
  destruct (channel s ch) as [i|]; [|done].
  destruct (receive_message _ _) as [i' [[msg|]|e]]; try apply set_channel_kept.
  apply (and_then_within R); [|apply IH].
  etransitivity; [apply (set_channel_kept ch i')|apply process_kept].
Qed.

Lemma receive_from_parent_kept : within_step R receive_from_parent.
Proof.
  intros s. apply (and_then_within R); [|intros s'; by apply kept_quiet].
  destruct (is_open_ipc _); [apply receive_loop_kept|done].
Qed.

Lemma on_child_readable_kept p : within_step R (on_child_readable p).
Proof.
  intros s. apply (and_then_within R); [apply receive_loop_kept|intros s'; by apply kept_quiet].
Qed.

Lemma callbacks_kept l r : R r.1 (foldl (λ r cb, and_then r (call_back cb)) r l).1.
Proof.
  revert r. induction l as [|cb l IH]; intros r; [done|].
  cbn [foldl]. etransitivity; [|apply IH]. apply (and_then_within R); [done|].
  intros s. destruct cb; [apply on_child_readable_kept|apply kept_socket].
Qed.

Lemma run_selector_kept : within_step R run_selector.
Proof. intros s. apply (callbacks_kept _ (s, false)). Qed.

Lemma service_all_kept k t s : R s (service_all k t s).
Proof.
  revert t s. induction k as [|k IH]; intros t s; [done|]. cbn [service_all].
  destruct (0 <? t); [|done].
  generalize (if (next_server_it_ s =? n_servers)%nat then 0%nat else next_server_it_ s).
  intros it. pose proof (kept_peers it t s) as Hp.
  destruct (service_peers it t s) as [[s1 t1] threw].
  etransitivity; [exact Hp|]. etransitivity; [|apply IH]. by apply kept_quiet.
Qed.
End kept.

(** ** The receiving loop ends *)

Lemma receive_shrinks i os i' msg :
  receive_message i os = (i', inl (Some msg)) →
  (length (recv_buffer_ i') + 4 ≤ length (recv_buffer_ i) + length (delivered_data os))%nat.
Proof.
  unfold receive_message. destruct (negb _); [done|].
  pose proof (drain_data os (recv_buffer_ i)) as Hd.
  destruct (drain os (recv_buffer_ i)) as [buf lost]. cbn [fst] in Hd. destruct lost; [done|].
  unfold take_frame. destruct (Z.ltb_spec (len buf) 4); [done|].
  destruct (Z.ltb_spec (len buf) (4 + ntohl buf)); [done|].
  destruct (ipc_deserialize _); [|done]. intros [= <- _]. cbn.
  rewrite <-length_app, <-Hd, !length_drop. lia.
Qed.

Lemma set_channel_same ch i s i0 : channel s ch = Some i0 → channel (set_channel ch i s) ch = Some i.
Proof. destruct ch; cbn; [done|]. intros _. apply lookup_insert_eq. Qed.

Lemma process_buffers ch msg s i :
  channel (process_ipc_message ch msg s).1 ch = Some i →
  ∃ i0, channel s ch = Some i0 ∧ recv_buffer_ i = recv_buffer_ i0.
Proof.
  unfold process_ipc_message. destruct (event_of msg) as [ev|]; [|by eauto].
  intros (i0 & Hi & Hb)%event_buffers. exists i0. split; [|done]. by destruct ch.
Qed.

(** More rounds than there are bytes change nothing. *)
Lemma receive_loop_enough f1 f2 ch os s :
  (pending s ch os < f1)%nat → (pending s ch os < f2)%nat →
  receive_loop f1 ch os s = receive_loop f2 ch os s.
Proof.
  revert f2 os s. induction f1 as [|f1 IH]; intros [|f2] os s H1 H2; try lia.
  cbn [receive_loop]. destruct (channel s ch) as [i|] eqn:Hi; [|done].
  destruct (receive_message i _) as [i' [[msg|]|e]] eqn:Hr; [|done|done].
  set (r := process_ipc_message _ _ _). unfold and_then. destruct r.2; [done|].
  assert (pending r.1 ch (tail os) + 4 ≤ pending s ch os)%nat as Hp; [|apply IH; lia].
  unfold pending. rewrite Hi.
  assert (length (delivered_data (default [] (head os))) + length (mjoin (delivered_data <$> tail os))
          = length (mjoin (delivered_data <$> os)))%nat as <-.
  { destruct os; [done|]. cbn. by rewrite length_app. }
  apply receive_shrinks in Hr. destruct (channel r.1 ch) as [i1|] eqn:H3.
  - apply process_buffers in H3 as (i0 & H4 & ->).
    rewrite (set_channel_same _ _ _ _ Hi) in H4. injection H4 as <-. lia.
  - lia.
Qed.

(** ** Connections to other processes that are lost *)

(** What the sockets' answers mean: the other end is gone. *)
Definition lost s ch : Prop :=
  ∃ i, channel s ch = Some i ∧ is_open_ipc i = true ∧
    (drain (default [] (head (incoming ch (world s)))) (recv_buffer_ i)).2 = true.

Lemma lost_throws s ch fuel :
  lost s ch → (receive_loop (S fuel) ch (incoming ch (world s)) s).2 = true.
Proof.
  intros (i & Hi & Ho & Hd). cbn [receive_loop]. rewrite Hi. unfold receive_message.
  rewrite Ho. cbn [negb]. by destruct (drain _ _) as [buf []].
Qed.

Lemma foldl_thrown l r :
  r.2 = true → foldl (λ r cb, and_then r (call_back cb)) r l = r.
Proof.
  intros Hr. induction l as [|cb l IH]; [done|]. cbn [foldl].
  unfold and_then at 2. by rewrite Hr.
Qed.

Lemma selector_lost s p l1 l2 :
  ready (world s) = l1 ++ ChildSocket p :: l2 →
  (∀ s', foldl (λ r cb, and_then r (call_back cb)) (s, false) l1 = (s', false) → lost s' (ChildOn p)) →
  (run_selector s).2 = true.
Proof.
  intros Hr Hl. unfold run_selector. rewrite Hr, foldl_app. cbn [foldl].
  destruct (foldl _ _ l1) as [s1 [|]]; [by rewrite foldl_thrown|].
  specialize (Hl s1 eq_refl). unfold and_then at 2. cbn [fst snd call_back].
  assert ((on_child_readable p s1).2 = true) as E by (by apply and_then_thrown, lost_throws).
  by rewrite foldl_thrown.
Qed.

(** A round does not look at what stopped the loop before it. *)
Lemma run_once_restarts s b : run_once (s <| running_ := b |>) = run_once s.
Proof. done. Qed.

Lemma round_throws s fuel :
  (run_once s).2 = true → ∃ s', run_server (S fuel) s = Some (s', Thrown).
Proof.
  unfold run_server. cbn [run_rounds]. unfold started at 1. rewrite run_once_restarts.
  destruct (run_once s) as [s' []]; [eauto|done].
Qed.

(** A lost connection takes the process with it.  When a child process goes
    away, its socket is ready and the first read throws: nothing up to
    [main] catches it, so that the parent ends with all its servers, whatever
    ran before in the round.  A child whose parent goes away ends the same
    way, before the round comes to the test that would stop it. *)
Theorem lost_connection_ends_process s fuel :
  (∀ p l1 l2, ready (world s) = l1 ++ ChildSocket p :: l2 →
     (∀ s', foldl (λ r cb, and_then r (call_back cb)) (started s, false) l1 = (s', false) →
       lost s' (ChildOn p)) →
     ∃ s', run_server (S fuel) s = Some (s', Thrown)) ∧
  ((∀ s', run_selector (started s) = (s', false) → lost s' Parent) →
     ∃ s', run_server (S fuel) s = Some (s', Thrown)).
Proof.
  split.
  - intros p l1 l2 Hr Hl. apply round_throws.
    pose proof (selector_lost (started s) p l1 l2 Hr Hl) as E.
    unfold run_once. destruct (run_selector _) as [s1 t]. cbn in E. subst t. done.
  - intros Hl. apply round_throws. unfold run_once.
    destruct (run_selector (started s)) as [s1 [|]]; [done|].
    specialize (Hl s1 eq_refl). unfold and_then at 1. cbn [fst snd]. apply and_then_thrown.
    unfold receive_from_parent. set (s2 := s1 <| idle_time ::= _ |>).
    assert (lost s2 Parent) as Hl' by exact Hl.
    assert (is_open_ipc (parent_ipc_ (manager s2)) = true) as ->
      by (destruct Hl' as (i & [= <-] & Ho & _); exact Ho).
    by apply and_then_thrown, lost_throws.
Qed.

(** ** The pace of slow updates *)

Lemma slow_updates_follows s : follows s (slow_updates s).
Proof.
  unfold slow_updates. generalize (connections (world s)) as l. intros l. revert s.
  induction l as [|c l IH]; intros s; [done|]. cbn [foldl]. etransitivity; [|apply IH].
  pose proof (slow_steady c s) as Hc. destruct (HandleSlowUpdate c s) as [s1 [|]]; [|done].
  etransitivity; [exact Hc|apply disconnect_follows].
Qed.

(** Where a round looks at the timer. *)
Definition check_state s : Server * bool :=
  and_then (run_selector (started s)) (λ s1, receive_from_parent
    (s1 <| idle_time ::= add (now (world s1)) (micros (now (world s1) - now (world s))) |>)).
Definition check_reading s : Z := now (world (check_state s).1).

(** The reading at which a round makes its slow updates, if it does. *)
Definition slow_reading s : option Z :=
  if slow_update_due (check_state s).1 then Some (check_reading s) else None.

Lemma check_kept (R : relation Server) `{!Kept R} s : R (started s) (check_state s).1.
Proof.
  unfold check_state. apply (and_then_within R); [apply (run_selector_kept R)|].
  intros s1. etransitivity; [|apply (receive_from_parent_kept R)]. by apply kept_quiet.
Qed.

Lemma run_once_checked s : ∃ t, run_once s = and_then (check_state s) (run_updates t).
Proof.
  unfold run_once, check_state, run_busy, and_then. cbn [fst snd].
  destruct (run_selector (started s)) as [s1 [|]]; [by exists 0|]. eexists. reflexivity.
Qed.

Definition updated c : Server :=
  if slow_update_due c then c <| last_slow_update_ := now (world c) |> else c.

Lemma run_updates_follows t c : follows (updated c) (run_updates t c).1.
Proof.
  unfold run_updates. change (if slow_update_due c then _ else c) with (updated c).
  set (s1 := service_all _ _ _). assert (follows (updated c) s1) as F1 by apply (service_all_kept follows).
  set (s2 := if slow_update_due c then slow_updates s1 else s1).
  assert (follows s1 s2) as F2 by (unfold s2; destruct (slow_update_due c); [apply slow_updates_follows|done]).
  etransitivity; [exact F1|]. etransitivity; [exact F2|].
  apply (and_then_within follows); [apply task_steady|]. intros s3.
  apply (and_then_within follows); [apply http_steady|].
  intros s4. cbn [fst]. etransitivity; [|quiet].
  destruct (parent_has_died (manager s4)); [|done]. split; [done|done|done|cbn; lia].
Qed.

(** The state after [k] rounds. *)
Definition after_rounds k s : Server := Nat.iter k (λ s, (run_once s).1) s.

Lemma after_S k s : after_rounds (S k) s = (run_once (after_rounds k s)).1.
Proof. done. Qed.

Lemma round_timer s :
  (run_once s).2 = false →
  last_slow_update_ (run_once s).1 = default (last_slow_update_ s) (slow_reading s) ∧
  now (world s) ≤ check_reading s ≤ now (world (run_once s).1).
Proof.
  intros Ht. destruct (run_once_checked s) as [t E]. rewrite E in *.
  apply and_then_inv in Ht as [_ ->]. pose proof (check_kept follows s) as Hc.
  pose proof (run_updates_follows t (check_state s).1) as Hu.
  pose proof (follows_timer _ _ Hc) as Tc. pose proof (follows_clock _ _ Hc) as Cc.
  pose proof (follows_timer _ _ Hu) as Tu. pose proof (follows_clock _ _ Hu) as Cu.
  rewrite Tu. unfold slow_reading, check_reading, updated in *. cbn in Tc, Cc.
  destruct (slow_update_due _); cbn in *; split; congruence || lia.
Qed.

(** *** The calls to the handlers *)

(** The world remembers the connections whose [HandleSlowUpdate] was called,
    in the order of the calls; nothing else in a round calls it. *)
Class SlowCalls := { slow_calls : W → list nat }.
Definition same_calls `{SlowCalls} s s' : Prop := slow_calls (world s') = slow_calls (world s).
Class SlowCallsLaws `{SlowCalls} : Prop := {
  calls_slow c s : slow_calls (world (HandleSlowUpdate c s).1) = slow_calls (world s) ++ [c];
  calls_disconnect c s : same_calls s (disconnect c s);
  calls_event ev : within_step same_calls (process_ipc_event ev);
  calls_socket cb : within_step same_calls (socket_callback cb);
  calls_peers i t s : same_calls s (service_peers i t s).1.1;
  calls_task : within_step same_calls run_scheduled_task;
  calls_http : within_step same_calls http_service_now;
}.

Section calls.
Context `{SlowCallsLaws}.

#[export] Instance same_calls_preorder : PreOrder same_calls.
Proof. split; [done|]. intros s1 s2 s3. unfold same_calls. congruence. Qed.

#[export] Instance same_calls_kept : Kept same_calls.
Proof.
  split; [apply _| |apply calls_event|apply calls_socket|apply calls_peers].
  intros s s' _ _ _ Ew. unfold same_calls. by rewrite Ew.
Qed.

Lemma slow_updates_calls s :
  slow_calls (world (slow_updates s)) = slow_calls (world s) ++ connections (world s).
Proof.
  unfold slow_updates. generalize (connections (world s)) as l. intros l. revert s.
  induction l as [|c l IH]; intros s; [by rewrite app_nil_r|]. cbn [foldl]. rewrite IH.
  pose proof (calls_slow c s) as Hc. destruct (HandleSlowUpdate c s) as [s1 threw]. cbn [fst] in Hc.
  transitivity (slow_calls (world s1) ++ l); [|by rewrite Hc, <-app_assoc].
  destruct threw; [|done]. by rewrite (calls_disconnect c s1).
Qed.

(** The state once the servers were serviced, from where the timer was looked
    at. *)
Definition served c : Server :=
  service_all n_servers (tick_time_budget_ (manager (updated c))) (updated c).

Lemma run_updates_calls t c :
  slow_calls (world (run_updates t c).1) =
  slow_calls (world c) ++ if slow_update_due c then connections (world (served c)) else [].
Proof.
  unfold run_updates. change (if slow_update_due c then _ else c) with (updated c). fold (served c).
  assert (slow_calls (world (served c)) = slow_calls (world c)) as Es.
  { transitivity (slow_calls (world (updated c))); [apply (service_all_kept same_calls)|].
    unfold updated. by destruct (slow_update_due c). }
  set (s2 := if slow_update_due c then slow_updates (served c) else served c).
  transitivity (slow_calls (world s2)).
  { change (same_calls s2 (and_then (run_scheduled_task s2) (λ s,
      and_then (http_service_now s) (λ s,
        let s := if parent_has_died (manager s) then stop s else s in
        (s <| busy_time ::= add (now (world s)) (micros (now (world s) - t)) |>, false)))).1).
    apply (and_then_within same_calls); [apply calls_task|]. intros s3.
    apply (and_then_within same_calls); [apply calls_http|]. intros s4. cbn zeta.
    by destruct (parent_has_died (manager s4)). }
  unfold s2. destruct (slow_update_due c); [by rewrite slow_updates_calls, Es|].
  by rewrite Es, app_nil_r.
Qed.

Lemma round_calls s :
  (run_once s).2 = false →
  slow_calls (world (run_once s).1) = slow_calls (world s) ++
    if slow_update_due (check_state s).1 then connections (world (served (check_state s).1)) else [].
Proof.
  intros Ht. destruct (run_once_checked s) as [t E]. rewrite E in *.
  apply and_then_inv in Ht as [_ ->]. rewrite run_updates_calls. f_equal.
  exact (check_kept same_calls s).
Qed.
End calls.

(** ** How the loop ends *)

Definition goes_on (r : Server * bool) : bool :=
  negb r.2 && running_ r.1 && cooperate (world r.1).

Lemma run_rounds_spec k fuel s :
  (∀ j, (j < k)%nat → goes_on (run_once (after_rounds j s)) = true) →
  run_rounds (k + fuel) s = run_rounds fuel (after_rounds k s) ∧
  ∀ n, (n ≤ k)%nat → run_rounds n s = None.
Proof.
  revert s. induction k as [|k IH]; intros s Hgo.
  { split; [done|]. intros n Hn. by replace n with 0%nat by lia. }
  pose proof (Hgo 0%nat ltac:(lia)) as Hg0. cbn in Hg0. unfold goes_on in Hg0.
  apply andb_prop in Hg0 as [[Ht%negb_true_iff Hr]%andb_prop Hc].
  destruct (IH (run_once s).1) as [E En].
  { intros j Hj. specialize (Hgo (S j) ltac:(lia)). unfold after_rounds in *.
    by rewrite Nat.iter_succ_r in Hgo. }
  assert (∀ n, run_rounds (S n) s = run_rounds n (run_once s).1) as Es.
  { intros n. cbn [run_rounds]. destruct (run_once s) as [s1 t]. cbn in *. subst t.
    by rewrite Hr, Hc. }
  split.
  - cbn [Nat.add]. rewrite Es, E. unfold after_rounds. by rewrite Nat.iter_succ_r.
  - intros [|n] Hn; [done|]. rewrite Es. apply En. lia.
Qed.

Lemma run_server_started fuel s : run_server (S fuel) s = run_rounds (S fuel) s.
Proof. unfold run_server. cbn [run_rounds]. unfold started at 1. by rewrite run_once_restarts. Qed.

Lemma stopped_stays s :
  (run_once s).2 = false → running_ (check_state s).1 = false → running_ (run_once s).1 = false.
Proof.
  intros Ht Hc. destruct (run_once_checked s) as [t E]. rewrite E in *.
  apply and_then_inv in Ht as [_ ->].
  pose proof (follows_running _ _ (run_updates_follows t (check_state s).1)) as Hr.
  apply not_true_iff_false. intros Hn. apply Hr in Hn. unfold updated in Hn.
  destruct (slow_update_due _); cbn in Hn; congruence.
Qed.

(** The loop ends with the first round in which something stops it, in which
    the platform asks to end, or which an exception leaves, and not before.
    A stop by a socket's callback or by a message takes effect although the
    rest of the round is still done.  Having returned, the loop is ready to
    run again; a stop while no round runs is lost. *)
Theorem run_ends s k fuel :
  (∀ j, (j < k)%nat → goes_on (run_once (after_rounds j s)) = true) →
  let r := run_once (after_rounds k s) in
  (r.2 = false → running_ (check_state (after_rounds k s)).1 = false → goes_on r = false) ∧
  (goes_on r = false →
   run_server fuel s =
     if decide (k < fuel)%nat
     then Some (if r.2 then (r.1, Thrown) else (r.1 <| running_ := true |>, Returned)) else None) ∧
  run_server fuel (stop s) = run_server fuel s.
Proof.
  intros Hgo r. split; [|split; [|done]].
  - intros Ht Hc. unfold goes_on. subst r. rewrite (stopped_stays _ Ht Hc).
    by rewrite andb_false_r.
  - intros Hend. destruct (decide (k < fuel)%nat) as [Hlt|Hge].
    + destruct fuel as [|fuel]; [lia|]. rewrite run_server_started.
      replace (S fuel) with (k + S (fuel - k))%nat by lia.
      rewrite (proj1 (run_rounds_spec k _ s Hgo)). cbn [run_rounds].
      fold r. unfold goes_on in Hend. destruct r as [s1 [|]]; [done|]. cbn in *. by rewrite Hend.
    + destruct fuel as [|fuel]; [done|]. rewrite run_server_started.
      apply (run_rounds_spec k 0 s Hgo). lia.
Qed.

(** ** When the slow updates are made *)

Context (s : Server) (Hs : last_slow_update_ s ≤ now (world s)).
Context (Hrounds : ∀ k, (run_once (after_rounds k s)).2 = false).

Lemma timer_behind k :
  last_slow_update_ (after_rounds k s) ≤ now (world (after_rounds k s)).
Proof.
  induction k as [|k IH]; [done|]. rewrite after_S.
  destruct (round_timer _ (Hrounds k)) as [-> Hc]. unfold slow_reading.
  destruct (slow_update_due _); cbn; lia.
Qed.

(** When the last slow updates before round [k] were made, from when the
    rounds look at the timer alone: whenever 251 milliseconds have passed
    since. *)
Fixpoint last_made k : Z :=
  match k with
  | O => last_slow_update_ s
  | S k =>
      let b := check_reading (after_rounds k s) in
      if decide (251000000 ≤ b - last_made k) then b else last_made k
  end.

Lemma due_spec c :
  last_slow_update_ c ≤ now (world c) →
  slow_update_due c = bool_decide (251000000 ≤ now (world c) - last_slow_update_ c).
Proof.
  intros Hc. unfold slow_update_due. rewrite timer_millis by done.
  set (d := now (world c) - last_slow_update_ c).
  pose proof (Z.div_mod d 1000000 ltac:(lia)). pose proof (Z.mod_pos_bound d 1000000 ltac:(lia)).
  case_bool_decide; [apply Z.ltb_lt|apply Z.ltb_ge]; lia.
Qed.

Lemma check_due k :
  slow_update_due (check_state (after_rounds k s)).1 =
  bool_decide (251000000 ≤ check_reading (after_rounds k s) - last_slow_update_ (after_rounds k s)).
Proof.
  pose proof (timer_behind k) as Hb. destruct (round_timer _ (Hrounds k)) as [_ Hc].
  pose proof (follows_timer _ _ (check_kept follows (after_rounds k s))) as Tc. cbn in Tc.
  rewrite due_spec; rewrite Tc; [done|]. unfold check_reading in Hc. lia.
Qed.

Lemma timer_last_made k : last_slow_update_ (after_rounds k s) = last_made k.
Proof.
  induction k as [|k IH]; [done|]. rewrite after_S. cbn [last_made].
  destruct (round_timer _ (Hrounds k)) as [-> _]. unfold slow_reading. rewrite check_due, IH.
  case_bool_decide; [by rewrite decide_True|by rewrite decide_False].
Qed.

(** C33: How often [HandleSlowUpdate] is called: in the round [k] once for each
    connection there is when the servers have been serviced, if 251
    milliseconds or more have passed, when the round looks at the timer,
    since the look at which the last ones were made, and not at all
    otherwise, however long the calls of the rounds take and whatever they
    do.  So no round but the first finds them overdue at the look of the
    round before. *)
Theorem slow_updates_paced `{SlowCallsLaws} k :
  let round := after_rounds k s in
  slow_calls (world (after_rounds (S k) s)) =
    slow_calls (world round) ++
    (if decide (251000000 ≤ check_reading round - last_made k)
     then connections (world (served (check_state round).1)) else []) ∧
  ((0 < k)%nat → check_reading (after_rounds (k - 1) s) - last_made k < 251000000).
Proof.
  cbn zeta. split.
  - rewrite after_S, round_calls by apply Hrounds. rewrite check_due, timer_last_made.
    case_bool_decide; [by rewrite decide_True|by rewrite decide_False].
  - destruct k as [|k]; [lia|]. intros _. replace (S k - 1)%nat with k by lia.
    cbn [last_made]. destruct (decide _); lia.
Qed.
End rounds.

(** ** The theorems at a small process *)

Section example.
#[local] Existing Instance two_transports.
#[local] Existing Instance bytes_codec.

(** The world is its clock and the slow updates made.  A round takes 100 milliseconds; with [gone], the
    child started for port 5056 goes away behind another socket's data. *)
#[local] Instance small_calls (gone : bool) : Calls (W := Z * list nat) := {|
  Message := ByteString;
  Event := False;
  event_of _ := None;
  now := fst;
  timer_get r n := (n - r) / 1000000;
  cooperate w := w.1 <? 800000000;
  incoming _ _ := [[RecvIntr; RecvData []]];
  ready _ := if gone then [OtherSocket 3; ChildSocket 5056] else [];
  process_ipc_event ev s := (s, false);
  socket_callback _ s := (s, false);
  n_servers := 1;
  service_peers _ t s := (s, 0, true);
  connections _ := [4%nat; 7%nat];
  HandleSlowUpdate c s := (s <| world ::= λ w, (w.1, w.2 ++ [c]) |>, true);
  disconnect _ s := s;
  run_scheduled_task s := (s, false);
  http_service_now s := (s <| world ::= λ w, (w.1 + 100000000, w.2) |>, false);
|}.

#[local] Instance small_calls_laws gone : CallsLaws (Calls0 := small_calls gone).
Proof.
  split; try done; try (intros; done).
  - intros s. split; cbn; [done|done|done|lia].
Qed.

Definition small_process : Server (W := Z * list nat) :=
  {| manager := construct default_config (mkIPC INVALID_OS_SOCKET INVALID_OS_SOCKET [] []);
     subprocesses_ := {[5056 := open_channel]}; running_ := false; last_slow_update_ := 0;
     next_server_it_ := 0; ipc_broadcast_skip_ := None; idle_time := []; busy_time := [];
     world := (0, []) |}.

(** Nothing throws while there is no connection to a parent and no child goes
    away. *)
Lemma small_rounds k :
  let s := after_rounds (Calls0 := small_calls false) k small_process in
  (run_once (Calls0 := small_calls false) s).2 = false ∧ is_open_ipc (parent_ipc_ (manager s)) = false.
Proof.
  assert (∀ s, is_open_ipc (parent_ipc_ (manager s)) = false →
    (run_once (Calls0 := small_calls false) s).2 = false ∧
    manager (run_once (Calls0 := small_calls false) s).1 = manager s) as Hround.
  { intros s Ho. unfold run_once, run_busy, receive_from_parent, run_selector, run_updates. cbn.
    rewrite Ho. cbn. destruct (slow_update_due _); cbn; destruct (0 <? _); cbn;
      by destruct (parent_has_died _). }
  cbn zeta. induction k as [|k [_ IH]]; [by split; [apply Hround|]|].
  assert (is_open_ipc (parent_ipc_ (manager (after_rounds (Calls0 := small_calls false) (S k) small_process))) = false) as E.
  { rewrite after_S. by rewrite (proj2 (Hround _ IH)). }
  split; [by apply Hround|done].
Qed.

#[local] Instance small_history : SlowCalls (W := Z * list nat) := {| slow_calls := snd |}.
#[local] Instance small_history_laws : SlowCallsLaws (Calls0 := small_calls false).
Proof. by split. Qed.

(** Slow updates in the fourth round, of both connections, and none in the
    fifth. *)
Lemma slow_updates_paced_witness :
  slow_calls (world (after_rounds (Calls0 := small_calls false) 4 small_process)) = [4; 7]%nat ∧
  slow_calls (world (after_rounds (Calls0 := small_calls false) 5 small_process)) = [4; 7]%nat.
Proof.
  assert (slow_calls (world (after_rounds (Calls0 := small_calls false) 3 small_process)) = [])
    as E3 by (vm_compute; reflexivity).
  pose proof (slow_updates_paced (Calls0 := small_calls false) small_process ltac:(cbn; lia)
    (λ k, proj1 (small_rounds k))) as Hp.
  pose proof (proj1 (Hp 3%nat)) as E4. rewrite E3 in E4.
  assert (slow_calls (world (after_rounds (Calls0 := small_calls false) 4 small_process)) = [4; 7]%nat)
    as E4' by (rewrite E4; vm_compute; reflexivity).
  split; [exact E4'|]. rewrite (proj1 (Hp 4%nat)), E4'. vm_compute. reflexivity.
Defined.

(** The loop ends when the platform asks it to, after eight rounds, although
    it was stopped before. *)
Lemma run_ends_witness :
  ∃ s, run_server (Calls0 := small_calls false) 9 (stop small_process) = Some (s, Returned) ∧ running_ s = true.
Proof.
  pose proof (run_ends (Calls0 := small_calls false) small_process 7 9) as (_ & E & ->).
  { intros j Hj. do 7 (destruct j as [|j]; [vm_compute; reflexivity|]). lia. }
  rewrite E by (vm_compute; reflexivity). rewrite decide_True by lia.
  rewrite (proj1 (small_rounds 7)). eexists. split; reflexivity.
Defined.

Lemma lost_connection_ends_process_witness :
  ∃ s, run_server (Calls0 := small_calls true) 1 small_process = Some (s, Thrown).
Proof.
  refine (proj1 (lost_connection_ends_process (Calls0 := small_calls true) small_process 0)
    5056 [OtherSocket 3] [] eq_refl _).
  intros s E. cbn [foldl] in E. unfold and_then in E. cbn [fst snd call_back socket_callback small_calls] in E.
  injection E as <-. exists open_channel. split; [|split; [reflexivity|vm_compute; reflexivity]].
  vm_compute. reflexivity.
Defined.
End example.
