(* ===== verification/Startup.v ===== *)
(** * Starting to listen

    Models the rest of [ServerManager::setup]: the network servers it makes
    for the configured ports, the handlers their peers get, the registration
    of their descriptors, the tasks that keep their STUN bindings alive, and
    the descriptor of the HTTP server.  A network server is the network
    library's. *)

From S2P Require Import Prelude Interfaces OffsetMap Ipc SockSelector ServerManager Configuration Subprocess.
Open Scope Z_scope.

(** The handlers, one class for each kind of server. *)
Inductive HandlerKind := NameServerHandler | MasterServerHandler | GameServerHandler.

(** <src/server_manager.cpp:124-135 ServerTypeToHandler> *)
Definition ServerTypeToHandler (t : ServerType) : option HandlerKind :=
  match t with
  | NameServer => Some NameServerHandler
  | MasterServer => Some MasterServerHandler
  | GameServer => Some GameServerHandler
  | NoServer => None
  end.

(** [enet::EnetServer], the library's: its constructor, and the methods the
    manager calls. *)
Class EnetServers := {
  EnetServer : Type;
  new_server : EnetServer;
  bind : EnetServer → Z → bool → EnetServer * bool;
  request_stun_binding : EnetServer → string → bool → Z → EnetServer * bool;
  keepalive_stun_binding : EnetServer → EnetServer * bool;
  native_handle : EnetServer → Z;
}.

(** What the system answers: to [epoll_ctl] for a descriptor; the descriptor
    of the HTTP server's socket, whether an address is one, and whether the
    socket can be bound and listened on. *)
Class System := {
  epoll_add : Z → bool;
  socket : Z;
  inet_aton : string → bool;
  bind_socket : string → Z → bool;
  listen_socket : bool;
}.

(** The names of the registered callbacks, and of the tasks. *)
Definition service_later : nat := 0.
Definition service_self (port : Z) : nat := S (Z.to_nat port).
Definition keepalive (port : Z) : nat := Z.to_nat port.

Section startup.
Context `{Transports, EnetServers, System}.
Context (M : Type → Type) `{!KeyedMap 32 M, !KeyedMapLaws 32 M}.
(** The clock's reading when a configured server is set up, and
    [enable_ipv6_]. *)
Context (startup_time : ServerConfig → Z) (enable_ipv6_ : bool).

(** A server of the table, and the configuration its callbacks refer to. *)
Record Listener := mkListener { enet : EnetServer; l_config : ServerConfig }.

(** <include/luxon/server/server_manager.hpp:178-204 ServerManager>
    The members set here; [http_server_] is the descriptor of the HTTP
    server, and [open_fds] are those of its sockets that are open. *)
Record Setup := mkSetup {
  servers_ : gmap Z Listener;
  sock_selector_ : SockSelector M;
  scheduled_tasks_ : list ScheduledTask;
  http_server_ : option Z;
  open_fds : gset Z;
  forked : list ServerConfig;
}.
#[export] Instance eta_Setup : Eta Setup := λ s,
  mkSetup (servers_ s) (sock_selector_ s) (scheduled_tasks_ s) (http_server_ s) (open_fds s)
    (forked s).
Implicit Types (s : Setup) (config : ServerConfig) (steps : list SetupStep).

(** ** The HTTP server *)

Definition watch (fd : Z) (callback : nat) s : Setup :=
  s <| sock_selector_ ::= λ sel, (add_read_fd M sel fd callback (epoll_add fd)).1 |>.

(** <src/http_server.cpp:212-243 HttpServer::bind>
    With [on_create_fd], which adds the descriptor to the selector. *)
Definition http_bind (address : string) (port : Z) s : Setup * bool :=
  let fd := socket in
  let s := s <| http_server_ := Some fd |> in
  if fd <? 0 then (s, false)
  else
    let s := watch fd service_later (s <| open_fds ::= union {[fd]} |>) in
    if negb (inet_aton address) then (s <| open_fds ::= λ fds, fds ∖ {[fd]} |>, false)
    else (s, bind_socket address port && listen_socket).

(** <src/server_manager.cpp:775-788 ServerManager::setup_http_server>
    A server that cannot be bound is kept. *)
Definition setup_http_server (http_config : option HttpServerConfig) s : Setup :=
  match http_config with
  | Some c => if http_enabled c then (http_bind (http_address c) (http_port c) s).1 else s
  | None => s
  end.

(** <src/http_server.cpp:198-206 HttpServer::~HttpServer>
    The descriptor it closes and takes from the selector, besides those of its
    clients. *)
Definition http_destroyed s : Setup * option Z :=
  match http_server_ s with
  | Some fd =>
      if fd =? -1 then (s <| http_server_ := None |>, None)
      else (s <| http_server_ := None |> <| open_fds ::= λ fds, fds ∖ {[fd]} |>
              <| sock_selector_ ::= λ sel, remove_read_fd M sel fd |>, Some fd)
  | None => (s, None)
  end.

(** ** The network servers *)

Definition set_enet (port : Z) (e : EnetServer) s : Setup :=
  s <| servers_ ::= alter (λ l, mkListener e (l_config l)) port |>.

(** <src/server_manager.cpp:598-603 ServerManager::stun_keepalive> *)
Definition stun_keepalive (now port : Z) s : Setup :=
  let s := s <| servers_ ::= alter (λ l, mkListener (keepalive_stun_binding (enet l)).1 (l_config l)) port |> in
  s <| scheduled_tasks_ ::= λ q, add_scheduled_task now q 17500 (keepalive port) |>.

(** <src/server_manager.cpp:1037-1062 ServerManager::setup>
    A server that is there already is taken, and its callbacks are replaced. *)
Definition emplace_server config s : Setup * EnetServer :=
  let e := match servers_ s !! config_port config with Some l => enet l | None => new_server end in
  (s <| servers_ ::= <[config_port config := mkListener e config]> |>, e).

(** <src/server_manager.cpp:1164-1172 ServerManager::setup> *)
Definition start_stun config (e : EnetServer) s : Setup :=
  if bool_decide (stun_server_host config = EmptyString) then s
  else
    let '(e, granted) :=
      request_stun_binding e (stun_server_host config) enable_ipv6_ (stun_server_port config) in
    let s := set_enet (config_port config) e s in
    if granted then stun_keepalive (startup_time config) (config_port config) s else s.

(** <src/server_manager.cpp:1156-1179 ServerManager::setup>
    A server that cannot be bound stays in the table. *)
Definition listen config s : Setup :=
  let '(s, e) := emplace_server config s in
  let '(e, bound) := bind e (config_port config) enable_ipv6_ in
  let s := set_enet (config_port config) e s in
  if negb bound then s
  else
    let s := start_stun config e s in
    match servers_ s !! config_port config with
    | Some l => watch (native_handle (enet l)) (service_self (config_port config)) s
    | None => s
    end.

Definition setup_step s (step : SetupStep) : Setup :=
  match step with
  | Fork config => s <| forked ::= λ l, l ++ [config] |>
  | Listen config => listen config s
  end.

(** <src/server_manager.cpp:1011-1035 ServerManager::setup> *)
Definition run_setup (m : Manager) s : Setup :=
  foldl setup_step (setup_http_server (http_config_ m) s) (setup (configs_ m)).

(** <src/server_manager.cpp:1049-1062 ServerManager::setup>
    The handler a peer of a server gets: a port's, with whether it may join
    without an invitation. *)
Definition handler_for s (port : Z) : option (option HandlerKind * bool) :=
  (λ l, (ServerTypeToHandler (config_type (l_config l)), config_allow_unsolicited (l_config l)))
    <$> servers_ s !! port.

(** ** What a process serves *)

Definition listens steps : list ServerConfig :=
  omap (λ step, match step with Listen config => Some config | Fork _ => None end) steps.

(** The last configured server of a port. *)
Definition served_by (port : Z) (configs : list ServerConfig) : option ServerConfig :=
  last (filter (λ config, config_port config = port) configs).

Lemma set_enet_config port e s p : l_config <$> servers_ (set_enet port e s) !! p = l_config <$> servers_ s !! p.
Proof.
  cbn. destruct (decide (port = p)) as [->|]; [|by rewrite lookup_alter_ne].
  rewrite lookup_alter_eq. by destruct (servers_ s !! p).
Qed.

Lemma stun_keepalive_config now port s p :
  l_config <$> servers_ (stun_keepalive now port s) !! p = l_config <$> servers_ s !! p.
Proof.
  cbn. destruct (decide (port = p)) as [->|]; [|by rewrite lookup_alter_ne].
  rewrite lookup_alter_eq. by destruct (servers_ s !! p).
Qed.

Lemma start_stun_config config e s p :
  l_config <$> servers_ (start_stun config e s) !! p = l_config <$> servers_ s !! p.
Proof.
  unfold start_stun. case_bool_decide; [done|].
  destruct (request_stun_binding _ _ _ _) as [e' [|]].
  - by rewrite stun_keepalive_config, set_enet_config.
  - apply set_enet_config.
Qed.

Lemma listen_config config s p :
  l_config <$> servers_ (listen config s) !! p =
  if decide (config_port config = p) then Some config else l_config <$> servers_ s !! p.
Proof.
  unfold listen, emplace_server. cbv beta iota zeta. destruct (bind _ _ _) as [e b].
  set (s1 := s <| servers_ ::= _ |>).
  assert (l_config <$> servers_ (set_enet (config_port config) e s1) !! p =
    if decide (config_port config = p) then Some config else l_config <$> servers_ s !! p) as E.
  { rewrite set_enet_config. unfold s1. cbn. destruct (decide _) as [<-|Hne].
    - by rewrite lookup_insert_eq.
    - by rewrite lookup_insert_ne. }
  destruct b; cbn [negb]; [|done].
  rewrite <-E, <-(start_stun_config config e (set_enet _ _ _)).
  by destruct (servers_ (start_stun _ _ _) !! config_port config).
Qed.

Lemma served_by_snoc port configs config :
  served_by port (configs ++ [config]) =
  if decide (config_port config = port) then Some config else served_by port configs.
Proof.
  unfold served_by. rewrite filter_app, filter_cons, filter_nil.
  destruct (decide _); [by rewrite last_snoc|by rewrite app_nil_r].
Qed.

Lemma steps_config steps s p :
  servers_ s = ∅ →
  l_config <$> servers_ (foldl setup_step s steps) !! p = served_by p (listens steps).
Proof.
  intros Hs. induction steps as [|step steps IH] using rev_ind.
  { cbn. by rewrite Hs. }
  rewrite foldl_app. unfold listens in *. rewrite omap_app. cbn [foldl].
  destruct step as [config|config]; cbn [omap list_omap setup_step].
  - by rewrite listen_config, served_by_snoc, IH.
  - rewrite app_nil_r. exact IH.
Qed.

(** ** What one configured server becomes *)

(** A server that is made and set up for a configuration: its state, whether
    it listens and whether a binding by STUN was granted. *)
Definition set_up config : EnetServer * bool * bool :=
  let '(e, bound) := bind new_server (config_port config) enable_ipv6_ in
  if negb bound then (e, false, false)
  else if bool_decide (stun_server_host config = EmptyString) then (e, true, false)
  else
    let '(e, granted) :=
      request_stun_binding e (stun_server_host config) enable_ipv6_ (stun_server_port config) in
    (if granted then (keepalive_stun_binding e).1 else e, true, granted).

Definition its_listener config : Listener := mkListener (set_up config).1.1 config.
Definition its_handle config : Z := native_handle (set_up config).1.1.
Definition watched_fd config : bool := (set_up config).1.2 && epoll_add (its_handle config).
Definition its_task config : list ScheduledTask :=
  if (set_up config).2
  then [mkTask (wrap 32 (startup_time config + 17500)) (keepalive (config_port config))] else [].

(** Setting up the server of a port no other server has. *)
Lemma listen_fresh config s :
  servers_ s !! config_port config = None →
  listen config s =
  s <| servers_ ::= <[config_port config := its_listener config]> |>
    <| scheduled_tasks_ ::= λ q, its_task config ++ q |>
    <| sock_selector_ ::= λ sel,
         if watched_fd config
         then (add_read_fd M sel (its_handle config) (service_self (config_port config)) true).1 else sel |>.
Proof.
  intros Hn. unfold listen, emplace_server, its_listener, its_task, watched_fd, its_handle, set_up.
  rewrite Hn. cbv beta iota zeta. destruct (bind _ _ _) as [e [|]]; cbn [negb andb fst snd].
  2:{ unfold set_enet. cbn. by rewrite alter_insert_eq. }
  unfold start_stun. case_bool_decide as Hh; cbn [andb fst snd].
  { unfold set_enet, watch. cbn. rewrite alter_insert_eq, lookup_insert_eq. cbn. by destruct (epoll_add _). }
  destruct (request_stun_binding _ _ _ _) as [e' [|]]; cbn [andb fst snd];
    unfold stun_keepalive, set_enet, watch; cbn;
    rewrite !alter_insert_eq, lookup_insert_eq; cbn; by destruct (epoll_add _).
Qed.

Lemma served_by_None port configs : port ∉ config_port <$> configs → served_by port configs = None.
Proof.
  intros Hn. unfold served_by. rewrite filter_none; [done|].
  intros c Hc <-. by apply Hn, list_elem_of_fmap_2.
Qed.

(** The selector's table once some servers are watched. *)
Definition watched_by (t : gmap Z nat) (configs : list ServerConfig) : gmap Z nat :=
  foldl (λ t c, if watched_fd c then <[its_handle c := service_self (config_port c)]> t else t)
    t configs.

(** With a server for every port, each is set up by itself. *)
Lemma steps_spec steps s t :
  servers_ s = ∅ → table M (sock_selector_ s) t →
  NoDup (config_port <$> listens steps) → Forall (λ c, valid_fd (its_handle c)) (listens steps) →
  let s' := foldl setup_step s steps in
  (∀ p, servers_ s' !! p = its_listener <$> served_by p (listens steps)) ∧
  scheduled_tasks_ s' ≡ₚ mjoin (its_task <$> listens steps) ++ scheduled_tasks_ s ∧
  table M (sock_selector_ s') (watched_by t (listens steps)).
Proof.
  intros Hs Ht. induction steps as [|step steps IH] using rev_ind; intros Hd Hv.
  { cbn. split_and!; [intros p; by rewrite Hs|done|done]. }
  cbn zeta. rewrite foldl_app. unfold listens in *. rewrite omap_app in *. cbn [foldl].
  destruct step as [config|config]; cbn [omap list_omap setup_step] in *.
  2:{ rewrite app_nil_r in *. apply IH; done. }
  rewrite fmap_app in Hd. apply NoDup_app in Hd as (Hd & Hn & _).
  apply Forall_app in Hv as [Hv Hc]. apply Forall_cons_1 in Hc as [Hc _].
  destruct (IH Hd Hv) as (IHs & IHq & IHt). cbn zeta in *. set (cs := omap _ steps) in *.
  rewrite listen_fresh.
  2:{ rewrite IHs, served_by_None; [done|]. intros Hin. apply (Hn _ Hin). cbn. set_solver. }
  split_and!.
  - intros p. cbn. rewrite served_by_snoc. destruct (decide _) as [<-|Hne].
    + by rewrite lookup_insert_eq.
    + rewrite lookup_insert_ne by done. apply IHs.
  - cbn. rewrite IHq, fmap_app, join_app. cbn. rewrite app_nil_r, <-(assoc_L (++)).
    by rewrite Permutation_app_swap_app.
  - cbn. unfold watched_by in *. rewrite foldl_app. cbn. destruct (watched_fd config); [|done].
    apply (command_table M _ _ (AddFd (its_handle config) (service_self (config_port config)) true)); done.
Qed.

Lemma watched_by_other t configs fd :
  (∀ c, c ∈ configs → watched_fd c = true → its_handle c ≠ fd) →
  watched_by t configs !! fd = t !! fd.
Proof.
  unfold watched_by. revert t. induction configs as [|c configs IH]; intros t Hn; [done|].
  cbn [foldl]. rewrite IH by set_solver. destruct (watched_fd c) eqn:E; [|done].
  apply lookup_insert_ne, Hn; set_solver.
Qed.

Lemma watched_by_handle t configs c :
  c ∈ configs → watched_fd c = true →
  (∀ c', c' ∈ configs → watched_fd c' = true → its_handle c' = its_handle c →
     config_port c' = config_port c) →
  watched_by t configs !! its_handle c = Some (service_self (config_port c)).
Proof.
  unfold watched_by. intros Hc Hw Hi. induction configs as [|c' configs IH] using rev_ind; [set_solver|].
  rewrite foldl_app. cbn [foldl]. destruct (watched_fd c') eqn:E.
  - destruct (decide (its_handle c' = its_handle c)) as [Eh|Hne].
    + rewrite Eh, lookup_insert_eq, (Hi c'); [done|set_solver|done|done].
    + rewrite lookup_insert_ne by done. apply IH; [|set_solver].
      apply elem_of_app in Hc as [|Hc]; [done|]. by apply list_elem_of_singleton in Hc as ->.
  - apply IH; [|set_solver]. apply elem_of_app in Hc as [|Hc]; [done|].
    apply list_elem_of_singleton in Hc as ->. congruence.
Qed.

(** ** The whole setup *)

Lemma setup_http_keeps h s :
  servers_ (setup_http_server h s) = servers_ s ∧
  scheduled_tasks_ (setup_http_server h s) = scheduled_tasks_ s.
Proof.
  destruct h as [c|]; [|done]. unfold setup_http_server, http_bind.
  destruct (http_enabled c); [|done]. cbv beta iota zeta.
  destruct (socket <? 0); [done|]. by destruct (inet_aton _).
Qed.

Lemma watch_table fd callback s t :
  valid_fd fd → table M (sock_selector_ s) t →
  table M (sock_selector_ (watch fd callback s)) (if epoll_add fd then <[fd := callback]> t else t).
Proof. intros Hv Ht. by apply (command_table M _ _ (AddFd fd callback (epoll_add fd))). Qed.

(** What setting up the HTTP server leaves behind. *)
Lemma setup_http_spec c s t :
  http_enabled c = true → 0 ≤ socket → valid_fd socket → table M (sock_selector_ s) t →
  let s' := setup_http_server (Some c) s in
  http_server_ s' = Some socket ∧
  table M (sock_selector_ s') (if epoll_add socket then <[socket := service_later]> t else t) ∧
  open_fds s' = if inet_aton (http_address c) then {[socket]} ∪ open_fds s
                else ({[socket]} ∪ open_fds s) ∖ {[socket]}.
Proof.
  intros He Hp Hv Ht. unfold setup_http_server, http_bind. rewrite He.
  destruct (Z.ltb_spec socket 0); [lia|]. cbv beta iota zeta.
  pose proof (watch_table socket service_later s t Hv Ht) as Hw.
  by destruct (inet_aton (http_address c)).
Qed.

(** Whatever the HTTP server does, there is a table. *)
Lemma setup_http_table h s t :
  valid_fd socket → table M (sock_selector_ s) t → ∃ t', table M (sock_selector_ (setup_http_server h s)) t'.
Proof.
  intros Hv Ht. destruct h as [c|]; [|by exists t]. destruct (http_enabled c) eqn:He.
  - destruct (setup_http_spec c s t He (proj1 Hv) Hv Ht) as (_ & ? & _). by eexists.
  - exists t. unfold setup_http_server. by rewrite He.
Qed.

(** The sockets of servers with different ports are different. *)
Definition own_sockets (configs : list ServerConfig) : Prop :=
  NoDup (config_port <$> configs) ∧ Forall (λ c, valid_fd (its_handle c)) configs ∧
  ∀ c c', c ∈ configs → c' ∈ configs → its_handle c' = its_handle c → config_port c' = config_port c.

(** What a process serves once it is set up.  The peers of a port get the
    handler of the last server configured for it, whether or not an earlier
    one had the port before, and whether or not its socket could be bound.
    When the ports differ, each server listens as it is configured: it is
    serviced when its socket is readable if it could be bound, and a task
    keeps its STUN binding alive if one was granted. *)
Theorem setup_serves m s t :
  servers_ s = ∅ → table M (sock_selector_ s) t → valid_fd socket →
  let configs := listens (setup (configs_ m)) in
  let s' := run_setup m s in
  (∀ p, handler_for s' p =
    (λ c, (ServerTypeToHandler (config_type c), config_allow_unsolicited c)) <$> served_by p configs) ∧
  (own_sockets configs →
     scheduled_tasks_ s' ≡ₚ mjoin (its_task <$> configs) ++ scheduled_tasks_ s ∧
     ∃ t', table M (sock_selector_ s') t' ∧
       ∀ c, c ∈ configs →
         servers_ s' !! config_port c = Some (its_listener c) ∧
         (watched_fd c = true → t' !! its_handle c = Some (service_self (config_port c)))).
Proof.
  intros Hs Ht Hv. cbn zeta. unfold run_setup. set (s0 := setup_http_server _ s).
  destruct (setup_http_keeps (http_config_ m) s) as [Es Eq]. fold s0 in Es, Eq. split.
  - intros p. unfold handler_for. rewrite <-(steps_config _ s0 p) by congruence.
    by destruct (servers_ _ !! p).
  - intros (Hd & Hh & Hi). destruct (setup_http_table (http_config_ m) s t Hv Ht) as [t0 Ht0].
    fold s0 in Ht0. destruct (steps_spec (setup (configs_ m)) s0 t0) as (Hl & Hq & Hw);
      [congruence|done|done|done|]. cbn zeta in *.
    rewrite Eq in Hq. split; [done|]. eexists. split; [exact Hw|]. intros c Hc. split.
    + rewrite Hl. unfold served_by.
      apply list_elem_of_split in Hc as (l1 & l2 & E). rewrite E in Hd |- *.
      rewrite fmap_app, fmap_cons in Hd. apply NoDup_app in Hd as (_ & Hn & [Hn' _]%NoDup_cons).
      rewrite filter_app, filter_cons_True by done.
      rewrite (filter_none _ l2).
      2:{ intros c' Hc' Ep. apply Hn'. rewrite <-Ep. by apply list_elem_of_fmap_2. }
      by rewrite last_snoc.
    + intros Hwc. apply watched_by_handle; [done|done|]. intros c' Hc' _. by apply Hi.
Qed.

(** ** Keeping bindings alive *)

Definition is_port (port : Z) : Prop := 0 ≤ port < 2 ^ 16.
(** A task that keeps no binding alive. *)
Definition other_task (c : nat) : Prop := ∀ port, is_port port → c ≠ keepalive port.

(** What happens to the tasks while the process runs: a round finds none due,
    runs one, or something schedules one. *)
Inductive tick : Setup → Setup → Prop :=
  | tick_idle s now q :
      run_scheduled_tasks now (scheduled_tasks_ s) q None → tick s (s <| scheduled_tasks_ := q |>)
  | tick_keepalive s now now' q task port :
      run_scheduled_tasks now (scheduled_tasks_ s) q (Some task) → is_port port →
      cb task = keepalive port → tick s (stun_keepalive now' port (s <| scheduled_tasks_ := q |>))
  | tick_other s now q task :
      run_scheduled_tasks now (scheduled_tasks_ s) q (Some task) → other_task (cb task) →
      tick s (s <| scheduled_tasks_ := q |>)
  | tick_schedules s now delay c :
      other_task c → tick s (s <| scheduled_tasks_ ::= λ q, add_scheduled_task now q delay c |>).

Definition keepalives (port : Z) (q : list ScheduledTask) : nat :=
  length (filter (λ task, cb task = keepalive port) q).

Lemma keepalives_cons port task q :
  keepalives port (task :: q) = ((if decide (cb task = keepalive port) then 1 else 0) + keepalives port q)%nat.
Proof. unfold keepalives. rewrite filter_cons. by destruct (decide _). Qed.

Lemma run_keepalives now q q' r port :
  run_scheduled_tasks now q q' r →
  keepalives port q =
  ((match r with Some task => if decide (cb task = keepalive port) then 1 else 0 | None => 0 end)
   + keepalives port q')%nat.
Proof.
  intros Hr. destruct Hr as [|q task _ _|l1 task l2 _ _]; [done|done|].
  unfold keepalives. rewrite !filter_app, filter_cons, !length_app.
  destruct (decide _); cbn; lia.
Qed.

Lemma keepalive_inj p p' : is_port p → is_port p' → keepalive p = keepalive p' → p = p'.
Proof. unfold is_port, keepalive. intros. lia. Qed.

Lemma tick_keepalives s s' port :
  is_port port → tick s s' → keepalives port (scheduled_tasks_ s') = keepalives port (scheduled_tasks_ s).
Proof.
  intros Hp Ht. destruct Ht as [s now q Hr|s now now' q task p' Hr Hp' Hcb|s now q task Hr Ho|s now delay c Ho].
  - by rewrite (run_keepalives _ _ _ _ port Hr).
  - rewrite (run_keepalives _ _ _ _ port Hr), Hcb. cbn. unfold keepalives. cbn.
    by destruct (decide _).
  - rewrite (run_keepalives _ _ _ _ port Hr). cbn. by rewrite decide_False by (by apply Ho).
  - cbn. unfold keepalives. cbn. by rewrite decide_False by (by apply Ho).
Qed.

Lemma keepalives_app port q q' : keepalives port (q ++ q') = (keepalives port q + keepalives port q')%nat.
Proof. unfold keepalives. by rewrite filter_app, length_app. Qed.

Lemma its_task_count c port :
  is_port port → is_port (config_port c) →
  keepalives port (its_task c) =
  if decide (config_port c = port) then if (set_up c).2 then 1%nat else 0%nat else 0%nat.
Proof.
  intros Hp Hc. unfold its_task. destruct (set_up c).2; [|by destruct (decide _)].
  rewrite keepalives_cons. cbn [cb]. destruct (decide (config_port c = port)) as [->|Hne].
  - by rewrite decide_True.
  - rewrite decide_False; [done|]. intros E. by apply Hne, keepalive_inj.
Qed.

Lemma its_tasks_count configs c :
  NoDup (config_port <$> configs) → Forall (λ c, is_port (config_port c)) configs → c ∈ configs →
  keepalives (config_port c) (mjoin (its_task <$> configs)) = if (set_up c).2 then 1%nat else 0%nat.
Proof.
  intros Hd Hp Hc. assert (is_port (config_port c)) as Hpc by (by rewrite Forall_forall in Hp; apply Hp).
  assert (∀ l, config_port c ∉ config_port <$> l → Forall (λ c, is_port (config_port c)) l →
    keepalives (config_port c) (mjoin (its_task <$> l)) = 0%nat) as Hnone.
  { intros l Hn Hl. induction Hl as [|c1 l Hp1 Hl IH]; [done|].
    rewrite fmap_cons, not_elem_of_cons in Hn. destruct Hn as [Hne Hn].
    change (mjoin (its_task <$> c1 :: l)) with (its_task c1 ++ mjoin (its_task <$> l)).
    by rewrite keepalives_app, its_task_count, decide_False, IH. }
  induction Hp as [|c1 l Hp1 Hl IH]; [set_solver|].
  apply NoDup_cons in Hd as [Hn Hd].
  change (mjoin (its_task <$> c1 :: l)) with (its_task c1 ++ mjoin (its_task <$> l)).
  rewrite keepalives_app, its_task_count by done. apply elem_of_cons in Hc as [<-|Hc].
  - rewrite decide_True by done. rewrite Hnone by done. by destruct (set_up c).2.
  - rewrite decide_False, IH; [done|done|done|]. intros E. apply Hn. rewrite E.
    by apply list_elem_of_fmap_2.
Qed.

(** A binding that was granted is kept alive as long as the process runs:
    there is always exactly one task that will do it, whatever else is
    scheduled and run, and however often the network refuses. *)
Theorem bindings_kept_alive m s s' t c :
  servers_ s = ∅ → scheduled_tasks_ s = [] → table M (sock_selector_ s) t → valid_fd socket →
  let configs := listens (setup (configs_ m)) in
  own_sockets configs → Forall (λ c, is_port (config_port c)) configs → c ∈ configs →
  rtc tick (run_setup m s) s' →
  keepalives (config_port c) (scheduled_tasks_ s') = if (set_up c).2 then 1%nat else 0%nat.
Proof.
  intros Hs Hq Ht Hv configs Ho Hp Hc Hr.
  assert (is_port (config_port c)) as Hpc by (by rewrite Forall_forall in Hp; apply Hp).
  assert (keepalives (config_port c) (scheduled_tasks_ s') =
          keepalives (config_port c) (scheduled_tasks_ (run_setup m s))) as ->.
  { induction Hr as [|s1 s2 s3 H12 _ IH]; [done|]. rewrite IH. by apply tick_keepalives. }
  destruct (setup_http_table (http_config_ m) s t Hv Ht) as [t0 Ht0].
  destruct (setup_http_keeps (http_config_ m) s) as [Es Eq].
  destruct Ho as (Hd & Hh & _).
  destruct (steps_spec (setup (configs_ m)) (setup_http_server (http_config_ m) s) t0) as (_ & Htasks & _);
    [congruence|done|done|done|].
  rewrite <-(its_tasks_count configs c Hd Hp Hc). unfold keepalives. apply Permutation_length.
  unfold run_setup. cbn zeta in Htasks. rewrite Htasks, Eq, Hq. by rewrite app_nil_r.
Qed.

(** ** An address that is none *)

(** The HTTP server of an address that is none closes its socket but keeps
    the descriptor.  The next socket has its number: a network server is
    serviced by it, and when the HTTP server goes, it closes and unregisters
    the network server's socket. *)
Theorem closed_descriptor_kept m s t h c :
  servers_ s = ∅ → table M (sock_selector_ s) t → http_config_ m = Some h → http_enabled h = true →
  inet_aton (http_address h) = false → valid_fd socket → open_fds s = ∅ →
  own_sockets (listens (setup (configs_ m))) → c ∈ listens (setup (configs_ m)) →
  watched_fd c = true → its_handle c = socket →
  let s' := run_setup m s in
  http_server_ s' = Some socket ∧ open_fds s' = ∅ ∧
  (∃ t', table M (sock_selector_ s') t' ∧ t' !! socket = Some (service_self (config_port c))) ∧
  (http_destroyed s').2 = Some (its_handle c) ∧
  ∃ t', table M (sock_selector_ (http_destroyed s').1) t' ∧ t' !! its_handle c = None.
Proof.
  intros Hs Ht Hm He Ha Hv Hf Ho Hc Hw Hfd. cbn zeta.
  destruct (setup_http_spec h s t He (proj1 Hv) Hv Ht) as (Hh & _ & Hof).
  assert (∀ steps s, http_server_ (foldl setup_step s steps) = http_server_ s ∧
                     open_fds (foldl setup_step s steps) = open_fds s) as Hkeep.
  { clear. intros steps. induction steps as [|step steps IH]; intros s; [done|]. cbn [foldl].
    rewrite !(proj1 (IH _)), !(proj2 (IH _)). destruct step as [c|c]; [|done].
    unfold setup_step, listen, emplace_server, start_stun. cbv beta iota zeta.
    destruct (bind _ _ _) as [e [|]]; [|done]. cbn [negb].
    case_bool_decide; [|destruct (request_stun_binding _ _ _ _) as [e' [|]]]; by destruct (_ !! _). }
  destruct (Hkeep (setup (configs_ m)) (setup_http_server (http_config_ m) s)) as [E1 E2].
  destruct (setup_serves m s t Hs Ht Hv) as [_ Hserve].
  destruct (Hserve Ho) as (_ & t' & Ht' & Hall). destruct (Hall c Hc) as [_ Hcb].
  specialize (Hcb Hw). unfold run_setup in *. rewrite Hm in *. rewrite E1, E2, Hh, Hof, Ha, Hf.
  split_and!; [done|set_solver| | |].
  - exists t'. by rewrite <-Hfd.
  - unfold http_destroyed. rewrite E1, Hh. destruct (Z.eqb_spec socket (-1)) as [E|].
    + destruct Hv. lia.
    + by rewrite Hfd.
  - exists (delete socket t'). rewrite Hfd, lookup_delete_eq. split; [|done].
    unfold http_destroyed. rewrite E1, Hh. destruct (Z.eqb_spec socket (-1)) as [E|]; [destruct Hv; lia|].
    cbn. by apply (command_table M _ t' (RemoveFd socket)).
Qed.
End startup.

(** ** At three servers *)

Section example.
#[local] Existing Instance two_transports.
#[local] Instance laws32 : KeyedMapLaws 32 offset_map := offset_map_laws 32 eq_refl.

(** A server is its port; its descriptor is the port's last digits.  Port 5057
    cannot be bound; the HTTP server's socket would be descriptor 55. *)
#[local] Instance small_enet : EnetServers := {|
  EnetServer := option Z;
  new_server := None;
  bind _ port _ := (Some port, negb (port =? 5057));
  request_stun_binding e _ _ _ := (e, true);
  keepalive_stun_binding e := (e, true);
  native_handle e := match e with Some p => p - 5000 | None => 0 end;
|}.
#[local] Instance small_system : System := {|
  epoll_add _ := true;
  socket := 55;
  inet_aton a := String.eqb a "0.0.0.0";
  bind_socket _ _ := true;
  listen_socket := true;
|}.

Definition master_config : ServerConfig :=
  default_server <| config_type := MasterServer |> <| config_port := 5055 |>
    <| stun_server_host := "stun" |>.
Definition game_config : ServerConfig :=
  default_server <| config_type := GameServer |> <| config_port := 5056 |>.
Definition name_config : ServerConfig :=
  default_server <| config_type := NameServer |> <| config_port := 5057 |>.
Definition small_manager (configs : list ServerConfig) : Manager :=
  construct (default_config <| servers := configs |> <| http := Some (mkHttpConfig true "localhost" 8080) |>)
    (mkIPC INVALID_OS_SOCKET INVALID_OS_SOCKET [] []).
Definition three : Manager := small_manager [master_config; game_config; name_config].
Definition before : Setup offset_map := mkSetup offset_map ∅ (new_selector offset_map) [] None ∅ [].

Abbreviation after m := (run_setup offset_map (λ _, 7) true m before).

(** Two servers for one port are one server, with the second's handler. *)
Example one_port_one_server :
  handler_for offset_map (after (small_manager [master_config; game_config <| config_port := 5055 |>])) 5055
  = Some (Some GameServerHandler, false).
Proof. vm_compute. reflexivity. Qed.

Lemma three_own_sockets : own_sockets true (listens (setup (configs_ three))).
Proof.
  split_and!.
  - apply (bool_decide_unpack _). by vm_compute.
  - repeat constructor; by vm_compute.
  - intros c c' Hc Hc'. change (listens _) with [master_config; game_config; name_config] in Hc, Hc'.
    rewrite !elem_of_cons, elem_of_nil in Hc, Hc'.
    destruct Hc as [->|[->|[->|[]]]], Hc' as [->|[->|[->|[]]]]; by vm_compute.
Qed.

Lemma small_socket : valid_fd socket.
Proof. unfold valid_fd. cbn [socket small_system]. lia. Qed.

Lemma setup_serves_witness :
  servers_ offset_map (after three) !! 5055 = Some (its_listener true master_config) ∧
  ∃ t', table offset_map (sock_selector_ offset_map (after three)) t' ∧ t' !! 56 = Some (service_self 5056).
Proof.
  destruct (setup_serves offset_map (λ _, 7) true three before ∅ eq_refl (new_selector_table offset_map)
    small_socket) as [_ Hs].
  destruct (Hs three_own_sockets) as (_ & t' & Ht & Hall). split.
  - apply (Hall master_config). change (listens _) with [master_config; game_config; name_config]. left.
  - exists t'. split; [exact Ht|]. apply (Hall game_config).
    + change (listens _) with [master_config; game_config; name_config]. right. left.
    + reflexivity.
Defined.

Lemma bindings_kept_alive_witness :
  keepalives 5055 (scheduled_tasks_ offset_map (after three)) = 1%nat.
Proof.
  apply (bindings_kept_alive offset_map (λ _, 7) true three before (after three) ∅ master_config
    eq_refl eq_refl (new_selector_table offset_map) small_socket three_own_sockets).
  - repeat constructor; by vm_compute.
  - change (listens _) with [master_config; game_config; name_config]. left.
  - apply rtc_refl.
Defined.

Lemma closed_descriptor_kept_witness :
  (http_destroyed offset_map (after three)).2 = Some 55.
Proof.
  apply (closed_descriptor_kept offset_map (λ _, 7) true three before ∅ (mkHttpConfig true "localhost" 8080)
    master_config eq_refl (new_selector_table offset_map) eq_refl eq_refl (eq_refl : @inet_aton small_system "localhost" = false) small_socket
    eq_refl three_own_sockets); [|reflexivity|reflexivity].
  change (listens _) with [master_config; game_config; name_config]. left.
Defined.
End example.
