(* ===== verification/HttpText.v ===== *)
(** * Text handling of the HTTP server

    Models the conversions of [http_server.cpp] that work on characters:
    bytes in hexadecimal and the decoding of a request path. *)

From S2P Require Import Prelude.
From Stdlib Require Import Ascii.
From Stdlib Require String.
Open Scope Z_scope.

(** ** Hexadecimal *)

Definition hex_digits : string := "0123456789ABCDEF".

(** [hex[i]] *)
Definition hex_digit (i : Z) : ascii :=
  match String.get (Z.to_nat i) hex_digits with Some c => c | None => Ascii.zero end.

(** <src/http_server.cpp:86-95 bytes_to_hex> *)
Fixpoint bytes_to_hex (bytes : list Z) : string :=
  match bytes with
  | [] => EmptyString
  | b :: bytes =>
      String (hex_digit (Z.shiftr b 4)) (String (hex_digit (Z.land b 0x0F)) (bytes_to_hex bytes))
  end.

(** The value of a digit, in either case. *)
Definition digit_value (c : ascii) : option Z :=
  let n := code_of c in
  if (48 <=? n) && (n <=? 57) then Some (n - 48)
  else if (97 <=? n) && (n <=? 102) then Some (n - 87)
  else if (65 <=? n) && (n <=? 70) then Some (n - 55)
  else None.

(** [std::stoi(hex, nullptr, 16)] of two characters, when both pass
    [is_hex]. *)
Definition hex_pair (a b : ascii) : option Z :=
  match digit_value a, digit_value b with
  | Some x, Some y => Some (16 * x + y)
  | _, _ => None
  end.

(** ** Paths *)

(** <src/http_server.cpp:97-120 url_decode_in_place> *)
Fixpoint url_decode (path : string) : string :=
  match path with
  | EmptyString => EmptyString
  | String c rest =>
      if bool_decide (c = "+"%char) then String " "%char (url_decode rest)
      else if bool_decide (c = "%"%char) then
        match rest with
        | String a (String b rest') =>
            match hex_pair a b with
            | Some z => String (char_of z) (url_decode rest')
            | None => String "%"%char (url_decode rest)
            end
        | _ => String c (url_decode rest)
        end
      else String c (url_decode rest)
  end.

(** ** Reference: percent encoding *)

(** A character that stands for itself. *)
Definition plain (c : ascii) : bool :=
  negb (bool_decide (c = "%"%char)) && negb (bool_decide (c = "+"%char)).

(** Encoding with any choice [keep] of plain characters left alone. *)
Fixpoint url_encode (keep : ascii → bool) (s : string) : string :=
  match s with
  | EmptyString => EmptyString
  | String c s =>
      if keep c && plain c then String c (url_encode keep s)
      else String "%"%char (String (hex_digit (Z.shiftr (code_of c) 4))
             (String (hex_digit (Z.land (code_of c) 0x0F)) (url_encode keep s)))
  end.

(** Every byte survives its two digits. *)
Lemma hex_pair_digits b :
  0 ≤ b < 256 → hex_pair (hex_digit (Z.shiftr b 4)) (hex_digit (Z.land b 0x0F)) = Some b.
Proof.
  intros Hb.
  assert (forallb (λ n, bool_decide (hex_pair (hex_digit (Z.shiftr (Z.of_nat n) 4))
    (hex_digit (Z.land (Z.of_nat n) 0x0F)) = Some (Z.of_nat n))) (seq 0 256) = true) as Hall
    by (vm_compute; reflexivity).
  rewrite forallb_forall in Hall. specialize (Hall (Z.to_nat b)).
  rewrite bool_decide_eq_true, Z2Nat.id in Hall by lia. apply Hall, in_seq. lia.
Qed.

(** Decoding a path gives back what any percent encoding of it encoded,
    whichever characters the encoder leaves alone.  (A path is decoded before
    it is split, so an encoded slash still separates segments.) *)
Theorem url_decode_encode keep s : url_decode (url_encode keep s) = s.
Proof.
  induction s as [|c s IH]; [done|]. cbn [url_encode]. destruct (keep c && plain c) eqn:E.
  - apply andb_true_iff in E as [_ E]. unfold plain in E. apply andb_true_iff in E as [E1 E2].
    apply negb_true_iff in E1, E2. cbn [url_decode]. rewrite E2, E1. by rewrite IH.
  - cbn [url_decode].
    assert (bool_decide ("%"%char = "+"%char) = false) as -> by done.
    rewrite bool_decide_eq_true_2 by done.
    rewrite hex_pair_digits by apply code_range. by rewrite char_code, IH.
Qed.

(** Decoding never makes a path longer. *)
Lemma url_decode_length s : (String.length (url_decode s) ≤ String.length s)%nat.
Proof.
  induction s as [s IH] using (induction_ltof1 _ String.length). unfold ltof in IH.
  destruct s as [|c s]; [done|]. cbn [url_decode].
  pose proof (IH s) as Hs. cbn [String.length] in *.
  case_bool_decide; [cbn; lia|]. case_bool_decide; [|cbn; lia].
  destruct s as [|a [|b s]]; [cbn in *; lia..|].
  destruct (hex_pair a b); cbn [String.length] in *; [|lia].
  pose proof (IH s). lia.
Qed.

(** The hexadecimal form can be read back. *)
Fixpoint hex_to_bytes (s : string) : list Z :=
  match s with
  | String a (String b s) =>
      match hex_pair a b with Some z => z :: hex_to_bytes s | None => [] end
  | _ => []
  end.

Theorem hex_roundtrip bytes :
  Forall (λ b, 0 ≤ b < 256) bytes → hex_to_bytes (bytes_to_hex bytes) = bytes.
Proof. induction 1 as [|b l Hb _ IH]; [done|]. cbn. by rewrite hex_pair_digits, IH by done. Qed.
