(* ===== verification/HttpBatch.v ===== *)
(** * Batches of HTTP requests

    Models [HttpServer::execute_batch] of [http_server.cpp]: the steps of a
    batch are requests whose paths may refer to the results of earlier steps,
    one at a time or, with a wildcard, one request per element of an array.
    JSON values are a tree; parsing, printing and looking a pointer up are the
    JSON library's. *)

From S2P Require Import Prelude.
From Stdlib Require String.
Open Scope Z_scope.

(** A JSON value; the members of an object in the order of their names. *)
#[local] Unset Elimination Schemes.
Inductive Json :=
  | JNull
  | JBool (b : bool)
  | JNumber (n : Z)
  | JString (s : string)
  | JArray (l : list Json)
  | JObject (members : list (string * Json)).
#[local] Set Elimination Schemes.

(** A member of an object. *)
Fixpoint member (name : string) (members : list (string * Json)) : option Json :=
  match members with
  | [] => None
  | (n, j) :: members => if bool_decide (n = name) then Some j else member name members
  end.

(** [at(json_pointer)], [dump] (which refuses strings that are not UTF-8) and
    [parse]; failures carry [what()].  [json_error] is what [dump] makes of
    an object with the one member [error], an ASCII message. *)
Class JsonLib := {
  json_at : Json → string → fallible string Json;
  json_dump : Json → fallible string string;
  json_parse : string → fallible string Json;
  json_error : string → string;
}.

(** How a batch as a whole ends: with the responses of its steps, with an
    exception of the JSON library, or with another one. *)
Inductive BatchEnd :=
  | Responses (l : list Json)
  | BadJson
  | Refused (what : string).

Section batch.
Context `{JsonLib}.

(** [route_request(method, path)]; failures carry [what()]. *)
Variable route : string → string → fallible string Json.

Implicit Types (results : list Json) (paths : list string).

(** [s.find(needle, from)] *)
Definition find_from (needle : string) (from : nat) (s : string) : option nat :=
  String.index from needle s.

(** <src/http_server.cpp:559-568 HttpServer::execute_batch>
    The template strings of a path, left to right; every round moves
    [start_pos] forward. *)
Fixpoint extract_templates (fuel : nat) (raw_path : string) (start_pos : nat) : list string :=
  match fuel with
  | O => []
  | S fuel =>
      match find_from "{$steps" start_pos raw_path with
      | None => []
      | Some start_pos =>
          match find_from "}" start_pos raw_path with
          | None => []
          | Some end_pos =>
              String.substring start_pos (end_pos - start_pos + 1) raw_path
              :: extract_templates fuel raw_path (S end_pos)
          end
      end
  end.
Definition templates_of (raw_path : string) : list string :=
  extract_templates (S (String.length raw_path)) raw_path 0.

(** <src/http_server.cpp:591-591 HttpServer::execute_batch> *)
Definition resolved (val : Json) : fallible string string :=
  match val with JString s => inl s | _ => json_dump val end.

(** <src/http_server.cpp:594-597 HttpServer::execute_batch>
    The first occurrence of the template gives way to the value. *)
Definition replace_template (tmpl val path : string) : string :=
  match find_from tmpl 0 path with
  | Some pos =>
      String.substring 0 pos path +:+ val +:+
      String.substring (pos + String.length tmpl)
        (String.length path - (pos + String.length tmpl)) path
  | None => path
  end.

(** <src/http_server.cpp:589-600 HttpServer::execute_batch>
    One new path for each element and each path so far. *)
Fixpoint expand_items (tmpl sub_ptr : string) paths (items : list Json) :
    fallible string (list string) :=
  match items with
  | [] => inl []
  | item :: items =>
      val ← (if bool_decide (sub_ptr = EmptyString) then inl item else json_at item sub_ptr);
      resolved_val ← resolved val;
      rest ← expand_items tmpl sub_ptr paths items;
      inl ((replace_template tmpl resolved_val <$> paths) ++ rest)
  end.

(** <src/http_server.cpp:573-619 HttpServer::execute_batch>
    One template. *)
Definition expand_template results (tmpl : string) paths : fallible string (list string) :=
  let ptr_str := String.substring 7 (String.length tmpl - 8) tmpl in
  new_paths ←
    match find_from "/*" 0 ptr_str with
    | Some wildcard_pos =>
        let base_ptr := String.substring 0 wildcard_pos ptr_str in
        let sub_ptr := String.substring (wildcard_pos + 2)
                         (String.length ptr_str - (wildcard_pos + 2)) ptr_str in
        base_arr ← json_at (JArray results) base_ptr;
        match base_arr with
        | JArray items => expand_items tmpl sub_ptr paths items
        | _ => inr "Wildcard base must be an array"
        end
    | None =>
        val ← json_at (JArray results) ptr_str;
        resolved_val ← resolved val;
        inl (replace_template tmpl resolved_val <$> paths)
    end;
  if (50 <? length new_paths)%nat
  then inr "Batch fan-out limit exceeded (max 50)" else inl new_paths.

Fixpoint expand_paths results (templates : list string) paths :
    fallible string (list string) :=
  match templates with
  | [] => inl paths
  | tmpl :: templates =>
      paths ← expand_template results tmpl paths;
      expand_paths results templates paths
  end.

(** <src/http_server.cpp:627-637 HttpServer::execute_batch>
    The requests made are recorded with the result; arrays are flattened. *)
Fixpoint route_each (method : string) paths :
    fallible string (list Json) * list (string * string) :=
  match paths with
  | [] => (inl [], [])
  | p :: paths =>
      match route method p with
      | inr e => (inr e, [(method, p)])
      | inl res =>
          let '(rest, made) := route_each method paths in
          (rest ← rest; inl (match res with JArray items => items | _ => [res] end ++ rest),
           (method, p) :: made)
      end
  end.

(** <src/http_server.cpp:622-638 HttpServer::execute_batch> *)
Definition run_paths (method : string) paths :
    fallible string Json * list (string * string) :=
  match paths with
  | [p] => (route method p, [(method, p)])
  | _ => let '(r, made) := route_each method paths in (l ← r; inl (JArray l), made)
  end.

(** <src/http_server.cpp:558-640 HttpServer::execute_batch>
    The [try] block of one step, up to its result. *)
Definition run_step results (method raw_path : string) :
    fallible string Json * list (string * string) :=
  match expand_paths results (templates_of raw_path) [raw_path] with
  | inr e => (inr e, [])
  | inl paths => run_paths method paths
  end.

(** <src/http_server.cpp:555-556 HttpServer::execute_batch>
    [step.value("method", "GET")] and [step.at("path").get<std::string>()],
    which throw an exception of the JSON library. *)
Definition read_step (step : Json) : option (string * string) :=
  match step with
  | JObject m =>
      match member "method" m, member "path" m with
      | None, Some (JString path) => Some ("GET", path)
      | Some (JString method), Some (JString path) => Some (method, path)
      | _, _ => None
      end
  | _ => None
  end.

Definition ok_response (i : nat) (body : Json) : Json :=
  JObject [("body", body); ("status", JNumber 200); ("step", JNumber (Z.of_nat i))].
Definition error_response (i : nat) (what : string) : Json :=
  JObject [("error", JString what); ("status", JNumber 500); ("step", JNumber (Z.of_nat i))].

(** <src/http_server.cpp:553-647 HttpServer::execute_batch>
    The steps from the [i]-th on; [None] when reading a step throws. *)
Fixpoint run_steps (i : nat) results (steps : list Json) :
    option (list Json) * list (string * string) :=
  match steps with
  | [] => (Some [], [])
  | step :: steps =>
      match read_step step with
      | None => (None, [])
      | Some (method, raw_path) =>
          let '(r, made) := run_step results method raw_path in
          match r with
          | inr e => (Some [error_response i e], made)
          | inl step_result =>
              let '(rest, later) := run_steps (S i) (results ++ [step_result]) steps in
              (cons (ok_response i step_result) <$> rest, made ++ later)
          end
      end
  end.

(** <src/http_server.cpp:538-650 HttpServer::execute_batch> *)
Definition execute_batch (batch_req : Json) : BatchEnd * list (string * string) :=
  match batch_req with
  | JObject m =>
      match member "steps" m with
      | Some (JArray steps) =>
          if (25 <? length steps)%nat
          then (Refused "Batch limit exceeded (max 25 steps)", [])
          else match run_steps 0 [] steps with
               | (Some responses, made) => (Responses responses, made)
               | (None, made) => (BadJson, made)
               end
      | _ => (Refused "Batch request must contain a 'steps' array", [])
      end
  | _ => (Refused "Batch request must contain a 'steps' array", [])
  end.
End batch.

(** ** Bounds *)

Lemma prefix_length s1 s2 :
  String.prefix s1 s2 = true → (String.length s1 ≤ String.length s2)%nat.
Proof.
  revert s2. induction s1 as [|c s1 IH]; intros [|d s2]; cbn; try done; [lia..|].
  destruct (Ascii.ascii_dec c d); [|done]. intros Hp%IH. lia.
Qed.

Lemma index_bounds n s1 s2 m :
  String.index n s1 s2 = Some m →
  (n ≤ m ∧ m + String.length s1 ≤ String.length s2)%nat.
Proof.
  revert n m. induction s2 as [|c s2 IH]; intros n m; cbn [String.index String.length].
  - destruct n, s1; try done. intros [= <-]. cbn. lia.
  - destruct n as [|n].
    + destruct (String.prefix s1 (String c s2)) eqn:Hp.
      * intros [= <-]. apply prefix_length in Hp. cbn in Hp. lia.
      * destruct (String.index 0 s1 s2) eqn:Hi; [|done]. intros [= <-]. apply IH in Hi. lia.
    + destruct (String.index n s1 s2) eqn:Hi; [|done]. intros [= <-]. apply IH in Hi. lia.
Qed.

Lemma extract_templates_step fuel raw start_pos :
  extract_templates (S fuel) raw start_pos =
    match find_from "{$steps" start_pos raw with
    | None => []
    | Some s =>
        match find_from "}" s raw with
        | None => []
        | Some e => String.substring s (e - s + 1) raw :: extract_templates fuel raw (S e)
        end
    end.
Proof. done. Qed.

(** The search for templates ends before its fuel does. *)
Lemma extract_templates_enough fuel raw start_pos :
  (String.length raw < fuel + start_pos)%nat →
  extract_templates (S fuel) raw start_pos = extract_templates fuel raw start_pos.
Proof.
  revert start_pos. induction fuel as [|fuel IH]; intros start_pos Hf;
    rewrite extract_templates_step; [|rewrite extract_templates_step];
    destruct (find_from "{$steps" start_pos raw) as [s|] eqn:Hs; try done;
    pose proof (index_bounds _ _ _ _ Hs).
  - lia.
  - destruct (find_from "}" s raw) as [e|] eqn:He; [|done].
    apply index_bounds in He. f_equal. apply IH. lia.
Qed.

Section properties.
Context `{JsonLib}.
Context (route : string → string → fallible string Json).
Implicit Types (results : list Json) (paths : list string).

Lemma expand_template_bound results tmpl paths paths' :
  expand_template results tmpl paths = inl paths' → (length paths' ≤ 50)%nat.
Proof.
  unfold expand_template. intros (l & _ & Hl)%fallible_bind_inl. revert Hl.
  destruct (Nat.ltb_spec 50 (length l)); [done|]. by intros [= <-].
Qed.

Lemma expand_paths_bound results templates paths paths' :
  (length paths ≤ 50)%nat → expand_paths results templates paths = inl paths' →
  (length paths' ≤ 50)%nat.
Proof.
  revert paths. induction templates as [|tmpl templates IH]; intros paths Hp; cbn.
  - by intros [= <-].
  - intros (l & Hl%expand_template_bound & Hr)%fallible_bind_inl. by eapply IH.
Qed.

Lemma route_each_made method paths : (length (route_each route method paths).2 ≤ length paths)%nat.
Proof.
  induction paths as [|p paths IH]; [done|]. cbn.
  destruct (route method p); [|cbn; lia]. destruct (route_each _ _ _). cbn in *. lia.
Qed.

Lemma run_step_made results method raw_path :
  (length (run_step route results method raw_path).2 ≤ 50)%nat.
Proof.
  unfold run_step. destruct (expand_paths _ _ _) as [paths|] eqn:Hp; [|cbn; lia].
  apply expand_paths_bound in Hp; [|cbn; lia]. unfold run_paths.
  pose proof (route_each_made method paths).
  destruct paths as [|p [|q paths]]; [cbn; lia..|].
  destruct (route_each _ _ _) as [r made]. cbn in *. lia.
Qed.

(** A response that reports success, and one that ends a batch. *)
Definition succeeded (j : Json) : Prop := ∃ i body, j = ok_response i body.
Definition failed (j : Json) : Prop := ∃ i what, j = error_response i what.

Lemma run_steps_bound steps : ∀ i results,
  let '(responses, made) := run_steps route i results steps in
  (length made ≤ 50 * length steps)%nat ∧
  match responses with
  | Some l => (length l ≤ length steps)%nat ∧
              ∃ l', Forall succeeded l' ∧ (l = l' ∧ length l = length steps ∨
                                           ∃ j, failed j ∧ l = l' ++ [j])
  | None => True
  end.
Proof.
  induction steps as [|step steps IH]; intros i results; cbn [run_steps].
  { split; [cbn; lia|]. split; [done|]. exists []. split; [constructor|by left]. }
  destruct (read_step step) as [[method raw_path]|]; [|by split; [cbn; lia|]].
  pose proof (run_step_made results method raw_path) as Hm.
  destruct (run_step _ _ _ _) as [[r|e] made]; cbn [snd] in Hm.
  - specialize (IH (S i) (results ++ [r])). destruct (run_steps _ _ _ _) as [rest later].
    destruct IH as [Hl Hr]. split; [rewrite length_app; cbn; lia|].
    destruct rest as [l|]; [|done]. destruct Hr as (Hlen & l' & Hl' & Hend). cbn [fmap option_fmap option_map].
    split; [cbn; lia|]. exists (ok_response i r :: l').
    split; [constructor; [by eexists _, _|done]|].
    destruct Hend as [[-> Hn]|(j & Hj & ->)]; [left; cbn; auto|right]. by exists j.
  - split; [cbn; lia|]. split; [cbn; lia|]. exists []. split; [constructor|]. right.
    exists (error_response i e). split; [by eexists _, _|done].
Qed.

(** A batch is answered with bounded work: at most 25 steps are run and at
    most 50 requests made for each.  Its responses are those of the steps in
    order, all successes but possibly the last, which then is the failure
    that stopped the batch; without one every step was run. *)
Theorem batch_bounded req :
  let '(e, made) := execute_batch route req in
  (length made ≤ 1250)%nat ∧
  match e with
  | Responses l =>
      (length l ≤ 25)%nat ∧
      ∃ l' steps, req = JObject steps ∧ Forall succeeded l' ∧
        (l = l' ∧ (∃ s, member "steps" steps = Some (JArray s) ∧ length l = length s) ∨
         ∃ j, failed j ∧ l = l' ++ [j])
  | _ => True
  end.
Proof.
  unfold execute_batch. destruct req as [| | | | |m]; try (split; [cbn; lia|done]).
  destruct (member "steps" m) as [[| | | |steps|]|] eqn:Hm; try (split; [cbn; lia|done]).
  destruct (Nat.ltb_spec 25 (length steps)); [by split; [cbn; lia|]|].
  pose proof (run_steps_bound steps 0 []) as Hb. destruct (run_steps _ _ _ _) as [[l|] made].
  - destruct Hb as (Hmade & Hl & l' & Hl' & Hend). split; [lia|]. split; [lia|].
    exists l', m. split; [done|]. split; [done|].
    destruct Hend as [[-> Hn]|Hj]; [left; eauto|by right].
  - destruct Hb as [Hmade _]. by split; [lia|].
Qed.

(** ** Batches without templates *)

(** Reference: one request after the other, until one fails. *)
Fixpoint serial (i : nat) (reqs : list (string * string)) :
    list Json * list (string * string) :=
  match reqs with
  | [] => ([], [])
  | (method, path) :: reqs =>
      match route method path with
      | inr e => ([error_response i e], [(method, path)])
      | inl body =>
          let '(responses, made) := serial (S i) reqs in
          (ok_response i body :: responses, (method, path) :: made)
      end
  end.

(** A step that is read as a request whose path names no template. *)
Definition plain_step (step : Json) (req : string * string) : Prop :=
  read_step step = Some req ∧ find_from "{$steps" 0 req.2 = None.

Lemma plain_steps_serial steps reqs : Forall2 plain_step steps reqs → ∀ i results,
  run_steps route i results steps = (Some (serial i reqs).1, (serial i reqs).2).
Proof.
  induction 1 as [|step [method path] steps reqs [Hr Hf] _ IH]; intros i results; [done|].
  cbn [run_steps serial]. rewrite Hr. unfold run_step, templates_of.
  cbn [extract_templates]. cbn [snd] in Hf. rewrite Hf. cbn [expand_paths run_paths].
  destruct (route method path) as [body|e]; [|done]. rewrite IH.
  by destruct (serial (S i) reqs).
Qed.

(** A batch whose paths name no template is a sequence of requests: each is
    routed as it is, in order, and the batch stops at the first that fails. *)
Theorem plain_batch_is_serial steps reqs :
  Forall2 plain_step steps reqs → (length steps ≤ 25)%nat →
  execute_batch route (JObject [("steps", JArray steps)]) =
    (Responses (serial 0 reqs).1, (serial 0 reqs).2).
Proof.
  intros Hs Hl. unfold execute_batch. cbn [member]. rewrite bool_decide_eq_true_2 by done.
  destruct (Nat.ltb_spec 25 (length steps)); [lia|]. by rewrite (plain_steps_serial _ _ Hs).
Qed.
End properties.
