(* ===== verification/HttpServer.v ===== *)
(** * The HTTP server's connections

    Models the service loop of [http_server.cpp]: accepting, receiving up to a
    limit, answering, sending what the socket takes, and closing.  The
    answers of the operating system are explicit; the parser of requests is
    the protocol library's, the router ([route_request]) a parameter. *)

From stdpp Require Import pretty.
From S2P Require Import Prelude HttpBatch.
From Stdlib Require String Ascii.
Open Scope Z_scope.

(** <include/luxon/server/http_server.hpp:50-58 HttpServer::HttpClient>
    Times are readings of the steady clock, in seconds. *)
Record HttpClient := mkClient {
  fd : Z;
  request_buffer : string;
  write_buffer : string;
  mark_for_delete : bool;
  close_after_write : bool;
  shutdown_sent : bool;
  last_activity : Z;
}.
#[export] Instance eta_HttpClient : Eta HttpClient := λ c,
  mkClient (fd c) (request_buffer c) (write_buffer c) (mark_for_delete c)
    (close_after_write c) (shutdown_sent c) (last_activity c).

(** <include/luxon/server/http_server.hpp:60-65 HttpServer> *)
Record HttpServer := mkServer {
  server_fd_ : Z;
  clients_ : list HttpClient;
  servicable_fds_ : list Z;
}.
#[export] Instance eta_HttpServer : Eta HttpServer := λ s,
  mkServer (server_fd_ s) (clients_ s) (servicable_fds_ s).

(** <include/luxon/server/http_server.hpp:47-48 HttpServer> *)
Definition MAX_PAYLOAD_SIZE : Z := 64 * 1024.
Definition MAX_CLIENTS : nat := 256.
(** <src/http_server.cpp:254-254 HttpServer::service_now> *)
Definition IDLE_TIMEOUT : Z := 30.

Abbreviation size_of s := (Z.of_nat (String.length s)).

(** What [recv] and [send] answer; [Received] is a positive count, and [Sent]
    a count, zero included. *)
Inductive RecvAnswer := Received (data : string) | Closed | RecvWouldBlock | RecvError.
Inductive SendAnswer := Sent (n : nat) | SendWouldBlock | SendError.

(** One round's answers: [accept], and [recv] and [send] for a descriptor. *)
Record Answers := mkAnswers {
  accepted : Z;
  received : Z → RecvAnswer;
  taken : Z → SendAnswer;
}.

(** What the server does outside: [Opened] and [Released] are [on_create_fd],
    and [CLOSE_SOCKET] with [on_delete_fd]. *)
Inductive HttpEvent :=
  | Opened (fd : Z) | Released (fd : Z) | ShutDown (fd : Z) | Wrote (fd : Z) (data : string).

(** ** Responses *)

(** [luxon::HttpRequest] and its parser, and the files built into the server. *)
Record HttpRequest := mkRequest { method : string; req_path : string; body : string }.
Class HttpLib := {
  parse_raw_http : string → option HttpRequest;
  build_time : string;
  index_html : string;
  stats_html : string;
  style_css : string;
  prometheus_metrics : string;
}.

Definition newline : string :=
  String (Ascii.ascii_of_nat 13) (String (Ascii.ascii_of_nat 10) EmptyString).

(** How [route_request] ends: [OutOfRange] is [std::out_of_range]. *)
Inductive Routed := Found (j : Json) | OutOfRange (what : string) | Failed (what : string).

Section service.
Context `{JsonLib, HttpLib}.
Variable route_request : string → string → Routed.

(** <src/http_server.cpp:410-416 HttpServer::send_text_response> *)
Definition response_text (status : Z) (reason content_type body : string) : string :=
  "HTTP/1.1 " +:+ pretty status +:+ " " +:+ reason +:+ newline +:+
  "Content-Type: " +:+ content_type +:+ newline +:+
  "Content-Length: " +:+ pretty (String.length body) +:+ newline +:+
  "Connection: close" +:+ newline +:+
  "Server: LuxonServer (" +:+ build_time +:+ ")" +:+ newline +:+ newline +:+ body.

(** <src/http_server.cpp:341-346 HttpServer::queue_data> *)
Definition queue_data (c : HttpClient) (data : string) (close_connection : bool) : HttpClient :=
  c <| write_buffer ::= λ w, w +:+ data |> <| close_after_write := close_connection |>.

(** <src/http_server.cpp:408-417 HttpServer::send_text_response> *)
Definition text_response (status : Z) (body content_type : string) : string :=
  response_text status "OK" content_type body.

(** <src/http_server.cpp:419-419 HttpServer::send_json_response> *)
Definition json_response (status : Z) (j : Json) : fallible string string :=
  text ← json_dump j;
  inl (text_response status text "application/json").

(** <src/http_server.cpp:421-433 HttpServer::send_error> *)
Definition error_text (status : Z) (message : string) : string :=
  response_text status "Error" "application/json" (json_error message).

(** The router as a batch uses it: every exception is caught as one. *)
Definition batch_route (m p : string) : fallible string Json :=
  match route_request m p with
  | Found j => inl j
  | OutOfRange what | Failed what => inr what
  end.

(** <src/http_server.cpp:358-368 HttpServer::handle_client_data> *)
Definition answer_batch (text : string) : string :=
  match json_parse text with
  | inr _ => error_text 400 "Invalid JSON payload"
  | inl req =>
      match (execute_batch batch_route req).1 with
      | Responses l =>
          match json_response 200 (JArray l) with
          | inl text => text
          | inr _ => error_text 400 "Invalid JSON payload"
          end
      | BadJson => error_text 400 "Invalid JSON payload"
      | Refused what => error_text 500 ("Internal Error: " +:+ what)
      end
  end.

(** <src/http_server.cpp:370-405 HttpServer::handle_client_data> *)
Definition answer_request (req : HttpRequest) : string :=
  let get := bool_decide (method req = "GET") in
  if get && bool_decide (req_path req = "/metrics")
  then text_response 200 prometheus_metrics "text/plain; version=0.0.4"
  else
    let '(content, content_type) :=
      if get && bool_decide (req_path req = "/") then (index_html, "text/html")
      else if get && bool_decide (req_path req = "/stats") then (stats_html, "text/html")
      else if get && bool_decide (req_path req = "/style.css") then (style_css, "text/css")
      else (EmptyString, "text/html") in
    if bool_decide (content = EmptyString) then
      match route_request (method req) (req_path req) with
      | Found j =>
          match json_response 200 j with
          | inl text => text
          | inr what => error_text 500 ("Internal Error: " +:+ what)
          end
      | OutOfRange _ => error_text 404 "Not Found"
      | Failed what => error_text 500 ("Internal Error: " +:+ what)
      end
    else response_text 200 "OK" content_type content.

(** <src/http_server.cpp:348-406 HttpServer::handle_client_data>
    The response to the bytes received; every branch queues one and asks for
    the connection to be closed. *)
Definition answer (request : string) : string :=
  match parse_raw_http request with
  | None => error_text 400 "Bad Request"
  | Some req =>
      if bool_decide (method req = "POST") && bool_decide (req_path req = "/batch")
      then answer_batch (body req) else answer_request req
  end.

Definition handle_client_data (c : HttpClient) : HttpClient :=
  queue_data c (answer (request_buffer c)) true.

Definition too_large : string := error_text 413 "Payload Too Large".

(** ** One round *)

(** <src/http_server.cpp:280-304 HttpServer::service_now>
    Incoming data; the flag tells that the rest of the round is skipped. *)
Definition receive_step (now : Z) (answer : RecvAnswer) (c : HttpClient) : HttpClient * bool :=
  match answer with
  | Received data =>
      let c := c <| last_activity := now |> in
      if MAX_PAYLOAD_SIZE <? size_of (request_buffer c) + size_of data
      then (queue_data c too_large true, true)
      else
        let c := c <| request_buffer ::= λ b, b +:+ data |> in
        if negb (close_after_write c)
           && bool_decide (is_Some (find_from (newline +:+ newline) 0 (request_buffer c)))
        then (handle_client_data c, false) else (c, false)
  | Closed | RecvError => (c <| mark_for_delete := true |>, false)
  | RecvWouldBlock => (c, false)
  end.

(** [write_buffer.erase(0, sent)] *)
Fixpoint drop_chars (n : nat) (s : string) : string :=
  match n, s with S n, String _ s => drop_chars n s | _, _ => s end.
Fixpoint take_chars (n : nat) (s : string) : string :=
  match n, s with S n, String c s => String c (take_chars n s) | _, _ => EmptyString end.

(** <src/http_server.cpp:306-315 HttpServer::service_now>
    Outgoing data. *)
Definition send_step (now : Z) (answer : SendAnswer) (c : HttpClient) :
    HttpClient * list HttpEvent :=
  if bool_decide (write_buffer c = EmptyString) then (c, [])
  else match answer with
  | Sent O => (c, [])
  | Sent n =>
      (c <| last_activity := now |> <| write_buffer ::= drop_chars n |>,
       [Wrote (fd c) (take_chars n (write_buffer c))])
  | SendWouldBlock => (c, [])
  | SendError => (c <| mark_for_delete := true |>, [])
  end.

(** <src/http_server.cpp:317-323 HttpServer::service_now> *)
Definition shutdown_step (c : HttpClient) : HttpClient * list HttpEvent :=
  if close_after_write c && bool_decide (write_buffer c = EmptyString) && negb (shutdown_sent c)
  then (c <| shutdown_sent := true |>, [ShutDown (fd c)]) else (c, []).

(** <src/http_server.cpp:270-327 HttpServer::service_now>
    The body of the loop over the clients. *)
Definition service_client (now : Z) (ready : list Z) (os : Answers) (c : HttpClient) :
    HttpClient * list HttpEvent :=
  if mark_for_delete c then (c, [])
  else if IDLE_TIMEOUT <? now - last_activity c then (c <| mark_for_delete := true |>, [])
  else
    let '(c, skip) :=
      if bool_decide (fd c ∈ ready) then receive_step now (received os (fd c)) c else (c, false) in
    if skip : bool then (c, [])
    else
      let '(c, sent) := send_step now (taken os (fd c)) c in
      let '(c, shut) := shutdown_step c in
      (c, sent ++ shut).

(** <src/http_server.cpp:256-267 HttpServer::service_now> *)
Definition accept_client (now : Z) (os : Answers) (s : HttpServer) :
    HttpServer * list HttpEvent :=
  if (length (clients_ s) <? MAX_CLIENTS)%nat && bool_decide (server_fd_ s ∈ servicable_fds_ s)
     && (0 <=? accepted os)
  then (s <| clients_ ::= λ l,
              l ++ [mkClient (accepted os) EmptyString EmptyString false false false now] |>,
        [Opened (accepted os)])
  else (s, []).

(** <src/http_server.cpp:329-336 HttpServer::service_now>
    The marked clients leave. *)
Definition sweep (s : HttpServer) : HttpServer * list HttpEvent :=
  (s <| clients_ ::= remove_if mark_for_delete |>,
   (Released ∘ fd) <$> filter (λ c, mark_for_delete c = true) (clients_ s)).

(** <src/http_server.cpp:247-339 HttpServer::service_now> *)
Definition service_now (now : Z) (os : Answers) (s : HttpServer) : HttpServer * list HttpEvent :=
  if server_fd_ s =? -1 then (s, [])
  else
    let '(s, opened) := accept_client now os s in
    let done := service_client now (servicable_fds_ s) os <$> clients_ s in
    let '(s, released) := sweep (s <| clients_ := done.*1 |>) in
    (s <| servicable_fds_ := [] |>, opened ++ mjoin done.*2 ++ released).

(** <src/http_server.cpp:245-245 HttpServer::service_later> *)
Definition service_later (fd : Z) (s : HttpServer) : HttpServer :=
  s <| servicable_fds_ ::= λ l, l ++ [fd] |>.
End service.

(** ** Strings *)

Lemma take_drop_chars n (s : string) : take_chars n s +:+ drop_chars n s = s.
Proof.
  revert s. induction n as [|n IH]; intros [|c s]; [done..|]. exact (f_equal (String c) (IH s)).
Qed.

(** The concatenation of a list of strings. *)
Definition joined (l : list string) : string := foldr String.append EmptyString l.

Lemma joined_app l1 l2 : joined (l1 ++ l2) = joined l1 +:+ joined l2.
Proof.
  unfold joined. induction l1 as [|y l1 IH]; cbn [app foldr]; [done|].
  by rewrite IH, string_app_assoc.
Qed.

Lemma joined_snoc l x : joined (l ++ [x]) = joined l +:+ x.
Proof. rewrite joined_app. f_equal. apply string_app_nil. Qed.

(** ** The life of a connection *)

Section client.
Context `{JsonLib, HttpLib}.
Variable route_request : string → string → Routed.
Implicit Types (c : HttpClient) (replies : list string) (wire : string).

Abbreviation answer := (answer route_request).
Abbreviation service_client := (service_client route_request).

(** What a round writes to the socket. *)
Definition written (events : list HttpEvent) : string :=
  joined ((λ e, match e with Wrote _ data => data | _ => EmptyString end) <$> events).

(** A connection's rounds; the result is the client and what was written. *)
Fixpoint run_client (rounds : list (Z * list Z * Answers)) c wire : HttpClient * string :=
  match rounds with
  | [] => (c, wire)
  | (now, ready, os) :: rounds =>
      let '(c, events) := service_client now ready os c in
      run_client rounds c (wire +:+ written events)
  end.

(** The responses queued for a client that sent [request]: the answer to some
    first part of it, or the complaint about its size, then only complaints. *)
Inductive replies_to (request : string) : list string → Prop :=
  | no_reply : replies_to request []
  | first_answer part rest more :
      request = part +:+ rest → Forall (λ r, r = too_large) more →
      replies_to request (answer part :: more)
  | first_refused more :
      Forall (λ r, r = too_large) more → replies_to request (too_large :: more).

Lemma replies_grow request data replies :
  replies_to request replies → replies_to (request +:+ data) replies.
Proof.
  destruct 1 as [|part rest more -> Hm|more Hm]; [constructor| |by constructor].
  rewrite string_app_assoc. by econstructor.
Qed.

Lemma replies_refused request replies :
  replies_to request replies → replies_to request (replies ++ [too_large]).
Proof.
  destruct 1; cbn; [by constructor|eapply first_answer; [done|]|constructor];
    (apply Forall_app; split; [done|by constructor]).
Qed.

(** What holds of a client after [replies] were queued and [wire] written. *)
Record client_ok c replies wire : Prop := {
  ok_size : size_of (request_buffer c) ≤ MAX_PAYLOAD_SIZE;
  ok_conserved : wire +:+ write_buffer c = joined replies;
  ok_replies : replies_to (request_buffer c) replies;
  ok_closing : close_after_write c = true ↔ replies ≠ [];
  ok_shutdown : shutdown_sent c = true → replies ≠ [];
}.

Lemma queue_ok c replies wire data :
  client_ok c replies wire → replies_to (request_buffer c) (replies ++ [data]) →
  client_ok (queue_data c data true) (replies ++ [data]) wire.
Proof.
  intros [] Hr. split; cbn; try done.
  - by rewrite joined_snoc, <-string_app_assoc, ok_conserved0.
  - split; [by destruct replies|done].
  - by destruct replies.
Qed.

Lemma receive_ok now a c c' skip replies wire :
  client_ok c replies wire → receive_step route_request now a c = (c', skip) →
  ∃ replies', client_ok c' replies' wire.
Proof.
  intros Hok. unfold receive_step. destruct a as [data| | |].
  - cbn [request_buffer set_field]. destruct (Z.ltb_spec MAX_PAYLOAD_SIZE
      (size_of (request_buffer c) + size_of data)) as [Hl|Hl].
    + intros [= <- <-]. exists (replies ++ [too_large]).
      assert (client_ok (c <| last_activity := now |>) replies wire) as Hok'
        by by destruct Hok.
      exact (queue_ok _ _ _ too_large Hok' (replies_refused _ _ (ok_replies _ _ _ Hok'))).
    + assert (client_ok (c <| last_activity := now |>
        <| request_buffer ::= λ b, b +:+ data |>) replies wire) as Hok'.
      { destruct Hok. split; cbn; try done; [rewrite string_length_app; lia|].
        by apply replies_grow. }
      destruct (_ && _) eqn:E; intros [= <- <-]; [|by eexists].
      apply andb_true_iff in E as [E%negb_true_iff _]. cbn in E.
      destruct replies as [|r replies].
      * eexists. eapply (queue_ok _ [] wire); [exact Hok'|].
        eapply (first_answer _ _ EmptyString); [by rewrite string_app_nil|by constructor].
      * destruct Hok. destruct ok_closing0 as [_ Hc]. rewrite Hc in E; done.
  - intros [= <- <-]. exists replies. by destruct Hok.
  - intros [= <- <-]. by exists replies.
  - intros [= <- <-]. exists replies. by destruct Hok.
Qed.

Lemma send_ok now a c c' events replies wire :
  client_ok c replies wire → send_step now a c = (c', events) →
  client_ok c' replies (wire +:+ written events).
Proof.
  intros Hok. unfold send_step. destruct (bool_decide _).
  { intros [= <- <-]. unfold written. cbn. by rewrite string_app_nil. }
  destruct a as [[|n]| |]; intros [= <- <-]; unfold written; cbn [fmap list_fmap joined foldr];
    rewrite ?string_app_nil; try done; [|by destruct Hok].
  destruct Hok. split; try done. cbn [write_buffer set_field].
  rewrite string_app_assoc. pose proof (take_drop_chars (S n) (write_buffer c)) as E.
  cbn in E. by rewrite E.
Qed.

Lemma shutdown_ok c c' events replies wire :
  client_ok c replies wire → shutdown_step c = (c', events) →
  client_ok c' replies wire ∧ written events = EmptyString.
Proof.
  intros Hok. unfold shutdown_step. destruct (_ && _) eqn:E; intros [= <- <-]; [|done].
  apply andb_true_iff in E as [[Hc _]%andb_true_iff _]. split; [|done].
  destruct Hok. split; try done. intros _. by apply ok_closing0.
Qed.

Lemma written_app l1 l2 : written (l1 ++ l2) = written l1 +:+ written l2.
Proof. unfold written. by rewrite fmap_app, joined_app. Qed.

Lemma service_client_ok now ready os c c' events replies wire :
  client_ok c replies wire → service_client now ready os c = (c', events) →
  ∃ replies', client_ok c' replies' (wire +:+ written events).
Proof.
  intros Hok. unfold HttpServer.service_client.
  assert (written [] = EmptyString) as Hnil by done.
  destruct (mark_for_delete c).
  { intros [= <- <-]. exists replies. by rewrite Hnil, string_app_nil. }
  case_match.
  { intros [= <- <-]. exists replies. rewrite Hnil, string_app_nil. by destruct Hok. }
  destruct (if bool_decide _ then _ else _) as [c1 skip] eqn:Hr.
  assert (∃ replies1, client_ok c1 replies1 wire) as [replies1 Hok1].
  { revert Hr. case_match; [by eapply receive_ok|]. intros [= <- <-]. by exists replies. }
  destruct skip.
  { intros [= <- <-]. exists replies1. by rewrite Hnil, string_app_nil. }
  destruct (send_step _ _ _) as [c2 sent] eqn:Hs. pose proof (send_ok _ _ _ _ _ _ _ Hok1 Hs) as Hok2.
  destruct (shutdown_step c2) as [c3 shut] eqn:Hd.
  destruct (shutdown_ok _ _ _ _ _ Hok2 Hd) as [Hok3 Hw].
  intros [= <- <-]. exists replies1. by rewrite written_app, Hw, string_app_nil.
Qed.

Lemma run_client_ok rounds c c' replies wire wire' :
  client_ok c replies wire → run_client rounds c wire = (c', wire') →
  ∃ replies', client_ok c' replies' wire'.
Proof.
  revert c replies wire. induction rounds as [|[[t ready] os] rounds IH];
    intros c replies wire Hok; cbn [run_client].
  - intros [= <- <-]. by exists replies.
  - destruct (service_client _ _ _ _) as [c1 events] eqn:Hc.
    destruct (service_client_ok _ _ _ _ _ _ _ _ Hok Hc) as [replies' Hok']. by eapply IH.
Qed.

(** Whatever arrives on a connection and however the socket takes what is
    sent, the bytes written and those still queued are together the
    responses: the answer to a first part of what the client sent, at most
    one, and complaints about its size.  The request buffer never exceeds its
    limit, and sending is shut down only after a response. *)
Theorem connection_answers_once rounds fd now c wire :
  run_client rounds (mkClient fd EmptyString EmptyString false false false now) EmptyString
    = (c, wire) →
  size_of (request_buffer c) ≤ MAX_PAYLOAD_SIZE ∧
  ∃ replies, wire +:+ write_buffer c = joined replies ∧
    replies_to (request_buffer c) replies ∧
    (close_after_write c = true ↔ replies ≠ []) ∧
    (shutdown_sent c = true → replies ≠ []).
Proof.
  intros Hrun.
  assert (client_ok (mkClient fd EmptyString EmptyString false false false now) [] EmptyString)
    as Hok by (split; cbn; [done|done|constructor|by split|done]).
  destruct (run_client_ok _ _ _ _ _ _ Hok Hrun) as [replies []]. split; [done|]. by exists replies.
Qed.

(** Rounds in each of which [data] arrives on the descriptor, none later than
    the idle limit after the one before. *)
Fixpoint keeps_sending (fd : Z) (data : string) (last : Z)
    (rounds : list (Z * list Z * Answers)) : Prop :=
  match rounds with
  | [] => True
  | (now, ready, os) :: rounds =>
      now - last ≤ IDLE_TIMEOUT ∧ fd ∈ ready ∧ received os fd = Received data ∧
      keeps_sending fd data now rounds
  end.

Lemma refused_round now ready os c data :
  mark_for_delete c = false → now - last_activity c ≤ IDLE_TIMEOUT → fd c ∈ ready →
  received os (fd c) = Received data →
  MAX_PAYLOAD_SIZE < size_of (request_buffer c) + size_of data →
  service_client now ready os c
    = (queue_data (c <| last_activity := now |>) too_large true, []).
Proof.
  intros Hm Ht Hin Hrec Hd. unfold HttpServer.service_client. rewrite Hm.
  destruct (Z.ltb_spec IDLE_TIMEOUT (now - last_activity c)); [lia|].
  rewrite bool_decide_eq_true_2, Hrec by done. unfold receive_step.
  cbn [request_buffer set_field].
  by destruct (Z.ltb_spec MAX_PAYLOAD_SIZE (size_of (request_buffer c) + size_of data)); [|lia].
Qed.

(** A client that has exceeded the limit and goes on sending has another
    complaint queued in every round, and none sent: what the server holds
    for it grows without bound. *)
Theorem flooding_grows_buffer rounds c wire data :
  mark_for_delete c = false →
  MAX_PAYLOAD_SIZE < size_of (request_buffer c) + size_of data →
  keeps_sending (fd c) data (last_activity c) rounds →
  let '(c', wire') := run_client rounds c wire in
  wire' = wire ∧ mark_for_delete c' = false ∧
  size_of (write_buffer c') = size_of (write_buffer c) + len rounds * size_of too_large.
Proof.
  revert c. induction rounds as [|[[now ready] os] rounds IH]; intros c Hm Hd Hr; cbn [run_client].
  { split_and!; [done|done|]. cbn. lia. }
  destruct Hr as (Ht & Hin & Hrec & Hr). rewrite (refused_round _ _ _ _ data) by done.
  unfold written. cbn [fmap list_fmap]. unfold joined at 1. cbn [foldr]. rewrite string_app_nil.
  specialize (IH (queue_data (c <| last_activity := now |>) too_large true)).
  destruct (run_client _ _ _) as [c' wire']. cbn in IH.
  destruct (IH Hm Hd Hr) as (Hw & Hm' & Hsize). split_and!; [done|done|].
  rewrite Hsize, string_length_app. cbn [length]. lia.
Qed.
End client.

(** ** The table of clients *)

Section table.
Context `{JsonLib, HttpLib}.
Variable route_request : string → string → Routed.
Implicit Types (s : HttpServer) (regs : gset Z) (c : HttpClient).

Abbreviation service_client := (service_client route_request).
Abbreviation service_now := (service_now route_request).

(** The descriptors whose owner was told about them and not yet of their end. *)
Definition register (regs : gset Z) (e : HttpEvent) : gset Z :=
  match e with
  | Opened fd => {[fd]} ∪ regs
  | Released fd => regs ∖ {[fd]}
  | _ => regs
  end.
Definition register_all regs (events : list HttpEvent) : gset Z := foldl register regs events.

(** A round: descriptors become ready, then the server is serviced.  The
    system accepts a connection under a descriptor that is not in use. *)
Inductive server_step : HttpServer * gset Z → HttpServer * gset Z → Prop :=
  | server_round s regs ready now os s' events :
      accepted os ∉ regs →
      service_now now os (foldr service_later s ready) = (s', events) →
      server_step (s, regs) (s', register_all regs events).

Definition modest c : Prop := size_of (request_buffer c) ≤ MAX_PAYLOAD_SIZE.

Record books s regs : Prop := {
  books_limit : (length (clients_ s) ≤ MAX_CLIENTS)%nat;
  books_distinct : NoDup (fd <$> clients_ s);
  books_registered z : z ∈ regs ↔ z ∈ fd <$> clients_ s;
  books_clients c : c ∈ clients_ s → mark_for_delete c = false ∧ modest c;
}.

Lemma receive_step_basic now a c c' skip :
  modest c → receive_step route_request now a c = (c', skip) →
  fd c' = fd c ∧ modest c' ∧ (last_activity c' = last_activity c ∨ last_activity c' = now).
Proof.
  unfold receive_step, modest. intros Hm. destruct a as [data| | |];
    try (intros [= <- <-]; cbn; auto).
  cbn [request_buffer set_field]. destruct (Z.ltb_spec MAX_PAYLOAD_SIZE
    (size_of (request_buffer c) + size_of data)); [intros [= <- <-]; cbn; auto|].
  case_match; intros [= <- <-]; cbn; rewrite string_length_app; (split; [done|]);
    (split; [lia|auto]).
Qed.

Lemma send_step_basic now a c c' events :
  send_step now a c = (c', events) →
  fd c' = fd c ∧ request_buffer c' = request_buffer c ∧
  (last_activity c' = last_activity c ∨ last_activity c' = now) ∧
  ∀ regs, register_all regs events = regs.
Proof.
  unfold send_step. destruct (bool_decide _); [intros [= <- <-]; auto|].
  destruct a as [[|n]| |]; intros [= <- <-]; cbn; auto.
Qed.

Lemma shutdown_step_basic c c' events :
  shutdown_step c = (c', events) →
  fd c' = fd c ∧ request_buffer c' = request_buffer c ∧ last_activity c' = last_activity c ∧
  ∀ regs, register_all regs events = regs.
Proof. unfold shutdown_step. case_match; intros [= <- <-]; auto. Qed.

Lemma register_all_app regs l1 l2 :
  register_all regs (l1 ++ l2) = register_all (register_all regs l1) l2.
Proof. apply foldl_app. Qed.

(** What a round does to one client, as far as the table goes. *)
Lemma service_client_basic now ready os c c' events :
  modest c → service_client now ready os c = (c', events) →
  fd c' = fd c ∧ modest c' ∧ (∀ regs, register_all regs events = regs) ∧
  (mark_for_delete c' = false → now - last_activity c' ≤ IDLE_TIMEOUT).
Proof.
  intros Hm. unfold HttpServer.service_client. destruct (mark_for_delete c) eqn:Hd.
  { intros [= <- <-]. by rewrite Hd. }
  destruct (Z.ltb_spec IDLE_TIMEOUT (now - last_activity c)) as [Ht|Ht].
  { by intros [= <- <-]. }
  assert (0 ≤ IDLE_TIMEOUT) as H30 by done.
  destruct (if bool_decide _ then _ else _) as [c1 skip] eqn:Hr.
  assert (fd c1 = fd c ∧ modest c1 ∧ (last_activity c1 = last_activity c ∨ last_activity c1 = now))
    as (Hf1 & Hm1 & Ha1).
  { revert Hr. case_match; [by apply receive_step_basic|]. intros [= <- <-]. auto. }
  destruct skip; [intros [= <- <-]; split_and!; [done..|intros _; lia]|].
  destruct (send_step _ _ _) as [c2 sent] eqn:Hs.
  destruct (send_step_basic _ _ _ _ _ Hs) as (Hf2 & Hb2 & Ha2 & Hreg2).
  destruct (shutdown_step c2) as [c3 shut] eqn:Hsd.
  destruct (shutdown_step_basic _ _ _ Hsd) as (Hf3 & Hb3 & Ha3 & Hreg3).
  intros [= <- <-]. split_and!; [congruence| |by intros; rewrite register_all_app, Hreg2|intros _; lia].
  unfold modest. by rewrite Hb3, Hb2.
Qed.

Lemma serviced now ready os l :
  Forall modest l →
  let done := service_client now ready os <$> l in
  fd <$> done.*1 = fd <$> l ∧ Forall modest done.*1 ∧
  (∀ regs, register_all regs (mjoin done.*2) = regs) ∧
  Forall (λ c, mark_for_delete c = false → now - last_activity c ≤ IDLE_TIMEOUT) done.*1.
Proof.
  induction 1 as [|c l Hc Hl IH]; [by repeat split|]. cbn [fmap list_fmap] in *.
  destruct IH as (IH1 & IH2 & IH3 & IH4).
  destruct (service_client now ready os c) as [c' events] eqn:E.
  destruct (service_client_basic _ _ _ _ _ _ Hc E) as (Hf & Hm & Hreg & Ht). cbn [fst snd].
  split_and!; [by rewrite Hf, IH1|by constructor| |by constructor].
  intros regs. cbn [mjoin list_join]. by rewrite register_all_app, Hreg.
Qed.

(** Releasing the marked clients. *)
Lemma released_registered (l : list HttpClient) regs z :
  z ∈ register_all regs ((Released ∘ fd) <$> l) ↔ z ∈ regs ∧ z ∉ fd <$> l.
Proof.
  revert regs. induction l as [|c l IH]; intros regs; cbn [fmap list_fmap].
  - cbn. set_solver.
  - unfold register_all in *. cbn [foldl]. rewrite IH. cbn. set_solver.
Qed.

Lemma sweep_books s s' events regs :
  (length (clients_ s) ≤ MAX_CLIENTS)%nat → NoDup (fd <$> clients_ s) →
  (∀ z, z ∈ regs ↔ z ∈ fd <$> clients_ s) → Forall modest (clients_ s) →
  sweep s = (s', events) → books s' (register_all regs events).
Proof.
  intros Hlen Hn Hr Hm [= <- <-]. split; cbn [clients_ set_field].
  - unfold remove_if. pose proof (length_filter (λ c, mark_for_delete c = false) (clients_ s)). lia.
  - by apply NoDup_fmap_filter.
  - intros z. rewrite released_registered, Hr, !list_elem_of_fmap.
    setoid_rewrite elem_of_remove_if. setoid_rewrite list_elem_of_filter. split.
    + intros [(c & -> & Hc) Hz]. exists c. split_and!; [done..|].
      destruct (mark_for_delete c) eqn:E; [|done]. destruct Hz. by exists c.
    + intros (c & -> & Hc & Hd). split; [by exists c|]. intros (c' & E & Hd' & Hc').
      assert (c = c') as <- by by eapply (NoDup_fmap_eq fd). congruence.
  - intros c [Hc Hd]%elem_of_remove_if. rewrite Forall_forall in Hm. auto.
Qed.

Lemma accept_books now os s s' opened regs :
  books s regs → accepted os ∉ regs → accept_client now os s = (s', opened) →
  books s' (register_all regs opened) ∧ server_fd_ s' = server_fd_ s ∧
  servicable_fds_ s' = servicable_fds_ s.
Proof.
  intros [Hlen Hn Hr Hc] Hfresh. unfold accept_client. destruct (_ && _) eqn:E; intros [= <- <-].
  2: { split; [by split|done]. }
  apply andb_true_iff in E as [[E%Nat.ltb_lt _]%andb_true_iff _].
  split; [|done]. split; cbn [clients_ set_field register_all foldl register].
  - rewrite length_app. cbn. lia.
  - rewrite fmap_app. apply NoDup_app. split_and!; [done| |apply NoDup_singleton].
    intros z Hz ->%list_elem_of_singleton. by apply Hfresh, Hr.
  - intros z. rewrite fmap_app, elem_of_app, elem_of_union, Hr. set_solver.
  - intros c [Hin| ->%list_elem_of_singleton]%elem_of_app; [auto|]. split; [done|].
    unfold modest, MAX_PAYLOAD_SIZE. cbn. lia.
Qed.

Lemma round_books s regs s' regs' :
  books s regs → server_step (s, regs) (s', regs') → books s' regs'.
Proof.
  intros Hb Hstep. inversion Hstep as [? ? ready now os ? events Hfresh Hrun]; subst.
  assert (books (foldr service_later s ready) regs) as Hb0.
  { clear -Hb. induction ready as [|z ready IH]; [done|]. by destruct IH. }
  revert Hrun. generalize dependent (foldr service_later s ready). clear Hb Hstep. intros s0 Hb.
  unfold HttpServer.service_now. case_match; [by intros [= <- <-]|].
  destruct (accept_client now os s0) as [s1 opened] eqn:Ha.
  destruct (accept_books _ _ _ _ _ _ Hb Hfresh Ha) as ([Hlen Hn Hr Hc] & _ & _).
  assert (Forall modest (clients_ s1)) as Hm by (apply Forall_forall; intros; by apply Hc).
  destruct (serviced now (servicable_fds_ s1) os _ Hm) as (Hfd & Hm' & Hreg & _).
  destruct (sweep _) as [s2 released] eqn:Hs. intros [= <- <-].
  rewrite !register_all_app, Hreg.
  apply (sweep_books _ _ _ (register_all regs opened)) in Hs as [Hl2 Hn2 Hr2 Hc2].
  - by split.
  - cbn [clients_ set_field]. by rewrite !length_fmap.
  - cbn [clients_ set_field]. by rewrite Hfd.
  - cbn [clients_ set_field]. by rewrite Hfd.
  - done.
Qed.

(** From an empty table, any rounds keep the books: at most 256 clients, no
    descriptor twice, registered are exactly the descriptors of the clients
    in the table, none of which is marked, and no request buffer exceeds its
    limit. *)
Theorem server_keeps_books server_fd s regs :
  rtc server_step (mkServer server_fd [] [], ∅) (s, regs) →
  (length (clients_ s) ≤ 256)%nat ∧ NoDup (fd <$> clients_ s) ∧
  (∀ z, z ∈ regs ↔ z ∈ fd <$> clients_ s) ∧
  ∀ c, c ∈ clients_ s →
    mark_for_delete c = false ∧ size_of (request_buffer c) ≤ MAX_PAYLOAD_SIZE.
Proof.
  intros Hrun.
  assert (books (mkServer server_fd [] []) ∅) as Hb.
  { split; cbn; [lia|apply NoDup_nil_2|set_solver|set_solver]. }
  enough (books s regs) as [] by done.
  remember (mkServer server_fd [] [], ∅) as st0 eqn:E0. remember (s, regs) as st eqn:E.
  assert (books st0.1 st0.2) as Hb0 by by subst. clear Hb E0.
  assert (books st.1 st.2) as Hst; [|by subst].
  clear E. induction Hrun as [st|[s0 r0] [s1 r1] st2 Hstep _ IH]; [done|].
  apply IH. by eapply round_books.
Qed.
End table.
