(* ===== verification/HttpRoutes.v ===== *)
(** * The paths of the HTTP server

    Models [HttpServer::route_request] of [http_server.cpp], which shows the
    state of the server as JSON, with the conversion of serialized values.
    Splitting a path, the peers' transport statistics and the printing of
    numbers with a fraction are parameters.  Where the code uses a null
    pointer or reads before a string the answer is a fault. *)

From S2P Require Import Prelude Values Types GameState GameProps Metrics ServerManager Directory HandlerBase HttpText HttpBatch HttpServer.
From stdpp Require Import pretty.
From Stdlib Require Import Ascii.
From Stdlib Require String.
Open Scope Z_scope.

(** ** Objects *)

(** [j[name] = v]: the members stay in the order of their names. *)
Fixpoint set_member (name : string) (v : Json) (members : list (string * Json)) :
    list (string * Json) :=
  match members with
  | [] => [(name, v)]
  | (n, w) :: rest =>
      match String.compare name n with
      | Eq => (name, v) :: rest
      | Lt => (name, v) :: members
      | Gt => (n, w) :: set_member name v rest
      end
  end.

Definition object (l : list (string * Json)) : Json :=
  JObject (foldl (λ ms kv, set_member kv.1 kv.2 ms) [] l).

Definition add_member (name : string) (v : Json) (j : Json) : Json :=
  match j with JObject ms => JObject (set_member name v ms) | _ => j end.

(** ** Serialized values *)

(** Dictionaries, which only this part looks into, numbers with a fraction,
    and a measure of values: what a container holds is smaller. *)
Class JsonValues `{Ser} := {
  get_dictionary : Value → option (gmap Z Value);
  real_json : Value → Json;
  value_size : Value → nat;
}.

Class JsonValuesLaws `{JsonValues} : Prop := {
  dictionary_smaller v d k x :
    get_dictionary v = Some d → d !! k = Some x → (value_size x < value_size v)%nat;
  list_smaller v l x : get_list v = Some l → x ∈ l → (value_size x < value_size v)%nat;
  table_smaller v t k x :
    get_table v = Some t → t !! k = Some x → (value_size x < value_size v)%nat;
}.

Section json_conv.
Context `{JsonValues}.

(** <src/http_server.cpp:138-148 photon_hash_to_json> *)
Definition key_str (k : Value) : string :=
  match get_string k with
  | Some s => s
  | None =>
  match get_byte k with
  | Some n => pretty n
  | None =>
  match get_int32 k with
  | Some n => pretty n
  | None =>
  match get_int16 k with
  | Some n => pretty n
  | None => "(complex_key)"
  end end end end.

Section containers.
Context (to_json : Value → Json).

(** <src/http_server.cpp:124-131 photon_dict_to_json> *)
Definition photon_dict_to_json (dict : gmap Z Value) : Json :=
  object ((λ kv : Z * Value, (pretty kv.1, to_json kv.2)) <$> map_to_list dict).

(** <src/http_server.cpp:133-152 photon_hash_to_json> *)
Definition photon_hash_to_json (hash : Hashtable) : Json :=
  object ((λ kv : Value * Value, (key_str kv.1, to_json kv.2)) <$> map_to_list hash).
End containers.

(** <src/http_server.cpp:154-183 photon_val_to_json> *)
Fixpoint val_to_json (n : nat) (val : Value) : Json :=
  match n with
  | O => JNull
  | S n =>
      let num (r : option Z) := match r with Some z => JNumber z | None => JNull end in
      match kind val with
      | ANull => JNull
      | ABool => match get_bool val with Some b => JBool b | None => JNull end
      | AByte => num (get_byte val)
      | AInt16 => num (get_int16 val)
      | AInt32 => num (get_int32 val)
      | AInt64 => num (get_int64 val)
      | AFloat | ADouble => real_json val
      | AString => match get_string val with Some s => JString s | None => JNull end
      | ABytes =>
          match get_bytes val with Some l => JString (bytes_to_hex l) | None => JNull end
      | AStrings =>
          match get_strings val with Some l => JArray (JString <$> l) | None => JNull end
      | ADictionary =>
          match get_dictionary val with
          | Some d => photon_dict_to_json (val_to_json n) d
          | None => JNull
          end
      | AHashtable =>
          match get_table val with
          | Some t => photon_hash_to_json (val_to_json n) t
          | None => JNull
          end
      | AObjects =>
          match get_list val with Some l => JArray (val_to_json n <$> l) | None => JNull end
      | _ => JString "<complex>"
      end
  end.

Definition photon_val_to_json (val : Value) : Json := val_to_json (S (value_size val)) val.
Definition hash_to_json (hash : Hashtable) : Json := photon_hash_to_json photon_val_to_json hash.
End json_conv.

(** ** The server as the paths show it *)

(** What the network library tells of a peer. *)
Class PeerStats := {
  remote_endpoint : peer_ptr → string;
  peer_id : peer_ptr → Z;
  peer_state : peer_ptr → Z;
  round_trip_time : peer_ptr → Z;
  round_trip_variance : peer_ptr → Z;
  bytes_in : peer_ptr → Z;
  bytes_out : peer_ptr → Z;
  packet_loss_by_crc : peer_ptr → Z;
  packet_loss_by_challenge : peer_ptr → Z;
}.

(** [str_split(path, '/')] *)
Class PathSplit := { str_split : string → list string }.

Record Site `{Ser} := mkSite {
  site_directory : Directory;
  site_peers : PeerEnv;
  connections : list peer_ptr;
  busy_time : Metric;
  idle_time : Metric;
  now : Z;
}.

(** An answer, or undefined behaviour: a null pointer used, or the last
    character of an empty string. *)
Inductive Undefined := NullUsed | BackOfEmpty.
Definition Answer : Type := Routed + Undefined.

Section routes.
Context `{JsonValues, PeerStats, PathSplit}.
Implicit Types (st : Site) (segs : list string).

Definition found (j : Json) : Answer := inl (Found j).
Definition out_of_range (what : string) : Answer := inl (OutOfRange what).
Definition invalid_argument (what : string) : Answer := inl (Failed what).

(** [std::from_chars] of an unsigned number: digits, and whatever follows. *)
Definition from_chars_unsigned (s : string) : option Z :=
  match String.list_ascii_of_string s with
  | c :: _ as cs =>
      match digit c with
      | Some _ => let n := (digits 0 cs).1 in if n <? 2 ^ 32 then Some n else None
      | None => None
      end
  | [] => None
  end.

(** [std::from_chars] into an [int] that is zero before; failures are not
    looked at. *)
Definition from_chars_int (s : string) : Z :=
  let '(negative, cs) :=
    match String.list_ascii_of_string s with
    | "-"%char :: cs => (true, cs)
    | cs => (false, cs)
    end in
  match cs with
  | c :: _ =>
      match digit c with
      | Some _ =>
          let n := (digits 0 cs).1 in
          let n := if negative : bool then - n else n in
          if int_ok n then n else 0
      | None => 0
      end
  | [] => 0
  end.

(** <src/http_server.cpp:436-444 HttpServer::find_app_by_id>
    Of several versions of an application the first in the table's order. *)
Definition find_app_by_id (d : Directory) (i : string) : option (app_ptr * App) :=
  a ← find_first (λ a, match app_heap d !! a with
                       | Some app => bool_decide (app_id (app_ident app) = i)
                       | None => false
                       end) (get_all d);
  app ← app_heap d !! a; Some (a, app).

(** <src/http_server.cpp:446-461 HttpServer::find_lobby>
    The last character is the type; there must be one. *)
Definition find_lobby (d : Directory) (app : App) (name : string) : option Lobby + Undefined :=
  match rev (String.list_ascii_of_string name) with
  | [] => inr BackOfEmpty
  | c :: rest =>
      let type := u8 (code_of c - 48) in
      inl (l ← lobbies_ app !! (String.string_of_list_ascii (rev rest), type);
           lobby_heap d !! l)
  end.

(** <src/http_server.cpp:669-700 HttpServer::route_request> *)
Definition stats_route st segs : Answer :=
  match segs with
  | [_; metric; type; duration] =>
      match from_chars_unsigned duration with
      | None => invalid_argument "Invalid duration parameter"
      | Some duration_ms =>
          let metric_data :=
            if bool_decide (metric = "busy_time") then Some (busy_time st)
            else if bool_decide (metric = "idle_time") then Some (idle_time st)
            else None in
          match metric_data with
          | None => invalid_argument "Unknown metric. Expected: busy_time, wait_time"
          | Some m =>
              if bool_decide (type = "min") then found (JNumber (metric_min (now st) duration_ms m))
              else if bool_decide (type = "avg") then found (JNumber (metric_avg (now st) duration_ms m))
              else if bool_decide (type = "max") then found (JNumber (metric_max (now st) duration_ms m))
              else out_of_range "Unknown metric type. Available: min, avg, max"
          end
      end
  | _ => out_of_range
      "Invalid stats request format. Expected: /stats/{metric}/{type}/{duration_ms}"
  end.

(** The application of an authenticated peer, which is used without a test. *)
Definition auth_app st (pp : PeerPersistent) : option App :=
  a ← pp_app pp; app_heap (site_directory st) !! a.

(** <src/http_server.cpp:706-719 HttpServer::route_request> *)
Definition connection_item st (p : peer_ptr) : option Json :=
  peer ← site_peers st !! p;
  let item := object
    [("address", JString (remote_endpoint p)); ("peer_id", JNumber (peer_id p));
     ("state", JNumber (peer_state p));
     ("stats", object
        [("rtt", JNumber (round_trip_time p)); ("rtt_var", JNumber (round_trip_variance p));
         ("bytes_in", JNumber (bytes_in p)); ("bytes_out", JNumber (bytes_out p));
         ("packet_loss_crc", JNumber (packet_loss_by_crc p));
         ("packet_loss_challenge", JNumber (packet_loss_by_challenge p))])] in
  match persistent peer with
  | None => Some item
  | Some pp =>
      app ← auth_app st pp;
      Some (add_member "auth" (object
        [("user_id", JString (user_id pp)); ("app_id", JString (app_id (app_ident app)));
         ("app_ver", JString (app_version (app_ident app)))]) item)
  end.

(** <src/http_server.cpp:703-722 HttpServer::route_request> *)
Definition connections_route st : Answer :=
  match mapM (connection_item st) (connections st) with
  | Some items => found (JArray items)
  | None => inr NullUsed
  end.

Definition app_json (app : App) : Json :=
  object [("id", JString (app_id (app_ident app))); ("version", JString (app_version (app_ident app)));
          ("lobbies_count", JNumber (Z.of_nat (size (lobbies_ app))))].

(** <src/http_server.cpp:725-730 HttpServer::route_request> *)
Definition apps_route st : Answer :=
  found (JArray (omap (λ a, app_json <$> app_heap (site_directory st) !! a)
                   (get_all (site_directory st)))).

(** <src/http_server.cpp:746-757 HttpServer::route_request> *)
Definition app_connection_item st (i : string) (p : peer_ptr) : option (list Json) :=
  peer ← site_peers st !! p;
  match persistent peer with
  | None => Some []
  | Some pp =>
      app ← auth_app st pp;
      if bool_decide (app_id (app_ident app) = i) then
        Some [object
          [("peer_id", JNumber (peer_id p)); ("address", JString (remote_endpoint p));
           ("user_id", JString (user_id pp)); ("token", JString (token pp));
           ("stats", object
             [("rtt", JNumber (round_trip_time p)); ("bytes_out", JNumber (bytes_out p));
              ("packet_loss", JNumber (packet_loss_by_challenge p))])]]
      else Some []
  end.

(** <src/http_server.cpp:744-760 HttpServer::route_request> *)
Definition app_connections_route st (i : string) : Answer :=
  match mapM (app_connection_item st i) (connections st) with
  | Some items => found (JArray (mjoin items))
  | None => inr NullUsed
  end.

(** <src/http_server.cpp:774-788 HttpServer::route_request> *)
Definition game_json `{Codes} (g : Game) : Json :=
  let state := get_config_snapshot g in
  object
    [("id", JString (id g)); ("master_client_id", JNumber (cs_master_actor state));
     ("player_ttl", JNumber (cs_player_ttl state));
     ("empty_room_ttl", JNumber (cs_empty_game_ttl state));
     ("flags", JNumber (cs_flags state));
     ("expected_users", JArray (JString <$> elements (expected_users g)));
     ("full_props", hash_to_json (get_game_props g false))].

(** <src/http_server.cpp:796-811 HttpServer::route_request>
    The user id of a node's live peer, or else the one among its
    properties. *)
Definition actor_item st (gp : GamePeer) : Json :=
  let uid :=
    default EmptyString (p ← lock (site_peers st) (peer gp); peer_user (site_peers st) p) in
  let uid :=
    if empty_str uid then
      default uid (val ← actor_props gp !! of_int32 253; get_string val)
    else uid in
  object [("actor_id", JNumber (actor_id gp)); ("user_id", JString uid)].

(** <src/http_server.cpp:791-813 HttpServer::route_request> *)
Definition actors_route st (g : Game) : Answer :=
  found (JArray (actor_item st <$> filter (λ gp, active gp = true) (peers g))).

Definition bit_string (l : list bool) : string :=
  String.string_of_list_ascii ((λ b : bool, if b then "1"%char else "0"%char) <$> l).

(** <src/http_server.cpp:816-841 HttpServer::route_request> *)
Definition actor_route st (g : Game) (seg : string) : Answer :=
  let actorId := from_chars_int seg in
  match (gp ← find_actor g actorId; p ← lock (site_peers st) (peer gp);
         peer ← site_peers st !! p; Some (gp, p, peer)) with
  | None => out_of_range "Actor ID not found"
  | Some (gp, p, peer) =>
      let res := object
        [("actor_id", JNumber actorId); ("props", hash_to_json (get_actor_props_for g actorId));
         ("interest_groups", JString (bit_string (ig_to_string (interest_groups gp))))] in
      found match persistent peer with
            | None => res
            | Some pp =>
                add_member "connection_info" (object
                  [("peer_id", JNumber (peer_id p)); ("rtt", JNumber (round_trip_time p));
                   ("user_id", JString (user_id pp))]) res
            end
  end.

Definition endpoint_not_found : Answer := out_of_range "Endpoint not found".

(** <src/http_server.cpp:763-842 HttpServer::route_request> *)
Definition games_route `{Codes} st (app : App) (game_id : string) segs : Answer :=
  match games_ app !! game_id with
  | None => out_of_range "Game ID not found"
  | Some gm =>
      match game_heap (site_directory st) !! gm with
      | None => out_of_range "Game expired"
      | Some g =>
          match segs with
          | [] => found (game_json g)
          | [s] => if bool_decide (s = "actors") then actors_route st g else endpoint_not_found
          | [s; a] => if bool_decide (s = "actors") then actor_route st g a else endpoint_not_found
          | _ => endpoint_not_found
          end
      end
  end.

(** <src/http_server.cpp:845-855 HttpServer::route_request>
    The live lobbies of an application. *)
Definition lobbies_route st (app : App) : Answer :=
  found (JArray (omap (λ kv : (string * Z) * lobby_ptr,
    lobby ← lobby_heap (site_directory st) !! kv.2;
    Some (object
      [("name", JString (lobby_name lobby +:+ String (char_of (u8 (lobby_type lobby + 48))) EmptyString));
       ("type", JNumber (lobby_type lobby)); ("games_count", JNumber (len (games lobby)));
       ("peer_count", JNumber (lobby_peer_count (site_directory st) lobby))]))
    (map_to_list (lobbies_ app)))).

(** <src/http_server.cpp:866-876 HttpServer::route_request> *)
Definition lobby_game_json `{Codes} (g : Game) : Json :=
  let state := get_config_snapshot g in
  object
    [("id", JString (id g)); ("player_count", JNumber (cs_peer_count state));
     ("max_players", JNumber (cs_max_peers state)); ("is_open", JBool (cs_is_open state));
     ("is_visible", JBool (cs_is_visible state));
     ("lobby_props", hash_to_json (get_lobby_game_props g))].

(** <src/http_server.cpp:858-879 HttpServer::route_request> *)
Definition lobby_route `{Codes} st (app : App) (name : string) segs : Answer :=
  match find_lobby (site_directory st) app name with
  | inr f => inr f
  | inl None => out_of_range "Lobby name invalid"
  | inl (Some lobby) =>
      match segs with
      | [s] =>
          if bool_decide (s = "games") then
            found (JArray (omap (λ gm, lobby_game_json <$> game_heap (site_directory st) !! gm)
                             (games lobby)))
          else endpoint_not_found
      | _ => endpoint_not_found
      end
  end.

(** <src/http_server.cpp:733-880 HttpServer::route_request> *)
Definition app_route `{Codes} st (i : string) segs : Answer :=
  match find_app_by_id (site_directory st) i with
  | None => out_of_range "App not found"
  | Some (_, app) =>
      match segs with
      | [] => found (app_json app)
      | [s] =>
          if bool_decide (s = "connections") then app_connections_route st i
          else if bool_decide (s = "lobbies") then lobbies_route st app
          else endpoint_not_found
      | s :: x :: segs =>
          if bool_decide (s = "games") then games_route st app x segs
          else if bool_decide (s = "lobbies") then lobby_route st app x segs
          else endpoint_not_found
      end
  end.

(** <src/http_server.cpp:663-666 HttpServer::route_request> *)
Definition redirect_legacy segs : list string :=
  match segs with
  | a :: app :: b :: name :: c :: game :: rest =>
      if bool_decide (a = "apps") && bool_decide (b = "lobbies") && bool_decide (c = "games")
      then a :: app :: c :: game :: rest else segs
  | _ => segs
  end.

(** <src/http_server.cpp:668-735 HttpServer::route_request> *)
Definition route_segments `{Codes} st segs : Answer :=
  match segs with
  | [] => endpoint_not_found
  | s :: rest =>
      if bool_decide (s = "stats") then stats_route st segs
      else if bool_decide (s = "connections") then
        match rest with [] => connections_route st | _ => endpoint_not_found end
      else if bool_decide (s = "apps") then
        match rest with [] => apps_route st | i :: rest => app_route st i rest end
      else endpoint_not_found
  end.

(** <src/http_server.cpp:652-662 HttpServer::route_request>
    The method plays no part. *)
Definition route_request `{Codes} st (method path : string) : Answer :=
  match str_split (url_decode path) with
  | [] => out_of_range "Path empty"
  | s :: rest =>
      let segs := if empty_str s then rest else s :: rest in
      route_segments st (redirect_legacy segs)
  end.
End routes.

(** ** Paths that are found *)

(** [join "/" l] *)
Fixpoint join_path (l : list string) : string :=
  match l with
  | [] => EmptyString
  | [s] => s
  | s :: l => s +:+ "/" +:+ join_path l
  end.
Definition no_slash (s : string) : Prop := "/"%char ∉ String.list_ascii_of_string s.

(** Splitting undoes joining. *)
Class PathSplitLaws `{PathSplit} : Prop := {
  split_join l : l ≠ [] → Forall no_slash l → str_split (join_path l) = l;
}.

(** *** Conversion of values *)

Section conversion.
Context `{JsonValuesLaws}.

Lemma object_ext {A} (f g : A → string * Json) l :
  (∀ x, x ∈ l → f x = g x) → object (f <$> l) = object (g <$> l).
Proof. intros Hfg. assert (f <$> l = g <$> l) as ->; [|done].
  apply Forall_fmap_ext_1, Forall_forall. exact Hfg. Qed.

(** The conversion reaches every part of a value. *)
Lemma val_to_json_enough n v :
  (value_size v < n)%nat → val_to_json (S n) v = val_to_json n v.
Proof.
  revert v. induction n as [|n IH]; intros v Hn; [lia|].
  cbn [val_to_json]. destruct (kind v); try done.
  - destruct (get_list v) as [l|] eqn:El; [|done]. f_equal.
    apply Forall_fmap_ext_1, Forall_forall. intros x Hx. apply IH.
    pose proof (list_smaller v l x El Hx). lia.
  - destruct (get_dictionary v) as [t|] eqn:Et; [|done]. apply object_ext.
    intros [k x] Hx%elem_of_map_to_list. cbn. f_equal. apply IH.
    pose proof (dictionary_smaller v t k x Et Hx). lia.
  - destruct (get_table v) as [t|] eqn:Et; [|done]. apply object_ext.
    intros [k x] Hx%elem_of_map_to_list. cbn. f_equal. apply IH.
    pose proof (table_smaller v t k x Et Hx). lia.
Qed.
End conversion.

(** *** Rooms *)

Section rooms.
Context `{JsonValues, PeerStats, PathSplit, Codes, !PathSplitLaws}.
Implicit Types (st : Site) (d : Directory).

(** An application is found by its id when no other version has it. *)
Lemma find_app_unique d a app i :
  dir_ok d → app_heap d !! a = Some app → app_id (app_ident app) = i →
  (∀ b app', app_heap d !! b = Some app' → app_id (app_ident app') = i → b = a) →
  find_app_by_id d i = Some (a, app).
Proof.
  intros Hok Ha Hi Huniq. unfold find_app_by_id. rewrite (find_first_unique _ _ a).
  - cbn. by rewrite Ha.
  - unfold get_all. apply list_elem_of_omap.
    exists (key_of (app_ident app), Some a). split; [|by apply (alive_Some _ _ app)].
    apply elem_of_map_to_list, (dir_apps _ Hok). exists a. split; [done|].
    apply app_key_Some. eauto.
  - rewrite Ha. by apply bool_decide_eq_true.
  - intros b _. destruct (app_heap d !! b) as [app'|] eqn:Hb; [|done].
    rewrite bool_decide_eq_true. by apply Huniq.
Qed.

(** The answer to a path given by its segments. *)
Lemma route_join st m keep segs :
  Forall no_slash segs →
  route_request st m (url_encode keep (join_path (EmptyString :: segs)))
  = route_segments st (redirect_legacy segs).
Proof.
  intros Hs. unfold route_request. rewrite url_decode_encode, split_join; [|done|].
  - done.
  - constructor; [|done]. by intros ?%elem_of_nil.
Qed.

Lemma no_slash_dec s : bool_decide ("/"%char ∈ String.list_ascii_of_string s) = false → no_slash s.
Proof. by intros ?%bool_decide_eq_false. Qed.

(** C31: Reading a room by its path.  Whatever characters the client
    percent-encodes, [/apps/{id}/games/{room}] shows the live room of that
    name in the application of that id, and is an out-of-range error exactly
    when there is none, provided no other version of the application has the
    id and neither name has a slash; the older paths that name a lobby in
    between mean the same, whatever lobby they name.  The method of the
    request plays no part. *)
Theorem room_path_spec st m keep a app room :
  let d := site_directory st in
  let i := app_id (app_ident app) in
  dir_ok d → app_heap d !! a = Some app →
  (∀ b app', app_heap d !! b = Some app' → app_id (app_ident app') = i → b = a) →
  no_slash i → no_slash room →
  let answer segs := route_request st m (url_encode keep (join_path (EmptyString :: segs))) in
  (∀ j, answer ["apps"; i; "games"; room] = found j ↔
     ∃ gm g, room_key d gm = Some (a, room) ∧ game_heap d !! gm = Some g ∧ j = game_json g) ∧
  ((∀ gm, room_key d gm ≠ Some (a, room)) →
   answer ["apps"; i; "games"; room] = out_of_range "Game ID not found") ∧
  (∀ name rest, no_slash name → Forall no_slash rest →
   answer ("apps" :: i :: "lobbies" :: name :: "games" :: room :: rest)
   = answer ("apps" :: i :: "games" :: room :: rest)).
Proof.
  intros d i Hok Ha Huniq Hi Hroom answer.
  assert (no_slash "apps" ∧ no_slash "games" ∧ no_slash "lobbies") as (Hs1 & Hs2 & Hs3)
    by (split_and!; by apply no_slash_dec).
  pose proof (find_app_unique d a app i Hok Ha eq_refl Huniq) as Hfind.
  pose proof (dir_games _ Hok a (games_ app)) as Hgames. unfold games_of in Hgames.
  rewrite Ha in Hgames. specialize (Hgames eq_refl room).
  assert (answer ["apps"; i; "games"; room] = games_route st app room []) as ->.
  { unfold answer. rewrite route_join by (repeat constructor; done).
    cbn [redirect_legacy route_segments]. rewrite !bool_decide_eq_false_2, bool_decide_eq_true_2 by done.
    unfold app_route. fold d. rewrite Hfind. done. }
  unfold games_route. fold d. split; [|split].
  - intros j. destruct (games_ app !! room) as [gm|] eqn:Eg.
    + pose proof (proj1 (Hgames gm) eq_refl) as Hk.
      pose proof Hk as (g & lobby & Hg & _)%room_key_Some. rewrite Hg. split.
      * intros [= <-]. eauto.
      * intros (gm' & g' & Hk' & Hg' & ->). apply Hgames in Hk'. unfold found. congruence.
    + split; [done|]. intros (gm & g & Hk & _). by apply Hgames in Hk.
  - intros Hnone. destruct (games_ app !! room) as [gm|] eqn:Eg; [|done].
    exfalso. apply (Hnone gm). by apply Hgames.
  - intros name rest Hname Hrest. unfold answer. rewrite !route_join by (repeat (constructor; try done)).
    f_equal. cbn [redirect_legacy]. rewrite !bool_decide_eq_true_2 by done. cbn [andb].
    destruct rest as [|? [|? ?]]; done.
Qed.
End rooms.
