(* ===== verification/Scenarios.v ===== *)
(** * Concrete rooms

    The theorems about games, admission and parked identities applied to
    small concrete rooms, with the value type [TreeSer], the codes of the
    Photon protocol and a serializer that writes the event code followed by
    the number of parameters. *)

From S2P Require Import Prelude Program Values Types GameState GameMembers GameCreation GameProps GameEvents GameSteps GameAdmission PeerPersistence DataModel HandlerGame HandlerGameSafety HandlerGameJoin HandlerGameEffects.
Open Scope Z_scope.
Import TreeSer PhotonCodes.

#[export] Instance short_wire : Wire := {|
  protocol_count := 2;
  Reliable := 1;
  serialize proto m :=
    Some [Z.of_nat proto; event_code m; Z.of_nat (size (parameters m))];
|}.

(** ** A room with three members

    Peer 1 ("ann") is the master client, peer 2 ("bob") has gone, peer 3
    ("eve") is alive. *)
Definition member (p : nat) (a : Z) : GamePeer :=
  mkGamePeer (Some p) (Some 7%nat) a ∅ default_groups true.

Definition identity (u tok : string) : PeerPersistent :=
  mkPeerPersistent no_game_info None (Some 0%nat) u tok 30000 0.

Definition everyone : PeerEnv :=
  <[1%nat := mkPeer 0 (Some (identity "ann" "t1"))]>
    (<[3%nat := mkPeer 1 (Some (identity "eve" "t3"))]>
       (<[4%nat := mkPeer 0 (Some (identity "dan" "t4"))]> ∅)).

Definition settings : AppSettings := default_settings.
Definition lobby : LobbyInfo := mkLobbyInfo (mkAppInfo "app" "1.0") "lobby" 0.

Definition key (s : string) : Value := of_string s.

Definition cached : Event :=
  {| code := 7; sender_actor_id := 2; delivery_mode := 1; channel := 0;
     receivers := RcvGroup RgAll; interest_group := 0; data := of_bool true;
     top_params := ∅; cached_data := [[]; []] |}.

Definition room : Game :=
  new_game 7 1 "room" "udp://h:5056"
    <| is_created := true |> <| flags := 19 |>
    <| custom_props := <[key "map" := of_int32 3]> ∅ |>
    <| event_cache := [cached] |>
    <| peers := [member 1 1; member 2 2; member 3 3] |>
    <| last_actor_id := 253 |>.

(** The invariant of a concrete room, field by field. *)
Ltac room_invariant :=
  split;
    [ split; [by vm_compute|by apply (bool_decide_unpack _)]
    | by apply (bool_decide_unpack _)
    | repeat constructor; cbn; lia
    | constructor
    | cbn; lia
    | done
    | cbn; lia
    | by apply (bool_decide_unpack _) ].

Lemma room_ok : game_ok room.
Proof. room_invariant. Defined.

Lemma cached_coherent : Forall coherent (event_cache room).
Proof.
  constructor; [|constructor]. apply fresh_coherent. reflexivity.
Defined.

(** ** Properties *)

Definition update : Hashtable :=
  <[key "map" := of_int32 4]> (<[of_byte IsVisible := of_bool false]> ∅).

Lemma insert_game_props_spec_witness :
  let g' := (insert_game_props_in settings lobby room (map_to_list update)).1 in
  cell g' (key "map") = Some (of_int32 4) ∧
  is_visible g' = false ∧ state_revision_ g' = 1.
Proof.
  destruct (insert_game_props_spec settings lobby room update (map_to_list update)
              (Permutation_refl _)) as (Hc & _ & Hr).
  split; [rewrite (Hc (key "map")); vm_compute; reflexivity|].
  split; [vm_compute; reflexivity|].
  destruct Hr as [[_ Hr]|[Hr _]]; [|rewrite Hr; vm_compute; reflexivity].
  apply (f_equal is_visible) in Hr. vm_compute in Hr. discriminate.
Defined.

Lemma insert_game_props_echo_witness :
  let g' := (insert_game_props settings lobby room update).1 in
  insert_game_props settings lobby g' update = (g', []).
Proof. exact (insert_game_props_echo settings lobby room update). Defined.

Lemma insert_game_props_notifies_witness :
  let r := insert_game_props settings lobby room update in
  LobbyGameDelete ∈ r.2 ∧ LobbyGameUpdate ∈ r.2.
Proof.
  destruct (insert_game_props_notifies settings lobby room update) as [Hu Hd].
  split; [apply Hd|apply Hu].
  - split; vm_compute; reflexivity.
  - exists PIsVisible. split; [by right|]. vm_compute. discriminate.
Defined.

Definition expectation : Hashtable := <[key "map" := of_int32 9]> ∅.

Lemma apply_game_props_cas_witness :
  apply_game_props settings lobby room update (Some expectation) = (room, false, []).
Proof.
  refine (proj2 (proj2 (apply_game_props_cas settings lobby room update expectation)) _).
  vm_compute. reflexivity.
Defined.

Lemma insert_actor_props_spec_witness :
  (insert_actor_props room 9 update).1 = room ∧
  actor_id <$> find_actor (insert_actor_props room 1 update).1 3 = Some 3.
Proof.
  split.
  - destruct (insert_actor_props_spec room 9 update) as (Hr & Hn & _).
    apply Hn. rewrite Hr. vm_compute. reflexivity.
  - destruct (insert_actor_props_spec room 1 update) as (_ & _ & Ho & _).
    rewrite (Ho 3) by lia. vm_compute. reflexivity.
Defined.

Lemma expect_absent_actor_prop_throws_witness :
  apply_actor_props room 1 update (Some {[key "ready" := null]}) = None.
Proof.
  exact (expect_absent_actor_prop_throws room 1 (member 1 1) (key "ready") update
           eq_refl eq_refl eq_refl).
Defined.

(** ** Events *)

Definition shout : Event :=
  cached <| code := 9 |> <| sender_actor_id := 1 |> <| receivers := RcvNone |>.

Lemma shout_coherent : coherent shout.
Proof. apply fresh_coherent. reflexivity. Defined.

(** Peer 2 is gone: only eve receives it, over her protocol. *)
Lemma broadcast_delivers_witness :
  (broadcast_event everyone room shout).2 = [Send 3 [1; 9; 2] 0 1].
Proof.
  refine (eq_trans (proj1 (broadcast_delivers everyone room shout shout_coherent)) _).
  reflexivity.
Defined.

Lemma room_distinct : NoDup (actor_id <$> peers room).
Proof. by apply (bool_decide_unpack _). Defined.
Lemma room_active : Forall (λ gp, active gp = true) (peers room).
Proof. by repeat constructor. Defined.

Lemma broadcast_recipients_witness :
  member 3 3 ∈ recipients room (default_receivers shout).
Proof.
  apply (broadcast_recipients room (default_receivers shout) (member 3 3)
           room_distinct room_active).
  split; [right; right; left|]. split; [|reflexivity].
  cbn. intros _. lia.
Defined.

(** Eve gets the room's properties, the actors' and bob's cached event. *)
Lemma flood_peer_order_witness :
  (flood_peer everyone room (member 3 3)).1.2 = true ∧
  length (flood_peer everyone room (member 3 3)).2 = 3%nat.
Proof.
  destruct (flood_peer_order everyone room (member 3 3) 3 (mkPeer 1 (Some (identity "eve" "t3")))
              eq_refl eq_refl eq_refl cached_coherent) as (Hr & He & _).
  split; [exact Hr|]. refine (eq_trans (f_equal length He) _).
  vm_compute. reflexivity.
Defined.

(** ** Creation *)

Definition fresh_room : Game := new_game 8 1 "fresh" "udp://h:5056".
Lemma fresh_room_ok : game_ok fresh_room.
Proof. apply new_game_ok. Defined.

(** Ann creates the room, reserves a place and closes the room, then gives
    up. *)
Definition creating : Game := (try_begin_creation fresh_room (Some 1%nat)).1.
Definition reserving : Game :=
  (reserve_expected_user_with_generation creating "dan" 30000).1.1.

Lemma reserving_steps : rtc lease_step creating reserving.
Proof. apply rtc_once. split; [|split]; try reflexivity. constructor. Defined.

Lemma creating_ok : game_ok creating.
Proof. apply begin_ok, fresh_room_ok. Defined.
Lemma reserving_ok : game_ok reserving.
Proof.
  apply (steps_ok creating); [apply creating_ok|]. apply rtc_once. constructor.
Defined.

Lemma abort_result env g owner n :
  game_ok g → holds_lease env g owner n = true →
  ∃ g' eff, abort_creation_transaction env g owner n = (g', true, eff).
Proof.
  intros Hok Hh. destruct (abort_spec env g owner n Hok Hh) as [Hr _].
  destruct (abort_creation_transaction env g owner n) as [[g' b] eff].
  exists g', eff. cbn in Hr. by rewrite Hr.
Defined.

Lemma abort_restores_room_witness :
  ∃ g eff,
    abort_creation_transaction everyone reserving (Some 1%nat) 1 = (g, true, eff) ∧
    is_creating g = false ∧ expected_users g = expected_users fresh_room.
Proof.
  destruct (abort_result everyone reserving (Some 1%nat) 1 reserving_ok eq_refl)
    as (g & eff & E).
  exists g, eff. split; [exact E|].
  destruct (abort_restores_room fresh_room (Some 1%nat) creating 1 reserving everyone
    (Some 1%nat) 1 g eff fresh_room_ok eq_refl ltac:(lia) reserving_steps E)
    as (Hr & Hc & _).
  split; [exact Hc|exact (re_users _ _ Hr)].
Defined.

Lemma creation_exclusive_witness :
  try_begin_creation creating (Some 3%nat) = (creating, 0).
Proof.
  exact (proj2 (creation_exclusive everyone creating (Some 1%nat) 1 eq_refl) (Some 3%nat)).
Defined.

Definition aborted : Game :=
  (abort_creation_transaction everyone creating (Some 1%nat) 1).1.1.

Lemma aborted_ok : game_ok aborted.
Proof. apply abort_ok, creating_ok. Defined.

(** Eve starts over; ann's lease of the first attempt is refused. *)
Lemma closed_lease_stays_closed_witness :
  is_creation_active everyone (try_begin_creation aborted (Some 3%nat)).1 (Some 1%nat) 1
  = false.
Proof.
  refine (closed_lease_stays_closed aborted _ everyone (Some 1%nat) 1 1 aborted_ok
            _ _ _ _).
  - vm_compute. reflexivity.
  - vm_compute. split; congruence.
  - apply nsteps_once. constructor.
  - vm_compute. reflexivity.
Defined.

(** ** Admission and departure *)

Lemma create_peer_finds_actor_witness :
  is_valid (create_peer everyone room (Some 4%nat)).2 = true.
Proof.
  refine (proj1 (proj2 (create_peer_finds_actor everyone room 4 "dan" room_ok eq_refl)) _).
  reflexivity.
Defined.

Lemma admission_keeps_users_distinct_witness :
  NoDup (member_users everyone (add_peer everyone room (member 4 4)).1).
Proof.
  refine (proj1 (admission_keeps_users_distinct everyone room (member 4 4) None 0 eq_refl _)).
  by apply (bool_decide_unpack _).
Defined.

(** Removing ann retires bob's stale node too; eve becomes the master. *)
Lemma remove_peer_spec_witness :
  actor_id <$> peers (remove_peer everyone room (Some 1%nat)).1.1 = [3] ∧
  master_actor (remove_peer everyone room (Some 1%nat)).1.1 = 3.
Proof.
  destruct (remove_peer_spec everyone room 1 room_ok) as (Hp & _ & _ & _ & Hm & _).
  split; [refine (eq_trans (f_equal (fmap actor_id) Hp) _)|refine (eq_trans Hm _)];
    vm_compute; reflexivity.
Defined.

(** The master bob has gone silently when eve leaves; ann stays. *)
Definition headless : Game :=
  room <| peers := [member 2 2; member 3 3; member 1 1] |> <| master_actor := 2 |>.

Lemma headless_ok : game_ok headless.
Proof. room_invariant. Defined.

Lemma stale_master_left_dangling_witness :
  let g' := (remove_peer everyone headless (Some 3%nat)).1.1 in
  find_actor g' (master_actor g') = None.
Proof.
  refine (proj2 (proj2 (stale_master_left_dangling everyone headless 3 (member 2 2)
    (member 3 3) (member 1 1) [] headless_ok eq_refl eq_refl eq_refl eq_refl _))).
  intros gp Hgp. apply list_elem_of_singleton in Hgp as ->. reflexivity.
Defined.

Lemma last_actor_cannot_rejoin_witness :
  actor_id (create_peer everyone room (Some 4%nat)).2 = 254.
Proof.
  exact (proj1 (last_actor_cannot_rejoin everyone room 4 "dan" room_ok eq_refl
                  eq_refl eq_refl)).
Defined.

(** ** Parked identities *)

Definition no_games (g : nat) : bool * bool := (false, false).
Definition invited : PeerPersistent :=
  identity "ann" "t1" <| invitation := mkGameInfo lobby "room" "udp://h:5056" |>.
Definition empty_registry : Registry := mkRegistry [] 0.
Definition ahead_registry : Registry := mkRegistry [] 10.

Lemma empty_registry_ok n : 0 ≤ n < 2 ^ 64 → registry_ok (mkRegistry [] n).
Proof. intros Hn. split; [constructor|constructor|exact Hn]. Defined.

Definition parked_once : Registry := (store_persistent_peer no_games empty_registry invited).1.

Lemma store_then_found_witness :
  user_id <$> parked parked_once "t1" = Some "ann"%string ∧ registry_ok parked_once.
Proof.
  destruct (store_then_found no_games empty_registry invited
    (empty_registry_ok 0 ltac:(lia)) ltac:(discriminate) ltac:(done)) as (Hr & Hp & _).
  split; [|exact Hr]. refine (eq_trans (f_equal (fmap user_id) Hp) _). reflexivity.
Defined.

Lemma parked_once_ok : registry_ok parked_once.
Proof.
  apply (store_found no_games empty_registry invited (empty_registry_ok 0 ltac:(lia)));
    [discriminate|done].
Defined.

Lemma load_takes_once_witness :
  parked (load_persistent_peer parked_once "t1" true "t9").1.1 "t1" = None.
Proof.
  exact (proj1 (proj2 (load_takes_once parked_once "t1" true "t9" parked_once_ok))).
Defined.

Lemma stale_expiry_harmless_witness :
  ∃ pp, parked (expire_stored (store_persistent_peer no_games parked_once invited).1
                  (mkExpireStored 30000 "t1" 1)) "t1" = Some pp.
Proof.
  eexists. refine (proj1 (stale_expiry_harmless no_games parked_once invited "t1"
    (stored_form no_games empty_registry invited) (mkExpireStored 30000 "t1" 1)
    parked_once_ok _ _ eq_refl eq_refl eq_refl)); [discriminate|done].
Defined.

Lemma replica_outlives_consume_witness :
  ∃ home' msg tasks away' tasks' got home'' consume,
    park no_games (λ _, mkAppInfo "app" "1.0") empty_registry invited = (home', msg, tasks) ∧
    process_store no_games (λ _, Some 0%nat) "t8" ahead_registry (parameters msg) =
      Some (away', tasks') ∧
    load_persistent_peer home' "t1" false "t8" = (home'', Some got, [consume]) ∧
    parked home'' "t1" = None ∧
    is_Some (parked (process_consume away' (parameters consume)) "t1").
Proof.
  apply (replica_outlives_consume no_games (λ _, mkAppInfo "app" "1.0") (λ _, Some 0%nat)
    "t8" empty_registry ahead_registry invited "t1"
    (empty_registry_ok 0 ltac:(lia)) (empty_registry_ok 10 ltac:(lia)));
    first [reflexivity|discriminate|cbn; lia].
Defined.

(** ** Connections *)

#[local] Existing Instance no_plugins.

Definition no_locals : JoinLocals := mkJoinLocals false 0 false false [].
Definition connected (p : nat) : Handler :=
  mkHandler p true false false false 0 false None None.

(** Eve is a member; dan was sent to the room and is not one yet. *)
Definition eve : World := mkWorld (connected 3) room no_locals.
Definition dan : World := mkWorld (connected 4) room no_locals.

Definition request (op : OpCode) (ps : ParameterList) : Request := mkRequest op ps false 0 1.

Definition join_request : Request :=
  request OpJoinGame
    (<[KeyGameId := of_string "room"]>
       (<[KeyExpectedUsers := of_strings ["zoe"%string]]> ∅)).
Definition shout_request : Request :=
  request OpRaiseEvent (<[KeyCode := of_byte 9]> (<[KeyCache := of_byte AddToRoomCache]> ∅)).

Lemma room_lease_ok : lease_ok room.
Proof. split; [done|discriminate]. Defined.

Lemma connection_uses_room_operations_witness :
  let w' := foldl (λ w a, act everyone settings lobby a w) dan
              [ARequest join_request 0; ARequest shout_request 5; ADisconnect] in
  rtc step room (HandlerGame.room w') ∧ game_ok (HandlerGame.room w').
Proof.
  destruct (connection_uses_room_operations everyone settings lobby dan
    [ARequest join_request 0; ARequest shout_request 5; ADisconnect] room_ok room_lease_ok)
    as (Hs & Hok & _).
  split; [exact Hs|exact Hok].
Defined.

(** What a request decodes to, and a property of it that computes. *)
Definition decoded (ps : list ParameterSpec) (req : Request) (q : list ViewField → bool) : bool :=
  match decode ps (r_parameters req) with inl _ => false | inr fs => q fs end.

Lemma decoded_inr ps req q :
  decoded ps req q = true → ∃ fs, decode ps (r_parameters req) = inr fs ∧ q fs = true.
Proof. unfold decoded. destruct (decode _ _) as [e|fs]; [done|]. eauto. Defined.

(** Dan gets in, with a place for zoe. *)
Lemma join_existing_room_witness :
  ∃ a ps, spoken (join_game everyone settings lobby join_request 0 dan).1.2 =
    [Reply OpJoinGame Ok ps 0] ∧
  actor_id_for_peer everyone
    (HandlerGame.room (join_game everyone settings lobby join_request 0 dan).1.1)
    (Some 4%nat) = Some a ∧
  ("zoe"%string ∈ expected_users
    (HandlerGame.room (join_game everyone settings lobby join_request 0 dan).1.1)).
Proof.
  destruct (decoded_inr join_model join_request (λ fs,
    bool_decide (got TString KeyGameId fs = "room"%string)
    && bool_decide (validate_join settings everyone room "dan" (got TStrings KeyExpectedUsers fs)
                      false = Ok)
    && bool_decide (validate_join_count settings everyone room "dan" 0 false = Ok)
    && bool_decide ("zoe"%string ∈ expected_with (expected_users room)
         (got TStrings KeyExpectedUsers fs) "dan")))
    as (fs & Hd & Hq); [vm_compute; reflexivity|].
  apply andb_prop in Hq as [Hq Hz]. apply bool_decide_eq_true in Hz.
  apply andb_prop in Hq as [Hq H2]. apply andb_prop in Hq as [H0 H1].
  apply bool_decide_eq_true in H0, H1, H2.
  pose proof (join_existing_room everyone settings lobby join_request 0 dan "dan" fs
    room_ok ltac:(done) eq_refl eq_refl eq_refl eq_refl eq_refl eq_refl eq_refl Hd H0) as Hj.
  cbv zeta in Hj. change (HandlerGame.room dan) with room in Hj.
  rewrite H2, H1 in Hj. destruct Hj as (a & ps & Hs & _ & _ & Ha & _ & He).
  exists a, ps. split; [exact Hs|]. split; [exact Ha|]. rewrite He. exact Hz.
Defined.

Lemma raise_event_cache_witness :
  ∃ ev, event_cache (HandlerGame.room (raise_event everyone shout_request eve).1.1) =
    event_cache room ++ [ev].
Proof.
  destruct (decoded_inr raise_event_model shout_request (λ fs,
    (got TByte KeyCode fs <=? 220) && (got TByte KeyCache fs =? AddToRoomCache) && cacheable fs))
    as (fs & Hd & Hq); [vm_compute; reflexivity|].
  apply andb_prop in Hq as [Hq H2]. apply andb_prop in Hq as [H0 H1].
  apply Z.leb_le in H0. apply Z.eqb_eq in H1.
  destruct (raise_event_cache everyone shout_request eve 3 fs eq_refl eq_refl
    ltac:(lia) Hd H0) as (_ & _ & _ & _ & Hc).
  destruct Hc as [Hc _]; [rewrite H1; discriminate..|].
  rewrite H2 in Hc. eexists. exact Hc.
Defined.

Lemma disconnect_leaves_no_member_witness :
  find_peer everyone (HandlerGame.room (handle_disconnect everyone lobby eve).1.1)
    (Some 3%nat) = None.
Proof. exact (proj1 (disconnect_leaves_no_member everyone lobby eve room_ok eq_refl)). Defined.

(** Dan waited for a creation that is over. *)
Definition waiting : World :=
  mkWorld (connected 4 <| pending_join_ := Some (mkPendingJoin 0 join_request 100) |>)
    room no_locals.

Lemma pending_join_resolves_witness :
  pending_join_ (handler (handle_slow_update (λ _, false) 200 waiting).1.1) = None.
Proof.
  exact (proj1 (pending_join_resolves waiting (λ _, false) 200
    (mkPendingJoin 0 join_request 100) eq_refl eq_refl (or_intror eq_refl))).
Defined.
