(* ===== verification/ServerScenarios.v ===== *)
(** * Concrete servers

    The theorems of the handlers applied to the small server of
    [DirectoryScenarios] (one application, its lobby and one room), the
    identity of [Scenarios] and the codes of the Photon protocol. *)

From S2P Require Import Prelude Program Values Types GameState GameMembers GameProps GameEvents GameSteps GameAdmission PeerPersistence ServerManager Directory DirectoryScenarios Release LobbyQuery DataModel HandlerGame HandlerGameSafety HandlerBase Authentication HandlerEntry MasterLists HandlerMaster HandlerMasterSafety HandlerMasterRoutes Mirror Scenarios.
Open Scope Z_scope.
Import TreeSer PhotonCodes.

(** ** The server's surroundings *)

#[export] Instance photon_auth_codes : AuthCodes := {|
  KeyClientAuthenticationType := 217; KeyClientAuthenticationParameters := 216; KeyRegion := 210;
|}.
#[export] Instance photon_master_codes : MasterCodes := {|
  KeyLobbyStats := 211; KeyGameList := 222; KeyGameCount := 228; KeyPeerCount := 229;
  KeyMasterPeerCount := 227; KeyMatchmakingType := 223; KeyFindFriendsRequestList := 1;
  KeyFindFriendsOptions := 2; KeyFindFriendsResponseOnlineList := 1;
  KeyFindFriendsResponseRoomIdList := 2; EvGameList := 230; EvAppStats := 226;
  EvLobbyStats := 224; DefaultLobby := 0; lobby_types := [0; 2; 3]; RandomMatching := 2;
  SerialMatching := 1; FillRoom := 0; FindFriendsDefault := 0; FriendsCreatedOnGS := 1;
  FriendsVisible := 2; FriendsOpen := 4;
|}.
Lemma photon_master_laws : MasterCodesLaws.
Proof. unfold MasterCodesLaws. by apply (bool_decide_unpack _). Qed.
#[export] Existing Instance photon_master_laws.

(** No plugins and no provider table. *)
#[export] Instance no_authenticators : Authenticators := {|
  get_auth_provider := None; auth_plugins := None
|}.
#[local] Existing Instance no_plugins.

(** *** Insertion sort *)

Fixpoint insert_sorted {A} (less : A → A → bool) (x : A) (l : list A) : list A :=
  match l with
  | [] => [x]
  | y :: l => if less y x then y :: insert_sorted less x l else x :: y :: l
  end.
#[export] Instance insertion_sort : Sorting := {|
  sort A less l := foldr (insert_sorted less) [] l
|}.

Lemma insert_sorted_perm {A} less (x : A) l : insert_sorted less x l ≡ₚ x :: l.
Proof.
  induction l as [|y l IH]; [done|]. cbn. destruct (less y x); [|done].
  rewrite IH. apply Permutation_swap.
Qed.

Lemma insert_sorted_sorted {A} (less : A → A → bool) x l :
  (∀ x y z, less y x = false → less z y = false → less z x = false) →
  (∀ x y, less x y = true → less y x = false) →
  StronglySorted (λ x y, less y x = false) l →
  StronglySorted (λ x y, less y x = false) (insert_sorted less x l).
Proof.
  intros Ht Ha. induction l as [|y l IH]; cbn; intros Hs; [by repeat constructor|].
  apply StronglySorted_inv in Hs as [Hs Hy]. destruct (less y x) eqn:E.
  - constructor; [by apply IH|]. rewrite insert_sorted_perm. constructor; [by apply Ha|done].
  - constructor; [by constructor|]. constructor; [done|].
    eapply Forall_impl; [exact Hy|]. intros z Hz. by eapply Ht.
Qed.

#[export] Instance insertion_sort_laws : SortingLaws.
Proof.
  split.
  - intros A less l. induction l as [|x l IH]; [done|]. cbn in *. by rewrite insert_sorted_perm, IH.
  - intros A less l Ht Ha. induction l as [|x l IH]; [constructor|]. by apply insert_sorted_sorted.
Qed.

Definition around : Surroundings :=
  mkSurroundings _ _ sample_configs (λ _, O) false 100 3 "guest" "t9" everyone [] 0.

(** ** Authentication *)

Definition token_request : Request :=
  request OpAuthenticate (<[KeyToken := of_string "t1"]> ∅).
Definition idle : AuthWorld := mkAuthWorld with_room parked_once None.

Lemma room_for_one : below 100 3.
Proof. right. lia. Defined.

Lemma token_carried : r_parameters token_request !! KeyToken = Some (of_string "t1").
Proof. apply lookup_insert_eq. Defined.

Definition stored : PeerPersistent := stored_form no_games empty_registry invited.
Lemma stored_parked : parked parked_once "t1" = Some stored.
Proof.
  apply (store_found no_games empty_registry invited (empty_registry_ok 0 ltac:(lia)));
    [discriminate|done].
Defined.

(** A server whose application lets nobody in without a proof, the provider
    of type 7 allowed and the one of type 8 not, and a plugin that vouches for
    everybody. *)
Section members_only.
#[local] Instance strict_settings : SettingsSource := {|
  load_hook _ s := (s, false, true);
  settings_manager := Some (λ _, Some (default_settings <| auth_mode := 2 |>));
  max_game_peers_ := NormalizeMaxGamePeers 16;
|}.
Definition vouching : AuthCallback := λ requested _ _ _ _, inl ("member-" +:+ requested).
Definition vouchers : gmap Z AuthCallback := <[7 := vouching]> (<[8 := vouching]> ∅).
Definition provider_table (_ : string) (type : Z) : option AuthProviderSettings :=
  if type =? 7 then Some (mkProvider true None None)
  else if type =? 8 then Some (mkProvider false None None) else None.
#[local] Instance providers : Authenticators := {|
  get_auth_provider := Some provider_table; auth_plugins := Some (Some vouchers);
|}.

Definition member_request (type : Z) : Request :=
  request OpAuthenticate
    (<[KeyApplicationId := of_string "app"]> (<[KeyUserId := of_string "eve"]>
       (<[KeyClientAuthenticationType := of_byte type]> ∅))).
Definition strangers : AuthWorld := mkAuthWorld empty_directory parked_once None.
Definition member_fields (type : Z) : list ViewField :=
  match decode standard_model (r_parameters (member_request type)) with
  | inr fs => fs | inl _ => [] end.
Definition member_outcome (type : Z) :=
  authenticate (λ _, false) 100 3 "guest" "t9" (member_request type) false strangers.
Definition member : PeerPersistent :=
  create_persistent_peer "t9" <| pp_app := Some 0%nat |> <| user_id := "member-eve"%string |>.
Definition members_app : App :=
  mkApp (mkAppInfo "app" null_version) (load_app_settings (mkAppInfo "app" null_version) default_settings).1 ∅ ∅.

Lemma member_admitted :
  admitted_regularly (member_request 7) "guest" "t9" strangers member.
Proof.
  exists (member_fields 7), (Directory.get empty_directory ("app"%string, null_version)).1, 0%nat,
    members_app.
  split; [reflexivity|]. split; [reflexivity|]. split; [reflexivity|].
  split; [left; reflexivity|]. split; [|reflexivity]. right.
  split; [intros [Hl|[Hl _]]; discriminate Hl|].
  exists "eve"%string, provider_table, (mkProvider true None None), vouchers, vouching.
  split; [discriminate|]. split; [reflexivity|]. split; [discriminate|].
  split; [reflexivity|]. split; [reflexivity|]. split; [reflexivity|].
  split; [reflexivity|]. split; reflexivity.
Defined.

(** The provider of type 8 is not allowed. *)
Lemma member_refused pp :
  ¬ admitted_regularly (member_request 8) "guest" "t9" strangers pp.
Proof.
  intros (fs & d & a & app & Hd & Hg & Ha & _ & Hp & _).
  assert (fs = member_fields 8) as -> by (unfold member_fields; by rewrite Hd).
  assert (a = 0%nat) as -> by (by injection Hg).
  assert (settings_ app = settings_ members_app) as Hs by (injection Hg as <-; by injection Ha as <-).
  rewrite Hs in Hp. destruct Hp as [[[Hl|[Hl _]] _]|[_ Hv]]; [discriminate Hl..|].
  destruct Hv as (u & ps & p & pl & cb & _ & _ & _ & [= <-] & Hp & Hal & _).
  assert (p = mkProvider false None None) as -> by (by injection Hp). discriminate Hal.
Qed.

Lemma no_token type : r_parameters (member_request type) !! KeyToken = None.
Proof. by repeat (rewrite lookup_insert_ne by discriminate). Qed.

Lemma authentication_admits_witness :
  own (member_outcome 7).1.1 = Some member ∧ (member_outcome 7).1.2 = (Ok, ∅) ∧
  own (member_outcome 8).1.1 = None ∧
  ∃ w' msgs, authenticate (λ _, false) 100 3 "guest" "t9" token_request false idle
    = (w', (Ok, ∅), msgs) ∧ own w' = Some stored ∧ parked (registry w') "t1" = None.
Proof.
  unfold member_outcome. split_and!; [| | |
    destruct (authenticate_parked (λ _, false) 100 3 "guest" "t9" token_request false idle "t1"
      stored parked_once_ok room_for_one token_carried stored_parked) as (r & _ & _ & E)].
  - destruct (authenticate _ 100 3 _ _ (member_request 7) _ _) as [[w' [rc ps]] msgs] eqn:E.
    apply (proj1 (authentication_admits _ 100 3 _ _ (member_request 7) _ strangers _ _ _ _
      parked_once_ok eq_refl E) member).
    split; [exact room_for_one|]. unfold entitled. rewrite no_token. exact member_admitted.
  - destruct (authenticate _ 100 3 _ _ (member_request 7) _ _) as [[w' [rc ps]] msgs] eqn:E.
    destruct (authentication_admits _ 100 3 _ _ (member_request 7) _ strangers _ _ _ _
      parked_once_ok eq_refl E) as [Hex Hout].
    assert (own w' = Some member) as Ho.
    { apply Hex. split; [exact room_for_one|]. unfold entitled. rewrite no_token. exact member_admitted. }
    rewrite Ho in Hout. destruct Hout as (-> & -> & _). reflexivity.
  - destruct (authenticate _ 100 3 _ _ (member_request 8) _ _) as [[w' [rc ps]] msgs] eqn:E.
    destruct (authentication_admits _ 100 3 _ _ (member_request 8) _ strangers _ _ _ _
      parked_once_ok eq_refl E) as [Hex _]. cbn [fst].
    destruct (own w') as [pp|]; [|reflexivity].
    destruct (proj1 (Hex pp) eq_refl) as [_ He]. unfold entitled in He. rewrite no_token in He.
    destruct (member_refused pp He).
  - cbn zeta in E. do 2 eexists. split; [exact E|]. split; [reflexivity|].
    pose proof (authentication_admits (λ _, false) 100 3 "guest" "t9" token_request false idle
      _ _ _ _ parked_once_ok eq_refl E) as [_ Hout].
    cbn [own Authentication.own] in Hout. rewrite token_carried in Hout.
    destruct Hout as (_ & _ & t & pp & Ht & _ & Hn & _).
    change (get_string (of_string "t1") = Some t) in Ht. rewrite acc_get in Ht.
    injection Ht as <-. exact Hn.
Defined.
End members_only.

Lemma handoff_keeps_identity_witness :
  ∃ w1 msgs pp, authenticate (λ _, false) 100 3 "guest" "t9" token_request true
      (mkAuthWorld with_room
         (park no_games (λ _, mkAppInfo "app" "1.0") empty_registry invited).1.1 None)
    = (w1, (Ok, <[KeyToken := of_string "t9"]> ∅), msgs) ∧
    own w1 = Some pp ∧ user_id pp = "ann"%string ∧ token pp = "t9"%string.
Proof.
  pose proof (handoff_keeps_identity no_games (λ _, mkAppInfo "app" "1.0") (λ _, false) 100 3
    "guest" "t9" token_request true with_room empty_registry invited
    (empty_registry_ok 0 ltac:(lia)) ltac:(discriminate) ltac:(done) room_for_one token_carried) as H.
  cbv zeta in H. destruct (authenticate _ _ _ _ _ _ _ _) as [[w1 [rc ps]] msgs].
  destruct H as (-> & -> & (pp & Ho & Hu & _ & _ & Ht) & _).
  exists w1, msgs, pp. split; [reflexivity|]. split; [exact Ho|]. split; [exact Hu|exact Ht].
Defined.

(** ** The game server *)

Definition untouched (ps : ParameterList) : ParameterList := ps.

(** Ann is in the room; the other connection has just been accepted. *)
Definition no_room : Handler := connected 4 <| current_game_ := false |>.
Definition ann_entered : EntryWorld :=
  mkEntry _ (mkAuthWorld with_room empty_registry (Some invited)) (connected 1) (Some 2%nat) true.
Definition accepted : EntryWorld := mkEntry _ idle no_room None true.
Definition ann_outside : EntryWorld :=
  mkEntry _ (mkAuthWorld with_room empty_registry (Some invited)) no_room None true.

Lemma game_server_keeps_directory_witness :
  entry_ok around (foldl (λ w i, (game_input around untouched w i).1) ann_entered
    [(1, Ask join_request); (200, Tick); (201, Ask shout_request)]).
Proof.
  apply (game_server_keeps_directory around untouched
    [(1, Ask join_request); (200, Tick); (201, Ask shout_request)] ann_entered).
  split; [exact with_room_ok|]. intros gm [= <-]. split; [by eexists|]. apply not_elem_of_nil.
Defined.

(** Too early, and too early for good. *)
Lemma early_client_waits_witness :
  let early := mkEntry _ (mkAuthWorld with_room empty_registry None) no_room None true in
  let '(w1, out) := game_input around untouched early (100, Ask token_request) in
  out = [] ∧
  (game_input around untouched w1 (2000, Tick)).2 = [] ∧
  (game_input around untouched w1 (2100, Tick)).2 =
    [Respond (operation_code token_request) AuthenticationTokenExpired ∅ 0; HangUp].
Proof.
  cbn zeta. set (early := mkEntry _ _ _ _ _).
  pose proof (early_client_waits around untouched token_request "t1" early 100 eq_refl eq_refl eq_refl
    eq_refl (or_introl eq_refl) token_carried eq_refl eq_refl) as Hw.
  destruct (game_input around untouched early (100, Ask token_request)) as [w1 out].
  destruct Hw as (-> & Ha & Hw). split; [done|].
  assert (w1 <| auth := auth w1 |> = w1) as E by (by destruct w1).
  assert (has_persistent_peer (registry (auth w1)) "t1" = false) as Hk by (by rewrite Ha).
  pose proof (Hw (auth w1) 2000) as H1. pose proof (Hw (auth w1) 2100) as H2.
  cbn zeta in *. rewrite E, Hk in *. by rewrite H1, H2.
Defined.

Lemma unsolicited_never_joins_witness :
  no_success (game_request around untouched 2 join_request ann_outside).1.2.
Proof.
  apply (proj2 (unsolicited_never_joins around untouched join_request ann_outside
    (conj eq_refl (ex_intro _ invited eq_refl)))).
Defined.

(** An identity that came from the name server. *)
Definition uninvited : PeerPersistent := identity "ann" "t1".
Definition parked_uninvited : Registry :=
  (store_persistent_peer no_games empty_registry uninvited).1.

Definition from_name_server : EntryWorld :=
  mkEntry _ (mkAuthWorld empty_directory parked_uninvited None) no_room None false.

Lemma uninvited_client_crashes_witness :
  Crash NullDereference ∈
    (game_request around untouched 2 token_request from_name_server).1.2.
Proof.
  destruct (store_found no_games empty_registry uninvited (empty_registry_ok 0 ltac:(lia))
    ltac:(discriminate) ltac:(done)) as (Hr & Hp & _).
  refine (uninvited_client_crashes around untouched token_request from_name_server "t1" _ eq_refl Hr empty_directory_ok
    eq_refl room_for_one eq_refl (or_introl eq_refl) token_carried eq_refl Hp eq_refl _ eq_refl).
  intros a. unfold app_key. cbn. rewrite lookup_empty. discriminate.
Defined.

(** ** The name server *)

Definition name_servers : list (ServerConfig (H := two_transports)) :=
  mkServerConfig (H := two_transports) MasterServer 5055 false false false "" 19302 "h:5055" [] :: sample_configs.
Definition around_masters : Surroundings :=
  mkSurroundings _ _ name_servers (λ _, O) false 100 3 "guest" "t9" everyone [] 0.

Lemma plugins_careful : ¬ careless_plugin.
Proof. intros (pl & t & cb & u & p & d & s & url & ps & E & _). discriminate E. Defined.

Lemma let_in : ∃ pp, own (name_request around_masters (λ _ _, O) token_request idle).1.1 = Some pp.
Proof.
  destruct (authenticate_parked (held_by_identities around_masters idle)
    (max_connections around_masters) (connection_count around_masters)
    (drawn_user_id around_masters) (drawn_token around_masters) token_request true idle "t1" stored parked_once_ok room_for_one token_carried stored_parked)
    as (r & _ & _ & E). cbn zeta in E.
  exists (stored <| token := "t9"%string |>).
  assert (name_request around_masters (λ _ _, O) token_request idle
    = name_authenticate around_masters token_request idle) as ->
    by (unfold name_request; rewrite get_bind; reflexivity).
  unfold name_authenticate. erewrite ran_bind.
  2: { unfold authenticating. rewrite E. reflexivity. }
  rewrite get_bind. reflexivity.
Qed.

Lemma name_server_sends_on_witness :
  ∃ w' out r msgs pp, name_request around_masters (λ _ _, O) token_request idle = (w', out, r) ∧
    own w' = Some pp ∧ out = (Ipc_ <$> msgs) ++
       [Respond OpAuthenticate Ok (<[KeyAddress := of_string "h:5055"]>
          (<[KeyUserId := of_string (user_id pp)]> (<[KeyToken := of_string (token pp)]> ∅))) 0].
Proof.
  pose proof (name_server_sends_on around_masters (λ _ _, O) token_request idle eq_refl
    parked_once_ok plugins_careful eq_refl (or_introl eq_refl)) as H.
  destruct let_in as [pp Hpp]. destruct (name_request _ _ _ _) as [[w' out] r].
  destruct H as [msgs H]. cbn [fst] in Hpp. rewrite Hpp in H.
  exists w', out, r, msgs, pp. split; [reflexivity|]. split; [exact Hpp|].
  change (master_address around_masters (draw_server around_masters)) with (Some "h:5055"%string) in H.
  exact (proj1 H).
Defined.

(** ** Lists and matchmaking *)

Lemma room_list_shows_best_witness :
  ∃ shown rest, listable with_room the_lobby (λ _, true) ≡ₚ shown ++ rest ∧
    (∀ a b, a ∈ shown → b ∈ rest → listed_before b a = false) ∧
    ∀ k v, get_game_list with_room the_lobby true (λ _, true) !! k = Some v →
      ∃ r, r ∈ shown ∧ k = of_string (id r.2).
Proof.
  destruct (room_list_shows_best with_room 1 the_lobby (λ _, true) with_room_ok the_lobby_lives)
    as (shown & rest & Hp & _ & Hb & Hs).
  exists shown, rest. split; [exact Hp|]. split; [exact Hb|]. intros k v Hv.
  destruct (proj1 (Hs k v) Hv) as (r & Hr & Hk & _). by exists r.
Defined.

(** The room, created. *)
Definition lively : Game := new_game 2 1 "room" "h:5056" <| is_created := true |>.
Definition with_lively : Directory := with_room <| game_heap := <[2%nat := lively]> ∅ |>.

Lemma matchmaking_chooses_eligible_witness :
  ∃ gm, choose (λ _, O) SerialMatching
    (candidates settings everyone "dan" with_lively the_lobby ∅) = Some gm.
Proof.
  pose proof (matchmaking_chooses_eligible settings everyone "dan" (λ _, O) SerialMatching
    with_lively the_lobby ∅ (λ n Hn, Hn) (or_introl eq_refl)) as H.
  destruct (choose _ _ _) as [gm|]; [by exists gm|]. exfalso.
  apply (H 2%nat lively). repeat split; try reflexivity. by left.
Defined.

(** ** The master server *)

Definition ann_at_master (d : Directory) : MasterWorld :=
  mkMaster (mkAuthWorld d empty_registry (Some invited)) None None [] [] 0.

Definition first_app : App :=
  mkApp (mkAppInfo "app" "1") (mkAppSettings EmptyString 0 0 EmptyString 0 16 1 true true)
    {[ (EmptyString, 0) := 1%nat ]} {[ "room"%string := 2%nat ]}.
Lemma first_app_lives : app_heap with_room !! 0%nat = Some first_app.
Proof. vm_compute. reflexivity. Defined.

Lemma lively_context :
  room_context with_lively 2 = Some (lively, settings_ first_app, get_lobby_info first_app the_lobby).
Proof.
  apply room_context_lobby. split; [reflexivity|]. exists the_lobby, 0%nat, first_app.
  exact (conj the_lobby_lives (conj eq_refl (conj first_app_lives (conj eq_refl eq_refl)))).
Defined.

Lemma join_existing_game_witness :
  ∃ fs w' out r, decode join_game_model (r_parameters join_request) = inr fs ∧
    join_found around join_request fs invited 2 false (ann_at_master with_lively) = (w', out, r) ∧
    handed_over invited (get_game_info (get_lobby_info first_app the_lobby) lively) w'.
Proof.
  destruct (decoded_inr join_game_model join_request (λ fs,
    bool_decide ((if (got TByte KeyCreateIfNotExists fs =? 3)
                     && negb (has_expected_user lively "ann") then GameIdNotExists
                  else validate_join (settings_ first_app) everyone lively "ann"
                         (got TStrings KeyExpectedUsers fs) false) = Ok))) as (fs & Hd & Hq);
    [vm_compute; reflexivity|].
  apply bool_decide_eq_true in Hq.
  pose proof (join_existing_game around join_request fs invited 2 (ann_at_master with_lively) lively
    _ _ 0 first_app lively_context eq_refl eq_refl (empty_registry_ok 0 ltac:(lia)) ltac:(done)
    eq_refl first_app_lives) as H.
  cbv zeta in H. exists fs. destruct (join_found _ _ _ _ _ _ _) as [[w' out] r].
  exists w', out, r. split; [exact Hd|]. split; [reflexivity|].
  destruct (decide _) as [_|n] in H; [exact (proj1 H)|destruct (n Hq)].
Defined.

Definition routed : MasterWorld :=
  (route join_request 2 true ∅ (ann_at_master with_room)).1.1.
Definition arriving : EntryWorld :=
  mkEntry _ (mkAuthWorld (the_dir routed) (registry (m_auth routed)) None) no_room None false.

Lemma fresh_context : ∃ g, room_context with_room 2 =
  Some (g, settings_ first_app, get_lobby_info first_app the_lobby).
Proof.
  eexists. apply room_context_lobby. split; [reflexivity|]. exists the_lobby, 0%nat, first_app.
  exact (conj the_lobby_lives (conj eq_refl (conj first_app_lives (conj eq_refl eq_refl)))).
Defined.

Lemma routed_client_enters_witness :
  current_game (entry_authenticate around untouched token_request arriving).1.1 = Some 2%nat.
Proof.
  destruct fresh_context as [g Hc].
  pose proof (routed_client_enters around untouched join_request 2 true ∅ (ann_at_master with_room)
    g _ _ invited token_request arriving with_room_ok Hc eq_refl (empty_registry_ok 0 ltac:(lia))
    ltac:(discriminate) ltac:(done) eq_refl eq_refl eq_refl room_for_one ltac:(apply not_elem_of_nil)
    token_carried eq_refl) as H.
  destruct (entry_authenticate _ _ _ _) as [[we out] r]. exact (proj1 H).
Defined.

(** A client connects and joins the default lobby. *)
Definition nobody_connected : Masters := mkMasters with_room empty_registry ∅.
Definition newcomer : MasterWorld :=
  mkMaster (mkAuthWorld with_room empty_registry None) None None [] [] 0.
Definition one_connected : Masters :=
  mkMasters with_room empty_registry (<[5%nat := newcomer]> ∅).
Definition no_split (s : string) (c : Ascii.ascii) (n : nat) : list string := [s].
Definition after_request : MasterWorld :=
  (master_request around 5 "0001" (λ _, O) no_split (λ _ _, None) [] token_request
     (seen one_connected newcomer)).1.1.
Definition one_known : Masters :=
  mkMasters (the_dir after_request) (registry (m_auth after_request))
    (<[5%nat := after_request]> (clients one_connected)).

Lemma master_servers_sound_witness : masters_ok one_known.
Proof.
  apply (master_servers_sound nobody_connected one_known).
  - eapply rtc_l; [exact (connects nobody_connected 5 0 eq_refl)|].
    eapply rtc_l; [|apply rtc_refl].
    apply (acts one_connected 5 newcomer after_request); [reflexivity|]. apply requested.
  - split; [exact with_room_ok|]. intros i w Hi. cbn in Hi. by rewrite lookup_empty in Hi.
Defined.

(** ** Mirrored rooms *)

(** The room of three at its owner, before and after it was closed. *)
Definition owned_room : Game := room <| max_peers := 4 |>.
Definition closed_room : Game := owned_room <| is_open := false |> <| state_revision_ := 7 |>.
Definition blank : Game := new_game 9 1 "room" "udp://h:5056".

Lemma owned_announced : announced owned_room.
Proof. split; [cbn; lia|set_solver]. Defined.
Lemma closed_announced : announced closed_room.
Proof. split; [cbn; lia|set_solver]. Defined.

Definition deliveries : list Game := [closed_room; owned_room; closed_room].

Lemma closed_newest h :
  h ∈ owned_room :: deliveries → h = closed_room ∨ state_revision_ h < state_revision_ closed_room.
Proof.
  intros Hh. unfold deliveries in Hh. rewrite !elem_of_cons in Hh.
  destruct Hh as [->|[->|[->|[->|Hh]]]]; [right| | right| |]; try (left; reflexivity);
    [apply Z.ltb_lt; reflexivity..|].
  by apply not_elem_of_nil in Hh.
Defined.

Lemma mirror_converges_witness :
  ∃ m1 eff, update_mirror settings lobby (update_of lobby owned_room) true blank = Some (m1, eff) ∧
    reflects closed_room (foldl (receive settings lobby) m1 deliveries) ∧
    is_open (foldl (receive settings lobby) m1 deliveries) = false.
Proof.
  destruct (new_accepted settings lobby (update_of lobby owned_room) blank) as (m1 & eff & E).
  exists m1, eff. split; [exact E|].
  destruct (mirror_converges settings lobby blank m1 eff owned_room deliveries
    owned_announced (Forall_cons_2 _ _ _ closed_announced (Forall_cons_2 _ _ _ owned_announced
      (Forall_cons_2 _ _ _ closed_announced (Forall_nil_2 _)))) eq_refl E) as (_ & _ & _ & Hr).
  specialize (Hr closed_room ltac:(right; left) closed_newest).
  split; [exact Hr|]. exact (same_open _ _ Hr).
Defined.

Lemma owned_room_ok : game_ok owned_room.
Proof. exact (game_ok_view room owned_room eq_refl room_ok). Defined.

Lemma capacity_differs : max_peers blank ≠ max_peers owned_room.
Proof. by vm_compute. Defined.
Lemma no_dummies : 0 ≤ dummy_peer_count owned_room.
Proof. by vm_compute. Defined.
Lemma few_members : len (peers owned_room) + dummy_peer_count owned_room < 256.
Proof. by vm_compute. Defined.
Lemma eve_leaves : (remove_peer everyone owned_room (Some 3%nat)).1.2 = true.
Proof. vm_compute. reflexivity. Defined.

Lemma mirror_misses_departure_witness :
  ∃ m1 eff, update_mirror settings lobby (update_of lobby owned_room) true blank = Some (m1, eff) ∧
    receive settings lobby m1 (remove_peer everyone owned_room (Some 3%nat)).1.1 = m1.
Proof.
  destruct (new_accepted settings lobby (update_of lobby owned_room) blank) as (m1 & eff & E).
  exists m1, eff. split; [exact E|].
  pose proof (mirror_misses_departure settings lobby blank m1 eff everyone owned_room 3%nat
    owned_room_ok owned_announced eq_refl E (or_intror capacity_differs) no_dummies few_members) as H.
  pose proof eve_leaves as Ht.
  destruct (remove_peer everyone owned_room (Some 3%nat)) as [[g' removed] e'].
  exact (proj1 (H Ht)).
Defined.
