(* ===== verification/PluginScenarios.v ===== *)
(** * Concrete plugins

    The theorems about events, rooms and connections in the hands of plugins,
    applied to the room of [Scenarios] and a small foreign plugin. *)

From S2P Require Import Prelude Program Values Types GameState GameMembers GameCreation GameProps GameEvents GameSteps DataModel HandlerGame HandlerGameSafety Scenarios ForeignBuffers PluginEvents PluginCalls PluginHost.
Open Scope Z_scope.
Import TreeSer PhotonCodes.

Definition no_dictionary (v : Value) : option ParameterList := None.

(** ** An event that is sent twice *)

Definition once : list Edit := [SetRoutingMetadata 5 0 1 0 0; SetReceiversActors (Some [3]) 1].
Definition first_event : Event := foldl (edit no_dictionary) createEvent once.
Definition sent := gameBroadcastEvent everyone (Some room) (Some first_event).

(** Given data, and broadcast once more. *)
Definition later : list Use := [Edits (SetData (Some (of_bool true))); Broadcasts everyone (Some room)].
Definition later_event : Event := foldl (use no_dictionary) (default first_event sent.1) later.

Lemma first_packet : Send 3%nat [1; 5; 1] 0 1 ∈ sent.2.
Proof.
  assert (sent.2 = [Send 3%nat [1; 5; 1] 0 1]) as -> by (vm_compute; reflexivity). left.
Defined.

(** Eve gets two packets; the second was given data, and is the first. *)
Lemma broadcast_fixes_content_witness :
  sent.2 = [Send 3%nat [1; 5; 1] 0 1] ∧
  (gameBroadcastEvent everyone (Some room) (Some later_event)).2 = [Send 3%nat [1; 5; 1] 0 1] ∧
  serialize 1 (event_message later_event) = Some [1; 5; 2].
Proof.
  pose proof (broadcast_fixes_content no_dictionary everyone room) as [Hfirst Hlater].
  split; [|split; [|vm_compute; reflexivity]].
  - etransitivity; [exact (Hfirst once)|]. vm_compute. reflexivity.
  - pose proof (Hlater (Edits <$> once) 3%nat (mkPeer 1 (Some (identity "eve" "t3"))) 1 [5; 1] 0 1
      eq_refl ltac:(apply Nat.ltb_lt; vm_compute; reflexivity) first_packet later everyone room)
      as [E Hpay].
    etransitivity; [exact E|]. vm_compute. reflexivity.
Defined.

(** ** A room in a plugin's hands *)

Definition info : LobbyInfo := lobby.
Definition all_alive (g : nat) : bool := true.
Definition reach : Reach := mkReach room ∅.

Lemma reach_reach_ok : reach_ok reach.
Proof. split; [exact room_ok|]. apply map_Forall_empty. Defined.

(** The room after a call that goes well. *)
Definition after (c : PluginCall) (r : Reach) : Reach :=
  default r (fst <$> run_call settings info all_alive everyone r c).
Definition goes_well (c : PluginCall) (r : Reach) : bool :=
  match run_call settings info all_alive everyone r c with Some _ => true | None => false end.

Lemma ran c r :
  goes_well c r = true →
  ∃ eff, run_call settings info all_alive everyone r c = Some (after c r, eff).
Proof.
  unfold goes_well, after. destruct (run_call _ _ _ _ r c) as [[r' eff]|]; [|done].
  intros _. by exists eff.
Defined.

(** The plugin makes a node for dan, tries to add it, and removes eve. *)
Definition after_create : Reach := after (CreatePeer 4%nat) reach.
Definition after_add : Reach := after (AddPeer (Container 0)) after_create.
Definition after_remove : Reach := after (RemovePeer 3%nat) after_add.

Lemma well_create : goes_well (CreatePeer 4%nat) reach = true.
Proof. vm_compute. reflexivity. Defined.
Lemma well_add : goes_well (AddPeer (Container 0)) after_create = true.
Proof. vm_compute. reflexivity. Defined.
Lemma well_remove : goes_well (RemovePeer 3%nat) after_add = true.
Proof. vm_compute. reflexivity. Defined.

Lemma plugin_keeps_room_witness : reach_ok after_remove.
Proof.
  apply (plugin_keeps_room settings info all_alive reach after_remove reach_reach_ok).
  destruct (ran _ _ well_create) as [e1 E1], (ran _ _ well_add) as [e2 E2],
    (ran _ _ well_remove) as [e3 E3].
  eapply rtc_l; [exact (plugin_turn settings info all_alive _ _ _ _ _ E1)|].
  eapply rtc_l; [exact (plugin_turn settings info all_alive _ _ _ _ _ E2)|].
  apply rtc_once. exact (plugin_turn settings info all_alive _ _ _ _ _ E3).
Defined.

(** Dan's node is refused, and fewer members are left. *)
Lemma plugin_adds_no_member_witness :
  sublist (members (the_game after_remove)) [1; 2; 3] ∧
  members (the_game after_add) = [1; 2; 3] ∧ members (the_game after_remove) = [1].
Proof.
  split; [|split; vm_compute; reflexivity].
  apply (proj1 (plugin_adds_no_member settings info all_alive reach after_remove reach_reach_ok
    (rtc_l _ _ _ _ (let '(ex_intro _ e E) := ran _ _ well_create in
                     ex_intro _ everyone (ex_intro _ _ (ex_intro _ e E)))
    (rtc_l _ _ _ _ (let '(ex_intro _ e E) := ran _ _ well_add in
                     ex_intro _ everyone (ex_intro _ _ (ex_intro _ e E)))
    (rtc_once _ _ (let '(ex_intro _ e E) := ran _ _ well_remove in
                   ex_intro _ everyone (ex_intro _ _ (ex_intro _ e E)))))))).
Defined.

Lemma set_expected_users_replaces_witness :
  expected_users (gameSetExpectedUsersFromSerValue room
    (of_strings ["ann"; EmptyString; "bob"; "ann"])).1 = {["ann"; "bob"]}.
Proof.
  rewrite (proj1 (set_expected_users_replaces room
    (of_strings ["ann"; EmptyString; "bob"; "ann"]) ["ann"; EmptyString; "bob"; "ann"] eq_refl)).
  by apply (bool_decide_unpack _).
Defined.

(** ** A connection to a room with a foreign plugin

    The plugin, whose id is 1, opens a seat before a join and answers later,
    with a change of a property of the room. *)

Definition host_imports : LuxonServerImports := {|
  gamePluginOnAttach := None;
  gamePluginOnCreateGame _ _ _ := None;
  gamePluginBeforeJoin id := Some (λ w,
    ([SetMaxPeers (get_config_snapshot (HandlerGame.room w)) 8],
     Async (λ w, ([InsertGameProps (of_table update) true], PLUGIN_RESULT_CONTINUE))));
  gamePluginOnJoinGame _ _ := None;
  gamePluginOnLeave _ _ := None;
  gamePluginOnRaiseEvent _ _ _ _ := Some (λ w, ([], Result_ PLUGIN_RESULT_CANCEL));
  gamePluginEditEvent _ _ := [];
  gamePluginBeforeSetProperties _ _ _ _ _ _ := None;
  gamePluginOnSetProperties _ _ _ _ _ _ := None;
|}.

Definition others (w : World) : World := w.
Lemma others_ok w : game_ok (HandlerGame.room w) →
  rtc step (HandlerGame.room w) (HandlerGame.room (others w)) ∧ locals (others w) = locals w.
Proof. by split. Qed.

Definition hosted : Plugins :=
  ffi_plugins settings info all_alive no_dictionary everyone ∅ others host_imports
    (λ _, [1]) None.

(** Dan joins, and the room has the seats and the property the plugin gave it. *)
Lemma connection_with_foreign_plugins_witness :
  let w' := foldl (λ w a, act (H2 := hosted) everyone settings lobby a w) dan
              [ARequest join_request 0; ARequest shout_request 5] in
  rtc step room (HandlerGame.room w') ∧ game_ok (HandlerGame.room w') ∧
  max_peers (HandlerGame.room w') = 8 ∧
  custom_props (HandlerGame.room w') !! key "map" = Some (of_int32 4).
Proof.
  destruct (connection_with_foreign_plugins settings info all_alive no_dictionary everyone ∅ others
    host_imports (λ _, [1]) None (map_Forall_empty _) others_ok dan
    [ARequest join_request 0; ARequest shout_request 5] room_ok room_lease_ok) as (Hs & Hok & _).
  split; [exact Hs|]. split; [exact Hok|]. split; vm_compute; reflexivity.
Defined.
