(* ===== verification/ServiceScenarios.v ===== *)
(** * The theorems about processes and services at concrete inputs

    A configuration file with two servers, the codec at a structure of every
    kind of field, a batch, and connections of the HTTP server. *)

From S2P Require Import Prelude Values Ipc ServerManager PfrCodec Yaml Configuration ConfigSpec Subprocess HttpBatch HttpServer.
Open Scope Z_scope.

Import TreeSer.

(** ** The codec *)

(** A pair of a map and an optional variant, with an array beside them. *)
Definition sample_ty : Ty :=
  TyTuple (TCons (TyPair (TyMap TyString (TyOther U16)) (TyOptional (TyVariant
      (TCons TyBool (TCons (TyVector (TyEnum U8)) TNil)))))
    (TCons (TyArray 2 (TyOther I8)) TNil)).
Definition sample_object : carrier sample_ty :=
  (([("a", 65535); ("b", 0)], Some (inr (inl [1; 2]))), ([-128; 127], tt)).

Lemma codec_roundtrip_witness :
  ∃ v, encode 64 sample_ty sample_object "$" 0 = inl v ∧
       decode 64 sample_ty v "$" 0 = inl sample_object.
Proof.
  apply (codec_roundtrip 64 sample_ty sample_object "$" "$").
  - reflexivity.
  - cbn. repeat split; try lia; repeat constructor; cbn; try lia; set_solver.
  - cbn. lia.
Defined.

(** Too deep for the decoder though not for the encoder: an array takes one
    more level on the way back. *)
Example array_too_deep :
  (∃ v, encode 1 (TyArray 1 (TyOther U16)) [7] "$" 0 = inl v ∧
        decode 1 (TyArray 1 (TyOther U16)) v "$" 0
          = inr (mkError "$[0]" "maximum nesting depth exceeded")).
Proof. eexists. split; [reflexivity|]. by vm_compute. Qed.

(** ** The configuration *)

#[local] Existing Instance two_transports.

Definition zeroed (w : Z) (p : string) : Z := 0.

Definition game_server : Node :=
  MapNode [("external_address", ScalarNode "h:5056"); ("port", ScalarNode "5056");
           ("proxies", SequenceNode [MapNode [("address", ScalarNode "ws://h:9091");
                                              ("protocol", ScalarNode "WebSocket")]]);
           ("subprocess", ScalarNode "yes")].
Definition master_server : Node :=
  MapNode [("external_address", ScalarNode "h:5055"); ("port", ScalarNode "5055")].
Definition root_entries : list (string * Node) :=
  [("CCU", ScalarNode "100");
   ("HTTP", MapNode [("enabled", ScalarNode "true"); ("port", ScalarNode "5088")]);
   ("MaxGamePeers", ScalarNode "16");
   ("Servers", MapNode [("GameServer", SequenceNode [game_server]);
                        ("MasterServer", SequenceNode [master_server])])].

Definition game_config : ServerConfig :=
  mkServerConfig GameServer 5056 false true false "" 19302 "h:5056"
    [mkProxyConfig (H := two_transports) true "ws://h:9091"].
Definition master_config : ServerConfig :=
  mkServerConfig MasterServer 5055 false false false "" 19302 "h:5055" [].
Definition sample_config : ServerManagerConfig :=
  mkManagerConfig [game_config; master_config] true false 0 16 2000 ""
    (Some (mkHttpConfig true "0.0.0.0" 5088)).

Lemma sample_parsed : parse_config zeroed (MapNode root_entries) = inl sample_config.
Proof. by vm_compute. Qed.

Lemma zeroed_range w p : 0 ≤ w → 0 ≤ zeroed w p < 2 ^ w.
Proof. intros Hw. unfold zeroed. pose proof (Z.pow_pos_nonneg 2 w). lia. Qed.

Lemma root_ordered m : MapNode root_entries = MapNode m → ordered m.
Proof. intros [= <-]. repeat constructor. Defined.

(** The same file with a key that is not known. *)
Definition mistyped : list (string * Node) := ("Banner"%string, ScalarNode "100") :: root_entries.
Lemma mistyped_ordered m : MapNode mistyped = MapNode m → ordered m.
Proof. intros [= <-]. repeat constructor. Defined.

Lemma parse_config_ok_witness :
  describes zeroed root_entries sample_config ∧ config_ok sample_config ∧
  ∀ c, parse_config zeroed (MapNode mistyped) ≠ inl c.
Proof.
  destruct (parse_config_ok zeroed (MapNode root_entries) sample_config root_ordered) as [Hd Hok].
  destruct (proj1 Hd sample_parsed) as (m & [= <-] & Hm). split; [exact Hm|].
  split; [exact (Hok zeroed_range sample_parsed)|]. intros c Hc.
  destruct (parse_config_ok zeroed (MapNode mistyped) c mistyped_ordered) as [Hd' _].
  destruct (proj1 Hd' Hc) as (m & [= <-] & [Hk _ _ _ _ _ _ _ _ _]).
  specialize (Hk "Banner"%string ltac:(left)). revert Hk. by rewrite !elem_of_cons, elem_of_nil.
Defined.

(** The limit of 100 in the file is not the limit that is used. *)
Lemma connection_limit_read_witness :
  parse_config zeroed (MapNode root_entries) = inl sample_config ∧
  cfg_max_connections sample_config = zeroed 32 "MaxConnections".
Proof.
  split; [exact sample_parsed|].
  refine (connection_limit_read zeroed root_entries sample_config _ sample_parsed).
  repeat constructor.
Defined.

(** ** A subprocess *)

#[local] Instance bool_protocol : ProtocolCode (H := two_transports) := {|
  protocol_int := U8;
  protocol_code := (Z.b2z : @ServerProtocol two_transports → Z);
  protocol_of := (λ z, z =? 1) : Z → @ServerProtocol two_transports |}.
#[local] Instance bool_protocol_law : ProtocolCodeLaw.
Proof. split. by intros []. Qed.

Definition parent_end : IPC := mkIPC 9 10 [] [].
Definition child_end : IPC := mkIPC 10 (-1) [] [].

Lemma sample_ok : config_ok sample_config.
Proof. repeat split; try lia; repeat constructor; try done; cbn; lia. Qed.

Lemma sample_distinct : distinct (servers sample_config).
Proof. apply (bool_decide_unpack _). by vm_compute. Qed.

Lemma subprocess_inherits_witness :
  ∃ v child,
    setup_subprocess (construct sample_config child_end) ∅ game_config true (Some parent_end)
    = ({[config_port game_config := mkIPC 9 (-1) [] []]}, Some 10, Some v) ∧
    receive_config v = inl child ∧
    setup (configs_ (construct child child_end)) = [Listen (child_server game_config game_config)].
Proof.
  destruct (subprocess_inherits sample_config child_end ∅ game_config parent_end child_end
    sample_ok sample_distinct) as (v & child & Hv & Ht & Hc & Hs & _).
  - by left.
  - exists v, child. split; [|done]. specialize (Ht (lookup_empty _)).
    destruct (setup_subprocess _ _ _ _ _) as [tf w]. cbn in Ht, Hv. by subst tf w.
Defined.

(** ** A batch *)

(** A JSON library for the examples: pointers of one index of a digit. *)
#[local] Instance sample_json : JsonLib := {|
  json_at j p :=
    match j, p with
    | JArray l, String _ (String d EmptyString) =>
        match l !! Z.to_nat (code_of d - 48) with Some j => inl j | None => inr "out of range" end
    | _, EmptyString => inl j
    | _, _ => inr "unresolved"
    end;
  json_dump _ := inl "json";
  json_parse _ := inr "syntax";
  json_error m := m |}.

(** A router that lists two rooms and describes each by its path. *)
Definition sample_route (method path : string) : fallible string Json :=
  if bool_decide (path = "/rooms") then inl (JArray [JString "r1"; JString "r2"])
  else if bool_decide (path = "/none") then inr "Endpoint not found"
  else inl (JString path).

Definition step_of (path : string) : Json := JObject [("path", JString path)].

Lemma plain_batch_is_serial_witness :
  execute_batch sample_route
    (JObject [("steps", JArray [step_of "/rooms"; step_of "/none"; step_of "/x"])])
  = (Responses [ok_response 0 (JArray [JString "r1"; JString "r2"]);
                error_response 1 "Endpoint not found"],
     [("GET", "/rooms"); ("GET", "/none")]).
Proof.
  refine (plain_batch_is_serial sample_route _ [("GET", "/rooms"); ("GET", "/none"); ("GET", "/x")]
    _ _); [|cbn; lia].
  apply Forall2_cons_2; [by split|]. apply Forall2_cons_2; [by split|].
  apply Forall2_cons_2; [by split|]. apply Forall2_nil_2.
Defined.

(** A wildcard makes one request for each element. *)
Example wildcard_batch :
  execute_batch sample_route
    (JObject [("steps", JArray [step_of "/rooms"; step_of "/room/{$steps/0/*}/info"])])
  = (Responses [ok_response 0 (JArray [JString "r1"; JString "r2"]);
                ok_response 1 (JArray [JString "/room/r1/info"; JString "/room/r2/info"])],
     [("GET", "/rooms"); ("GET", "/room/r1/info"); ("GET", "/room/r2/info")]).
Proof. by vm_compute. Qed.

(** ** Connections *)

#[local] Instance sample_http : HttpLib := {|
  parse_raw_http _ := Some (mkRequest "GET" "/style.css" "");
  build_time := "today"; index_html := "i"; stats_html := "s"; style_css := "body{}";
  prometheus_metrics := "" |}.

Definition routed (method path : string) : Routed := OutOfRange "Endpoint not found".
Definition blank_line : string := newline +:+ newline.

(** A request arrives, the socket takes ten bytes of the answer, then the rest. *)
Definition sample_rounds : list (Z * list Z * Answers) :=
  [(1, [5], mkAnswers (-1) (λ _, Received blank_line) (λ _, Sent 10));
   (2, [], mkAnswers (-1) (λ _, RecvWouldBlock) (λ _, Sent 1000))].

Lemma connection_answers_once_witness :
  let '(c, wire) := run_client routed sample_rounds
    (mkClient 5 "" "" false false false 0) "" in
  shutdown_sent c = true ∧ wire ≠ "" ∧
  ∃ replies, wire +:+ write_buffer c = joined replies ∧
    replies_to routed (request_buffer c) replies.
Proof.
  destruct (run_client routed sample_rounds (mkClient 5 "" "" false false false 0) "")
    as [c wire] eqn:E.
  destruct (connection_answers_once routed sample_rounds 5 0 c wire E)
    as (_ & replies & Hw & Hr & _).
  split; [apply (f_equal (shutdown_sent ∘ fst)) in E; revert E; by vm_compute|].
  split; [|by exists replies].
  intros ->. apply (f_equal snd) in E. revert E. by vm_compute.
Defined.

Fixpoint chars (n : nat) : string :=
  match n with O => EmptyString | S n => "x" +:+ chars n end.

Definition full_client : HttpClient :=
  mkClient 5 (chars (Z.to_nat MAX_PAYLOAD_SIZE)) "" false true false 0.
Definition flood : list (Z * list Z * Answers) :=
  [(1, [5], mkAnswers (-1) (λ _, Received "y") (λ _, Sent 1000));
   (2, [5], mkAnswers (-1) (λ _, Received "y") (λ _, Sent 1000))].

Lemma flooding_grows_buffer_witness :
  let '(c, wire) := run_client routed flood full_client "" in
  wire = "" ∧ size_of (write_buffer c) = 2 * size_of too_large.
Proof.
  pose proof (flooding_grows_buffer routed flood full_client "" "y" eq_refl
    ltac:(vm_compute; reflexivity)
    ltac:(repeat split; try (vm_compute; discriminate); by left)) as Hf.
  destruct (run_client routed flood full_client "") as [c wire].
  destruct Hf as (Hw & _ & Hs). split; [exact Hw|]. rewrite Hs. reflexivity.
Defined.

Lemma server_keeps_books_witness :
  ∃ s, rtc (server_step routed) (mkServer 3 [] [], ∅) (s, {[7]}) ∧
       NoDup (fd <$> clients_ s) ∧ 7 ∈ fd <$> clients_ s.
Proof.
  assert (rtc (server_step routed) (mkServer 3 [] [], ∅)
    (mkServer 3 [mkClient 7 "" "" false false false 1] [], {[7]})) as Hrun.
  { apply rtc_once. 
    pose proof (server_round routed (mkServer 3 [] []) ∅ [3] 1
      (mkAnswers 7 (λ _, RecvWouldBlock) (λ _, SendWouldBlock)) _ _ ltac:(cbn; set_solver) eq_refl)
      as Hstep.
    exact Hstep. }
  destruct (server_keeps_books routed 3 _ _ Hrun) as (_ & Hn & Hr & _).
  eexists. split; [exact Hrun|]. split; [exact Hn|]. apply Hr. set_solver.
Defined.
