(* ===== verification/QueryScenarios.v ===== *)
(** * A lobby queried through the database

    The theorem of [LobbyTable] at a lobby with one room that has two
    properties, and conditions at which the table and SQL differ. *)

From S2P Require Import Prelude Values Types GameState GameProps GameSteps PeerPersistence ServerManager Directory DirectoryScenarios SqlText LobbyTable.
From stdpp Require Import pretty.
Open Scope Z_scope.
Import TreeSer PhotonCodes.

(** ** Values of the database *)

(** A real number is given by its integer part and its text. *)
Inductive sample_value :=
  | SNull
  | SInt (z : Z)
  | SFloat (whole : Z) (text : string)
  | SText (s : string).

#[export] Instance sample_values : SqliteValues := {|
  sql_value := sample_value;
  sqlite3_value_type v :=
    match v with
    | SNull => SQLITE_NULL | SInt _ => SQLITE_INTEGER
    | SFloat _ _ => SQLITE_FLOAT | SText _ => SQLITE_TEXT
    end;
  sqlite3_value_int64 v := match v with SInt z => z | SFloat z _ => z | _ => 0 end;
  sqlite3_value_text v :=
    match v with
    | SNull => None | SInt z => Some (pretty z)
    | SFloat _ s => Some s | SText s => Some s
    end;
|}.

#[export] Instance sample_values_laws : SqliteValuesLaws.
Proof. split. by intros [|z|z s|s]. Qed.

(** ** The lobby *)

(** The room with a number and a text among its properties. *)
Definition dressed (g : Game) : Game :=
  (insert_game_props_in default_settings (mkLobbyInfo (mkAppInfo "app" "1") EmptyString 0) g
     [(of_string "C0", of_int32 5); (of_string "C1", of_string "Forest")]).1.

Definition queried : Directory :=
  match game_heap with_room !! 2%nat with
  | Some g => with_room <| game_heap ::= <[2%nat := dressed g]> |>
  | None => with_room
  end.

Lemma queried_ok : dir_ok queried.
Proof.
  unfold queried. destruct (game_heap with_room !! 2%nat) as [g|] eqn:Hg; [|exact with_room_ok].
  eapply (dir_step_ok sample_configs); [|exact with_room_ok].
  apply (step_room _ _ _ _ _ Hg), step_game_props.
Qed.

Definition queried_lobby : Lobby := mkLobby (Some 0%nat) 0%nat EmptyString 0 [2%nat] [].

(** [C0 >= 3 AND C1 = 'forest' AND __id = 'room'], and a constraint of a join
    the database cannot offer a value for. *)
Definition asked : list IndexConstraint :=
  [mkConstraint 1 SQLITE_INDEX_CONSTRAINT_GE true;
   mkConstraint 4 SQLITE_INDEX_CONSTRAINT_EQ false;
   mkConstraint 2 SQLITE_INDEX_CONSTRAINT_EQ true;
   mkConstraint 0 SQLITE_INDEX_CONSTRAINT_EQ true].
Definition asked_with : list (@sql_value sample_values) :=
  [SInt 3; SNull; SText "forest"; SText "room"].
Definition asked_passed : list (@sql_value sample_values) := [SInt 3; SText "forest"; SText "room"].

Example asked_plan :
  vtBestIndex asked = mkIndexPlan [mkUsage 1 true; mkUsage 0 false; mkUsage 2 true; mkUsage 3 true]
    1 (Some "1];2=;0=;"%string) 1.
Proof. vm_compute. reflexivity. Qed.

(** What the room shows. *)
Lemma queried_columns g :
  game_heap queried !! 2%nat = Some g →
  game_column g 1 = ResultInt 5 ∧ game_column g 2 = ResultText (c_str "Forest") ∧
  game_column g 0 = ResultText (c_str "room") ∧ string_of_ptr (id g) = id g.
Proof.
  intros Hg.
  assert (∀ A (f : Game → A) x, f <$> game_heap queried !! 2%nat = Some x → f g = x) as Hf.
  { intros A f x. rewrite Hg. by intros [= <-]. }
  assert (id g = "room"%string) as Hid by (apply Hf; vm_compute; reflexivity).
  split_and!; [| | |by rewrite Hid].
  - apply (Hf _ (λ g, game_column g 1)). vm_compute. reflexivity.
  - apply (Hf _ (λ g, game_column g 2)). vm_compute. reflexivity.
  - apply (Hf _ (λ g, game_column g 0)). vm_compute. reflexivity.
Qed.

Lemma asked_well : well_asked queried queried_lobby asked asked_with asked_passed.
Proof.
  split.
  - reflexivity.
  - split; [reflexivity|]. intros [|[|[|[|i]]]] u v; cbn; intros [= <-] [= <-]; done.
  - apply (bool_decide_unpack _). vm_compute. exact I.
  - intros c v gm g Hcv Hgm Hg.
    assert (taken asked asked_with = [(mkConstraint 1 SQLITE_INDEX_CONSTRAINT_GE true, SInt 3);
      (mkConstraint 2 SQLITE_INDEX_CONSTRAINT_EQ true, SText "forest");
      (mkConstraint 0 SQLITE_INDEX_CONSTRAINT_EQ true, SText "room")]) as E by (vm_compute; reflexivity).
    rewrite E in Hcv. cbn in Hgm. apply list_elem_of_singleton in Hgm as ->.
    destruct (queried_columns g Hg) as (H1 & H2 & H0 & _).
    repeat apply elem_of_cons in Hcv as [[= -> ->]|Hcv]; cbn [iColumn op].
    + rewrite H1. do 4 right. left. eauto.
    + rewrite H2. do 5 right. eauto.
    + rewrite H0. do 5 right. eauto.
    + by apply elem_of_nil in Hcv.
  - intros gm g Hgm Hg. cbn in Hgm. apply list_elem_of_singleton in Hgm as ->.
    apply (queried_columns g Hg).
Qed.

Lemma query_shows_matching_rooms_witness :
  dir_ok queried ∧ well_asked queried queried_lobby asked asked_with asked_passed ∧
  vtFilter queried 1 1 (Some "1];2=;0=;"%string) asked_passed
    = inl (mkCursor [2%nat] 0, SQLITE_OK) ∧
  scan 2 queried (mkCursor [2%nat] 0) = [(1, shown_id queried 2)].
Proof.
  split; [exact queried_ok|]. split; [exact asked_well|].
  assert (lobby_heap queried !! 1%nat = Some queried_lobby) as Hl by (vm_compute; reflexivity).
  destruct (query_shows_matching_rooms queried 1 queried_lobby asked asked_with asked_passed
    sample_values_laws queried_ok Hl asked_well) as [Hf Hs]; [reflexivity|].
  assert (filter (λ gm, conditions_hold queried (taken asked asked_with) gm = true)
    (games queried_lobby) = [2%nat]) as E by (vm_compute; reflexivity).
  rewrite E in Hf, Hs. rewrite asked_plan in Hf. split; [exact Hf|exact Hs].
Defined.

(** ** Where the table and SQL differ *)

Definition found_rooms (cs : list IndexConstraint) (values : list (@sql_value sample_values)) :
    list game_ptr + Fault :=
  let plan := vtBestIndex cs in
  match vtFilter queried 1 (idxNum plan) (idxStr plan) values with
  | inl (cur, _) => inl (games_snapshot cur)
  | inr e => inr e
  end.

(** [C0 < 5.5] misses the room whose [C0] is 5: the number is cut to 5. *)
Example fraction_cut :
  found_rooms [mkConstraint 1 SQLITE_INDEX_CONSTRAINT_LT true] [SFloat 5 "5.5"] = inl [].
Proof. vm_compute. reflexivity. Qed.

(** [C0 = 5.0] misses it too: the texts differ. *)
Example whole_number_missed :
  found_rooms [mkConstraint 1 SQLITE_INDEX_CONSTRAINT_EQ true] [SFloat 5 "5.0"] = inl [].
Proof. vm_compute. reflexivity. Qed.

(** [C0 = '5'] finds it, though no number equals a text. *)
Example number_equals_text :
  found_rooms [mkConstraint 1 SQLITE_INDEX_CONSTRAINT_EQ true] [SText "5"] = inl [2%nat].
Proof. vm_compute. reflexivity. Qed.

(** [__id = 'other' AND __id = 'room'] finds it: of two ids the last counts. *)
Example last_id_counts :
  found_rooms [mkConstraint 0 SQLITE_INDEX_CONSTRAINT_EQ true; mkConstraint 0 SQLITE_INDEX_CONSTRAINT_EQ true]
    [SText "other"; SText "room"] = inl [2%nat].
Proof. vm_compute. reflexivity. Qed.

(** [__id > 'Z'] misses it, though ids are declared to compare as bytes. *)
Example ids_without_case :
  found_rooms [mkConstraint 0 SQLITE_INDEX_CONSTRAINT_GT true] [SText "Z"] = inl [].
Proof. vm_compute. reflexivity. Qed.
