(* ===== verification/RouteScenarios.v ===== *)
(** * A room read over HTTP

    The theorem of [HttpRoutes] at the room of [QueryScenarios]: a value type,
    a splitter and paths, one of the older form. *)

From S2P Require Import Prelude Values Types GameState GameProps ServerManager Directory DirectoryScenarios QueryScenarios HttpText HttpBatch HttpServer HttpRoutes.
From Stdlib Require Import Ascii.
From Stdlib Require String.
Open Scope Z_scope.
Import TreeSer PhotonCodes.

(** ** Parameters *)

Fixpoint tree_size (t : tree) : nat :=
  match t with
  | GenLeaf _ => 1
  | GenNode _ l => S (foldr (λ t n, tree_size t + n)%nat 0%nat l)
  end.

#[export] Instance tree_json : JsonValues := {|
  get_dictionary _ := None;
  real_json _ := JNull;
  value_size := tree_size;
|}.

Lemma tree_size_kid n l x : x ∈ l → (tree_size x < tree_size (GenNode n l))%nat.
Proof.
  intros Hx. cbn. induction Hx as [x l|x y l _ IH]; cbn; lia.
Qed.

Lemma unpairs_elem l k x : (k, x) ∈ l → x ∈ unpairs l.
Proof.
  induction l as [|[k' x'] l IH]; [by intros ?%elem_of_nil|].
  change (unpairs ((k', x') :: l)) with (k' :: x' :: unpairs l).
  intros [[= -> ->]|Hx]%elem_of_cons; [by right; left|]. right. right. by apply IH.
Qed.

#[export] Instance tree_json_laws : JsonValuesLaws.
Proof.
  split; [done|..].
  - intros v l x Hl Hx. cbn in Hl. unfold checked in Hl. case_decide as E; [|done].
    injection Hl as <-. rewrite E. by apply tree_size_kid.
  - intros v t k x Ht Hx. cbn in Ht. unfold checked in Ht. case_decide as E; [|done].
    injection Ht as Ht. rewrite E. rewrite Ht. apply tree_size_kid, (unpairs_elem _ k).
    by apply elem_of_map_to_list.
Qed.

#[export] Instance no_stats : PeerStats :=
  Build_PeerStats (λ _, EmptyString) (λ _, 0) (λ _, 0) (λ _, 0) (λ _, 0) (λ _, 0) (λ _, 0)
    (λ _, 0) (λ _, 0).

Fixpoint split_slash (s : string) : list string :=
  match s with
  | EmptyString => [EmptyString]
  | String c s =>
      if bool_decide (c = "/"%char) then EmptyString :: split_slash s
      else match split_slash s with
           | h :: t => String c h :: t
           | [] => [String c EmptyString]
           end
  end.
#[export] Instance slash_split : PathSplit := {| str_split := split_slash |}.

#[export] Instance slash_split_laws : PathSplitLaws.
Proof.
  split. intros l Hne Hl. cbn [str_split slash_split].
  assert (∀ a, no_slash a → split_slash a = [a] ∧
    ∀ s, split_slash (a +:+ "/" +:+ s) = a :: split_slash s) as Ha.
  { induction a as [|c a IH]; intros Hno; [done|].
    unfold no_slash in Hno. cbn in Hno. apply not_elem_of_cons in Hno as [Hc Hno].
    destruct (IH Hno) as [H1 H2]. cbn [split_slash]. rewrite bool_decide_eq_false_2, H1 by done.
    split; [done|]. intros s. specialize (H2 s).
    change (String c a +:+ "/" +:+ s) with (String c (a +:+ "/" +:+ s)).
    cbn [split_slash]. rewrite bool_decide_eq_false_2 by done. by rewrite H2. }
  induction Hl as [|a l Hno Hl IH]; [|destruct l as [|b l]].
  - done.
  - by apply Ha.
  - change (join_path (a :: b :: l)) with (a +:+ "/" +:+ join_path (b :: l)).
    rewrite (proj2 (Ha a Hno)). f_equal. by apply IH.
Qed.

Definition site : Site := mkSite _ queried ∅ [] [] [] 0.

(** ** The room's paths *)

Definition all_but_a (c : ascii) : bool := negb (bool_decide (c = "a"%char)).

Lemma room_path_spec_witness :
  dir_ok queried ∧
  ∃ j, route_request site "GET" "/%61pps/%61pp/lobbies/0/g%61mes/room" = found j ∧
       route_request site "GET" "/%61pps/%61pp/g%61mes/room" = found j.
Proof.
  split; [exact queried_ok|].
  assert (∃ app, app_heap queried !! 0%nat = Some app ∧ app_id (app_ident app) = "app"%string)
    as (app & Happ & Hid).
  { assert (app_id ∘ app_ident <$> app_heap queried !! 0%nat = Some "app"%string) as E
      by (vm_compute; reflexivity).
    apply fmap_Some in E as (app & -> & ->). by exists app. }
  assert (∀ b app', app_heap queried !! b = Some app' → b = 0%nat) as Huniq.
  { intros b app' Hb. assert (elements (dom (app_heap queried)) = [0%nat]) as E
      by (vm_compute; reflexivity).
    assert (b ∈ elements (dom (app_heap queried))) as Hin by (apply elem_of_elements, elem_of_dom; eauto).
    rewrite E in Hin. by apply list_elem_of_singleton in Hin. }
  assert (room_key queried 2 = Some (0%nat, "room"%string)) as Hk by (vm_compute; reflexivity).
  pose proof Hk as (g & lobby & Hg & _)%room_key_Some. exists (game_json g).
  pose proof (room_path_spec site "GET" all_but_a 0%nat app "room" queried_ok Happ
    (λ b app' Hb _, Huniq b app' Hb)) as Hspec.
  cbv zeta in Hspec. rewrite Hid in Hspec.
  destruct Hspec as (Hfound & _ & Hold); [by apply no_slash_dec..|].
  specialize (Hold "0"%string []).
  assert (url_encode all_but_a (join_path [EmptyString; "apps"; "app"; "games"; "room"])
    = "/%61pps/%61pp/g%61mes/room"%string) as E1 by (vm_compute; reflexivity).
  assert (url_encode all_but_a (join_path [EmptyString; "apps"; "app"; "lobbies"; "0"; "games"; "room"])
    = "/%61pps/%61pp/lobbies/0/g%61mes/room"%string) as E2 by (vm_compute; reflexivity).
  rewrite E1 in Hfound. rewrite E1, E2 in Hold.
  assert (route_request site "GET" "/%61pps/%61pp/g%61mes/room" = found (game_json g)) as Hnew.
  { apply Hfound. exists 2%nat, g. split; [exact Hk|]. split; [exact Hg|reflexivity]. }
  split; [|exact Hnew].
  refine (eq_trans (Hold _ _) Hnew); [by apply no_slash_dec|constructor].
Defined.
