(* ===== verification/SettingsScenarios.v ===== *)
(** * A settings database

    The theorems of [SettingsDb] applied to a small engine: tables of rows,
    and migrations that can be made to fail. *)

From S2P Require Import Prelude Values Types GameState GameProps PeerPersistence ServerManager Directory DirectoryScenarios Release LobbyTable DataModel HandlerGame Authentication SettingsDb Scenarios ServerScenarios QueryScenarios.
Open Scope Z_scope.
Import TreeSer PhotonCodes.

(** ** The engine *)

Definition Row : Type := list sample_value.

(** The recorded versions, the rows by application, those of providers, and
    whether the statements of migrations fail. *)
Record Tables := mkTables {
  recorded : option (list Z);
  app_rows : list (string * Row);
  provider_rows : list (string * Z * Row);
  fails : bool;
}.
#[export] Instance eta_Tables : Eta Tables := λ t,
  mkTables (recorded t) (app_rows t) (provider_rows t) (fails t).

Definition is_sql (s s' : string) : bool := bool_decide (s = s').

Definition exec_tables (s : string) (t : Tables) : Tables * Z :=
  if is_sql s sql_tracking then (t <| recorded := Some (default [] (recorded t)) |>, 0)
  else if is_sql s sql_begin || is_sql s sql_commit || is_sql s sql_foreign_keys then (t, 0)
  else (t, if fails t then 1 else 0).

Definition select_tables (s : string) (bs : list Bound) (t : Tables) : option (option Row) :=
  if is_sql s sql_max_version then (λ vs, Some [SInt (newest vs)]) <$> recorded t
  else match bs with
  | [BoundText a] =>
      if is_sql s sql_app_settings
      then Some (snd <$> find_first (λ r, is_sql (fst r) a) (app_rows t)) else None
  | [BoundText a; BoundInt ty] =>
      if is_sql s sql_auth_provider
      then Some (snd <$> find_first (λ r, is_sql (fst (fst r)) a && (snd (fst r) =? ty))
                   (provider_rows t)) else None
  | _ => None
  end.

(** 19 is the code of a duplicate key. *)
Definition run_tables (s : string) (bs : list Bound) (t : Tables) : option (Tables * Z) :=
  match is_sql s sql_record, bs, recorded t with
  | true, [BoundInt v], Some vs =>
      if bool_decide (v ∈ vs) then Some (t, 19) else Some (t <| recorded := Some (v :: vs) |>, 0)
  | _, _, _ => None
  end.

(** The engine opens one file. *)
Definition stored_tables : Tables :=
  mkTables (Some [1])
    [("app"%stdpp, [SInt 2; SInt 1; SInt 7; SText "guest-"; SInt 100; SInt 40; SInt (-1); SInt 1]);
     ("unknown"%stdpp, [SInt 1; SInt 0; SInt 2; SText "anon-"; SInt 0; SInt 0; SInt 0; SInt 1])]
    [("app"%stdpp, 2, [SInt 1; SText "key"; SNull])] false.

#[local] Instance table_engine : Sqlite := {|
  Db := Tables;
  sqlite3_open_v2 p _ := if is_sql p "settings.db" then Some stored_tables else None;
  sqlite3_exec := exec_tables;
  sqlite3_select := select_tables;
  sqlite3_run := run_tables;
|}.

Lemma is_sql_spec s s' : reflect (s = s') (is_sql s s').
Proof. apply bool_decide_reflect. Qed.

#[local] Instance table_engine_laws : TracksMigrations recorded.
Proof.
  split.
  - intros d. right. cbn. unfold exec_tables.
    destruct (is_sql_spec sql_tracking sql_tracking); [by upd|done].
  - intros d vs r Hv _. cbn. unfold select_tables.
    destruct (is_sql_spec sql_max_version sql_max_version); [|done].
    rewrite Hv. intros [= <-]. eauto.
  - intros d Hv. cbn. unfold select_tables.
    destruct (is_sql_spec sql_max_version sql_max_version); [by rewrite Hv|done].
  - intros d d' v vs rc Hv. cbn. unfold run_tables.
    destruct (is_sql_spec sql_record sql_record); [|done]. rewrite Hv.
    destruct (bool_decide (v ∈ vs)); intros [= <- <-]; [done|by upd].
  - intros s d Hs. cbn. unfold exec_tables.
    destruct (is_sql_spec s sql_tracking) as [->|]; [|by destruct (_ || _)].
    exfalso. revert Hs. by apply (bool_decide_unpack (¬ (_ ∈ _))).
Qed.

Lemma inserts_succeed_here : inserts_succeed recorded.
Proof.
  intros d v vs d' rc Hv Hn. cbn. unfold run_tables.
  destruct (is_sql_spec sql_record sql_record); [|done]. rewrite Hv.
  rewrite bool_decide_eq_false_2 by done. by intros [= _ <-].
Qed.

(** ** Paths *)

Lemma open_arguments_spec_witness :
  open_arguments true "settings.db:ro:nomutex:rw:nocreate"%stdpp =
  Some ("settings.db"%stdpp, (SQLITE_OPEN_READWRITE + SQLITE_OPEN_NOMUTEX, false)).
Proof.
  destruct (open_arguments_spec true "settings.db:ro:nomutex:rw:nocreate"%stdpp) as [_ H].
  destruct (H "settings.db"%stdpp [Ro; NoMutex; Rw; NoCreate] eq_refl) as [E _]; [|exact E].
  intros p o E. apply (f_equal split_last_colon) in E.
  rewrite (split_last_colon_app _ _ (name_no_colon o)) in E. discriminate E.
Defined.

(** ** Migrations *)

(** The first migration is recorded already; the second is applied once,
    though its statement fails, and never again. *)
Definition failing : Conn := mkConn (stored_tables <| fails := true |>) [].
Definition migrated : Conn := (apply_migrations failing).1.

Lemma migrations_run_once_witness :
  apply_migrations failing = (migrated, true) ∧ recorded (db migrated) = Some [2; 1] ∧
  issued migrated = preamble ++ [(from_option sql EmptyString (MIGRATIONS !! 1%nat), []); (sql_record, [BoundInt 2])]
                             ++ [(sql_commit, [])] ∧
  issued (apply_migrations (mkConn (db migrated) [])).1 = preamble ++ [(sql_commit, [])].
Proof.
  assert (apply_migrations failing = (migrated, true)) as E by (vm_compute; reflexivity).
  destruct (@migrations_run_once sample_values table_engine recorded _ failing migrated
    ltac:(apply (bool_decide_unpack (Forall _ _)); vm_compute; reflexivity) inserts_succeed_here E)
    as [Hi Hagain].
  split; [exact E|]. split; [vm_compute; reflexivity|]. split.
  - rewrite Hi. vm_compute. reflexivity.
  - apply (Hagain (mkConn (db migrated) []) _ eq_refl). vm_compute. reflexivity.
Defined.

(** ** Applications *)

(** The directory reads the tables. *)
#[local] Instance from_tables : SettingsSource := {|
  load_hook _ s := (s, false, false);
  settings_manager := Some (λ appid,
    match get_app_settings 2 stored_tables appid with
    | Some (inl r) => r
    | _ => None
    end);
  max_game_peers_ := NormalizeMaxGamePeers 16;
|}.

Lemma app_row_answers a : ∃ r, app_row stored_tables a = Some r.
Proof.
  unfold app_row. cbn. unfold select_tables.
  destruct (is_sql_spec sql_app_settings sql_max_version) as [E|]; [discriminate E|].
  destruct (is_sql_spec sql_app_settings sql_app_settings); [eauto|done].
Qed.

Lemma tables_read : reads_settings stored_tables.
Proof.
  split; [done|]. eexists. split; [reflexivity|]. intros appid. cbn beta.
  rewrite get_app_settings_speaking by lia. unfold speaking.
  destruct (app_row_answers appid) as [r ->], (app_row_answers unknown) as [r' ->].
  by destruct r, r'.
Qed.

Definition first_app : AppInfo := mkAppInfo "game" "1".

(** The database does not list the application, and [unknown] speaks for it:
    anonymous clients, names drawn behind a prefix, no limits but that of the
    process, and friends are not found. *)
Lemma database_admits_application_witness :
  ∃ D a app, get empty_directory (key_of first_app) = (D, Some a) ∧
    app_heap D !! a = Some app ∧ set_appid (settings_ app) = unknown ∧
    auth_mode (settings_ app) = 1 ∧ custom_anonymous_uid_mode (settings_ app) = 2 ∧
    anonymous_uid_prefix (settings_ app) = "anon-"%stdpp ∧ max_peers_per_game (settings_ app) = 16 ∧
    allow_find_friends (settings_ app) ≠ true.
Proof.
  pose proof (database_admits_application stored_tables empty_directory first_app
    empty_directory_ok tables_read) as H.
  specialize (H ltac:(intros a Ha; apply app_key_Some in Ha as (? & Ha & _); discriminate Ha)).
  assert (speaking (app_row stored_tables) (app_id first_app) =
    Some (Some (unknown, [SInt 1; SInt 0; SInt 2; SText "anon-"; SInt 0; SInt 0; SInt 0; SInt 1])))
    as E by (vm_compute; reflexivity).
  rewrite E in H. destruct (get empty_directory (key_of first_app)) as [D [a|]]; [|destruct H].
  destruct H as (app & Happ & _ & [Hid Hauth Hf (_ & Hm & _) Hp _ Hr _ _]).
  exists D, a, app. split; [done|]. split; [done|]. split; [exact Hid|].
  split; [exact Hauth|]. split; [exact (Hm ltac:(vm_compute; split; discriminate))|].
  split; [exact Hp|]. split; [exact Hr|]. intros Ht. by apply Hf in Ht.
Defined.

(** ** Providers *)

(** The plugin of the mechanism 2 vouches for whoever knows the key. *)
#[local] Instance vouching : Authenticators := {|
  Authentication.get_auth_provider := Some (λ appid t,
    match get_auth_provider 2 stored_tables appid t with
    | Some (inl r) => r
    | _ => None
    end);
  auth_plugins := Some (Some {[ 2 := λ uid params _ secret _,
    if bool_decide (secret = Some params) then inl uid else inr (CustomAuthenticationFailed, ∅) ]});
|}.

Lemma provider_row_answers a t : ∃ r, provider_row stored_tables a t = Some r.
Proof.
  unfold provider_row. cbn. unfold select_tables.
  destruct (is_sql_spec sql_auth_provider sql_max_version) as [E|]; [discriminate E|].
  destruct (is_sql_spec sql_auth_provider sql_auth_provider); [eauto|done].
Qed.

Lemma providers_read : reads_providers stored_tables.
Proof.
  eexists. split; [reflexivity|]. intros appid t. cbn beta.
  rewrite get_auth_provider_speaking by lia. unfold speaking.
  destruct (provider_row_answers appid t) as [r ->], (provider_row_answers unknown t) as [r' ->].
  by destruct r, r'.
Qed.

Definition strict_app : AppSettings :=
  default_settings <| set_appid := "app"%stdpp |> <| auth_mode := 2 |>.

(** What the client sends: a mechanism, a key and its name. *)
Definition presents (key : string) : list ViewField :=
  [mkView (mkParameter TByte KeyClientAuthenticationType false (Some 0) None) (Some 2);
   mkView (mkParameter TString KeyClientAuthenticationParameters false (Some EmptyString) None) (Some key);
   mkView (mkParameter TString KeyUserId true None None) (Some "ann"%stdpp)].

Lemma strict_login_needs_provider_witness :
  identify strict_app (presents "key") "drawn" = inl "ann"%stdpp ∧
  ¬ (identify strict_app (presents "guess") "drawn" = inl "ann"%stdpp).
Proof.
  assert (auth_mode strict_app ≠ Weak) as Hw by (vm_compute; discriminate).
  assert (auth_mode strict_app ≠ Anonymous) as Ha by (vm_compute; discriminate).
  pose proof (λ key, strict_login_needs_provider stored_tables strict_app (presents key) "drawn" "ann"
    providers_read Hw (or_introl Ha)) as H.
  split.
  - apply (H "key"%stdpp). split; [discriminate|].
    eexists "ann"%stdpp, "app"%stdpp, _, _, _. split; [reflexivity|]. split; [discriminate|].
    split; [vm_compute; reflexivity|]. split; [vm_compute; discriminate|].
    split; [reflexivity|]. split; [vm_compute; reflexivity|]. vm_compute. reflexivity.
  - intros (_ & uid & name & row & plugins & callback & _ & _ & Hrow & _ & Hp & Hc & Hi)%(H "guess"%stdpp).
    vm_compute in Hrow. injection Hrow as <- <-. injection Hp as <-.
    vm_compute in Hc. injection Hc as <-. vm_compute in Hi. discriminate Hi.
Defined.
